(* ===== verification/_CoqProject ===== *)
-Q . S2P
Prelude.v
Ints.v
Errors.v
Input.v
Discipline.v
Output.v
Traits.v
Primitives.v
Compact.v
CompactTheory.v
Sequences.v
SequencesTheory.v
Composite.v
Collections.v
Heap.v
EncodeLike.v
BitVec.v
ForeignTypes.v
BytesCursor.v
Limits.v
Footprint.v
Append.v
MaxLen.v
Derive.v
DeriveTheory.v
InPlace.v
InPlaceTheory.v
EncodeTotal.v
Reencode.v
Fuzzer.v
FuzzerTheory.v
TrackedTypes.v
Tuples.v
Universe.v
UniverseTheory.v
TypedValues.v
TypedCodecs.v
Nesting.v
Recursive.v
RecursiveTypes.v
Conformance.v
CompactTests.v
CodecTests.v
ConstLenTests.v
ModuleTests.v
Syntax.v
Attributes.v
AttributesTheory.v
TraitBounds.v
Expand.v
ExpandTheory.v
Macros.v
Elaborate.v
CompactAsDerive.v
IntegrationTests.v
Correctness.v
Guarantees.v
DerivedTypes.v
