(* ===== verification/Prelude.v ===== *)
(** * The SCALE codec of [parity-scale-codec]

    A model of the crate [parity-scale-codec] ([src/src]) and of its derive macros
    ([src/derive/src]), from the tokens they are given to the code they generate,
    and the theorems that make it a codec: what is encoded is decoded to the same
    value, decoders accept nothing else where the format is canonical, they do not
    panic on any input, the optimised paths agree with the plain ones, the limits
    on depth and memory do what they promise, and the macros generate encoders and
    decoders that fit each other or report an error.

    ** The program and its model

    A type implements [Encode] and [Decode]; implementations for containers call
    those of their items.  Decoders are generic in the [Input] they read, encoders
    in the [Output] they write.

    - [Prelude]: outcomes of code that may unwind, [Result], automation, lists.
    - [Ints]: the primitive number types at their widths, their bytes in memory,
      the arithmetic of [usize] (wrapping, checked, saturating, overflow-checked),
      the class [Target] of the pointer width (32 or 64 bits) and byte order.
      Floating-point numbers are their bit patterns.
    - [Errors] ([error.rs]): [Error] with its chain of causes and its display.
    - [Input] ([codec.rs], [trait Input]): a function that is generic in its
      input is a tree [prog] of the methods it calls.  [run] executes it on an
      input ([&[u8]], [IoReader]), [interp] on a wrapper that is itself a program
      over another input.  The Rust operator [?] is the notation [x ⇐ d; k].
    - [Discipline]: the inductive predicate [wb] of well-behaved decoders: calls
      of [descend_ref] and [ascend_ref] are balanced, errors of the input are
      passed on, no panic is reachable.  Totality, framing and the equivalence of
      inputs are proved once, by induction on it.
    - [Output] ([codec.rs], [trait Output]): encoders as sequences of writes, and
      the outputs [Vec<u8>], [io::Write], [SizeTracker], [ArrayVecWrapper].
    - [Traits] ([codec.rs]): [Encode] and [Decode] as records of their methods
      with the default bodies; the classes [EncodeLaws], [DecodeLaws],
      [CodecLaws] and [Canonical] state what one implementation promises to
      another, and each implementation below is an instance.
    - [Primitives] ([codec.rs]): numbers, [bool], [OptionBool], non-zero numbers,
      [()], [PhantomData].
    - [Compact], [CompactTheory] ([compact.rs]): compact integers, [PrefixInput],
      [CompactAs], and the specification [compact_spec] of the format.
    - [Sequences], [SequencesTheory] ([codec.rs]): slices, vectors, arrays,
      strings, [DecodeLength], with the bulk and the item-wise paths.
    - [Composite] ([codec.rs]): [Option], [Result], tuples, [Box], [Rc], [Arc],
      [Cow], [Range], [RangeInclusive], [Duration].
    - [Collections] ([codec.rs], [btree_utils.rs]): maps, sets, lists, deques;
      [Heap]: binary heaps.
    - [EncodeLike] ([encode_like.rs], [codec.rs]): the marker [EncodeLike] as a
      class that relates two encoders by the values that stand for each other,
      with the implementations of the crate as instances; [Ref].
    - [BitVec] ([bit_vec.rs], [generic_array.rs]): bit slices, vectors and boxes
      over a class of storage types, generic arrays; [ForeignTypes]: their
      properties, with the unsigned integers as storage types.
    - [BytesCursor] ([codec.rs], feature [bytes]): [BytesCursor] as an input,
      decoders of types that may contain [Bytes] ([bytes_dec]), which take parts of
      the buffer instead of copying them, and [decode_from_bytes].
    - [Limits] ([depth_limit.rs], [mem_tracking.rs], [counted_input.rs],
      [decode_all.rs]): the wrappers of inputs.  A wrapper that only watches the
      hooks is a monitor; what it accepts is decided by the trace of hooks of the
      run without it.
    - [Footprint] ([mem_tracking.rs]): the marker [DecodeWithMemTracking] as the
      class [MemTracked]: what a decoder announces covers what the value owns on
      the heap; [TrackedTypes]: its instances for derived types, and memory limits.
    - [Append] ([encode_append.rs], [keyedvec.rs], [joiner.rs]): operations on
      encoded data.
    - [MaxLen] ([max_encoded_len.rs], [const_encoded_len.rs]): bounds on lengths.
    - [Derive], [DeriveTheory] ([derive/src]): the generated implementations, as
      functions of a declaration of fields and variants with their attributes.
    - [InPlace], [InPlaceTheory] ([codec.rs], [decode_finished.rs],
      [derive/src/decode.rs]): [decode_into] as code that works on memory.  A
      destination is a slot that may be uninitialised; every step says which slots
      it fills and which objects it makes or drops, and whether it unwinds.  The
      other files model the values of the same functions.
    - [EncodeTotal]: the class [Encodable], which tells on which values [encode]
      succeeds; [Reencode]: the class [TotalCodec], what is decoded can be encoded.
    - [Fuzzer], [FuzzerTheory] ([fuzzer/src/main.rs]): the types of the fuzzer, its
      flows and the macros that select a type.
    - [Tuples] ([codec.rs], [tuple_impl!]): tuples of any number of components, and
      their agreement with nested pairs.
    - [Universe], [UniverseTheory], [TypedValues], [TypedCodecs]: a syntax of the types
      that can be written with the crate's types, tuples and derived types, the
      implementations the compiler finds for them, what a value owns and how many
      items its collections have, and by induction on the syntax the laws of all
      types that are [accepted].
    - [Nesting]: what two decoders have in common up to a depth; [Recursive]: the
      implementations of a type that refers to itself, unrolled to a number of stack
      frames; [RecursiveTypes] ([tests/mod.rs]): three such types.
    - [Conformance], [CompactTests], [CodecTests], [ConstLenTests], [ModuleTests] (the
      modules [tests] of [src/src]) and [IntegrationTests] ([src/tests]): the tests, as
      computations that pass or panic.
    - [Syntax]: tokens, attributes and declarations as [syn] has them; its parsers
      are the class [Syn].
    - [Attributes], [AttributesTheory] ([derive/src/utils.rs]): the finders of
      attributes, [check_attributes], the custom bounds, the path of the crate.
    - [TraitBounds] ([derive/src/trait_bounds.rs]): the visitors of types and the
      predicates that are added to the [where] clause.
    - [Expand], [ExpandTheory], [Macros] ([derive/src/lib.rs], [encode.rs],
      [decode.rs], [max_encoded_len.rs]): the five macros.  What is quoted is a
      value that says how each field and variant is handled; an expansion is an
      implementation, a compile-time error, or a panic of the macro.
    - [Elaborate]: the codecs that the bodies returned by the macros stand for, given
      the implementations of the field types; they are those of [Derive] for the
      parsed declaration, which ties the two halves together.
    - [CompactAsDerive] ([derive/src/lib.rs], [compact.rs]): [derive(CompactAs)], the
      implementation read off the body of the macro.
    - [Correctness], [Guarantees], [DerivedTypes]: the properties of the codec and
      of derived types; those of the other components end their files.  Each has
      an instance at concrete values.

    ** What the theorems show

    C1, C2 compact integers: round trip, canonicity.  C3 to C6, C21 sequences:
    equivalence of the optimised paths with the plain ones, round trips, canonicity,
    termination on any input and the one panic that is left on 32-bit targets.  C7, C22
    all codecs: [decode_all] is the inverse of [encode] and refuses leftover data,
    framing, [IoReader].  C8, C9, C10, C20 and C36 every accepted type of [Universe] on a
    64-bit target: when [encode] succeeds, type safety, totality, round trips of streams
    of values, memory limits, bounds on lengths.  C11, C12 and C37 the generated implementations;
    C13 to C15 and C32 to C34 the macros: from tokens to a codec, agreement of the two
    derives, panics, attributes, bounds.  C16 to C20 limits on depth and memory, and
    what they bound: C17 and C18 the recursion of recursive types; C35 counted inputs.
    C23, C24 memory safety of decoding in place.  C25 and C38 the fuzzer: what it
    checks holds of every type in its lists.  C26 maps, C27, C28 appending to encoded
    vectors, C29 shared buffers, C30 bit vectors, C31 [EncodeLike], C39 strings, C40
    binary heaps.
    C15, C24, C25, C28, C31, C34, C35, C37 and C38 also prove behaviours of the code
    that a caller may not expect.  Further theorems of the kind have no number:
    [composite_encode_decode], [btree_map_encode_decode], [vec_deque_encode_decode],
    [counted_input_spec], [vec_mem_limit],
    [derived_mem_limit], [max_encoded_len_spec], [const_encoded_len_spec],
    [tuple_impl_nested], [fuzz_encode_ok], [fuzz_sorted_ok], [btree_exceeds_mem_limit],
    [unlimited_overflow], [binding_names_spec], [duplicate_index_not_injective].
    The theorems [unit_tests_pass] and [integration_tests_pass] run the transcribed
    tests of the repository on the model; they validate it, and claim nothing about the
    code beyond those inputs.

    ** Conventions and bounds

    - The features [std], [chain-error] and [bytes] are on.  Arithmetic is
      overflow-checked, as in a debug build.
    - Recursion is structural except for the loop of [decode_vec_chunked], whose
      fuel [len / chunk_len + 1] is proved to be enough; [sift_down], whose fuel is
      the length of the heap; [chunks], whose fuel is the number of bits; and
      [parse_terminated], whose fuel is the number of tokens, each round taking
      a comma.
    - [mem::size_of] of a type whose layout is the compiler's choice is an
      argument.  The compile-time assertion of [decode_vec_chunked] that an item
      is at most [MAX_PREALLOCATION] bytes long, together with a 64-bit [usize],
      gives the hypothesis [vec_fits] (lemma [vec_fits_64]) under which growing
      the vector cannot overflow [isize::MAX] bytes.  The laws of vectors, and of
      what is made of them, suppose [vec_fits]; on 32-bit targets only zero-sized
      items have it, and there C6 says exactly when growing the vector can panic.
    - The laws of the types of [Universe] suppose [accepted] and speak about values
      that are [well_typed]; the header of [Universe] lists both conditions.  One of
      them, distinct indices of variants, the macros do not check
      ([duplicate_index_not_injective]).
    - Running out of memory is not modelled; reading an uninitialised slot is
      [Undefined] in [InPlace].  A slice, vector or array is the list of its items, a tuple of
      more than two items the nested pairs of them.
    - The recursion of a recursive type is bounded by the number [n] of frames of
      [decode_frames] and [encode_frames]: the call that does not fit overflows the
      stack, as in the program.  C17 and C18 say how many frames are enough, and
      [unlimited_overflow] that without a limit no number is.
    - [std::io::Read] and [std::io::Write] are class parameters, with instances
      for byte slices and vectors.
    - The crates [syn], [proc-macro-crate], [bitvec], [generic-array] and [bytes]
      are classes ([Syn], [BitStore], [GenericArray], [Bytes]) whose laws state
      what is documented of them; each has a concrete instance.
    - The test by [TypeId] that makes [Input::scale_internal_decode_bytes] return
      [Bytes] is the choice between the two ways to run [bytes_dec].

    ** What is not modelled

    Serde and arbitrary support (forwarding to the traits of other crates), the
    parsers of [syn], spans of error messages, benchmarks and the build script: they
    are code of other crates, measurements, or text for the reader of an error.  Of
    the fuzzer, the loop of honggfuzz and the values [arbitrary] produces.  The file
    [src/src/lib.rs] only declares and exports the modules.  Of the unit tests, the one
    of the capacity of a [Vec], which the allocator chooses, the one of the statistics
    of the allocator, and those that only check that an implementation exists.  Of the
    tests under [tests], those that only have to compile, the ones that decode a
    hundred megabytes to watch the stack, and the snapshots of compiler messages.
    The recursion of types is modelled for types that refer to themselves behind
    vectors, boxes, reference counts and collections, which is where the compiler
    allows it.  [Universe] leaves out [bytes::Bytes], [CompactAs] types, generic arrays
    and recursive or transparent derived types, which have theorems of their own. *)

From Stdlib Require Export Init.Byte.
From stdpp Require Export prelude strings.
From coqutil Require Export Byte.
From coqutil Require Export Word.LittleEndianList.

#[global] Open Scope Z_scope.

(** ** Outcomes

    Safe Rust code either returns or unwinds.  [Panic] carries the message of
    the [assert!], [expect], [unreachable!] or arithmetic-overflow check that
    fired. *)

Inductive outcome (A : Type) : Type :=
| Done (a : A)
| Panic (msg : string).
Arguments Done {_} _.
Arguments Panic {_} _%_string_scope.

(** [Result<A, E>] of the Rust core library. *)
Inductive Result (A E : Type) : Type :=
| Ok (a : A)
| Err (e : E).
Arguments Ok {_ _} _.
Arguments Err {_ _} _.

#[global] Instance outcome_ret : MRet outcome := @Done.
#[global] Instance outcome_bind : MBind outcome := fun A B f m =>
  match m with
  | Done a => f a
  | Panic msg => Panic msg
  end.
#[global] Instance outcome_fmap : FMap outcome := fun A B f m =>
  match m with
  | Done a => Done (f a)
  | Panic msg => Panic msg
  end.

(** [Result::map_err] and [Result::map]. *)
Definition map_err {A E F} (f : E -> F) (r : Result A E) : Result A F :=
  match r with
  | Ok a => Ok a
  | Err e => Err (f e)
  end.

Definition result_map {A B E} (f : A -> B) (r : Result A E) : Result B E :=
  match r with
  | Ok a => Ok (f a)
  | Err e => Err e
  end.

Definition is_ok {A E} (r : Result A E) : bool :=
  match r with
  | Ok _ => true
  | Err _ => false
  end.

#[global] Instance byte_eq_dec : EqDecision byte.
Proof. intros x y. apply Byte.byte_eq_dec. Defined.

(** The length of a Rust slice, as an integer. *)
Definition zlen {A} (l : list A) : Z := Z.of_nat (length l).

(** [n] consecutive pieces of [sz] elements each. *)
Fixpoint split_chunks {A} (sz n : nat) (l : list A) : list (list A) :=
  match n with
  | O => []
  | S n => take sz l :: split_chunks sz n (drop sz l)
  end.

(** ** Automation *)

Create HintDb scale discriminated.
Create Rewrite HintDb scale.

(** Case analysis on the discriminee of the first stuck [match] or [if]. *)
Ltac split_match :=
  match goal with
  | |- context [match ?x with _ => _ end] =>
      lazymatch x with
      | context [match _ with _ => _ end] => fail
      | _ => let E := fresh "E" in destruct x eqn:E
      end
  | H : context [match ?x with _ => _ end] |- _ =>
      lazymatch x with
      | context [match _ with _ => _ end] => fail
      | _ => let E := fresh "E" in destruct x eqn:E
      end
  end.

(** Decide the integer comparisons of the goal from the context. *)
Ltac decide_tests :=
  repeat match goal with
  | |- context [?a <=? ?b] =>
      first [rewrite (proj2 (Z.leb_le a b)) by lia | rewrite (proj2 (Z.leb_gt a b)) by lia]
  | |- context [?a <? ?b] =>
      first [rewrite (proj2 (Z.ltb_lt a b)) by lia | rewrite (proj2 (Z.ltb_ge a b)) by lia]
  | |- context [?a =? ?b] =>
      first [rewrite (proj2 (Z.eqb_eq a b)) by lia | rewrite (proj2 (Z.eqb_neq a b)) by lia]
  end.

(** Linear arithmetic with divisions by constants. *)
Ltac dlia := Z.to_euclidean_division_equations; lia.

(** Booleans of the integer comparisons, turned into propositions. *)
Ltac bool_to_prop :=
  repeat match goal with
  | H : _ && _ = true |- _ => apply andb_true_iff in H; destruct H
  | H : _ && _ = false |- _ => apply andb_false_iff in H
  | H : _ || _ = true |- _ => apply orb_true_iff in H
  | H : _ || _ = false |- _ => apply orb_false_iff in H; destruct H
  | H : negb _ = true |- _ => apply negb_true_iff in H
  | H : negb _ = false |- _ => apply negb_false_iff in H
  | H : (_ <? _) = true |- _ => apply Z.ltb_lt in H
  | H : (_ <? _) = false |- _ => apply Z.ltb_ge in H
  | H : (_ <=? _) = true |- _ => apply Z.leb_le in H
  | H : (_ <=? _) = false |- _ => apply Z.leb_gt in H
  | H : (_ =? _) = true |- _ => apply Z.eqb_eq in H
  | H : (_ =? _) = false |- _ => apply Z.eqb_neq in H
  end.

(** ** Lists *)

Lemma zlen_nonneg {A} (l : list A) : 0 <= zlen l.
Proof. unfold zlen; lia. Qed.

Lemma zlen_nil {A} : zlen (@nil A) = 0.
Proof. done. Qed.

Lemma zlen_cons {A} (x : A) l : zlen (x :: l) = 1 + zlen l.
Proof. unfold zlen; simpl; lia. Qed.

Lemma zlen_app {A} (l1 l2 : list A) : zlen (l1 ++ l2) = zlen l1 + zlen l2.
Proof. unfold zlen; rewrite length_app; lia. Qed.

#[export] Hint Rewrite @zlen_nil @zlen_cons @zlen_app : scale.

Lemma take_zlen_app {A} (l1 l2 : list A) : take (Z.to_nat (zlen l1)) (l1 ++ l2) = l1.
Proof. unfold zlen; rewrite Nat2Z.id. apply take_app_length. Qed.

Lemma drop_zlen_app {A} (l1 l2 : list A) : drop (Z.to_nat (zlen l1)) (l1 ++ l2) = l2.
Proof. unfold zlen; rewrite Nat2Z.id. apply drop_app_length. Qed.

Lemma length_split_chunks {A} sz n (l : list A) : length (split_chunks sz n l) = n.
Proof. revert l; induction n; intros l; simpl; auto. Qed.

Lemma split_chunks_concat {A} sz (ls : list (list A)) rest :
  Forall (fun l => length l = sz) ls ->
  split_chunks sz (length ls) (concat ls ++ rest) = ls.
Proof.
  induction 1 as [|l ls Hl Hls IH]; simpl; [done|].
  rewrite <- app_assoc. subst sz.
  by rewrite take_app_length, drop_app_length, IH.
Qed.

Lemma concat_split_chunks {A} sz n (l : list A) :
  length l = (n * sz)%nat -> concat (split_chunks sz n l) = l.
Proof.
  revert l; induction n as [|n IH]; intros l Hl; simpl in *.
  - by destruct l.
  - rewrite IH by (rewrite length_drop; lia). apply take_drop.
Qed.

Lemma split_chunks_lengths {A} sz n (l : list A) :
  length l = (n * sz)%nat -> Forall (fun c => length c = sz) (split_chunks sz n l).
Proof.
  revert l; induction n as [|n IH]; intros l Hl; simpl in *; constructor.
  - rewrite length_take; lia.
  - apply IH. rewrite length_drop; lia.
Qed.

(** ** Bits *)

Lemma testbit_above r k n : 0 <= r < 2 ^ k -> 0 <= k <= n -> Z.testbit r n = false.
Proof.
  intros Hr Hk. apply Z.testbit_false; [lia|].
  rewrite Z.div_small; [done|]. split; [lia|].
  eapply Z.lt_le_trans; [apply Hr|]. apply Z.pow_le_mono_r; lia.
Qed.

(** Filling the low bits of a shifted number. *)
Lemma lor_shiftl_low x r k : 0 <= k -> 0 <= r < 2 ^ k -> Z.lor (Z.shiftl x k) r = x * 2 ^ k + r.
Proof.
  intros Hk Hr.
  assert (Z.land (Z.shiftl x k) r = 0) as Hland.
  { apply Z.bits_inj'. intros n Hn. rewrite Z.land_spec, Z.bits_0.
    destruct (decide (n < k)); [by rewrite Z.shiftl_spec_low by lia|].
    by rewrite (testbit_above r k n), andb_false_r by lia. }
  rewrite <- Z.lxor_lor, <- Z.add_nocarry_lxor by done.
  by rewrite Z.shiftl_mul_pow2 by lia.
Qed.

Lemma lor_bound a b k : 0 <= a < 2 ^ k -> 0 <= b < 2 ^ k -> 0 <= Z.lor a b < 2 ^ k.
Proof.
  intros Ha Hb. assert (0 <= k) by (destruct (decide (0 <= k)); [done|];
    rewrite Z.pow_neg_r in Ha by lia; lia).
  assert (0 <= Z.lor a b) by (apply Z.lor_nonneg; lia). split; [done|].
  destruct (decide (Z.lor a b = 0)) as [-> | ?]; [by apply Z.pow_pos_nonneg|].
  apply Z.log2_lt_pow2; [lia|]. rewrite Z.log2_lor by lia.
  destruct (decide (k = 0)) as [-> | ?].
  - assert (a = 0 /\ b = 0) as [-> ->] by lia. done.
  - assert (forall c, 0 <= c < 2 ^ k -> Z.log2 c < k) as Hlog; [|pose proof (Hlog a Ha); pose proof (Hlog b Hb); lia].
    intros c Hc. destruct (decide (c = 0)) as [-> | ?]; [simpl; lia|]. apply Z.log2_lt_pow2; lia.
Qed.
