(* ===== verification/Ints.v ===== *)
(** * Machine integers

    The part of the Rust language and core library the codec computes with:
    the primitive number types with their widths, [as] casts, little-endian
    byte conversions, checked and saturating arithmetic on [usize], and the
    compilation target (pointer width and endianness).  A number is kept as an
    integer of its range; a floating point number is kept as its bit pattern,
    which is all [to_le_bytes] and [from_le_bytes] look at. *)

From S2P Require Import Prelude.

(** ** Primitive number types *)

Inductive prim : Type :=
| U8 | I8 | U16 | I16 | U32 | I32 | U64 | I64 | U128 | I128 | F32 | F64.

#[global] Instance prim_eq_dec : EqDecision prim.
Proof. solve_decision. Defined.

(** [core::mem::size_of] of a primitive number type. *)
Definition prim_bytes (p : prim) : nat :=
  match p with
  | U8 | I8 => 1
  | U16 | I16 => 2
  | U32 | I32 | F32 => 4
  | U64 | I64 | F64 => 8
  | U128 | I128 => 16
  end.

Definition prim_signed (p : prim) : bool :=
  match p with
  | I8 | I16 | I32 | I64 | I128 => true
  | _ => false
  end.

Definition prim_bits (p : prim) : Z := 8 * Z.of_nat (prim_bytes p).

Definition prim_min (p : prim) : Z :=
  if prim_signed p then - 2 ^ (prim_bits p - 1) else 0.

Definition prim_max (p : prim) : Z :=
  if prim_signed p then 2 ^ (prim_bits p - 1) - 1 else 2 ^ prim_bits p - 1.

Definition in_range (p : prim) (z : Z) : Prop := prim_min p <= z <= prim_max p.

#[global] Instance in_range_dec p z : Decision (in_range p z).
Proof. unfold in_range. apply _. Defined.

(** The [as] cast into [p]: reduction modulo [2 ^ bits], two's complement. *)
Definition wrap (p : prim) (z : Z) : Z :=
  let m := z mod 2 ^ prim_bits p in
  if prim_signed p && (2 ^ (prim_bits p - 1) <=? m) then m - 2 ^ prim_bits p else m.

Definition to_le_bytes (p : prim) (z : Z) : list byte := le_split (prim_bytes p) z.

Definition from_le_bytes (p : prim) (bs : list byte) : Z := wrap p (le_combine bs).

(** [u64::leading_zeros] and friends, on an unsigned type. *)
Definition leading_zeros (p : prim) (z : Z) : Z :=
  prim_bits p - (if z =? 0 then 0 else Z.log2 z + 1).

(** ** The compilation target *)

Class Target : Type := {
  usize_bits : Z;
  target_endian_little : bool;
  usize_bits_ok : usize_bits = 32 \/ usize_bits = 64;
}.

Definition x86_64 : Target :=
  {| usize_bits := 64; target_endian_little := true; usize_bits_ok := or_intror eq_refl |}.

Definition powerpc : Target :=
  {| usize_bits := 32; target_endian_little := false; usize_bits_ok := or_introl eq_refl |}.

Definition usize_max `{Target} : Z := 2 ^ usize_bits - 1.
Definition isize_max `{Target} : Z := 2 ^ (usize_bits - 1) - 1.

(** Bytes of a number as they lie in memory, and back. *)
Definition to_ne_bytes `{Target} (p : prim) (z : Z) : list byte :=
  if target_endian_little then to_le_bytes p z else rev (to_le_bytes p z).

Definition from_ne_bytes `{Target} (p : prim) (bs : list byte) : Z :=
  if target_endian_little then from_le_bytes p bs else from_le_bytes p (rev bs).

Definition checked_mul_usize `{Target} (a b : Z) : option Z :=
  if a * b <=? usize_max then Some (a * b) else None.

Definition saturating_mul_usize `{Target} (a b : Z) : Z := Z.min (a * b) usize_max.

Definition saturating_add_usize `{Target} (a b : Z) : Z := Z.min (a + b) usize_max.

(** [a + b] on [usize] with overflow checks on. *)
Definition add_usize `{Target} (a b : Z) : outcome Z :=
  if a + b <=? usize_max then Done (a + b) else Panic "attempt to add with overflow".

Definition mul_usize `{Target} (a b : Z) : outcome Z :=
  if a * b <=? usize_max then Done (a * b) else Panic "attempt to multiply with overflow".

(** Replace the widths of the types by literals, then solve. *)
Ltac prim_lits :=
  try change (prim_bits U8) with 8 in *; try change (prim_bits U16) with 16 in *;
  try change (prim_bits U32) with 32 in *; try change (prim_bits U64) with 64 in *;
  try change (prim_bits U128) with 128 in *.
Ltac prim_lia := prim_lits; lia.

(** ** Lemmas *)

Lemma prim_bits_pos p : 8 <= prim_bits p.
Proof. destruct p; compute; discriminate. Qed.

Lemma wrap_in_range p z : in_range p (wrap p z).
Proof.
  unfold in_range, wrap, prim_min, prim_max.
  pose proof (prim_bits_pos p).
  pose proof (Z.mod_pos_bound z (2 ^ prim_bits p) ltac:(apply Z.pow_pos_nonneg; lia)).
  assert (2 ^ prim_bits p = 2 * 2 ^ (prim_bits p - 1)) as Hp.
  { rewrite <- Z.pow_succ_r by lia. f_equal; lia. }
  destruct (prim_signed p); simpl; [case_match; bool_to_prop|]; lia.
Qed.

Lemma wrap_id p z : in_range p z -> wrap p z = z.
Proof.
  unfold in_range, wrap, prim_min, prim_max. intros Hz.
  pose proof (prim_bits_pos p).
  assert (2 ^ prim_bits p = 2 * 2 ^ (prim_bits p - 1)) as Hp.
  { rewrite <- Z.pow_succ_r by lia. f_equal; lia. }
  destruct (prim_signed p); simpl in *; [|by rewrite Z.mod_small by lia].
  destruct (decide (0 <= z)).
  - rewrite Z.mod_small by lia. case_match; bool_to_prop; lia.
  - rewrite <- (Z.mod_add z 1), Z.mod_small by lia.
    case_match; bool_to_prop; lia.
Qed.

Lemma wrap_mod p z : wrap p (z mod 2 ^ prim_bits p) = wrap p z.
Proof. unfold wrap. by rewrite Zmod_mod. Qed.

Lemma length_to_le_bytes p z : length (to_le_bytes p z) = prim_bytes p.
Proof. apply length_le_split. Qed.

Lemma from_to_le_bytes p z : in_range p z -> from_le_bytes p (to_le_bytes p z) = z.
Proof.
  intros Hz. unfold from_le_bytes, to_le_bytes. rewrite le_combine_split.
  rewrite Z.mul_comm. change (8 * Z.of_nat (prim_bytes p)) with (prim_bits p).
  by rewrite wrap_mod, wrap_id.
Qed.

Lemma from_le_bytes_in_range p bs : in_range p (from_le_bytes p bs).
Proof. apply wrap_in_range. Qed.

Lemma le_split_wrap p z : le_split (prim_bytes p) (wrap p z) = le_split (prim_bytes p) z.
Proof.
  rewrite (le_split_mod (wrap p z)), (le_split_mod z). f_equal.
  rewrite Z.mul_comm. change (8 * Z.of_nat (prim_bytes p)) with (prim_bits p).
  unfold wrap. case_match; [|apply Zmod_mod].
  rewrite <- (Z.mod_add _ 1) by (pose proof (prim_bits_pos p); apply Z.pow_nonzero; lia).
  rewrite Z.mul_1_l, Z.sub_add. apply Zmod_mod.
Qed.

Lemma to_from_le_bytes p bs :
  length bs = prim_bytes p -> to_le_bytes p (from_le_bytes p bs) = bs.
Proof.
  intros Hlen. unfold to_le_bytes, from_le_bytes.
  rewrite le_split_wrap. by apply split_le_combine'.
Qed.

Lemma length_to_ne_bytes `{Target} p z : length (to_ne_bytes p z) = prim_bytes p.
Proof. unfold to_ne_bytes. case_match; rewrite ?length_rev; apply length_to_le_bytes. Qed.

Lemma from_to_ne_bytes `{Target} p z : in_range p z -> from_ne_bytes p (to_ne_bytes p z) = z.
Proof.
  intros. unfold from_ne_bytes, to_ne_bytes.
  case_match; rewrite ?rev_involutive; by apply from_to_le_bytes.
Qed.

Lemma isize_max_ge `{Target} : 2 ^ 31 - 1 <= isize_max.
Proof. unfold isize_max. destruct usize_bits_ok as [-> | ->]; lia. Qed.

Lemma isize_usize_max `{Target} : 2 * isize_max < usize_max.
Proof. unfold isize_max, usize_max. destruct usize_bits_ok as [-> | ->]; lia. Qed.

Lemma usize_max_ge `{Target} : 2 ^ 32 - 1 <= usize_max.
Proof. unfold usize_max. destruct usize_bits_ok as [-> | ->]; lia. Qed.

Lemma from_le_bytes_unsigned p bs :
  prim_signed p = false -> length bs = prim_bytes p -> from_le_bytes p bs = le_combine bs.
Proof.
  intros Hs Hl. apply wrap_id. unfold in_range, prim_min, prim_max. rewrite Hs.
  pose proof (le_combine_bound bs). rewrite Hl in *.
  change (8 * Z.of_nat (prim_bytes p)) with (prim_bits p) in *. lia.
Qed.

Lemma from_ne_bytes_in_range `{Target} p bs : in_range p (from_ne_bytes p bs).
Proof. unfold from_ne_bytes. case_match; apply from_le_bytes_in_range. Qed.

#[export] Hint Resolve wrap_in_range from_le_bytes_in_range from_ne_bytes_in_range : scale.
