(* ===== verification/Errors.v ===== *)
(** * Errors ([src/src/error.rs])

    The [Error] type with the [chain-error] feature, which the default [std]
    feature turns on: a description and the error that caused it. *)

From S2P Require Import Prelude.
#[local] Open Scope string_scope.

Inductive Error : Type :=
| mkError (cause : option Error) (desc : string).

Definition Error_cause (e : Error) : option Error :=
  match e with mkError cause _ => cause end.

Definition Error_desc (e : Error) : string :=
  match e with mkError _ desc => desc end.

(** [impl From<&'static str> for Error]. *)
Definition Error_from (desc : string) : Error := mkError None desc.

(** [Error::chain]. *)
Definition chain (self : Error) (desc : string) : Error := mkError (Some self) desc.

(** [std::error::Error::source]. *)
Definition source (self : Error) : option Error := Error_cause self.

Definition TAB : string := String (Ascii.ascii_of_nat 9) EmptyString.
Definition NL : string := String (Ascii.ascii_of_nat 10) EmptyString.

(** [for _ in 0..indent { f.write_str("\t")?; }] *)
Fixpoint write_tabs (indent : nat) : string :=
  match indent with
  | O => ""
  | S n => TAB +:+ write_tabs n
  end.

(** [Error::display_with_indent]: the text written to the formatter. *)
Fixpoint display_with_indent (indent : nat) (self : Error) : string :=
  match self with
  | mkError cause desc =>
      write_tabs indent +:+ desc +:+
      match cause with
      | Some cause => ":" +:+ NL +:+ display_with_indent (S indent) cause
      | None => if Nat.eqb indent 0 then "" else NL
      end
  end.

(** [impl Display for Error]. *)
Definition fmt (self : Error) : string := display_with_indent 0 self.

(** The descriptions of a chain, outermost first. *)
Fixpoint descriptions (self : Error) : list string :=
  match self with
  | mkError cause desc =>
      desc :: match cause with Some c => descriptions c | None => [] end
  end.

(** The message of [test_full_error]. *)
Example display_full_error :
  fmt (chain (chain (Error_from "root cause") "wrap cause") "final type")
  = "final type:" +:+ NL +:+ TAB +:+ "wrap cause:" +:+ NL +:+ TAB +:+ TAB +:+ "root cause" +:+ NL.
Proof. reflexivity. Qed.

(** The text after the first line of a chained error: one line per
    description, each one tab further in than the one before. *)
Fixpoint chain_lines (indent : nat) (ds : list string) : string :=
  match ds with
  | [] => ""
  | [d] => write_tabs indent +:+ d +:+ NL
  | d :: ds => write_tabs indent +:+ d +:+ ":" +:+ NL +:+ chain_lines (S indent) ds
  end.

Fixpoint Error_size (self : Error) : nat :=
  match self with
  | mkError (Some c) _ => S (Error_size c)
  | mkError None _ => O
  end.

Lemma descriptions_cons e : exists d ds, descriptions e = d :: ds.
Proof. destruct e as [c d]; simpl; eauto. Qed.

Lemma display_indented n e :
  display_with_indent (S n) e = chain_lines (S n) (descriptions e).
Proof.
  remember (Error_size e) as m eqn:Hm. revert n e Hm.
  induction m as [|m IH]; intros n [[c|] d] Hm; simpl in Hm; try discriminate.
  - reflexivity.
  - cbn [display_with_indent descriptions]. rewrite IH by lia.
    destruct (descriptions_cons c) as (d' & ds & ->). reflexivity.
Qed.

Lemma display_chain_l e d :
  fmt (chain e d) = d +:+ ":" +:+ NL +:+ chain_lines 1 (descriptions e).
Proof. unfold fmt, chain. cbn [display_with_indent]. by rewrite display_indented. Qed.
