(* ===== verification/Input.v ===== *)
(** * Input ([trait Input], [src/src/codec.rs])

    A function that is generic in [I: Input] can do nothing with its input but
    call the methods of the trait.  [prog] is the type of such functions: a
    tree whose nodes are the calls and whose branches are the results a call
    can have.  [run] executes a program on a concrete input, [interp] executes
    it on a wrapper struct ([PrefixInput], [CountedInput], ...) that implements
    [Input] by calling the input it borrows. *)

From S2P Require Import Prelude Ints Errors.

(** ** Programs over an input *)

Inductive prog (A : Type) : Type :=
| Ret (a : A)
| Halt (msg : string)
| RemainingLen (k : Result (option Z) Error -> prog A)
| Read (n : Z) (k : Result (list byte) Error -> prog A)
| ReadByte (k : Result byte Error -> prog A)
| DescendRef (k : Result unit Error -> prog A)
| AscendRef (k : prog A)
| OnBeforeAllocMem (size : Z) (k : Result unit Error -> prog A).
Arguments Ret {_} _.
Arguments Halt {_} _%_string_scope.
Arguments RemainingLen {_} _.
Arguments Read {_} _ _.
Arguments ReadByte {_} _.
Arguments DescendRef {_} _.
Arguments AscendRef {_} _.
Arguments OnBeforeAllocMem {_} _ _.

Fixpoint prog_bind {A B} (p : prog A) (f : A -> prog B) : prog B :=
  match p with
  | Ret a => f a
  | Halt msg => Halt msg
  | RemainingLen k => RemainingLen (fun r => prog_bind (k r) f)
  | Read n k => Read n (fun r => prog_bind (k r) f)
  | ReadByte k => ReadByte (fun r => prog_bind (k r) f)
  | DescendRef k => DescendRef (fun r => prog_bind (k r) f)
  | AscendRef k => AscendRef (prog_bind k f)
  | OnBeforeAllocMem size k => OnBeforeAllocMem size (fun r => prog_bind (k r) f)
  end.

#[global] Instance prog_mret : MRet prog := @Ret.
#[global] Instance prog_mbind : MBind prog := fun A B f p => prog_bind p f.

(** The body of a function that returns [Result<A, Error>]. *)
Definition dec (A : Type) : Type := prog (Result A Error).

(** The [?] operator. *)
Definition try_bind {A B} (d : dec A) (k : A -> dec B) : dec B :=
  prog_bind d (fun r => match r with Ok a => k a | Err e => Ret (Err e) end).

Definition ok {A} (a : A) : dec A := Ret (Ok a).
Definition throw {A} (msg : string) : dec A := Ret (Err (Error_from msg)).
Arguments throw {_} _%_string_scope.

(** [.map_err(|e| e.chain(desc))] and [.map(f)] on a call's result. *)
Definition chain_err {A} (desc : string) (d : dec A) : dec A :=
  prog_bind d (fun r => Ret (map_err (fun e => chain e desc) r)).
Arguments chain_err {_} _%_string_scope _.
Definition dec_map {A B} (f : A -> B) (d : dec A) : dec B :=
  prog_bind d (fun r => Ret (result_map f r)).

(** The methods of the trait, as calls. *)
Definition remaining_len : dec (option Z) := RemainingLen Ret.
Definition read (n : Z) : dec (list byte) := Read n Ret.
Definition read_byte : dec byte := ReadByte Ret.
Definition descend_ref : dec unit := DescendRef Ret.
Definition ascend_ref : prog unit := AscendRef (Ret tt).
Definition on_before_alloc_mem (size : Z) : dec unit := OnBeforeAllocMem size Ret.

Declare Scope prog_scope.
Delimit Scope prog_scope with prog.
Notation "x ⇐ d ; k" := (try_bind d (fun x => k))
  (at level 20, d at level 100, k at level 200, only parsing) : prog_scope.
Notation "' x ⇐ d ; k" := (try_bind d (fun x => k))
  (at level 20, x pattern, d at level 100, k at level 200, only parsing) : prog_scope.
#[global] Open Scope prog_scope.

(** ** Concrete inputs *)

(** The trait, by the effect of each method on the value that implements it.
    A method may unwind. *)
Class Input (I : Type) : Type := {
  i_remaining_len : I -> outcome (Result (option Z) Error * I);
  i_read : Z -> I -> outcome (Result (list byte) Error * I);
  i_read_byte : I -> outcome (Result byte Error * I);
  i_descend_ref : I -> outcome (Result unit Error * I);
  i_ascend_ref : I -> outcome I;
  i_on_before_alloc_mem : Z -> I -> outcome (Result unit Error * I);
}.

(** Default bodies of the trait's provided methods. *)
Definition default_read_byte {I}
    (read : Z -> I -> outcome (Result (list byte) Error * I)) (i : I)
    : outcome (Result byte Error * I) :=
  '(r, i) ← read 1 i;
  match r with
  | Ok (b :: _) => Done (Ok b, i)
  | Ok [] => Panic "index out of bounds"
  | Err e => Done (Err e, i)
  end.
Definition default_hook {I} (i : I) : outcome (Result unit Error * I) := Done (Ok tt, i).
Definition default_ascend_ref {I} (i : I) : outcome I := Done i.

Fixpoint run {I} `{Input I} {A} (p : prog A) (i : I) : outcome (A * I) :=
  match p with
  | Ret a => Done (a, i)
  | Halt msg => Panic msg
  | RemainingLen k => '(r, i) ← i_remaining_len i; run (k r) i
  | Read n k => '(r, i) ← i_read n i; run (k r) i
  | ReadByte k => '(r, i) ← i_read_byte i; run (k r) i
  | DescendRef k => '(r, i) ← i_descend_ref i; run (k r) i
  | AscendRef k => i ← i_ascend_ref i; run k i
  | OnBeforeAllocMem size k => '(r, i) ← i_on_before_alloc_mem size i; run (k r) i
  end.

(** [impl Input for &[u8]]. *)
Definition slice_read (n : Z) (self : list byte) : outcome (Result (list byte) Error * list byte) :=
  if zlen self <? n then Done (Err (Error_from "Not enough data to fill buffer"), self)
  else Done (Ok (take (Z.to_nat n) self), drop (Z.to_nat n) self).

#[global] Instance slice_input : Input (list byte) := {|
  i_remaining_len self := Done (Ok (Some (zlen self)), self);
  i_read := slice_read;
  i_read_byte := default_read_byte slice_read;
  i_descend_ref := default_hook;
  i_ascend_ref := default_ascend_ref;
  i_on_before_alloc_mem _ := default_hook;
|}.

(** [impl From<std::io::Error> for Error]. *)
Inductive ErrorKind : Type :=
| NotFound | PermissionDenied | ConnectionRefused | ConnectionReset | ConnectionAborted
| NotConnected | AddrInUse | AddrNotAvailable | BrokenPipe | AlreadyExists | WouldBlock
| InvalidInput | InvalidData | TimedOut | WriteZero | Interrupted | Other | UnexpectedEof
| UnlistedKind.

Definition Error_from_io (kind : ErrorKind) : Error :=
  Error_from
    match kind with
    | NotFound => "io error: NotFound"
    | PermissionDenied => "io error: PermissionDenied"
    | ConnectionRefused => "io error: ConnectionRefused"
    | ConnectionReset => "io error: ConnectionReset"
    | ConnectionAborted => "io error: ConnectionAborted"
    | NotConnected => "io error: NotConnected"
    | AddrInUse => "io error: AddrInUse"
    | AddrNotAvailable => "io error: AddrNotAvailable"
    | BrokenPipe => "io error: BrokenPipe"
    | AlreadyExists => "io error: AlreadyExists"
    | WouldBlock => "io error: WouldBlock"
    | InvalidInput => "io error: InvalidInput"
    | InvalidData => "io error: InvalidData"
    | TimedOut => "io error: TimedOut"
    | WriteZero => "io error: WriteZero"
    | Interrupted => "io error: Interrupted"
    | Other => "io error: Other"
    | UnexpectedEof => "io error: UnexpectedEof"
    | UnlistedKind => "io error: Unknown"
    end%string.

(** [std::io::Read], by its method [read_exact]: it fills the buffer or fails. *)
Class IoRead (R : Type) : Type := read_exact : Z -> R -> Result (list byte) ErrorKind * R.

(** [pub struct IoReader<R: std::io::Read>(pub R)]. *)
Record IoReader (R : Type) : Type := mkIoReader { io_inner : R }.
Arguments mkIoReader {_} _.
Arguments io_inner {_} _.

Definition io_read {R} `{IoRead R} (n : Z) (self : IoReader R)
    : outcome (Result (list byte) Error * IoReader R) :=
  let '(r, inner) := read_exact n (io_inner self) in
  Done (map_err Error_from_io r, mkIoReader inner).

#[global] Instance io_input {R} `{IoRead R} : Input (IoReader R) := {|
  i_remaining_len self := Done (Ok None, self);
  i_read := io_read;
  i_read_byte := default_read_byte io_read;
  i_descend_ref := default_hook;
  i_ascend_ref := default_ascend_ref;
  i_on_before_alloc_mem _ := default_hook;
|}.

(** [impl std::io::Read for &[u8]]: a short source is emptied. *)
#[global] Instance slice_io_read : IoRead (list byte) := fun n self =>
  if zlen self <? n then (Err UnexpectedEof, [])
  else (Ok (take (Z.to_nat n) self), drop (Z.to_nat n) self).

(** ** Wrapper inputs

    A struct [S { input: &mut I, .. }] that implements [Input] for every
    [I: Input]: each method is a program over the borrowed input, on the
    remaining fields of the struct. *)
Record Wrapper (S : Type) : Type := {
  w_remaining_len : S -> prog (Result (option Z) Error * S);
  w_read : Z -> S -> prog (Result (list byte) Error * S);
  w_read_byte : S -> prog (Result byte Error * S);
  w_descend_ref : S -> prog (Result unit Error * S);
  w_ascend_ref : S -> prog S;
  w_on_before_alloc_mem : Z -> S -> prog (Result unit Error * S);
}.
Arguments w_remaining_len {_} _ _.
Arguments w_read {_} _ _ _.
Arguments w_read_byte {_} _ _.
Arguments w_descend_ref {_} _ _.
Arguments w_ascend_ref {_} _ _.
Arguments w_on_before_alloc_mem {_} _ _ _.

(** A call that leaves the wrapper's own fields alone. *)
Definition forward {S A} (d : prog A) (s : S) : prog (A * S) := prog_bind d (fun a => Ret (a, s)).

Definition w_default_read_byte {S} (w_read : Z -> S -> prog (Result (list byte) Error * S)) (s : S)
    : prog (Result byte Error * S) :=
  prog_bind (w_read 1 s) (fun '(r, s) =>
    match r with
    | Ok (b :: _) => Ret (Ok b, s)
    | Ok [] => Halt "index out of bounds"
    | Err e => Ret (Err e, s)
    end).
Definition w_default_hook {S} (s : S) : prog (Result unit Error * S) := Ret (Ok tt, s).
Definition w_default_ascend_ref {S} (s : S) : prog S := Ret s.

Fixpoint interp {S A} (W : Wrapper S) (p : prog A) (s : S) : prog (A * S) :=
  match p with
  | Ret a => Ret (a, s)
  | Halt msg => Halt msg
  | RemainingLen k => prog_bind (w_remaining_len W s) (fun '(r, s) => interp W (k r) s)
  | Read n k => prog_bind (w_read W n s) (fun '(r, s) => interp W (k r) s)
  | ReadByte k => prog_bind (w_read_byte W s) (fun '(r, s) => interp W (k r) s)
  | DescendRef k => prog_bind (w_descend_ref W s) (fun '(r, s) => interp W (k r) s)
  | AscendRef k => prog_bind (w_ascend_ref W s) (fun s => interp W k s)
  | OnBeforeAllocMem size k =>
      prog_bind (w_on_before_alloc_mem W size s) (fun '(r, s) => interp W (k r) s)
  end.

(** ** Execution lemmas *)

Lemma run_bind {I} `{Input I} {A B} (p : prog A) (f : A -> prog B) (i : I) :
  run (prog_bind p f) i = ('(a, i) ← run p i; run (f a) i).
Proof.
  revert i.
  induction p as [a|msg|k IH|n k IH|k IH|k IH|k IH|sz k IH]; intros i; simpl; try done.
  all: try (match goal with |- mbind _ ?m = _ => destruct m as [[r i']|msg]; simpl; auto end).
  destruct (i_ascend_ref i); simpl; auto.
Qed.

Lemma run_try_bind {I} `{Input I} {A B} (d : dec A) (k : A -> dec B) (i : I) :
  run (try_bind d k) i =
  ('(r, i) ← run d i; match r with Ok a => run (k a) i | Err e => Done (Err e, i) end).
Proof.
  unfold try_bind. rewrite run_bind. destruct (run d i) as [[[a|e] i']|]; reflexivity.
Qed.

Lemma run_chain_err {I} `{Input I} {A} desc (d : dec A) (i : I) :
  run (chain_err desc d) i = ('(r, i) ← run d i; Done (map_err (fun e => chain e desc) r, i)).
Proof.
  unfold chain_err. rewrite run_bind. destruct (run d i) as [[r i']|]; reflexivity.
Qed.

Lemma run_dec_map {I} `{Input I} {A B} (f : A -> B) (d : dec A) (i : I) :
  run (dec_map f d) i = ('(r, i) ← run d i; Done (result_map f r, i)).
Proof.
  unfold dec_map. rewrite run_bind. destruct (run d i) as [[r i']|]; reflexivity.
Qed.

Lemma run_forward {I} `{Input I} {S A} (p : prog A) (s : S) (i : I) :
  run (forward p s) i = ('(a, i) ← run p i; Done (a, s, i)).
Proof. unfold forward. rewrite run_bind. destruct (run p i) as [[a i']|]; reflexivity. Qed.

(** Reads from a slice that has the bytes. *)
Lemma run_read_app {A} (bs rest : list byte) n (k : Result (list byte) Error -> prog A) :
  n = zlen bs -> run (Read n k) (bs ++ rest) = run (k (Ok bs)) rest.
Proof.
  intros ->. cbn [run i_read slice_input]. unfold slice_read.
  rewrite zlen_app. pose proof (zlen_nonneg rest).
  destruct (zlen bs + zlen rest <? zlen bs) eqn:E; bool_to_prop; [lia|].
  simpl. by rewrite take_zlen_app, drop_zlen_app.
Qed.

Lemma run_read_byte_cons {A} (b : byte) rest (k : Result byte Error -> prog A) :
  run (ReadByte k) (b :: rest) = run (k (Ok b)) rest.
Proof.
  cbn [run i_read_byte slice_input]. unfold default_read_byte, slice_read.
  rewrite zlen_cons. pose proof (zlen_nonneg rest).
  destruct (1 + zlen rest <? 1) eqn:E; bool_to_prop; [lia|]. reflexivity.
Qed.

Lemma run_read_byte_nil {A} (k : Result byte Error -> prog A) :
  run (ReadByte k) [] = run (k (Err (Error_from "Not enough data to fill buffer"))) [].
Proof. reflexivity. Qed.

(** Successful reads from a slice, inverted. *)
Lemma run_read_inv {A} n (k : list byte -> dec A) (i : list byte) a i' :
  0 <= n -> run (try_bind (read n) k) i = Done (Ok a, i') ->
  exists bs rest, i = bs ++ rest /\ zlen bs = n /\ run (k bs) rest = Done (Ok a, i').
Proof.
  intros Hn Hrun. cbn in Hrun. unfold slice_read in Hrun.
  destruct (zlen i <? n) eqn:E; bool_to_prop; cbn in Hrun; [done|].
  eexists _, _; split; [symmetry; apply (take_drop (Z.to_nat n))|].
  split; [unfold zlen in *; rewrite length_take; lia|done].
Qed.

Lemma run_read_byte_inv {A} (k : byte -> dec A) (i : list byte) a i' :
  run (try_bind read_byte k) i = Done (Ok a, i') ->
  exists b rest, i = b :: rest /\ run (k b) rest = Done (Ok a, i').
Proof.
  intros Hrun. destruct i as [|b i]; [done|].
  change (run (ReadByte (fun r => prog_bind (Ret r) (fun r =>
    match r with Ok a => k a | Err e => Ret (Err e) end))) (b :: i) = Done (Ok a, i')) in Hrun.
  rewrite run_read_byte_cons in Hrun. eauto.
Qed.

Lemma run_try_read_app {A} (bs rest : list byte) n (k : list byte -> dec A) :
  n = zlen bs -> run (try_bind (read n) k) (bs ++ rest) = run (k bs) rest.
Proof. intros Hn. unfold try_bind, read. cbn [prog_bind]. by rewrite run_read_app. Qed.

Lemma run_try_read_byte {A} b rest (k : byte -> dec A) :
  run (try_bind read_byte k) (b :: rest) = run (k b) rest.
Proof. unfold try_bind, read_byte. cbn [prog_bind]. by rewrite run_read_byte_cons. Qed.

Lemma run_try_read_short {A} n (k : list byte -> dec A) (i : list byte) :
  zlen i < n -> exists e i', run (try_bind (read n) k) i = Done (Err e, i').
Proof.
  intros Hn. cbn. unfold slice_read. case_match; bool_to_prop; [cbn; eauto|lia].
Qed.
