(* ===== verification/Discipline.v ===== *)
(** * The discipline of decoders

    Every [Decode::decode] of the crate treats its input in the same way: an
    error of a call is always returned to the caller, [descend_ref] and
    [ascend_ref] are balanced on success and never negative on failure, an
    input that knows how much data is left can only make a decoder fail
    earlier, and no decoder unwinds.  [wb Q n p] says this of a program [p]
    that is entered [n] levels deep and returns a value in [Q]; it is closed
    under [?], so that each decoder has it by composition, and it implies what
    the rest of the development needs of a decoder on any input. *)

From S2P Require Import Prelude Ints Errors Input.

(** After an error: ascend at most as often as one descended, then return it. *)
Inductive failing {A} : nat -> dec A -> Prop :=
| failing_err n e : failing n (Ret (Err e))
| failing_ascend n p : failing n p -> failing (S n) (AscendRef p).

Inductive wb {A} (Q : A -> Prop) : nat -> dec A -> Prop :=
| wb_ok a : Q a -> wb Q 0 (Ret (Ok a))
| wb_err n e : wb Q n (Ret (Err e))
| wb_remaining need n k :
    (forall e, failing n (k (Err e))) ->
    wb Q n (k (Ok None)) ->
    (forall m, need <= m -> k (Ok (Some m)) = k (Ok None)) ->
    (forall m, m < need -> failing n (k (Ok (Some m)))) ->
    wb Q n (RemainingLen k)
| wb_read n len k :
    0 <= len ->
    (forall e, failing n (k (Err e))) ->
    (forall bs, zlen bs = len -> wb Q n (k (Ok bs))) ->
    wb Q n (Read len k)
| wb_read_byte n k :
    (forall e, failing n (k (Err e))) ->
    (forall b, wb Q n (k (Ok b))) ->
    wb Q n (ReadByte k)
| wb_descend n k :
    (forall e, failing n (k (Err e))) ->
    wb Q (S n) (k (Ok tt)) ->
    wb Q n (DescendRef k)
| wb_ascend n p : wb Q n p -> wb Q (S n) (AscendRef p)
| wb_alloc n size k :
    0 <= size ->
    (forall e, failing n (k (Err e))) ->
    wb Q n (k (Ok tt)) ->
    wb Q n (OnBeforeAllocMem size k).

(** The contract of [trait Input]: no method unwinds, and [read] fills the
    whole buffer when it succeeds. *)
Class InputLaws (I : Type) `{Input I} : Prop := {
  remaining_len_total i : exists r i', i_remaining_len i = Done (r, i');
  read_total n i : 0 <= n ->
    exists r i', i_read n i = Done (r, i') /\ forall bs, r = Ok bs -> zlen bs = n;
  read_byte_total i : exists r i', i_read_byte i = Done (r, i');
  descend_ref_total i : exists r i', i_descend_ref i = Done (r, i');
  ascend_ref_total i : exists i', i_ascend_ref i = Done i';
  on_before_alloc_mem_total n i : exists r i', i_on_before_alloc_mem n i = Done (r, i');
}.

(** The hooks a run calls successfully, in order. *)
Inductive event : Type := EDescend | EAscend | EAlloc (size : Z).

Fixpoint trace {I} `{Input I} {A} (p : prog A) (i : I) : list event :=
  match p with
  | Ret _ | Halt _ => []
  | RemainingLen k =>
      match i_remaining_len i with Done (r, i) => trace (k r) i | Panic _ => [] end
  | Read n k => match i_read n i with Done (r, i) => trace (k r) i | Panic _ => [] end
  | ReadByte k => match i_read_byte i with Done (r, i) => trace (k r) i | Panic _ => [] end
  | DescendRef k =>
      match i_descend_ref i with
      | Done (Ok u, i) => EDescend :: trace (k (Ok u)) i
      | Done (Err e, i) => trace (k (Err e)) i
      | Panic _ => []
      end
  | AscendRef k => match i_ascend_ref i with Done i => EAscend :: trace k i | Panic _ => [] end
  | OnBeforeAllocMem size k =>
      match i_on_before_alloc_mem size i with
      | Done (Ok u, i) => EAlloc size :: trace (k (Ok u)) i
      | Done (Err e, i) => trace (k (Err e)) i
      | Panic _ => []
      end
  end.

(** ** Composition *)

Lemma failing_weaken {A} n m (p : dec A) : (n <= m)%nat -> failing n p -> failing m p.
Proof.
  intros Hnm Hp. revert m Hnm. induction Hp as [|n p Hp IH]; intros m Hnm.
  - constructor.
  - destruct m as [|m]; [lia|]. constructor. apply IH; lia.
Qed.

Lemma failing_wb {A} (Q : A -> Prop) n p : failing n p -> wb Q n p.
Proof. induction 1; constructor; auto. Qed.

Lemma failing_bind {A B} m n (d : dec A) (k : Result A Error -> dec B) :
  failing m d -> (forall e, failing n (k (Err e))) -> failing (m + n) (prog_bind d k).
Proof.
  intros Hd Hk. induction Hd as [m e|m p Hp IH]; simpl.
  - apply (failing_weaken n); [lia|auto].
  - by constructor.
Qed.

Lemma wb_weaken {A} (Q R : A -> Prop) n p : (forall a, Q a -> R a) -> wb Q n p -> wb R n p.
Proof. intros HQR. induction 1; econstructor; eauto. Qed.

Lemma wb_prog_bind {A B} (Q : A -> Prop) (R : B -> Prop) m n (d : dec A) k :
  wb Q m d ->
  (forall a, Q a -> wb R n (k (Ok a))) ->
  (forall e, failing n (k (Err e))) ->
  wb R (m + n) (prog_bind d k).
Proof.
  intros Hd Hok Herr.
  induction Hd as [a Ha|m e|need m c Hf Hn IH Hge Hlt|m len c Hl Hf Hb IH|m c Hf Hb IH
                  |m c Hf Hk IH|m p Hp IH|m sz c Hsz Hf Hk IH]; simpl.
  - auto.
  - apply failing_wb, (failing_weaken n); [lia|auto].
  - apply (wb_remaining _ need); auto using failing_bind.
    intros l Hl. by rewrite Hge.
  - constructor; auto using failing_bind.
  - constructor; auto using failing_bind.
  - constructor; auto using failing_bind.
  - constructor; auto.
  - constructor; auto using failing_bind.
Qed.

Lemma wb_try {A B} (Q : A -> Prop) (R : B -> Prop) n (d : dec A) k :
  wb Q 0 d -> (forall a, Q a -> wb R n (k a)) -> wb R n (try_bind d k).
Proof.
  intros Hd Hk. apply (wb_prog_bind Q R 0 n); auto. intros e; constructor.
Qed.

Lemma wb_chain_err {A} (Q : A -> Prop) n desc (d : dec A) :
  wb Q n d -> wb Q n (chain_err desc d).
Proof.
  intros Hd. rewrite <- (Nat.add_0_r n).
  apply (wb_prog_bind Q Q n 0); [done| |]; intros; by constructor.
Qed.

Lemma wb_dec_map {A B} (Q : A -> Prop) (R : B -> Prop) n f (d : dec A) :
  wb Q n d -> (forall a, Q a -> R (f a)) -> wb R n (dec_map f d).
Proof.
  intros Hd HQR. rewrite <- (Nat.add_0_r n).
  apply (wb_prog_bind Q R n 0); [done| |]; intros; constructor; auto.
Qed.

(** One step of each call under [?]. *)
Lemma wb_try_read {A} (R : A -> Prop) n len (k : list byte -> dec A) :
  0 <= len -> (forall bs, zlen bs = len -> wb R n (k bs)) -> wb R n (try_bind (read len) k).
Proof. intros Hl Hk. constructor; auto. intros; constructor. Qed.

Lemma wb_try_read_byte {A} (R : A -> Prop) n (k : byte -> dec A) :
  (forall b, wb R n (k b)) -> wb R n (try_bind read_byte k).
Proof. intros Hk. constructor; auto. intros; constructor. Qed.

Lemma wb_try_descend {A} (R : A -> Prop) n (k : unit -> dec A) :
  wb R (S n) (k tt) -> wb R n (try_bind descend_ref k).
Proof. intros Hk. constructor; auto. intros; constructor. Qed.

Lemma wb_try_alloc {A} (R : A -> Prop) n size (k : unit -> dec A) :
  0 <= size -> wb R n (k tt) -> wb R n (try_bind (on_before_alloc_mem size) k).
Proof. intros Hl Hk. constructor; auto. intros; constructor. Qed.

Lemma wb_throw {A} (R : A -> Prop) n msg : wb R n (throw msg).
Proof. constructor. Qed.

Lemma wb_done {A} (R : A -> Prop) a : R a -> wb R 0 (ok a).
Proof. by constructor. Qed.

#[export] Hint Resolve wb_try_read wb_try_read_byte wb_try_descend wb_try_alloc wb_throw wb_done
  wb_chain_err : scale.

(** ** What the discipline gives on any input *)

Section any_input.
Context {I : Type} `{InputLaws I}.

Lemma failing_run {A} n (p : dec A) (i : I) :
  failing n p -> exists e i', run p i = Done (Err e, i').
Proof.
  intros Hp. revert i. induction Hp as [n e|n p Hp IH]; intros i; simpl; [eauto|].
  destruct (ascend_ref_total i) as [i' ->]. apply IH.
Qed.

(** No decoder unwinds, and what it returns is well formed. *)
Lemma wb_run {A} (Q : A -> Prop) n (p : dec A) (i : I) :
  wb Q n p -> exists r i', run p i = Done (r, i') /\ forall a, r = Ok a -> Q a.
Proof.
  intros Hp. revert i.
  assert (forall n (q : dec A) (i : I), failing n q ->
    exists r i', run q i = Done (r, i') /\ forall a, r = Ok a -> Q a) as Hfail.
  { intros m q i Hq. destruct (failing_run m q i Hq) as (e & i' & ->).
    exists (Err e), i'. split; [done|congruence]. }
  induction Hp as [a Ha|m e|need m c Hf Hn IH Hge Hlt|m len c Hl Hf Hb IH|m c Hf Hb IH
                  |m c Hf Hk IH|m p Hp IH|m sz c Hsz Hf Hk IH]; intros i; cbn [run].
  - exists (Ok a), i. split; [done|congruence].
  - exists (Err e), i. split; [done|congruence].
  - destruct (remaining_len_total i) as ([[l|]|e] & i' & ->); simpl; eauto.
    destruct (decide (need <= l)); [rewrite Hge by done; eauto|].
    apply (Hfail m), Hlt; lia.
  - destruct (read_total len i Hl) as ([bs|e] & i' & -> & Hlen); simpl; eauto.
  - destruct (read_byte_total i) as ([b|e] & i' & ->); simpl; eauto.
  - destruct (descend_ref_total i) as ([[]|e] & i' & ->); simpl; eauto.
  - destruct (ascend_ref_total i) as [i' ->]; simpl; eauto.
  - destruct (on_before_alloc_mem_total sz i) as ([[]|e] & i' & ->); simpl; eauto.
Qed.
End any_input.

(** ** On any input and any target *)

(** What a program may do on an input: return, with a result in [Q] if it is not
    an error, or unwind with a message in [P]. *)
Definition outcomes {I} `{Input I} {A} (Q : A -> Prop) (P : string -> Prop) (p : dec A) (i : I) : Prop :=
  match run p i with
  | Done (r, _) => forall a, r = Ok a -> Q a
  | Panic msg => P msg
  end.

Section outcomes.
Context {I : Type} `{InputLaws I}.

Lemma wb_outcomes {A} (Q : A -> Prop) P n (p : dec A) (i : I) : wb Q n p -> outcomes Q P p i.
Proof. intros Hp. unfold outcomes. by destruct (wb_run Q n p i Hp) as (r & i' & -> & Hr). Qed.

Lemma outcomes_weaken {A} (Q R : A -> Prop) (P S : string -> Prop) (p : dec A) (i : I) :
  (forall a, Q a -> R a) -> (forall m, P m -> S m) -> outcomes Q P p i -> outcomes R S p i.
Proof. unfold outcomes. intros HQ HP Hp. destruct (run p i) as [[r j]|m]; eauto. Qed.

Lemma outcomes_try {A B} (Q : A -> Prop) (R : B -> Prop) P (d : dec A) k (i : I) :
  outcomes Q P d i ->
  (forall a j, run d i = Done (Ok a, j) -> Q a -> outcomes R P (k a) j) ->
  outcomes R P (try_bind d k) i.
Proof.
  unfold outcomes. intros Hd Hk. rewrite run_try_bind.
  destruct (run d i) as [[[a|e] j]|m]; simpl; [by apply Hk; [|apply Hd]|done|done].
Qed.
End outcomes.

(** ** Slices *)

#[global] Instance slice_input_laws : InputLaws (list byte).
Proof.
  constructor; simpl; unfold default_hook, default_ascend_ref; eauto.
  - intros n i Hn. unfold slice_read. case_match; bool_to_prop.
    + eexists _, _; split; [done|congruence].
    + eexists _, _; split; [done|]. intros bs [= <-].
      unfold zlen in *. rewrite length_take. lia.
  - intros [|b i]; unfold default_read_byte, slice_read; [simpl; eauto|].
    rewrite zlen_cons. pose proof (zlen_nonneg i).
    case_match; bool_to_prop; [lia|]. simpl; eauto.
Qed.

Lemma failing_run_slice {A} n (p : dec A) (i : list byte) :
  failing n p -> exists e, run p i = Done (Err e, i).
Proof. intros Hp. revert i. induction Hp as [n e|n p Hp IH]; intros i; simpl; eauto. Qed.

(** A slice only ever shrinks from the front. *)
Lemma run_slice_suffix {A} (p : prog A) (i : list byte) a i' :
  run p i = Done (a, i') -> exists used, i = used ++ i'.
Proof.
  revert i. induction p as [x|msg|k IH|n k IH|k IH|k IH|k IH|sz k IH]; intros i; simpl;
    intros Hrun; simplify_eq.
  - by exists [].
  - by apply IH in Hrun.
  - unfold slice_read in Hrun. case_match; cbn in Hrun; [by apply IH in Hrun|].
    apply IH in Hrun as [used Hu]. exists (take (Z.to_nat n) i ++ used).
    by rewrite <- app_assoc, <- Hu, take_drop.
  - destruct i as [|b i]; [by apply IH in Hrun|].
    change (run (ReadByte k) (b :: i) = Done (a, i')) in Hrun.
    rewrite run_read_byte_cons in Hrun. apply IH in Hrun as [used ->]. by exists (b :: used).
  - eauto.
  - eauto.
  - eauto.
Qed.

(** What follows the bytes a decoder consumes does not matter to it. *)
Lemma wb_frame {A} (Q : A -> Prop) n (p : dec A) i a i' more :
  wb Q n p -> run p i = Done (Ok a, i') -> run p (i ++ more) = Done (Ok a, i' ++ more).
Proof.
  intros Hp. revert i.
  assert (forall n (q : dec A) j, failing n q -> run q j <> Done (Ok a, i')) as Hfail.
  { intros m q j Hq Hr. destruct (failing_run_slice m q j Hq) as [e He]. congruence. }
  induction Hp as [x Hx|m e|need m c Hf Hn IH Hge Hlt|m len c Hl Hf Hb IH|m c Hf Hb IH
                  |m c Hf Hk IH|m p Hp IH|m sz c Hsz Hf Hk IH]; intros i Hrun.
  - simpl in *. by simplify_eq.
  - simpl in *. by simplify_eq.
  - simpl in *. destruct (decide (need <= zlen i)).
    + rewrite Hge in Hrun by done.
      rewrite Hge by (rewrite zlen_app; pose proof (zlen_nonneg more); lia). eauto.
    + by apply (Hfail m) in Hrun; [|apply Hlt; lia].
  - destruct (decide (len <= zlen i)).
    + assert (zlen (take (Z.to_nat len) i) = len) by (unfold zlen in *; rewrite length_take; lia).
      rewrite <- (take_drop (Z.to_nat len) i) in Hrun |- *.
      rewrite run_read_app in Hrun by done.
      rewrite <- app_assoc, run_read_app by done. eauto.
    + cbn [run i_read slice_input] in Hrun. unfold slice_read in Hrun.
      case_match; bool_to_prop; [|lia]. cbn in Hrun. by apply (Hfail m) in Hrun.
  - destruct i as [|b i]; [cbn in Hrun; by apply (Hfail m) in Hrun|].
    simpl app. rewrite run_read_byte_cons in *. eauto.
  - simpl in *. eauto.
  - simpl in *. eauto.
  - simpl in *. eauto.
Qed.

(** ** Readers *)

(** The contract of [std::io::Read::read_exact]. *)
Class IoReadLaws (R : Type) `{IoRead R} : Prop :=
  read_exact_fills : forall n (r : R) bs r', 0 <= n -> read_exact n r = (Ok bs, r') -> zlen bs = n.

#[global] Instance slice_io_read_laws : IoReadLaws (list byte).
Proof.
  intros n r bs r' Hn. unfold read_exact, slice_io_read. case_match; bool_to_prop; [done|].
  intros [= <- <-]. unfold zlen in *. rewrite length_take. lia.
Qed.

#[global] Instance io_input_laws {R} `{IoReadLaws R} : InputLaws (IoReader R).
Proof.
  constructor; simpl; unfold default_hook, default_ascend_ref; eauto.
  - intros n i Hn. unfold io_read. destruct (read_exact n (io_inner i)) as [[bs|e] r'] eqn:Hr.
    + eexists _, _; split; [done|]. intros ? [= <-]. by eapply read_exact_fills.
    + eexists _, _; split; [done|]. done.
  - intros i. unfold default_read_byte, io_read.
    destruct (read_exact 1 (io_inner i)) as [[bs|e] r'] eqn:Hr; simpl; [|eauto].
    apply read_exact_fills in Hr; [|lia]. destruct bs; [done|eauto].
Qed.

(** What can be decoded from a slice can be decoded from a reader over it. *)
Lemma wb_io {A} (Q : A -> Prop) n (p : dec A) (i : list byte) a i' :
  wb Q n p -> run p i = Done (Ok a, i') -> run p (mkIoReader i) = Done (Ok a, mkIoReader i').
Proof.
  intros Hp. revert i.
  assert (forall n (q : dec A) j, failing n q -> run q j <> Done (Ok a, i')) as Hfail.
  { intros m q j Hq Hr. destruct (failing_run_slice m q j Hq) as [e He]. congruence. }
  induction Hp as [x Hx|m e|need m c Hf Hn IH Hge Hlt|m len c Hl Hf Hb IH|m c Hf Hb IH
                  |m c Hf Hk IH|m p Hp IH|m sz c Hsz Hf Hk IH]; intros i Hrun.
  - simpl in *. by simplify_eq.
  - done.
  - simpl in *. destruct (decide (need <= zlen i)); [rewrite Hge in Hrun by done; eauto|].
    by apply (Hfail m) in Hrun; [|apply Hlt; lia].
  - cbn [run i_read slice_input io_input] in *. unfold slice_read, io_read, read_exact, slice_io_read in *.
    cbn [io_inner]. destruct (zlen i <? len) eqn:Ht; bool_to_prop; cbn in Hrun |- *;
      [by apply (Hfail m) in Hrun|].
    apply IH; [|done]. unfold zlen in *. rewrite length_take. lia.
  - destruct i as [|b i]; [cbn in Hrun; by apply (Hfail m) in Hrun|].
    rewrite run_read_byte_cons in Hrun. cbn [run i_read_byte io_input].
    unfold default_read_byte, io_read, read_exact, slice_io_read. cbn [io_inner].
    rewrite zlen_cons. pose proof (zlen_nonneg i). decide_tests. cbn. by apply IH.
  - simpl in *. eauto.
  - simpl in *. eauto.
  - simpl in *. eauto.
Qed.
