(* ===== verification/Output.v ===== *)
(** * Output ([trait Output], [src/src/codec.rs])

    A function that is generic in [W: Output] can only append to its
    destination: [wprog] is the sequence of the calls it makes, or the panic it
    ends in.  [run_output] executes it on a concrete destination; [wbytes] is
    what it appends. *)

From S2P Require Import Prelude Ints Errors Input.

Inductive wprog : Type :=
| WDone
| WPanic (msg : string)
| WWrite (bs : list byte) (k : wprog)
| WPushByte (b : byte) (k : wprog).
Arguments WPanic _%_string_scope.

(** The statement sequence [p; q]. *)
Fixpoint wseq (p q : wprog) : wprog :=
  match p with
  | WDone => q
  | WPanic msg => WPanic msg
  | WWrite bs k => WWrite bs (wseq k q)
  | WPushByte b k => WPushByte b (wseq k q)
  end.

(** [for x in l { f(x) }]. *)
Fixpoint wfor {A} (l : list A) (f : A -> wprog) : wprog :=
  match l with
  | [] => WDone
  | x :: l => wseq (f x) (wfor l f)
  end.

(** Run a computation that may unwind before writing. *)
Definition wlift {A} (o : outcome A) (f : A -> wprog) : wprog :=
  match o with
  | Done a => f a
  | Panic msg => WPanic msg
  end.

Definition write (bs : list byte) : wprog := WWrite bs WDone.
Definition push_byte (b : byte) : wprog := WPushByte b WDone.

Declare Scope wprog_scope.
Delimit Scope wprog_scope with wprog.
Notation "p ;;; q" := (wseq p q) (at level 60, right associativity) : wprog_scope.
#[global] Open Scope wprog_scope.

(** The bytes a program appends. *)
Fixpoint wbytes (p : wprog) : outcome (list byte) :=
  match p with
  | WDone => Done []
  | WPanic msg => Panic msg
  | WWrite bs k => (fun r => bs ++ r) <$> wbytes k
  | WPushByte b k => (fun r => b :: r) <$> wbytes k
  end.

(** ** Concrete outputs *)

Class Output (W : Type) : Type := {
  o_write : list byte -> W -> outcome W;
  o_push_byte : byte -> W -> outcome W;
}.

Fixpoint run_output {W} `{Output W} (p : wprog) (w : W) : outcome W :=
  match p with
  | WDone => Done w
  | WPanic msg => Panic msg
  | WWrite bs k => w ← o_write bs w; run_output k w
  | WPushByte b k => w ← o_push_byte b w; run_output k w
  end.

(** [impl<W: std::io::Write> Output for W]: a write that fails unwinds, and
    [push_byte] is the trait's default. *)
Class IoWrite (W : Type) : Type := write_all : list byte -> W -> Result unit ErrorKind * W.

Definition io_write {W} `{IoWrite W} (bs : list byte) (self : W) : outcome W :=
  match write_all bs self with
  | (Ok _, self) => Done self
  | (Err _, _) => Panic "Codec outputs are infallible"
  end.

#[global] Instance io_output {W} `{IoWrite W} : Output W := {|
  o_write := io_write;
  o_push_byte byte := io_write [byte];
|}.

(** [impl std::io::Write for Vec<u8>]. *)
#[global] Instance vec_io_write : IoWrite (list byte) := fun bs self => (Ok tt, self ++ bs).

(** [struct SizeTracker { written: usize }]. *)
Record SizeTracker : Type := mkSizeTracker { written : Z }.

#[global] Instance size_tracker_output `{Target} : Output SizeTracker := {|
  o_write bs self := mkSizeTracker <$> add_usize (written self) (zlen bs);
  o_push_byte _ self := mkSizeTracker <$> add_usize (written self) 1;
|}.

(** [struct ArrayVecWrapper<const N: usize>(ArrayVec<u8, N>)]
    ([src/src/compact.rs]). *)
Record ArrayVecWrapper (N : Z) : Type := mkArrayVecWrapper { array_vec : list byte }.
Arguments mkArrayVecWrapper {_} _.
Arguments array_vec {_} _.

Definition array_vec_write {N} (bs : list byte) (self : ArrayVecWrapper N)
    : outcome (ArrayVecWrapper N) :=
  let old_len := zlen (array_vec self) in
  let new_len := old_len + zlen bs in
  if new_len <=? N then Done (mkArrayVecWrapper (array_vec self ++ bs))
  else Panic "assertion failed: new_len <= self.0.capacity()".

Definition array_vec_push {N} (b : byte) (self : ArrayVecWrapper N)
    : outcome (ArrayVecWrapper N) :=
  if zlen (array_vec self) <? N then Done (mkArrayVecWrapper (array_vec self ++ [b]))
  else Panic "ArrayVec: capacity exceeded".

#[global] Instance array_vec_output {N} : Output (ArrayVecWrapper N) := {|
  o_write := array_vec_write;
  o_push_byte := array_vec_push;
|}.

(** ** Lemmas *)

Lemma wbytes_wseq p q :
  wbytes (p ;;; q) = (a ← wbytes p; b ← wbytes q; Done (a ++ b)).
Proof.
  induction p as [|msg|bs k IH|b k IH]; simpl.
  - by destruct (wbytes q).
  - done.
  - rewrite IH. destruct (wbytes k), (wbytes q); simpl; try done. by rewrite app_assoc.
  - rewrite IH. by destruct (wbytes k), (wbytes q).
Qed.

Lemma wbytes_wseq_done p q bs :
  wbytes (p ;;; q) = Done bs <->
  exists a b, wbytes p = Done a /\ wbytes q = Done b /\ bs = a ++ b.
Proof.
  rewrite wbytes_wseq. destruct (wbytes p), (wbytes q); simpl; split; try naive_solver.
Qed.

Lemma wbytes_push_byte b p : wbytes (push_byte b ;;; p) = (cons b) <$> wbytes p.
Proof. done. Qed.

Lemma wbytes_write bs : wbytes (write bs) = Done bs.
Proof. simpl. by rewrite app_nil_r. Qed.

Lemma wbytes_wfor_done {A} (l : list A) f bs :
  wbytes (wfor l f) = Done bs <->
  exists parts, Forall2 (fun x part => wbytes (f x) = Done part) l parts /\ bs = concat parts.
Proof.
  revert bs. induction l as [|x l IH]; intros bs; simpl.
  - split.
    + intros [= <-]. exists []. by split.
    + intros (parts & Hp & ->). by inversion Hp.
  - rewrite wbytes_wseq_done. split.
    + intros (a & b & Ha & Hb & ->). apply IH in Hb as (parts & Hp & ->).
      exists (a :: parts). by split; [constructor|].
    + intros (parts & Hp & ->). inversion Hp as [|? a ? parts' Ha Hp']; subst.
      exists a, (concat parts'). split_and!; [done| |done]. apply IH. eauto.
Qed.

Lemma wfor_app {A} (l1 l2 : list A) f bs :
  wbytes (wfor (l1 ++ l2) f) = Done bs <->
  exists a b, wbytes (wfor l1 f) = Done a /\ wbytes (wfor l2 f) = Done b /\ bs = a ++ b.
Proof.
  revert bs. induction l1 as [|x l1 IH]; intros bs; simpl.
  - naive_solver.
  - rewrite wbytes_wseq_done. setoid_rewrite wbytes_wseq_done. split.
    + intros (a & b & Ha & Hb & ->). apply IH in Hb as (c & d & Hc & Hd & ->).
      exists (a ++ c), d. split_and!; [|done|by rewrite app_assoc]. eauto.
    + intros (? & d & (a & c & Ha & Hc & ->) & Hd & ->).
      exists a, (c ++ d). split_and!; [done| |by rewrite app_assoc]. apply IH. eauto.
Qed.

(** [Vec<u8>] collects the bytes. *)
Lemma run_output_vec p (v : list byte) : run_output p v = (app v) <$> wbytes p.
Proof.
  revert v. induction p as [|msg|bs k IH|b k IH]; intros v; simpl.
  - by rewrite app_nil_r.
  - done.
  - rewrite IH. destruct (wbytes k); simpl; by rewrite ?app_assoc.
  - rewrite IH. destruct (wbytes k); simpl; by rewrite <- ?app_assoc.
Qed.

(** [SizeTracker] counts them. *)
Lemma run_output_size_tracker `{Target} p bs n :
  wbytes p = Done bs -> n + zlen bs <= usize_max ->
  run_output p (mkSizeTracker n) = Done (mkSizeTracker (n + zlen bs)).
Proof.
  revert bs n. induction p as [|msg|b k IH|b k IH]; intros bs n; simpl.
  - intros [= <-] _. by rewrite zlen_nil, Z.add_0_r.
  - done.
  - destruct (wbytes k) as [r|]; simpl; intros [= <-]. rewrite zlen_app. intros Hn.
    unfold add_usize. pose proof (zlen_nonneg r).
    case_match; bool_to_prop; [|lia]. simpl. rewrite (IH r) by (done || lia).
    by rewrite Z.add_assoc.
  - destruct (wbytes k) as [r|]; simpl; intros [= <-]. rewrite zlen_cons. intros Hn.
    unfold add_usize. pose proof (zlen_nonneg r).
    case_match; bool_to_prop; [|lia]. simpl. rewrite (IH r) by (done || lia).
    by rewrite Z.add_assoc.
Qed.

(** [ArrayVecWrapper<N>] collects them as long as they fit. *)
Lemma run_output_array_vec {N} p bs (v : list byte) :
  wbytes p = Done bs -> zlen v + zlen bs <= N ->
  run_output p (@mkArrayVecWrapper N v) = Done (mkArrayVecWrapper (v ++ bs)).
Proof.
  revert bs v. induction p as [|msg|b k IH|b k IH]; intros bs v; simpl.
  - intros [= <-] _. by rewrite app_nil_r.
  - done.
  - destruct (wbytes k) as [r|]; simpl; intros [= <-]. rewrite zlen_app. intros Hn.
    unfold array_vec_write; simpl. pose proof (zlen_nonneg r).
    case_match; bool_to_prop; [|lia]. simpl.
    rewrite (IH r) by (rewrite ?zlen_app; done || lia). by rewrite app_assoc.
  - destruct (wbytes k) as [r|]; simpl; intros [= <-]. rewrite zlen_cons. intros Hn.
    unfold array_vec_push; simpl. pose proof (zlen_nonneg r).
    case_match; bool_to_prop; [|lia]. simpl.
    rewrite (IH r) by (rewrite ?zlen_app, ?zlen_cons, ?zlen_nil; done || lia).
    by rewrite <- app_assoc.
Qed.

Lemma run_output_array_vec_inv {N} p (v : list byte) (w : ArrayVecWrapper N) :
  run_output p (mkArrayVecWrapper v) = Done w ->
  exists bs, wbytes p = Done bs /\ w = mkArrayVecWrapper (v ++ bs).
Proof.
  revert v. induction p as [|msg|b k IH|b k IH]; intros v; simpl.
  - intros [= <-]. exists []. by rewrite app_nil_r.
  - done.
  - unfold array_vec_write; simpl. case_match; simpl; [|done].
    intros (bs & -> & ->)%IH. exists (b ++ bs). by rewrite app_assoc.
  - unfold array_vec_push; simpl. case_match; simpl; [|done].
    intros (bs & -> & ->)%IH. exists (b :: bs). by rewrite <- app_assoc.
Qed.
