(* ===== verification/Traits.v ===== *)
(** * The codec traits ([trait Encode], [trait Decode], [src/src/codec.rs])

    An [impl Encode for T] is a value of [Encode T], an [impl Decode for T] a
    value of [Decode T]: the compiler resolves implementations statically, and
    here they are passed explicitly.  The default bodies of the traits' methods
    are the functions that complete an implementation from the method it
    overrides.  [EncodeLaws], [DecodeLaws] and [CodecLaws] are what the rest of
    the crate relies on, and what each implementation is proved to have. *)

From S2P Require Import Prelude Ints Errors Input Discipline Output.

(** [pub enum TypeInfo].  A type that sets it is one of the primitive number
    types, so that [mem::transmute] between slices (vectors) of the type and of
    the primitive is the identity on the numbers. *)
Inductive TypeInfo (T : Type) : Type :=
| Unknown
| Prim (p : prim) (transmute : T -> Z) (transmute_back : Z -> T).
Arguments Unknown {_}.
Arguments Prim {_} _ _ _.

(** ** [trait Encode]

    [using_encoded] is the slice the closure is called with (every body calls
    it once); the closure's result is then the caller's business. *)
Record Encode (T : Type) : Type := mkEncode {
  E_TYPE_INFO : TypeInfo T;
  E_size_of : Z;
  size_hint : T -> outcome Z;
  encode_to : T -> wprog;
  encode : T -> outcome (list byte);
  using_encoded : T -> outcome (list byte);
}.
Arguments mkEncode {_} _ _ _ _ _ _.
Arguments E_TYPE_INFO {_} _.
Arguments E_size_of {_} _.
Arguments size_hint {_} _ _.
Arguments encode_to {_} _ _.
Arguments encode {_} _ _.
Arguments using_encoded {_} _ _.

Definition default_size_hint {T} (_ : T) : outcome Z := Done 0.

(** [fn encode_to(&self, dest)]: [self.using_encoded(|buf| dest.write(buf))]. *)
Definition default_encode_to {T} (using_encoded : T -> outcome (list byte)) (x : T) : wprog :=
  wlift (using_encoded x) write.

(** [Vec::with_capacity], of bytes.  Running out of memory is not modelled. *)
Definition with_capacity `{Target} (capacity : Z) : outcome (list byte) :=
  if capacity <=? isize_max then Done [] else Panic "capacity overflow".

(** [fn encode(&self) -> Vec<u8>]. *)
Definition default_encode `{Target} {T} (size_hint : T -> outcome Z) (encode_to : T -> wprog) (x : T)
    : outcome (list byte) :=
  hint ← size_hint x;
  r ← with_capacity hint;
  run_output (encode_to x) r.

(** [fn using_encoded(&self, f)]: [f(&self.encode())]. *)
Definition default_using_encoded {T} (encode : T -> outcome (list byte)) (x : T)
    : outcome (list byte) := encode x.

(** [fn encoded_size(&self) -> usize]; no implementation overrides it. *)
Definition encoded_size `{Target} {T} (E : Encode T) (x : T) : outcome Z :=
  written <$> run_output (encode_to E x) (mkSizeTracker 0).

(** An implementation that overrides [using_encoded]. *)
Definition impl_using_encoded `{Target} {T} (info : TypeInfo T) (size_of : Z)
    (hint : T -> outcome Z) (ue : T -> outcome (list byte)) : Encode T :=
  {| E_TYPE_INFO := info; E_size_of := size_of; size_hint := hint;
     encode_to := default_encode_to ue;
     encode := default_encode hint (default_encode_to ue);
     using_encoded := ue |}.

(** An implementation that overrides [encode_to]. *)
Definition impl_encode_to `{Target} {T} (size_of : Z) (hint : T -> outcome Z) (to : T -> wprog) : Encode T :=
  {| E_TYPE_INFO := Unknown; E_size_of := size_of; size_hint := hint;
     encode_to := to;
     encode := default_encode hint to;
     using_encoded := default_using_encoded (default_encode hint to) |}.

(** An implementation that overrides [encode]. *)
Definition impl_encode {T} (size_of : Z) (hint : T -> outcome Z)
    (enc : T -> outcome (list byte)) : Encode T :=
  {| E_TYPE_INFO := Unknown; E_size_of := size_of; size_hint := hint;
     encode_to := default_encode_to (default_using_encoded enc);
     encode := enc;
     using_encoded := default_using_encoded enc |}.

(** An implementation that forwards every method to that of another type
    ([impl Encode for X where X: WrapperTypeEncode<Target = T>], the non-zero
    integers, [str], one-element tuples, [Compact]).  The constant [TYPE_INFO]
    keeps its default. *)
Definition impl_forward {T X} (size_of : Z) (deref : X -> T) (E : Encode T) : Encode X :=
  {| E_TYPE_INFO := Unknown; E_size_of := size_of;
     size_hint x := size_hint E (deref x);
     encode_to x := encode_to E (deref x);
     encode x := encode E (deref x);
     using_encoded x := using_encoded E (deref x) |}.

(** ** [trait Decode]

    [decode_into] is the value the destination is initialised with. *)
Record Decode (T : Type) : Type := mkDecode {
  D_TYPE_INFO : TypeInfo T;
  D_size_of : Z;
  decode : dec T;
  decode_into : dec T;
  skip : dec unit;
  encoded_fixed_size : option Z;
}.
Arguments mkDecode {_} _ _ _ _ _ _.
Arguments D_TYPE_INFO {_} _.
Arguments D_size_of {_} _.
Arguments decode {_} _.
Arguments decode_into {_} _.
Arguments skip {_} _.
Arguments encoded_fixed_size {_} _.

(** [fn decode_into(input, dst)]: decode the value, then write it to [dst]. *)
Definition default_decode_into {T} (decode : dec T) : dec T :=
  value ⇐ decode; ok value.

(** [fn skip(input)]: [Self::decode(input).map(|_| ())]. *)
Definition default_skip {T} (decode : dec T) : dec unit := dec_map (fun _ => tt) decode.

(** An implementation that only has [decode]. *)
Definition impl_decode {T} (size_of : Z) (d : dec T) : Decode T :=
  {| D_TYPE_INFO := Unknown; D_size_of := size_of; decode := d;
     decode_into := default_decode_into d; skip := default_skip d;
     encoded_fixed_size := None |}.

(** ** Equivalence of decoders

    Two decoders are equivalent when they accept the same slices with the same
    value and the same rest; the error they report may differ. *)
Definition dec_equiv {A} (d1 d2 : dec A) : Prop :=
  forall (i : list byte) a i', run d1 i = Done (Ok a, i') <-> run d2 i = Done (Ok a, i').
Infix "≃" := dec_equiv (at level 70).

(** ** The laws *)

Class EncodeLaws `{Target} {T} (E : Encode T) (wf : T -> Prop) : Prop := {
  encode_sound x bs : encode E x = Done bs -> wbytes (encode_to E x) = Done bs;
  using_encoded_sound x bs : using_encoded E x = Done bs -> wbytes (encode_to E x) = Done bs;
  encode_complete x h bs : wf x -> size_hint E x = Done h -> h <= isize_max ->
    wbytes (encode_to E x) = Done bs ->
    encode E x = Done bs /\ using_encoded E x = Done bs;
  encode_type_info p t b x : E_TYPE_INFO E = Prim p t b -> wf x ->
    E_size_of E = Z.of_nat (prim_bytes p) /\
    wbytes (encode_to E x) = Done (to_le_bytes p (t x));
}.

Class DecodeLaws {T} (D : Decode T) (wf : T -> Prop) : Prop := {
  size_of_nonneg : 0 <= D_size_of D;
  decode_wb : wb wf 0 (decode D);
  decode_into_wb : wb wf 0 (decode_into D);
  skip_wb : wb (fun _ => True) 0 (skip D);
  decode_into_equiv : decode_into D ≃ decode D;
  skip_equiv : skip D ≃ dec_map (fun _ => tt) (decode D);
  decode_type_info p t b : D_TYPE_INFO D = Prim p t b ->
    D_size_of D = Z.of_nat (prim_bytes p) /\
    (forall z, in_range p z -> wf (b z)) /\
    (forall bs rest, length bs = prim_bytes p ->
       run (decode D) (bs ++ rest) = Done (Ok (b (from_le_bytes p bs)), rest)) /\
    (forall i, zlen i < Z.of_nat (prim_bytes p) -> exists e i', run (decode D) i = Done (Err e, i'));
}.

Class CodecLaws `{Target} {T} (E : Encode T) (D : Decode T) (wf : T -> Prop) : Prop := {
  codec_encode :: EncodeLaws E wf;
  codec_decode :: DecodeLaws D wf;
  roundtrip x bs rest : wf x -> wbytes (encode_to E x) = Done bs ->
    run (decode D) (bs ++ rest) = Done (Ok x, rest);
  fixed_size n x bs : encoded_fixed_size D = Some n -> wf x ->
    wbytes (encode_to E x) = Done bs -> zlen bs = n;
}.

(** The decoder accepts nothing but encodings. *)
Class Canonical {T} (E : Encode T) (D : Decode T) : Prop :=
  canonical : forall i x i', run (decode D) i = Done (Ok x, i') ->
    exists bs, wbytes (encode_to E x) = Done bs /\ i = bs ++ i'.

(** ** Lemmas *)

#[global] Instance dec_equiv_equivalence {A} : Equivalence (@dec_equiv A).
Proof.
  split.
  - intros d i a i'. done.
  - intros d1 d2 H i a i'. by rewrite (H i a i').
  - intros d1 d2 d3 H12 H23 i a i'. by rewrite (H12 i a i'), (H23 i a i').
Qed.

Lemma run_try_bind_ok {I} `{Input I} {A B} (d : dec A) (k : A -> dec B) (i : I) b i' :
  run (try_bind d k) i = Done (Ok b, i') <->
  exists a j, run d i = Done (Ok a, j) /\ run (k a) j = Done (Ok b, i').
Proof.
  rewrite run_try_bind. destruct (run d i) as [[[a|e] j]|]; simpl; split; try naive_solver.
Qed.

Lemma run_dec_map_ok {I} `{Input I} {A B} (f : A -> B) (d : dec A) (i : I) b i' :
  run (dec_map f d) i = Done (Ok b, i') <-> exists a, run d i = Done (Ok a, i') /\ b = f a.
Proof.
  rewrite run_dec_map. destruct (run d i) as [[[a|e] j]|]; simpl; split; try naive_solver.
Qed.

Lemma run_chain_err_ok {I} `{Input I} {A} desc (d : dec A) (i : I) a i' :
  run (chain_err desc d) i = Done (Ok a, i') <-> run d i = Done (Ok a, i').
Proof.
  rewrite run_chain_err. destruct (run d i) as [[[x|e] j]|]; simpl; split; naive_solver.
Qed.

#[global] Instance try_bind_proper {A B} :
  Proper (dec_equiv ==> pointwise_relation A dec_equiv ==> dec_equiv) (@try_bind A B).
Proof.
  intros d1 d2 Hd k1 k2 Hk i b i'. rewrite !run_try_bind_ok.
  split; intros (a & j & Ha & Hb); exists a, j; (split; [by apply Hd|by apply Hk]).
Qed.

#[global] Instance dec_map_proper {A B} (f : A -> B) :
  Proper (dec_equiv ==> dec_equiv) (dec_map f).
Proof.
  intros d1 d2 Hd i b i'. rewrite !run_dec_map_ok.
  split; intros (a & Ha & ->); exists a; (split; [by apply Hd|done]).
Qed.

#[global] Instance chain_err_proper {A} desc :
  Proper (dec_equiv ==> dec_equiv) (@chain_err A desc).
Proof. intros d1 d2 Hd i a i'. rewrite !run_chain_err_ok. apply Hd. Qed.

Lemma chain_err_equiv {A} desc (d : dec A) : chain_err desc d ≃ d.
Proof. intros i a i'. by rewrite run_chain_err_ok. Qed.

Lemma default_decode_into_equiv {A} (d : dec A) : default_decode_into d ≃ d.
Proof.
  intros i a i'. unfold default_decode_into. rewrite run_try_bind_ok. simpl. naive_solver.
Qed.

Lemma default_decode_into_wb {A} (Q : A -> Prop) d : wb Q 0 d -> wb Q 0 (default_decode_into d).
Proof. intros Hd. eapply wb_try; [done|]. intros; by constructor. Qed.

Lemma default_skip_wb {A} (Q : A -> Prop) (d : dec A) :
  wb Q 0 d -> wb (fun _ => True) 0 (default_skip d).
Proof. intros Hd. by eapply wb_dec_map. Qed.

#[export] Hint Resolve default_decode_into_wb default_skip_wb : scale.

(** A decoder that only overrides [decode]. *)
Lemma impl_decode_laws {T} size_of (d : dec T) (wf : T -> Prop) :
  0 <= size_of -> wb wf 0 d -> DecodeLaws (impl_decode size_of d) wf.
Proof.
  intros. constructor; simpl; eauto with scale.
  - apply default_decode_into_equiv.
  - reflexivity.
  - discriminate.
Qed.

Lemma wbytes_default_encode_to {T} ue (x : T) : wbytes (default_encode_to ue x) = ue x.
Proof.
  unfold default_encode_to, wlift. destruct (ue x); [apply wbytes_write|done].
Qed.

Lemma default_encode_done `{Target} {T} hint to (x : T) bs :
  default_encode hint to x = Done bs <->
  (exists h, hint x = Done h /\ h <= isize_max) /\ wbytes (to x) = Done bs.
Proof.
  unfold default_encode, with_capacity. destruct (hint x) as [h|]; simpl; [|naive_solver].
  destruct (Z.leb_spec h isize_max); simpl; [|naive_solver lia].
  rewrite run_output_vec. destruct (wbytes (to x)); simpl; naive_solver.
Qed.

Lemma impl_encode_to_laws `{Target} {T} size_of hint to (wf : T -> Prop) :
  EncodeLaws (impl_encode_to size_of hint to) wf.
Proof.
  constructor; simpl; unfold default_using_encoded.
  - intros x bs Hx. by apply default_encode_done in Hx as [_ ?].
  - intros x bs Hx. by apply default_encode_done in Hx as [_ ?].
  - intros x h bs _ Hh Hm Hx. split; apply default_encode_done; eauto.
  - discriminate.
Qed.

Lemma impl_encode_laws `{Target} {T} size_of hint enc (wf : T -> Prop) :
  EncodeLaws (impl_encode size_of hint enc) wf.
Proof.
  constructor; simpl; unfold default_using_encoded.
  - intros x bs Hx. by rewrite wbytes_default_encode_to.
  - intros x bs Hx. by rewrite wbytes_default_encode_to.
  - intros x h bs _ Hh _. by rewrite wbytes_default_encode_to.
  - discriminate.
Qed.

Lemma impl_using_encoded_laws `{Target} {T} info size_of hint ue (wf : T -> Prop) :
  (forall p t b x, info = Prim p t b -> wf x ->
     size_of = Z.of_nat (prim_bytes p) /\ ue x = Done (to_le_bytes p (t x))) ->
  EncodeLaws (impl_using_encoded info size_of hint ue) wf.
Proof.
  intros Hinfo. constructor; simpl.
  - intros x bs Hx. by apply default_encode_done in Hx as [_ ?].
  - intros x bs Hx. by rewrite wbytes_default_encode_to.
  - intros x h bs _ Hh Hm Hx. split; [apply default_encode_done; eauto|].
    by rewrite wbytes_default_encode_to in Hx.
  - intros p t b x. rewrite wbytes_default_encode_to. eauto.
Qed.

Lemma impl_forward_laws `{Target} {T X} size_of (deref : X -> T) E (wf : T -> Prop) (wfX : X -> Prop) :
  EncodeLaws E wf -> (forall x, wfX x -> wf (deref x)) ->
  EncodeLaws (impl_forward size_of deref E) wfX.
Proof.
  intros HE Hwf. constructor; simpl.
  - intros x bs. apply encode_sound.
  - intros x bs. apply using_encoded_sound.
  - intros x h bs Hx. by apply encode_complete, Hwf.
  - discriminate.
Qed.

#[export] Hint Resolve impl_encode_to_laws impl_encode_laws impl_forward_laws : scale.

(** [encoded_size] is the length of the encoding. *)
Lemma encoded_size_done `{Target} {T} (E : Encode T) x bs :
  wbytes (encode_to E x) = Done bs -> zlen bs <= usize_max -> encoded_size E x = Done (zlen bs).
Proof.
  intros Hx Hl. unfold encoded_size.
  by rewrite (run_output_size_tracker _ bs) by (done || lia).
Qed.

(** What a decoder returns is well formed, on any input. *)
Lemma decode_wf {I} `{InputLaws I} {T} (D : Decode T) wf `{!DecodeLaws D wf} (i : I) x i' :
  run (decode D) i = Done (Ok x, i') -> wf x.
Proof.
  intros Hrun. destruct (wb_run wf 0 (decode D) i decode_wb) as (r & j & Hr & HQ).
  rewrite Hr in Hrun. simplify_eq. by apply HQ.
Qed.

(** A canonical codec: the decoder's input and its result determine each other. *)
Lemma codec_injective `{Target} {T} (E : Encode T) D (wf : T -> Prop) `{!CodecLaws E D wf} x y bs :
  wf x -> wf y -> wbytes (encode_to E x) = Done bs -> wbytes (encode_to E y) = Done bs -> x = y.
Proof.
  intros Hx Hy Hbx Hby.
  pose proof (roundtrip x bs [] Hx Hbx). pose proof (roundtrip y bs [] Hy Hby). congruence.
Qed.
