(* ===== verification/Primitives.v ===== *)
(** * Primitive types ([src/src/codec.rs])

    Integers and floating point numbers ([impl_endians!], [impl_one_byte!]),
    non-zero integers ([impl_for_non_zero!]), [bool], [OptionBool], the unit
    type and [PhantomData]. *)

From S2P Require Import Prelude Ints Errors Input Discipline Output Traits.

Section primitives.
Context `{Target}.

(** ** Numbers *)

(** [impl_endians!]. *)
Definition endian_encode (p : prim) : Encode Z :=
  impl_using_encoded (Prim p id id) (Z.of_nat (prim_bytes p))
    (fun _ => Done (Z.of_nat (prim_bytes p)))
    (fun self => Done (to_le_bytes p self)).

Definition endian_decode_fn (p : prim) : dec Z :=
  buf ⇐ read (Z.of_nat (prim_bytes p));
  ok (from_le_bytes p buf).

Definition endian_decode (p : prim) : Decode Z :=
  {| D_TYPE_INFO := Prim p id id;
     D_size_of := Z.of_nat (prim_bytes p);
     decode := endian_decode_fn p;
     decode_into := default_decode_into (endian_decode_fn p);
     skip := default_skip (endian_decode_fn p);
     encoded_fixed_size := Some (Z.of_nat (prim_bytes p)) |}.

(** [impl_one_byte!]. *)
Definition one_byte_encode (p : prim) : Encode Z :=
  impl_using_encoded (Prim p id id) (Z.of_nat (prim_bytes p))
    (fun _ => Done (Z.of_nat (prim_bytes p)))
    (fun self => Done [byte.of_Z (wrap U8 self)]).

Definition one_byte_decode_fn (p : prim) : dec Z :=
  b ⇐ read_byte;
  ok (wrap p (byte.unsigned b)).

Definition one_byte_decode (p : prim) : Decode Z :=
  {| D_TYPE_INFO := Prim p id id;
     D_size_of := Z.of_nat (prim_bytes p);
     decode := one_byte_decode_fn p;
     decode_into := default_decode_into (one_byte_decode_fn p);
     skip := default_skip (one_byte_decode_fn p);
     encoded_fixed_size := None |}.

(** [impl_endians!(u16; U16, ..)] and [impl_one_byte!(u8; U8, i8; I8)]. *)
Definition prim_encode (p : prim) : Encode Z :=
  match p with
  | U8 | I8 => one_byte_encode p
  | _ => endian_encode p
  end.

Definition prim_decode (p : prim) : Decode Z :=
  match p with
  | U8 | I8 => one_byte_decode p
  | _ => endian_decode p
  end.

(** ** Non-zero integers *)

(** [impl_for_non_zero!]: every method of [Encode] goes to the integer. *)
Definition non_zero_encode (p : prim) : Encode Z :=
  impl_forward (Z.of_nat (prim_bytes p)) id (prim_encode p).

Definition non_zero_decode_fn (p : prim) : dec Z :=
  x ⇐ decode (prim_decode p);
  if x =? 0 then throw "cannot create non-zero number from 0" else ok x.

Definition non_zero_decode (p : prim) : Decode Z :=
  impl_decode (Z.of_nat (prim_bytes p)) (non_zero_decode_fn p).

Definition non_zero_range (p : prim) (x : Z) : Prop := in_range p x /\ x <> 0.

(** ** [bool] *)

Definition bool_encode : Encode bool :=
  impl_using_encoded Unknown 1 (fun _ => Done 1)
    (fun self => Done [byte.of_Z (Z.b2z self)]).

Definition bool_decode_fn : dec bool :=
  byte ⇐ read_byte;
  match byte with
  | x00 => ok false
  | x01 => ok true
  | _ => throw "Invalid boolean representation"
  end.

Definition bool_decode : Decode bool :=
  {| D_TYPE_INFO := Unknown; D_size_of := 1;
     decode := bool_decode_fn;
     decode_into := default_decode_into bool_decode_fn;
     skip := default_skip bool_decode_fn;
     encoded_fixed_size := Some 1 |}.

(** ** [OptionBool] *)

Definition OptionBool : Type := option bool.

Definition option_bool_encode : Encode OptionBool :=
  impl_using_encoded Unknown 1 (fun _ => Done 1)
    (fun self => Done [match self with
                       | None => x00
                       | Some true => x01
                       | Some false => x02
                       end]).

Definition option_bool_decode_fn : dec OptionBool :=
  byte ⇐ read_byte;
  match byte with
  | x00 => ok None
  | x01 => ok (Some true)
  | x02 => ok (Some false)
  | _ => throw "unexpected first byte decoding OptionBool"
  end.

Definition option_bool_decode : Decode OptionBool := impl_decode 1 option_bool_decode_fn.

(** ** [()] and [PhantomData] *)

Definition unit_encode : Encode unit :=
  {| E_TYPE_INFO := Unknown; E_size_of := 0; size_hint := default_size_hint;
     encode_to _ := WDone;
     encode _ := Done [];
     using_encoded _ := Done [] |}.

Definition unit_decode : Decode unit := impl_decode 0 (ok tt).

Definition phantom_encode : Encode unit := impl_encode_to 0 default_size_hint (fun _ => WDone).

Definition phantom_decode : Decode unit := impl_decode 0 (ok tt).

(** ** Laws *)

Lemma wbytes_endian p x : wbytes (encode_to (endian_encode p) x) = Done (to_le_bytes p x).
Proof. apply wbytes_write. Qed.

Lemma wbytes_one_byte p x :
  prim_bytes p = 1%nat -> wbytes (encode_to (one_byte_encode p) x) = Done (to_le_bytes p x).
Proof.
  intros Hp. unfold to_le_bytes. rewrite Hp. simpl. f_equal. unfold le_split. f_equal.
  apply byte.unsigned_inj. rewrite !byte.unsigned_of_Z. unfold wrap, byte.wrap. simpl.
  by rewrite Zmod_mod.
Qed.

(** Both macros write the little-endian bytes. *)
Lemma wbytes_prim p x : wbytes (encode_to (prim_encode p) x) = Done (to_le_bytes p x).
Proof. destruct p; first [by apply wbytes_one_byte|apply wbytes_endian]. Qed.

Lemma zlen_to_le_bytes p x : zlen (to_le_bytes p x) = Z.of_nat (prim_bytes p).
Proof. unfold zlen. by rewrite length_to_le_bytes. Qed.

Lemma run_endian_decode p bs rest :
  length bs = prim_bytes p ->
  run (endian_decode_fn p) (bs ++ rest) = Done (Ok (from_le_bytes p bs), rest).
Proof.
  intros Hl. unfold endian_decode_fn. rewrite run_try_read_app; [done|].
  unfold zlen. by rewrite Hl.
Qed.

Lemma one_byte_value p b : prim_bytes p = 1%nat -> wrap p (byte.unsigned b) = from_le_bytes p [b].
Proof. intros Hp. unfold from_le_bytes. by rewrite le_combine_1. Qed.

Lemma run_one_byte_decode p bs rest :
  prim_bytes p = 1%nat -> length bs = prim_bytes p ->
  run (one_byte_decode_fn p) (bs ++ rest) = Done (Ok (from_le_bytes p bs), rest).
Proof.
  intros Hp Hl. rewrite Hp in Hl. destruct bs as [|b [|]]; try discriminate.
  unfold one_byte_decode_fn. simpl app. rewrite run_try_read_byte.
  by rewrite one_byte_value.
Qed.

Lemma run_prim_decode p bs rest :
  length bs = prim_bytes p ->
  run (decode (prim_decode p)) (bs ++ rest) = Done (Ok (from_le_bytes p bs), rest).
Proof.
  destruct p; first [by apply run_one_byte_decode|by apply run_endian_decode].
Qed.

Lemma run_prim_decode_short p i :
  zlen i < Z.of_nat (prim_bytes p) ->
  exists e i', run (decode (prim_decode p)) i = Done (Err e, i').
Proof.
  intros Hi. destruct p; try by apply run_try_read_short.
  all: destruct i as [|b i]; [eexists _, _; reflexivity|].
  all: rewrite zlen_cons in Hi; simpl in Hi; pose proof (zlen_nonneg i); lia.
Qed.

Lemma run_prim_decode_inv p i x i' :
  run (decode (prim_decode p)) i = Done (Ok x, i') ->
  exists bs, length bs = prim_bytes p /\ i = bs ++ i' /\ x = from_le_bytes p bs.
Proof.
  intros Hrun.
  destruct (decide (zlen i < Z.of_nat (prim_bytes p))) as [Hs|Hs].
  - apply run_prim_decode_short in Hs as (e & j & Hs). congruence.
  - rewrite <- (take_drop (prim_bytes p) i) in Hrun.
    rewrite run_prim_decode in Hrun by (rewrite length_take; unfold zlen in Hs; lia).
    simplify_eq. exists (take (prim_bytes p) i). rewrite take_drop.
    split; [|done]. rewrite length_take; unfold zlen in Hs; lia.
Qed.

Lemma prim_decode_wb p : wb (in_range p) 0 (decode (prim_decode p)).
Proof.
  destruct p; first [apply wb_try_read; [done|]|apply wb_try_read_byte];
    intros; apply wb_done; auto with scale.
Qed.

#[global] Instance prim_encode_laws p : EncodeLaws (prim_encode p) (in_range p).
Proof.
  assert (forall x, using_encoded (prim_encode p) x = Done (to_le_bytes p x)) as Hue.
  { intros x. rewrite <- (wbytes_prim p x). destruct p; symmetry; apply wbytes_default_encode_to. }
  destruct p; apply impl_using_encoded_laws; intros ? ? ? x [= <- <- <-] _;
    (split; [done|exact (Hue x)]).
Qed.

#[global] Instance prim_decode_laws p : DecodeLaws (prim_decode p) (in_range p).
Proof.
  pose proof (prim_decode_wb p).
  constructor; try (destruct p; simpl in *; eauto with scale; try lia; fail).
  - destruct p; apply default_decode_into_equiv.
  - destruct p; reflexivity.
  - intros q t b Hi. assert (q = p /\ t = id /\ b = id) as (-> & -> & ->)
      by (destruct p; simpl in Hi; by simplify_eq).
    split_and!; [by destruct p|done|apply run_prim_decode|apply run_prim_decode_short].
Qed.

#[global] Instance prim_codec_laws p : CodecLaws (prim_encode p) (prim_decode p) (in_range p).
Proof.
  constructor; try apply _.
  - intros x bs rest Hx. rewrite wbytes_prim. intros [= <-].
    rewrite run_prim_decode by apply length_to_le_bytes. by rewrite from_to_le_bytes.
  - intros n x bs Hn _. rewrite wbytes_prim. intros [= <-]. rewrite zlen_to_le_bytes.
    destruct p; simpl in Hn; by simplify_eq.
Qed.

#[global] Instance prim_canonical p : Canonical (prim_encode p) (prim_decode p).
Proof.
  intros i x i' Hrun. apply run_prim_decode_inv in Hrun as (bs & Hl & -> & ->).
  exists bs. split; [|done]. by rewrite wbytes_prim, to_from_le_bytes.
Qed.

#[global] Instance non_zero_codec_laws p :
  CodecLaws (non_zero_encode p) (non_zero_decode p) (non_zero_range p).
Proof.
  constructor.
  - apply (impl_forward_laws _ _ _ (in_range p)); [apply _|by intros x []].
  - apply impl_decode_laws; [lia|]. eapply wb_try; [apply prim_decode_wb|].
    intros x Hx. case_match; bool_to_prop; [apply wb_throw|by apply wb_done].
  - intros x bs rest [Hx Hnz] Hb. simpl in *. unfold non_zero_decode_fn.
    rewrite run_try_bind, (roundtrip x bs rest Hx Hb). simpl.
    case_match; bool_to_prop; [done|reflexivity].
  - discriminate.
Qed.

#[global] Instance non_zero_canonical p : Canonical (non_zero_encode p) (non_zero_decode p).
Proof.
  intros i x i' Hrun. apply run_try_bind_ok in Hrun as (y & j & Hy & Hk).
  case_match; simpl in Hk; [done|]. simplify_eq. by apply (prim_canonical p).
Qed.

#[global] Instance bool_codec_laws : CodecLaws bool_encode bool_decode (fun _ => True).
Proof.
  assert (wb (fun _ => True) 0 bool_decode_fn).
  { apply wb_try_read_byte. intros b. destruct b; auto with scale. }
  constructor.
  - apply impl_using_encoded_laws. discriminate.
  - constructor; simpl; eauto with scale; try lia; try done. apply default_decode_into_equiv.
  - intros [] bs rest _ [= <-]; (etransitivity; [apply run_try_read_byte|reflexivity]).
  - intros n [] bs [= <-] _ [= <-]; reflexivity.
Qed.

#[global] Instance bool_canonical : Canonical bool_encode bool_decode.
Proof.
  intros i x i' Hrun. apply run_read_byte_inv in Hrun as (b & rest & -> & Hrun).
  exists [b]. destruct b; simpl in Hrun; simplify_eq; by split.
Qed.

#[global] Instance option_bool_codec_laws :
  CodecLaws option_bool_encode option_bool_decode (fun _ => True).
Proof.
  constructor.
  - apply impl_using_encoded_laws. discriminate.
  - apply impl_decode_laws; [lia|]. apply wb_try_read_byte. intros b. destruct b; auto with scale.
  - intros [[]|] bs rest _ [= <-]; (etransitivity; [apply run_try_read_byte|reflexivity]).
  - discriminate.
Qed.

#[global] Instance option_bool_canonical : Canonical option_bool_encode option_bool_decode.
Proof.
  intros i x i' Hrun. apply run_read_byte_inv in Hrun as (b & rest & -> & Hrun).
  exists [b]. destruct b; simpl in Hrun; simplify_eq; by split.
Qed.

#[global] Instance unit_codec_laws : CodecLaws unit_encode unit_decode (fun _ => True).
Proof.
  constructor.
  - by constructor.
  - apply impl_decode_laws; [lia|by apply wb_done].
  - intros [] bs rest _ [= <-]; reflexivity.
  - discriminate.
Qed.

#[global] Instance unit_canonical : Canonical unit_encode unit_decode.
Proof. intros i [] i' [= <-]. by exists []. Qed.

#[global] Instance phantom_codec_laws : CodecLaws phantom_encode phantom_decode (fun _ => True).
Proof.
  constructor.
  - apply impl_encode_to_laws.
  - apply impl_decode_laws; [lia|by apply wb_done].
  - intros [] bs rest _ [= <-]; reflexivity.
  - discriminate.
Qed.

#[global] Instance phantom_canonical : Canonical phantom_encode phantom_decode.
Proof. intros i [] i' [= <-]. by exists []. Qed.
End primitives.
