(* ===== verification/Compact.v ===== *)
(** * Compact integers ([src/src/compact.rs])

    The variable-length encoding of unsigned integers: [CompactRef<T>] and
    [Compact<T>] for [()], [u8], [u16], [u32], [u64] and [u128], the
    [PrefixInput] the decoders use to put the first byte back, and the
    [CompactAs] implementations. *)

From S2P Require Import Prelude Ints Errors Input Discipline Output Traits Primitives.

(** ** [PrefixInput]

    The field [input] is the borrowed input, the state is the field [prefix]. *)

Section prefix_input.
Context `{Target}.

Definition prefix_remaining_len (prefix : option byte)
    : prog (Result (option Z) Error * option byte) :=
  prog_bind remaining_len (fun r =>
    Ret (result_map (option_map (fun len =>
           saturating_add_usize len (match prefix with Some _ => 1 | None => 0 end))) r, prefix)).

Definition prefix_read (n : Z) (prefix : option byte)
    : prog (Result (list byte) Error * option byte) :=
  if n =? 0 then Ret (Ok [], prefix)
  else match prefix with
       | Some v => prog_bind (read (n - 1)) (fun r => Ret (result_map (cons v) r, None))
       | None => prog_bind (read n) (fun r => Ret (r, None))
       end.

Definition prefix_input : Wrapper (option byte) := {|
  w_remaining_len := prefix_remaining_len;
  w_read := prefix_read;
  w_read_byte := w_default_read_byte prefix_read;
  w_descend_ref := w_default_hook;
  w_ascend_ref := w_default_ascend_ref;
  w_on_before_alloc_mem _ := w_default_hook;
|}.

(** [T::decode(&mut PrefixInput { prefix: Some(prefix), input })]. *)
Definition decode_prefixed {A} (d : dec A) (prefix : byte) : dec A :=
  prog_bind (interp prefix_input d (Some prefix)) (fun '(r, _) => Ret r).
End prefix_input.

(** ** Encoding *)

(** [x << n] on type [p]. *)
Definition shl (p : prim) (x n : Z) : Z := wrap p (Z.shiftl x n).

Section encode.
Context `{Target}.

(** [impl Encode for CompactRef<'a, u8>]. *)
Definition compact_encode_to_u8 (self : Z) : wprog :=
  if self <=? 0x3f then push_byte (byte.of_Z (shl U8 self 2))
  else encode_to (prim_encode U16) (Z.lor (shl U16 (wrap U16 self) 2) 1).

(** [impl CompactLen<u8> for Compact<u8>]. *)
Definition compact_len_u8 (val : Z) : Z :=
  if val <=? 0x3f then 1 else 2.

Definition compact_encode_to_u16 (self : Z) : wprog :=
  if self <=? 0x3f then push_byte (byte.of_Z (shl U8 (wrap U8 self) 2))
  else if self <=? 0x3fff then encode_to (prim_encode U16) (Z.lor (shl U16 self 2) 1)
  else encode_to (prim_encode U32) (Z.lor (shl U32 (wrap U32 self) 2) 2).

Definition compact_len_u16 (val : Z) : Z :=
  if val <=? 0x3f then 1 else if val <=? 0x3fff then 2 else 4.

Definition compact_encode_to_u32 (self : Z) : wprog :=
  if self <=? 0x3f then push_byte (byte.of_Z (shl U8 (wrap U8 self) 2))
  else if self <=? 0x3fff then encode_to (prim_encode U16) (Z.lor (shl U16 (wrap U16 self) 2) 1)
  else if self <=? 0x3fffffff then encode_to (prim_encode U32) (Z.lor (shl U32 self 2) 2)
  else push_byte x03 ;;; encode_to (prim_encode U32) self.

Definition compact_len_u32 (val : Z) : Z :=
  if val <=? 0x3f then 1 else if val <=? 0x3fff then 2 else if val <=? 0x3fffffff then 4 else 5.

(** [for _ in 0..bytes_needed { dest.push_byte(v as u8); v >>= 8; }], and the
    assertion that nothing is left of [v]. *)
Fixpoint push_le_bytes (bytes_needed : nat) (v : Z) : wprog :=
  match bytes_needed with
  | O =>
      if v =? 0 then WDone
      else WPanic "shifted sufficient bits right to lead only leading zeros; qed"
  | S n => push_byte (byte.of_Z (wrap U8 v)) ;;; push_le_bytes n (Z.shiftr v 8)
  end.

(** The last match arm of the encoders of [u64] and [u128]. *)
Definition push_big_integer (bytes_needed v : Z) : wprog :=
  if 4 <=? bytes_needed then
    push_byte (byte.of_Z (3 + wrap U8 (shl U32 (bytes_needed - 4) 2))) ;;;
    push_le_bytes (Z.to_nat bytes_needed) v
  else WPanic "Previous match arm matches anyting less than 2^30; qed".

Definition compact_encode_to_u64 (self : Z) : wprog :=
  if self <=? 0x3f then push_byte (byte.of_Z (shl U8 (wrap U8 self) 2))
  else if self <=? 0x3fff then encode_to (prim_encode U16) (Z.lor (shl U16 (wrap U16 self) 2) 1)
  else if self <=? 0x3fffffff then encode_to (prim_encode U32) (Z.lor (shl U32 (wrap U32 self) 2) 2)
  else push_big_integer (8 - leading_zeros U64 self / 8) self.

Definition compact_len_u64 (val : Z) : Z :=
  if val <=? 0x3f then 1 else if val <=? 0x3fff then 2 else if val <=? 0x3fffffff then 4
  else (8 - leading_zeros U64 val / 8) + 1.

Definition compact_encode_to_u128 (self : Z) : wprog :=
  if self <=? 0x3f then push_byte (byte.of_Z (shl U8 (wrap U8 self) 2))
  else if self <=? 0x3fff then encode_to (prim_encode U16) (Z.lor (shl U16 (wrap U16 self) 2) 1)
  else if self <=? 0x3fffffff then encode_to (prim_encode U32) (Z.lor (shl U32 (wrap U32 self) 2) 2)
  else push_big_integer (16 - leading_zeros U128 self / 8) self.

Definition compact_len_u128 (val : Z) : Z :=
  if val <=? 0x3f then 1 else if val <=? 0x3fff then 2 else if val <=? 0x3fffffff then 4
  else (16 - leading_zeros U128 val / 8) + 1.

(** The integer types with a compact encoding. *)
Inductive compact_ty : Type := CU8 | CU16 | CU32 | CU64 | CU128.

Definition compact_prim (c : compact_ty) : prim :=
  match c with CU8 => U8 | CU16 => U16 | CU32 => U32 | CU64 => U64 | CU128 => U128 end.

Definition compact_len (c : compact_ty) : Z -> Z :=
  match c with
  | CU8 => compact_len_u8
  | CU16 => compact_len_u16
  | CU32 => compact_len_u32
  | CU64 => compact_len_u64
  | CU128 => compact_len_u128
  end.

Definition compact_encode_to (c : compact_ty) : Z -> wprog :=
  match c with
  | CU8 => compact_encode_to_u8
  | CU16 => compact_encode_to_u16
  | CU32 => compact_encode_to_u32
  | CU64 => compact_encode_to_u64
  | CU128 => compact_encode_to_u128
  end.

(** The capacity of the [ArrayVec] in [using_encoded]. *)
Definition compact_capacity (c : compact_ty) : Z :=
  match c with CU8 => 2 | CU16 => 4 | CU32 => 5 | CU64 => 9 | CU128 => 17 end.

(** [fn using_encoded]: encode to an [ArrayVecWrapper] on the stack. *)
Definition compact_using_encoded (c : compact_ty) (self : Z) : outcome (list byte) :=
  array_vec <$> run_output (compact_encode_to c self) (@mkArrayVecWrapper (compact_capacity c) []).

Definition compact_ref_encode (c : compact_ty) : Encode Z :=
  {| E_TYPE_INFO := Unknown;
     E_size_of := usize_bits / 8;
     size_hint self := Done (compact_len c self);
     encode_to := compact_encode_to c;
     encode := default_encode (fun self => Done (compact_len c self)) (compact_encode_to c);
     using_encoded := compact_using_encoded c |}.

(** [impl<T> Encode for Compact<T>]. *)
Definition compact_encode (c : compact_ty) : Encode Z :=
  impl_forward (Z.of_nat (prim_bytes (compact_prim c))) id (compact_ref_encode c).

(** [impl Encode for CompactRef<'a, ()>]. *)
Definition compact_unit_encode : Encode unit :=
  impl_forward 0 id
    {| E_TYPE_INFO := Unknown; E_size_of := usize_bits / 8; size_hint := default_size_hint;
       encode_to _ := WDone; encode _ := Done []; using_encoded _ := Done [] |}.
End encode.

(** ** Decoding *)

Definition U8_OUT_OF_RANGE : string := "out of range decoding Compact<u8>".
Definition U16_OUT_OF_RANGE : string := "out of range decoding Compact<u16>".
Definition U32_OUT_OF_RANGE : string := "out of range decoding Compact<u32>".
Definition U64_OUT_OF_RANGE : string := "out of range decoding Compact<u64>".
Definition U128_OUT_OF_RANGE : string := "out of range decoding Compact<u128>".

Definition MAX (p : prim) : Z := prim_max p.

Section decode.
Context `{Target}.

(** [impl Decode for Compact<u8>]. *)
Definition compact_decode_u8 : dec Z :=
  b ⇐ read_byte;
  let prefix := byte.unsigned b in
  match prefix mod 4 with
  | 0 => ok (Z.shiftr prefix 2)
  | 1 =>
      y ⇐ decode_prefixed (decode (prim_decode U16)) b;
      let x := Z.shiftr y 2 in
      if (0x3f <? x) && (x <=? 255) then ok (wrap U8 x) else throw U8_OUT_OF_RANGE
  | _ => throw "unexpected prefix decoding Compact<u8>"
  end.

Definition compact_decode_u16 : dec Z :=
  b ⇐ read_byte;
  let prefix := byte.unsigned b in
  match prefix mod 4 with
  | 0 => ok (Z.shiftr prefix 2)
  | 1 =>
      y ⇐ decode_prefixed (decode (prim_decode U16)) b;
      let x := Z.shiftr y 2 in
      if (0x3f <? x) && (x <=? 0x3fff) then ok x else throw U16_OUT_OF_RANGE
  | 2 =>
      y ⇐ decode_prefixed (decode (prim_decode U32)) b;
      let x := Z.shiftr y 2 in
      if (0x3fff <? x) && (x <? 65536) then ok (wrap U16 x) else throw U16_OUT_OF_RANGE
  | _ => throw "unexpected prefix decoding Compact<u16>"
  end.

Definition compact_decode_u32 : dec Z :=
  b ⇐ read_byte;
  let prefix := byte.unsigned b in
  match prefix mod 4 with
  | 0 => ok (Z.shiftr prefix 2)
  | 1 =>
      y ⇐ decode_prefixed (decode (prim_decode U16)) b;
      let x := Z.shiftr y 2 in
      if (0x3f <? x) && (x <=? 0x3fff) then ok x else throw U32_OUT_OF_RANGE
  | 2 =>
      y ⇐ decode_prefixed (decode (prim_decode U32)) b;
      let x := Z.shiftr y 2 in
      if (0x3fff <? x) && (x <=? Z.shiftr (MAX U32) 2) then ok x else throw U32_OUT_OF_RANGE
  | 3 =>
      if Z.shiftr prefix 2 =? 0 then
        x ⇐ decode (prim_decode U32);
        if Z.shiftr (MAX U32) 2 <? x then ok x else throw U32_OUT_OF_RANGE
      else throw U32_OUT_OF_RANGE
  | _ => Halt "internal error: entered unreachable code"
  end.

(** [for i in 0..bytes_needed { res |= u64::from(input.read_byte()?) << (i * 8); }]:
    [n] iterations are left, the next index is [i]. *)
Fixpoint read_le_bytes (p : prim) (n : nat) (i res : Z) : dec Z :=
  match n with
  | O => ok res
  | S n =>
      b ⇐ read_byte;
      read_le_bytes p n (i + 1) (Z.lor res (shl p (byte.unsigned b) (i * 8)))
  end.

(** The inner match on [(prefix >> 2) + 4] of [Compact<u64>::decode]. *)
Definition compact_decode_big_u64 (bytes_needed : Z) : dec Z :=
  if bytes_needed =? 4 then
    x ⇐ decode (prim_decode U32);
    if Z.shiftr (MAX U32) 2 <? x then ok x else throw U64_OUT_OF_RANGE
  else if bytes_needed =? 8 then
    x ⇐ decode (prim_decode U64);
    if Z.shiftr (MAX U64) 8 <? x then ok x else throw U64_OUT_OF_RANGE
  else if 8 <? bytes_needed then throw "unexpected prefix decoding Compact<u64>"
  else
    res ⇐ read_le_bytes U64 (Z.to_nat bytes_needed) 0 0;
    if Z.shiftr (MAX U64) ((8 - bytes_needed + 1) * 8) <? res then ok res
    else throw U64_OUT_OF_RANGE.

Definition compact_decode_u64 : dec Z :=
  b ⇐ read_byte;
  let prefix := byte.unsigned b in
  match prefix mod 4 with
  | 0 => ok (Z.shiftr prefix 2)
  | 1 =>
      y ⇐ decode_prefixed (decode (prim_decode U16)) b;
      let x := Z.shiftr y 2 in
      if (0x3f <? x) && (x <=? 0x3fff) then ok x else throw U64_OUT_OF_RANGE
  | 2 =>
      y ⇐ decode_prefixed (decode (prim_decode U32)) b;
      let x := Z.shiftr y 2 in
      if (0x3fff <? x) && (x <=? Z.shiftr (MAX U32) 2) then ok x else throw U64_OUT_OF_RANGE
  | 3 =>
      compact_decode_big_u64 (Z.shiftr prefix 2 + 4)
  | _ => Halt "internal error: entered unreachable code"
  end.

(** The inner match on [(prefix >> 2) + 4] of [Compact<u128>::decode]. *)
Definition compact_decode_big_u128 (bytes_needed : Z) : dec Z :=
  if bytes_needed =? 4 then
    x ⇐ decode (prim_decode U32);
    if Z.shiftr (MAX U32) 2 <? x then ok x else throw U128_OUT_OF_RANGE
  else if bytes_needed =? 8 then
    x ⇐ decode (prim_decode U64);
    if Z.shiftr (MAX U64) 8 <? x then ok x else throw U128_OUT_OF_RANGE
  else if bytes_needed =? 16 then
    x ⇐ decode (prim_decode U128);
    if Z.shiftr (MAX U128) 8 <? x then ok x else throw U128_OUT_OF_RANGE
  else if 16 <? bytes_needed then throw "unexpected prefix decoding Compact<u128>"
  else
    res ⇐ read_le_bytes U128 (Z.to_nat bytes_needed) 0 0;
    if Z.shiftr (MAX U128) ((16 - bytes_needed + 1) * 8) <? res then ok res
    else throw U128_OUT_OF_RANGE.

Definition compact_decode_u128 : dec Z :=
  b ⇐ read_byte;
  let prefix := byte.unsigned b in
  match prefix mod 4 with
  | 0 => ok (Z.shiftr prefix 2)
  | 1 =>
      y ⇐ decode_prefixed (decode (prim_decode U16)) b;
      let x := Z.shiftr y 2 in
      if (0x3f <? x) && (x <=? 0x3fff) then ok x else throw U128_OUT_OF_RANGE
  | 2 =>
      y ⇐ decode_prefixed (decode (prim_decode U32)) b;
      let x := Z.shiftr y 2 in
      if (0x3fff <? x) && (x <=? Z.shiftr (MAX U32) 2) then ok x else throw U128_OUT_OF_RANGE
  | 3 =>
      compact_decode_big_u128 (Z.shiftr prefix 2 + 4)
  | _ => Halt "internal error: entered unreachable code"
  end.

Definition compact_decode_fn (c : compact_ty) : dec Z :=
  match c with
  | CU8 => compact_decode_u8
  | CU16 => compact_decode_u16
  | CU32 => compact_decode_u32
  | CU64 => compact_decode_u64
  | CU128 => compact_decode_u128
  end.

Definition compact_decode (c : compact_ty) : Decode Z :=
  impl_decode (Z.of_nat (prim_bytes (compact_prim c))) (compact_decode_fn c).

(** [impl Decode for Compact<()>]. *)
Definition compact_unit_decode : Decode unit := impl_decode 0 (ok tt).
End decode.

(** ** [CompactAs]

    A user's type that is encoded as the compact form of another type. *)
Class CompactAs (T As : Type) : Type := {
  encode_as : T -> As;
  decode_from : As -> Result T Error;
}.

(** [impl<'a, T: CompactAs> Encode for CompactRef<'a, T>]: [E] is the
    implementation for [CompactRef<'a, T::As>]. *)
Definition compact_as_encode `{Target} {T As} `{CompactAs T As} (E : Encode As) : Encode T :=
  impl_forward (usize_bits / 8) encode_as E.

(** [impl<T: CompactAs> Decode for Compact<T>]. *)
Definition compact_as_decode {T As} `{CompactAs T As} (size_of : Z) (D : Decode As) : Decode T :=
  impl_decode size_of (as_ ⇐ decode D; x ⇐ Ret (decode_from as_); ok x).
