(* ===== verification/CompactTheory.v ===== *)
(** * Theory of compact integers

    [compact_spec] is the compact encoding of an unsigned integer of any size;
    the five encoders implement it, and each decoder accepts exactly the
    encodings of the integers of its type. *)

From S2P Require Import Prelude Ints Errors Input Discipline Output Traits Primitives Compact.

(** The number of bytes of the big-integer mode. *)
Definition significant_bytes (x : Z) : Z := Z.log2 x / 8 + 1.

(** The two low bits of the first byte give the mode; the value is in the rest
    of one, two or four bytes, or in the bytes that follow. *)
Definition compact_spec (x : Z) : list byte :=
  if x <=? 0x3f then [byte.of_Z (4 * x)]
  else if x <=? 0x3fff then le_split 2 (4 * x + 1)
  else if x <=? 0x3fffffff then le_split 4 (4 * x + 2)
  else byte.of_Z (4 * (significant_bytes x - 4) + 3)
       :: le_split (Z.to_nat (significant_bytes x)) x.

(** ** Arithmetic *)

Lemma in_range_unsigned p x : prim_signed p = false -> in_range p x <-> 0 <= x < 2 ^ prim_bits p.
Proof. intros Hp. unfold in_range, prim_min, prim_max. rewrite Hp. lia. Qed.

Lemma compact_range c x : in_range (compact_prim c) x <-> 0 <= x < 2 ^ prim_bits (compact_prim c).
Proof. apply in_range_unsigned. by destruct c. Qed.

Lemma shl_small p x n :
  prim_signed p = false -> 0 <= x -> 0 <= n -> x * 2 ^ n < 2 ^ prim_bits p -> shl p x n = x * 2 ^ n.
Proof.
  intros Hp Hx Hn Hlt. unfold shl. rewrite Z.shiftl_mul_pow2 by lia.
  apply wrap_id, in_range_unsigned; [done|]. split; [|done].
  apply Z.mul_nonneg_nonneg; [done|]. apply Z.pow_nonneg; lia.
Qed.

Lemma lor_low_bits x r : 0 <= r < 4 -> Z.lor (x * 2 ^ 2) r = 4 * x + r.
Proof.
  intros Hr. rewrite <- Z.shiftl_mul_pow2 by lia. rewrite lor_shiftl_low by (simpl; lia). lia.
Qed.

Lemma of_Z_wrap_u8 v : byte.of_Z (wrap U8 v) = byte.of_Z v.
Proof.
  apply byte.unsigned_inj. rewrite !byte.unsigned_of_Z. unfold byte.wrap, wrap. simpl.
  apply Zmod_mod.
Qed.

Lemma le_split_S n w : le_split (S n) w = byte.of_Z w :: le_split n (Z.shiftr w 8).
Proof. done. Qed.

Lemma le_combine_cons b bs : le_combine (b :: bs) = byte.unsigned b + 256 * le_combine bs.
Proof.
  change (le_combine (b :: bs)) with (Z.lor (byte.unsigned b) (Z.shiftl (le_combine bs) 8)).
  rewrite Z.lor_comm, lor_shiftl_low by (lia || apply byte.unsigned_range). lia.
Qed.

Lemma le_combine_split_small n z : 0 <= z < 2 ^ (8 * Z.of_nat n) -> le_combine (le_split n z) = z.
Proof. intros Hz. rewrite le_combine_split, Z.mod_small; [done|]. by rewrite Z.mul_comm. Qed.

Lemma significant_bytes_bound x :
  0 < x -> 2 ^ (8 * (significant_bytes x - 1)) <= x < 2 ^ (8 * significant_bytes x).
Proof.
  intros Hx. unfold significant_bytes. pose proof (Z.log2_spec x Hx) as [Hlo Hhi].
  pose proof (Z.log2_nonneg x). split.
  - etransitivity; [|exact Hlo]. apply Z.pow_le_mono_r; dlia.
  - eapply Z.lt_le_trans; [exact Hhi|]. apply Z.pow_le_mono_r; dlia.
Qed.

Lemma significant_bytes_unique x n :
  0 < n -> 2 ^ (8 * (n - 1)) <= x < 2 ^ (8 * n) -> significant_bytes x = n.
Proof.
  intros Hn [Hlo Hhi]. unfold significant_bytes.
  assert (0 < x) by (eapply Z.lt_le_trans; [|exact Hlo]; apply Z.pow_pos_nonneg; lia).
  assert (8 * (n - 1) <= Z.log2 x) by (apply Z.log2_le_pow2; done).
  assert (Z.log2 x < 8 * n) by (apply Z.log2_lt_pow2; done). dlia.
Qed.

Lemma leading_zeros_bytes p x :
  0 < x < 2 ^ prim_bits p ->
  Z.of_nat (prim_bytes p) - leading_zeros p x / 8 = significant_bytes x.
Proof.
  intros Hx. unfold leading_zeros, significant_bytes. decide_tests.
  assert (Z.log2 x < prim_bits p) by (apply Z.log2_lt_pow2; lia).
  pose proof (Z.log2_nonneg x). unfold prim_bits in *. dlia.
Qed.

(** ** Encoding *)

Section encoding.
Context `{Target}.

Lemma wbytes_push_le_bytes n v :
  0 <= v < 2 ^ (8 * Z.of_nat n) -> wbytes (push_le_bytes n v) = Done (le_split n v).
Proof.
  revert v. induction n as [|n IH]; intros v Hv.
  - simpl in *. destruct (v =? 0) eqn:E; bool_to_prop; [done|lia].
  - cbn [push_le_bytes]. rewrite wbytes_push_byte, IH, of_Z_wrap_u8; [done|].
    rewrite Z.shiftr_div_pow2 by lia. split; [apply Z.div_pos; lia|].
    apply Z.div_lt_upper_bound; [lia|]. rewrite <- Z.pow_add_r by lia.
    eapply Z.lt_le_trans; [apply Hv|]. apply Z.pow_le_mono_r; lia.
Qed.

Lemma wbytes_push_big_integer x :
  0x3fffffff < x < 2 ^ 128 ->
  wbytes (push_big_integer (significant_bytes x) x)
  = Done (byte.of_Z (4 * (significant_bytes x - 4) + 3)
          :: le_split (Z.to_nat (significant_bytes x)) x).
Proof.
  intros Hx. pose proof (significant_bytes_bound x ltac:(lia)) as Hsb.
  assert (4 <= significant_bytes x <= 16).
  { unfold significant_bytes. assert (29 <= Z.log2 x) by (apply Z.log2_le_pow2; lia).
    assert (Z.log2 x < 128) by (apply Z.log2_lt_pow2; lia). dlia. }
  unfold push_big_integer. destruct (4 <=? significant_bytes x) eqn:E; bool_to_prop; [|lia].
  rewrite wbytes_push_byte, wbytes_push_le_bytes by (rewrite Z2Nat.id; lia).
  rewrite shl_small by (try done; prim_lia). change (2 ^ 2) with 4.
  rewrite wrap_id by (apply in_range_unsigned; [done|]; prim_lia).
  simpl. do 3 f_equal. lia.
Qed.

Lemma wbytes_small x : 0 <= x <= 0x3f -> wbytes (push_byte (byte.of_Z (shl U8 (wrap U8 x) 2)))
  = Done [byte.of_Z (4 * x)].
Proof.
  intros Hx. rewrite wrap_id by (apply in_range_unsigned; [done|]; prim_lia).
  rewrite shl_small by (try done; prim_lia). simpl. do 3 f_equal. lia.
Qed.

Lemma wbytes_two_byte x : 0 <= x <= 0x3fff ->
  wbytes (encode_to (prim_encode U16) (Z.lor (shl U16 (wrap U16 x) 2) 1))
  = Done (le_split 2 (4 * x + 1)).
Proof.
  intros Hx. rewrite wbytes_prim. rewrite wrap_id by (apply in_range_unsigned; [done|]; prim_lia).
  rewrite shl_small by (try done; prim_lia). by rewrite lor_low_bits by lia.
Qed.

Lemma wbytes_four_byte x : 0 <= x <= 0x3fffffff ->
  wbytes (encode_to (prim_encode U32) (Z.lor (shl U32 (wrap U32 x) 2) 2))
  = Done (le_split 4 (4 * x + 2)).
Proof.
  intros Hx. rewrite wbytes_prim. rewrite wrap_id by (apply in_range_unsigned; [done|]; prim_lia).
  rewrite shl_small by (try done; prim_lia). by rewrite lor_low_bits by lia.
Qed.

(** One arm of an encoder, selected by the size of [x]. *)
Ltac encoder_arm c :=
  destruct c; cbn [compact_encode_to compact_prim] in *; try prim_lia;
  unfold compact_encode_to_u8, compact_encode_to_u16, compact_encode_to_u32,
    compact_encode_to_u64, compact_encode_to_u128;
  decide_tests; rewrite ?wrap_id; try done; try (apply in_range_unsigned; by try prim_lia).

Section encoder.
Context (c : compact_ty) (x : Z).
Hypothesis x_range : 0 <= x < 2 ^ prim_bits (compact_prim c).

Lemma wbytes_compact_single : x <= 0x3f ->
  wbytes (compact_encode_to c x) = Done [byte.of_Z (4 * x)].
Proof. intros. rewrite <- wbytes_small by lia. encoder_arm c. Qed.

Lemma wbytes_compact_double : 0x3f < x <= 0x3fff ->
  wbytes (compact_encode_to c x) = Done (le_split 2 (4 * x + 1)).
Proof. intros. rewrite <- wbytes_two_byte by lia. encoder_arm c. Qed.

Lemma wbytes_compact_quad : 0x3fff < x <= 0x3fffffff ->
  wbytes (compact_encode_to c x) = Done (le_split 4 (4 * x + 2)).
Proof. intros. rewrite <- wbytes_four_byte by lia. encoder_arm c. Qed.

Lemma wbytes_compact_big : 0x3fffffff < x ->
  wbytes (compact_encode_to c x)
  = Done (byte.of_Z (4 * (significant_bytes x - 4) + 3)
          :: le_split (Z.to_nat (significant_bytes x)) x).
Proof.
  intros Hx. encoder_arm c.
  - rewrite (significant_bytes_unique x 4) by prim_lia.
    by rewrite wbytes_push_byte, wbytes_prim.
  - rewrite (leading_zeros_bytes U64) by lia. apply wbytes_push_big_integer. prim_lia.
  - rewrite (leading_zeros_bytes U128) by lia. apply wbytes_push_big_integer. prim_lia.
Qed.
End encoder.

(** The five encoders implement the specification. *)
Lemma wbytes_compact c x :
  in_range (compact_prim c) x -> wbytes (compact_encode_to c x) = Done (compact_spec x).
Proof.
  intros Hx%compact_range. unfold compact_spec.
  repeat case_match; bool_to_prop.
  - by apply wbytes_compact_single.
  - by apply wbytes_compact_double.
  - by apply wbytes_compact_quad.
  - by apply wbytes_compact_big.
Qed.

(** [compact_len] is the length of the encoding. *)
Lemma zlen_compact_spec c x :
  in_range (compact_prim c) x -> zlen (compact_spec x) = compact_len c x.
Proof.
  intros Hx%compact_range. unfold compact_spec.
  repeat case_match; bool_to_prop; unfold zlen; cbn [length]; rewrite ?length_le_split.
  1-3: destruct c; cbn [compact_len compact_prim] in *; try prim_lia;
    unfold compact_len_u8, compact_len_u16, compact_len_u32, compact_len_u64, compact_len_u128;
    decide_tests; done.
  assert (0 <= significant_bytes x) by (unfold significant_bytes; pose proof (Z.log2_nonneg x); dlia).
  destruct c; cbn [compact_len compact_prim] in *; try prim_lia;
    unfold compact_len_u8, compact_len_u16, compact_len_u32, compact_len_u64, compact_len_u128;
    decide_tests.
  - rewrite (significant_bytes_unique x 4) by prim_lia. done.
  - rewrite (leading_zeros_bytes U64) by lia. lia.
  - rewrite (leading_zeros_bytes U128) by lia. lia.
Qed.

(** The stack buffer of [using_encoded] is large enough. *)
Lemma compact_len_capacity c x :
  in_range (compact_prim c) x -> 1 <= compact_len c x <= compact_capacity c.
Proof.
  intros Hx%compact_range. destruct c; cbn [compact_len compact_prim compact_capacity] in *;
    unfold compact_len_u8, compact_len_u16, compact_len_u32, compact_len_u64, compact_len_u128,
      leading_zeros; repeat case_match; bool_to_prop; try lia.
  - pose proof (Z.log2_nonneg x). assert (Z.log2 x < 64) by (apply Z.log2_lt_pow2; prim_lia).
    change (prim_bits U64) with 64 in *. dlia.
  - pose proof (Z.log2_nonneg x). assert (Z.log2 x < 128) by (apply Z.log2_lt_pow2; prim_lia).
    change (prim_bits U128) with 128 in *. dlia.
Qed.

#[global] Instance compact_ref_encode_laws c :
  EncodeLaws (compact_ref_encode c) (in_range (compact_prim c)).
Proof.
  constructor; simpl.
  - intros x bs Hx. by apply default_encode_done in Hx as [_ ?].
  - intros x bs. unfold compact_using_encoded.
    destruct run_output as [w|] eqn:Hw; simpl; intros [= <-].
    by apply run_output_array_vec_inv in Hw as (bs & -> & ->).
  - intros x h bs Hx Hh Hm Hb. split; [apply default_encode_done; simplify_eq; eauto|].
    unfold compact_using_encoded. pose proof (compact_len_capacity c x Hx).
    rewrite (run_output_array_vec _ bs); [done..|].
    rewrite wbytes_compact in Hb by done. injection Hb as <-.
    rewrite (zlen_compact_spec c), zlen_nil by done. lia.
  - discriminate.
Qed.

#[global] Instance compact_encode_laws c :
  EncodeLaws (compact_encode c) (in_range (compact_prim c)).
Proof. by apply (impl_forward_laws _ _ _ _ _ (compact_ref_encode_laws c)). Qed.
End encoding.

(** ** Decoding *)

Section decoding.
Context `{Target}.

(** A number whose first byte has been put back. *)
Lemma run_decode_prefixed p b tl rest :
  (2 <= prim_bytes p)%nat -> length (b :: tl) = prim_bytes p ->
  run (decode_prefixed (decode (prim_decode p)) b) (tl ++ rest)
  = Done (Ok (from_le_bytes p (b :: tl)), rest).
Proof.
  intros Hp Hl. unfold decode_prefixed. rewrite run_bind.
  assert (prim_decode p = endian_decode p) as -> by (destruct p; done || (simpl in Hp; lia)).
  cbn [decode endian_decode]. unfold endian_decode_fn, try_bind, read.
  cbn [prog_bind interp w_read prefix_input]. unfold prefix_read, read. decide_tests.
  rewrite run_bind. cbn [prog_bind]. rewrite run_read_app; [done|].
  simpl in Hl. unfold zlen. lia.
Qed.

Lemma run_decode_prefixed_inv p b i y i' :
  (2 <= prim_bytes p)%nat ->
  run (decode_prefixed (decode (prim_decode p)) b) i = Done (Ok y, i') ->
  exists tl, i = tl ++ i' /\ length (b :: tl) = prim_bytes p /\ y = from_le_bytes p (b :: tl).
Proof.
  intros Hp Hrun.
  destruct (decide (Z.of_nat (prim_bytes p) - 1 <= zlen i)) as [Hl|Hl].
  - set (n := (prim_bytes p - 1)%nat).
    assert (length (b :: take n i) = prim_bytes p).
    { simpl. rewrite length_take. unfold zlen in Hl. lia. }
    rewrite <- (take_drop n i), run_decode_prefixed in Hrun by done. simplify_eq.
    exists (take n i). by rewrite take_drop.
  - exfalso. revert Hrun. unfold decode_prefixed. rewrite run_bind.
    assert (prim_decode p = endian_decode p) as -> by (destruct p; done || (simpl in Hp; lia)).
    cbn [decode endian_decode]. unfold endian_decode_fn, try_bind, read.
    cbn [prog_bind interp w_read prefix_input]. unfold prefix_read, read. decide_tests.
    rewrite run_bind. cbn. unfold slice_read. decide_tests. done.
Qed.

Lemma decode_prefixed_wb p b :
  (2 <= prim_bytes p)%nat -> wb (in_range p) 0 (decode_prefixed (decode (prim_decode p)) b).
Proof.
  intros Hp. unfold decode_prefixed.
  assert (prim_decode p = endian_decode p) as -> by (destruct p; done || (simpl in Hp; lia)).
  cbn [decode endian_decode]. unfold endian_decode_fn, try_bind, read.
  cbn [prog_bind interp w_read prefix_input]. unfold prefix_read, read. decide_tests.
  cbn [prog_bind]. constructor; [lia|intros; constructor|].
  intros bs _. apply wb_done. auto with scale.
Qed.

(** The byte loop of the big-integer mode. *)
Lemma run_read_le_bytes p n bs rest i res :
  prim_signed p = false -> 0 <= i -> length bs = n -> 8 * (i + Z.of_nat n) <= prim_bits p ->
  run (read_le_bytes p n i res) (bs ++ rest)
  = Done (Ok (Z.lor res (Z.shiftl (le_combine bs) (8 * i))), rest).
Proof.
  intros Hp. revert bs i res. induction n as [|n IH]; intros bs i res Hi Hl Hb.
  - destruct bs; [|done]. simpl. by rewrite le_combine_nil, Z.shiftl_0_l, Z.lor_0_r.
  - destruct bs as [|b bs]; [done|]. simpl in Hl. cbn [read_le_bytes app].
    rewrite run_try_read_byte, IH by lia. do 3 f_equal.
    pose proof (byte.unsigned_range b) as Hbr. change (2 ^ 8) with 256 in Hbr.
    rewrite shl_small; [|done|lia|lia|].
    2: { eapply Z.lt_le_trans with (256 * 2 ^ (i * 8)).
         - apply Z.mul_lt_mono_pos_r; [apply Z.pow_pos_nonneg|]; lia.
         - change 256 with (2 ^ 8). rewrite <- Z.pow_add_r by lia. apply Z.pow_le_mono_r; lia. }
    rewrite <- Z.lor_assoc. f_equal.
    change (le_combine (b :: bs)) with (Z.lor (byte.unsigned b) (Z.shiftl (le_combine bs) 8)).
    rewrite Z.shiftl_lor, Z.shiftl_shiftl, <- Z.shiftl_mul_pow2 by lia.
    f_equal; f_equal; lia.
Qed.

Lemma run_read_le_bytes_inv p n i res j x j' :
  run (read_le_bytes p n i res) j = Done (Ok x, j') -> exists bs, length bs = n /\ j = bs ++ j'.
Proof.
  revert i res j. induction n as [|n IH]; intros i res j Hrun.
  - simpl in Hrun. simplify_eq. by exists [].
  - cbn [read_le_bytes] in Hrun. apply run_read_byte_inv in Hrun as (b & rest & -> & Hrun).
    apply IH in Hrun as (bs & <- & ->). by exists (b :: bs).
Qed.

Lemma read_le_bytes_wb p n i res :
  in_range p res -> prim_signed p = false -> wb (in_range p) 0 (read_le_bytes p n i res).
Proof.
  intros Hres Hp. revert i res Hres. induction n as [|n IH]; intros i res Hres; cbn [read_le_bytes].
  - by apply wb_done.
  - apply wb_try_read_byte. intros b. apply IH.
    rewrite in_range_unsigned in * by done. apply lor_bound; [done|].
    rewrite <- in_range_unsigned by done. unfold shl. auto with scale.
Qed.

(** The first byte of a little-endian number has its low bits. *)
Lemma le_split_cons_inv n y :
  (0 < n)%nat -> 0 <= y < 2 ^ (8 * Z.of_nat n) ->
  exists b tl, le_split n y = b :: tl /\ byte.unsigned b mod 4 = y mod 4 /\ le_combine (b :: tl) = y.
Proof.
  intros Hn Hy. destruct n as [|n]; [lia|]. rewrite le_split_S.
  eexists _, _; split; [done|]. split.
  - rewrite byte.unsigned_of_Z. unfold byte.wrap. change (2 ^ 8) with 256. dlia.
  - rewrite <- le_split_S. by apply le_combine_split_small.
Qed.

Lemma le_combine_low b tl : le_combine (b :: tl) mod 4 = byte.unsigned b mod 4.
Proof. rewrite le_combine_cons. dlia. Qed.

Lemma shiftr_2 y : Z.shiftr y 2 = y / 4.
Proof. by rewrite Z.shiftr_div_pow2. Qed.

(** [u64::MAX >> n]. *)
Lemma shiftr_max p n :
  prim_signed p = false -> 0 <= n <= prim_bits p -> Z.shiftr (MAX p) n = 2 ^ (prim_bits p - n) - 1.
Proof.
  intros Hp Hn. unfold MAX, prim_max. rewrite Hp.
  rewrite Z.sub_1_r, <- Z.ones_equiv, Z.shiftr_div_pow2, Z.ones_div_pow2 by lia.
  by rewrite Z.ones_equiv, Z.sub_1_r.
Qed.

Lemma run_read_le_bytes_split p n x rest :
  0 <= x -> prim_signed p = false -> 0 <= n -> 8 * n <= prim_bits p -> x < 2 ^ (8 * n) ->
  run (read_le_bytes p (Z.to_nat n) 0 0) (le_split (Z.to_nat n) x ++ rest) = Done (Ok x, rest).
Proof.
  intros. rewrite run_read_le_bytes by (done || (rewrite ?length_le_split; lia)).
  rewrite Z.mul_0_r, Z.shiftl_0_r, Z.lor_0_l, le_combine_split_small; [done|].
  rewrite Z2Nat.id by done. lia.
Qed.

Lemma run_prim_decode_split p n x rest :
  0 <= x -> prim_signed p = false -> n = Z.of_nat (prim_bytes p) -> x < 2 ^ prim_bits p ->
  run (decode (prim_decode p)) (le_split (Z.to_nat n) x ++ rest) = Done (Ok x, rest).
Proof.
  intros Hx0 Hp -> Hx. rewrite Nat2Z.id. apply (roundtrip x); [|apply wbytes_prim].
  apply in_range_unsigned; [done|]. lia.
Qed.

(** The arms of the big-integer mode, on [n] significant bytes. *)
Lemma run_big_u64 n x rest :
  4 <= n <= 8 -> 0x3fffffff < x < 2 ^ 64 -> 2 ^ (8 * (n - 1)) <= x < 2 ^ (8 * n) ->
  run (compact_decode_big_u64 (n - 4 + 4)) (le_split (Z.to_nat n) x ++ rest) = Done (Ok x, rest).
Proof.
  intros Hn Hx Hlt. rewrite Z.sub_add. unfold compact_decode_big_u64.
  destruct (decide (n = 4)) as [-> | Hn4]; [|destruct (decide (n = 8)) as [-> | Hn8]]; decide_tests.
  - rewrite run_try_bind, (run_prim_decode_split U32) by (done || prim_lia). simpl.
    change (Z.shiftr (MAX U32) 2) with 0x3fffffff. by decide_tests.
  - rewrite run_try_bind, (run_prim_decode_split U64) by (done || prim_lia). simpl.
    rewrite shiftr_max by (done || prim_lia). prim_lits. simpl in Hlt. by decide_tests.
  - rewrite run_try_bind, run_read_le_bytes_split by (done || prim_lia). simpl.
    rewrite shiftr_max by (done || prim_lia). prim_lits.
    replace (64 - (8 - n + 1) * 8) with (8 * (n - 1)) by lia. by decide_tests.
Qed.

Lemma run_big_u128 n x rest :
  4 <= n <= 16 -> 0x3fffffff < x < 2 ^ 128 -> 2 ^ (8 * (n - 1)) <= x < 2 ^ (8 * n) ->
  run (compact_decode_big_u128 (n - 4 + 4)) (le_split (Z.to_nat n) x ++ rest) = Done (Ok x, rest).
Proof.
  intros Hn Hx Hlt. rewrite Z.sub_add. unfold compact_decode_big_u128.
  destruct (decide (n = 4)) as [-> | Hn4]; [|destruct (decide (n = 8)) as [-> | Hn8];
    [|destruct (decide (n = 16)) as [-> | Hn16]]]; decide_tests.
  - rewrite run_try_bind, (run_prim_decode_split U32) by (done || prim_lia). simpl.
    change (Z.shiftr (MAX U32) 2) with 0x3fffffff. by decide_tests.
  - rewrite run_try_bind, (run_prim_decode_split U64) by (done || prim_lia). simpl.
    rewrite shiftr_max by (done || prim_lia). prim_lits. simpl in Hlt. by decide_tests.
  - rewrite run_try_bind, (run_prim_decode_split U128) by (done || prim_lia). simpl.
    rewrite shiftr_max by (done || prim_lia). prim_lits. simpl in Hlt. by decide_tests.
  - rewrite run_try_bind, run_read_le_bytes_split by (done || prim_lia). simpl.
    rewrite shiftr_max by (done || prim_lia). prim_lits.
    replace (128 - (16 - n + 1) * 8) with (8 * (n - 1)) by lia. by decide_tests.
Qed.

(** Enter the arm of the decoders that the first byte selects. *)
Ltac decoder_arm c Hmod :=
  destruct c; cbn [compact_decode_fn compact_prim] in *; prim_lits; try lia;
  unfold compact_decode_u8, compact_decode_u16, compact_decode_u32,
    compact_decode_u64, compact_decode_u128;
  cbn [app]; rewrite run_try_read_byte; cbv zeta; rewrite Hmod; cbv iota.

Section decoder.
Context (c : compact_ty) (x : Z) (rest : list byte).
Hypothesis x_range : 0 <= x < 2 ^ prim_bits (compact_prim c).

Lemma run_compact_single : x <= 0x3f ->
  run (compact_decode_fn c) ([byte.of_Z (4 * x)] ++ rest) = Done (Ok x, rest).
Proof.
  intros Hx. assert (byte.unsigned (byte.of_Z (4 * x)) = 4 * x) as Hb.
  { rewrite byte.unsigned_of_Z. apply Z.mod_small. simpl. lia. }
  assert ((4 * x) mod 4 = 0) as Hmod by dlia.
  rewrite <- Hb in Hmod.
  decoder_arm c Hmod; rewrite Hb, shiftr_2; simpl; do 3 f_equal; dlia.
Qed.

Lemma run_compact_double : 0x3f < x <= 0x3fff ->
  run (compact_decode_fn c) (le_split 2 (4 * x + 1) ++ rest) = Done (Ok x, rest).
Proof.
  intros Hx. destruct (le_split_cons_inv 2 (4 * x + 1)) as (b & tl & Hs & Hmod & Hy);
    [lia|simpl; lia|].
  pose proof (length_le_split 2 (4 * x + 1)) as Hl. rewrite Hs in *.
  assert ((4 * x + 1) mod 4 = 1) as Hm by dlia. rewrite Hm in Hmod.
  assert ((4 * x + 1) / 4 = x) as Hd by dlia.
  decoder_arm c Hmod; rewrite run_try_bind, run_decode_prefixed by (done || simpl; lia); simpl;
    rewrite from_le_bytes_unsigned, Hy, shiftr_2, Hd by done; decide_tests; simpl;
    rewrite ?wrap_id; try done; apply in_range_unsigned; by try prim_lia.
Qed.

Lemma run_compact_quad : 0x3fff < x <= 0x3fffffff ->
  run (compact_decode_fn c) (le_split 4 (4 * x + 2) ++ rest) = Done (Ok x, rest).
Proof.
  intros Hx. destruct (le_split_cons_inv 4 (4 * x + 2)) as (b & tl & Hs & Hmod & Hy);
    [lia|simpl; lia|].
  pose proof (length_le_split 4 (4 * x + 2)) as Hl. rewrite Hs in *.
  assert ((4 * x + 2) mod 4 = 2) as Hm by dlia. rewrite Hm in Hmod.
  assert ((4 * x + 2) / 4 = x) as Hd by dlia.
  change (Z.shiftr (MAX U32) 2) with 0x3fffffff.
  decoder_arm c Hmod; rewrite run_try_bind, run_decode_prefixed by (done || simpl; lia); simpl;
    rewrite from_le_bytes_unsigned, Hy, shiftr_2, Hd by done;
    change (Z.shiftr (MAX U32) 2) with 0x3fffffff; decide_tests; simpl;
    rewrite ?wrap_id; try done; apply in_range_unsigned; by try prim_lia.
Qed.

Lemma run_compact_big : 0x3fffffff < x ->
  run (compact_decode_fn c)
    ((byte.of_Z (4 * (significant_bytes x - 4) + 3)
      :: le_split (Z.to_nat (significant_bytes x)) x) ++ rest) = Done (Ok x, rest).
Proof.
  intros Hx. pose proof (significant_bytes_bound x ltac:(lia)) as Hsb.
  set (n := significant_bytes x) in *.
  assert (4 <= n <= Z.of_nat (prim_bytes (compact_prim c))) as Hn.
  { unfold n, significant_bytes. assert (29 <= Z.log2 x) by (apply Z.log2_le_pow2; lia).
    assert (Z.log2 x < prim_bits (compact_prim c)) by (apply Z.log2_lt_pow2; lia).
    unfold prim_bits in *. dlia. }
  assert (n <= 16) by (destruct c; simpl in Hn; lia).
  assert (byte.unsigned (byte.of_Z (4 * (n - 4) + 3)) = 4 * (n - 4) + 3) as Hb.
  { rewrite byte.unsigned_of_Z. apply Z.mod_small. simpl. lia. }
  assert ((4 * (n - 4) + 3) mod 4 = 3) as Hmod by dlia. rewrite <- Hb in Hmod.
  assert ((4 * (n - 4) + 3) / 4 = n - 4) as Hd by dlia.
  decoder_arm c Hmod; rewrite Hb, shiftr_2, Hd; simpl in Hn; try lia.
  - assert (n = 4) as -> by lia. decide_tests.
    rewrite run_try_bind, (run_prim_decode_split U32) by (done || prim_lia). simpl.
    change (Z.shiftr (MAX U32) 2) with 0x3fffffff. by decide_tests.
  - apply run_big_u64; lia.
  - apply run_big_u128; lia.
Qed.
End decoder.

(** Each decoder reads back the encoding of every integer of its type. *)
Lemma run_compact_decode c x rest :
  in_range (compact_prim c) x ->
  run (compact_decode_fn c) (compact_spec x ++ rest) = Done (Ok x, rest).
Proof.
  intros Hx%compact_range. unfold compact_spec.
  repeat case_match; bool_to_prop.
  - by apply run_compact_single.
  - by apply run_compact_double.
  - by apply run_compact_quad.
  - by apply run_compact_big.
Qed.

(** ** What the decoders accept *)

(** Mode 1 and 2: the number in the first two or four bytes. *)
Lemma prefixed_arm_inv p b (k : Z -> dec Z) i x i' m :
  (2 <= prim_bytes p)%nat -> prim_signed p = false -> byte.unsigned b mod 4 = m ->
  run (y ⇐ decode_prefixed (decode (prim_decode p)) b; k (Z.shiftr y 2)) i = Done (Ok x, i') ->
  exists z j, b :: i = le_split (prim_bytes p) (4 * z + m) ++ j /\ 0 <= z < 2 ^ prim_bits p / 4 /\
    run (k z) j = Done (Ok x, i').
Proof.
  intros Hp Hs Hm Hrun. apply run_try_bind_ok in Hrun as (y & j & Hy & Hk).
  apply run_decode_prefixed_inv in Hy as (tl & -> & Hl & ->); [|done].
  rewrite from_le_bytes_unsigned, shiftr_2 in Hk by done.
  pose proof (le_combine_bound (b :: tl)) as Hlb.
  exists (le_combine (b :: tl) / 4), j. split_and!; [|dlia| |done].
  - replace (4 * (le_combine (b :: tl) / 4) + m) with (le_combine (b :: tl)).
    + by rewrite split_le_combine'.
    + pose proof (le_combine_low b tl). dlia.
  - unfold prim_bits. rewrite Hl in Hlb. clear -Hlb Hp.
    assert (2 ^ (8 * Z.of_nat (prim_bytes p)) = 4 * 2 ^ (8 * Z.of_nat (prim_bytes p) - 2)) as E.
    { change 4 with (2 ^ 2). rewrite <- Z.pow_add_r by lia. f_equal. lia. }
    rewrite E in Hlb |- *. dlia.
Qed.

Lemma prim_arm_inv p (k : Z -> dec Z) i x i' :
  prim_signed p = false ->
  run (y ⇐ decode (prim_decode p); k y) i = Done (Ok x, i') ->
  exists y j, i = le_split (prim_bytes p) y ++ j /\ 0 <= y < 2 ^ prim_bits p /\
    run (k y) j = Done (Ok x, i').
Proof.
  intros Hs Hrun. apply run_try_bind_ok in Hrun as (y & j & Hy & Hk).
  apply run_prim_decode_inv in Hy as (bs & Hl & -> & ->). exists (from_le_bytes p bs), j.
  assert (0 <= from_le_bytes p bs < 2 ^ prim_bits p)
    by (apply in_range_unsigned; auto with scale).
  split_and!; [|lia|lia|done].
  f_equal. symmetry. by apply to_from_le_bytes.
Qed.

Lemma loop_arm_inv p n (k : Z -> dec Z) i x i' :
  prim_signed p = false -> 0 <= n -> 8 * n <= prim_bits p ->
  run (y ⇐ read_le_bytes p (Z.to_nat n) 0 0; k y) i = Done (Ok x, i') ->
  exists y j, i = le_split (Z.to_nat n) y ++ j /\ 0 <= y < 2 ^ (8 * n) /\
    run (k y) j = Done (Ok x, i').
Proof.
  intros Hs Hn Hb Hrun. apply run_try_bind_ok in Hrun as (y & j & Hy & Hk).
  pose proof Hy as Hy2. apply run_read_le_bytes_inv in Hy2 as (bs & Hl & ->).
  rewrite run_read_le_bytes in Hy by (done || lia).
  rewrite Z.mul_0_r, Z.shiftl_0_r, Z.lor_0_l in Hy. injection Hy as <-.
  exists (le_combine bs), j. pose proof (le_combine_bound bs) as Hlb. rewrite Hl in *.
  split_and!; [|lia| |done]; [by rewrite split_le_combine'|].
  rewrite Z2Nat.id in Hlb by done. lia.
Qed.

(** The end of an arm: the range check, then the value. *)
Lemma checked_ok_inv {A} (t : bool) (v x : A) msg (i i' : list byte) :
  run (if t then ok v else throw msg) i = Done (Ok x, i') -> t = true /\ x = v /\ i = i'.
Proof. destruct t; simpl; intros; by simplify_eq. Qed.

Lemma compact_spec_single b : byte.unsigned b mod 4 = 0 ->
  compact_spec (Z.shiftr (byte.unsigned b) 2) = [b] /\ 0 <= Z.shiftr (byte.unsigned b) 2 <= 0x3f.
Proof.
  intros Hm. pose proof (byte.unsigned_range b) as Hb. change (2 ^ 8) with 256 in Hb.
  rewrite shiftr_2. assert (0 <= byte.unsigned b / 4 <= 0x3f) by dlia. split; [|done].
  unfold compact_spec. decide_tests.
  replace (4 * (byte.unsigned b / 4)) with (byte.unsigned b) by dlia. by rewrite byte.of_Z_unsigned.
Qed.

Lemma compact_spec_big b n x :
  byte.unsigned b mod 4 = 3 -> n = Z.shiftr (byte.unsigned b) 2 + 4 ->
  0x3fffffff < x -> 2 ^ (8 * (n - 1)) <= x < 2 ^ (8 * n) ->
  compact_spec x = b :: le_split (Z.to_nat n) x.
Proof.
  intros Hm Hn Hx Hlt. pose proof (byte.unsigned_range b) as Hb. rewrite shiftr_2 in Hn.
  unfold compact_spec. decide_tests. rewrite (significant_bytes_unique x n) by (done || dlia).
  replace (4 * (n - 4) + 3) with (byte.unsigned b) by dlia. by rewrite byte.of_Z_unsigned.
Qed.

Lemma big_u64_inv b n i x i' :
  byte.unsigned b mod 4 = 3 -> n = Z.shiftr (byte.unsigned b) 2 + 4 ->
  run (compact_decode_big_u64 n) i = Done (Ok x, i') ->
  0 <= x < 2 ^ 64 /\ b :: i = compact_spec x ++ i'.
Proof.
  intros Hm Hn Hrun. assert (4 <= n) by
    (pose proof (byte.unsigned_range b); rewrite shiftr_2 in Hn; dlia).
  unfold compact_decode_big_u64 in Hrun.
  destruct (n =? 4) eqn:E4; [|destruct (n =? 8) eqn:E8; [|destruct (8 <? n) eqn:Eb]]; bool_to_prop.
  - apply prim_arm_inv in Hrun as (y & j & -> & Hy & Hk); [|done].
    apply checked_ok_inv in Hk as (Ht & -> & ->).
    change (Z.shiftr (MAX U32) 2) with 0x3fffffff in Ht. bool_to_prop. prim_lits.
    split; [lia|]. rewrite (compact_spec_big b n y) by (done || (rewrite E4; simpl; lia) || lia).
    by rewrite E4.
  - apply prim_arm_inv in Hrun as (y & j & -> & Hy & Hk); [|done].
    apply checked_ok_inv in Hk as (Ht & -> & ->).
    rewrite shiftr_max in Ht by (done || prim_lia). bool_to_prop. prim_lits.
    simpl in Ht. split; [lia|].
    rewrite (compact_spec_big b n y) by (done || (rewrite E8; simpl; lia) || lia).
    by rewrite E8.
  - done.
  - apply loop_arm_inv in Hrun as (y & j & -> & Hy & Hk); [|done|lia|prim_lia].
    apply checked_ok_inv in Hk as (Ht & -> & ->).
    rewrite shiftr_max in Ht by (done || prim_lia). bool_to_prop. prim_lits.
    replace (64 - (8 - n + 1) * 8) with (8 * (n - 1)) in Ht by lia.
    assert (2 ^ 32 <= 2 ^ (8 * (n - 1)) /\ 2 ^ (8 * n) <= 2 ^ 64)
      by (split; apply Z.pow_le_mono_r; lia).
    split; [lia|]. by rewrite (compact_spec_big b n y) by (done || lia).
Qed.

Lemma big_u128_inv b n i x i' :
  byte.unsigned b mod 4 = 3 -> n = Z.shiftr (byte.unsigned b) 2 + 4 ->
  run (compact_decode_big_u128 n) i = Done (Ok x, i') ->
  0 <= x < 2 ^ 128 /\ b :: i = compact_spec x ++ i'.
Proof.
  intros Hm Hn Hrun. assert (4 <= n) by
    (pose proof (byte.unsigned_range b); rewrite shiftr_2 in Hn; dlia).
  unfold compact_decode_big_u128 in Hrun.
  destruct (n =? 4) eqn:E4; [|destruct (n =? 8) eqn:E8;
    [|destruct (n =? 16) eqn:E16; [|destruct (16 <? n) eqn:Eb]]]; bool_to_prop.
  - apply prim_arm_inv in Hrun as (y & j & -> & Hy & Hk); [|done].
    apply checked_ok_inv in Hk as (Ht & -> & ->).
    change (Z.shiftr (MAX U32) 2) with 0x3fffffff in Ht. bool_to_prop. prim_lits.
    split; [lia|]. rewrite (compact_spec_big b n y) by (done || (rewrite E4; simpl; lia) || lia).
    by rewrite E4.
  - apply prim_arm_inv in Hrun as (y & j & -> & Hy & Hk); [|done].
    apply checked_ok_inv in Hk as (Ht & -> & ->).
    rewrite shiftr_max in Ht by (done || prim_lia). bool_to_prop. prim_lits.
    simpl in Ht. split; [lia|].
    rewrite (compact_spec_big b n y) by (done || (rewrite E8; simpl; lia) || lia).
    by rewrite E8.
  - apply prim_arm_inv in Hrun as (y & j & -> & Hy & Hk); [|done].
    apply checked_ok_inv in Hk as (Ht & -> & ->).
    rewrite shiftr_max in Ht by (done || prim_lia). bool_to_prop. prim_lits.
    simpl in Ht. split; [lia|].
    rewrite (compact_spec_big b n y) by (done || (rewrite E16; simpl; lia) || lia).
    by rewrite E16.
  - done.
  - apply loop_arm_inv in Hrun as (y & j & -> & Hy & Hk); [|done|lia|prim_lia].
    apply checked_ok_inv in Hk as (Ht & -> & ->).
    rewrite shiftr_max in Ht by (done || prim_lia). bool_to_prop. prim_lits.
    replace (128 - (16 - n + 1) * 8) with (8 * (n - 1)) in Ht by lia.
    assert (2 ^ 32 <= 2 ^ (8 * (n - 1)) /\ 2 ^ (8 * n) <= 2 ^ 128)
      by (split; apply Z.pow_le_mono_r; lia).
    split; [lia|]. by rewrite (compact_spec_big b n y) by (done || lia).
Qed.

(** The two- and four-byte modes, with the upper bound [up] of the type and the
    cast [f] into it. *)
Lemma double_arm_inv b (up : Z -> bool) (f : Z -> Z) msg i x i' :
  byte.unsigned b mod 4 = 1 ->
  run (y ⇐ decode_prefixed (decode (prim_decode U16)) b;
       if (0x3f <? Z.shiftr y 2) && up (Z.shiftr y 2) then ok (f (Z.shiftr y 2)) else throw msg) i
  = Done (Ok x, i') ->
  exists z, 0x3f < z <= 0x3fff /\ up z = true /\ x = f z /\ b :: i = compact_spec z ++ i'.
Proof.
  intros Hm Hrun.
  apply (prefixed_arm_inv U16 b (fun z => if (0x3f <? z) && up z then ok (f z) else throw msg)
    i x i' 1) in Hrun as (z & j & Hi & Hz & Hk); [|simpl; lia|done..].
  apply checked_ok_inv in Hk as (Ht & -> & ->). bool_to_prop. change (2 ^ prim_bits U16 / 4) with 16384 in Hz.
  exists z. split_and!; try (done || lia). rewrite Hi. unfold compact_spec. by decide_tests.
Qed.

Lemma quad_arm_inv b (up : Z -> bool) (f : Z -> Z) msg i x i' :
  byte.unsigned b mod 4 = 2 ->
  run (y ⇐ decode_prefixed (decode (prim_decode U32)) b;
       if (0x3fff <? Z.shiftr y 2) && up (Z.shiftr y 2) then ok (f (Z.shiftr y 2)) else throw msg) i
  = Done (Ok x, i') ->
  exists z, 0x3fff < z <= 0x3fffffff /\ up z = true /\ x = f z /\ b :: i = compact_spec z ++ i'.
Proof.
  intros Hm Hrun.
  apply (prefixed_arm_inv U32 b (fun z => if (0x3fff <? z) && up z then ok (f z) else throw msg)
    i x i' 2) in Hrun as (z & j & Hi & Hz & Hk); [|simpl; lia|done..].
  apply checked_ok_inv in Hk as (Ht & -> & ->). bool_to_prop. change (2 ^ prim_bits U32 / 4) with 1073741824 in Hz.
  exists z. split_and!; try (done || lia). rewrite Hi. unfold compact_spec. by decide_tests.
Qed.

(** The one-byte mode. *)
Lemma single_arm_inv b (i : list byte) x i' :
  byte.unsigned b mod 4 = 0 ->
  run (ok (Z.shiftr (byte.unsigned b) 2)) i = Done (Ok x, i') ->
  0 <= x <= 0x3f /\ b :: i = compact_spec x ++ i'.
Proof. intros [Hs Hr]%compact_spec_single [= <- <-]. by rewrite Hs. Qed.

(** The arm for [u32] numbers above [2 ^ 30]. *)
Lemma big_u32_inv b i x i' :
  byte.unsigned b mod 4 = 3 ->
  run (if Z.shiftr (byte.unsigned b) 2 =? 0 then
         x ⇐ decode (prim_decode U32);
         if Z.shiftr (MAX U32) 2 <? x then ok x else throw U32_OUT_OF_RANGE
       else throw U32_OUT_OF_RANGE) i = Done (Ok x, i') ->
  0 <= x < 2 ^ 32 /\ b :: i = compact_spec x ++ i'.
Proof.
  intros Hm Hrun. destruct (_ =? 0) eqn:E; bool_to_prop; [|done].
  apply prim_arm_inv in Hrun as (y & j & -> & Hy & Hk); [|done].
  apply checked_ok_inv in Hk as (Ht & -> & ->).
  change (Z.shiftr (MAX U32) 2) with 0x3fffffff in Ht. bool_to_prop. prim_lits.
  split; [lia|]. by rewrite (compact_spec_big b 4 y) by (done || lia || (simpl; lia)).
Qed.

Lemma mod_4_cases b : let m := byte.unsigned b mod 4 in m = 0 \/ m = 1 \/ m = 2 \/ m = 3.
Proof. pose proof (Z.mod_pos_bound (byte.unsigned b) 4). simpl. lia. Qed.

(** Split on the mode the first byte selects, in each of the five decoders. *)
Ltac decoder_cases c b Hrun :=
  destruct (mod_4_cases b) as [Hm|[Hm|[Hm|Hm]]];
  destruct c; cbn [compact_decode_fn compact_prim] in *;
  unfold compact_decode_u8, compact_decode_u16, compact_decode_u32,
    compact_decode_u64, compact_decode_u128 in Hrun;
  rewrite run_try_read_byte in Hrun; cbv zeta in Hrun; rewrite Hm in Hrun; cbv iota in Hrun.

Ltac close_range :=
  cbv beta delta [id] in *; bool_to_prop; rewrite ?wrap_id by (apply in_range_unsigned; [done|]; prim_lia);
  split; [apply in_range_unsigned; [done|]; prim_lia|done].

(** A decoder accepts nothing but the encodings of the integers of its type. *)
Lemma compact_decode_inv c i x i' :
  run (compact_decode_fn c) i = Done (Ok x, i') ->
  in_range (compact_prim c) x /\ i = compact_spec x ++ i'.
Proof.
  intros Hrun. destruct i as [|b rest]; [by destruct c|].
  decoder_cases c b Hrun; try done.
  1-5: apply single_arm_inv in Hrun as [Hr ->]; [|done]; close_range.
  - apply (double_arm_inv b (fun x => x <=? 255) (wrap U8)) in Hrun as (z & Hz & Hu & -> & ->);
      [|done]. close_range.
  - apply (double_arm_inv b (fun x => x <=? 0x3fff) id) in Hrun as (z & Hz & Hu & -> & ->);
      [|done]. close_range.
  - apply (double_arm_inv b (fun x => x <=? 0x3fff) id) in Hrun as (z & Hz & Hu & -> & ->);
      [|done]. close_range.
  - apply (double_arm_inv b (fun x => x <=? 0x3fff) id) in Hrun as (z & Hz & Hu & -> & ->);
      [|done]. close_range.
  - apply (double_arm_inv b (fun x => x <=? 0x3fff) id) in Hrun as (z & Hz & Hu & -> & ->);
      [|done]. close_range.
  - apply (quad_arm_inv b (fun x => x <? 65536) (wrap U16)) in Hrun as (z & Hz & Hu & -> & ->);
      [|done]. close_range.
  - apply (quad_arm_inv b (fun x => x <=? Z.shiftr (MAX U32) 2) id) in Hrun
      as (z & Hz & Hu & -> & ->); [|done]. close_range.
  - apply (quad_arm_inv b (fun x => x <=? Z.shiftr (MAX U32) 2) id) in Hrun
      as (z & Hz & Hu & -> & ->); [|done]. close_range.
  - apply (quad_arm_inv b (fun x => x <=? Z.shiftr (MAX U32) 2) id) in Hrun
      as (z & Hz & Hu & -> & ->); [|done]. close_range.
  - apply big_u32_inv in Hrun as [Hr ->]; [|done]. close_range.
  - apply (big_u64_inv b) in Hrun as [Hr ->]; [|done..]. close_range.
  - apply (big_u128_inv b) in Hrun as [Hr ->]; [|done..]. close_range.
Qed.

(** The end of an arm, as a well-behaved program. *)
Lemma checked_wb {A} (Q : A -> Prop) (t : bool) v msg :
  (t = true -> Q v) -> wb Q 0 (if t then ok v else throw msg).
Proof. destruct t; intros Hv; auto with scale. Qed.

Lemma prefixed_arm_wb p (Q : Z -> Prop) b k :
  (2 <= prim_bytes p)%nat -> (forall y, in_range p y -> wb Q 0 (k y)) ->
  wb Q 0 (y ⇐ decode_prefixed (decode (prim_decode p)) b; k y).
Proof. intros Hp Hk. eapply wb_try; [by apply decode_prefixed_wb|done]. Qed.

Lemma prim_arm_wb p (Q : Z -> Prop) k :
  (forall y, in_range p y -> wb Q 0 (k y)) -> wb Q 0 (y ⇐ decode (prim_decode p); k y).
Proof. intros Hk. eapply wb_try; [by apply prim_decode_wb|done]. Qed.

Lemma loop_arm_wb p (Q : Z -> Prop) n k :
  prim_signed p = false -> (forall y, in_range p y -> wb Q 0 (k y)) ->
  wb Q 0 (y ⇐ read_le_bytes p n 0 0; k y).
Proof.
  intros Hp Hk. eapply wb_try; [apply read_le_bytes_wb; [|done]|done].
  apply in_range_unsigned; [done|]. pose proof (prim_bits_pos p).
  split; [done|]. apply Z.pow_pos_nonneg; lia.
Qed.

Lemma big_u64_wb n : wb (in_range U64) 0 (compact_decode_big_u64 n).
Proof.
  unfold compact_decode_big_u64. repeat case_match; auto with scale.
  - apply prim_arm_wb. intros y Hy. apply checked_wb. intros _.
    rewrite in_range_unsigned in * by done. prim_lia.
  - apply prim_arm_wb. intros y Hy. by apply checked_wb.
  - apply loop_arm_wb; [done|]. intros y Hy. by apply checked_wb.
Qed.

Lemma big_u128_wb n : wb (in_range U128) 0 (compact_decode_big_u128 n).
Proof.
  unfold compact_decode_big_u128. repeat case_match; auto with scale.
  1-2: apply prim_arm_wb; intros y Hy; apply checked_wb; intros _;
    rewrite in_range_unsigned in * by done; prim_lia.
  - apply prim_arm_wb. intros y Hy. by apply checked_wb.
  - apply loop_arm_wb; [done|]. intros y Hy. by apply checked_wb.
Qed.

(** The decoders are well behaved; the [unreachable!] arm is. *)
Lemma compact_decode_wb c : wb (in_range (compact_prim c)) 0 (compact_decode_fn c).
Proof.
  assert (forall p, prim_signed p = false -> forall y, in_range p y -> 0 <= Z.shiftr y 2 <= y)
    as Hsh.
  { intros p Hp y Hy. rewrite in_range_unsigned in Hy by done. rewrite shiftr_2. dlia. }
  pose proof (Hsh U16 eq_refl) as H16. pose proof (Hsh U32 eq_refl) as H32. clear Hsh.
  destruct c; cbn [compact_decode_fn compact_prim];
    unfold compact_decode_u8, compact_decode_u16, compact_decode_u32,
      compact_decode_u64, compact_decode_u128;
    apply wb_try_read_byte; intros b; cbv zeta; pose proof (byte.unsigned_range b) as Hb;
    change (2 ^ 8) with 256 in Hb;
    destruct (mod_4_cases b) as [Hm|[Hm|[Hm|Hm]]]; rewrite Hm; cbv iota;
    auto using big_u64_wb, big_u128_wb with scale.
  all: try (apply wb_done, in_range_unsigned; [done|]; rewrite shiftr_2; prim_lits; dlia).
  all: try (case_match; auto with scale).
  all: first [apply prefixed_arm_wb; [simpl; lia|]|apply prim_arm_wb].
  all: intros y Hy; apply checked_wb; intros Ht; auto with scale.
  all: first [specialize (H16 y Hy)|specialize (H32 y Hy)].
  all: rewrite in_range_unsigned in * by done; prim_lits; lia.
Qed.
End decoding.

#[global] Instance compact_codec_laws `{Target} c :
  CodecLaws (compact_encode c) (compact_decode c) (in_range (compact_prim c)).
Proof.
  constructor.
  - apply _.
  - apply impl_decode_laws; [lia|apply compact_decode_wb].
  - intros x bs rest Hx Hb. simpl in *. unfold id in Hb.
    rewrite wbytes_compact in Hb by done. simplify_eq. by apply run_compact_decode.
  - discriminate.
Qed.

#[global] Instance compact_canonical `{Target} c : Canonical (compact_encode c) (compact_decode c).
Proof.
  intros i x i' [Hx ->]%compact_decode_inv. exists (compact_spec x). split; [|done].
  by apply wbytes_compact.
Qed.

#[global] Instance compact_unit_codec_laws `{Target} :
  CodecLaws compact_unit_encode compact_unit_decode (fun _ => True).
Proof.
  constructor.
  - by constructor.
  - apply impl_decode_laws; [lia|by apply wb_done].
  - intros [] bs rest _ [= <-]; reflexivity.
  - discriminate.
Qed.

(** A [CompactAs] type is as good as the type it stands for, on the values that
    [decode_from] gets back from [encode_as]. *)
Section compact_as.
Context `{Target} {T As : Type} `{CompactAs T As}.
Context (E : Encode As) (D : Decode As) (wf : As -> Prop) `{!CodecLaws E D wf}.

Lemma compact_as_codec_laws (wfT : T -> Prop) size_of :
  0 <= size_of ->
  (forall x, wfT x -> wf (encode_as x) /\ decode_from (encode_as x) = Ok x) ->
  (forall a x, wf a -> decode_from a = Ok x -> wfT x) ->
  CodecLaws (compact_as_encode E) (compact_as_decode size_of D) wfT.
Proof.
  intros Hs Hto Hfrom. constructor.
  - apply (impl_forward_laws _ _ E wf); [apply _|]. apply Hto.
  - apply impl_decode_laws; [done|].
    eapply wb_try; [apply decode_wb|]. intros a Ha. unfold try_bind. simpl.
    destruct (decode_from a) as [x|e] eqn:Hx; [apply wb_done; eauto|constructor].
  - intros x bs rest [Hx Hd]%Hto Hb. simpl in *. rewrite run_try_bind, (roundtrip _ bs rest Hx Hb). simpl.
    by rewrite Hd.
  - discriminate.
Qed.
End compact_as.
