(* ===== verification/Sequences.v ===== *)
(** * Sequences ([src/src/codec.rs])

    Slices, vectors, arrays and strings.  A sequence of a primitive number type
    is encoded and decoded in bulk, as the bytes it has in memory; every other
    sequence goes item by item.  A Rust slice, vector or array is the list of
    its items, a string the list of its UTF-8 bytes. *)

From S2P Require Import Prelude Ints Errors Input Discipline Output Traits Primitives Compact.

Definition MAX_PREALLOCATION : Z := 16 * 1024.

Section sequences.
Context `{Target}.

(** Multiples of the size of a pointer. *)
Definition words (n : Z) : Z := n * (usize_bits / 8).

(** ** Encoding *)

(** The bytes of a slice of primitive numbers in memory. *)
Definition slice_memory (p : prim) (zs : list Z) : list byte := concat (map (to_ne_bytes p) zs).

Definition encode_slice_no_len {T} (E : Encode T) (slice : list T) : wprog :=
  match E_TYPE_INFO E with
  | Prim (U8 as p) transmute _ | Prim (I8 as p) transmute _ =>
      write (slice_memory p (map transmute slice))
  | Prim p transmute _ =>
      if target_endian_little then write (slice_memory p (map transmute slice))
      else wfor slice (encode_to E)
  | Unknown => wfor slice (encode_to E)
  end.

Definition compact_encode_len_to (len : Z) : Result wprog Error :=
  if prim_max U32 <? len then
    Err (Error_from "Attempted to serialize a collection with too many elements.")
  else Ok (encode_to (compact_encode CU32) (wrap U32 len)).

(** [.expect(msg)] on a result. *)
Definition expect {E} (msg : string) (r : Result wprog E) : wprog :=
  match r with
  | Ok p => p
  | Err _ => WPanic msg
  end.

Definition encode_len (len : Z) : wprog :=
  expect "Compact encodes length" (compact_encode_len_to len).

(** [impl Encode for [T]]. *)
Definition slice_size_hint {T} (E : Encode T) (self : list T) : outcome Z :=
  add_usize 4 (E_size_of E * zlen self).

Definition slice_encode_to {T} (E : Encode T) (self : list T) : wprog :=
  encode_len (zlen self) ;;; encode_slice_no_len E self.

Definition slice_encode {T} (E : Encode T) : Encode (list T) :=
  impl_encode_to (words 2) (slice_size_hint E) (slice_encode_to E).

(** [impl WrapperTypeEncode for Vec<T>]. *)
Definition vec_encode {T} (E : Encode T) : Encode (list T) :=
  impl_forward (words 3) id (slice_encode E).

(** [impl Encode for [T; N]]. *)
Definition array_encode {T} (E : Encode T) (N : nat) : Encode (list T) :=
  impl_encode_to (E_size_of E * Z.of_nat N)
    (fun _ => mul_usize (E_size_of E) (Z.of_nat N))
    (encode_slice_no_len E).

(** ** Decoding vectors *)

(** [Vec::reserve_exact]: the size in bytes may not exceed [isize::MAX].
    Running out of memory is not modelled. *)
Definition reserve_exact {T} (size_of : Z) (v : list T) (additional : Z) : dec unit :=
  if (zlen v + additional) * size_of <=? isize_max then ok tt else Halt "capacity overflow".

Section chunked.
Context {T : Type} (size_of : Z).
(** The closure: [decode_chunk(input, &mut decoded_vec, chunk_len)]. *)
Context (decode_chunk : list T -> Z -> dec (list T)).

Fixpoint decode_vec_chunked_loop (fuel : nat) (chunk_len num_undecoded_items : Z)
    (decoded_vec : list T) : dec (list T) :=
  if num_undecoded_items <=? 0 then ok decoded_vec
  else match fuel with
  | O => Halt "out of fuel"
  | S fuel =>
      let len := Z.min chunk_len num_undecoded_items in
      _ ⇐ on_before_alloc_mem (saturating_mul_usize len size_of);
      _ ⇐ reserve_exact size_of decoded_vec len;
      decoded_vec ⇐ decode_chunk decoded_vec len;
      decode_vec_chunked_loop fuel chunk_len (num_undecoded_items - len) decoded_vec
  end.

(** [MAX_PREALLOCATION.checked_div(size_of).unwrap_or(usize::MAX)]. *)
Definition vec_chunk_len : Z :=
  if size_of =? 0 then usize_max else MAX_PREALLOCATION / size_of.

(** Each iteration takes a chunk of [vec_chunk_len], the last one what is left. *)
Definition decode_vec_chunked (len : Z) : dec (list T) :=
  decode_vec_chunked_loop (Z.to_nat (len / vec_chunk_len + 1)) vec_chunk_len len [].
End chunked.

(** The closure of [read_vec_from_u8s]: extend the vector, then read the bytes
    of the new items in place. *)
Definition read_chunk (p : prim) (decoded_vec : list Z) (chunk_len : Z) : dec (list Z) :=
  bytes ⇐ read (chunk_len * Z.of_nat (prim_bytes p));
  ok (decoded_vec ++ map (from_ne_bytes p) (split_chunks (prim_bytes p) (Z.to_nat chunk_len) bytes)).

Definition read_vec_from_u8s (p : prim) (len : Z) : dec (list Z) :=
  match checked_mul_usize len (Z.of_nat (prim_bytes p)) with
  | None => throw "Item is too big and cannot be allocated"
  | Some byte_len =>
      remaining ⇐ remaining_len;
      if match remaining with Some input_len => input_len <? byte_len | None => false end
      then throw "Not enough data to decode vector"
      else decode_vec_chunked (Z.of_nat (prim_bytes p)) (read_chunk p) len
  end.

(** [for _ in 0..n { vec.push(T::decode(input)?); }]. *)
Fixpoint decode_items {T} (decode : dec T) (n : nat) (vec : list T) : dec (list T) :=
  match n with
  | O => ok vec
  | S n =>
      x ⇐ decode;
      decode_items decode n (vec ++ [x])
  end.

Definition decode_vec_from_items {T} (D : Decode T) (len : Z) : dec (list T) :=
  _ ⇐ descend_ref;
  vec ⇐ decode_vec_chunked (D_size_of D)
          (fun vec chunk_len => decode_items (decode D) (Z.to_nat chunk_len) vec) len;
  prog_bind ascend_ref (fun _ => ok vec).

Definition decode_vec_with_len {T} (D : Decode T) (len : Z) : dec (list T) :=
  match D_TYPE_INFO D with
  | Prim p _ transmute_back =>
      if target_endian_little || (D_size_of D =? 1) then
        vec ⇐ read_vec_from_u8s p len;
        ok (map transmute_back vec)
      else decode_vec_from_items D len
  | Unknown => decode_vec_from_items D len
  end.

(** [<Compact<u32>>::decode(input)]. *)
Definition decode_len : dec Z := decode (compact_decode CU32).

Definition vec_decode_fn {T} (D : Decode T) : dec (list T) :=
  len ⇐ decode_len;
  decode_vec_with_len D len.

Definition vec_decode {T} (D : Decode T) : Decode (list T) := impl_decode (words 3) (vec_decode_fn D).

(** [impl DecodeLength] ([impl_len!]): the number of items of an encoded
    collection. *)
Definition decode_length (self_encoded : list byte) : outcome (Result Z Error) :=
  '(r, _) ← run decode_len self_encoded;
  Done match r with
       | Ok len => if len <=? usize_max then Ok len
                   else Err (Error_from "Failed convert decoded size into usize.")
       | Err e => Err e
       end.

(** ** Arrays *)

Definition array_is_primitive {T} (D : Decode T) : bool :=
  match D_TYPE_INFO D with
  | Prim U8 _ _ | Prim I8 _ _ => true
  | Prim _ _ _ => target_endian_little
  | Unknown => false
  end.

(** [while state.count < state.slice.len() { T::decode_into(..)?; state.count += 1; }]:
    [n] is the number of slots left, [slice] the initialised ones. *)
Definition array_fill {T} (D : Decode T) (n : nat) (slice : list T) : dec (list T) :=
  decode_items (decode_into D) n slice.

(** The bulk path fills the array's memory and reads the items off it. *)
Definition array_decode_into {T} (D : Decode T) (N : nat) : dec (list T) :=
  match D_TYPE_INFO D with
  | Prim p _ transmute_back =>
      if array_is_primitive D then
        slice ⇐ read (D_size_of D * Z.of_nat N);
        ok (map (fun bs => transmute_back (from_ne_bytes p bs)) (split_chunks (prim_bytes p) N slice))
      else array_fill D N []
  | Unknown => array_fill D N []
  end.

Definition array_decode_fn {T} (D : Decode T) (N : nat) : dec (list T) :=
  array ⇐ array_decode_into D N;
  ok array.

(** [Some(T::encoded_fixed_size()? * N)]. *)
Definition array_fixed_size {T} (D : Decode T) (N : nat) : option Z :=
  size ← encoded_fixed_size D; Some (size * Z.of_nat N).

Fixpoint skip_items {T} (D : Decode T) (n : nat) : dec unit :=
  match n with
  | O => ok tt
  | S n => _ ⇐ skip D; skip_items D n
  end.

Definition array_skip {T} (D : Decode T) (N : nat) : dec unit :=
  match array_fixed_size D N with
  | Some _ => skip_items D N
  | None => _ ⇐ array_decode_fn D N; ok tt
  end.

Definition array_decode {T} (D : Decode T) (N : nat) : Decode (list T) :=
  {| D_TYPE_INFO := Unknown;
     D_size_of := D_size_of D * Z.of_nat N;
     decode := array_decode_fn D N;
     decode_into := array_decode_into D N;
     skip := array_skip D N;
     encoded_fixed_size := array_fixed_size D N |}.

(** ** Strings *)

Definition between (lo b hi : Z) : bool := (lo <=? b) && (b <=? hi).
Definition is_continuation (b : Z) : bool := between 0x80 b 0xBF.

(** The second byte of a three- or four-byte sequence. *)
Definition utf8_second_ok (b0 b1 : Z) : bool :=
  if b0 =? 0xE0 then between 0xA0 b1 0xBF
  else if b0 =? 0xED then between 0x80 b1 0x9F
  else if b0 =? 0xF0 then between 0x90 b1 0xBF
  else if b0 =? 0xF4 then between 0x80 b1 0x8F
  else is_continuation b1.

(** [str::from_utf8] of the core library: well-formed UTF-8, without overlong
    forms and surrogates. *)
Fixpoint utf8_valid (s : list Z) : bool :=
  match s with
  | [] => true
  | b0 :: s0 =>
      if b0 <? 0x80 then utf8_valid s0
      else match s0 with
      | [] => false
      | b1 :: s1 =>
          if between 0xC2 b0 0xDF then is_continuation b1 && utf8_valid s1
          else match s1 with
          | [] => false
          | b2 :: s2 =>
              if between 0xE0 b0 0xEF then
                utf8_second_ok b0 b1 && is_continuation b2 && utf8_valid s2
              else match s2 with
              | [] => false
              | b3 :: s3 =>
                  between 0xF0 b0 0xF4 && utf8_second_ok b0 b1 && is_continuation b2
                    && is_continuation b3 && utf8_valid s3
              end
          end
      end
  end.

(** [impl Encode for str] and [impl WrapperTypeEncode for String]. *)
Definition str_encode : Encode (list Z) := impl_forward (words 2) id (slice_encode (prim_encode U8)).
Definition string_encode : Encode (list Z) := impl_forward (words 3) id str_encode.

Definition string_decode_fn : dec (list Z) :=
  vec ⇐ decode (vec_decode (prim_decode U8));
  if utf8_valid vec then ok vec else throw "Invalid utf8 sequence".

Definition string_decode : Decode (list Z) := impl_decode (words 3) string_decode_fn.
End sequences.
