(* ===== verification/SequencesTheory.v ===== *)
(** * Theory of sequences

    The bulk paths of slices, vectors and arrays are equivalent to going item by
    item, on little- and big-endian targets; vectors, arrays and strings have
    the codec laws whenever their items do. *)

From S2P Require Import Prelude Ints Errors Input Discipline Output Traits Primitives Compact.
From S2P Require Import CompactTheory Sequences.

(** ** Item by item *)

Lemma try_bind_equiv {A B} (d1 d2 : dec A) (k1 k2 : A -> dec B) :
  d1 ≃ d2 -> (forall i a j, run d2 i = Done (Ok a, j) -> k1 a ≃ k2 a) ->
  try_bind d1 k1 ≃ try_bind d2 k2.
Proof.
  intros Hd Hk i b i'. rewrite !run_try_bind_ok. split; intros (a & j & Ha & Hb).
  - apply Hd in Ha. exists a, j. split; [done|]. by apply (Hk i a j).
  - exists a, j. split; [by apply Hd|]. by apply (Hk i a j).
Qed.

Lemma decode_items_app {T} (d : dec T) n m v :
  decode_items d (n + m) v ≃ (w ⇐ decode_items d n v; decode_items d m w).
Proof.
  revert v. induction n as [|n IH]; intros v; simpl.
  - intros i w i'. rewrite run_try_bind_ok. simpl. naive_solver.
  - intros i w i'. rewrite !run_try_bind_ok. setoid_rewrite run_try_bind_ok. split.
    + intros (x & j & Hx & Hw). apply IH, run_try_bind_ok in Hw as (u & k & Hu & Hw). eauto 10.
    + intros (u & k & (x & j & Hx & Hu) & Hw). exists x, j. split; [done|].
      apply IH, run_try_bind_ok. eauto.
Qed.

Lemma decode_items_proper {T} (d1 d2 : dec T) n v :
  d1 ≃ d2 -> decode_items d1 n v ≃ decode_items d2 n v.
Proof.
  intros Hd. revert v. induction n as [|n IH]; intros v; simpl; [reflexivity|].
  apply try_bind_equiv; [done|]. intros; apply IH.
Qed.

Lemma decode_items_map {A B} (f : A -> B) (d : dec A) n v :
  decode_items (dec_map f d) n (map f v) ≃ dec_map (map f) (decode_items d n v).
Proof.
  revert v. induction n as [|n IH]; intros v i w i'; cbn [decode_items].
  - done.
  - rewrite run_dec_map_ok, run_try_bind_ok. setoid_rewrite run_try_bind_ok.
    setoid_rewrite run_dec_map_ok. split.
    + intros (y & j & (x & Hx & ->) & Hw).
      replace (map f v ++ [f x]) with (map f (v ++ [x])) in Hw by (rewrite map_app; done).
      apply IH, run_dec_map_ok in Hw as (u & Hu & ->). eauto 10.
    + intros (u & (x & j & Hx & Hu) & ->). exists (f x), j. split; [eauto|].
      replace (map f v ++ [f x]) with (map f (v ++ [x])) by (rewrite map_app; done).
      apply IH, run_dec_map_ok. eauto.
Qed.

Lemma decode_items_wb {T} (wf : T -> Prop) d n v :
  wb wf 0 d -> Forall wf v ->
  wb (fun w => Forall wf w /\ zlen w = zlen v + Z.of_nat n) 0 (decode_items d n v).
Proof.
  intros Hd. revert v. induction n as [|n IH]; intros v Hv; simpl.
  - apply wb_done. split; [done|lia].
  - eapply wb_try; [done|]. intros x Hx. eapply wb_weaken; [|apply IH].
    + intros w [Hw Hl]. split; [done|]. rewrite zlen_app, zlen_cons, zlen_nil in Hl. lia.
    + apply Forall_app; auto.
Qed.

Lemma decode_items_length {I} `{Input I} {T} (d : dec T) n v (i : I) w i' :
  run (decode_items d n v) i = Done (Ok w, i') -> zlen w = zlen v + Z.of_nat n.
Proof.
  revert v i. induction n as [|n IH]; intros v i Hrun; simpl in Hrun.
  - simplify_eq. lia.
  - apply run_try_bind_ok in Hrun as (x & j & _ & Hw). apply IH in Hw.
    rewrite zlen_app, zlen_cons, zlen_nil in Hw. lia.
Qed.

Section items.
Context `{Target} {T : Type} (E : Encode T) (D : Decode T) (wf : T -> Prop).

Lemma decode_items_roundtrip `{!CodecLaws E D wf} l bs v rest :
  Forall wf l -> wbytes (wfor l (encode_to E)) = Done bs ->
  run (decode_items (decode D) (length l) v) (bs ++ rest) = Done (Ok (v ++ l), rest).
Proof.
  intros Hl. revert bs v. induction Hl as [|x l Hx Hl IH]; intros bs v Hb; simpl in *.
  - simplify_eq. by rewrite app_nil_r.
  - apply wbytes_wseq_done in Hb as (a & b & Ha & Hb & ->).
    rewrite <- app_assoc, run_try_bind, (roundtrip x a) by done. simpl.
    rewrite IH by done. by rewrite <- app_assoc.
Qed.

Lemma decode_items_canonical `{!Canonical E D} n v i w i' :
  run (decode_items (decode D) n v) i = Done (Ok w, i') ->
  exists l bs, w = v ++ l /\ length l = n /\ wbytes (wfor l (encode_to E)) = Done bs /\ i = bs ++ i'.
Proof.
  revert v i. induction n as [|n IH]; intros v i Hrun; simpl in Hrun.
  - simplify_eq. exists [], []. by rewrite app_nil_r.
  - apply run_try_bind_ok in Hrun as (x & j & Hx & Hw).
    apply canonical in Hx as (a & Ha & ->). apply IH in Hw as (l & b & -> & <- & Hb & ->).
    exists (x :: l), (a ++ b). rewrite <- !app_assoc. split_and!; [done..| |done].
    simpl. apply wbytes_wseq_done. eauto.
Qed.
End items.

(** ** The bulk path of the encoder *)

Lemma to_ne_bytes_le `{Target} p z :
  target_endian_little = true \/ prim_bytes p = 1%nat -> to_ne_bytes p z = to_le_bytes p z.
Proof.
  intros Hp. unfold to_ne_bytes. destruct target_endian_little; [done|].
  destruct Hp as [|Hp]; [done|]. pose proof (length_to_le_bytes p z) as Hl. rewrite Hp in Hl.
  by destruct (to_le_bytes p z) as [|b [|]].
Qed.

Lemma from_ne_bytes_le `{Target} p bs :
  target_endian_little = true \/ prim_bytes p = 1%nat -> length bs = prim_bytes p ->
  from_ne_bytes p bs = from_le_bytes p bs.
Proof.
  intros Hp Hl. unfold from_ne_bytes. destruct target_endian_little; [done|].
  destruct Hp as [|Hp]; [done|]. rewrite Hp in Hl. by destruct bs as [|b [|]].
Qed.

Section encoding.
Context `{Target} {T : Type} (E : Encode T) (wf : T -> Prop) `{!EncodeLaws E wf}.

Lemma wbytes_items_prim p t b l :
  E_TYPE_INFO E = Prim p t b -> Forall wf l ->
  wbytes (wfor l (encode_to E)) = Done (concat (map (to_le_bytes p) (map t l))).
Proof.
  intros Hi Hl. induction Hl as [|x l Hx Hl IH]; simpl; [done|].
  rewrite wbytes_wseq, IH. destruct (encode_type_info p t b x Hi Hx) as [_ ->]. done.
Qed.

Lemma wbytes_bulk p t b l :
  E_TYPE_INFO E = Prim p t b -> Forall wf l ->
  target_endian_little = true \/ prim_bytes p = 1%nat ->
  wbytes (write (slice_memory p (map t l))) = wbytes (wfor l (encode_to E)).
Proof.
  intros Hi Hl Hp. rewrite wbytes_write, (wbytes_items_prim p t b) by done.
  unfold slice_memory. do 2 f_equal. apply map_ext. intros z. by apply to_ne_bytes_le.
Qed.

(** Writing the memory of the slice is encoding its items one by one. *)
Lemma encode_slice_no_len_items l :
  Forall wf l -> wbytes (encode_slice_no_len E l) = wbytes (wfor l (encode_to E)).
Proof.
  intros Hl. unfold encode_slice_no_len.
  destruct (E_TYPE_INFO E) as [|p t b] eqn:Hi; [done|].
  destruct p; try (by apply (wbytes_bulk _ t b); auto);
    (case_match; [|done]; by apply (wbytes_bulk _ t b); auto).
Qed.
End encoding.

(** ** The bulk path of the decoders *)

Lemma split_chunks_take {A} sz n m (l : list A) :
  (n * sz <= m)%nat -> split_chunks sz n (take m l) = split_chunks sz n l.
Proof.
  revert m l. induction n as [|n IH]; intros m l Hm; simpl in *; [done|].
  rewrite take_take, Nat.min_l by lia. f_equal.
  rewrite skipn_firstn_comm. apply IH. lia.
Qed.

(** What decoding [n] primitive numbers one by one does. *)
Lemma decode_prim_items `{Target} p n v i w i' :
  run (decode_items (decode (prim_decode p)) n v) i = Done (Ok w, i') <->
  (n * prim_bytes p <= length i)%nat /\
  w = v ++ map (from_le_bytes p) (split_chunks (prim_bytes p) n i) /\
  i' = drop (n * prim_bytes p) i.
Proof.
  revert v i. induction n as [|n IH]; intros v i; simpl.
  - rewrite app_nil_r, drop_0. naive_solver lia.
  - rewrite run_try_bind_ok. split.
    + intros (x & j & Hx & Hw). apply run_prim_decode_inv in Hx as (bs & Hl & -> & ->).
      apply IH in Hw as (Hn & -> & ->).
      rewrite <- Hl in *. rewrite take_app_length, <- drop_drop, drop_app_length, length_app.
      rewrite <- app_assoc. split_and!; [lia|done|done].
    + intros (Hn & -> & ->). exists (from_le_bytes p (take (prim_bytes p) i)), (drop (prim_bytes p) i).
      split.
      * rewrite <- (take_drop (prim_bytes p) i) at 1. apply run_prim_decode.
        rewrite length_take. lia.
      * apply IH. rewrite length_drop, drop_drop, <- app_assoc. split_and!; [lia|done|done].
Qed.

Section decoding.
Context `{Target}.

Lemma run_read_chunk p v n i w i' :
  target_endian_little = true \/ prim_bytes p = 1%nat -> 0 <= n ->
  run (read_chunk p v n) i = Done (Ok w, i') <->
  (Z.to_nat n * prim_bytes p <= length i)%nat /\
  w = v ++ map (from_le_bytes p) (split_chunks (prim_bytes p) (Z.to_nat n) i) /\
  i' = drop (Z.to_nat n * prim_bytes p) i.
Proof.
  intros Hp Hn. unfold read_chunk, try_bind, read. cbn [prog_bind run i_read slice_input].
  unfold slice_read. case_match eqn:Ht; bool_to_prop; unfold zlen in *; simpl.
  { split; [done|]. intros (Hl & _). lia. }
  replace (Z.to_nat (n * Z.of_nat (prim_bytes p))) with (Z.to_nat n * prim_bytes p)%nat by lia.
  assert (Z.to_nat n * prim_bytes p <= length i)%nat by lia.
  rewrite split_chunks_take by done.
  replace (map (from_ne_bytes p) (split_chunks (prim_bytes p) (Z.to_nat n) i))
    with (map (from_le_bytes p) (split_chunks (prim_bytes p) (Z.to_nat n) i)).
  { naive_solver. }
  rewrite <- (split_chunks_take _ _ (Z.to_nat n * prim_bytes p)) by lia.
  apply map_ext_in. intros bs Hbs. symmetry. apply from_ne_bytes_le; [done|].
  pose proof (split_chunks_lengths (prim_bytes p) (Z.to_nat n)
    (take (Z.to_nat n * prim_bytes p) i) ltac:(rewrite length_take; lia)) as Hf.
  rewrite List.Forall_forall in Hf. by apply Hf.
Qed.

Lemma read_chunk_equiv p v n :
  target_endian_little = true \/ prim_bytes p = 1%nat -> 0 <= n ->
  read_chunk p v n ≃ decode_items (decode (prim_decode p)) (Z.to_nat n) v.
Proof. intros Hp Hn i w i'. by rewrite run_read_chunk, decode_prim_items. Qed.

(** ** The loop over the chunks *)

Section chunked.
Context {T : Type} (size_of : Z) (chunk : list T -> Z -> dec (list T)).
Context (size_of_bound : 0 <= size_of <= MAX_PREALLOCATION).

Lemma vec_chunk_len_pos : 1 <= vec_chunk_len size_of.
Proof.
  unfold vec_chunk_len. pose proof usize_max_ge. case_match; bool_to_prop; [lia|].
  apply Z.div_le_lower_bound; lia.
Qed.

Lemma vec_fuel len : 0 <= len ->
  len <= Z.of_nat (Z.to_nat (len / vec_chunk_len size_of + 1)) * vec_chunk_len size_of.
Proof.
  intros Hl. pose proof vec_chunk_len_pos.
  pose proof (Z.div_pos len (vec_chunk_len size_of)) as Hd.
  rewrite Z2Nat.id by lia.
  pose proof (Z.mul_succ_div_gt len (vec_chunk_len size_of)). lia.
Qed.

Lemma chunked_loop_equiv (d : dec T) fuel c num v :
  (forall v n, 0 <= n -> chunk v n ≃ decode_items d (Z.to_nat n) v) ->
  1 <= c -> 0 <= num <= Z.of_nat fuel * c -> (zlen v + num) * size_of <= isize_max ->
  decode_vec_chunked_loop size_of chunk fuel c num v ≃ decode_items d (Z.to_nat num) v.
Proof.
  intros Hchunk Hc. revert num v. induction fuel as [|fuel IH]; intros num v Hnum Hfit; simpl.
  - assert (num = 0) as -> by lia. simpl. reflexivity.
  - case_match eqn:Ht; bool_to_prop; [assert (num = 0) as -> by lia; simpl; reflexivity|].
    set (len := Z.min c num). intros i w i'.
    change (run (_ ⇐ reserve_exact size_of v len; w ⇐ chunk v len;
      decode_vec_chunked_loop size_of chunk fuel c (num - len) w) i = Done (Ok w, i')
      <-> run (decode_items d (Z.to_nat num) v) i = Done (Ok w, i')).
    unfold reserve_exact. assert ((zlen v + len) * size_of <= isize_max) by nia. decide_tests.
    change (run (w ⇐ chunk v len; decode_vec_chunked_loop size_of chunk fuel c (num - len) w) i
      = Done (Ok w, i') <-> run (decode_items d (Z.to_nat num) v) i = Done (Ok w, i')).
    replace (Z.to_nat num) with (Z.to_nat len + Z.to_nat (num - len))%nat by lia.
    rewrite (decode_items_app d _ _ v i w i'). apply try_bind_equiv; [apply Hchunk; lia|].
    intros j u k Hu%decode_items_length. apply IH; [nia|]. rewrite Hu, Z2Nat.id by lia.
    replace (zlen v + len + (num - len)) with (zlen v + num) by lia. done.
Qed.

(** The chunks are only a matter of allocation. *)
Lemma decode_vec_chunked_equiv (d : dec T) len :
  (forall v n, 0 <= n -> chunk v n ≃ decode_items d (Z.to_nat n) v) ->
  0 <= len -> len * size_of <= isize_max ->
  decode_vec_chunked size_of chunk len ≃ decode_items d (Z.to_nat len) [].
Proof.
  intros Hchunk Hl Hfit. apply chunked_loop_equiv; [done|apply vec_chunk_len_pos| |done].
  split; [done|by apply vec_fuel].
Qed.

Lemma chunked_loop_wb (wf : T -> Prop) fuel c num v :
  (forall v n, 0 <= n -> Forall wf v ->
     wb (fun w => Forall wf w /\ zlen w = zlen v + n) 0 (chunk v n)) ->
  1 <= c -> 0 <= num <= Z.of_nat fuel * c -> (zlen v + num) * size_of <= isize_max -> Forall wf v ->
  wb (fun w => Forall wf w /\ zlen w = zlen v + num) 0
    (decode_vec_chunked_loop size_of chunk fuel c num v).
Proof.
  intros Hchunk Hc. revert num v. induction fuel as [|fuel IH]; intros num v Hnum Hfit Hv; simpl.
  - case_match; bool_to_prop; [|lia]. apply wb_done. split; [done|lia].
  - case_match; bool_to_prop; [apply wb_done; split; [done|lia]|].
    set (len := Z.min c num). apply wb_try_alloc.
    { unfold saturating_mul_usize. pose proof usize_max_ge. nia. }
    unfold reserve_exact. assert ((zlen v + len) * size_of <= isize_max) by nia. decide_tests.
    eapply wb_try; [by apply (wb_done (fun _ => True))|]. intros _ _.
    eapply wb_try; [apply Hchunk; [lia|done]|]. intros w [Hw Hl].
    eapply wb_weaken; [|apply IH; [nia| |done]].
    + intros u [Hu Hlu]. split; [done|lia].
    + rewrite Hl. replace (zlen v + len + (num - len)) with (zlen v + num) by lia. done.
Qed.

Lemma decode_vec_chunked_wb (wf : T -> Prop) len :
  (forall v n, 0 <= n -> Forall wf v ->
     wb (fun w => Forall wf w /\ zlen w = zlen v + n) 0 (chunk v n)) ->
  0 <= len -> len * size_of <= isize_max ->
  wb (fun w => Forall wf w /\ zlen w = len) 0 (decode_vec_chunked size_of chunk len).
Proof.
  intros Hchunk Hl Hfit.
  apply (chunked_loop_wb wf _ _ len []); [done|apply vec_chunk_len_pos| |done|done].
  split; [done|by apply vec_fuel].
Qed.
(** Without a bound on the number of items, the loop returns or [reserve_exact]
    unwinds, the latter only when the items do not fit. *)
Lemma chunked_loop_outcomes {I} `{InputLaws I} (wf : T -> Prop) fuel c num v (i : I) :
  (forall v n, 0 <= n -> Forall wf v ->
     wb (fun w => Forall wf w /\ zlen w = zlen v + n) 0 (chunk v n)) ->
  1 <= c -> 0 <= num <= Z.of_nat fuel * c -> Forall wf v ->
  outcomes (fun w => Forall wf w /\ zlen w = zlen v + num)
    (fun msg => msg = "capacity overflow" /\ isize_max < (zlen v + num) * size_of)
    (decode_vec_chunked_loop size_of chunk fuel c num v) i.
Proof.
  intros Hchunk Hc. revert num v i. induction fuel as [|fuel IH]; intros num v i Hnum Hv; simpl.
  - case_match; bool_to_prop; [|lia]. apply (wb_outcomes _ _ 0), wb_done. split; [done|lia].
  - case_match; bool_to_prop; [apply (wb_outcomes _ _ 0), wb_done; split; [done|lia]|].
    set (len := Z.min c num). apply (outcomes_try (fun _ => True)).
    { apply (wb_outcomes _ _ 0), (wb_alloc _ 0); [|intros; constructor|by constructor].
      unfold saturating_mul_usize. pose proof usize_max_ge. nia. }
    intros [] j _ _. apply (outcomes_try (fun _ => True)).
    { unfold reserve_exact, outcomes.
      destruct ((zlen v + len) * size_of <=? isize_max) eqn:Hr; bool_to_prop; simpl; [by intros|].
      split; [done|nia]. }
    intros [] k _ _. apply (outcomes_try (fun w => Forall wf w /\ zlen w = zlen v + len)).
    { apply (wb_outcomes _ _ 0), Hchunk; [lia|done]. }
    intros w l _ [Hw Hl]. eapply outcomes_weaken; [| |apply IH; [nia|done]].
    + intros u [Hu Hlu]. split; [done|lia].
    + intros m [-> Hm]. split; [done|]. rewrite Hl in Hm.
      by replace (zlen v + len + (num - len)) with (zlen v + num) in Hm by lia.
Qed.

Lemma decode_vec_chunked_outcomes {I} `{InputLaws I} (wf : T -> Prop) len (i : I) :
  (forall v n, 0 <= n -> Forall wf v ->
     wb (fun w => Forall wf w /\ zlen w = zlen v + n) 0 (chunk v n)) ->
  0 <= len ->
  outcomes (fun w => Forall wf w /\ zlen w = len)
    (fun msg => msg = "capacity overflow" /\ isize_max < len * size_of)
    (decode_vec_chunked size_of chunk len) i.
Proof.
  intros Hchunk Hl.
  apply (chunked_loop_outcomes wf _ _ len []); [done|apply vec_chunk_len_pos| |done].
  split; [done|by apply vec_fuel].
Qed.
End chunked.

Lemma prim_bytes_prealloc p : Z.of_nat (prim_bytes p) <= MAX_PREALLOCATION.
Proof. destruct p; unfold MAX_PREALLOCATION; simpl; lia. Qed.

(** The remaining input only decides whether to start. *)
Lemma read_vec_from_u8s_equiv p len :
  target_endian_little = true \/ prim_bytes p = 1%nat ->
  0 <= len -> len * Z.of_nat (prim_bytes p) <= isize_max ->
  read_vec_from_u8s p len ≃ decode_items (decode (prim_decode p)) (Z.to_nat len) [].
Proof.
  intros Hp Hl Hfit i w i'. unfold read_vec_from_u8s, checked_mul_usize.
  pose proof isize_usize_max. assert (0 <= isize_max) by (pose proof isize_max_ge; lia).
  decide_tests. cbn.
  destruct (zlen i <? len * Z.of_nat (prim_bytes p)) eqn:Ht; bool_to_prop.
  - split; [done|]. intros (Hn & _)%decode_prim_items. unfold zlen in Ht. lia.
  - apply (decode_vec_chunked_equiv _ _ (conj (Zle_0_nat _) (prim_bytes_prealloc p))); [|done..].
    intros v n Hn. by apply read_chunk_equiv.
Qed.

Lemma read_chunk_wb p v n :
  0 <= n -> Forall (in_range p) v ->
  wb (fun w => Forall (in_range p) w /\ zlen w = zlen v + n) 0 (read_chunk p v n).
Proof.
  intros Hn Hv. apply wb_try_read; [lia|]. intros bs Hbs. apply wb_done. split.
  - apply Forall_app. split; [done|]. apply Forall_map, Forall_true. intros c.
    simpl. auto with scale.
  - rewrite zlen_app. unfold zlen. rewrite length_map, length_split_chunks. lia.
Qed.

Lemma read_vec_from_u8s_wb p len :
  0 <= len -> len * Z.of_nat (prim_bytes p) <= isize_max ->
  wb (fun v => Forall (in_range p) v /\ zlen v = len) 0 (read_vec_from_u8s p len).
Proof.
  intros Hl Hfit. unfold read_vec_from_u8s, checked_mul_usize.
  case_match; [|apply wb_throw]. apply (wb_remaining _ z); cbn.
  - intros e. constructor.
  - apply (decode_vec_chunked_wb _ _ (conj (Zle_0_nat _) (prim_bytes_prealloc p))); [|done..].
    intros v n. apply read_chunk_wb.
  - intros m Hm. by decide_tests.
  - intros m Hm. decide_tests. constructor.
Qed.

Lemma read_vec_from_u8s_outcomes {I} `{InputLaws I} p len (i : I) :
  0 <= len ->
  outcomes (fun v => Forall (in_range p) v /\ zlen v = len)
    (fun msg => msg = "capacity overflow" /\ isize_max < len * Z.of_nat (prim_bytes p))
    (read_vec_from_u8s p len) i.
Proof.
  intros Hl. unfold read_vec_from_u8s. case_match; [|apply (wb_outcomes _ _ 0), wb_throw].
  apply (outcomes_try (fun _ => True)).
  { unfold outcomes. cbn. by destruct (remaining_len_total i) as (r & j & ->). }
  intros remaining j _ _. case_match; [apply (wb_outcomes _ _ 0), wb_throw|].
  apply (decode_vec_chunked_outcomes _ _ (conj (Zle_0_nat _) (prim_bytes_prealloc p))); [|done].
  intros v n. apply read_chunk_wb.
Qed.

Lemma words_nonneg n : 0 <= n -> 0 <= words n.
Proof.
  intros Hn. unfold words. destruct usize_bits_ok as [Hu|Hu]; rewrite Hu; dlia.
Qed.

(** ** Vectors *)

(** Items whose vectors stay below [isize::MAX] bytes.  The bound on the size is
    the crate's compile-time assertion; the other follows from it on 64-bit
    targets.  On 32-bit targets only zero-sized items have it: [vec_decode_total] and
    [vec_decode_overflow] say what happens to others. *)
Definition vec_fits (size_of : Z) : Prop :=
  size_of <= MAX_PREALLOCATION /\ prim_max U32 * size_of <= isize_max.

Lemma vec_fits_64 size_of : usize_bits = 64 -> size_of <= MAX_PREALLOCATION -> vec_fits size_of.
Proof.
  intros Hu Hs. split; [done|]. unfold isize_max, MAX_PREALLOCATION in *. rewrite Hu.
  change (prim_max U32) with 4294967295. lia.
Qed.

Section vec.
Context {T : Type} (D : Decode T) (wf : T -> Prop) `{!DecodeLaws D wf}.
Context (fits : vec_fits (D_size_of D)).

Lemma decode_prim_equiv p t b :
  D_TYPE_INFO D = Prim p t b -> decode D ≃ dec_map b (decode (prim_decode p)).
Proof.
  intros (Hs & _ & Hok & Hshort)%decode_type_info i x i'. rewrite run_dec_map_ok.
  destruct (decide (zlen i < Z.of_nat (prim_bytes p))) as [Hl|Hl].
  - destruct (Hshort i Hl) as (e & j & ->). destruct (run_prim_decode_short p i Hl) as (e' & j' & ->).
    naive_solver.
  - rewrite <- (take_drop (prim_bytes p) i).
    assert (length (take (prim_bytes p) i) = prim_bytes p)
      by (rewrite length_take; unfold zlen in Hl; lia).
    rewrite Hok, run_prim_decode by done. naive_solver.
Qed.

Lemma decode_vec_from_items_equiv len :
  0 <= len <= prim_max U32 ->
  decode_vec_from_items D len ≃ decode_items (decode D) (Z.to_nat len) [].
Proof.
  intros Hl. destruct fits as [Hs Hf]. pose proof size_of_nonneg as Hs0.
  set (chunk := fun vec n => decode_items (decode D) (Z.to_nat n) vec).
  transitivity (decode_vec_chunked (D_size_of D) chunk len).
  - intros i w i'. unfold decode_vec_from_items. fold chunk.
    change (run (vec ⇐ decode_vec_chunked (D_size_of D) chunk len;
      prog_bind ascend_ref (fun _ => ok vec)) i = Done (Ok w, i')
      <-> run (decode_vec_chunked (D_size_of D) chunk len) i = Done (Ok w, i')).
    rewrite run_try_bind_ok. simpl. naive_solver.
  - apply (decode_vec_chunked_equiv _ _ (conj Hs0 Hs)); [reflexivity|lia|nia].
Qed.

(** Decoding a vector is decoding its items one by one. *)
Lemma decode_vec_with_len_equiv len :
  0 <= len <= prim_max U32 ->
  decode_vec_with_len D len ≃ decode_items (decode D) (Z.to_nat len) [].
Proof.
  intros Hl. unfold decode_vec_with_len.
  destruct (D_TYPE_INFO D) as [|p t b] eqn:Hi; [by apply decode_vec_from_items_equiv|].
  case_match eqn:Ht; [|by apply decode_vec_from_items_equiv].
  destruct fits as [_ Hf]. pose proof (decode_type_info p t b Hi) as (Hs & _).
  rewrite Hs in Hf, Ht.
  transitivity (dec_map (map b) (read_vec_from_u8s p len)).
  { intros i w i'. rewrite run_try_bind_ok, run_dec_map_ok. simpl. naive_solver. }
  rewrite read_vec_from_u8s_equiv by (nia || (bool_to_prop; destruct Ht; bool_to_prop; auto; lia)).
  rewrite <- decode_items_map. symmetry. by apply decode_items_proper, (decode_prim_equiv p t).
Qed.

Lemma decode_vec_from_items_wb len :
  0 <= len <= prim_max U32 ->
  wb (fun v => Forall wf v /\ zlen v = len) 0 (decode_vec_from_items D len).
Proof.
  intros Hl. destruct fits as [Hs Hf]. pose proof size_of_nonneg as Hs0.
  apply wb_try_descend. eapply (wb_prog_bind _ _ 0 1).
  - apply (decode_vec_chunked_wb _ _ (conj Hs0 Hs) wf); [|lia|nia].
    intros v n Hn Hv. eapply wb_weaken; [|apply (decode_items_wb wf); [apply decode_wb|done]].
    intros w. by rewrite Z2Nat.id.
  - intros v Hv. cbn. apply wb_ascend. by apply wb_done.
  - intros e. constructor.
Qed.

Lemma decode_vec_with_len_wb len :
  0 <= len <= prim_max U32 ->
  wb (fun v => Forall wf v /\ zlen v = len) 0 (decode_vec_with_len D len).
Proof.
  intros Hl. unfold decode_vec_with_len.
  destruct (D_TYPE_INFO D) as [|p t b] eqn:Hi; [by apply decode_vec_from_items_wb|].
  case_match eqn:Ht; [|by apply decode_vec_from_items_wb].
  destruct fits as [_ Hf]. pose proof (decode_type_info p t b Hi) as (Hs & Hwf & _).
  rewrite Hs in Hf. eapply wb_try; [apply read_vec_from_u8s_wb; nia|].
  intros v [Hv Hvl]. apply wb_done. split; [|unfold zlen in *; by rewrite length_map].
  apply Forall_map. by eapply Forall_impl.
Qed.

Lemma decode_vec_from_items_outcomes {I} `{InputLaws I} len (i : I) :
  D_size_of D <= MAX_PREALLOCATION -> 0 <= len ->
  outcomes (fun v => Forall wf v /\ zlen v = len)
    (fun msg => msg = "capacity overflow" /\ isize_max < len * D_size_of D)
    (decode_vec_from_items D len) i.
Proof.
  intros Hs Hl. pose proof size_of_nonneg as Hs0. apply (outcomes_try (fun _ => True)).
  { unfold outcomes. cbn. by destruct (descend_ref_total i) as (r & j & ->). }
  intros [] j _ _. eapply outcomes_try.
  - apply (decode_vec_chunked_outcomes _ _ (conj Hs0 Hs) wf); [|done].
    intros v n Hn Hv. eapply wb_weaken; [|apply (decode_items_wb wf); [apply decode_wb|done]].
    intros w. by rewrite Z2Nat.id.
  - intros v k _ Hv. unfold outcomes. cbn. destruct (ascend_ref_total k) as [k' ->].
    cbn. by intros ? [= <-].
Qed.

Lemma decode_vec_with_len_outcomes {I} `{InputLaws I} len (i : I) :
  D_size_of D <= MAX_PREALLOCATION -> 0 <= len ->
  outcomes (fun v => Forall wf v /\ zlen v = len)
    (fun msg => msg = "capacity overflow" /\ isize_max < len * D_size_of D)
    (decode_vec_with_len D len) i.
Proof.
  intros Hs Hl. unfold decode_vec_with_len.
  destruct (D_TYPE_INFO D) as [|p t b] eqn:Hi; [by apply decode_vec_from_items_outcomes|].
  case_match; [|by apply decode_vec_from_items_outcomes].
  pose proof (decode_type_info p t b Hi) as (Hsz & Hwf & _). rewrite Hsz.
  eapply outcomes_try; [by apply read_vec_from_u8s_outcomes|].
  intros v j _ [Hv Hvl]. apply (wb_outcomes _ _ 0), wb_done.
  split; [|unfold zlen in *; by rewrite length_map]. apply Forall_map. by eapply Forall_impl.
Qed.

Lemma decode_len_wb : wb (fun len => 0 <= len <= prim_max U32) 0 decode_len.
Proof. eapply wb_weaken; [|apply (compact_decode_wb CU32)]. done. Qed.

Lemma vec_decode_laws : DecodeLaws (vec_decode D) (Forall wf).
Proof.
  apply impl_decode_laws.
  - by apply words_nonneg.
  - eapply wb_try; [apply decode_len_wb|]. intros len Hl.
    eapply wb_weaken; [|by apply decode_vec_with_len_wb]. by intros v [].
Qed.
End vec.

Lemma wbytes_encode_len len bs :
  0 <= len -> wbytes (encode_len len) = Done bs <-> len <= prim_max U32 /\ bs = compact_spec len.
Proof.
  intros Hl. unfold encode_len, compact_encode_len_to. case_match; bool_to_prop; cbn [expect].
  - split; [done|lia].
  - assert (in_range U32 len) by (split; [done|lia]).
    change (encode_to (compact_encode CU32)) with (compact_encode_to CU32).
    rewrite wrap_id by done. rewrite (wbytes_compact CU32 len) by done. naive_solver.
Qed.

Lemma run_decode_len len rest :
  0 <= len <= prim_max U32 -> run decode_len (compact_spec len ++ rest) = Done (Ok len, rest).
Proof. intros Hl. by apply (run_compact_decode CU32). Qed.

Lemma decode_len_inv i len i' :
  run decode_len i = Done (Ok len, i') -> 0 <= len <= prim_max U32 /\ i = compact_spec len ++ i'.
Proof. apply (compact_decode_inv CU32). Qed.

Section vec_codec.
Context {T : Type} (E : Encode T) (D : Decode T) (wf : T -> Prop) (fits : vec_fits (D_size_of D)).

(** An encoded sequence is its length and its items. *)
Lemma wbytes_slice `{!EncodeLaws E wf} l bs :
  Forall wf l ->
  wbytes (slice_encode_to E l) = Done bs <->
  exists items, zlen l <= prim_max U32 /\ wbytes (wfor l (encode_to E)) = Done items /\
    bs = compact_spec (zlen l) ++ items.
Proof.
  intros Hl. unfold slice_encode_to. rewrite wbytes_wseq_done.
  rewrite (encode_slice_no_len_items E wf) by done.
  setoid_rewrite wbytes_encode_len; [|apply zlen_nonneg]. naive_solver.
Qed.

#[global] Instance vec_encode_laws `{!EncodeLaws E wf} : EncodeLaws (vec_encode E) (Forall wf).
Proof. by apply (impl_forward_laws _ _ _ (Forall wf)); [apply impl_encode_to_laws|]. Qed.

Lemma vec_roundtrip `{!CodecLaws E D wf} l bs rest :
  Forall wf l -> wbytes (slice_encode_to E l) = Done bs ->
  run (vec_decode_fn D) (bs ++ rest) = Done (Ok l, rest).
Proof.
  intros Hl Hb. apply wbytes_slice in Hb as (items & Hn & Hb & ->); [|done].
  pose proof (zlen_nonneg l). unfold vec_decode_fn.
  rewrite <- app_assoc, run_try_bind, run_decode_len by done. simpl.
  apply (decode_vec_with_len_equiv D wf fits); [done|].
  unfold zlen. rewrite Nat2Z.id. by rewrite (decode_items_roundtrip E D wf) by done.
Qed.

Lemma vec_codec_laws `{!CodecLaws E D wf} :
  CodecLaws (vec_encode E) (vec_decode D) (Forall wf).
Proof.
  constructor; [apply _|by apply (vec_decode_laws D wf)|apply vec_roundtrip|discriminate].
Qed.

Lemma vec_decode_inv `{!DecodeLaws D wf} i l i' :
  run (vec_decode_fn D) i = Done (Ok l, i') ->
  zlen l <= prim_max U32 /\ exists j, i = compact_spec (zlen l) ++ j /\
    run (decode_items (decode D) (length l) []) j = Done (Ok l, i').
Proof.
  intros Hrun. apply run_try_bind_ok in Hrun as (len & j & [Hn ->]%decode_len_inv & Hl).
  apply (decode_vec_with_len_equiv D wf fits) in Hl; [|done].
  pose proof (decode_items_length _ _ _ _ _ _ Hl) as Hz.
  rewrite zlen_nil, Z2Nat.id in Hz by lia. simpl in Hz. rewrite Hz. split; [lia|].
  exists j. split; [done|]. replace (length l) with (Z.to_nat len); [done|].
  unfold zlen in Hz. lia.
Qed.

Lemma vec_canonical `{!CodecLaws E D wf, !Canonical E D} :
  Canonical (vec_encode E) (vec_decode D).
Proof.
  assert (DecodeLaws D wf) by apply (codec_decode (E := E)).
  intros i l i' Hrun. pose proof Hrun as Hwf. apply vec_decode_inv in Hrun as (Hn & j & -> & Hl).
  apply (decode_items_canonical E D) in Hl as (l' & bs & -> & Hlen & Hb & ->).
  pose proof (vec_decode_laws D wf fits).
  apply (decode_wf _ (Forall wf)) in Hwf.
  exists (compact_spec (zlen l') ++ bs). rewrite <- app_assoc. split; [|done].
  apply wbytes_slice; eauto.
Qed.
End vec_codec.

(** The length of an encoded collection, without decoding the items. *)
Lemma decode_length_slice {T} (E : Encode T) wf `{!EncodeLaws E wf} l bs rest :
  Forall wf l -> wbytes (slice_encode_to E l) = Done bs ->
  decode_length (bs ++ rest) = Done (Ok (zlen l)).
Proof.
  intros Hl Hb. apply (wbytes_slice E wf) in Hb as (items & Hn & _ & ->); [|done].
  unfold decode_length. rewrite <- app_assoc, run_decode_len by (split; [apply zlen_nonneg|done]).
  simpl. pose proof usize_max_ge. assert (prim_max U32 = 2 ^ 32 - 1) by done. by decide_tests.
Qed.

(** ** Arrays *)

Section array.
Context {T : Type} (D : Decode T) (wf : T -> Prop) `{!DecodeLaws D wf} (N : nat).

Definition array_wf (l : list T) : Prop := Forall wf l /\ length l = N.

Lemma array_fill_equiv : array_fill D N [] ≃ decode_items (decode D) N [].
Proof. apply decode_items_proper, decode_into_equiv. Qed.

Lemma array_is_primitive_le p t b :
  D_TYPE_INFO D = Prim p t b -> array_is_primitive D = true ->
  target_endian_little = true \/ prim_bytes p = 1%nat.
Proof. unfold array_is_primitive. intros ->. destruct p; auto. Qed.

(** Decoding an array is decoding its items one by one. *)
Lemma array_decode_into_equiv : array_decode_into D N ≃ decode_items (decode D) N [].
Proof.
  unfold array_decode_into.
  destruct (D_TYPE_INFO D) as [|p t b] eqn:Hi; [apply array_fill_equiv|].
  case_match eqn:Ht; [|apply array_fill_equiv].
  pose proof (decode_type_info p t b Hi) as (Hs & _).
  transitivity (dec_map (map b) (read_chunk p [] (Z.of_nat N))).
  - intros i w i'. rewrite run_dec_map_ok. unfold read_chunk.
    rewrite Hs, Z.mul_comm, run_try_bind_ok. setoid_rewrite run_try_bind_ok.
    rewrite Nat2Z.id. setoid_rewrite <- (map_map (from_ne_bytes p) b). simpl. naive_solver.
  - rewrite read_chunk_equiv by (lia || by apply (array_is_primitive_le p t b)).
    rewrite Nat2Z.id, <- decode_items_map. symmetry.
    by apply decode_items_proper, (decode_prim_equiv D wf p t).
Qed.

Lemma array_decode_into_wb : wb array_wf 0 (array_decode_into D N).
Proof.
  assert (wb array_wf 0 (array_fill D N [])) as Hfill.
  { eapply wb_weaken; [|apply (decode_items_wb wf); [|done]].
    - intros w [Hw Hl]. split; [done|]. unfold zlen in Hl. simpl in Hl. lia.
    - apply decode_into_wb. }
  unfold array_decode_into.
  destruct (D_TYPE_INFO D) as [|p t b] eqn:Hi; [done|]. case_match; [|done].
  pose proof (decode_type_info p t b Hi) as (Hs & Hwf & _).
  apply wb_try_read; [nia|]. intros bs Hb. apply wb_done. split.
  - apply Forall_map, Forall_true. intros c. apply Hwf. auto with scale.
  - by rewrite length_map, length_split_chunks.
Qed.

Lemma skip_items_equiv n v : skip_items D n ≃ dec_map (fun _ => tt) (decode_items (decode D) n v).
Proof.
  revert v. induction n as [|n IH]; intros v i u i'; cbn [skip_items decode_items].
  - rewrite run_dec_map_ok. destruct u. simpl. naive_solver.
  - rewrite run_dec_map_ok, run_try_bind_ok. setoid_rewrite run_try_bind_ok. split.
    + intros ([] & j & Hs & Hr). apply skip_equiv, run_dec_map_ok in Hs as (x & Hx & _).
      apply (IH (v ++ [x])), run_dec_map_ok in Hr as (w & Hw & ->). eauto 10.
    + intros (w & (x & j & Hx & Hw) & ->). exists tt, j. split.
      * apply skip_equiv, run_dec_map_ok. eauto.
      * apply (IH (v ++ [x])), run_dec_map_ok. eauto.
Qed.

Lemma skip_items_wb n : wb (fun _ => True) 0 (skip_items D n).
Proof.
  induction n as [|n IH]; simpl; [by apply wb_done|].
  eapply wb_try; [apply skip_wb|]. by intros.
Qed.

#[global] Instance array_decode_laws : DecodeLaws (array_decode D N) array_wf.
Proof.
  pose proof array_decode_into_wb as Hwb. pose proof size_of_nonneg as Hs.
  assert (array_decode_fn D N ≃ array_decode_into D N) as Hd
    by apply default_decode_into_equiv.
  assert (wb array_wf 0 (array_decode_fn D N)) by by apply default_decode_into_wb.
  constructor; simpl; try done.
  - nia.
  - unfold array_skip. case_match; [apply skip_items_wb|].
    eapply wb_try; [done|]. intros; by apply wb_done.
  - unfold array_skip. case_match.
    + rewrite Hd, array_decode_into_equiv. apply skip_items_equiv.
    + intros i u i'. rewrite run_dec_map_ok, run_try_bind_ok. simpl. naive_solver.
Qed.
End array.

Section array_codec.
Context {T : Type} (E : Encode T) (D : Decode T) (wf : T -> Prop) `{!CodecLaws E D wf} (N : nat).

Lemma array_decode_items i l i' :
  run (array_decode_fn D N) i = Done (Ok l, i') <->
  run (decode_items (decode D) N []) i = Done (Ok l, i').
Proof.
  transitivity (run (array_decode_into D N) i = Done (Ok l, i')).
  - apply (default_decode_into_equiv (array_decode_into D N)).
  - apply (array_decode_into_equiv D wf N).
Qed.

(** Items of a fixed size, one after the other. *)
Lemma fixed_size_items n l bs :
  encoded_fixed_size D = Some n -> Forall wf l -> wbytes (wfor l (encode_to E)) = Done bs ->
  zlen bs = n * zlen l.
Proof.
  intros Hn Hl. revert bs. induction Hl as [|x l Hx Hl IH]; intros bs; simpl.
  - intros [= <-]. unfold zlen; simpl; lia.
  - rewrite wbytes_wseq_done. intros (a & b & Ha & Hb & ->). rewrite zlen_app, zlen_cons.
    rewrite (IH b), (fixed_size n x a) by done. lia.
Qed.

#[global] Instance array_codec_laws : CodecLaws (array_encode E N) (array_decode D N) (array_wf wf N).
Proof.
  constructor.
  - apply impl_encode_to_laws.
  - apply _.
  - intros l bs rest [Hl HN] Hb. simpl in *. apply array_decode_items. rewrite <- HN.
    rewrite (encode_slice_no_len_items E wf) in Hb by done.
    by apply (decode_items_roundtrip E D wf).
  - intros n l bs Hn [Hl HN] Hb. simpl in *. rewrite (encode_slice_no_len_items E wf) in Hb by done.
    unfold array_fixed_size in Hn. destruct (encoded_fixed_size D) as [m|] eqn:Hm; [|done].
    simpl in Hn. injection Hn as <-. rewrite <- HN. by apply (fixed_size_items m).
Qed.

#[global] Instance array_canonical `{!Canonical E D} : Canonical (array_encode E N) (array_decode D N).
Proof.
  intros i l i' Hrun. simpl in Hrun. pose proof Hrun as Hwf.
  apply (decode_wf (array_decode D N) (array_wf wf N)) in Hwf as [Hwf _].
  apply array_decode_items in Hrun.
  apply (decode_items_canonical E D) in Hrun as (l' & bs & -> & Hlen & Hb & ->).
  exists bs. split; [|done]. simpl. by rewrite (encode_slice_no_len_items E wf).
Qed.
End array_codec.

(** ** Strings *)

Definition string_wf (s : list Z) : Prop := Forall (in_range U8) s /\ utf8_valid s = true.

Lemma str_encode_laws wf : EncodeLaws str_encode wf.
Proof.
  apply (impl_forward_laws _ _ _ (fun _ => True)); [apply impl_encode_to_laws|done].
Qed.

Section strings.
Context (target_64 : usize_bits = 64).

Lemma byte_vec_fits : vec_fits (D_size_of (prim_decode U8)).
Proof. by apply vec_fits_64. Qed.

Lemma string_codec_laws : CodecLaws string_encode string_decode string_wf.
Proof.
  constructor.
  - apply (impl_forward_laws _ _ _ string_wf); [apply str_encode_laws|done].
  - apply impl_decode_laws; [by apply words_nonneg|].
    eapply wb_try; [apply (vec_decode_laws (prim_decode U8) (in_range U8) byte_vec_fits)|].
    intros s Hs. case_match; [by apply wb_done|apply wb_throw].
  - intros s bs rest [Hs Hu] Hb. cbn [decode string_decode impl_decode]. unfold string_decode_fn.
    rewrite run_try_bind. cbn [decode vec_decode impl_decode].
    rewrite (vec_roundtrip _ _ (in_range U8) byte_vec_fits s bs rest) by done. simpl.
    by rewrite Hu.
  - discriminate.
Qed.

Lemma string_canonical : Canonical string_encode string_decode.
Proof.
  intros i s i' Hrun. apply run_try_bind_ok in Hrun as (v & j & Hv & Hr).
  case_match; [|done]. simpl in Hr. simplify_eq.
  pose proof (vec_canonical (prim_encode U8) (prim_decode U8) (in_range U8) byte_vec_fits) as Hc.
  apply Hc in Hv as (bs & Hb & ->). by exists bs.
Qed.
End strings.
End decoding.
