(* ===== verification/Composite.v ===== *)
(** * Composite types ([src/src/codec.rs])

    [Option], [Result], tuples, the smart pointers [Box], [Rc], [Arc], [Cow] and
    references, [Range], [RangeInclusive] and [Duration].  The layout of these
    types is the compiler's choice, so their [mem::size_of] is an argument. *)

From S2P Require Import Prelude Ints Errors Input Discipline Output Traits Primitives Compact.
From S2P Require Import CompactTheory Sequences SequencesTheory.

Definition A_BILLION : Z := 1000000000.

(** [Cow<'a, T>], with [O] the owned type. *)
Inductive Cow (T O : Type) : Type :=
| Borrowed (b : T)
| Owned (o : O).
Arguments Borrowed {_ _} _.
Arguments Owned {_ _} _.

(** [core::ops::Range]. *)
Record Range (T : Type) : Type := mkRange { start : T; end_ : T }.
Arguments mkRange {_} _ _.
Arguments start {_} _.
Arguments end_ {_} _.

(** The core library's [RangeInclusive] also remembers whether its iterator has
    been exhausted. *)
Record RangeInclusive (T : Type) : Type := mkRangeInclusive {
  ri_start : T; ri_end : T; ri_exhausted : bool;
}.
Arguments mkRangeInclusive {_} _ _ _.
Arguments ri_start {_} _.
Arguments ri_end {_} _.
Arguments ri_exhausted {_} _.

(** [core::time::Duration]. *)
Record Duration : Type := mkDuration { as_secs : Z; subsec_nanos : Z }.

Section composite.
Context `{Target}.

(** ** [Option<T>] *)

Definition option_size_hint {T} (E : Encode T) (self : option T) : outcome Z :=
  h ← match self with Some t => size_hint E t | None => Done 0 end;
  add_usize 1 h.

Definition option_encode_to {T} (E : Encode T) (self : option T) : wprog :=
  match self with
  | Some t => push_byte x01 ;;; encode_to E t
  | None => push_byte x00
  end.

Definition option_encode {T} (size_of : Z) (E : Encode T) : Encode (option T) :=
  impl_encode_to size_of (option_size_hint E) (option_encode_to E).

Definition option_decode_fn {T} (D : Decode T) : dec (option T) :=
  b ⇐ chain_err "Could not decode variant byte for `Option`" read_byte;
  match b with
  | x00 => ok None
  | x01 => x ⇐ chain_err "Could not decode `Option::Some(T)`" (decode D); ok (Some x)
  | _ => throw "unexpected first byte decoding Option"
  end.

Definition option_decode {T} (size_of : Z) (D : Decode T) : Decode (option T) :=
  impl_decode size_of (option_decode_fn D).

(** ** [Result<T, E>] *)

Definition result_size_hint {A B} (EA : Encode A) (EB : Encode B) (self : Result A B) : outcome Z :=
  h ← match self with Ok t => size_hint EA t | Err t => size_hint EB t end;
  add_usize 1 h.

Definition result_encode_to {A B} (EA : Encode A) (EB : Encode B) (self : Result A B) : wprog :=
  match self with
  | Ok t => push_byte x00 ;;; encode_to EA t
  | Err e => push_byte x01 ;;; encode_to EB e
  end.

Definition result_encode {A B} (size_of : Z) (EA : Encode A) (EB : Encode B) : Encode (Result A B) :=
  impl_encode_to size_of (result_size_hint EA EB) (result_encode_to EA EB).

Definition result_decode_fn {A B} (DA : Decode A) (DB : Decode B) : dec (Result A B) :=
  b ⇐ chain_err "Could not result variant byte for `Result`" read_byte;
  match b with
  | x00 => t ⇐ chain_err "Could not Decode `Result::Ok(T)`" (decode DA); ok (Ok t)
  | x01 => e ⇐ chain_err "Could not decode `Result::Error(E)`" (decode DB); ok (Err e)
  | _ => throw "unexpected first byte decoding Result"
  end.

Definition result_decode {A B} (size_of : Z) (DA : Decode A) (DB : Decode B) : Decode (Result A B) :=
  impl_decode size_of (result_decode_fn DA DB).

(** ** Tuples

    [tuple_impl!]: the tuple [(A, B, C)] is [A * (B * C)], as the macro takes the
    first component off and goes on with the rest. *)

(** The one-element tuple forwards every method. *)
Definition tuple1_encode {T} (E : Encode T) : Encode T := impl_forward (E_size_of E) id E.

Definition tuple1_decode {T} (D : Decode T) : Decode T :=
  impl_decode (D_size_of D) (x ⇐ decode D; ok x).

Definition tuple_size_hint {A B} (EA : Encode A) (EB : Encode B) (self : A * B) : outcome Z :=
  a ← size_hint EA self.1; b ← size_hint EB self.2; add_usize a b.

Definition tuple_encode {A B} (size_of : Z) (EA : Encode A) (EB : Encode B) : Encode (A * B) :=
  impl_encode_to size_of (tuple_size_hint EA EB)
    (fun self => encode_to EA self.1 ;;; encode_to EB self.2).

Definition tuple_decode_fn {A B} (DA : Decode A) (DB : Decode B) : dec (A * B) :=
  a ⇐ decode DA;
  b ⇐ decode DB;
  ok (a, b).

Definition tuple_decode {A B} (size_of : Z) (DA : Decode A) (DB : Decode B) : Decode (A * B) :=
  impl_decode size_of (tuple_decode_fn DA DB).

(** ** Pointers

    [&T], [&mut T], [Box<T>], [Rc<T>] and [Arc<T>] are the value they point to. *)

Definition pointer_encode {T} (E : Encode T) : Encode T := impl_forward (words 1) id E.

(** [WrapperTypeDecode::decode_wrapped]. *)
Definition decode_wrapped {T X} (D : Decode T) (into : T -> X) : dec X :=
  _ ⇐ descend_ref;
  result ⇐ decode D;
  prog_bind ascend_ref (fun _ => ok (into result)).

(** [impl WrapperTypeDecode for Box<T>]: the value is decoded in place. *)
Definition box_decode_wrapped {T} (D : Decode T) : dec T :=
  _ ⇐ descend_ref;
  _ ⇐ on_before_alloc_mem (D_size_of D);
  boxed ⇐ decode_into D;
  prog_bind ascend_ref (fun _ => ok boxed).

(** [impl Decode for X where X: WrapperTypeDecode]. *)
Definition box_decode {T} (D : Decode T) : Decode T := impl_decode (words 1) (box_decode_wrapped D).

(** [Rc<T>] and [Arc<T>]: [Box::<T>::decode(input).map(|output| output.into())]. *)
Definition rc_decode {T} (D : Decode T) : Decode T :=
  impl_decode (words 1) (dec_map id (decode (box_decode D))).

(** ** [Cow<'a, T>] *)

(** [Deref for Cow]; [borrow] is the [Borrow] implementation of the owned type. *)
Definition cow_deref {T O} (borrow : O -> T) (self : Cow T O) : T :=
  match self with
  | Borrowed b => b
  | Owned o => borrow o
  end.

Definition cow_encode {T O} (size_of : Z) (borrow : O -> T) (E : Encode T) : Encode (Cow T O) :=
  impl_forward size_of (cow_deref borrow) E.

Definition cow_decode {T O} (size_of : Z) (D : Decode O) : Decode (Cow T O) :=
  impl_decode size_of (x ⇐ decode D; ok (Owned x)).

(** ** Ranges *)

(** [(&self.start, &self.end).encode()]. *)
Definition encode_ref_pair {T} (E : Encode T) (a b : T) : outcome (list byte) :=
  encode (tuple_encode (words 2) (pointer_encode E) (pointer_encode E)) (a, b).

Definition range_encode {T} (size_of : Z) (E : Encode T) : Encode (Range T) :=
  impl_encode size_of (fun _ => mul_usize 2 (E_size_of E))
    (fun self => encode_ref_pair E (start self) (end_ self)).

Definition range_decode {T} (size_of : Z) (D : Decode T) : Decode (Range T) :=
  impl_decode size_of
    ('(s, e) ⇐ chain_err "Could not decode `Range<T>`" (tuple_decode_fn D D); ok (mkRange s e)).

(** [RangeInclusive::new]. *)
Definition RangeInclusive_new {T} (s e : T) : RangeInclusive T := mkRangeInclusive s e false.

Definition range_inclusive_encode {T} (size_of : Z) (E : Encode T) : Encode (RangeInclusive T) :=
  impl_encode size_of (fun _ => mul_usize 2 (E_size_of E))
    (fun self => encode_ref_pair E (ri_start self) (ri_end self)).

Definition range_inclusive_decode {T} (size_of : Z) (D : Decode T) : Decode (RangeInclusive T) :=
  impl_decode size_of
    ('(s, e) ⇐ chain_err "Could not decode `RangeInclusive<T>`" (tuple_decode_fn D D);
     ok (RangeInclusive_new s e)).

(** ** [Duration] *)

Definition duration_wf (d : Duration) : Prop :=
  in_range U64 (as_secs d) /\ 0 <= subsec_nanos d < A_BILLION.

(** [Duration::new]: surplus nanoseconds are carried over into the seconds. *)
Definition Duration_new (secs nanos : Z) : outcome Duration :=
  if nanos <? A_BILLION then Done (mkDuration secs nanos)
  else if secs + nanos / A_BILLION <=? prim_max U64
  then Done (mkDuration (secs + nanos / A_BILLION) (nanos mod A_BILLION))
  else Panic "overflow in Duration::new".

Definition duration_encode : Encode Duration :=
  impl_encode 16 (fun _ => add_usize 8 4)
    (fun self => encode (tuple_encode 16 (prim_encode U64) (prim_encode U32))
                   (as_secs self, subsec_nanos self)).

Definition duration_decode_fn : dec Duration :=
  '(secs, nanos) ⇐ chain_err "Could not decode `Duration(u64, u32)`"
                     (tuple_decode_fn (prim_decode U64) (prim_decode U32));
  if A_BILLION <=? nanos then
    throw "Could not decode `Duration`: Number of nanoseconds should not be higher than 10^9."
  else match Duration_new secs nanos with
       | Done d => ok d
       | Panic msg => Halt msg
       end.

Definition duration_decode : Decode Duration := impl_decode 16 duration_decode_fn.
End composite.

(** ** Laws *)

Section laws.
Context `{Target}.

Lemma run_chained_byte {A} desc b rest (k : byte -> dec A) :
  run (try_bind (chain_err desc read_byte) k) (b :: rest) = run (k b) rest.
Proof. unfold chain_err, try_bind, read_byte. cbn [prog_bind]. by rewrite run_read_byte_cons. Qed.

Lemma run_chained_byte_inv {A} desc (k : byte -> dec A) i a i' :
  run (try_bind (chain_err desc read_byte) k) i = Done (Ok a, i') ->
  exists b rest, i = b :: rest /\ run (k b) rest = Done (Ok a, i').
Proof.
  intros Hrun. destruct i as [|b i]; [done|]. rewrite run_chained_byte in Hrun. eauto.
Qed.

Lemma wb_chained_byte {A} (Q : A -> Prop) n desc k :
  (forall b, wb Q n (k b)) -> wb Q n (try_bind (chain_err desc read_byte) k).
Proof. intros Hk. constructor; [intros; constructor|done]. Qed.

(** A value decoded behind a description of the error. *)
Lemma chained_roundtrip {A B} (E : Encode A) D wf `{!CodecLaws E D wf} desc (f : A -> B) x bs rest :
  wf x -> wbytes (encode_to E x) = Done bs ->
  run (y ⇐ chain_err desc (decode D); ok (f y)) (bs ++ rest) = Done (Ok (f x), rest).
Proof.
  intros Hx Hb. rewrite run_try_bind, run_chain_err, (roundtrip x bs rest Hx Hb). done.
Qed.

Lemma chained_inv {A B} (D : Decode A) desc (f : A -> B) i y i' :
  run (x ⇐ chain_err desc (decode D); ok (f x)) i = Done (Ok y, i') ->
  exists x, run (decode D) i = Done (Ok x, i') /\ y = f x.
Proof.
  rewrite run_try_bind_ok. setoid_rewrite run_chain_err_ok. simpl. naive_solver.
Qed.

Lemma chained_wb {A B} (D : Decode A) wf `{!DecodeLaws D wf} desc (f : A -> B) (Q : B -> Prop) :
  (forall x, wf x -> Q (f x)) -> wb Q 0 (x ⇐ chain_err desc (decode D); ok (f x)).
Proof.
  intros HQ. eapply wb_try; [apply wb_chain_err, decode_wb|]. intros; apply wb_done; auto.
Qed.

(** [Option] *)
Section option_laws.
Context {T : Type} (E : Encode T) (D : Decode T) (wf : T -> Prop) (size_of : Z).

Definition option_wf (x : option T) : Prop := match x with Some t => wf t | None => True end.

Lemma option_decode_laws `{!DecodeLaws D wf} :
  0 <= size_of -> DecodeLaws (option_decode size_of D) option_wf.
Proof.
  intros Hs. apply impl_decode_laws; [done|]. apply wb_chained_byte. intros b.
  destruct b; try (by apply wb_throw); [by apply wb_done|by apply (chained_wb D wf)].
Qed.

Lemma option_codec_laws `{!CodecLaws E D wf} :
  0 <= size_of -> CodecLaws (option_encode size_of E) (option_decode size_of D) option_wf.
Proof.
  intros Hs. constructor.
  - apply impl_encode_to_laws.
  - by apply option_decode_laws.
  - intros [t|] bs rest Hx Hb; simpl in Hb.
    + destruct (wbytes (encode_to E t)) as [u|] eqn:Hu; simpl in Hb; simplify_eq.
      etransitivity; [apply run_chained_byte|]. by apply (chained_roundtrip E D wf).
    + simplify_eq. by etransitivity; [apply run_chained_byte|].
  - discriminate.
Qed.

Lemma option_canonical `{!Canonical E D} :
  Canonical (option_encode size_of E) (option_decode size_of D).
Proof.
  intros i x i' Hrun. apply run_chained_byte_inv in Hrun as (b & rest & -> & Hrun).
  destruct b; try done.
  - simpl in Hrun. simplify_eq. by exists [x00].
  - apply chained_inv in Hrun as (t & Ht & ->). apply canonical in Ht as (bs & Hb & ->).
    exists (x01 :: bs). simpl. by rewrite Hb.
Qed.
End option_laws.

(** [Result] *)
Section result_laws.
Context {A B : Type} (EA : Encode A) (EB : Encode B) (DA : Decode A) (DB : Decode B).
Context (wfA : A -> Prop) (wfB : B -> Prop) (size_of : Z).

Definition result_wf (x : Result A B) : Prop := match x with Ok a => wfA a | Err b => wfB b end.

Lemma result_decode_laws `{!DecodeLaws DA wfA, !DecodeLaws DB wfB} :
  0 <= size_of -> DecodeLaws (result_decode size_of DA DB) result_wf.
Proof.
  intros Hs. apply impl_decode_laws; [done|]. apply wb_chained_byte. intros b.
  destruct b; try (by apply wb_throw); [by apply (chained_wb DA wfA)|by apply (chained_wb DB wfB)].
Qed.

Lemma result_codec_laws `{!CodecLaws EA DA wfA, !CodecLaws EB DB wfB} :
  0 <= size_of -> CodecLaws (result_encode size_of EA EB) (result_decode size_of DA DB) result_wf.
Proof.
  intros Hs. constructor.
  - apply impl_encode_to_laws.
  - by apply result_decode_laws.
  - intros [a|b] bs rest Hx Hb; simpl in Hb.
    + destruct (wbytes (encode_to EA a)) as [u|] eqn:Hu; simpl in Hb; simplify_eq.
      etransitivity; [apply run_chained_byte|]. by apply (chained_roundtrip EA DA wfA).
    + destruct (wbytes (encode_to EB b)) as [u|] eqn:Hu; simpl in Hb; simplify_eq.
      etransitivity; [apply run_chained_byte|]. by apply (chained_roundtrip EB DB wfB).
  - discriminate.
Qed.

Lemma result_canonical `{!Canonical EA DA, !Canonical EB DB} :
  Canonical (result_encode size_of EA EB) (result_decode size_of DA DB).
Proof.
  intros i x i' Hrun. apply run_chained_byte_inv in Hrun as (b & rest & -> & Hrun).
  destruct b; try done.
  - apply chained_inv in Hrun as (t & Ht & ->). apply canonical in Ht as (bs & Hb & ->).
    exists (x00 :: bs). simpl. by rewrite Hb.
  - apply chained_inv in Hrun as (t & Ht & ->). apply canonical in Ht as (bs & Hb & ->).
    exists (x01 :: bs). simpl. by rewrite Hb.
Qed.
End result_laws.

(** Tuples *)
Section tuple_laws.
Context {A B : Type} (EA : Encode A) (EB : Encode B) (DA : Decode A) (DB : Decode B).
Context (wfA : A -> Prop) (wfB : B -> Prop).

Definition tuple_wf (x : A * B) : Prop := wfA x.1 /\ wfB x.2.

Lemma tuple_decode_wb `{!DecodeLaws DA wfA, !DecodeLaws DB wfB} :
  wb tuple_wf 0 (tuple_decode_fn DA DB).
Proof.
  eapply wb_try; [apply decode_wb|]. intros a Ha.
  eapply wb_try; [apply decode_wb|]. intros b Hb. by apply wb_done.
Qed.

Lemma tuple_roundtrip `{!CodecLaws EA DA wfA, !CodecLaws EB DB wfB} size_of x bs rest :
  tuple_wf x -> wbytes (encode_to (tuple_encode size_of EA EB) x) = Done bs ->
  run (tuple_decode_fn DA DB) (bs ++ rest) = Done (Ok x, rest).
Proof.
  intros [Ha Hb] (a & b & Hba & Hbb & ->)%wbytes_wseq_done. unfold tuple_decode_fn.
  rewrite <- app_assoc, run_try_bind, (roundtrip x.1 a _ Ha Hba). simpl.
  rewrite run_try_bind, (roundtrip x.2 b _ Hb Hbb). simpl. by destruct x.
Qed.

Lemma tuple_decode_canonical `{!Canonical EA DA, !Canonical EB DB} size_of i x i' :
  run (tuple_decode_fn DA DB) i = Done (Ok x, i') ->
  exists bs, wbytes (encode_to (tuple_encode size_of EA EB) x) = Done bs /\ i = bs ++ i'.
Proof.
  intros Hrun. apply run_try_bind_ok in Hrun as (a & j & Ha & Hrun).
  apply run_try_bind_ok in Hrun as (b & k & Hb & Hrun). simpl in Hrun. simplify_eq.
  apply canonical in Ha as (ba & Hba & ->), Hb as (bb & Hbb & ->).
  exists (ba ++ bb). rewrite <- app_assoc. split; [|done]. apply wbytes_wseq_done. eauto.
Qed.

Lemma tuple_codec_laws `{!CodecLaws EA DA wfA, !CodecLaws EB DB wfB} size_of :
  0 <= size_of -> CodecLaws (tuple_encode size_of EA EB) (tuple_decode size_of DA DB) tuple_wf.
Proof.
  intros Hs. constructor.
  - apply impl_encode_to_laws.
  - apply impl_decode_laws; [done|apply tuple_decode_wb].
  - intros x bs rest. apply tuple_roundtrip.
  - discriminate.
Qed.

Lemma tuple_canonical `{!Canonical EA DA, !Canonical EB DB} size_of :
  Canonical (tuple_encode size_of EA EB) (tuple_decode size_of DA DB).
Proof. intros i x i'. apply tuple_decode_canonical. Qed.
End tuple_laws.

(** Pointers *)
Section pointer_laws.
Context {T : Type} (E : Encode T) (D : Decode T) (wf : T -> Prop).

#[global] Instance pointer_encode_laws `{!EncodeLaws E wf} : EncodeLaws (pointer_encode E) wf.
Proof. by apply (impl_forward_laws _ _ _ wf). Qed.

Lemma box_decode_wb `{!DecodeLaws D wf} : wb wf 0 (box_decode_wrapped D).
Proof.
  apply wb_try_descend, wb_try_alloc; [apply size_of_nonneg|].
  eapply (wb_prog_bind _ _ 0 1); [apply decode_into_wb| |intros; constructor].
  intros x Hx. cbn. apply wb_ascend. by apply wb_done.
Qed.

(** On a slice the detour over the heap changes nothing. *)
Lemma box_decode_equiv `{!DecodeLaws D wf} : box_decode_wrapped D ≃ decode D.
Proof.
  transitivity (decode_into D); [|apply decode_into_equiv]. intros i x i'.
  change (run (boxed ⇐ decode_into D; prog_bind ascend_ref (fun _ => ok boxed)) i = Done (Ok x, i')
    <-> run (decode_into D) i = Done (Ok x, i')).
  rewrite run_try_bind_ok. simpl. naive_solver.
Qed.

Lemma decode_wrapped_equiv {X} (into : T -> X) : decode_wrapped D into ≃ dec_map into (decode D).
Proof.
  intros i x i'. rewrite run_dec_map_ok.
  change (run (r ⇐ decode D; prog_bind ascend_ref (fun _ => ok (into r))) i = Done (Ok x, i')
    <-> exists a, run (decode D) i = Done (Ok a, i') /\ x = into a).
  rewrite run_try_bind_ok. simpl. naive_solver.
Qed.

Lemma decode_wrapped_wb {X} (into : T -> X) (Q : X -> Prop) `{!DecodeLaws D wf} :
  (forall x, wf x -> Q (into x)) -> wb Q 0 (decode_wrapped D into).
Proof.
  intros HQ. apply wb_try_descend.
  eapply (wb_prog_bind _ _ 0 1); [apply decode_wb| |intros; constructor].
  intros x Hx. cbn. apply wb_ascend, wb_done. auto.
Qed.

#[global] Instance box_codec_laws `{!CodecLaws E D wf} :
  CodecLaws (pointer_encode E) (box_decode D) wf.
Proof.
  constructor.
  - apply _.
  - apply impl_decode_laws; [by apply words_nonneg|apply box_decode_wb].
  - intros x bs rest Hx Hb. apply box_decode_equiv. by apply roundtrip.
  - discriminate.
Qed.

Lemma box_canonical `{!CodecLaws E D wf, !Canonical E D} :
  Canonical (pointer_encode E) (box_decode D).
Proof.
  assert (DecodeLaws D wf) by apply (codec_decode (E := E)).
  intros i x i' Hrun. apply box_decode_equiv in Hrun. by apply (canonical (E := E)).
Qed.

Lemma rc_decode_equiv : decode (rc_decode D) ≃ decode (box_decode D).
Proof.
  intros i x i'. cbn [decode rc_decode impl_decode]. rewrite run_dec_map_ok.
  split; [by intros (a & Ha & ->)|by exists x].
Qed.

#[global] Instance rc_codec_laws `{!CodecLaws E D wf} :
  CodecLaws (pointer_encode E) (rc_decode D) wf.
Proof.
  constructor.
  - apply _.
  - apply impl_decode_laws; [by apply words_nonneg|].
    by eapply wb_dec_map; [apply (decode_wb (D := box_decode D))|].
  - intros x bs rest Hx Hb. apply rc_decode_equiv. by apply (roundtrip (E := pointer_encode E)).
  - discriminate.
Qed.

Lemma rc_canonical `{!CodecLaws E D wf, !Canonical E D} : Canonical (pointer_encode E) (rc_decode D).
Proof.
  intros i x i' Hrun. apply run_dec_map_ok in Hrun as (y & Hy & ->). by apply box_canonical.
Qed.

(** [Cow]: what was borrowed comes back owned. *)
Definition cow_wf {O} (wfO : O -> Prop) (x : Cow T O) : Prop :=
  match x with Owned o => wfO o | Borrowed _ => False end.

Lemma cow_codec_laws {O} (EO : Encode O) (DO : Decode O) (wfO : O -> Prop) (borrow : O -> T) size_of :
  EncodeLaws E wf -> CodecLaws EO DO wfO -> 0 <= size_of ->
  (forall o, wfO o -> wf (borrow o)) ->
  (forall o, encode_to EO o = encode_to E (borrow o)) ->
  CodecLaws (cow_encode size_of borrow E) (cow_decode size_of DO) (cow_wf wfO).
Proof.
  intros HE HO Hs Hwf Henc. constructor.
  - apply (impl_forward_laws _ _ _ wf); [done|]. intros [b|o]; simpl; [done|auto].
  - apply impl_decode_laws; [done|]. eapply wb_try; [apply decode_wb|].
    intros o Ho. by apply wb_done.
  - intros [b|o] bs rest Hx Hb; [done|]. cbn [decode cow_decode impl_decode].
    rewrite run_try_bind, (roundtrip o bs rest Hx) by (by rewrite Henc). done.
  - discriminate.
Qed.

Lemma cow_canonical `{!Canonical E D} size_of :
  Canonical (cow_encode size_of id E) (cow_decode (T := T) size_of D).
Proof.
  intros i x i' Hrun. apply run_try_bind_ok in Hrun as (o & j & Ho & Hx). simpl in Hx. simplify_eq.
  by apply canonical in Ho.
Qed.
End pointer_laws.

(** Types that override [encode]. *)
Lemma wbytes_impl_encode {T} size_of hint enc (x : T) :
  wbytes (encode_to (impl_encode size_of hint enc) x) = enc x.
Proof. apply wbytes_default_encode_to. Qed.

(** Ranges *)
Section range_laws.
Context {T : Type} (E : Encode T) (D : Decode T) (wf : T -> Prop) (size_of : Z).

Lemma encode_ref_pair_sound a b bs :
  encode_ref_pair E a b = Done bs -> wbytes (encode_to (tuple_encode (words 2) E E) (a, b)) = Done bs.
Proof.
  apply (encode_sound (E := tuple_encode (words 2) (pointer_encode E) (pointer_encode E))
    (EncodeLaws := impl_encode_to_laws _ _ _ (fun _ => True))).
Qed.

Lemma encode_ref_pair_complete a b bs :
  (forall x, wf x -> exists h, size_hint E x = Done h /\ 2 * h <= isize_max) ->
  wf a -> wf b -> wbytes (encode_to (tuple_encode (words 2) E E) (a, b)) = Done bs ->
  encode_ref_pair E a b = Done bs.
Proof.
  intros Hh Ha Hb Hbs. destruct (Hh a Ha) as (ha & Hha & ?), (Hh b Hb) as (hb & Hhb & ?).
  apply default_encode_done. split; [|done]. exists (ha + hb).
  pose proof isize_usize_max. pose proof isize_max_ge. split; [|lia].
  unfold tuple_size_hint. simpl. unfold id. rewrite Hha, Hhb. simpl. unfold add_usize.
  by decide_tests.
Qed.

Lemma range_codec_laws `{!CodecLaws E D wf} :
  0 <= size_of ->
  CodecLaws (range_encode size_of E) (range_decode size_of D)
    (fun r => wf (start r) /\ wf (end_ r)).
Proof.
  intros Hs. constructor.
  - apply impl_encode_laws.
  - apply impl_decode_laws; [done|]. eapply wb_try; [apply wb_chain_err, (tuple_decode_wb D D wf wf)|].
    intros [a b] Hab. by apply wb_done.
  - intros [a b] bs rest Hx. unfold range_encode. rewrite wbytes_impl_encode.
    intros Hb%encode_ref_pair_sound. cbn [decode range_decode impl_decode].
    rewrite run_try_bind, run_chain_err, (tuple_roundtrip E E D D wf wf _ (a, b) bs) by done. done.
  - discriminate.
Qed.

Lemma range_canonical `{!CodecLaws E D wf, !Canonical E D} :
  (forall x, wf x -> exists h, size_hint E x = Done h /\ 2 * h <= isize_max) ->
  Canonical (range_encode size_of E) (range_decode size_of D).
Proof.
  intros Hh i r i' Hrun. apply run_try_bind_ok in Hrun as ([a b] & j & Hab & Hr).
  simpl in Hr. simplify_eq. apply run_chain_err_ok in Hab.
  pose proof (wb_run _ _ _ i (tuple_decode_wb D D wf wf)) as (q & k & Hq & Hwf).
  rewrite Hq in Hab. simplify_eq. destruct (Hwf _ eq_refl) as [Ha Hb].
  apply (tuple_decode_canonical E E D D (words 2)) in Hq as (bs & Hbs & ->).
  exists bs. split; [|done]. unfold range_encode. rewrite wbytes_impl_encode.
  by apply encode_ref_pair_complete.
Qed.

(** An inclusive range comes back as it was unless it had been exhausted. *)
Definition range_inclusive_wf (r : RangeInclusive T) : Prop :=
  wf (ri_start r) /\ wf (ri_end r) /\ ri_exhausted r = false.

Lemma range_inclusive_decoded `{!CodecLaws E D wf} r bs rest :
  wf (ri_start r) -> wf (ri_end r) ->
  wbytes (encode_to (range_inclusive_encode size_of E) r) = Done bs ->
  run (decode (range_inclusive_decode size_of D)) (bs ++ rest)
  = Done (Ok (RangeInclusive_new (ri_start r) (ri_end r)), rest).
Proof.
  intros Ha Hb. unfold range_inclusive_encode. rewrite wbytes_impl_encode.
  intros Hbs%encode_ref_pair_sound. cbn [decode range_inclusive_decode impl_decode].
  rewrite run_try_bind, run_chain_err,
    (tuple_roundtrip E E D D wf wf _ (ri_start r, ri_end r) bs) by done. done.
Qed.

Lemma range_inclusive_codec_laws `{!CodecLaws E D wf} :
  0 <= size_of ->
  CodecLaws (range_inclusive_encode size_of E) (range_inclusive_decode size_of D) range_inclusive_wf.
Proof.
  intros Hs. constructor.
  - apply impl_encode_laws.
  - apply impl_decode_laws; [done|]. eapply wb_try; [apply wb_chain_err, (tuple_decode_wb D D wf wf)|].
    intros [a b] [Ha Hb]. by apply wb_done.
  - intros r bs rest (Ha & Hb & He) Hbs. rewrite (range_inclusive_decoded r) by done.
    destruct r; simpl in *. by subst.
  - discriminate.
Qed.

Lemma range_inclusive_canonical `{!CodecLaws E D wf, !Canonical E D} :
  (forall x, wf x -> exists h, size_hint E x = Done h /\ 2 * h <= isize_max) ->
  Canonical (range_inclusive_encode size_of E) (range_inclusive_decode size_of D).
Proof.
  intros Hh i r i' Hrun. apply run_try_bind_ok in Hrun as ([a b] & j & Hab & [= <- <-]).
  destruct (range_canonical Hh i (mkRange a b) j) as (bs & Hbs & ->); [|by exists bs].
  apply run_chain_err_ok in Hab. cbn [decode range_decode impl_decode].
  by rewrite run_try_bind, run_chain_err, Hab.
Qed.
End range_laws.

(** [Duration] *)
Lemma duration_pair_wf d : duration_wf d -> tuple_wf (in_range U64) (in_range U32) (as_secs d, subsec_nanos d).
Proof.
  intros [Hs Hn]. split; [done|]. simpl. apply in_range_unsigned; [done|].
  unfold A_BILLION in Hn. prim_lia.
Qed.

#[global] Instance duration_codec_laws : CodecLaws duration_encode duration_decode duration_wf.
Proof.
  constructor.
  - apply impl_encode_laws.
  - apply impl_decode_laws; [lia|].
    eapply wb_try; [apply wb_chain_err, (tuple_decode_wb _ _ (in_range U64) (in_range U32))|].
    intros [secs nanos] [Hs Hn]. simpl in Hs, Hn. unfold Duration_new.
    case_match; bool_to_prop; [apply wb_throw|]. decide_tests.
    apply wb_done. split; [done|]. simpl. apply in_range_unsigned in Hn; [lia|done].
  - intros d bs rest Hd. unfold duration_encode. rewrite wbytes_impl_encode. intros Hb.
    apply (encode_sound (E := tuple_encode 16 (prim_encode U64) (prim_encode U32))
      (EncodeLaws := impl_encode_to_laws _ _ _ (fun _ => True))) in Hb.
    cbn [decode duration_decode impl_decode]. unfold duration_decode_fn.
    rewrite run_try_bind, run_chain_err.
    rewrite (tuple_roundtrip _ _ _ _ (in_range U64) (in_range U32) 16 _ bs)
      by (done || by apply duration_pair_wf).
    destruct Hd as [_ Hn]. simpl. unfold Duration_new. decide_tests. by destruct d.
  - discriminate.
Qed.

#[global] Instance duration_canonical : Canonical duration_encode duration_decode.
Proof.
  intros i d i' Hrun. apply run_try_bind_ok in Hrun as ([secs nanos] & j & Hp & Hr).
  apply run_chain_err_ok in Hp.
  unfold Duration_new in Hr. case_match; bool_to_prop; [done|].
  revert Hr. decide_tests. intros Hr. simpl in Hr. simplify_eq.
  apply (tuple_decode_canonical (prim_encode U64) (prim_encode U32) _ _ 16) in Hp as (bs & Hb & ->).
  exists bs. split; [|done]. unfold duration_encode. rewrite wbytes_impl_encode.
  apply default_encode_done. split; [|done].
  exists 12. pose proof usize_max_ge. pose proof isize_max_ge. split; [|lia].
  simpl. unfold tuple_size_hint, add_usize. simpl. by decide_tests.
Qed.
End laws.
