(* ===== verification/Collections.v ===== *)
(** * Collections ([src/src/codec.rs], [src/src/btree_utils.rs])

    [BTreeMap], [BTreeSet], [LinkedList] and [VecDeque].  A B-tree is the list
    of its entries in increasing order, a deque the two slices of its ring
    buffer. *)

From Stdlib Require Import Sorting.Sorted.
From S2P Require Import Prelude Ints Errors Input Discipline Output Traits Primitives Compact.
From S2P Require Import CompactTheory Sequences SequencesTheory Composite.

(** [core::cmp::Ord], for types where [Ordering::Equal] is equality. *)
Class Ord (T : Type) : Type := {
  cmp : T -> T -> comparison;
  cmp_eq x y : cmp x y = Eq <-> x = y;
  cmp_opp x y : cmp y x = CompOpp (cmp x y);
  cmp_lt_trans x y z : cmp x y = Lt -> cmp y z = Lt -> cmp x z = Lt;
}.

#[export] Instance Z_ord : Ord Z.
Proof.
  refine {| cmp := Z.compare |}.
  - apply Z.compare_eq_iff.
  - intros x y. by rewrite Z.compare_antisym.
  - intros x y z. rewrite !Z.compare_lt_iff. lia.
Defined.

(** ** B-trees *)

(** [BTreeMap::insert] on the sorted entries: an equal key gets the new value. *)
Fixpoint btree_insert {K V} `{Ord K} (k : K) (v : V) (m : list (K * V)) : list (K * V) :=
  match m with
  | [] => [(k, v)]
  | (k', v') :: m' =>
      match cmp k k' with
      | Lt => (k, v) :: m
      | Eq => (k, v) :: m'
      | Gt => (k', v') :: btree_insert k v m'
      end
  end.

(** [BTreeMap::from_iter]: later entries replace earlier ones. *)
Definition btree_from_iter {K V} `{Ord K} (l : list (K * V)) : list (K * V) :=
  fold_left (fun m '(k, v) => btree_insert k v m) l [].

(** [BTreeSet<T>] is [BTreeMap<T, ()>]. *)
Definition set_from_iter {T} `{Ord T} (l : list T) : list T :=
  map fst (btree_from_iter (map (fun x => (x, tt)) l)).

Section collections.
Context `{Target}.

(** [impl_encode_for_collection!]: [E] encodes the item the iterator yields,
    [size_of] is that of the owned item. *)
Definition collection_size_hint {T} (size_of : Z) (self : list T) : outcome Z :=
  add_usize 4 (saturating_mul_usize size_of (zlen self)).

Definition collection_encode_to {T} (E : Encode T) (self : list T) : wprog :=
  encode_len (zlen self) ;;; wfor self (encode_to E).

Definition collection_encode {T} (container_size size_of : Z) (E : Encode T) : Encode (list T) :=
  impl_encode_to container_size (collection_size_hint size_of) (collection_encode_to E).

(** The iterator of a map yields pairs of references. *)
Definition btree_map_encode {K V} (size_of : Z) (EK : Encode K) (EV : Encode V) : Encode (list (K * V)) :=
  collection_encode (words 3) size_of
    (tuple_encode (words 2) (pointer_encode EK) (pointer_encode EV)).

Definition btree_set_encode {T} (E : Encode T) : Encode (list T) :=
  collection_encode (words 3) (E_size_of E) (pointer_encode E).

Definition linked_list_encode {T} (E : Encode T) : Encode (list T) :=
  collection_encode (words 3) (E_size_of E) (pointer_encode E).

(** [mem_size_of_btree::<T>(len)]: [leaf_node_size] is
    [size_of::<(usize, u16, u16, [T; CAPACITY])>()]. *)
Definition B : Z := 6.
Definition CAPACITY : Z := 2 * B - 1.
Definition MIN_LEN_AFTER_SPLIT : Z := B - 1.

Definition mem_size_of_btree (leaf_node_size len : Z) : Z :=
  if len =? 0 then 0
  else
    let internal_node_size := leaf_node_size + words (2 * B) in
    let num_nodes := len / ((CAPACITY + MIN_LEN_AFTER_SPLIT) * 2 / 3) in
    if num_nodes =? 0 then leaf_node_size
    else saturating_mul_usize num_nodes internal_node_size.

(** The common body of the decoders: the result of the iterator is returned
    after [ascend_ref], error or not. *)
Definition collection_decode_fn {T C} (D : Decode T) (mem_size : Z -> Z) (from_iter : list T -> C)
    : dec C :=
  len ⇐ decode_len;
  _ ⇐ descend_ref;
  _ ⇐ on_before_alloc_mem (mem_size len);
  prog_bind (dec_map from_iter (decode_items (decode D) (Z.to_nat len) []))
    (fun result => prog_bind ascend_ref (fun _ => Ret result)).

Definition btree_map_decode {K V} `{Ord K} (pair_size leaf_node_size : Z) (DK : Decode K) (DV : Decode V)
    : Decode (list (K * V)) :=
  impl_decode (words 3)
    (collection_decode_fn (tuple_decode pair_size DK DV) (mem_size_of_btree leaf_node_size)
       btree_from_iter).

Definition btree_set_decode {T} `{Ord T} (leaf_node_size : Z) (D : Decode T) : Decode (list T) :=
  impl_decode (words 3) (collection_decode_fn D (mem_size_of_btree leaf_node_size) set_from_iter).

(** [node_size] is [size_of::<(usize, usize, T)>()]. *)
Definition linked_list_decode {T} (node_size : Z) (D : Decode T) : Decode (list T) :=
  impl_decode (words 3)
    (collection_decode_fn D (fun len => saturating_mul_usize len node_size) id).

(** ** [VecDeque<T>] *)

(** The pair of [as_slices]. *)
Definition VecDeque (T : Type) : Type := list T * list T.

Definition deque_len {T} (self : VecDeque T) : Z := zlen self.1 + zlen self.2.

Definition vec_deque_size_hint {T} (E : Encode T) (self : VecDeque T) : outcome Z :=
  items ← mul_usize (E_size_of E) (deque_len self); add_usize 4 items.

Definition vec_deque_encode_to {T} (E : Encode T) (self : VecDeque T) : wprog :=
  encode_len (deque_len self) ;;;
  encode_slice_no_len E self.1 ;;;
  encode_slice_no_len E self.2.

Definition vec_deque_encode {T} (E : Encode T) : Encode (VecDeque T) :=
  impl_encode_to (words 4) (vec_deque_size_hint E) (vec_deque_encode_to E).

(** [VecDeque::from(vec)] takes the buffer over. *)
Definition vec_deque_decode {T} (D : Decode T) : Decode (VecDeque T) :=
  impl_decode (words 4) (v ⇐ decode (vec_decode D); ok (v, [])).
End collections.

(** ** Sorted entries *)

Section btree.
Context {K V : Type} `{Ord K}.

Definition key_lt (x y : K * V) : Prop := cmp x.1 y.1 = Lt.
Definition btree_sorted (m : list (K * V)) : Prop := StronglySorted key_lt m.

(** Every key of [m] is above [k]. *)
Definition above (k : K) (m : list (K * V)) : Prop := Forall (fun e => cmp k e.1 = Lt) m.

Lemma cmp_gt_lt x y : cmp x y = Gt -> cmp y x = Lt.
Proof. intros Hc. by rewrite (cmp_opp x y), Hc. Qed.

Lemma btree_insert_above k0 k v m :
  cmp k0 k = Lt -> above k0 m -> above k0 (btree_insert k v m).
Proof.
  intros Hk Hm. induction Hm as [|[k' v'] m Hk' Hm IH]; simpl; [by constructor|].
  destruct (cmp k k'); constructor; simpl; auto.
Qed.

Lemma btree_insert_sorted k v m : btree_sorted m -> btree_sorted (btree_insert k v m).
Proof.
  intros Hm. induction Hm as [|[k' v'] m Hm IH Hlt]; simpl; [by repeat constructor|].
  destruct (cmp k k') eqn:Hc.
  - apply cmp_eq in Hc as ->. by constructor.
  - constructor; [by constructor|]. constructor; [done|].
    eapply Forall_impl; [exact Hlt|]. intros e He. by eapply cmp_lt_trans.
  - constructor; [done|]. apply btree_insert_above; [by apply cmp_gt_lt|done].
Qed.

Lemma btree_from_iter_sorted l : btree_sorted (btree_from_iter l).
Proof.
  unfold btree_from_iter. assert (btree_sorted []) as Hs by constructor.
  revert Hs. generalize (@nil (K * V)). induction l as [|[k v] l IH]; intros m Hm; simpl; [done|].
  by apply IH, btree_insert_sorted.
Qed.

(** A key above all others goes to the end. *)
Lemma btree_insert_last k (v : V) m :
  Forall (fun e => cmp e.1 k = Lt) m -> btree_insert k v m = m ++ [(k, v)].
Proof.
  induction 1 as [|[k' v'] m Hk Hm IH]; simpl; [done|].
  simpl in Hk. rewrite cmp_opp, Hk. simpl. by rewrite IH.
Qed.

(** Collecting entries that are already sorted keeps them. *)
Lemma btree_from_iter_id m : btree_sorted m -> btree_from_iter m = m.
Proof.
  intros Hm. unfold btree_from_iter.
  enough (forall acc, (forall x, x ∈ acc -> Forall (key_lt x) m) ->
    fold_left (fun m '(k, v) => btree_insert k v m) m acc = acc ++ m) as Hgen
    by (apply (Hgen []); by intros x ?%elem_of_nil).
  induction Hm as [|[k v] m Hm IH Hlt]; intros acc Hacc; simpl; [by rewrite app_nil_r|].
  rewrite btree_insert_last.
  - rewrite IH, <- app_assoc; [done|]. intros x [Hx|Hx]%elem_of_app.
    + specialize (Hacc x Hx). by inversion Hacc.
    + apply list_elem_of_singleton in Hx as ->. done.
  - apply Forall_forall. intros x Hx. specialize (Hacc x Hx). by inversion Hacc.
Qed.

Lemma btree_insert_forall (P : K * V -> Prop) k v m :
  P (k, v) -> Forall P m -> Forall P (btree_insert k v m).
Proof.
  intros Hkv Hm. induction Hm as [|[k' v'] m Hk' Hm IH]; simpl; [by repeat constructor|].
  destruct (cmp k k'); repeat (constructor; auto).
Qed.

Lemma btree_insert_length k v (m : list (K * V)) : (length (btree_insert k v m) <= S (length m))%nat.
Proof. induction m as [|[k0 v0] m IH]; simpl; [lia|]. destruct (cmp k k0); simpl; lia. Qed.

(** Duplicates only make the map smaller. *)
Lemma btree_from_iter_length (l : list (K * V)) : zlen (btree_from_iter l) <= zlen l.
Proof.
  unfold btree_from_iter, zlen. enough (forall m, length (fold_left (fun m '(k, v) => btree_insert k v m) l m)
    <= length m + length l)%nat as Hm by (specialize (Hm []); simpl in Hm; lia).
  induction l as [|[k v] l IH]; intros m; simpl; [lia|].
  pose proof (IH (btree_insert k v m)). pose proof (btree_insert_length k v m). lia.
Qed.

Lemma btree_from_iter_forall (P : K * V -> Prop) l : Forall P l -> Forall P (btree_from_iter l).
Proof.
  intros Hl. unfold btree_from_iter. assert (Forall P []) as Hn by constructor.
  revert Hn. generalize (@nil (K * V)). induction Hl as [|[k v] l Hkv Hl IH]; intros m Hm; simpl; [done|].
  by apply IH, btree_insert_forall.
Qed.

(** Lookup in the sorted entries. *)
Fixpoint btree_get (k : K) (m : list (K * V)) : option V :=
  match m with
  | [] => None
  | (k', v') :: m => if cmp k k' is Eq then Some v' else btree_get k m
  end.

Lemma btree_get_insert k k' v m :
  btree_get k (btree_insert k' v m) = if cmp k k' is Eq then Some v else btree_get k m.
Proof.
  induction m as [|[k1 v1] m IH]; simpl; [done|].
  destruct (cmp k' k1) eqn:Hc; simpl.
  - apply cmp_eq in Hc as ->. by destruct (cmp k k1).
  - done.
  - destruct (cmp k k1) eqn:H1; [|exact IH..].
    apply cmp_eq in H1 as ->. by rewrite cmp_opp, Hc.
Qed.

(** The last entry of a key wins. *)
Lemma btree_get_from_iter k l :
  btree_get k (btree_from_iter l) = btree_get k (rev l).
Proof.
  unfold btree_from_iter. rewrite <- fold_left_rev_right.
  induction (rev l) as [|[k' v] l' IH]; simpl; [done|]. rewrite btree_get_insert.
  by destruct (cmp k k').
Qed.
End btree.

(** ** Laws *)

(** A reference is encoded like the value. *)
Lemma pointer_codec_laws `{Target} {T} (E : Encode T) D wf `{!CodecLaws E D wf} :
  CodecLaws (pointer_encode E) D wf.
Proof.
  constructor; try apply _; [apply (roundtrip (E := E))|apply (fixed_size (E := E))].
Qed.

Section laws.
Context `{Target}.

Section collection.
Context {T C : Type} (D : Decode T) (wf : T -> Prop) `{!DecodeLaws D wf}.
Context (mem_size : Z -> Z) (from_iter : list T -> C).

Lemma collection_decode_wb (wfC : C -> Prop) :
  (forall len, 0 <= len <= prim_max U32 -> 0 <= mem_size len) ->
  (forall l, Forall wf l -> zlen l <= prim_max U32 -> wfC (from_iter l)) ->
  wb wfC 0 (collection_decode_fn D mem_size from_iter).
Proof.
  intros Hmem HC. eapply wb_try; [apply decode_len_wb|]. intros len Hl.
  apply wb_try_descend, wb_try_alloc; [auto|].
  eapply (wb_prog_bind wfC _ 0 1).
  - eapply wb_dec_map; [apply (decode_items_wb wf); [apply decode_wb|done]|].
    intros l [Hf Hz]. apply HC; [done|]. cbv beta in Hl. rewrite zlen_nil, Z2Nat.id in Hz by lia. lia.
  - intros c Hc. cbn. apply wb_ascend. by constructor.
  - intros e. cbn. repeat constructor.
Qed.

(** The decoders accept a length and that many items, in any order. *)
Lemma run_collection_decode i c i' :
  run (collection_decode_fn D mem_size from_iter) i = Done (Ok c, i') <->
  exists len j l, run decode_len i = Done (Ok len, j) /\
    run (decode_items (decode D) (Z.to_nat len) []) j = Done (Ok l, i') /\ c = from_iter l.
Proof.
  unfold collection_decode_fn. rewrite run_try_bind_ok.
  assert (forall len j, run (_ ⇐ descend_ref; _ ⇐ on_before_alloc_mem (mem_size len);
    prog_bind (dec_map from_iter (decode_items (decode D) (Z.to_nat len) []))
      (fun result => prog_bind ascend_ref (fun _ => Ret result))) j
    = run (dec_map from_iter (decode_items (decode D) (Z.to_nat len) [])) j) as Hk.
  { intros len j. change (run (prog_bind (dec_map from_iter (decode_items (decode D) (Z.to_nat len) []))
      (fun result => prog_bind ascend_ref (fun _ => Ret result))) j
      = run (dec_map from_iter (decode_items (decode D) (Z.to_nat len) [])) j).
    rewrite run_bind. by destruct (run (dec_map _ _) j) as [[r k]|]. }
  setoid_rewrite Hk. setoid_rewrite run_dec_map_ok. naive_solver.
Qed.

Lemma collection_roundtrip (E : Encode T) `{!CodecLaws E D wf} l bs rest :
  Forall wf l -> wbytes (collection_encode_to E l) = Done bs ->
  run (collection_decode_fn D mem_size from_iter) (bs ++ rest) = Done (Ok (from_iter l), rest).
Proof.
  intros Hl Hb. apply wbytes_wseq_done in Hb as (a & items & Ha & Hi & ->).
  apply wbytes_encode_len in Ha as [Hn ->]; [|apply zlen_nonneg].
  pose proof (zlen_nonneg l). apply run_collection_decode.
  exists (zlen l), (items ++ rest), l. rewrite <- app_assoc, run_decode_len by done.
  split_and!; [done| |done]. unfold zlen. rewrite Nat2Z.id.
  by apply (decode_items_roundtrip E D wf l items []).
Qed.
End collection.

(** The macro writes what a vector of the same items is encoded as. *)
Lemma slice_encode_collection {T} (E : Encode T) wf l `{!EncodeLaws E wf} :
  Forall wf l -> wbytes (slice_encode_to E l) = wbytes (collection_encode_to E l).
Proof.
  intros Hl. unfold slice_encode_to, collection_encode_to.
  by rewrite !wbytes_wseq, (encode_slice_no_len_items E wf).
Qed.

Lemma mem_size_of_btree_nonneg leaf_node_size len :
  0 <= leaf_node_size -> 0 <= len -> 0 <= mem_size_of_btree leaf_node_size len.
Proof.
  intros Hs Hl. unfold mem_size_of_btree, saturating_mul_usize.
  pose proof (words_nonneg (2 * B)). assert (0 <= 2 * B) by done. pose proof usize_max_ge.
  repeat case_match; try done.
  apply Z.min_glb; [|lia]. apply Z.mul_nonneg_nonneg; [|lia]. by apply Z.div_pos.
Qed.

(** Maps *)
Section map_laws.
Context {K V : Type} `{Ord K} (EK : Encode K) (EV : Encode V) (DK : Decode K) (DV : Decode V).
Context (wfK : K -> Prop) (wfV : V -> Prop).

Definition map_wf (m : list (K * V)) : Prop := btree_sorted m /\ Forall (tuple_wf wfK wfV) m.

Lemma btree_map_codec_laws `{!CodecLaws EK DK wfK, !CodecLaws EV DV wfV} size_of pair_size leaf :
  0 <= pair_size -> 0 <= leaf ->
  CodecLaws (btree_map_encode size_of EK EV) (btree_map_decode pair_size leaf DK DV) map_wf.
Proof.
  intros Hp Hleaf. pose proof (pointer_codec_laws EK DK wfK). pose proof (pointer_codec_laws EV DV wfV).
  pose proof (tuple_codec_laws (pointer_encode EK) (pointer_encode EV) DK DV wfK wfV pair_size Hp) as Ht.
  pose proof (codec_decode (CodecLaws := Ht)) as Hd.
  constructor.
  - apply impl_encode_to_laws.
  - apply impl_decode_laws; [by apply words_nonneg|].
    apply (collection_decode_wb _ (tuple_wf wfK wfV)).
    + intros len [Hl _]. by apply mem_size_of_btree_nonneg.
    + intros l Hl _. split; [apply btree_from_iter_sorted|by apply btree_from_iter_forall].
  - intros m bs rest [Hm Hf] Hb. rewrite <- (btree_from_iter_id m Hm) at 1.
    by apply (collection_roundtrip _ (tuple_wf wfK wfV) _ _
      (tuple_encode pair_size (pointer_encode EK) (pointer_encode EV)) m bs rest Hf).
  - discriminate.
Qed.
End map_laws.

(** Sets *)
Section set_laws.
Context {T : Type} `{Ord T} (E : Encode T) (D : Decode T) (wf : T -> Prop).

Definition set_sorted (s : list T) : Prop := StronglySorted (fun x y => cmp x y = Lt) s.
Definition set_wf (s : list T) : Prop := set_sorted s /\ Forall wf s.

Lemma set_sorted_btree s : set_sorted s -> btree_sorted (map (fun x => (x, tt)) s).
Proof.
  induction 1 as [|x s Hs IH Hx]; simpl; constructor; [done|]. by apply Forall_map.
Qed.

Lemma btree_sorted_set (m : list (T * unit)) : btree_sorted m -> set_sorted (map fst m).
Proof.
  induction 1 as [|x s Hs IH Hx]; simpl; constructor; [done|]. by apply Forall_map.
Qed.

Lemma set_from_iter_sorted l : set_sorted (set_from_iter l).
Proof. apply btree_sorted_set, btree_from_iter_sorted. Qed.

Lemma set_from_iter_id s : set_sorted s -> set_from_iter s = s.
Proof.
  intros Hs. unfold set_from_iter. rewrite btree_from_iter_id by by apply set_sorted_btree.
  rewrite map_map. simpl. apply map_id.
Qed.

Lemma set_from_iter_forall l : Forall wf l -> Forall wf (set_from_iter l).
Proof.
  intros Hl. apply Forall_map, btree_from_iter_forall, Forall_map. done.
Qed.

Lemma btree_set_codec_laws `{!CodecLaws E D wf} leaf :
  0 <= leaf -> CodecLaws (btree_set_encode E) (btree_set_decode leaf D) set_wf.
Proof.
  intros Hleaf. pose proof (pointer_codec_laws E D wf). constructor.
  - apply impl_encode_to_laws.
  - apply impl_decode_laws; [by apply words_nonneg|]. apply (collection_decode_wb _ wf).
    + intros len [Hl _]. by apply mem_size_of_btree_nonneg.
    + intros l Hl _. split; [apply set_from_iter_sorted|by apply set_from_iter_forall].
  - intros s bs rest [Hs Hf] Hb. rewrite <- (set_from_iter_id s Hs) at 1.
    by apply (collection_roundtrip _ wf _ _ (pointer_encode E) s bs rest Hf).
  - discriminate.
Qed.
End set_laws.

(** Linked lists *)
Lemma linked_list_codec_laws {T} (E : Encode T) D wf `{!CodecLaws E D wf} node_size :
  0 <= node_size -> CodecLaws (linked_list_encode E) (linked_list_decode node_size D) (Forall wf).
Proof.
  intros Hn. pose proof (pointer_codec_laws E D wf). constructor.
  - apply impl_encode_to_laws.
  - apply impl_decode_laws; [by apply words_nonneg|]. apply (collection_decode_wb _ wf); [|done].
    intros len [Hl _]. unfold saturating_mul_usize. pose proof usize_max_ge. apply Z.min_glb; nia.
  - intros l bs rest Hf Hb. by apply (collection_roundtrip _ wf _ id (pointer_encode E) l bs rest Hf).
  - discriminate.
Qed.

Lemma linked_list_canonical {T} (E : Encode T) D `{!Canonical E D} node_size :
  Canonical (linked_list_encode E) (linked_list_decode node_size D).
Proof.
  intros i l i' Hrun.
  apply run_collection_decode in Hrun as (len & j & l' & [Hn ->]%decode_len_inv & Hl & ->).
  apply (decode_items_canonical E D) in Hl as (l & bs & -> & Hlen & Hb & ->). unfold id. rewrite app_nil_l.
  assert (zlen l = len) as <- by (unfold zlen; lia).
  exists (compact_spec (zlen l) ++ bs). rewrite <- app_assoc. split; [|done].
  apply wbytes_wseq_done. exists (compact_spec (zlen l)), bs. split; [|done].
  apply wbytes_encode_len; [apply zlen_nonneg|]. by destruct Hn.
Qed.

(** Deques *)
Section deque_laws.
Context {T : Type} (E : Encode T) (D : Decode T) (wf : T -> Prop) (fits : vec_fits (D_size_of D)).

(** The items of a deque, in order. *)
Definition deque_items (self : VecDeque T) : list T := self.1 ++ self.2.

Lemma vec_deque_encode_items `{!EncodeLaws E wf} d bs :
  Forall wf (deque_items d) ->
  wbytes (vec_deque_encode_to E d) = Done bs <-> wbytes (slice_encode_to E (deque_items d)) = Done bs.
Proof.
  intros Hd. pose proof Hd as Hd'. unfold deque_items in Hd'. apply Forall_app in Hd' as [H1 H2].
  rewrite (wbytes_slice E wf) by done. unfold vec_deque_encode_to.
  rewrite wbytes_wseq_done. setoid_rewrite wbytes_wseq_done.
  rewrite !(encode_slice_no_len_items E wf) by done.
  setoid_rewrite wbytes_encode_len; [|unfold deque_len, zlen; lia].
  unfold deque_items. rewrite zlen_app. fold (deque_len d). setoid_rewrite wfor_app. naive_solver.
Qed.

(** However the ring buffer is split, the items come back. *)
Lemma vec_deque_roundtrip `{!CodecLaws E D wf} d bs rest :
  Forall wf (deque_items d) -> wbytes (vec_deque_encode_to E d) = Done bs ->
  run (decode (vec_deque_decode D)) (bs ++ rest) = Done (Ok (deque_items d, []), rest).
Proof.
  intros Hd Hb. apply vec_deque_encode_items in Hb; [|done].
  cbn [decode vec_deque_decode impl_decode]. rewrite run_try_bind. cbn [decode vec_decode impl_decode].
  by rewrite (vec_roundtrip E D wf fits _ bs rest Hd Hb).
Qed.

Lemma vec_deque_codec_laws `{!CodecLaws E D wf} :
  CodecLaws (vec_deque_encode E) (vec_deque_decode D) (fun d => Forall wf d.1 /\ d.2 = []).
Proof.
  constructor.
  - apply impl_encode_to_laws.
  - apply impl_decode_laws; [by apply words_nonneg|].
    eapply wb_try; [apply (decode_wb (DecodeLaws := vec_decode_laws D wf fits))|].
    intros v Hv. by apply wb_done.
  - intros [l1 l2] bs rest [H1 H2] Hb. simpl in H1, H2. subst.
    rewrite <- (app_nil_r l1). apply (vec_deque_roundtrip (l1, [])); [|done].
    unfold deque_items. simpl. by rewrite app_nil_r.
  - discriminate.
Qed.

Lemma vec_deque_canonical `{!CodecLaws E D wf, !Canonical E D} :
  Canonical (vec_deque_encode E) (vec_deque_decode D).
Proof.
  intros i d i' Hrun. apply run_try_bind_ok in Hrun as (v & j & Hv & Hd). simpl in Hd. simplify_eq.
  pose proof (decode_wf (vec_decode D) (Forall wf) (DecodeLaws0 := vec_decode_laws D wf fits) _ _ _ Hv) as Hwf.
  apply (vec_canonical E D wf fits) in Hv as (bs & Hb & ->). exists bs. split; [|done].
  apply vec_deque_encode_items; unfold deque_items; simpl; rewrite app_nil_r; done.
Qed.
End deque_laws.
End laws.
