(* ===== verification/Heap.v ===== *)
(** * Binary heaps ([src/src/codec.rs])

    A [BinaryHeap<T>] is encoded in the order of its buffer and decoded as a
    vector that is turned into a heap in place.  A heap is the list of the items
    of its buffer; [rebuild] is the algorithm of the standard library's
    [From<Vec<T>>]. *)

From S2P Require Import Prelude Ints Errors Input Discipline Output Traits Primitives Compact.
From S2P Require Import CompactTheory Sequences SequencesTheory Composite Collections.

Section heap.
Context {T : Type} `{Ord T}.

(** [x <= y] and [x < y] of [PartialOrd]. *)
Definition ord_le (x y : T) : bool := match cmp x y with Gt => false | _ => true end.
Definition ord_lt (x y : T) : bool := match cmp x y with Lt => true | _ => false end.

Definition swap (i j : nat) (l : list T) : list T :=
  match l !! i, l !! j with
  | Some a, Some b => <[i := b]> (<[j := a]> l)
  | _, _ => l
  end.

(** [sift_down]: while the item at [pos] is smaller than the greater of its two
    children, they change places; an only child is the last item. *)
Fixpoint sift_down (fuel pos : nat) (l : list T) : list T :=
  match fuel with
  | O => l
  | S fuel =>
      let child := (2 * pos + 1)%nat in
      match l !! pos, l !! child, l !! S child with
      | Some x, Some a, Some b =>
          let greater := if ord_le a b then S child else child in
          let y := if ord_le a b then b else a in
          if ord_le y x then l else sift_down fuel greater (swap pos greater l)
      | Some x, Some a, None => if ord_lt x a then swap pos child l else l
      | _, _, _ => l
      end
  end.

(** [rebuild]: the inner nodes, from the last one to the root. *)
Fixpoint rebuild_from (n : nat) (l : list T) : list T :=
  match n with
  | O => l
  | S n => rebuild_from n (sift_down (length l) n l)
  end.

Definition rebuild (l : list T) : list T := rebuild_from (length l / 2) l.
End heap.

Section codec.
Context `{Target}.

Definition binary_heap_encode {T} (E : Encode T) : Encode (list T) :=
  collection_encode (words 3) (E_size_of E) (pointer_encode E).

Definition binary_heap_decode {T} `{Ord T} (D : Decode T) : Decode (list T) :=
  impl_decode (words 3) (v ⇐ decode (vec_decode D); ok (rebuild v)).
End codec.

(** ** The heap invariant *)

Definition is_child (i j : nat) : Prop := j = (2 * i + 1)%nat \/ j = (2 * i + 2)%nat.

Section heap_theory.
Context {T : Type} `{Ord T}.

(** No node from [k] on is smaller than its children, [hole] excepted; the
    parent of [hole] is not smaller than the children of [hole]. *)
Definition heap_but (k hole : nat) (l : list T) : Prop :=
  (forall i j a b, (k <= i)%nat -> i <> hole -> is_child i j ->
     l !! i = Some a -> l !! j = Some b -> ord_le b a = true) /\
  (forall i j a b, (k <= i)%nat -> is_child i hole -> is_child hole j ->
     l !! i = Some a -> l !! j = Some b -> ord_le b a = true).

Definition heap_from (k : nat) (l : list T) : Prop :=
  forall i j a b, (k <= i)%nat -> is_child i j ->
    l !! i = Some a -> l !! j = Some b -> ord_le b a = true.

Definition is_heap (l : list T) : Prop := heap_from 0 l.

Lemma ord_le_total (x y : T) : ord_le x y = false -> ord_le y x = true.
Proof. unfold ord_le. rewrite (cmp_opp x y). by destruct (cmp x y). Qed.

Lemma ord_le_lt (x y : T) : ord_lt x y = negb (ord_le y x).
Proof. unfold ord_le, ord_lt. rewrite (cmp_opp x y). by destruct (cmp x y). Qed.

Lemma ord_le_refl (x : T) : ord_le x x = true.
Proof. unfold ord_le. by rewrite (proj2 (cmp_eq x x) eq_refl). Qed.

Lemma ord_le_trans (x y z : T) : ord_le x y = true -> ord_le y z = true -> ord_le x z = true.
Proof.
  unfold ord_le. destruct (cmp x y) eqn:Hxy; try done.
  - by apply cmp_eq in Hxy as ->.
  - destruct (cmp y z) eqn:Hyz; try done.
    + apply cmp_eq in Hyz as <-. by rewrite Hxy.
    + by rewrite (cmp_lt_trans x y z).
Qed.

Lemma is_child_parent i i' j : is_child i j -> is_child i' j -> i = i'.
Proof. unfold is_child. lia. Qed.

Lemma is_child_lt i j : is_child i j -> (i < j)%nat.
Proof. unfold is_child. lia. Qed.

(** ** Items are only moved around *)

Lemma swap_perm i j (l : list T) : swap i j l ≡ₚ l.
Proof.
  unfold swap. destruct (l !! i) as [a|] eqn:Hi, (l !! j) as [b|] eqn:Hj; try done.
  by apply Permutation_insert_swap.
Qed.

Lemma length_swap i j (l : list T) : length (swap i j l) = length l.
Proof. apply Permutation_length, swap_perm. Qed.

Lemma lookup_swap i j (l : list T) a b n :
  l !! i = Some a -> l !! j = Some b -> i <> j ->
  swap i j l !! n = if decide (n = i) then Some b else if decide (n = j) then Some a else l !! n.
Proof.
  intros Hi Hj Hij. unfold swap. rewrite Hi, Hj.
  pose proof (lookup_lt_Some _ _ _ Hi). pose proof (lookup_lt_Some _ _ _ Hj).
  rewrite list_lookup_insert, length_insert, list_lookup_insert.
  repeat case_decide; naive_solver.
Qed.

Lemma sift_down_perm fuel pos (l : list T) : sift_down fuel pos l ≡ₚ l.
Proof.
  revert pos l. induction fuel as [|fuel IH]; intros pos l; [done|]. cbn [sift_down].
  repeat case_match; try done; solve [by rewrite IH, swap_perm | by rewrite swap_perm].
Qed.

Lemma rebuild_from_perm n (l : list T) : rebuild_from n l ≡ₚ l.
Proof. revert l. induction n as [|n IH]; intros l; [done|]. simpl. by rewrite IH, sift_down_perm. Qed.

Lemma rebuild_perm (l : list T) : rebuild l ≡ₚ l.
Proof. apply rebuild_from_perm. Qed.

(** ** A heap stays as it is *)

Lemma sift_down_id fuel pos (l : list T) : is_heap l -> sift_down fuel pos l = l.
Proof.
  intros Hl. destruct fuel as [|fuel]; [done|]. cbn [sift_down].
  destruct (l !! pos) as [x|] eqn:Hx; [|done].
  destruct (l !! (2 * pos + 1)%nat) as [a|] eqn:Ha; [|done].
  assert (ord_le a x = true) as Hax by (apply (Hl pos (2 * pos + 1)%nat x a); [lia|by left|done|done]).
  destruct (l !! S (2 * pos + 1)) as [b|] eqn:Hb; [|by rewrite ord_le_lt, Hax].
  assert (ord_le b x = true) as Hbx
    by (apply (Hl pos (S (2 * pos + 1)) x b); [lia|right; lia|done|done]).
  by destruct (ord_le a b); rewrite ?Hax, ?Hbx.
Qed.

Lemma rebuild_id (l : list T) : is_heap l -> rebuild l = l.
Proof.
  intros Hl. unfold rebuild. induction (length l / 2)%nat as [|n IH]; [done|].
  simpl. by rewrite sift_down_id.
Qed.

(** ** Every vector becomes a heap *)

(** When the node in question is not smaller than its children, all is well. *)
Lemma heap_but_done k p (l : list T) :
  heap_but k p l ->
  (forall j a b, is_child p j -> l !! p = Some a -> l !! j = Some b -> ord_le b a = true) ->
  heap_from k l.
Proof.
  intros [Hl _] Hp i j a b Hk Hij Hi Hj. destruct (decide (i = p)) as [->|]; eauto.
Qed.

(** Exchanging the node with its greatest child moves the exception down. *)
Lemma heap_but_swap k p c (l : list T) x y :
  heap_but k p l -> (k <= p)%nat -> is_child p c -> l !! p = Some x -> l !! c = Some y ->
  ord_le x y = true ->
  (forall j b, is_child p j -> l !! j = Some b -> ord_le b y = true) ->
  heap_but k c (swap p c l).
Proof.
  intros [Hl Hgrand] Hk Hc Hx Hy Hxy Hmax. pose proof (is_child_lt _ _ Hc) as Hlt.
  assert (p <> c) as Hpc by lia. split.
  - intros i j a b Hki Hic Hij. pose proof (is_child_lt _ _ Hij) as Hlt'.
    rewrite !(lookup_swap p c l x y) by done.
    destruct (decide (i = p)) as [->|Hip]; [|rewrite (decide_False (P := i = c)) by done].
    + intros [= <-]. rewrite (decide_False (P := j = p)) by lia.
      destruct (decide (j = c)) as [->|]; [by intros [= <-]|by apply Hmax].
    + intros Hi. destruct (decide (j = p)) as [->|].
      * intros [= <-]. by apply (Hgrand i c a y).
      * destruct (decide (j = c)) as [->|]; [by pose proof (is_child_parent _ _ _ Hij Hc)|].
        by apply (Hl i j a b).
  - intros i j a b Hki Hic Hcj. pose proof (is_child_parent _ _ _ Hic Hc) as ->.
    pose proof (is_child_lt _ _ Hcj). rewrite !(lookup_swap p c l x y) by done.
    rewrite (decide_True (P := p = p)), !decide_False by (done || lia). intros [= <-] Hj.
    apply (Hl c j y b); (done || lia).
Qed.

Lemma sift_down_heap fuel k p (l : list T) :
  (length l <= fuel + p)%nat -> (k <= p)%nat -> heap_but k p l -> heap_from k (sift_down fuel p l).
Proof.
  revert p l. induction fuel as [|fuel IH]; intros p l Hf Hk Hl.
  { apply (heap_but_done k p); [done|]. intros j a b _ Hp%lookup_lt_Some _. simpl in Hp. lia. }
  cbn [sift_down]. set (child := (2 * p + 1)%nat).
  assert (forall j, is_child p j <-> j = child \/ j = S child) as Hch
    by (intros j; unfold is_child, child; lia).
  destruct (l !! p) as [x|] eqn:Hx;
    [|apply (heap_but_done k p); [done|]; intros; congruence].
  destruct (l !! child) as [a|] eqn:Ha.
  2: { apply (heap_but_done k p); [done|]. intros j ? b [-> | ->]%Hch _ Hb; [congruence|].
       apply lookup_lt_Some in Hb. apply lookup_ge_None in Ha. lia. }
  destruct (l !! S child) as [b|] eqn:Hb.
  - set (c := if ord_le a b then S child else child). set (y := if ord_le a b then b else a).
    assert (l !! c = Some y) as Hy by (unfold c, y; by destruct (ord_le a b)).
    assert (is_child p c) as Hc by (apply Hch; unfold c; destruct (ord_le a b); auto).
    assert (forall j z, is_child p j -> l !! j = Some z -> ord_le z y = true) as Hmax.
    { intros j z [-> | ->]%Hch Hz; simplify_eq; unfold y; destruct (ord_le a b) eqn:Hab;
        auto using ord_le_refl, ord_le_total. }
    destruct (ord_le y x) eqn:Hyx.
    + apply (heap_but_done k p); [done|]. intros j a' b' Hj ? Hb'. simplify_eq.
      by apply (ord_le_trans _ y), Hyx; eauto.
    + apply IH; [rewrite length_swap; pose proof (is_child_lt _ _ Hc); lia|pose proof (is_child_lt _ _ Hc); lia|].
      apply (heap_but_swap k p c l x y); try done. by apply ord_le_total.
  - rewrite ord_le_lt. destruct (ord_le a x) eqn:Hax; simpl.
    + apply (heap_but_done k p); [done|]. intros j a' b' [-> | ->]%Hch; congruence.
    + apply (heap_but_done k child).
      * apply (heap_but_swap k p child l x a); [done|done|apply Hch; auto|done|done|by apply ord_le_total|].
        intros j z [-> | ->]%Hch Hz; simplify_eq. apply ord_le_refl.
      * intros j a' b' Hj _ Hb'. apply lookup_lt_Some in Hb'. rewrite length_swap in Hb'.
        apply lookup_ge_None in Hb. apply is_child_lt in Hj. lia.
Qed.

Lemma rebuild_from_heap n (l : list T) : heap_from n l -> is_heap (rebuild_from n l).
Proof.
  revert l. induction n as [|n IH]; intros l Hl; [done|]. simpl. apply IH, sift_down_heap; [lia|done|].
  split.
  - intros i j a b Hi Hin. apply Hl. lia.
  - intros i j a b Hi Hin%is_child_lt. lia.
Qed.

Lemma rebuild_heap (l : list T) : is_heap (rebuild l).
Proof.
  apply rebuild_from_heap. intros i j a b Hi Hij _ Hj%lookup_lt_Some.
  pose proof (Nat.div_mod_eq (length l) 2). pose proof (Nat.mod_upper_bound (length l) 2).
  unfold is_child in Hij. lia.
Qed.
End heap_theory.

(** ** Laws *)

Section laws.
Context `{Target} {T : Type} `{Ord T} (E : Encode T) (D : Decode T) (wf : T -> Prop).
Context (fits : vec_fits (D_size_of D)).

Definition heap_wf (l : list T) : Prop := is_heap l /\ Forall wf l.

(** The bytes are those of the vector of the buffer's items. *)
Lemma binary_heap_bytes `{!EncodeLaws E wf} l :
  Forall wf l ->
  wbytes (encode_to (binary_heap_encode E) l) = wbytes (encode_to (vec_encode E) l).
Proof.
  intros Hl. cbn [encode_to binary_heap_encode collection_encode vec_encode impl_forward slice_encode
    impl_encode_to]. unfold collection_encode_to, slice_encode_to, id. rewrite !wbytes_wseq.
  by rewrite (encode_slice_no_len_items E wf).
Qed.

(** What is decoded is the heap made of the items of the vector. *)
Lemma run_binary_heap_decode i l i' :
  run (decode (binary_heap_decode D)) i = Done (Ok l, i') <->
  exists v, run (decode (vec_decode D)) i = Done (Ok v, i') /\ l = rebuild v.
Proof.
  cbn [decode binary_heap_decode impl_decode]. rewrite run_try_bind_ok. simpl. naive_solver.
Qed.

Lemma binary_heap_codec_laws `{!CodecLaws E D wf} :
  CodecLaws (binary_heap_encode E) (binary_heap_decode D) heap_wf.
Proof.
  pose proof (vec_codec_laws E D wf fits) as HV. constructor.
  - apply impl_encode_to_laws.
  - apply impl_decode_laws; [by apply words_nonneg|].
    eapply wb_try; [apply (decode_wb (DecodeLaws := codec_decode (CodecLaws := HV)))|].
    intros v Hv. apply wb_done. split; [apply rebuild_heap|].
    by rewrite rebuild_perm.
  - intros l bs rest [Hh Hl] Hb. rewrite binary_heap_bytes in Hb by done.
    apply run_binary_heap_decode. exists l. split; [by apply (roundtrip (CodecLaws := HV))|].
    by rewrite rebuild_id.
  - discriminate.
Qed.
End laws.
