(* ===== verification/EncodeLike.v ===== *)
(** * [EncodeLike] ([src/src/encode_like.rs], [src/src/codec.rs])

    [X: EncodeLike<T>] says that a value of [X] is encoded to the representation
    of a value of [T].  The marker has no code; here it is a relation between the
    values of the two types that their encoders respect, proved for the
    implementations that the crate declares. *)

From S2P Require Import Prelude Ints Errors Input Discipline Output Traits Primitives Compact.
From S2P Require Import CompactTheory Sequences SequencesTheory Composite Collections Heap.

(** [like x t]: the value [x] stands for the value [t]. *)
Class EncodeLike `{Target} {X T} (EX : Encode X) (wfX : X -> Prop) (ET : Encode T) (wfT : T -> Prop)
    (like : X -> T -> Prop) : Prop := {
  like_wf x t : like x t -> wfX x /\ wfT t;
  like_bytes x t : like x t -> wbytes (encode_to EX x) = wbytes (encode_to ET t);
}.

Section like.
Context `{Target}.

(** [struct Ref<'a, T, U>(&'a T, PhantomData<U>)] forwards to the value. *)
Definition ref_encode {T} (E : Encode T) : Encode T := impl_forward (words 1) id E.

(** What the marker is for: an encoded value of [X] decodes as the value of [T]
    that it stands for. *)
Lemma like_decodes {X T} (EX : Encode X) wfX (ET : Encode T) D wfT like
    `{!EncodeLaws EX wfX, !CodecLaws ET D wfT, !EncodeLike EX wfX ET wfT like} x t bs rest :
  like x t -> encode EX x = Done bs -> run (decode D) (bs ++ rest) = Done (Ok t, rest).
Proof.
  intros Hl Hb. destruct (like_wf x t Hl) as [_ Ht]. apply (encode_sound (EncodeLaws := EncodeLaws0)) in Hb.
  rewrite (like_bytes x t Hl) in Hb. by apply (roundtrip (CodecLaws := CodecLaws0)).
Qed.

Lemma like_refl {T} (E : Encode T) wf : EncodeLike E wf E wf (fun x y => x = y /\ wf x).
Proof. by split; intros x t [-> ?]. Qed.

(** [&T], [&mut T], [Box<T>], [Rc<T>], [Arc<T>] and [Ref], on either side. *)
Lemma like_forward {X T} (EX : Encode X) wfX (ET : Encode T) wfT like :
  EncodeLike EX wfX ET wfT like ->
  EncodeLike (pointer_encode EX) wfX ET wfT like /\ EncodeLike EX wfX (pointer_encode ET) wfT like /\
  EncodeLike (ref_encode EX) wfX ET wfT like.
Proof. intros [Hw Hb]. split_and!; by split. Qed.

Lemma like_cow {X O T} borrow (EX : Encode X) wfX (ET : Encode T) wfT like size_of :
  EncodeLike EX wfX ET wfT like ->
  EncodeLike (cow_encode (O := O) size_of borrow EX) (fun c => wfX (cow_deref borrow c)) ET wfT
    (fun c t => like (cow_deref borrow c) t).
Proof. intros [Hw Hb]. split; intros c t Hl; [by apply Hw|by apply Hb]. Qed.

(** Lists of items that stand for each other. *)
Lemma like_items {X T} (EX : Encode X) wfX (ET : Encode T) wfT like xs ts :
  EncodeLike EX wfX ET wfT like -> Forall2 like xs ts ->
  Forall wfX xs /\ Forall wfT ts /\ wbytes (wfor xs (encode_to EX)) = wbytes (wfor ts (encode_to ET)).
Proof.
  intros HE. induction 1 as [|x t xs ts Hl _ (IHx & IHt & IHb)]; [done|].
  destruct (like_wf x t Hl). split_and!; [by constructor..|]. simpl. by rewrite !wbytes_wseq, (like_bytes x t Hl), IHb.
Qed.

(** [Vec<T>] and [&[T]], in any combination. *)
Lemma like_vec {X T} (EX : Encode X) wfX (ET : Encode T) wfT like `{!EncodeLaws EX wfX, !EncodeLaws ET wfT} :
  EncodeLike EX wfX ET wfT like ->
  EncodeLike (vec_encode EX) (Forall wfX) (vec_encode ET) (Forall wfT) (Forall2 like).
Proof.
  intros HE. split; intros xs ts Hl; destruct (like_items _ _ _ _ _ _ _ HE Hl) as (Hx & Ht & Hb); [done|].
  simpl. unfold slice_encode_to, zlen. apply Forall2_length in Hl. rewrite Hl.
  by rewrite !wbytes_wseq, (encode_slice_no_len_items EX wfX), (encode_slice_no_len_items ET wfT), Hb.
Qed.

Lemma like_array {X T} (EX : Encode X) wfX (ET : Encode T) wfT like N `{!EncodeLaws EX wfX, !EncodeLaws ET wfT} :
  EncodeLike EX wfX ET wfT like ->
  EncodeLike (array_encode EX N) (array_wf wfX N) (array_encode ET N) (array_wf wfT N)
    (fun xs ts => Forall2 like xs ts /\ length xs = N).
Proof.
  intros HE. split; intros xs ts [Hl Hn]; destruct (like_items _ _ _ _ _ _ _ HE Hl) as (Hx & Ht & Hb).
  - apply Forall2_length in Hl. split; (split; [done|lia]).
  - simpl. by rewrite (encode_slice_no_len_items EX wfX), (encode_slice_no_len_items ET wfT).
Qed.

Lemma wbytes_wfor_app {A} (l1 l2 : list A) f :
  wbytes (wfor (l1 ++ l2) f) = (a ← wbytes (wfor l1 f); b ← wbytes (wfor l2 f); Done (a ++ b)).
Proof.
  induction l1 as [|x l1 IH]; simpl; [by destruct (wbytes (wfor l2 f))|]. rewrite !wbytes_wseq, IH.
  destruct (wbytes (f x)), (wbytes (wfor l1 f)), (wbytes (wfor l2 f)); simpl; try done. by rewrite app_assoc.
Qed.

(** [VecDeque<T>] and [Vec<T>]. *)
Lemma like_vec_deque {X T} (EX : Encode X) wfX (ET : Encode T) wfT like `{!EncodeLaws EX wfX, !EncodeLaws ET wfT} :
  EncodeLike EX wfX ET wfT like ->
  EncodeLike (vec_deque_encode EX) (fun d => Forall wfX (deque_items d)) (vec_encode ET) (Forall wfT)
    (fun d ts => Forall2 like (deque_items d) ts).
Proof.
  intros HE. split; intros [xs ys] ts Hl; destruct (like_items _ _ _ _ _ _ _ HE Hl) as (Hx & Ht & Hb); [done|].
  simpl. unfold vec_deque_encode_to, slice_encode_to, deque_len, deque_items in *. simpl in *.
  apply Forall2_length in Hl. rewrite length_app in Hl.
  assert (zlen xs + zlen ys = zlen ts) as -> by (unfold zlen; lia). apply Forall_app in Hx as [Hx Hy].
  rewrite !wbytes_wseq, (encode_slice_no_len_items EX wfX xs), (encode_slice_no_len_items EX wfX ys),
    (encode_slice_no_len_items ET wfT ts), <- Hb by done.
  rewrite wbytes_wfor_app. by destruct (wbytes (encode_len _)), (wbytes (wfor xs _)), (wbytes (wfor ys _)).
Qed.

Lemma like_option {X T} size_of size_of' (EX : Encode X) wfX (ET : Encode T) wfT like :
  EncodeLike EX wfX ET wfT like ->
  EncodeLike (option_encode size_of EX) (option_wf wfX) (option_encode size_of' ET) (option_wf wfT)
    (fun x t => match x, t with Some x, Some t => like x t | None, None => True | _, _ => False end).
Proof.
  intros HE. split; intros [x|] [t|] Hl; try done; [exact (like_wf x t Hl)|]. simpl. by rewrite (like_bytes x t Hl).
Qed.

Lemma like_result {X T Y U} size_of size_of' (EX : Encode X) wfX (ET : Encode T) wfT like
    (EY : Encode Y) wfY (EU : Encode U) wfU like' :
  EncodeLike EX wfX ET wfT like -> EncodeLike EY wfY EU wfU like' ->
  EncodeLike (result_encode size_of EX EY) (result_wf wfX wfY) (result_encode size_of' ET EU) (result_wf wfT wfU)
    (fun x t => match x, t with Ok x, Ok t => like x t | Err y, Err u => like' y u | _, _ => False end).
Proof.
  intros HE HF. split; intros [x|y] [t|u] Hl; try done;
    [exact (like_wf x t Hl)|exact (like_wf y u Hl)|..]; simpl;
    [by rewrite (like_bytes x t Hl)|by rewrite (like_bytes y u Hl)].
Qed.

Lemma like_tuple {X T Y U} size_of size_of' (EX : Encode X) wfX (ET : Encode T) wfT like
    (EY : Encode Y) wfY (EU : Encode U) wfU like' :
  EncodeLike EX wfX ET wfT like -> EncodeLike EY wfY EU wfU like' ->
  EncodeLike (tuple_encode size_of EX EY) (tuple_wf wfX wfY) (tuple_encode size_of' ET EU) (tuple_wf wfT wfU)
    (fun x t => like x.1 t.1 /\ like' x.2 t.2).
Proof.
  intros HE HF. split; intros [x y] [t u] [Hl Hl']; simpl in *.
  - destruct (like_wf x t Hl), (like_wf y u Hl'). by repeat split.
  - by rewrite !wbytes_wseq, (like_bytes x t Hl), (like_bytes y u Hl').
Qed.

(** A collection is encoded as the slice of its items: [BTreeSet], [LinkedList]
    and [BinaryHeap]. *)
Lemma like_collection {X T} container size_of (EX : Encode X) wfX (ET : Encode T) wfT like `{!EncodeLaws ET wfT} :
  EncodeLike EX wfX ET wfT like ->
  EncodeLike (collection_encode container size_of (pointer_encode EX)) (Forall wfX) (vec_encode ET) (Forall wfT)
    (Forall2 like).
Proof.
  intros HE. split; intros xs ts Hl; destruct (like_items _ _ _ _ _ _ _ HE Hl) as (Hx & Ht & Hb); [done|].
  simpl. unfold collection_encode_to, slice_encode_to, zlen. apply Forall2_length in Hl. rewrite Hl.
  rewrite !wbytes_wseq, (encode_slice_no_len_items ET wfT), <- Hb by done. done.
Qed.
End like.

Section claims.
Context `{Target}.

(** If the items of one type stand for those of
    another, so do the vectors, slices, arrays, deques, options, results, tuples,
    pointers and collections of them: the bytes are the same although the two
    sides may take different paths (a [Vec<u8>] is written in bulk, a
    [Vec<Box<u8>>] item by item); and the encoding of a value decodes, as the
    other type, to the value it stands for. *)
Lemma encode_like_same_bytes {X T Y U} (EX : Encode X) wfX (ET : Encode T) D wfT like
    (EY : Encode Y) wfY (EU : Encode U) wfU like' :
  EncodeLaws EX wfX -> CodecLaws ET D wfT -> vec_fits (D_size_of D) ->
  EncodeLike EX wfX ET wfT like -> EncodeLike EY wfY EU wfU like' ->
  (forall xs ts bs rest, Forall2 like xs ts -> encode (vec_encode EX) xs = Done bs ->
     run (decode (vec_decode D)) (bs ++ rest) = Done (Ok ts, rest)) /\
  (forall xs ts, Forall2 like xs ts ->
     wbytes (encode_to (linked_list_encode EX) xs) = wbytes (encode_to (vec_encode ET) ts) /\
     forall n, wbytes (encode_to (vec_deque_encode EX) (take n xs, drop n xs)) = wbytes (encode_to (vec_encode ET) ts)) /\
  (forall x t y u, like x t -> like' y u ->
     wbytes (encode_to (tuple_encode 0 EX (pointer_encode EY)) (x, y))
       = wbytes (encode_to (tuple_encode 0 (pointer_encode ET) EU) (t, u)) /\
     wbytes (encode_to (option_encode 0 EX) (Some x)) = wbytes (encode_to (option_encode 0 ET) (Some t)) /\
     wbytes (encode_to (result_encode 0 EY EX) (Err x)) = wbytes (encode_to (result_encode 0 EU ET) (Err t))).
Proof.
  intros HEX HET Hfits Hl Hl'. pose proof (codec_encode (CodecLaws := HET)) as HEL. split_and!.
  - intros xs ts bs rest. pose proof (vec_codec_laws ET D wfT Hfits). pose proof (like_vec EX wfX ET wfT like Hl).
    apply (like_decodes (vec_encode EX) (Forall wfX) (vec_encode ET) (vec_decode D) (Forall wfT) (Forall2 like)).
  - intros xs ts Hx. split.
    + apply (like_bytes (EncodeLike := like_collection (words 3) (E_size_of EX) EX wfX ET wfT like Hl)). done.
    + intros n. apply (like_bytes (EncodeLike := like_vec_deque EX wfX ET wfT like Hl)).
      unfold deque_items. simpl. by rewrite take_drop.
  - intros x t y u Hx Hy. destruct (like_forward _ _ _ _ _ Hl) as (_ & Hl1 & _).
    destruct (like_forward _ _ _ _ _ Hl') as (Hl2 & _ & _). split_and!.
    + by apply (like_bytes (EncodeLike := like_tuple 0 0 _ _ _ _ _ _ _ _ _ _ Hl1 Hl2)).
    + by apply (like_bytes (EncodeLike := like_option 0 0 _ _ _ _ _ Hl)).
    + by apply (like_bytes (EncodeLike := like_result 0 0 _ _ _ _ _ _ _ _ _ _ Hl' Hl)).
Qed.
End claims.

Section examples.
Existing Instance x86_64.

(** [&[(u8, u8)]] is declared to be [EncodeLike<BTreeMap<u8, u8>>]. *)
Definition pair_slice_encode : Encode (list (Z * Z)) :=
  vec_encode (tuple_encode 2 (prim_encode U8) (prim_encode U8)).

(** A slice of pairs is declared to be [EncodeLike] a map, but the encoding of a
    slice whose keys are not in increasing order is not the encoding of any map. *)
Lemma unsorted_slice_not_like_map :
  encode pair_slice_encode [(2, 0); (1, 0)] = Done [x08; x02; x00; x01; x00] /\
  forall m, map_wf (in_range U8) (in_range U8) m ->
    wbytes (encode_to (btree_map_encode 2 (prim_encode U8) (prim_encode U8)) m) <> Done [x08; x02; x00; x01; x00].
Proof.
  split; [reflexivity|]. intros m Hm Hb.
  pose proof (btree_map_codec_laws (prim_encode U8) (prim_encode U8) (prim_decode U8) (prim_decode U8)
    (in_range U8) (in_range U8) 2 2 36 ltac:(done) ltac:(done)) as HL.
  pose proof (roundtrip (CodecLaws := HL) m _ [] Hm Hb) as Hrun. vm_compute in Hrun. injection Hrun as <-.
  vm_compute in Hb. discriminate.
Qed.

(** C31: [EncodeLike] is what it says.  If the items of one type stand for those of
    another, so do the vectors, slices, deques, lists, options, results, tuples
    and pointers of them: the bytes are the same although the two sides may take
    different paths (a [Vec<u8>] is written in bulk, a [Vec<Box<u8>>] item by
    item), and the encoding of a value decodes, as the other type, to the value it
    stands for.  The declaration that a slice of pairs is [EncodeLike] a map is the
    exception: for keys that are not increasing, it is not the encoding of a map. *)
Theorem encode_like_spec :
  (forall `{Target} {X T Y U} (EX : Encode X) wfX (ET : Encode T) D wfT like
      (EY : Encode Y) wfY (EU : Encode U) wfU like',
   EncodeLaws EX wfX -> CodecLaws ET D wfT -> vec_fits (D_size_of D) ->
   EncodeLike EX wfX ET wfT like -> EncodeLike EY wfY EU wfU like' ->
   (forall xs ts bs rest, Forall2 like xs ts -> encode (vec_encode EX) xs = Done bs ->
      run (decode (vec_decode D)) (bs ++ rest) = Done (Ok ts, rest)) /\
   (forall xs ts, Forall2 like xs ts ->
      wbytes (encode_to (linked_list_encode EX) xs) = wbytes (encode_to (vec_encode ET) ts) /\
      forall n, wbytes (encode_to (vec_deque_encode EX) (take n xs, drop n xs)) = wbytes (encode_to (vec_encode ET) ts)) /\
   (forall x t y u, like x t -> like' y u ->
      wbytes (encode_to (tuple_encode 0 EX (pointer_encode EY)) (x, y))
        = wbytes (encode_to (tuple_encode 0 (pointer_encode ET) EU) (t, u)) /\
      wbytes (encode_to (option_encode 0 EX) (Some x)) = wbytes (encode_to (option_encode 0 ET) (Some t)) /\
      wbytes (encode_to (result_encode 0 EY EX) (Err x)) = wbytes (encode_to (result_encode 0 EU ET) (Err t)))) /\
  encode pair_slice_encode [(2, 0); (1, 0)] = Done [x08; x02; x00; x01; x00] /\
  forall m, map_wf (in_range U8) (in_range U8) m ->
    wbytes (encode_to (btree_map_encode 2 (prim_encode U8) (prim_encode U8)) m) <> Done [x08; x02; x00; x01; x00].
Proof. split; [apply @encode_like_same_bytes|apply unsorted_slice_not_like_map]. Qed.

Lemma encode_like_spec_witness :
  run (decode (vec_decode (prim_decode U8))) ([x08; x01; x02] ++ []) = Done (Ok [1; 2], []).
Proof.
  destruct (like_forward _ _ _ _ _ (like_refl (prim_encode U8) (in_range U8))) as (Hl & _ & _).
  pose proof (pointer_codec_laws (prim_encode U8) (prim_decode U8) (in_range U8)).
  refine (proj1 (proj1 encode_like_spec x86_64 _ _ _ _ (pointer_encode (prim_encode U8)) (in_range U8) (prim_encode U8) (prim_decode U8)
    (in_range U8) _ (pointer_encode (prim_encode U8)) (in_range U8) (prim_encode U8) (in_range U8) _
    codec_encode (prim_codec_laws U8) ltac:(by apply vec_fits_64) Hl Hl) [1; 2] [1; 2] [x08; x01; x02] [] _ _);
    [by repeat constructor|reflexivity].
Defined.
End examples.
