(* ===== verification/BitVec.v ===== *)
(** * Types of other crates ([src/src/bit_vec.rs], [src/src/generic_array.rs])

    [BitSlice], [BitVec] and [BitBox] of the crate [bitvec] are the list of their
    bits, [GenericArray] is the list of its items.  What those crates do with the
    elements is given by classes: their operations are parameters, with what their
    documentation says of them. *)

From S2P Require Import Prelude Ints Errors Input Discipline Output Traits Primitives Compact.
From S2P Require Import CompactTheory Sequences SequencesTheory Composite.

(** ** [bitvec] *)

(** A storage type [T] with the order [O] of the bits in it. *)
Class BitStore (T : Type) : Type := {
  (** [size_of::<T>() * 8]. *)
  elt_bits : nat;
  (** [T::ZERO] with the bits copied to the front of its [view_bits_mut::<O>()]. *)
  from_bits : list bool -> T;
  (** [view_bits::<O>()]. *)
  view_bits : T -> list bool;
  (** [bitvec::mem::elts]: the number of elements that hold so many bits. *)
  elts : Z -> Z;
  (** [BitVec::try_from_vec], and the number of elements it takes. *)
  MAX_ELTS : Z;
  try_from_vec : list T -> option (list bool);
}.

Class BitStoreLaws (T : Type) `{BitStore T} : Prop := {
  elt_bits_pos : (8 <= elt_bits)%nat;
  view_bits_length x : length (view_bits x) = elt_bits;
  view_from_bits bits : (length bits <= elt_bits)%nat ->
    view_bits (from_bits bits) = bits ++ repeat false (elt_bits - length bits);
  elts_spec bits : 0 <= bits -> (elts bits - 1) * Z.of_nat elt_bits < bits <= elts bits * Z.of_nat elt_bits;
  try_from_vec_spec v : try_from_vec v = if zlen v <=? MAX_ELTS then Some (concat (map view_bits v)) else None;
}.

(** [slice.chunks(n)]. *)
Fixpoint chunks_fuel {A} (fuel n : nat) (l : list A) : list (list A) :=
  match fuel, l with
  | S fuel, _ :: _ => take n l :: chunks_fuel fuel n (drop n l)
  | _, _ => []
  end.

Definition chunks {A} (n : nat) (l : list A) : list (list A) := chunks_fuel (length l) n l.

(** Equivalent of [BitStore::MAX_BITS] on 32bit machine. *)
Definition ARCH32BIT_BITSLICE_MAX_BITS : Z := 0x1fffffff.

Section bitvec.
Context `{Target} {T : Type} `{BitStore T}.

Definition bitslice_encode_to (E : Encode T) (self : list bool) : wprog :=
  if zlen self <=? ARCH32BIT_BITSLICE_MAX_BITS then
    encode_to (compact_encode CU32) (wrap U32 (zlen self)) ;;;
    wfor (chunks elt_bits self) (fun chunk => encode_to E (from_bits chunk))
  else WPanic "Attempted to encode a BitSlice with too many bits.".

Definition bitslice_encode (E : Encode T) : Encode (list bool) :=
  impl_encode_to (words 2) default_size_hint (bitslice_encode_to E).

(** [self.as_bitslice().encode_to(dest)]. *)
Definition bitvec_encode (E : Encode T) : Encode (list bool) :=
  impl_encode_to (words 3) default_size_hint (encode_to (bitslice_encode E)).

Definition bitbox_encode (E : Encode T) : Encode (list bool) :=
  impl_encode_to (words 2) default_size_hint (encode_to (bitslice_encode E)).

Definition bitvec_decode_fn (D : Decode T) : dec (list bool) :=
  bits ⇐ decode_len;
  if ARCH32BIT_BITSLICE_MAX_BITS <? bits then throw "Attempt to decode a BitVec with too many bits"
  else
    vec ⇐ decode_vec_with_len D (elts bits);
    match try_from_vec vec with
    | None => throw "UNEXPECTED ERROR: `bits` is less or equal to `ARCH32BIT_BITSLICE_MAX_BITS`; So BitVec must be able to handle the number of segment needed for `bits` to be represented; qed"
    | Some result =>
        if bits <=? zlen result then ok (take (Z.to_nat bits) result)
        else Halt "assertion failed: bits as usize <= result.len()"
    end.

Definition bitvec_decode (D : Decode T) : Decode (list bool) := impl_decode (words 3) (bitvec_decode_fn D).

Definition bitbox_decode (D : Decode T) : Decode (list bool) :=
  impl_decode (words 2) (v ⇐ decode (bitvec_decode D); ok v).
End bitvec.

(** ** [generic_array] *)

(** [GenericArray::from_exact_iter], for arrays of [N] items. *)
Class GenericArray (T : Type) (N : nat) : Type := {
  from_exact_iter : list T -> option (list T);
  from_exact_iter_spec l : from_exact_iter l = if Nat.eqb (length l) N then Some l else None;
}.

Section generic_array.
Context `{Target} {T : Type} {N : nat} `{!GenericArray T N}.

Definition generic_array_encode (E : Encode T) : Encode (list T) :=
  impl_encode_to (E_size_of E * Z.of_nat N) default_size_hint (fun self => wfor self (encode_to E)).

(** [Vec::with_capacity(L::to_usize())] panics like [reserve_exact]. *)
Definition generic_array_decode_fn (D : Decode T) : dec (list T) :=
  _ ⇐ reserve_exact (D_size_of D) (@nil T) (Z.of_nat N);
  r ⇐ decode_items (decode D) N [];
  match from_exact_iter r with
  | Some a => ok a
  | None => throw "array length does not match definition"
  end.

Definition generic_array_decode (D : Decode T) : Decode (list T) :=
  impl_decode (D_size_of D * Z.of_nat N) (generic_array_decode_fn D).
End generic_array.

(** ** Chunks *)

Lemma chunks_fuel_concat {A} fuel n (l : list A) : (1 <= n)%nat -> (length l <= fuel)%nat -> concat (chunks_fuel fuel n l) = l.
Proof.
  intros Hn. revert l. induction fuel as [|fuel IH]; intros [|x l] Hl; simpl in *; try done; [lia|].
  rewrite IH; [destruct n; [lia|]; by rewrite (take_drop (S n) (x :: l))|].
  destruct n; [lia|]. simpl. rewrite length_drop. lia.
Qed.

Lemma chunks_fuel_length {A} fuel n (l : list A) : (1 <= n)%nat -> (length l <= fuel)%nat ->
  (length l <= n * length (chunks_fuel fuel n l) < length l + n)%nat.
Proof.
  intros Hn. revert l. induction fuel as [|fuel IH]; intros [|x l] Hl; simpl in *; try lia.
  destruct n as [|n]; [lia|]. specialize (IH (drop n l)). rewrite length_drop in IH.
  cbn [drop]. specialize (IH ltac:(lia)). set (k := length (chunks_fuel _ _ _)) in *.
  destruct (le_lt_dec n (length l)); [nia|]. assert (k = 0)%nat by nia. lia.
Qed.

Lemma chunks_fuel_bound {A} fuel n (l : list A) : Forall (fun c => length c <= n)%nat (chunks_fuel fuel n l).
Proof.
  revert l. induction fuel as [|fuel IH]; intros [|x l]; simpl; constructor; [|apply IH].
  rewrite length_take. lia.
Qed.

(** ** Bit vectors *)

Section bitvec_theory.
Context `{Target} {T : Type} `{BitStoreLaws T}.
Context (E : Encode T) (D : Decode T) (wf : T -> Prop) `{!CodecLaws E D wf}.
Context (fits : vec_fits (D_size_of D)) (wf_from_bits : forall bits, wf (from_bits bits)).

(** The bits that can be represented. *)
Definition bits_wf (bits : list bool) : Prop :=
  zlen bits <= ARCH32BIT_BITSLICE_MAX_BITS /\ elts (zlen bits) <= MAX_ELTS.

Lemma elts_bounds bits : 0 <= bits <= ARCH32BIT_BITSLICE_MAX_BITS -> 0 <= elts bits <= prim_max U32.
Proof.
  intros Hb. pose proof (elts_spec bits ltac:(lia)). pose proof elt_bits_pos.
  change (prim_max U32) with 4294967295. unfold ARCH32BIT_BITSLICE_MAX_BITS in Hb. split; nia.
Qed.

(** The elements hold the bits, and zeros after them. *)
Lemma view_chunks (bits : list bool) :
  exists pad, concat (map view_bits (map from_bits (chunks elt_bits bits))) = bits ++ pad.
Proof.
  pose proof elt_bits_pos as Hpos. unfold chunks.
  assert (forall fuel l, (length l <= fuel)%nat ->
    exists pad, concat (map view_bits (map from_bits (chunks_fuel fuel elt_bits l))) = l ++ pad) as Hl; [|by apply Hl].
  induction fuel as [|fuel IH]; intros [|x l] Hl; try (by exists []); [simpl in Hl; lia|]. cbn [chunks_fuel map concat].
  rewrite view_from_bits by (rewrite length_take; lia). destruct (decide (elt_bits <= length (x :: l))%nat) as [Hle|Hlt].
  - destruct (IH (drop elt_bits (x :: l))) as [pad ->]; [rewrite length_drop; simpl in *; lia|].
    exists pad. rewrite length_take, Nat.min_l, Nat.sub_diag by done. simpl repeat.
    rewrite app_nil_r, app_assoc. by rewrite take_drop.
  - rewrite take_ge, drop_ge by lia. destruct fuel; simpl; rewrite app_nil_r; by eexists.
Qed.

Lemma length_chunks (bits : list bool) : Z.of_nat (length (chunks elt_bits bits)) = elts (zlen bits).
Proof.
  pose proof elt_bits_pos. pose proof (elts_spec (zlen bits) (zlen_nonneg _)).
  pose proof (chunks_fuel_length (length bits) elt_bits bits ltac:(lia) ltac:(lia)) as Hl.
  unfold chunks, zlen in *. nia.
Qed.

Lemma length_view v : zlen (concat (map view_bits v)) = zlen v * Z.of_nat elt_bits.
Proof. unfold zlen. induction v as [|x v IH]; simpl; [done|]. rewrite length_app, view_bits_length. lia. Qed.

Lemma wfor_map {A B} (f : A -> B) l to : wfor (map f l) to = wfor l (fun x => to (f x)).
Proof. induction l as [|x l IH]; simpl; [done|]. by rewrite IH. Qed.

(** What a decoder of bit vectors makes of the elements. *)
Lemma run_bitvec_decode i bits j v :
  0 <= bits <= ARCH32BIT_BITSLICE_MAX_BITS -> elts bits <= MAX_ELTS ->
  run decode_len i = Done (Ok bits, j) ->
  (exists k, run (decode_items (decode D) (Z.to_nat (elts bits)) []) j = Done (Ok v, k)) ->
  exists k, run (decode_items (decode D) (Z.to_nat (elts bits)) []) j = Done (Ok v, k) /\
    run (bitvec_decode_fn D) i = Done (Ok (take (Z.to_nat bits) (concat (map view_bits v))), k).
Proof.
  intros Hb Hm Hlen [k Hv]. exists k. split; [done|]. unfold bitvec_decode_fn.
  rewrite run_try_bind, Hlen. simpl. rewrite (proj2 (Z.ltb_ge _ _)) by lia.
  pose proof Hv as Hv'. apply (decode_vec_with_len_equiv D wf fits (elts bits) (elts_bounds bits Hb)) in Hv.
  rewrite run_try_bind, Hv. simpl. rewrite try_from_vec_spec.
  apply decode_items_length in Hv'. rewrite zlen_nil in Hv'. pose proof (elts_bounds bits Hb).
  rewrite (proj2 (Z.leb_le _ _)) by lia.
  pose proof (length_view v) as Hz.
  pose proof (elts_spec bits ltac:(lia)). rewrite (proj2 (Z.leb_le _ _)); [done|].
  rewrite Hz. replace (zlen v) with (elts bits) by lia. lia.
Qed.

Lemma bitvec_roundtrip bits bs rest :
  bits_wf bits -> wbytes (bitslice_encode_to E bits) = Done bs ->
  run (bitvec_decode_fn D) (bs ++ rest) = Done (Ok bits, rest).
Proof.
  intros [Hmax Helts] Hb. pose proof (zlen_nonneg bits) as Hn.
  unfold bitslice_encode_to in Hb. rewrite (proj2 (Z.leb_le _ _)) in Hb by done.
  apply wbytes_wseq_done in Hb as (b1 & b2 & Hb1 & Hb2 & ->). rewrite <- app_assoc.
  assert (in_range U32 (zlen bits)) as Hr.
  { split; [done|]. change (prim_max U32) with 4294967295. unfold ARCH32BIT_BITSLICE_MAX_BITS in Hmax. lia. }
  rewrite <- wfor_map in Hb2. rewrite wrap_id in Hb1 by done.
  assert (Forall wf (map from_bits (chunks elt_bits bits))) as Hwf.
  { apply Forall_map, Forall_forall. intros c _. apply wf_from_bits. }
  pose proof (decode_items_roundtrip E D wf _ b2 [] rest Hwf Hb2) as Hitems. simpl in Hitems.
  rewrite length_map in Hitems.
  assert (run decode_len (b1 ++ b2 ++ rest) = Done (Ok (zlen bits), b2 ++ rest)) as Hlen.
  { by apply (roundtrip (CodecLaws := compact_codec_laws CU32)). }
  pose proof (length_chunks bits) as Hc.
  destruct (run_bitvec_decode (b1 ++ b2 ++ rest) (zlen bits) (b2 ++ rest) (map from_bits (chunks elt_bits bits)))
    as (k & Hk & ->); [lia|done|done|rewrite <- Hc, Nat2Z.id; by eexists|].
  rewrite <- Hc, Nat2Z.id, Hitems in Hk. injection Hk as <-.
  destruct (view_chunks bits) as [pad ->]. by rewrite take_zlen_app.
Qed.

Lemma bitvec_decode_wb : wb bits_wf 0 (bitvec_decode_fn D).
Proof.
  unfold bitvec_decode_fn. eapply wb_try; [apply decode_len_wb|]. intros bits Hbits. cbv beta in Hbits.
  destruct (Z.ltb_spec ARCH32BIT_BITSLICE_MAX_BITS bits); [apply wb_throw|].
  assert (0 <= bits <= ARCH32BIT_BITSLICE_MAX_BITS) as Hb by lia. pose proof (elts_bounds bits Hb) as He.
  eapply wb_try; [by apply (decode_vec_with_len_wb D wf fits)|]. intros v [_ Hv]. rewrite try_from_vec_spec.
  destruct (Z.leb_spec (zlen v) MAX_ELTS); [|apply wb_throw].
  pose proof (length_view v) as Hz.
  pose proof (elts_spec bits ltac:(lia)). rewrite (proj2 (Z.leb_le _ _)) by (rewrite Hz, Hv; lia).
  apply wb_done. unfold bits_wf.
  assert (zlen (take (Z.to_nat bits) (concat (map view_bits v))) = bits) as ->.
  { unfold zlen in *. rewrite length_take. lia. }
  rewrite Hv in *. lia.
Qed.
End bitvec_theory.

Section bitvec_laws.
Context `{Target} {T : Type} `{BitStoreLaws T}.
Context (E : Encode T) (D : Decode T) (wf : T -> Prop) `{!CodecLaws E D wf}.
Context (fits : vec_fits (D_size_of D)) (wf_from_bits : forall bits, wf (from_bits bits)).

Lemma bitvec_codec_laws : CodecLaws (bitvec_encode E) (bitvec_decode D) bits_wf.
Proof.
  constructor.
  - apply impl_encode_to_laws.
  - apply impl_decode_laws; [by apply words_nonneg|]. by apply (bitvec_decode_wb E D wf).
  - intros bits bs rest. by apply (bitvec_roundtrip E D wf).
  - discriminate.
Qed.

Lemma bitbox_codec_laws : CodecLaws (bitbox_encode E) (bitbox_decode D) bits_wf.
Proof.
  constructor.
  - apply impl_encode_to_laws.
  - apply impl_decode_laws; [by apply words_nonneg|].
    eapply wb_try; [by apply (bitvec_decode_wb E D wf)|]. intros bits Hb. by apply wb_done.
  - intros bits bs rest Hb He. cbn [decode bitbox_decode impl_decode].
    rewrite run_try_bind. cbn [decode bitvec_decode impl_decode].
    by rewrite (bitvec_roundtrip E D wf fits wf_from_bits bits bs rest Hb He).
  - discriminate.
Qed.
End bitvec_laws.

(** ** Unsigned integers as storage

    [Lsb0] counts the bits of an element from the least significant one, [Msb0]
    from the most significant one. *)

Inductive bit_order : Type := Lsb0 | Msb0.

Fixpoint bits_to_Z (bits : list bool) : Z :=
  match bits with
  | [] => 0
  | b :: bits => Z.b2z b + 2 * bits_to_Z bits
  end.

Definition Z_to_bits (n : nat) (z : Z) : list bool := map (fun i => Z.testbit z (Z.of_nat i)) (seq 0 n).

Definition ordered (o : bit_order) (bits : list bool) : list bool :=
  match o with Lsb0 => bits | Msb0 => reverse bits end.

Definition pad_bits (n : nat) (bits : list bool) : list bool := bits ++ repeat false (n - length bits).

(** The storage of [p], in vectors of up to [2 ^ 32] elements. *)
Definition uint_store (o : bit_order) (p : prim) : BitStore Z := {|
  elt_bits := 8 * prim_bytes p;
  from_bits bits := bits_to_Z (ordered o (take (8 * prim_bytes p) (pad_bits (8 * prim_bytes p) bits)));
  view_bits z := ordered o (Z_to_bits (8 * prim_bytes p) z);
  elts bits := (bits + 8 * Z.of_nat (prim_bytes p) - 1) / (8 * Z.of_nat (prim_bytes p));
  MAX_ELTS := 2 ^ 32;
  try_from_vec v :=
    if zlen v <=? 2 ^ 32
    then Some (concat (map (fun z => ordered o (Z_to_bits (8 * prim_bytes p) z)) v)) else None;
|}.

Lemma bits_to_Z_range bits : 0 <= bits_to_Z bits < 2 ^ zlen bits.
Proof.
  induction bits as [|b bits IH]; simpl; [done|]. rewrite zlen_cons, Z.pow_add_r by (done || apply zlen_nonneg).
  destruct b; cbn [Z.b2z]; lia.
Qed.

Lemma bits_to_Z_testbit bits i : Z.testbit (bits_to_Z bits) (Z.of_nat i) = default false (bits !! i).
Proof.
  revert i. induction bits as [|b bits IH]; intros i; simpl; [apply Z.bits_0|].
  destruct i as [|i]; [rewrite Z.add_b2z_double_bit0; by destruct b|].
  rewrite Nat2Z.inj_succ, Z.add_comm, Z.testbit_succ_r by lia. apply IH.
Qed.

Lemma Z_to_bits_to_Z n bits : length bits = n -> Z_to_bits n (bits_to_Z bits) = bits.
Proof.
  intros <-. apply list_eq. intros i. unfold Z_to_bits. rewrite list_lookup_fmap.
  destruct (decide (i < length bits)%nat) as [Hi|Hi].
  - rewrite lookup_seq_lt by lia. simpl. rewrite bits_to_Z_testbit.
    destruct (lookup_lt_is_Some_2 bits i Hi) as [b ->]. done.
  - rewrite lookup_seq_ge, lookup_ge_None_2 by lia. done.
Qed.

Lemma ordered_involutive o bits : ordered o (ordered o bits) = bits.
Proof. destruct o; [done|]. apply reverse_involutive. Qed.

Lemma length_ordered o bits : length (ordered o bits) = length bits.
Proof. destruct o; [done|]. apply length_reverse. Qed.

Lemma uint_store_laws o p : @BitStoreLaws Z (uint_store o p).
Proof.
  assert (1 <= prim_bytes p)%nat by (by destruct p; vm_compute; lia). split; cbn [elt_bits view_bits from_bits elts MAX_ELTS try_from_vec uint_store].
  - lia.
  - intros z. unfold Z_to_bits. by rewrite length_ordered, length_map, length_seq.
  - intros bits Hl.
    assert (length (pad_bits (8 * prim_bytes p) bits) = 8 * prim_bytes p)%nat as Hp.
    { unfold pad_bits. rewrite length_app, repeat_length. lia. }
    rewrite take_ge, Z_to_bits_to_Z, ordered_involutive by (rewrite ?length_ordered; lia). done.
  - intros bits Hb. set (w := 8 * Z.of_nat (prim_bytes p)). replace (Z.of_nat (8 * prim_bytes p)) with w by lia.
    pose proof (Z.div_mod (bits + w - 1) w ltac:(lia)). pose proof (Z.mod_pos_bound (bits + w - 1) w ltac:(lia)). nia.
  - done.
Qed.

(** ** Generic arrays *)

Section generic_array_theory.
Context `{Target} {T : Type} {N : nat} `{!GenericArray T N}.
Context (E : Encode T) (D : Decode T) (wf : T -> Prop) `{!CodecLaws E D wf}.
Context (fits : Z.of_nat N * D_size_of D <= isize_max).

Lemma generic_array_decode_items : generic_array_decode_fn D ≃ decode_items (decode D) N [].
Proof.
  intros i l i'. unfold generic_array_decode_fn, reserve_exact.
  rewrite zlen_nil, (proj2 (Z.leb_le _ _)) by lia. cbn [try_bind prog_bind ok].
  rewrite run_try_bind_ok. setoid_rewrite from_exact_iter_spec. split.
  - intros (v & j & Hv & Hl). destruct (Nat.eqb _ _); [|done]. simpl in Hl. by simplify_eq.
  - intros Hv. exists l, i'. split; [done|]. apply decode_items_length in Hv. rewrite zlen_nil in Hv. unfold zlen in Hv.
    by rewrite (proj2 (Nat.eqb_eq _ _)) by lia.
Qed.

Lemma generic_array_decode_wb : wb (array_wf wf N) 0 (generic_array_decode_fn D).
Proof.
  unfold generic_array_decode_fn, reserve_exact.
  rewrite zlen_nil, (proj2 (Z.leb_le _ _)) by lia. cbn [try_bind prog_bind ok].
  eapply wb_try; [apply (decode_items_wb wf); [apply decode_wb|constructor]|]. intros v [Hv Hl].
  rewrite from_exact_iter_spec. destruct (Nat.eqb_spec (length v) N); [|apply wb_throw]. by apply wb_done.
Qed.

Lemma generic_array_codec_laws : CodecLaws (generic_array_encode (N := N) E) (generic_array_decode D) (array_wf wf N).
Proof.
  constructor.
  - apply impl_encode_to_laws.
  - apply impl_decode_laws; [|apply generic_array_decode_wb].
    pose proof (size_of_nonneg (D := D)). nia.
  - intros l bs rest [Hwf Hl] Hb. apply generic_array_decode_items. rewrite <- Hl.
    exact (decode_items_roundtrip E D wf l bs [] rest Hwf Hb).
  - discriminate.
Qed.
End generic_array_theory.
