(* ===== verification/ForeignTypes.v ===== *)
(** * Bit vectors and generic arrays: the properties

    The theorems about [bit_vec.rs] and [generic_array.rs], with the unsigned
    integers as storage types. *)

From S2P Require Import Prelude Ints Errors Input Discipline Output Traits Primitives Compact.
From S2P Require Import CompactTheory Sequences SequencesTheory Composite BitVec.

Section claims.
Context `{Target}.

(** The decoder of bit vectors only looks at the bits that the length counts: any
    elements are accepted, so that the encoding of a bit vector whose length is
    not a multiple of the element's is not the only input that decodes to it. *)
Lemma bitvec_padding_ignored {T} `{BitStore T} (E : Encode T) D wf n v b1 b2 rest :
  BitStoreLaws T -> CodecLaws E D wf -> vec_fits (D_size_of D) ->
  0 <= n <= ARCH32BIT_BITSLICE_MAX_BITS -> elts n <= MAX_ELTS -> zlen v = elts n -> Forall wf v ->
  wbytes (encode_to (compact_encode CU32) n) = Done b1 -> wbytes (wfor v (encode_to E)) = Done b2 ->
  run (decode (bitvec_decode D)) (b1 ++ b2 ++ rest)
    = Done (Ok (take (Z.to_nat n) (concat (map view_bits v))), rest).
Proof.
  intros HB HL Hfits Hn He Hv Hwf H1 H2.
  pose proof (decode_items_roundtrip E D wf v b2 [] rest Hwf H2) as Hitems. simpl in Hitems.
  assert (length v = Z.to_nat (elts n)) as Hlen by (unfold zlen in Hv; lia). rewrite Hlen in Hitems.
  destruct (run_bitvec_decode E D wf Hfits (b1 ++ b2 ++ rest) n (b2 ++ rest) v) as (k & Hk & Hrun); [done|done| |by eexists|].
  - apply (roundtrip (CodecLaws := compact_codec_laws CU32)); [|done]. split; [apply Hn|].
    change (prim_max (compact_prim CU32)) with 4294967295. unfold ARCH32BIT_BITSLICE_MAX_BITS in Hn. lia.
  - rewrite Hitems in Hk. by injection Hk as <-.
Qed.

(** C30: bit vectors and boxed bit slices decode to the bits they were encoded from,
    and the decoder consumes exactly the encoding; encoding more than
    [ARCH32BIT_BITSLICE_MAX_BITS] bits panics, and decoding a longer length is an
    error; any elements are accepted behind a length, and only the bits that the
    length counts are looked at. *)
Theorem bitvec_spec {T} `{BitStore T} (E : Encode T) D wf :
  BitStoreLaws T -> CodecLaws E D wf -> vec_fits (D_size_of D) -> (forall bits, wf (from_bits bits)) ->
  (forall bits bs rest, bits_wf bits -> encode (bitvec_encode E) bits = Done bs ->
     run (decode (bitvec_decode D)) (bs ++ rest) = Done (Ok bits, rest) /\
     run (decode (bitbox_decode D)) (bs ++ rest) = Done (Ok bits, rest)) /\
  (forall bits, ARCH32BIT_BITSLICE_MAX_BITS < zlen bits ->
     exists msg, wbytes (encode_to (bitvec_encode E) bits) = Panic msg) /\
  (forall n rest bs, ARCH32BIT_BITSLICE_MAX_BITS < n <= prim_max U32 ->
     wbytes (encode_to (compact_encode CU32) n) = Done bs ->
     exists e j, run (decode (bitvec_decode D)) (bs ++ rest) = Done (Err e, j)) /\
  (forall n v b1 b2 rest, 0 <= n <= ARCH32BIT_BITSLICE_MAX_BITS -> elts n <= MAX_ELTS ->
     zlen v = elts n -> Forall wf v ->
     wbytes (encode_to (compact_encode CU32) n) = Done b1 -> wbytes (wfor v (encode_to E)) = Done b2 ->
     run (decode (bitvec_decode D)) (b1 ++ b2 ++ rest)
       = Done (Ok (take (Z.to_nat n) (concat (map view_bits v))), rest)).
Proof.
  intros HB HL Hfits Hwf. split_and!.
  - intros bits bs rest Hb He. apply (encode_sound (EncodeLaws := impl_encode_to_laws _ _ _ bits_wf)) in He. split.
    + by apply (roundtrip (CodecLaws := bitvec_codec_laws E D wf Hfits Hwf)).
    + by apply (roundtrip (CodecLaws := bitbox_codec_laws E D wf Hfits Hwf)).
  - intros bits Hb. simpl. unfold bitslice_encode_to. rewrite (proj2 (Z.leb_gt _ _)) by done. by eexists.
  - intros n rest bs Hn Hb.
    assert (run decode_len (bs ++ rest) = Done (Ok n, rest)) as Hlen.
    { apply (roundtrip (CodecLaws := compact_codec_laws CU32)); [|done]. split; [|apply Hn].
      unfold ARCH32BIT_BITSLICE_MAX_BITS in Hn. change (prim_min (compact_prim CU32)) with 0. lia. }
    cbn [decode bitvec_decode impl_decode]. unfold bitvec_decode_fn. rewrite run_try_bind, Hlen. simpl.
    rewrite (proj2 (Z.ltb_lt _ _)) by apply Hn. by repeat eexists.
  - intros n v b1 b2 rest. by apply (bitvec_padding_ignored E D wf).
Qed.

(** [GenericArray<T, N>] has the format of [[T; N]]: the encodings are the same and
    the decoders accept the same inputs with the same result. *)
Theorem generic_array_as_array {T N} `{!GenericArray T N} (E : Encode T) D wf :
  CodecLaws E D wf -> Z.of_nat N * D_size_of D <= isize_max ->
  (forall l, Forall wf l ->
     wbytes (encode_to (generic_array_encode (N := N) E) l) = wbytes (encode_to (array_encode E N) l)) /\
  decode (generic_array_decode D) ≃ decode (array_decode D N) /\
  (forall l bs rest, array_wf wf N l -> encode (generic_array_encode (N := N) E) l = Done bs ->
     run (decode (generic_array_decode D)) (bs ++ rest) = Done (Ok l, rest)).
Proof.
  intros HL Hfits. split_and!.
  - intros l Hl. simpl. symmetry. by apply (encode_slice_no_len_items E wf).
  - cbn [decode generic_array_decode impl_decode]. rewrite (generic_array_decode_items D Hfits).
    intros i l i'. symmetry. apply (array_decode_items E D wf).
  - intros l bs rest Hl Hb. apply (encode_sound (EncodeLaws := impl_encode_to_laws _ _ _ (array_wf wf N))) in Hb.
    by apply (roundtrip (CodecLaws := generic_array_codec_laws E D wf Hfits)).
Qed.
End claims.

(** ** Examples *)

Section examples.
Existing Instance x86_64.
Existing Instance prim_codec_laws.

Definition u8_lsb0 : BitStore Z := uint_store Lsb0 U8.

Lemma u8_from_bits_range bits : in_range U8 (@from_bits _ u8_lsb0 bits).
Proof.
  cbn [from_bits u8_lsb0 uint_store ordered]. set (l := take _ _).
  pose proof (bits_to_Z_range l). assert (zlen l <= 8) by (unfold zlen, l; rewrite length_take; change (8 * prim_bytes U8)%nat with 8%nat; lia).
  assert (2 ^ zlen l <= 2 ^ 8) by (apply Z.pow_le_mono_r; lia). split; [change (prim_min U8) with 0|change (prim_max U8) with 255]; lia.
Qed.

Lemma bitvec_spec_witness :
  run (decode (@bitvec_decode x86_64 Z u8_lsb0 (prim_decode U8))) ([x2c; xf5; x05] ++ [x07])
    = Done (Ok [true; false; true; false; true; true; true; true; true; false; true], [x07]).
Proof.
  refine (proj1 (proj1 (@bitvec_spec x86_64 Z u8_lsb0 (prim_encode U8) (prim_decode U8) (in_range U8)
    (uint_store_laws Lsb0 U8) (prim_codec_laws U8) ltac:(by apply vec_fits_64) u8_from_bits_range)
    [true; false; true; false; true; true; true; true; true; false; true] [x2c; xf5; x05] [x07] _ _));
    [split; done|reflexivity].
Defined.

(** Eleven bits in two bytes, the five bits after them being set. *)
Example bitvec_padding_ignored_example :
  run (decode (@bitvec_decode x86_64 Z u8_lsb0 (prim_decode U8))) ([x2c] ++ [xf5; xfd] ++ [])
    = Done (Ok [true; false; true; false; true; true; true; true; true; false; true], []).
Proof.
  apply (@bitvec_padding_ignored x86_64 Z u8_lsb0 (prim_encode U8) (prim_decode U8) (in_range U8) 11 [0xf5; 0xfd]);
    [apply uint_store_laws|apply prim_codec_laws|by apply vec_fits_64|done|done|reflexivity|by repeat constructor|
     reflexivity|reflexivity].
Defined.

Definition array_of (T : Type) (N : nat) : GenericArray T N :=
  {| from_exact_iter l := if Nat.eqb (length l) N then Some l else None; from_exact_iter_spec _ := eq_refl |}.

Example generic_array_as_array_example :
  run (decode (@generic_array_decode x86_64 Z 3 (array_of Z 3) (prim_decode U8))) ([x03; x04; x05] ++ [])
    = Done (Ok [3; 4; 5], []).
Proof.
  refine (proj2 (proj2 (@generic_array_as_array x86_64 Z 3 (array_of Z 3) (prim_encode U8) (prim_decode U8) (in_range U8)
    (prim_codec_laws U8) _)) [3; 4; 5] [x03; x04; x05] [] _ _); [done|split; [by repeat constructor|done]|reflexivity].
Defined.
End examples.
