(* ===== verification/BytesCursor.v ===== *)
(** * Decoding from [bytes::Bytes] ([src/src/codec.rs], feature [bytes])

    [BytesCursor] is an [Input] over a shared buffer of the crate [bytes], which
    hands out parts of the buffer instead of copying them when [Bytes] are
    decoded.  The buffers are a class parameter; a decoder that may ask for
    [Bytes] is a program of [bytes_dec]. *)

From S2P Require Import Prelude Ints Errors Input Discipline Output Traits Primitives Compact.
From S2P Require Import CompactTheory Sequences SequencesTheory Composite.

(** ** [bytes::Bytes] *)

Class Bytes (B : Type) : Type := {
  (** [Deref<Target = [u8]>]. *)
  bytes_deref : B -> list byte;
  (** [From<Vec<u8>>]. *)
  bytes_from : list byte -> B;
  (** [Buf::advance] and [split_to] panic when there are not so many bytes. *)
  bytes_advance : Z -> B -> outcome B;
  bytes_split_to : Z -> B -> outcome (B * B);
}.

Class BytesLaws (B : Type) `{Bytes B} : Prop := {
  bytes_deref_from v : bytes_deref (bytes_from v) = v;
  bytes_advance_spec n b : 0 <= n <= zlen (bytes_deref b) ->
    exists b', bytes_advance n b = Done b' /\ bytes_deref b' = drop (Z.to_nat n) (bytes_deref b);
  bytes_split_to_spec n b : 0 <= n <= zlen (bytes_deref b) ->
    exists front back, bytes_split_to n b = Done (front, back) /\
      bytes_deref front = take (Z.to_nat n) (bytes_deref b) /\
      bytes_deref back = drop (Z.to_nat n) (bytes_deref b);
}.

(** ** The cursor *)

Section cursor.
Context {B : Type} `{Bytes B}.

Record BytesCursor : Type := mkBytesCursor { bytes : B; position : Z }.

(** [self.bytes.len() - self.position]. *)
Definition bytes_left (self : BytesCursor) : outcome Z :=
  if position self <=? zlen (bytes_deref (bytes self))
  then Done (zlen (bytes_deref (bytes self)) - position self)
  else Panic "attempt to subtract with overflow".

Definition cursor_read (n : Z) (self : BytesCursor) : outcome (Result (list byte) Error * BytesCursor) :=
  left ← bytes_left self;
  if left <? n then Done (Err (Error_from "Not enough data to fill buffer"), self)
  else
    let into := take (Z.to_nat n) (drop (Z.to_nat (position self)) (bytes_deref (bytes self))) in
    Done (Ok into, mkBytesCursor (bytes self) (position self + zlen into)).

#[export] Instance cursor_input : Input BytesCursor := {|
  i_remaining_len self := left ← bytes_left self; Done (Ok (Some left), self);
  i_read := cursor_read;
  i_read_byte := default_read_byte cursor_read;
  i_descend_ref := default_hook;
  i_ascend_ref := default_ascend_ref;
  i_on_before_alloc_mem _ := default_hook;
|}.

(** [scale_internal_decode_bytes] of the trait, and of the cursor. *)
Definition default_decode_bytes `{Target} {I} `{Input I} (i : I) : outcome (Result B Error * I) :=
  '(r, i) ← run (decode (vec_decode (prim_decode U8))) i;
  Done (result_map (fun v => bytes_from (byte.of_Z <$> v)) r, i).

Definition cursor_decode_bytes `{Target} (self : BytesCursor) : outcome (Result B Error * BytesCursor) :=
  '(r, self) ← run decode_len self;
  match r with
  | Err e => Done (Err e, self)
  | Ok length =>
      b ← bytes_advance (position self) (bytes self);
      let self := mkBytesCursor b 0 in
      if zlen (bytes_deref b) <? length then
        Done (Err (Error_from "Not enough data to fill buffer"), self)
      else
        '(r, self) ← i_on_before_alloc_mem length self;
        match r with
        | Err e => Done (Err e, self)
        | Ok _ =>
            '(front, back) ← bytes_split_to length (bytes self);
            Done (Ok front, mkBytesCursor back (position self))
        end
  end.

(** ** Simulation *)

(** What is left to read. *)
Definition cursor_rest (c : BytesCursor) : list byte := drop (Z.to_nat (position c)) (bytes_deref (bytes c)).

Definition cursor_ok (c : BytesCursor) : Prop := 0 <= position c <= zlen (bytes_deref (bytes c)).

(** The cursor does to its bytes what a slice does. *)
Definition simulates {A} (o : outcome (A * BytesCursor)) (s : outcome (A * list byte)) : Prop :=
  match o, s with
  | Done (a, c), Done (a', rest) => a = a' /\ cursor_ok c /\ cursor_rest c = rest
  | Panic m, Panic m' => m = m'
  | _, _ => False
  end.

Lemma cursor_left c : cursor_ok c -> bytes_left c = Done (zlen (cursor_rest c)).
Proof.
  intros Hc. unfold bytes_left, cursor_rest, cursor_ok, zlen in *. rewrite length_drop.
  rewrite (proj2 (Z.leb_le _ _)) by lia. f_equal. lia.
Qed.

Lemma cursor_read_sim n c : cursor_ok c -> simulates (cursor_read n c) (slice_read n (cursor_rest c)).
Proof.
  intros Hc. unfold cursor_read, slice_read. rewrite cursor_left by done. simpl.
  destruct (Z.ltb_spec (zlen (cursor_rest c)) n); [done|]. simpl. split; [done|].
  unfold cursor_rest, cursor_ok, zlen in *. simpl. rewrite length_take, length_drop in *. split; [lia|].
  rewrite drop_drop. f_equal. lia.
Qed.

Lemma read_byte_sim c : cursor_ok c ->
  simulates (default_read_byte cursor_read c) (default_read_byte slice_read (cursor_rest c)).
Proof.
  intros Hc. pose proof (cursor_read_sim 1 c Hc) as Hr. unfold default_read_byte.
  destruct (cursor_read 1 c) as [[r c']|], (slice_read 1 (cursor_rest c)) as [[r' rest]|]; try done.
  destruct Hr as (-> & Hc' & Hrest). destruct r' as [[|b l]|e]; done.
Qed.

(** Every program runs on a cursor as on the slice of the bytes that are left. *)
Lemma run_cursor {A} (p : prog A) c : cursor_ok c -> simulates (run p c) (run p (cursor_rest c)).
Proof.
  revert c. induction p as [a|msg|k IH|n k IH|k IH|k IH|k IH|size k IH]; intros c Hc; cbn [run].
  - done.
  - done.
  - cbn [i_remaining_len cursor_input]. rewrite cursor_left by done. simpl. by apply IH.
  - pose proof (cursor_read_sim n c Hc) as Hr. cbn [i_read cursor_input slice_input].
    destruct (cursor_read n c) as [[r c']|], (slice_read n (cursor_rest c)) as [[r' rest]|]; try done.
    destruct Hr as (-> & Hc' & <-). simpl. by apply IH.
  - pose proof (read_byte_sim c Hc) as Hr. cbn [i_read_byte cursor_input slice_input].
    destruct (default_read_byte cursor_read c) as [[r c']|],
      (default_read_byte slice_read (cursor_rest c)) as [[r' rest]|]; try done.
    destruct Hr as (-> & Hc' & <-). simpl. by apply IH.
  - simpl. by apply IH.
  - simpl. by apply IH.
  - simpl. by apply IH.
Qed.
End cursor.
Arguments BytesCursor : clear implicits.

(** ** Decoders that may ask for [Bytes]

    A decoder of a type that contains [Bytes] is made of decoders that do not ask
    for any, and of calls of [Input::scale_internal_decode_bytes].  The content of
    the [Bytes] is all that the rest of the decoder sees; [?] returns an error to
    the caller, after the derived implementations around the call have chained their
    descriptions to it. *)
Inductive bytes_dec (A : Type) : Type :=
| BDone (a : A)
| BRun (X : Type) (d : dec X) (k : X -> bytes_dec A)
| BBytes (chained : Error -> Error) (k : list byte -> bytes_dec A).
Arguments BDone {_} _.
Arguments BRun {_ _} _ _.
Arguments BBytes {_} _ _.

(** A decoder that does not ask for [Bytes]. *)
Definition without_bytes {T} (D : Decode T) : bytes_dec T := BRun (decode D) BDone.

(** Its parts keep the discipline of decoders. *)
Inductive bytes_lawful {A} : bytes_dec A -> Prop :=
| bytes_lawful_done a : bytes_lawful (BDone a)
| bytes_lawful_run X (d : dec X) k (Q : X -> Prop) :
    wb Q 0 d -> (forall x, Q x -> bytes_lawful (k x)) -> bytes_lawful (BRun d k)
| bytes_lawful_bytes e k : (forall bs, bytes_lawful (k bs)) -> bytes_lawful (BBytes e k).

Section bytes_dec.
Context `{Target} {B : Type} `{BytesLaws B}.

(** On any input, with the method [decode_bytes] of its type. *)
Fixpoint run_bytes {I} `{Input I} (decode_bytes : I -> outcome (Result B Error * I)) {A} (q : bytes_dec A) (i : I)
    : outcome (Result A Error * I) :=
  match q with
  | BDone a => Done (Ok a, i)
  | BRun d k =>
      '(r, i) ← run d i;
      match r with
      | Ok x => run_bytes decode_bytes (k x) i
      | Err e => Done (Err e, i)
      end
  | BBytes chained k =>
      '(r, i) ← decode_bytes i;
      match r with
      | Ok b => run_bytes decode_bytes (k (bytes_deref b)) i
      | Err e => Done (Err (chained e), i)
      end
  end.

(** [decode_from_bytes]. *)
Definition decode_from_bytes {T} (q : bytes_dec T) (b : B) : outcome (Result T Error) :=
  '(r, _) ← run_bytes cursor_decode_bytes q (mkBytesCursor b 0);
  Done r.

(** The bytes behind a length: what every implementation returns. *)
Definition announced (i content rest : list byte) : Prop :=
  exists n j, run decode_len i = Done (Ok n, j) /\ n <= zlen j /\
    content = take (Z.to_nat n) j /\ rest = drop (Z.to_nat n) j.

Lemma from_le_u8 n (j : list byte) :
  (n <= length j)%nat -> map (from_le_bytes U8) (split_chunks 1 n j) = byte.unsigned <$> take n j.
Proof.
  revert j. induction n as [|n IH]; intros [|b j] Hl; simpl in *; try done; [lia|].
  f_equal; [|rewrite drop_0; apply IH; lia].
  change (from_le_bytes U8 [b] = byte.unsigned b). unfold from_le_bytes. rewrite le_combine_1.
  apply wrap_id. pose proof (byte.unsigned_range b). split; [apply H2|].
  change (prim_max U8) with 255. lia.
Qed.

(** Slices are not longer than [isize::MAX], so that the bulk decoder of bytes cannot
    overflow a capacity. *)
Lemma decode_u8s n j v i' : zlen j <= isize_max -> 0 <= n <= prim_max U32 ->
  run (decode_vec_with_len (prim_decode U8) n) j = Done (Ok v, i') <->
  n <= zlen j /\ v = byte.unsigned <$> take (Z.to_nat n) j /\ i' = drop (Z.to_nat n) j.
Proof.
  intros Hj Hn. unfold decode_vec_with_len. cbn [D_TYPE_INFO prim_decode one_byte_decode].
  rewrite orb_true_r. rewrite run_try_bind_ok.
  assert (forall w k, run (ok (map id w)) k = Done (Ok v, i') <-> w = v /\ k = i') as Hok.
  { intros w k. rewrite map_id. simpl. naive_solver. }
  setoid_rewrite Hok. destruct (decide (n <= zlen j)) as [Hle|Hlt].
  - assert (read_vec_from_u8s U8 n ≃ decode_items (decode (prim_decode U8)) (Z.to_nat n) []) as Heq.
    { apply read_vec_from_u8s_equiv; [by right|lia|]. change (Z.of_nat (prim_bytes U8)) with 1. lia. }
    transitivity (run (decode_items (decode (prim_decode U8)) (Z.to_nat n) []) j = Done (Ok v, i')).
    { rewrite <- (Heq j v i'). naive_solver. }
    rewrite decode_prim_items. change (prim_bytes U8) with 1%nat. rewrite Nat.mul_1_r. unfold zlen in *.
    split; intros (Hl & -> & ->); split_and!; try done; try lia; rewrite from_le_u8 by lia; done.
  - split; [|naive_solver]. intros (w & k & Hw & _). exfalso. revert Hw.
    unfold read_vec_from_u8s, checked_mul_usize. pose proof usize_max_ge. change (prim_max U32) with 4294967295 in Hn.
    change (Z.of_nat (prim_bytes U8)) with 1. rewrite Z.mul_1_r, (proj2 (Z.leb_le _ _)) by lia.
    cbn. rewrite (proj2 (Z.ltb_lt _ _)) by lia. done.
Qed.

Lemma decode_len_rest i n j : run decode_len i = Done (Ok n, j) -> zlen j <= zlen i.
Proof. intros [_ ->]%decode_len_inv. rewrite zlen_app. pose proof (zlen_nonneg (compact_spec n)). lia. Qed.

Lemma vec_u8_decode i v i' : zlen i <= isize_max ->
  run (decode (vec_decode (prim_decode U8))) i = Done (Ok v, i') <->
  exists content, announced i content i' /\ v = byte.unsigned <$> content.
Proof.
  intros Hi. cbn [decode vec_decode impl_decode]. unfold vec_decode_fn. rewrite run_try_bind_ok. split.
  - intros (n & j & Hn & Hrun). pose proof (decode_len_inv _ _ _ Hn) as [Hr _]. pose proof (decode_len_rest _ _ _ Hn).
    apply decode_u8s in Hrun as (Hl & -> & ->); [|lia|done]. eexists. split; [|done]. by exists n, j.
  - intros (content & (n & j & Hn & Hl & -> & ->) & ->). exists n, j. split; [done|].
    pose proof (decode_len_inv _ _ _ Hn) as [Hr _]. pose proof (decode_len_rest _ _ _ Hn). by apply decode_u8s; [lia|..].
Qed.

Lemma of_Z_unsigned_list (l : list byte) : byte.of_Z <$> (byte.unsigned <$> l) = l.
Proof. induction l as [|b l IH]; [done|]. cbn. by rewrite byte.of_Z_unsigned, IH. Qed.

Lemma default_decode_bytes_spec i content rest : zlen i <= isize_max ->
  (exists b, default_decode_bytes i = Done (Ok b, rest) /\ bytes_deref b = content) <-> announced i content rest.
Proof.
  intros Hfits. unfold default_decode_bytes. split.
  - intros (b & Hb & <-). destruct (run _ i) as [[[v|e] i']|] eqn:Hr; simpl in Hb; [|done|done].
    apply vec_u8_decode in Hr as (content & Ha & ->); [|done]. injection Hb as <- <-.
    by rewrite bytes_deref_from, of_Z_unsigned_list.
  - intros Ha. assert (run (decode (vec_decode (prim_decode U8))) i = Done (Ok (byte.unsigned <$> content), rest)) as ->.
    { apply vec_u8_decode; eauto. }
    simpl. eexists. split; [done|]. by rewrite bytes_deref_from, of_Z_unsigned_list.
Qed.

Lemma cursor_decode_bytes_spec c content rest : cursor_ok c ->
  (exists b c', cursor_decode_bytes c = Done (Ok b, c') /\ bytes_deref b = content /\
     cursor_ok c' /\ cursor_rest c' = rest) <-> announced (cursor_rest c) content rest.
Proof.
  intros Hc. unfold cursor_decode_bytes, announced. pose proof (run_cursor decode_len c Hc) as Hsim.
  destruct (run decode_len c) as [[r c1]|], (run decode_len (cursor_rest c)) as [[r' j]|] eqn:Hlen; try done;
    [|split; [by intros (? & ? & ? & _)|by intros (? & ? & ? & _)]].
  destruct Hsim as (-> & Hc1 & <-). simpl. destruct r' as [n|e]; [|split; [by intros (? & ? & ? & _)|by intros (? & ? & ? & _)]].
  pose proof (decode_len_inv _ _ _ Hlen) as [Hn _].
  destruct (bytes_advance_spec (position c1) (bytes c1) Hc1) as (b & -> & Hb). simpl.
  fold (cursor_rest c1) in Hb. rewrite Hb.
  destruct (Z.ltb_spec (zlen (cursor_rest c1)) n) as [Hlt|Hge]; simpl.
  - split; [by intros (? & ? & ? & _)|]. intros (n' & j' & [= <- <-] & ? & _). lia.
  - destruct (bytes_split_to_spec n b) as (front & back & -> & Hfront & Hback); [rewrite Hb; lia|]. simpl.
    assert (cursor_ok (mkBytesCursor back 0)) as Hok by (split; [done|apply zlen_nonneg]).
    assert (cursor_rest (mkBytesCursor back 0) = drop (Z.to_nat n) (cursor_rest c1)) as Hrest
      by (unfold cursor_rest at 1; simpl; by rewrite drop_0, Hback, Hb).
    split.
    + intros (b' & c' & [= <- <-] & <- & _ & <-). exists n, (cursor_rest c1). rewrite Hfront, Hb. done.
    + intros (n' & j' & [= <- <-] & _ & -> & ->). exists front, (mkBytesCursor back 0).
      rewrite Hfront, Hb. done.
Qed.

(** The cursor never panics: it stays within its buffer. *)
Lemma cursor_decode_bytes_total c : cursor_ok c ->
  exists r c', cursor_decode_bytes c = Done (r, c') /\ cursor_ok c'.
Proof.
  intros Hc. unfold cursor_decode_bytes. pose proof (run_cursor decode_len c Hc) as Hsim.
  destruct (wb_run _ 0 _ (cursor_rest c) decode_len_wb) as (r & j & Hr & Hlen). rewrite Hr in Hsim.
  destruct (run decode_len c) as [[r' c1]|]; [|done]. destruct Hsim as (-> & Hc1 & _).
  destruct r as [n|e]; simpl; [|by eauto]. specialize (Hlen n eq_refl).
  destruct (bytes_advance_spec (position c1) (bytes c1) Hc1) as (b & -> & Hb). simpl.
  destruct (Z.ltb_spec (zlen (bytes_deref b)) n) as [Hlt|Hge]; simpl.
  - eexists _, _. split; [done|]. split; [done|apply zlen_nonneg].
  - destruct (bytes_split_to_spec n b) as (front & back & -> & _); [lia|]. simpl.
    eexists _, _. split; [done|]. split; [done|apply zlen_nonneg].
Qed.

Lemma cursor_decode_bytes_ok c b c' : cursor_ok c -> cursor_decode_bytes c = Done (Ok b, c') -> cursor_ok c'.
Proof. intros Hc Hr. destruct (cursor_decode_bytes_total c Hc) as (r & c2 & Hr' & Hok). congruence. Qed.

(** What is left only shrinks. *)
Lemma announced_rest i content rest : announced i content rest -> zlen rest <= zlen i.
Proof.
  intros (n & j & Hn%decode_len_rest & _ & _ & ->). unfold zlen in *. rewrite length_drop. lia.
Qed.

Lemma run_slice_rest {A} (p : prog A) (i : list byte) a j : run p i = Done (a, j) -> zlen j <= zlen i.
Proof. intros [used ->]%run_slice_suffix. rewrite zlen_app. pose proof (zlen_nonneg used). lia. Qed.

(** The zero-copy decoder and the copying one agree. *)
Lemma run_bytes_agree {A} (q : bytes_dec A) c a rest : zlen (cursor_rest c) <= isize_max -> cursor_ok c ->
  run_bytes default_decode_bytes q (cursor_rest c) = Done (Ok a, rest) <->
  exists c', run_bytes cursor_decode_bytes q c = Done (Ok a, c') /\ cursor_ok c' /\ cursor_rest c' = rest.
Proof.
  revert c. induction q as [x|X d k IH|e k IH]; intros c Hl Hc; cbn [run_bytes].
  - naive_solver.
  - pose proof (run_cursor d c Hc) as Hsim.
    destruct (run d c) as [[r c1]|], (run d (cursor_rest c)) as [[r' j]|] eqn:Hd; try done;
      [|split; [done|by intros (? & ? & _)]].
    destruct Hsim as (-> & Hc1 & <-). apply run_slice_rest in Hd. simpl.
    destruct r' as [x|e]; [by apply IH; [lia|]|]. split; [done|by intros (? & ? & _)].
  - split.
    + intros Hq. destruct (default_decode_bytes (cursor_rest c)) as [[[b|e'] j]|] eqn:Hb; simpl in Hq; [|done|done].
      assert (announced (cursor_rest c) (bytes_deref b) j) as Ha by (apply default_decode_bytes_spec; eauto).
      pose proof (announced_rest _ _ _ Ha).
      apply (cursor_decode_bytes_spec c) in Ha as (b' & c' & -> & Hd & Hok & <-); [|done]. simpl. rewrite Hd.
      by apply IH; [lia|..].
    + intros (c2 & Hq & Hok2 & Hrest2). destruct (cursor_decode_bytes c) as [[[b|e'] c1]|] eqn:Hb; simpl in Hq; [|done|done].
      pose proof (cursor_decode_bytes_ok c b c1 Hc Hb) as Hok1.
      assert (announced (cursor_rest c) (bytes_deref b) (cursor_rest c1)) as Ha
        by (apply cursor_decode_bytes_spec; [done|]; by exists b, c1).
      pose proof (announced_rest _ _ _ Ha).
      apply default_decode_bytes_spec in Ha as (b' & -> & Hd); [|done]. simpl. rewrite Hd. apply IH; [lia|done|eauto].
Qed.

Lemma run_bytes_total {A} (q : bytes_dec A) c :
  bytes_lawful q -> cursor_ok c -> exists r c', run_bytes cursor_decode_bytes q c = Done (r, c') /\ cursor_ok c'.
Proof.
  intros Hq. revert c. induction Hq as [a|X d k Q Hd _ IH|e k _ IH]; intros c Hc; cbn [run_bytes].
  - by eexists _, _.
  - pose proof (run_cursor d c Hc) as Hsim. destruct (wb_run Q 0 d (cursor_rest c) Hd) as (r & j & Hr & HQ).
    rewrite Hr in Hsim. destruct (run d c) as [[r' c1]|]; [|done]. destruct Hsim as (-> & Hc1 & _). simpl.
    destruct r as [x|e]; [by apply IH; [apply HQ|]|by eauto].
  - destruct (cursor_decode_bytes_total c Hc) as (r & c1 & -> & Hc1). simpl. destruct r as [b|e']; [by apply IH|by eauto].
Qed.

Lemma run_bytes_ok {A} (q : bytes_dec A) c r c' :
  cursor_ok c -> run_bytes cursor_decode_bytes q c = Done (r, c') -> cursor_ok c'.
Proof.
  revert c. induction q as [x|X d k IH|e k IH]; intros c Hc; cbn [run_bytes].
  - by intros [= _ <-].
  - pose proof (run_cursor d c Hc) as Hsim.
    destruct (run d c) as [[[x|e] c1]|], (run d (cursor_rest c)) as [[r' j]|]; simpl; try done;
      destruct Hsim as (_ & Hc1 & _); [by apply IH|by intros [= _ <-]].
  - destruct (cursor_decode_bytes_total c Hc) as (r0 & c1 & -> & Hc1). simpl.
    destruct r0 as [b|e']; [by apply IH|by intros [= _ <-]].
Qed.
End bytes_dec.

(** ** Encoding [Bytes]

    [impl WrapperTypeEncode for Bytes]. *)
Definition bytes_encode `{Target} {B} `{Bytes B} (size_of : Z) : Encode B :=
  impl_forward size_of (fun b => byte.unsigned <$> bytes_deref b) (slice_encode (prim_encode U8)).

Section claims.
Context `{Target} {B : Type} `{BytesLaws B}.

(** The encoding of [Bytes] announces their content. *)
Lemma bytes_encode_announced size_of (b : B) bs rest :
  encode (bytes_encode size_of) b = Done bs -> announced (bs ++ rest) (bytes_deref b) rest.
Proof.
  intros He. set (l := byte.unsigned <$> bytes_deref b).
  assert (Forall (in_range U8) l) as Hr.
  { apply Forall_fmap, Forall_forall. intros x _. pose proof (byte.unsigned_range x).
    split; [apply H2|]. change (prim_max U8) with 255. simpl. lia. }
  pose proof (encode_sound (EncodeLaws := impl_encode_to_laws (words 2) (slice_size_hint (prim_encode U8))
    (slice_encode_to (prim_encode U8)) (Forall (in_range U8))) l bs He) as Hw.
  apply (wbytes_slice _ (in_range U8)) in Hw as (items & Hn & Hi & ->); [|done].
  pose proof (decode_items_roundtrip (prim_encode U8) (prim_decode U8) (in_range U8) l items [] rest Hr Hi) as Hd.
  apply decode_prim_items in Hd as (Hl & Heq & Hrest). change (prim_bytes U8) with 1%nat in *. rewrite Nat.mul_1_r in *.
  rewrite from_le_u8 in Heq by done. simpl in Heq.
  exists (zlen l), (items ++ rest). pose proof (zlen_nonneg l). rewrite <- app_assoc, run_decode_len by done.
  unfold zlen. rewrite Nat2Z.id. split_and!; [done|lia| |done].
  apply (f_equal (fmap byte.of_Z)) in Heq. unfold l in Heq at 1. by rewrite !of_Z_unsigned_list in Heq.
Qed.

(** [Bytes] decode to the bytes they were encoded from, from a buffer without
    copying them and from a slice. *)
Lemma bytes_roundtrip size_of (b : B) bs rest c :
  encode (bytes_encode size_of) b = Done bs -> cursor_ok c -> cursor_rest c = bs ++ rest ->
  (exists b' c', cursor_decode_bytes c = Done (Ok b', c') /\ bytes_deref b' = bytes_deref b /\ cursor_rest c' = rest) /\
  (zlen (bs ++ rest) <= isize_max ->
   exists b', default_decode_bytes (B := B) (bs ++ rest) = Done (Ok b', rest) /\ bytes_deref b' = bytes_deref b).
Proof.
  intros He Hc Hrest. pose proof (bytes_encode_announced size_of b bs rest He) as Ha. split.
  - rewrite <- Hrest in Ha. apply cursor_decode_bytes_spec in Ha as (b' & c' & ? & ? & _ & ?); [|done]. eauto.
  - intros Hl. by apply default_decode_bytes_spec.
Qed.

(** C29: [decode_from_bytes] and decoding from a slice of the same bytes.  For a type
    without [Bytes] the results are the same, errors included.  For a type with [Bytes]
    the one succeeds exactly when the other does, with the same value, the parts of the
    buffer that are handed out having the content that the slice would have been copied
    to (for buffers of at most [isize::MAX] bytes, which is all of them); when both
    fail, the texts of the errors can differ.  If the decoders the type is made of are
    lawful it does not panic.  [Bytes] themselves come back with the content they were
    encoded with. *)
Theorem decode_from_bytes_spec :
  (forall T (D : Decode T) (b : B),
     decode_from_bytes (without_bytes D) b = '(r, _) ← run (decode D) (bytes_deref b); Done r) /\
  (forall A (q : bytes_dec A) (b : B) a, zlen (bytes_deref b) <= isize_max ->
     decode_from_bytes q b = Done (Ok a) <->
     exists rest, run_bytes (B := B) default_decode_bytes q (bytes_deref b) = Done (Ok a, rest)) /\
  (forall A (q : bytes_dec A) (b : B), bytes_lawful q -> exists r, decode_from_bytes q b = Done r) /\
  (forall size_of (b : B) bs rest c,
     encode (bytes_encode size_of) b = Done bs -> cursor_ok c -> cursor_rest c = bs ++ rest ->
     exists b' c', cursor_decode_bytes c = Done (Ok b', c') /\ bytes_deref b' = bytes_deref b /\
       cursor_rest c' = rest).
Proof.
  assert (forall b : B, cursor_ok (mkBytesCursor b 0)) as Hok by (intros b; split; [done|apply zlen_nonneg]).
  assert (forall b : B, cursor_rest (mkBytesCursor b 0) = bytes_deref b) as Hrest by done. split_and!.
  - intros T D b. unfold decode_from_bytes. pose proof (run_cursor (decode D) _ (Hok b)) as Hsim. rewrite Hrest in Hsim.
    cbn [run_bytes without_bytes].
    destruct (run (decode D) (mkBytesCursor b 0)) as [[r c]|], (run (decode D) (bytes_deref b)) as [[r' rest]|];
      simpl in Hsim |- *; try done; [destruct Hsim as [-> _]; by destruct r'|by rewrite Hsim].
  - intros A q b a Hl. unfold decode_from_bytes. rewrite <- Hrest in Hl |- *.
    setoid_rewrite (fun rest => run_bytes_agree q _ a rest Hl (Hok b)). split.
    + destruct (run_bytes _ q _) as [[r c]|] eqn:Hr; simpl; [|done]. intros [= ->]. eexists _, c.
      split_and!; [done|by eapply run_bytes_ok|done].
    + intros (rest & c & -> & _). done.
  - intros A q b Hq. unfold decode_from_bytes.
    destruct (run_bytes_total q _ Hq (Hok b)) as (r & c & -> & _). by exists r.
  - intros size_of b bs rest c He Hc Hr. by destruct (bytes_roundtrip size_of b bs rest c He Hc Hr).
Qed.
End claims.

(** ** Buffers that are lists *)

Definition list_bytes : Bytes (list byte) := {|
  bytes_deref b := b;
  bytes_from v := v;
  bytes_advance n b := if n <=? zlen b then Done (drop (Z.to_nat n) b) else Panic "cannot advance";
  bytes_split_to n b :=
    if n <=? zlen b then Done (take (Z.to_nat n) b, drop (Z.to_nat n) b) else Panic "split_to out of bounds";
|}.

Lemma list_bytes_laws : @BytesLaws (list byte) list_bytes.
Proof.
  split; simpl; [done|..]; intros n b [_ Hn]; rewrite (proj2 (Z.leb_le _ _) Hn); by repeat eexists.
Qed.

Section examples.
Existing Instance x86_64.
Existing Instance list_bytes.
Existing Instance list_bytes_laws.

(** [(u8, Bytes)]. *)
Definition byte_and_bytes : bytes_dec (Z * list byte) :=
  BRun (decode (prim_decode U8)) (fun x => BBytes id (fun b => BDone (x, b))).

Lemma decode_from_bytes_spec_witness :
  decode_from_bytes (B := list byte) byte_and_bytes [x07; x08; x01; x02] = Done (Ok (7, [x01; x02])) /\
  exists b' c', cursor_decode_bytes (mkBytesCursor [x08; x01; x02; x05] 0) = Done (Ok b', c') /\
    bytes_deref b' = [x01; x02] /\ cursor_rest c' = [x05].
Proof.
  destruct (@decode_from_bytes_spec x86_64 (list byte) list_bytes list_bytes_laws) as (_ & Hrun & _ & Hrt). split.
  - apply (Hrun _ byte_and_bytes [x07; x08; x01; x02] (7, [x01; x02])); [by vm_compute|]. by exists [].
  - apply (Hrt 24 [x01; x02] [x08; x01; x02]); [reflexivity|done|reflexivity].
Defined.

(** Both decoders refuse [Bytes] that are too short, with different errors. *)
Example error_texts_differ :
  decode_from_bytes (B := list byte) byte_and_bytes [x07; x08; x01]
    = Done (Err (Error_from "Not enough data to fill buffer")) /\
  run_bytes (B := list byte) default_decode_bytes byte_and_bytes [x07; x08; x01]
    = Done (Err (Error_from "Not enough data to decode vector"), [x01]).
Proof. split; by vm_compute. Qed.

Example bytes_roundtrip_example :
  exists b', default_decode_bytes (B := list byte) ([x08; x01; x02] ++ [x05]) = Done (Ok b', [x05]) /\
    bytes_deref b' = [x01; x02].
Proof.
  refine (proj2 (@bytes_roundtrip x86_64 (list byte) list_bytes list_bytes_laws 24 [x01; x02] [x08; x01; x02] [x05]
    (mkBytesCursor [x08; x01; x02; x05] 0) _ _ _) _); [reflexivity|split; done|reflexivity|by vm_compute].
Defined.
End examples.
