(* ===== verification/Limits.v ===== *)
(** * Input wrappers ([depth_limit.rs], [mem_tracking.rs], [counted_input.rs],
    [decode_all.rs])

    [DepthTrackingInput], [MemTrackingInput] and [CountedInput] implement
    [Input] on top of another input.  The first two watch the hooks a decoder
    calls and turn a violation of their limit into an error; what they accept is
    described by the trace of hooks of the run without the wrapper. *)

From S2P Require Import Prelude Ints Errors Input Discipline Output Traits.

(** ** [DepthTrackingInput] *)

Definition DECODE_MAX_DEPTH_MSG : string := "Maximum recursion depth reached when decoding".

Record DepthTracking : Type := mkDepthTracking { depth : Z; max_depth : Z }.

(** [self.depth += 1] and [self.depth -= 1] on [u32], with overflow checks. *)
Definition depth_descend_ref (self : DepthTracking) : prog (Result unit Error * DepthTracking) :=
  prog_bind descend_ref (fun r =>
    match r with
    | Err e => Ret (Err e, self)
    | Ok _ =>
        if prim_max U32 <? depth self + 1 then Halt "attempt to add with overflow"
        else
          let self := mkDepthTracking (depth self + 1) (max_depth self) in
          if max_depth self <? depth self then Ret (Err (Error_from DECODE_MAX_DEPTH_MSG), self)
          else Ret (Ok tt, self)
    end).

Definition depth_ascend_ref (self : DepthTracking) : prog DepthTracking :=
  prog_bind ascend_ref (fun _ =>
    if depth self - 1 <? 0 then Halt "attempt to subtract with overflow"
    else Ret (mkDepthTracking (depth self - 1) (max_depth self))).

Definition depth_tracking_input : Wrapper DepthTracking := {|
  w_remaining_len := forward remaining_len;
  w_read n := forward (read n);
  w_read_byte := forward read_byte;
  w_descend_ref := depth_descend_ref;
  w_ascend_ref := depth_ascend_ref;
  w_on_before_alloc_mem size := forward (on_before_alloc_mem size);
|}.

(** [DecodeLimit::decode_with_depth_limit]. *)
Definition decode_with_depth_limit {T} (limit : Z) (D : Decode T) : dec T :=
  prog_bind (interp depth_tracking_input (decode D) (mkDepthTracking 0 limit))
    (fun '(r, _) => Ret r).

(** ** [MemTrackingInput] *)

Definition DECODE_OOM_MSG : string := "Heap memory limit exceeded while decoding".

Record MemTracking : Type := mkMemTracking { used_mem : Z; mem_limit : Z }.

Definition MemTracking_new (mem_limit : Z) : MemTracking := mkMemTracking 0 mem_limit.

Section mem_tracking.
Context `{Target}.

Definition mem_on_before_alloc_mem (size : Z) (self : MemTracking)
    : prog (Result unit Error * MemTracking) :=
  prog_bind (on_before_alloc_mem size) (fun r =>
    match r with
    | Err e => Ret (Err e, self)
    | Ok _ =>
        let self := mkMemTracking (saturating_add_usize (used_mem self) size) (mem_limit self) in
        if mem_limit self <=? used_mem self then Ret (Err (Error_from DECODE_OOM_MSG), self)
        else Ret (Ok tt, self)
    end).

Definition mem_tracking_input : Wrapper MemTracking := {|
  w_remaining_len := forward remaining_len;
  w_read n := forward (read n);
  w_read_byte := forward read_byte;
  w_descend_ref := forward descend_ref;
  w_ascend_ref s := prog_bind ascend_ref (fun _ => Ret s);
  w_on_before_alloc_mem := mem_on_before_alloc_mem;
|}.

(** [DecodeWithMemLimit::decode_with_mem_limit]. *)
Definition decode_with_mem_limit {T} (D : Decode T) (mem_limit : Z) : dec T :=
  prog_bind (interp mem_tracking_input (decode D) (MemTracking_new mem_limit))
    (fun '(r, _) => Ret r).
End mem_tracking.

(** ** [CountedInput] *)

Definition saturating_add_u64 (a b : Z) : Z := Z.min (a + b) (prim_max U64).

(** [into.len().try_into().unwrap_or(u64::MAX)] is the length itself, since
    [usize] has at most 64 bits. *)
Definition counted_read (n counter : Z) : prog (Result (list byte) Error * Z) :=
  prog_bind (read n) (fun r =>
    match r with
    | Ok into => Ret (Ok into, saturating_add_u64 counter n)
    | Err e => Ret (Err e, counter)
    end).

Definition counted_read_byte (counter : Z) : prog (Result byte Error * Z) :=
  prog_bind read_byte (fun r =>
    match r with
    | Ok b => Ret (Ok b, saturating_add_u64 counter 1)
    | Err e => Ret (Err e, counter)
    end).

(** [on_before_alloc_mem] keeps the trait's default body. *)
Definition counted_input : Wrapper Z := {|
  w_remaining_len := forward remaining_len;
  w_read := counted_read;
  w_read_byte := counted_read_byte;
  w_descend_ref := forward descend_ref;
  w_ascend_ref s := prog_bind ascend_ref (fun _ => Ret s);
  w_on_before_alloc_mem _ := w_default_hook;
|}.

(** Decode through [CountedInput::new(input)] and read [count()]. *)
Definition decode_counted {T} (D : Decode T) : prog (Result T Error * Z) :=
  interp counted_input (decode D) 0.

(** ** [DecodeAll] *)

Definition DECODE_ALL_ERR_MSG : string := "Input buffer has still data left after decoding!".

(** [let res = d(input)?; if input.is_empty() { Ok(res) } else { Err(..) }]. *)
Definition check_consumed {T} (d : dec T) (input : list byte) : outcome (Result T Error * list byte) :=
  '(r, input) ← run d input;
  match r with
  | Ok res =>
      match input with
      | [] => Done (Ok res, input)
      | _ => Done (Err (Error_from DECODE_ALL_ERR_MSG), input)
      end
  | Err e => Done (Err e, input)
  end.

Definition decode_all {T} (D : Decode T) (input : list byte) : outcome (Result T Error * list byte) :=
  check_consumed (decode D) input.

Definition decode_all_with_depth_limit {T} (limit : Z) (D : Decode T) (input : list byte)
    : outcome (Result T Error * list byte) :=
  check_consumed (decode_with_depth_limit limit D) input.

(** ** Monitors

    A wrapper that forwards every call and may in addition fail a hook.  [step]
    is what it remembers of a hook, or [None] when it fails it; [inv n] holds of
    its state [n] levels deep, [finv n] still does once it has failed a hook. *)

Section monitor.
Context {I : Type} `{InputLaws I} {S : Type} (W : Wrapper S).
Context (step : S -> event -> option S) (inv finv : nat -> S -> Prop).

Fixpoint steps (s : S) (es : list event) : option S :=
  match es with
  | [] => Some s
  | e :: es => match step s e with Some s => steps s es | None => None end
  end.

(** The outcome of a hook [ev] with result [r], [n] levels deep before and [m]
    levels deep after it. *)
Definition hook_ok (ev : event) (n m : nat) (s : S) (r : outcome (Result unit Error * I))
    (w : outcome (Result unit Error * S * I)) : Prop :=
  match r with
  | Done (Ok _, i) =>
      match step s ev with
      | Some s' => w = Done (Ok tt, s', i) /\ inv m s'
      | None => exists e s', w = Done (Err e, s', i) /\ finv n s'
      end
  | Done (Err e, i) => w = Done (Err e, s, i)
  | Panic msg => w = Panic msg
  end.

Context (fwd_remaining : forall s (i : I), run (w_remaining_len W s) i = run (forward remaining_len s) i).
Context (fwd_read : forall n s (i : I), run (w_read W n s) i = run (forward (read n) s) i).
Context (fwd_read_byte : forall s (i : I), run (w_read_byte W s) i = run (forward read_byte s) i).
Context (descend_ok : forall n s (i : I), inv n s ->
  hook_ok EDescend n (Datatypes.S n) s (i_descend_ref i) (run (w_descend_ref W s) i)).
Context (alloc_ok : forall n s size (i : I), inv n s -> 0 <= size ->
  hook_ok (EAlloc size) n n s (i_on_before_alloc_mem size i) (run (w_on_before_alloc_mem W size s) i)).
Context (ascend_ok : forall n s (i : I), finv (Datatypes.S n) s ->
  exists s', step s EAscend = Some s' /\ finv n s' /\ (inv (Datatypes.S n) s -> inv n s') /\
    run (w_ascend_ref W s) i = (i ← i_ascend_ref i; Done (s', i))).
Context (inv_finv : forall n s, inv n s -> finv n s).

Lemma monitor_failing {A} n (p : dec A) s (i : I) :
  failing n p -> finv n s ->
  exists s', steps s (trace p i) = Some s' /\
    run (interp W p s) i = ('(r, i) ← run p i; Done (r, s', i)).
Proof.
  intros Hp. revert s i. induction Hp as [n e|n p Hp IH]; intros s i Hs; cbn [trace run interp].
  - by exists s.
  - rewrite run_bind. destruct (ascend_ok n s i Hs) as (s' & Hst & Hs' & _ & ->).
    destruct (ascend_ref_total i) as [i' ->]. simpl. rewrite Hst. by apply IH.
Qed.

(** What a monitored run does. *)
Definition monitored {A} (s : S) (es : list event) (r : outcome (Result A Error * I))
    (w : outcome (Result A Error * S * I)) : Prop :=
  match steps s es with
  | Some s' => w = ('(r, i) ← r; Done (r, s', i))
  | None => exists e s' i', w = Done (Err e, s', i')
  end.

Lemma monitored_failing {A} n (p : dec A) s (i : I) :
  failing n p -> finv n s -> monitored s (trace p i) (run p i) (run (interp W p s) i).
Proof.
  intros Hp Hs. destruct (monitor_failing n p s i Hp Hs) as (s' & Ht & Hr).
  unfold monitored. by rewrite Ht.
Qed.

(** A hook that the monitor fails ends the run with an error. *)
Lemma monitor_stops {A} n (p : dec A) s (i : I) :
  failing n p -> finv n s -> exists e s' i', run (interp W p s) i = Done (Err e, s', i').
Proof.
  intros Hp Hs. destruct (monitor_failing n p s i Hp Hs) as (s' & _ & ->).
  destruct (failing_run n p i Hp) as (e & i' & ->). simpl. eauto.
Qed.

(** The result of a hook, handed on to a well-behaved continuation. *)
Lemma monitor_hook {A} (ev : event) n m (s : S) (k : Result unit Error -> dec A)
    (r : outcome (Result unit Error * I)) (w : outcome (Result unit Error * S * I)) es i' :
  hook_ok ev n m s r w -> inv n s -> (forall e, failing n (k (Err e))) ->
  (r = Done (Ok tt, i') /\ es = ev :: trace (k (Ok tt)) i' /\
     (forall s', inv m s' -> monitored s' (trace (k (Ok tt)) i') (run (k (Ok tt)) i')
        (run (interp W (k (Ok tt)) s') i'))
   \/ exists e, r = Done (Err e, i') /\ es = trace (k (Err e)) i') ->
  monitored s es ('(r, i) ← r; run (k r) i) ('(a, i) ← w; run (let '(r, s) := a in interp W (k r) s) i).
Proof.
  intros Hh Hs Hf [(-> & -> & Hk)|(e & -> & ->)]; unfold hook_ok in Hh.
  - unfold monitored. cbn [steps]. destruct (step s ev) as [s'|].
    + destruct Hh as [-> Hs']. simpl. by apply Hk.
    + destruct Hh as (e & s' & -> & Hs'). simpl. by eapply monitor_stops.
  - subst w. simpl. eapply monitored_failing; eauto.
Qed.

Lemma monitor_run {A} (Q : A -> Prop) n (p : dec A) s (i : I) :
  wb Q n p -> inv n s -> monitored s (trace p i) (run p i) (run (interp W p s) i).
Proof.
  intros Hp. revert s i.
  induction Hp as [a Ha|m e|need m c Hf Hn IH Hge Hlt|m len c Hl Hf Hb IH|m c Hf Hb IH
                  |m c Hf Hk IH|m p Hp IH|m sz c Hsz Hf Hk IH]; intros s i Hs;
    cbn [trace run interp]; rewrite ?run_bind.
  - done.
  - done.
  - rewrite fwd_remaining, run_forward. cbn.
    destruct (remaining_len_total i) as ([[l|]|e] & i' & ->); simpl; auto.
    + destruct (decide (need <= l)); [rewrite Hge by done; auto|].
      apply (monitored_failing m); [apply Hlt; lia|auto].
    + apply (monitored_failing m); auto.
  - rewrite fwd_read, run_forward. cbn.
    destruct (read_total len i Hl) as ([bs|e] & i' & -> & Hlen); simpl; auto.
    apply (monitored_failing m); auto.
  - rewrite fwd_read_byte, run_forward. cbn.
    destruct (read_byte_total i) as ([b|e] & i' & ->); simpl; auto.
    apply (monitored_failing m); auto.
  - destruct (descend_ref_total i) as (r & i' & Hr).
    eapply (monitor_hook EDescend m (Datatypes.S m) s c _ _ _ i'); eauto; rewrite Hr.
    destruct r as [[]|e]; [left|right]; eauto.
  - destruct (ascend_ok m s i (inv_finv _ _ Hs)) as (s' & Hst & _ & Hs' & ->).
    destruct (ascend_ref_total i) as [i' ->]. simpl. unfold monitored. simpl. rewrite Hst.
    by apply IH, Hs'.
  - destruct (on_before_alloc_mem_total sz i) as (r & i' & Hr).
    eapply (monitor_hook (EAlloc sz) m m s c _ _ _ i'); eauto; rewrite Hr.
    destruct r as [[]|e]; [left|right]; eauto.
Qed.
End monitor.

(** ** The depth limit *)

Definition depth_step (s : DepthTracking) (ev : event) : option DepthTracking :=
  match ev with
  | EDescend =>
      if depth s + 1 <=? max_depth s then Some (mkDepthTracking (depth s + 1) (max_depth s)) else None
  | EAscend => Some (mkDepthTracking (depth s - 1) (max_depth s))
  | EAlloc _ => Some s
  end.

Definition depth_inv (n : nat) (s : DepthTracking) : Prop :=
  Z.of_nat n <= depth s <= max_depth s /\ max_depth s < prim_max U32.

(** The deepest level a trace of hooks reaches, starting from level [d]. *)
Fixpoint max_level (d : Z) (es : list event) : Z :=
  match es with
  | [] => d
  | EDescend :: es => Z.max (d + 1) (max_level (d + 1) es)
  | EAscend :: es => Z.max d (max_level (d - 1) es)
  | EAlloc _ :: es => max_level d es
  end.

Lemma depth_steps_level s es :
  depth s <= max_depth s ->
  is_Some (steps depth_step s es) <-> max_level (depth s) es <= max_depth s.
Proof.
  revert s. induction es as [|ev es IH]; intros s Hs; simpl; [naive_solver|].
  destruct ev as [| |size]; simpl; [|rewrite IH by (simpl; lia); simpl; lia|auto].
  destruct (depth s + 1 <=? max_depth s) eqn:E; bool_to_prop; [rewrite IH by (simpl; lia); simpl; lia|].
  split; [by intros []|intros; exfalso; lia].
Qed.

Section depth.
Context {I : Type} `{InputLaws I}.

Lemma depth_monitor {A} (Q : A -> Prop) n (p : dec A) s (i : I) :
  wb Q n p -> depth_inv n s ->
  monitored depth_step s (trace p i) (run p i) (run (interp depth_tracking_input p s) i).
Proof.
  apply (monitor_run depth_tracking_input depth_step depth_inv (fun n s => Z.of_nat n <= depth s));
    try done; clear n s i p.
  - intros n s i [Hn Hm]. cbn [w_descend_ref depth_tracking_input]. unfold depth_descend_ref.
    rewrite run_bind. change (prim_max U32) with 4294967295 in *. cbn. destruct (i_descend_ref i) as [[[u|e] j]|msg]; simpl; try done.
    destruct (depth s + 1 <=? max_depth s) eqn:E; bool_to_prop; decide_tests; simpl; decide_tests.
    + split; [done|]. split; [simpl; lia|done].
    + eexists _, _; split; [done|]. simpl. lia.
  - intros n s size i Hs _. cbn.
    destruct (i_on_before_alloc_mem size i) as [[[[]|e] j]|msg]; simpl; try done; by split.
  - intros n s i Hs. eexists; split; [done|]. cbn. destruct (i_ascend_ref i) as [j|msg]; simpl.
    + decide_tests. split_and!; [lia| |done]. unfold depth_inv. simpl. lia.
    + split_and!; [lia| |done]. unfold depth_inv. simpl. lia.
  - intros n s [Hn _]. lia.
Qed.

(** Decoding with a limit is decoding as long as the limit is respected. *)
Lemma decode_with_depth_limit_run {T} (D : Decode T) wf `{!DecodeLaws D wf} limit (i : I) :
  0 <= limit < prim_max U32 ->
  if max_level 0 (trace (decode D) i) <=? limit
  then run (decode_with_depth_limit limit D) i = run (decode D) i
  else exists e i', run (decode_with_depth_limit limit D) i = Done (Err e, i').
Proof.
  intros Hl. unfold decode_with_depth_limit. rewrite run_bind.
  pose proof (depth_monitor wf 0 (decode D) (mkDepthTracking 0 limit) i decode_wb) as Hm.
  specialize (Hm ltac:(split; simpl; lia)). unfold monitored in Hm.
  pose proof (depth_steps_level (mkDepthTracking 0 limit) (trace (decode D) i)) as Hlev. simpl in Hlev.
  destruct (steps _ _ _) as [s'|]; case_match; bool_to_prop.
  - rewrite Hm. by destruct (run (decode D) i) as [[r j]|].
  - exfalso. assert (max_level 0 (trace (decode D) i) <= limit); [apply Hlev; [lia|eauto]|lia].
  - exfalso. destruct Hlev as [_ Hlev]; [lia|]. by destruct Hlev.
  - destruct Hm as (e & s' & j & ->). simpl. eauto.
Qed.
End depth.

(** ** The memory limit *)

(** The sizes a trace announces, and their sum. *)
Definition allocs (es : list event) : list Z :=
  omap (fun ev => match ev with EAlloc size => Some size | _ => None end) es.

Definition alloc_total (es : list event) : Z := foldr Z.add 0 (allocs es).

(** The trace of a well-behaved program announces sizes that are not negative. *)
Lemma failing_allocs {I} `{InputLaws I} {A} n (p : dec A) (i : I) :
  failing n p -> allocs (trace p i) = [].
Proof.
  intros Hp. revert i. induction Hp as [n e|n p Hp IH]; intros i; simpl; [done|].
  destruct (i_ascend_ref i); [apply IH|done].
Qed.

Lemma wb_allocs {I} `{InputLaws I} {A} (Q : A -> Prop) n (p : dec A) (i : I) :
  wb Q n p -> Forall (Z.le 0) (allocs (trace p i)).
Proof.
  intros Hp. revert i.
  assert (forall n (q : dec A) (i : I), failing n q -> Forall (Z.le 0) (allocs (trace q i))) as Hfail.
  { intros m q i Hq. by rewrite (failing_allocs m q i Hq). }
  induction Hp as [a Ha|m e|need m c Hf Hn IH Hge Hlt|m len c Hl Hf Hb IH|m c Hf Hb IH
                  |m c Hf Hk IH|m p Hp IH|m sz c Hsz Hf Hk IH]; intros i; cbn [trace].
  - constructor.
  - constructor.
  - destruct (remaining_len_total i) as ([[l|]|e] & i' & ->); eauto.
    destruct (decide (need <= l)); [rewrite Hge by done; eauto|]. apply (Hfail m), Hlt; lia.
  - destruct (read_total len i Hl) as ([bs|e] & i' & -> & Hlen); eauto.
  - destruct (read_byte_total i) as ([b|e] & i' & ->); eauto.
  - destruct (descend_ref_total i) as ([[]|e] & i' & ->); [apply IH|eauto].
  - destruct (ascend_ref_total i) as [i' ->]. apply IH.
  - destruct (on_before_alloc_mem_total sz i) as ([[]|e] & i' & ->); [|eauto].
    constructor; [done|apply IH].
Qed.

Section mem.
Context `{Target}.

Definition mem_step (s : MemTracking) (ev : event) : option MemTracking :=
  match ev with
  | EAlloc size =>
      let used := saturating_add_usize (used_mem s) size in
      if mem_limit s <=? used then None else Some (mkMemTracking used (mem_limit s))
  | _ => Some s
  end.

(** All the memory announced, taken together, must stay below the limit. *)
Definition mem_within (limit used : Z) (es : list event) : Prop :=
  allocs es = [] \/ used + alloc_total es < limit.

Lemma alloc_total_nonneg es : Forall (Z.le 0) (allocs es) -> 0 <= alloc_total es.
Proof. unfold alloc_total. induction 1; simpl; lia. Qed.

Lemma mem_steps_total s es :
  mem_limit s <= usize_max -> Forall (Z.le 0) (allocs es) ->
  (mem_within (mem_limit s) (used_mem s) es ->
     steps mem_step s es = Some (mkMemTracking (used_mem s + alloc_total es) (mem_limit s))) /\
  (~ mem_within (mem_limit s) (used_mem s) es -> steps mem_step s es = None).
Proof.
  intros Hl. revert s Hl. induction es as [|ev es IH]; intros s Hl Hes.
  - split.
    + intros _. cbn. destruct s; simpl. by rewrite Z.add_0_r.
    + intros Hn. exfalso. apply Hn. by left.
  - destruct ev as [| |size]; [exact (IH s Hl Hes)|exact (IH s Hl Hes)|].
    cbn in Hes. inversion Hes as [|? ? Hsz Hes']; subst. pose proof (alloc_total_nonneg es Hes') as Ht.
    unfold mem_within. change (alloc_total (EAlloc size :: es)) with (size + alloc_total es).
    change (allocs (EAlloc size :: es)) with (size :: allocs es).
    cbn [steps mem_step]. cbv zeta. unfold saturating_add_usize.
    destruct (Z.leb_spec (mem_limit s) (Z.min (used_mem s + size) usize_max)) as [Hc|Hc].
    + split; [intros [?|?]; [done|lia]|done].
    + replace (Z.min (used_mem s + size) usize_max) with (used_mem s + size) in * by lia.
      destruct (IH (mkMemTracking (used_mem s + size) (mem_limit s)) Hl Hes') as [IH1 IH2].
      simpl in IH1, IH2. unfold mem_within in IH1, IH2. split.
      * intros [?|?]; [done|]. rewrite IH1 by (right; lia). by rewrite Z.add_assoc.
      * intros Hn. apply IH2. intros [Hnil|?]; apply Hn; right; [|lia].
        unfold alloc_total. rewrite Hnil. simpl. lia.
Qed.

Context {I : Type} `{InputLaws I}.

Lemma mem_monitor {A} (Q : A -> Prop) n (p : dec A) s (i : I) :
  wb Q n p ->
  monitored mem_step s (trace p i) (run p i) (run (interp mem_tracking_input p s) i).
Proof.
  intros Hp. apply (monitor_run mem_tracking_input mem_step (fun _ _ => True) (fun _ _ => True)) with Q n;
    try done; clear n s i p Hp.
  - intros n s i _. cbn. destruct (i_descend_ref i) as [[[[]|e] j]|msg]; simpl; try done; by split.
  - intros n s size i _ _. cbn [w_on_before_alloc_mem mem_tracking_input].
    unfold mem_on_before_alloc_mem. rewrite run_bind. cbn.
    destruct (i_on_before_alloc_mem size i) as [[[[]|e] j]|msg]; simpl; try done.
    destruct (mem_limit s <=? saturating_add_usize (used_mem s) size); simpl; [by eexists _, _|by split].
  - intros n s i _. exists s. cbn. by split_and!; try done.
Qed.

(** Decoding with a limit is decoding as long as the memory stays below it. *)
Lemma decode_with_mem_limit_run {T} (D : Decode T) wf `{!DecodeLaws D wf} limit (i : I) :
  limit <= usize_max ->
  (mem_within limit 0 (trace (decode D) i) ->
     run (decode_with_mem_limit D limit) i = run (decode D) i) /\
  (~ mem_within limit 0 (trace (decode D) i) ->
     exists e i', run (decode_with_mem_limit D limit) i = Done (Err e, i')).
Proof.
  intros Hl. unfold decode_with_mem_limit. rewrite run_bind.
  pose proof (mem_monitor wf 0 (decode D) (MemTracking_new limit) i decode_wb) as Hm.
  unfold monitored in Hm.
  destruct (mem_steps_total (MemTracking_new limit) (trace (decode D) i) Hl) as [H1' H2'];
    [apply (wb_allocs wf 0), decode_wb|]. simpl in H1', H2'. split.
  - intros Hw. rewrite (H1' Hw) in Hm. rewrite Hm. by destruct (run (decode D) i) as [[r j]|].
  - intros Hw. rewrite (H2' Hw) in Hm. destruct Hm as (e & s' & j & ->). simpl. eauto.
Qed.

(** What [used_mem] reports after a successful decoding. *)
Lemma used_mem_total {T} (D : Decode T) wf `{!DecodeLaws D wf} limit (i : I) x s i' :
  limit <= usize_max ->
  run (interp mem_tracking_input (decode D) (MemTracking_new limit)) i = Done (Ok x, s, i') ->
  used_mem s = alloc_total (trace (decode D) i) /\ run (decode D) i = Done (Ok x, i').
Proof.
  intros Hl Hrun.
  pose proof (mem_monitor wf 0 (decode D) (MemTracking_new limit) i decode_wb) as Hm.
  unfold monitored in Hm. rewrite Hrun in Hm.
  destruct (mem_steps_total (MemTracking_new limit) (trace (decode D) i) Hl) as [H1' H2'];
    [apply (wb_allocs wf 0), decode_wb|]. simpl in H1', H2'.
  destruct (steps mem_step _ _) as [s'|]; [|by destruct Hm as (? & ? & ? & ?)].
  destruct (run (decode D) i) as [[r j]|]; simpl in Hm; simplify_eq. split; [|done].
  destruct (decide (allocs (trace (decode D) i) = [])) as [Hn|Hn].
  - specialize (H1' (or_introl Hn)). by simplify_eq.
  - destruct (decide (0 + alloc_total (trace (decode D) i) < limit)) as [Ht|Ht].
    + specialize (H1' (or_intror Ht)). by simplify_eq.
    + by assert (Some s' = None) by (apply H2'; intros [?|?]; auto).
Qed.
End mem.

(** ** Counting *)

Lemma counted_failing {A} n (p : dec A) c (i : list byte) :
  failing n p -> run (interp counted_input p c) i = ('(r, i) ← run p i; Done (r, c, i)).
Proof. intros Hp. revert i. induction Hp as [n e|n p Hp IH]; intros i; simpl; [done|apply IH]. Qed.

Lemma saturating_add_u64_assoc c a b :
  0 <= a -> 0 <= b -> saturating_add_u64 (saturating_add_u64 c a) b = saturating_add_u64 c (a + b).
Proof. unfold saturating_add_u64. lia. Qed.

Lemma saturating_add_u64_0 c n : c <= prim_max U64 -> saturating_add_u64 c (n - n) = c.
Proof. unfold saturating_add_u64. lia. Qed.

(** The counter grows by the number of bytes that were taken from the slice. *)
Lemma counted_run {A} (Q : A -> Prop) n (p : dec A) c (i : list byte) :
  wb Q n p -> c <= prim_max U64 ->
  run (interp counted_input p c) i
  = ('(r, j) ← run p i; Done (r, saturating_add_u64 c (zlen i - zlen j), j)).
Proof.
  intros Hp. revert c i.
  assert (forall n (d : dec A) c (i : list byte), failing n d -> c <= prim_max U64 ->
    run (interp counted_input d c) i
    = ('(r, j) ← run d i; Done (r, saturating_add_u64 c (zlen i - zlen j), j))) as Hfail.
  { intros m d c i Hd Hc. rewrite (counted_failing m) by done.
    destruct (failing_run_slice m d i Hd) as [e ->]. simpl. by rewrite saturating_add_u64_0. }
  induction Hp as [a Ha|m e|need m k Hf Hn IH Hge Hlt|m len k Hl Hf Hb IH|m k Hf Hb IH
                  |m k Hf Hk IH|m p Hp IH|m sz k Hsz Hf Hk IH]; intros c i Hc; cbn [interp]; rewrite ?run_bind.
  - simpl. by rewrite saturating_add_u64_0.
  - simpl. by rewrite saturating_add_u64_0.
  - cbn. destruct (decide (need <= zlen i)); [rewrite Hge by done; auto|].
    apply (Hfail m); [apply Hlt; lia|done].
  - destruct (decide (len <= zlen i)) as [Hle|Hle].
    + assert (zlen (take (Z.to_nat len) i) = len) as Ht
        by (unfold zlen in *; rewrite length_take; lia).
      rewrite <- (take_drop (Z.to_nat len) i). cbn [w_read counted_input]. unfold counted_read.
      rewrite run_bind. unfold read.
      rewrite !run_read_app by done. simpl. rewrite IH by (done || unfold saturating_add_u64; lia).
      destruct (run (k _) _) as [[r j]|] eqn:Hr; simpl; [|done].
      apply run_slice_suffix in Hr as [used Hu]. rewrite zlen_app, Ht, Hu, zlen_app.
      pose proof (zlen_nonneg used). rewrite saturating_add_u64_assoc by lia. do 4 f_equal. lia.
    + cbn [w_read counted_input]. unfold counted_read. rewrite run_bind. cbn [run read].
      cbn [i_read slice_input]. unfold slice_read. decide_tests. simpl. by apply (Hfail m).
  - destruct i as [|b i].
    + cbn. by apply (Hfail m).
    + cbn [w_read_byte counted_input]. unfold counted_read_byte. rewrite run_bind. unfold read_byte.
      rewrite !run_read_byte_cons. simpl. rewrite IH by (unfold saturating_add_u64; lia).
      destruct (run (k _) _) as [[r j]|] eqn:Hr; simpl; [|done].
      apply run_slice_suffix in Hr as [used Hu]. rewrite zlen_cons, Hu, zlen_app.
      pose proof (zlen_nonneg used). rewrite saturating_add_u64_assoc by lia. do 4 f_equal. lia.
  - cbn. auto.
  - cbn. auto.
  - cbn. auto.
Qed.

(** No announcement of memory gets through a [CountedInput]. *)
Lemma counted_no_allocs {I} `{Input I} {A} (p : prog A) c (i : I) :
  allocs (trace (interp counted_input p c) i) = [].
Proof.
  revert c i. induction p as [a|msg|k IH|n k IH|k IH|k IH|k IH|sz k IH]; intros c i; cbn.
  - done.
  - done.
  - destruct (i_remaining_len i) as [[r j]|]; [apply IH|done].
  - destruct (i_read n i) as [[[bs|e] j]|]; [apply IH|apply IH|done].
  - destruct (i_read_byte i) as [[[b|e] j]|]; [apply IH|apply IH|done].
  - destruct (i_descend_ref i) as [[[[]|e] j]|]; [apply IH|apply IH|done].
  - destruct (i_ascend_ref i) as [j|]; [apply IH|done].
  - apply IH.
Qed.

(** A memory limit below a [CountedInput] has no effect. *)
Lemma counted_hides_mem_limit `{Target} {I} `{Input I} {A} (p : prog A) c m (i : I) :
  run (interp mem_tracking_input (interp counted_input p c) m) i
  = ('(a, i) ← run (interp counted_input p c) i; Done (a, m, i)).
Proof.
  revert c i. induction p as [a|msg|k IH|n k IH|k IH|k IH|k IH|sz k IH]; intros c i; cbn.
  - done.
  - done.
  - destruct (i_remaining_len i) as [[r j]|]; [apply IH|done].
  - destruct (i_read n i) as [[[bs|e] j]|]; [apply IH|apply IH|done].
  - destruct (i_read_byte i) as [[[b|e] j]|]; [apply IH|apply IH|done].
  - destruct (i_descend_ref i) as [[[[]|e] j]|]; [apply IH|apply IH|done].
  - destruct (i_ascend_ref i) as [j|]; [apply IH|done].
  - apply IH.
Qed.

(** ** Decoding everything *)

Lemma check_consumed_ok {T} (d : dec T) i x i' :
  check_consumed d i = Done (Ok x, i') <-> run d i = Done (Ok x, []) /\ i' = [].
Proof.
  unfold check_consumed. destruct (run d i) as [[[y|e] [|b j]]|]; simpl; naive_solver.
Qed.

Lemma check_consumed_rest {T} (d : dec T) i x b j :
  run d i = Done (Ok x, b :: j) ->
  check_consumed d i = Done (Err (Error_from DECODE_ALL_ERR_MSG), b :: j).
Proof. intros Hr. unfold check_consumed. by rewrite Hr. Qed.

Lemma check_consumed_total {T} (d : dec T) (Q : T -> Prop) i :
  (exists r j, run d i = Done (r, j) /\ forall x, r = Ok x -> Q x) ->
  exists r j, check_consumed d i = Done (r, j).
Proof.
  intros (r & j & Hr & _). unfold check_consumed. rewrite Hr. destruct r; [destruct j|]; cbn; eauto.
Qed.

(** [decode_all] inverts [encode] exactly. *)
Lemma decode_all_encode `{Target} {T} (E : Encode T) D wf `{!CodecLaws E D wf, !Canonical E D} x bs :
  wf x /\ wbytes (encode_to E x) = Done bs <-> decode_all D bs = Done (Ok x, []).
Proof.
  unfold decode_all. rewrite check_consumed_ok. split.
  - intros [Hx Hb]. split; [|done]. rewrite <- (app_nil_r bs) at 1. by apply roundtrip.
  - intros [Hrun _]. split; [by eapply (decode_wf D wf)|].
    apply canonical in Hrun as (bs' & Hb & Heq). rewrite app_nil_r in Heq. by subst.
Qed.
