(* ===== verification/Footprint.v ===== *)
(** * Memory that is accounted for ([mem_tracking.rs], [Input::on_before_alloc_mem])

    A decoder announces the memory it is about to allocate.  [heap x] is the
    memory that the data inside a decoded value [x] takes on the heap; a type
    that is marked [DecodeWithMemTracking] promises that no value is decoded
    without at least that much having been announced.  The promise is proved for
    the types of the crate, and gives a limit on memory its meaning. *)

From S2P Require Import Prelude Ints Errors Input Discipline Output Traits Primitives Compact.
From S2P Require Import CompactTheory Sequences SequencesTheory Composite Collections Heap Limits BitVec.

(** ** Traces of composed programs *)

Section traces.
Context {I : Type} `{Input I}.

Lemma trace_bind {A B} (p : prog A) (f : A -> prog B) (i : I) a j :
  run p i = Done (a, j) -> trace (prog_bind p f) i = trace p i ++ trace (f a) j.
Proof.
  revert i. induction p as [x|msg|k IH|n k IH|k IH|k IH|k IH|sz k IH]; intros i; cbn.
  - by intros [= <- <-].
  - done.
  - destruct (i_remaining_len i) as [[r i']|]; [apply IH|done].
  - destruct (i_read n i) as [[r i']|]; [apply IH|done].
  - destruct (i_read_byte i) as [[r i']|]; [apply IH|done].
  - destruct (i_descend_ref i) as [[[u|e] i']|]; cbn; [intros Hr; f_equal; by apply IH|apply IH|done].
  - destruct (i_ascend_ref i) as [i'|]; cbn; [intros Hr; f_equal; by apply IH|done].
  - destruct (i_on_before_alloc_mem sz i) as [[[u|e] i']|]; cbn;
      [intros Hr; f_equal; by apply IH|apply IH|done].
Qed.

Lemma allocs_app es fs : allocs (es ++ fs) = allocs es ++ allocs fs.
Proof. apply omap_app. Qed.

Lemma alloc_total_app es fs : alloc_total (es ++ fs) = alloc_total es + alloc_total fs.
Proof.
  unfold alloc_total. rewrite allocs_app. induction (allocs es) as [|n l IH]; simpl; [done|]. lia.
Qed.
End traces.

(** ** Charging a program

    [charges c h p]: when [p] returns [a], the memory [h a] is covered by the
    credit [c] and by what [p] has announced. *)
Definition charges {A} (c : Z) (h : A -> Z) (p : dec A) : Prop :=
  forall I (HI : Input I) (HL : InputLaws I) (i : I) a i',
    run p i = Done (Ok a, i') -> h a <= c + alloc_total (trace p i).

Lemma charges_weaken {A} c c' (h h' : A -> Z) p :
  charges c h p -> c <= c' -> (forall a, h' a <= h a) -> charges c' h' p.
Proof.
  intros Hp Hc Hh I HI HL i a i' Hrun. specialize (Hp I HI HL i a i' Hrun). specialize (Hh a). lia.
Qed.

Lemma charges_ok {A} c (h : A -> Z) a : h a <= c -> charges c h (ok a).
Proof. intros Hc I HI HL i b i'. cbn. intros [= <- _]. unfold alloc_total. simpl. lia. Qed.

Lemma charges_throw {A} c (h : A -> Z) msg : charges c h (throw msg).
Proof. intros I HI HL i a i'. done. Qed.

Lemma charges_halt {A} c (h : A -> Z) msg : charges c h (Halt msg).
Proof. intros I HI HL i a i'. done. Qed.

(** What the first program is worth is credit for the second. *)
Lemma charges_bind {A B} c (h : A -> Z) (g : B -> Z) d k :
  charges c h d -> (forall a, charges (h a) g (k a)) -> charges c g (try_bind d k).
Proof.
  intros Hd Hk I HI HL i b i' Hrun. apply run_try_bind_ok in Hrun as (a & j & Ha & Hb).
  unfold try_bind. rewrite (trace_bind d _ i (Ok a) j Ha), alloc_total_app.
  pose proof (Hd I HI HL i a j Ha). pose proof (Hk a I HI HL j b i' Hb). lia.
Qed.

Lemma charges_frame {A} c c' (h : A -> Z) d : charges c h d -> charges (c' + c) (fun a => c' + h a) d.
Proof. intros Hd I HI HL i a i' Hrun. pose proof (Hd I HI HL i a i' Hrun). lia. Qed.

Lemma charges_try {A B} c (h : A -> Z) (g : B -> Z) d k :
  charges 0 h d -> (forall a, charges (c + h a) g (k a)) -> charges c g (try_bind d k).
Proof.
  intros Hd. apply charges_bind. apply (charges_frame 0 c) in Hd. by rewrite Z.add_0_r in Hd.
Qed.

Lemma charges_dec_map {A B} c (h : A -> Z) (g : B -> Z) f d :
  charges c h d -> (forall a, g (f a) <= h a) -> charges c g (dec_map f d).
Proof.
  intros Hd Hf I HI HL i b i' Hrun. apply run_dec_map_ok in Hrun as (a & Ha & ->).
  unfold dec_map. rewrite (trace_bind d _ i (Ok a) i' Ha), app_nil_r.
  pose proof (Hd I HI HL i a i' Ha). specialize (Hf a). lia.
Qed.

Lemma charges_chain_err {A} c (h : A -> Z) desc d : charges c h d -> charges c h (chain_err desc d).
Proof.
  intros Hd I HI HL i a i' Hrun. apply run_chain_err_ok in Hrun.
  unfold chain_err. rewrite (trace_bind d _ i (Ok a) i' Hrun), app_nil_r. by eapply Hd.
Qed.

(** A program that announces nothing of its own. *)
Lemma charges_wb {A} (Q : A -> Prop) n (p : dec A) : wb Q n p -> charges 0 (fun _ => 0) p.
Proof.
  intros Hp I HI HL i a i' _. pose proof (wb_allocs Q n p i Hp) as Hn.
  apply alloc_total_nonneg in Hn. lia.
Qed.

Lemma charges_try_wb' {A B} (Q : A -> Prop) c (g : B -> Z) d k :
  wb Q 0 d -> (forall a, Q a -> charges c g (k a)) -> charges c g (try_bind d k).
Proof.
  intros Hd Hk I HI HL i b i' Hrun. apply run_try_bind_ok in Hrun as (a & j & Ha & Hb).
  unfold try_bind. rewrite (trace_bind d _ i (Ok a) j Ha), alloc_total_app.
  assert (Q a) as Hq.
  { destruct (wb_run Q 0 d i Hd) as (r & j' & Hr & HQ). rewrite Ha in Hr. simplify_eq. by apply HQ. }
  pose proof (charges_wb Q 0 d Hd I HI HL i a j Ha). specialize (Hk a Hq I HI HL j b i' Hb). simpl in *. lia.
Qed.

Lemma charges_try_wb {A B} (Q : A -> Prop) c (g : B -> Z) d k :
  wb Q 0 d -> (forall a, charges c g (k a)) -> charges c g (try_bind d k).
Proof. intros Hd Hk. by apply (charges_try_wb' Q). Qed.

Lemma charges_descend {B} c (g : B -> Z) k :
  charges c g (k tt) -> charges c g (try_bind descend_ref k).
Proof.
  intros Hk I HI HL i b i' Hrun. cbn in Hrun |- *.
  destruct (i_descend_ref i) as [[[[]|e] j]|]; cbn in Hrun; [|done|done].
  exact (Hk I HI HL j b i' Hrun).
Qed.

Lemma charges_variant_byte {B} c (g : B -> Z) desc k :
  (forall b, charges c g (k b)) -> charges c g (try_bind (chain_err desc read_byte) k).
Proof.
  intros Hk. eapply (charges_try_wb (fun _ => True)); [|exact Hk].
  constructor; intros; cbn; by constructor.
Qed.

Lemma charges_ascend {A} c (h : A -> Z) r :
  (forall a, r = Ok a -> h a <= c) -> charges c h (prog_bind ascend_ref (fun _ => Ret r)).
Proof.
  intros Hr I HI HL i b i' Hrun. cbn in Hrun |- *.
  destruct (i_ascend_ref i) as [j|]; cbn in Hrun |- *; [|done]. simplify_eq.
  unfold alloc_total. simpl. specialize (Hr b eq_refl). lia.
Qed.

(** An announcement is credit for what follows. *)
Lemma charges_alloc {B} c (g : B -> Z) size k :
  charges (c + size) g (k tt) -> charges c g (try_bind (on_before_alloc_mem size) k).
Proof.
  intros Hk I HI HL i b i' Hrun. cbn in Hrun |- *.
  destruct (i_on_before_alloc_mem size i) as [[[[]|e] j]|]; cbn in Hrun; [|done|done].
  specialize (Hk I HI HL j b i' Hrun).
  change (g b <= c + (size + alloc_total (trace (k tt) j))). lia.
Qed.

#[export] Hint Resolve charges_ok charges_throw charges_halt charges_descend charges_alloc
  charges_chain_err : scale.

(** ** [DecodeWithMemTracking] *)

Class MemTracked {T} (D : Decode T) (heap : T -> Z) : Prop := {
  heap_nonneg x : 0 <= heap x;
  decode_charges : charges 0 heap (decode D);
  decode_into_charges : charges 0 heap (decode_into D);
  heap_type_info p t b z : D_TYPE_INFO D = Prim p t b -> heap (b z) = 0;
}.

Lemma impl_decode_tracked {T} size_of (d : dec T) heap :
  (forall x, 0 <= heap x) -> charges 0 heap d -> MemTracked (impl_decode size_of d) heap.
Proof.
  intros Hn Hd. constructor; [done|done| |done].
  apply (charges_try 0 heap); [done|]. intros a. apply charges_ok. lia.
Qed.

(** Types without anything on the heap. *)
Lemma flat_tracked {T} (D : Decode T) wf `{!DecodeLaws D wf} : MemTracked D (fun _ => 0).
Proof.
  constructor; [done| | |done]; [apply (charges_wb wf 0), decode_wb|apply (charges_wb wf 0), decode_into_wb].
Qed.

(** ** Sequences *)

Definition heap_sum {T} (heap : T -> Z) (l : list T) : Z := foldr (fun x acc => heap x + acc) 0 l.

Lemma heap_sum_nonneg {T} (heap : T -> Z) l : (forall x, 0 <= heap x) -> 0 <= heap_sum heap l.
Proof. intros Hn. induction l as [|x l IH]; simpl; [done|]. specialize (Hn x). lia. Qed.

Lemma heap_sum_app {T} (heap : T -> Z) l k : heap_sum heap (l ++ k) = heap_sum heap l + heap_sum heap k.
Proof. induction l as [|x l IH]; simpl; lia. Qed.

Lemma heap_sum_perm {T} (heap : T -> Z) l k : l ≡ₚ k -> heap_sum heap l = heap_sum heap k.
Proof. induction 1; simpl; lia. Qed.

Lemma heap_sum_flat {A T} (heap : T -> Z) (f : A -> T) l :
  (forall x, heap (f x) = 0) -> heap_sum heap (map f l) = 0.
Proof. intros Hf. induction l as [|x l IH]; simpl; [done|]. rewrite Hf. lia. Qed.

(** The heap memory of a vector: its buffer, and what its items own. *)
Definition vec_heap {T} (size_of : Z) (heap : T -> Z) (v : list T) : Z :=
  size_of * zlen v + heap_sum heap v.

Lemma vec_heap_nonneg {T} size_of (heap : T -> Z) v :
  0 <= size_of -> (forall x, 0 <= heap x) -> 0 <= vec_heap size_of heap v.
Proof.
  intros Hs Hn. unfold vec_heap, zlen. pose proof (heap_sum_nonneg heap v Hn). nia.
Qed.

Lemma decode_items_charges {T} size_of (heap : T -> Z) d n v :
  charges 0 heap d ->
  charges (vec_heap size_of heap v + size_of * Z.of_nat n) (vec_heap size_of heap) (decode_items d n v).
Proof.
  intros Hd. revert v. induction n as [|n IH]; intros v; cbn [decode_items].
  - apply charges_ok. lia.
  - eapply charges_try; [exact Hd|]. intros x. eapply charges_weaken; [apply IH| |done].
    unfold vec_heap, zlen. rewrite heap_sum_app, length_app. simpl. lia.
Qed.

Section tracked_sequences.
Context `{Target}.

Lemma read_chunk_charges p v n : 0 <= n ->
  charges (vec_heap (Z.of_nat (prim_bytes p)) (fun _ => 0) v + Z.of_nat (prim_bytes p) * n)
    (vec_heap (Z.of_nat (prim_bytes p)) (fun _ => 0)) (read_chunk p v n).
Proof.
  intros Hn. unfold read_chunk. eapply (charges_try_wb (fun _ => True)); [constructor; [lia|by constructor|by constructor]|].
  intros bs. apply charges_ok.
  unfold vec_heap, zlen. rewrite heap_sum_app, length_app, length_map, length_split_chunks.
  pose proof (heap_sum_flat (fun _ : Z => 0) (from_ne_bytes p)
    (split_chunks (prim_bytes p) (Z.to_nat n) bs) (fun _ => eq_refl)). lia.
Qed.

(** Each round of the loop announces the memory of its chunk. *)
Lemma chunked_loop_charges {T} size_of (heap : T -> Z) chunk fuel c num v :
  0 <= size_of -> 0 <= c -> c * size_of <= usize_max ->
  (forall v n, 0 <= n -> charges (vec_heap size_of heap v + size_of * n) (vec_heap size_of heap) (chunk v n)) ->
  charges (vec_heap size_of heap v) (vec_heap size_of heap) (decode_vec_chunked_loop size_of chunk fuel c num v).
Proof.
  intros Hs Hc Hm Hk. revert num v. induction fuel as [|fuel IH]; intros num v; cbn [decode_vec_chunked_loop];
    destruct (Z.leb_spec num 0); auto with scale; [by apply charges_ok|by apply charges_ok|].
  apply charges_alloc. unfold reserve_exact. destruct (_ <=? isize_max); [|apply charges_halt]. cbn [try_bind prog_bind ok].
  eapply charges_bind; [|intros w; apply IH].
  eapply charges_weaken; [apply (Hk v (Z.min c num)); lia| |done].
  unfold saturating_mul_usize. nia.
Qed.

Lemma decode_vec_chunked_charges {T} size_of (heap : T -> Z) chunk len :
  0 <= size_of ->
  (forall v n, 0 <= n -> charges (vec_heap size_of heap v + size_of * n) (vec_heap size_of heap) (chunk v n)) ->
  charges 0 (vec_heap size_of heap) (decode_vec_chunked size_of chunk len).
Proof.
  intros Hs Hk. eapply (charges_weaken (vec_heap size_of heap []));
    [apply chunked_loop_charges; [done| | |done]|unfold vec_heap, zlen; simpl; lia|done];
    unfold vec_chunk_len; destruct (Z.eqb_spec size_of 0) as [-> | Hn].
  - pose proof usize_max_ge. lia.
  - apply Z.div_pos; unfold MAX_PREALLOCATION; lia.
  - rewrite Z.mul_0_r. pose proof usize_max_ge. lia.
  - pose proof (Z.mul_div_le MAX_PREALLOCATION size_of ltac:(lia)). pose proof usize_max_ge. unfold MAX_PREALLOCATION in *. lia.
Qed.

Lemma read_vec_from_u8s_charges p len :
  charges 0 (fun v => Z.of_nat (prim_bytes p) * zlen v) (read_vec_from_u8s p len).
Proof.
  unfold read_vec_from_u8s. destruct (checked_mul_usize _ _); [|apply charges_throw].
  intros I HI HL i a i' Hrun. apply run_try_bind_ok in Hrun as (r & j & Hr & Ha).
  unfold try_bind. rewrite (trace_bind _ _ i (Ok r) j Hr), alloc_total_app.
  assert (0 <= alloc_total (trace remaining_len i)) as Hn.
  { cbn. destruct (i_remaining_len i) as [[]|]; done. }
  revert Ha. case_match; [done|]. intros Ha.
  pose proof (decode_vec_chunked_charges (Z.of_nat (prim_bytes p)) (fun _ : Z => 0) (read_chunk p) len
    ltac:(lia) (read_chunk_charges p) I HI HL j a i' Ha) as Hc.
  unfold vec_heap in Hc. pose proof (heap_sum_nonneg (fun _ : Z => 0) a ltac:(done)). lia.
Qed.

Section vec.
Context {T : Type} (D : Decode T) (wf : T -> Prop) (heap : T -> Z) `{!DecodeLaws D wf, !MemTracked D heap}.

Lemma decode_vec_from_items_charges len :
  charges 0 (vec_heap (D_size_of D) heap) (decode_vec_from_items D len).
Proof.
  apply charges_descend. eapply charges_bind.
  - apply decode_vec_chunked_charges; [apply size_of_nonneg|]. intros v n Hn.
    eapply charges_weaken; [apply decode_items_charges, decode_charges|by rewrite Z2Nat.id|done].
  - intros v. apply charges_ascend. by intros a [= ->].
Qed.

Lemma decode_vec_with_len_charges len :
  charges 0 (vec_heap (D_size_of D) heap) (decode_vec_with_len D len).
Proof.
  unfold decode_vec_with_len.
  destruct (D_TYPE_INFO D) as [|p t b] eqn:Hinfo; [apply decode_vec_from_items_charges|].
  destruct (_ || _); [|apply decode_vec_from_items_charges].
  destruct (decode_type_info p t b Hinfo) as [Hsize _].
  eapply charges_bind; [apply read_vec_from_u8s_charges|]. intros v. apply charges_ok.
  unfold vec_heap, zlen. rewrite Hsize, length_map, (heap_sum_flat heap b).
  - lia.
  - intros z. by eapply heap_type_info.
Qed.

Lemma vec_tracked : MemTracked (vec_decode D) (vec_heap (D_size_of D) heap).
Proof.
  apply impl_decode_tracked.
  { intros v. apply vec_heap_nonneg; [apply size_of_nonneg|apply heap_nonneg]. }
  eapply charges_try_wb; [apply decode_len_wb|]. intros len. apply decode_vec_with_len_charges.
Qed.

(** The bits of a [BitVec] are in the buffer of a vector of elements. *)
Lemma bitvec_tracked `{BitStoreLaws T} : vec_fits (D_size_of D) ->
  MemTracked (bitvec_decode D) (fun bits => D_size_of D * elts (zlen bits)).
Proof.
  intros Hfits. pose proof (size_of_nonneg (D := D)) as Hs. apply impl_decode_tracked.
  { intros bits. pose proof (elts_spec (zlen bits) (zlen_nonneg _)). pose proof (zlen_nonneg bits).
    pose proof elt_bits_pos. assert (0 <= elts (zlen bits)) by nia. nia. }
  eapply charges_try_wb'; [apply decode_len_wb|]. intros n Hn. cbv beta in Hn.
  destruct (Z.ltb_spec ARCH32BIT_BITSLICE_MAX_BITS n); [apply charges_throw|].
  pose proof (elts_bounds n ltac:(lia)) as He.
  pose proof (decode_vec_with_len_wb D wf Hfits (elts n) He) as Hwb.
  intros I HI HL i bits i' Hrun. apply run_try_bind_ok in Hrun as (v & j & Hv & Hb).
  unfold try_bind. rewrite (trace_bind _ _ i (Ok v) j Hv), alloc_total_app.
  pose proof (decode_vec_with_len_charges (elts n) I HI HL i v j Hv) as Hc.
  destruct (wb_run _ 0 _ i Hwb) as (r & j' & Hr & HQ). rewrite Hv in Hr. simplify_eq.
  destruct (HQ v eq_refl) as [_ Hlen]. pose proof (length_view v) as Hview.
  revert Hb. rewrite try_from_vec_spec. destruct (zlen v <=? MAX_ELTS); [|by cbn].
  destruct (Z.leb_spec n (zlen (concat (map view_bits v)))); [|by cbn]. cbn [run trace ok]. intros [= <- _].
  assert (zlen (take (Z.to_nat n) (concat (map view_bits v))) = n) as -> by (unfold zlen in *; rewrite length_take; lia).
  unfold vec_heap in Hc. pose proof (heap_sum_nonneg heap v heap_nonneg). rewrite Hlen in Hc.
  change (alloc_total []) with 0. lia.
Qed.

Lemma array_tracked N : MemTracked (array_decode D N) (heap_sum heap).
Proof.
  assert (charges 0 (heap_sum heap) (array_decode_into D N)) as Hinto.
  { assert (charges 0 (heap_sum heap) (array_fill D N [])) as Hfill.
    { eapply charges_weaken; [apply (decode_items_charges 0 heap), decode_into_charges| |];
        unfold vec_heap, zlen; simpl; lia. }
    unfold array_decode_into. destruct (D_TYPE_INFO D) as [|p t b] eqn:Hinfo; [done|].
    destruct (array_is_primitive D); [|done].
    pose proof (size_of_nonneg (D := D)).
    eapply (charges_try_wb (fun _ => True)); [constructor; [lia|by constructor|by constructor]|].
    intros bs. apply charges_ok. rewrite heap_sum_flat; [done|]. intros z. by eapply heap_type_info. }
  constructor; [|simpl|done|done].
  - intros l. apply heap_sum_nonneg, heap_nonneg.
  - eapply charges_bind; [done|]. intros l. by apply charges_ok.
Qed.
End vec.

(** A string owns its bytes. *)
Lemma string_tracked : MemTracked string_decode zlen.
Proof.
  apply impl_decode_tracked; [unfold zlen; lia|].
  pose proof (flat_tracked (prim_decode U8) (in_range U8)).
  eapply charges_bind; [apply (decode_charges (MemTracked := vec_tracked (prim_decode U8) (in_range U8) _))|].
  intros v. destruct (utf8_valid v); [|apply charges_throw]. apply charges_ok.
  unfold vec_heap. pose proof (heap_sum_nonneg (fun _ : Z => 0) v ltac:(done)). simpl. lia.
Qed.
End tracked_sequences.

(** ** Composite types *)

Definition option_heap {T} (heap : T -> Z) (x : option T) : Z := from_option heap 0 x.
Definition result_heap {A B} (hA : A -> Z) (hB : B -> Z) (x : Result A B) : Z :=
  match x with Ok a => hA a | Err b => hB b end.
Definition pair_heap {A B} (hA : A -> Z) (hB : B -> Z) (x : A * B) : Z := hA x.1 + hB x.2.
(** A boxed value is on the heap itself. *)
Definition box_heap {T} (size_of : Z) (heap : T -> Z) (x : T) : Z := size_of + heap x.

(** The result is returned after [ascend_ref], error or not. *)
Lemma charges_then_ascend {A} c (h : A -> Z) d :
  charges c h d ->
  charges c h (prog_bind d (fun result => prog_bind ascend_ref (fun _ => Ret result))).
Proof.
  intros Hd I HI HL i b i' Hrun. rewrite run_bind in Hrun. destruct (run d i) as [[r j]|] eqn:Hr; [|done].
  cbn in Hrun. destruct (i_ascend_ref j) as [j'|] eqn:Hj; [|done]. cbn in Hrun. simplify_eq.
  rewrite (trace_bind d _ i (Ok b) j Hr), alloc_total_app.
  pose proof (Hd I HI HL i b j Hr). cbn [trace ascend_ref prog_bind]. rewrite Hj. change (alloc_total [EAscend]) with 0. lia.
Qed.

Section tracked_composite.
Context `{Target} {T : Type} (D : Decode T) (wf : T -> Prop) (heap : T -> Z).
Context `{!DecodeLaws D wf, !MemTracked D heap}.

Lemma option_tracked size_of : MemTracked (option_decode size_of D) (option_heap heap).
Proof.
  apply impl_decode_tracked; [intros [x|]; simpl; [apply heap_nonneg|done]|].
  apply charges_variant_byte. intros b.
  destruct b; try apply charges_throw; [by apply charges_ok|].
  eapply charges_try; [apply charges_chain_err, decode_charges|]. intros x. by apply charges_ok.
Qed.

Lemma tuple_tracked {B} size_of (DB : Decode B) hB `{!MemTracked DB hB} :
  MemTracked (tuple_decode size_of D DB) (pair_heap heap hB).
Proof.
  apply impl_decode_tracked.
  { intros [a b]. pose proof (heap_nonneg (MemTracked := MemTracked0) a).
    pose proof (heap_nonneg (D := DB) b). unfold pair_heap. simpl. lia. }
  eapply charges_try; [apply decode_charges|]. intros a.
  eapply charges_try; [apply decode_charges|]. intros b. apply charges_ok. unfold pair_heap. simpl. lia.
Qed.

Lemma result_tracked {B} size_of (DB : Decode B) hB `{!MemTracked DB hB} :
  MemTracked (result_decode size_of D DB) (result_heap heap hB).
Proof.
  apply impl_decode_tracked; [intros [a|b]; simpl; apply heap_nonneg|].
  apply charges_variant_byte. intros b. destruct b; try apply charges_throw;
    (eapply charges_try; [apply charges_chain_err, decode_charges|]; intros x; by apply charges_ok).
Qed.

Lemma box_tracked : MemTracked (box_decode D) (box_heap (D_size_of D) heap).
Proof.
  apply impl_decode_tracked.
  { intros x. unfold box_heap. pose proof (heap_nonneg x). pose proof (size_of_nonneg (D := D)). lia. }
  apply charges_descend, charges_alloc. eapply charges_try; [apply decode_into_charges|].
  intros x. apply charges_ascend. intros a [= ->]. unfold box_heap. lia.
Qed.

Lemma rc_tracked : MemTracked (rc_decode D) (box_heap (D_size_of D) heap).
Proof.
  apply impl_decode_tracked; [apply box_tracked|].
  eapply charges_dec_map; [apply (decode_charges (MemTracked := box_tracked))|done].
Qed.

Lemma vec_deque_tracked :
  MemTracked (vec_deque_decode D) (fun x => vec_heap (D_size_of D) heap (deque_items x)).
Proof.
  pose proof (vec_tracked D wf heap) as Hv.
  apply impl_decode_tracked; [intros x; apply Hv|].
  eapply charges_bind; [apply (decode_charges (MemTracked := Hv))|].
  intros v. apply charges_ok. unfold deque_items. simpl. by rewrite app_nil_r.
Qed.

(** [VecDeque::from] and [BinaryHeap::from] take the buffer over. *)
Lemma binary_heap_tracked `{Ord T} :
  MemTracked (binary_heap_decode D) (vec_heap (D_size_of D) heap).
Proof.
  pose proof (vec_tracked D wf heap) as Hv.
  apply impl_decode_tracked; [apply Hv|].
  eapply charges_bind; [apply (decode_charges (MemTracked := Hv))|].
  intros v. apply charges_ok. unfold vec_heap, zlen.
  by rewrite (heap_sum_perm heap (rebuild v) v), (Permutation_length (rebuild_perm v)) by apply rebuild_perm.
Qed.

Lemma cow_tracked {B} size_of :
  MemTracked (cow_decode (T := B) size_of D)
    (fun x => match x with Owned o => heap o | Borrowed _ => 0 end).
Proof.
  apply impl_decode_tracked; [intros []; [done|apply heap_nonneg]|].
  eapply charges_bind; [apply decode_charges|]. intros x. by apply charges_ok.
Qed.

(** A collection whose nodes are announced in advance. *)
Lemma collection_charges {C} mem_size (from_iter : list T -> C) (hC : C -> Z) :
  (forall len v, 0 <= len <= prim_max U32 -> zlen v = len ->
     hC (from_iter v) <= mem_size len + heap_sum heap v) ->
  charges 0 hC (collection_decode_fn D mem_size from_iter).
Proof.
  intros Hm. eapply (charges_try_wb' (fun len => 0 <= len <= prim_max U32)); [apply decode_len_wb|].
  intros len Hlen. apply charges_descend, charges_alloc, charges_then_ascend.
  intros I HI HL i a i' Hrun. apply run_dec_map_ok in Hrun as (v & Hv & ->).
  unfold dec_map. rewrite (trace_bind _ _ i (Ok v) i' Hv), app_nil_r.
  pose proof (decode_items_charges 0 heap (decode D) (Z.to_nat len) [] decode_charges I HI HL i v i' Hv) as Hc.
  pose proof (decode_items_length _ _ _ _ _ _ Hv) as Hlv. rewrite zlen_nil in Hlv.
  specialize (Hm len v Hlen ltac:(lia)). unfold vec_heap in Hc. simpl in Hc. lia.
Qed.

Lemma linked_list_tracked node_size :
  0 <= node_size -> node_size * prim_max U32 <= usize_max ->
  MemTracked (linked_list_decode node_size D) (vec_heap node_size heap).
Proof.
  intros Hn Hmax. apply impl_decode_tracked; [intros v; apply vec_heap_nonneg, heap_nonneg; done|].
  apply collection_charges. intros len v Hl Hv. unfold vec_heap, saturating_mul_usize, id. nia.
Qed.

Lemma range_tracked size_of :
  MemTracked (range_decode size_of D) (fun r => heap (start r) + heap (end_ r)).
Proof.
  pose proof (tuple_tracked 0 D heap) as Ht.
  apply impl_decode_tracked; [intros r; pose proof (heap_nonneg (start r)); pose proof (heap_nonneg (end_ r)); lia|].
  eapply charges_bind; [apply charges_chain_err, (decode_charges (MemTracked := Ht))|].
  intros [a b]. by apply charges_ok.
Qed.

Lemma range_inclusive_tracked size_of :
  MemTracked (range_inclusive_decode size_of D) (fun r => heap (ri_start r) + heap (ri_end r)).
Proof.
  pose proof (tuple_tracked 0 D heap) as Ht.
  apply impl_decode_tracked; [intros r; pose proof (heap_nonneg (ri_start r)); pose proof (heap_nonneg (ri_end r)); lia|].
  eapply charges_bind; [apply charges_chain_err, (decode_charges (MemTracked := Ht))|].
  intros [a b]. by apply charges_ok.
Qed.
End tracked_composite.

(** ** B-trees

    The nodes of a B-tree are announced as if they were two thirds full; the
    announcement is at least half of the memory of the entries. *)

Section tracked_btree.
Context `{Target}.

Lemma mem_size_of_btree_half size_of leaf_node_size len :
  0 <= size_of -> CAPACITY * size_of <= leaf_node_size -> size_of * prim_max U32 <= usize_max ->
  0 <= len <= prim_max U32 -> size_of * len <= 2 * mem_size_of_btree leaf_node_size len.
Proof.
  unfold mem_size_of_btree. change CAPACITY with 11.
  change ((11 + MIN_LEN_AFTER_SPLIT) * 2 / 3) with 10. intros Hs Hleaf Hmax Hlen.
  pose proof (words_nonneg (2 * B) ltac:(done)).
  destruct (Z.eqb_spec len 0) as [-> | Hn]; [lia|].
  pose proof (Z.div_mod len 10 ltac:(done)). pose proof (Z.mod_pos_bound len 10 ltac:(done)).
  destruct (Z.eqb_spec (len / 10) 0) as [Hz | Hz]; [nia|].
  unfold saturating_mul_usize. apply Z.min_case; [|nia].
  assert (1 <= len / 10) by lia. nia.
Qed.

Section inserts.
Context {K V : Type} `{Ord K} (heap : K * V -> Z) (heap_pos : forall e, 0 <= heap e).

Lemma btree_insert_heap k v m :
  heap_sum heap (btree_insert k v m) <= heap (k, v) + heap_sum heap m /\
  zlen (btree_insert k v m) <= 1 + zlen m.
Proof.
  induction m as [|[k' v'] m [IHh IHl]]; simpl; [unfold zlen; simpl; lia|].
  pose proof (heap_pos (k', v')). destruct (cmp k k'); simpl; rewrite !zlen_cons; lia.
Qed.

Lemma btree_from_iter_heap l :
  heap_sum heap (btree_from_iter l) <= heap_sum heap l /\ zlen (btree_from_iter l) <= zlen l.
Proof.
  unfold btree_from_iter.
  enough (forall m, heap_sum heap (fold_left (fun m '(k, v) => btree_insert k v m) l m)
            <= heap_sum heap m + heap_sum heap l /\
          zlen (fold_left (fun m '(k, v) => btree_insert k v m) l m) <= zlen m + zlen l) as Hm
    by exact (Hm []).
  induction l as [|[k v] l IH]; intros m; simpl; [unfold zlen; simpl; lia|].
  destruct (IH (btree_insert k v m)). destruct (btree_insert_heap k v m). rewrite zlen_cons. lia.
Qed.
End inserts.

(** What the entries own, and half of their own memory. *)
Definition btree_heap {T} (size_of : Z) (heap : T -> Z) (m : list T) : Z :=
  (size_of * zlen m) / 2 + heap_sum heap m.

Lemma btree_map_tracked {K V} `{Ord K} pair_size leaf_node_size (DK : Decode K) (DV : Decode V) wfK hK hV
    `{!DecodeLaws DK wfK, !MemTracked DK hK, !MemTracked DV hV} :
  0 <= pair_size -> CAPACITY * pair_size <= leaf_node_size -> pair_size * prim_max U32 <= usize_max ->
  MemTracked (btree_map_decode pair_size leaf_node_size DK DV) (btree_heap pair_size (pair_heap hK hV)).
Proof.
  intros Hs Hleaf Hmax. pose proof (tuple_tracked DK hK pair_size DV hV) as Ht.
  assert (forall e, 0 <= pair_heap hK hV e) as Hpos by (intros e; apply Ht).
  apply impl_decode_tracked.
  { intros m. pose proof (heap_sum_nonneg _ m Hpos). unfold btree_heap, zlen.
    pose proof (Z.div_pos (pair_size * Z.of_nat (length m)) 2). nia. }
  apply (collection_charges (tuple_decode pair_size DK DV) (pair_heap hK hV)). intros len v Hl Hv.
  destruct (btree_from_iter_heap _ Hpos v) as [Hh Hz].
  pose proof (mem_size_of_btree_half pair_size leaf_node_size len Hs Hleaf Hmax Hl) as Hhalf.
  unfold btree_heap.
  assert (pair_size * zlen (btree_from_iter v) / 2 <= mem_size_of_btree leaf_node_size len); [|lia].
  apply Z.div_le_upper_bound; nia.
Qed.

Lemma heap_sum_map {A T} (heap : T -> Z) (f : A -> T) l : heap_sum heap (map f l) = heap_sum (fun x => heap (f x)) l.
Proof. induction l as [|x l IH]; simpl; [done|]. by rewrite IH. Qed.

Lemma btree_set_tracked {T} `{Ord T} leaf_node_size (D : Decode T) wf heap `{!DecodeLaws D wf, !MemTracked D heap} :
  CAPACITY * D_size_of D <= leaf_node_size -> D_size_of D * prim_max U32 <= usize_max ->
  MemTracked (btree_set_decode leaf_node_size D) (btree_heap (D_size_of D) heap).
Proof.
  intros Hleaf Hmax. pose proof (size_of_nonneg (D := D)) as Hs. apply impl_decode_tracked.
  { intros m. pose proof (heap_sum_nonneg heap m heap_nonneg). unfold btree_heap, zlen.
    pose proof (Z.div_pos (D_size_of D * Z.of_nat (length m)) 2). nia. }
  apply (collection_charges D heap). intros len v Hl Hv.
  destruct (btree_from_iter_heap (fun e : T * unit => heap e.1) (fun e => heap_nonneg e.1) (map (fun x => (x, tt)) v))
    as [Hh Hz]. rewrite heap_sum_map in Hh.
  pose proof (mem_size_of_btree_half (D_size_of D) leaf_node_size len Hs Hleaf Hmax Hl) as Hhalf.
  unfold btree_heap, set_from_iter. rewrite heap_sum_map. unfold zlen in *. rewrite !length_map in *.
  change (heap_sum (fun x => heap (x, tt).1) v) with (heap_sum heap v) in Hh. set (m := btree_from_iter _) in *.
  assert (D_size_of D * Z.of_nat (length m) / 2 <= mem_size_of_btree leaf_node_size len); [|lia].
  apply Z.div_le_upper_bound; nia.
Qed.
End tracked_btree.

(** What a limit on memory is good for: the data of a decoded value stays below
    it. *)
Lemma mem_limit_heap `{Target} {I} `{InputLaws I} {T} (D : Decode T) wf heap
    `{!DecodeLaws D wf, !MemTracked D heap} limit (i : I) x i' :
  limit <= usize_max -> run (decode_with_mem_limit D limit) i = Done (Ok x, i') ->
  heap x = 0 \/ heap x < limit.
Proof.
  intros Hl Hrun. destruct (decode_with_mem_limit_run D wf limit i Hl) as [Hok Herr].
  assert (mem_within limit 0 (trace (decode D) i) \/ ~ mem_within limit 0 (trace (decode D) i)) as [Hw|Hw].
  { unfold mem_within. destruct (decide (allocs (trace (decode D) i) = [])); [by left; left|].
    destruct (decide (0 + alloc_total (trace (decode D) i) < limit)); [by left; right|].
    right. naive_solver. }
  - rewrite (Hok Hw) in Hrun.
    pose proof (decode_charges I _ _ i x i' Hrun) as Hh. pose proof (heap_nonneg x).
    destruct Hw as [Hnil|?]; [|right; lia]. left. unfold alloc_total in Hh. rewrite Hnil in Hh. simpl in Hh. lia.
  - destruct (Herr Hw) as (e & j & He). congruence.
Qed.
