(* ===== verification/Append.v ===== *)
(** * Working on encoded data ([encode_append.rs], [keyedvec.rs], [joiner.rs])

    [append_or_new] extends an encoded vector in place, without decoding its
    items; [to_keyed_vec] and [and] put an encoding behind other bytes. *)

From S2P Require Import Prelude Ints Errors Input Discipline Output Traits Primitives Compact.
From S2P Require Import CompactTheory Sequences SequencesTheory.

(** [u32::checked_add]. *)
Definition checked_add_u32 (a b : Z) : option Z :=
  if a + b <=? prim_max U32 then Some (a + b) else None.

(** [dst[..n].copy_from_slice(src)]. *)
Definition copy_to_prefix (n : Z) (src dst : list byte) : outcome (list byte) :=
  if zlen dst <? n then Panic "range end index out of range for slice"
  else if zlen src =? n then Done (src ++ drop (Z.to_nat n) dst)
  else Panic "source slice length does not match destination slice length".

Section append.
Context `{Target}.

(** The new buffer, with the length prefix of the extended vector. *)
Definition append_prefix (vec : list byte) (items_to_append : Z) : outcome (Result (list byte) Error) :=
  match vec with
  | [] =>
      match compact_encode_len_to items_to_append with
      | Err e => Done (Err e)
      | Ok p => Ok <$> run_output p vec
      end
  | _ =>
      '(r, _) ← run decode_len vec;
      match r with
      | Err e => Done (Err e)
      | Ok old_item_count =>
          match checked_add_u32 old_item_count (wrap U32 items_to_append) with
          | None => Done (Err (Error_from "cannot append new items into a SCALE-encoded vector: length overflow due to too many items"))
          | Some new_item_count =>
              let old_size := compact_len CU32 old_item_count in
              let new_size := compact_len CU32 new_item_count in
              if old_size =? new_size then
                length_encoded ← using_encoded (compact_encode CU32) new_item_count;
                Ok <$> copy_to_prefix old_size length_encoded vec
              else
                match checked_mul_usize (zlen vec) 2 with
                | None => Done (Err (Error_from "cannot append new items into a SCALE-encoded vector: new vector won't fit in memory"))
                | Some new_capacity =>
                    new_vec ← with_capacity new_capacity;
                    match compact_encode_len_to new_item_count with
                    | Err e => Done (Err e)
                    | Ok p =>
                        new_vec ← run_output p new_vec;
                        Done (Ok (new_vec ++ drop (Z.to_nat old_size) vec))
                    end
                end
          end
      end
  end.

Definition append_or_new_impl {T} (E : Encode T) (vec : list byte) (iter : list T)
    : outcome (Result (list byte) Error) :=
  r ← append_prefix vec (zlen iter);
  match r with
  | Err e => Done (Err e)
  | Ok vec => Ok <$> run_output (wfor iter (encode_to E)) vec
  end.

(** [KeyedVec::to_keyed_vec]. *)
Definition to_keyed_vec {T} (E : Encode T) (self : T) (prepend_key : list byte) : outcome (list byte) :=
  slice ← using_encoded E self;
  Done (prepend_key ++ slice).

(** [Joiner::and], on a [Vec<u8>]. *)
Definition joiner_and {T} (E : Encode T) (self : list byte) (value : T) : outcome (list byte) :=
  s ← using_encoded E value;
  Done (self ++ s).

(** ** Lemmas *)

Lemma drop_compact len rest :
  0 <= len <= prim_max U32 -> drop (Z.to_nat (compact_len CU32 len)) (compact_spec len ++ rest) = rest.
Proof.
  intros Hl. assert (in_range (compact_prim CU32) len) by done.
  rewrite <- zlen_compact_spec by done. apply drop_zlen_app.
Qed.

Lemma using_encoded_compact len :
  0 <= len <= prim_max U32 -> using_encoded (compact_encode CU32) len = Done (compact_spec len).
Proof.
  intros Hl. assert (in_range (compact_prim CU32) len) as Hr by done.
  apply (encode_complete (E := compact_encode CU32) len (compact_len CU32 len)); [done|done| |].
  { pose proof (compact_len_capacity CU32 len Hr). pose proof isize_max_ge. simpl in *. lia. }
  by apply wbytes_compact.
Qed.

Lemma run_encode_len len v :
  0 <= len <= prim_max U32 ->
  exists p, compact_encode_len_to len = Ok p /\ run_output p v = Done (v ++ compact_spec len).
Proof.
  intros Hl. assert (in_range (compact_prim CU32) len) by done.
  unfold compact_encode_len_to. decide_tests. eexists; split; [done|].
  rewrite wrap_id, run_output_vec by done.
  change (encode_to (compact_encode CU32)) with (compact_encode_to CU32).
  by rewrite wbytes_compact.
Qed.

Lemma compact_spec_nonempty len : compact_spec len <> [].
Proof. unfold compact_spec. repeat case_match; done. Qed.

(** The prefix of an encoded vector is replaced, whatever its new size. *)
Lemma append_prefix_run len rest n :
  0 <= len -> len + wrap U32 n <= prim_max U32 -> 2 * zlen (compact_spec len ++ rest) <= isize_max ->
  append_prefix (compact_spec len ++ rest) n = Done (Ok (compact_spec (len + wrap U32 n) ++ rest)).
Proof.
  intros Hl Hn Hfit. pose proof (wrap_in_range U32 n) as [Hw _]. change (prim_min U32) with 0 in Hw.
  assert (forall x, 0 <= x <= prim_max U32 -> in_range (compact_prim CU32) x) as Hr by done.
  pose proof (Hr len ltac:(lia)). pose proof (Hr (len + wrap U32 n) ltac:(lia)).
  unfold append_prefix.
  destruct (compact_spec len ++ rest) as [|b v] eqn:Hv.
  { apply app_eq_nil in Hv as [Hv _]. by apply compact_spec_nonempty in Hv. }
  rewrite <- Hv in *. rewrite run_decode_len by lia. simpl.
  unfold checked_add_u32. decide_tests. cbv zeta.
  change (compact_len_u32) with (compact_len CU32).
  destruct (compact_len CU32 len =? compact_len CU32 (len + wrap U32 n)) eqn:Hs; bool_to_prop.
  - pose proof (using_encoded_compact (len + wrap U32 n)) as Hu.
    simpl in Hu. unfold id in *. rewrite Hu by lia. simpl. unfold copy_to_prefix.
    change compact_len_u32 with (compact_len CU32).
    rewrite zlen_app, (zlen_compact_spec CU32), (zlen_compact_spec CU32), Hs by done.
    pose proof (zlen_nonneg rest). decide_tests.
    rewrite <- Hs, drop_compact by lia. done.
  - pose proof isize_usize_max. pose proof isize_max_ge.
    unfold checked_mul_usize, with_capacity. decide_tests. simpl.
    destruct (run_encode_len (len + wrap U32 n) []) as (p & -> & ->); [lia|]. simpl.
    by rewrite drop_compact by lia.
Qed.

Section append_items.
Context {T : Type} (E : Encode T) (wf : T -> Prop) `{!EncodeLaws E wf}.

Lemma append_items_run vec v iter items :
  append_prefix vec (zlen iter) = Done (Ok v) -> wbytes (wfor iter (encode_to E)) = Done items ->
  append_or_new_impl E vec iter = Done (Ok (v ++ items)).
Proof.
  intros Hp Hi. unfold append_or_new_impl. rewrite Hp. simpl. rewrite run_output_vec, Hi. done.
Qed.

(** Appending to an encoded vector encodes the longer vector. *)
Lemma append_or_new_correct xs ys bs items :
  Forall wf xs -> Forall wf ys ->
  wbytes (slice_encode_to E xs) = Done bs -> wbytes (wfor ys (encode_to E)) = Done items ->
  zlen (xs ++ ys) <= prim_max U32 -> 2 * zlen bs <= isize_max ->
  exists bs', append_or_new_impl E bs ys = Done (Ok bs') /\
    wbytes (slice_encode_to E (xs ++ ys)) = Done bs'.
Proof.
  intros Hxs Hys Hb Hi Hlen Hfit. apply (wbytes_slice E wf) in Hb as (b & Hn & Hb & ->); [|done].
  rewrite zlen_app in Hlen. pose proof (zlen_nonneg xs). pose proof (zlen_nonneg ys).
  assert (wrap U32 (zlen ys) = zlen ys) as Hw by (apply wrap_id; split; [done|lia]).
  eexists. split.
  - apply append_items_run; [|exact Hi]. apply append_prefix_run; [done| |done]. rewrite Hw. lia.
  - rewrite Hw. apply (wbytes_slice E wf); [by apply Forall_app|]. rewrite zlen_app.
    exists (b ++ items). rewrite app_assoc. split_and!; [lia| |done]. apply wfor_app. eauto.
Qed.

(** Without a vector to append to, a new one is made. *)
Lemma append_or_new_new ys items :
  Forall wf ys -> wbytes (wfor ys (encode_to E)) = Done items -> zlen ys <= prim_max U32 ->
  exists bs, append_or_new_impl E [] ys = Done (Ok bs) /\ wbytes (slice_encode_to E ys) = Done bs.
Proof.
  intros Hys Hi Hlen. pose proof (zlen_nonneg ys).
  destruct (run_encode_len (zlen ys) []) as (p & Hp & Hr); [lia|].
  eexists. split.
  - apply append_items_run; [|exact Hi]. unfold append_prefix. by rewrite Hp, Hr.
  - apply (wbytes_slice E wf); [done|]. simpl. eauto.
Qed.

(** Too many items are refused. *)
Lemma append_or_new_overflow xs ys bs :
  Forall wf xs -> wbytes (slice_encode_to E xs) = Done bs ->
  zlen ys <= prim_max U32 < zlen (xs ++ ys) ->
  exists e, append_or_new_impl E bs ys = Done (Err e).
Proof.
  intros Hxs Hb Hlen. apply (wbytes_slice E wf) in Hb as (b & Hn & _ & ->); [|done].
  rewrite zlen_app in Hlen. pose proof (zlen_nonneg xs). pose proof (zlen_nonneg ys).
  unfold append_or_new_impl, append_prefix.
  destruct (compact_spec (zlen xs) ++ b) as [|c v] eqn:Hv.
  { apply app_eq_nil in Hv as [Hv _]. by apply compact_spec_nonempty in Hv. }
  rewrite <- Hv. rewrite run_decode_len by lia. simpl.
  rewrite wrap_id by (split; [done|lia]). unfold checked_add_u32. decide_tests. simpl. eauto.
Qed.

(** The number of items is reduced modulo [2 ^ 32] before it is added. *)
Lemma append_or_new_truncates xs ys bs items :
  Forall wf xs -> wbytes (slice_encode_to E xs) = Done bs ->
  wbytes (wfor ys (encode_to E)) = Done items ->
  zlen ys mod 2 ^ 32 = 0 -> 2 * zlen bs <= isize_max ->
  append_or_new_impl E bs ys = Done (Ok (bs ++ items)).
Proof.
  intros Hxs Hb Hi Hm Hfit. apply (wbytes_slice E wf) in Hb as (b & Hn & Hb & ->); [|done].
  pose proof (zlen_nonneg xs). apply append_items_run; [|done].
  assert (wrap U32 (zlen ys) = 0) as Hw by (unfold wrap; simpl; exact Hm).
  rewrite append_prefix_run by (rewrite ?Hw; lia || done). by rewrite Hw, Z.add_0_r.
Qed.
End append_items.
End append.
