(* ===== verification/MaxLen.v ===== *)
(** * Bounds on encoded lengths ([max_encoded_len.rs], [const_encoded_len.rs])

    [max_encoded_len()] of each type, and the proof that no encoding is longer;
    for the types marked [ConstEncodedLen], that every encoding has exactly that
    length.  A slice is at most [usize::MAX] bytes long. *)

From S2P Require Import Prelude Ints Errors Input Discipline Output Traits Primitives Compact.
From S2P Require Import CompactTheory Sequences SequencesTheory Composite.

Section max_len.
Context `{Target}.

(** [impl_primitives!]: [mem::size_of::<$t>()]. *)
Definition prim_max_len (p : prim) : Z := Z.of_nat (prim_bytes p).
Definition bool_max_len : Z := 1.

(** [impl_compact!]. *)
Definition compact_max_len (c : compact_ty) : Z :=
  match c with CU8 => 2 | CU16 => 4 | CU32 => 5 | CU64 => 9 | CU128 => 17 end.
Definition compact_unit_max_len : Z := 0.

(** [impl_for_tuples]: the components' lengths, added up one by one. *)
Definition tuple_max_len (lens : list Z) : Z := fold_left saturating_add_usize lens 0.

Definition array_max_len (len : Z) (N : nat) : Z := saturating_mul_usize len (Z.of_nat N).
(** [Box<T>] and [Arc<T>]. *)
Definition box_max_len (len : Z) : Z := len.
Definition option_max_len (len : Z) : Z := saturating_add_usize len 1.
Definition result_max_len (len_t len_e : Z) : Z := saturating_add_usize (Z.max len_t len_e) 1.
Definition phantom_max_len : Z := 0.
Definition duration_max_len : outcome Z := add_usize (prim_max_len U64) (prim_max_len U32).
(** [Range<T>] and [RangeInclusive<T>]. *)
Definition range_max_len (len : Z) : Z := saturating_mul_usize len 2.

(** ** The contracts *)

(** [MaxEncodedLen]: no encoding is longer than [n]. *)
Class MaxEncodedLen {T} (E : Encode T) (wf : T -> Prop) (n : Z) : Prop := {
  max_encoded_len_nonneg : 0 <= n;
  max_encoded_len_bound x bs :
    wf x -> wbytes (encode_to E x) = Done bs -> zlen bs <= usize_max -> zlen bs <= n;
}.

(** [ConstEncodedLen]: every encoding has the length [n]. *)
Class ConstEncodedLen {T} (E : Encode T) (wf : T -> Prop) (n : Z) : Prop := {
  const_encoded_len_nonneg : 0 <= n;
  const_encoded_len x bs :
    wf x -> wbytes (encode_to E x) = Done bs -> zlen bs <= usize_max -> zlen bs = n;
}.

Lemma const_max {T} (E : Encode T) wf n : ConstEncodedLen E wf n -> MaxEncodedLen E wf n.
Proof.
  intros Hc. split; [apply const_encoded_len_nonneg|].
  intros x bs Hx Hb Hl. by rewrite (const_encoded_len x bs Hx Hb Hl).
Qed.

(** ** Primitives and compact integers *)

#[global] Instance prim_const_len p : ConstEncodedLen (prim_encode p) (in_range p) (prim_max_len p).
Proof.
  split; [unfold prim_max_len; lia|].
  intros x bs _. rewrite wbytes_prim. intros [= <-] _. apply zlen_to_le_bytes.
Qed.

#[global] Instance non_zero_const_len p :
  ConstEncodedLen (non_zero_encode p) (non_zero_range p) (prim_max_len p).
Proof.
  split; [unfold prim_max_len; lia|].
  intros x bs [Hx _]. by apply (const_encoded_len (E := prim_encode p)).
Qed.

#[global] Instance bool_const_len : ConstEncodedLen bool_encode (fun _ => True) bool_max_len.
Proof. split; [done|]. by intros x bs _ [= <-] _. Qed.

#[global] Instance phantom_const_len : ConstEncodedLen phantom_encode (fun _ => True) phantom_max_len.
Proof. split; [done|]. by intros x bs _ [= <-] _. Qed.

#[global] Instance compact_len_bound c :
  MaxEncodedLen (compact_encode c) (in_range (compact_prim c)) (compact_max_len c).
Proof.
  split; [by destruct c|].
  intros x bs Hx Hb _. change (wbytes (compact_encode_to c x) = Done bs) in Hb.
  rewrite wbytes_compact in Hb by done. injection Hb as <-.
  rewrite (zlen_compact_spec c) by done.
  pose proof (compact_len_capacity c x Hx) as [_ Hc]. by destruct c.
Qed.

#[global] Instance compact_unit_len_bound :
  MaxEncodedLen compact_unit_encode (fun _ => True) compact_unit_max_len.
Proof. split; [done|]. by intros x bs _ [= <-] _. Qed.

(** ** Composite types *)

Lemma usize_max_nonneg : 1 <= usize_max.
Proof. pose proof usize_max_ge. lia. Qed.

Section composite.
Context {A B : Type} (EA : Encode A) (EB : Encode B) (wfA : A -> Prop) (wfB : B -> Prop) (n m : Z).

(** Two encodings, one after the other. *)
Lemma pair_bytes (p q : wprog) bs :
  wbytes (p ;;; q) = Done bs -> zlen bs <= usize_max ->
  exists a b, wbytes p = Done a /\ wbytes q = Done b /\
    zlen a <= usize_max /\ zlen b <= usize_max /\ zlen bs = zlen a + zlen b.
Proof.
  intros (a & b & Ha & Hb & ->)%wbytes_wseq_done. rewrite zlen_app. intros Hl.
  pose proof (zlen_nonneg a). pose proof (zlen_nonneg b).
  exists a, b. split_and!; (done || lia).
Qed.

#[global] Instance tuple_len_bound size_of `{!MaxEncodedLen EA wfA n, !MaxEncodedLen EB wfB m} :
  MaxEncodedLen (tuple_encode size_of EA EB) (tuple_wf wfA wfB) (tuple_max_len [n; m]).
Proof.
  pose proof (max_encoded_len_nonneg (E := EA)) as Hn. pose proof (max_encoded_len_nonneg (E := EB)) as Hm.
  pose proof usize_max_nonneg. unfold tuple_max_len, saturating_add_usize. simpl. split; [lia|].
  intros x bs [Hx Hy] Hb Hl. destruct (pair_bytes _ _ bs Hb Hl) as (a & b & Ha & Hbb & Hla & Hlb & Hs).
  pose proof (max_encoded_len_bound _ _ Hx Ha Hla). pose proof (max_encoded_len_bound _ _ Hy Hbb Hlb).
  lia.
Qed.

#[global] Instance tuple_const_len size_of `{!ConstEncodedLen EA wfA n, !ConstEncodedLen EB wfB m} :
  ConstEncodedLen (tuple_encode size_of EA EB) (tuple_wf wfA wfB) (tuple_max_len [n; m]).
Proof.
  pose proof (const_encoded_len_nonneg (E := EA)) as Hn. pose proof (const_encoded_len_nonneg (E := EB)) as Hm.
  pose proof usize_max_nonneg. unfold tuple_max_len, saturating_add_usize. simpl. split; [lia|].
  intros x bs [Hx Hy] Hb Hl. destruct (pair_bytes _ _ bs Hb Hl) as (a & b & Ha & Hbb & Hla & Hlb & Hs).
  pose proof (const_encoded_len _ _ Hx Ha Hla). pose proof (const_encoded_len _ _ Hy Hbb Hlb).
  lia.
Qed.

#[global] Instance option_len_bound size_of `{!MaxEncodedLen EA wfA n} :
  MaxEncodedLen (option_encode size_of EA) (option_wf wfA) (option_max_len n).
Proof.
  pose proof (max_encoded_len_nonneg (E := EA)) as Hn. pose proof usize_max_nonneg.
  unfold option_max_len, saturating_add_usize. split; [lia|].
  intros [x|] bs Hx Hb Hl; simpl in Hb.
  - destruct (wbytes (encode_to EA x)) as [a|] eqn:Ha; simpl in Hb; simplify_eq.
    rewrite zlen_cons in *. pose proof (max_encoded_len_bound x a Hx Ha). lia.
  - simplify_eq. rewrite zlen_cons, zlen_nil in *. lia.
Qed.

#[global] Instance result_len_bound size_of `{!MaxEncodedLen EA wfA n, !MaxEncodedLen EB wfB m} :
  MaxEncodedLen (result_encode size_of EA EB) (result_wf wfA wfB) (result_max_len n m).
Proof.
  pose proof (max_encoded_len_nonneg (E := EA)) as Hn. pose proof (max_encoded_len_nonneg (E := EB)) as Hm.
  pose proof usize_max_nonneg. unfold result_max_len, saturating_add_usize. split; [lia|].
  intros [x|x] bs Hx Hb Hl; simpl in Hb.
  - destruct (wbytes (encode_to EA x)) as [a|] eqn:Ha; simpl in Hb; simplify_eq.
    rewrite zlen_cons in *. pose proof (max_encoded_len_bound x a Hx Ha). lia.
  - destruct (wbytes (encode_to EB x)) as [a|] eqn:Ha; simpl in Hb; simplify_eq.
    rewrite zlen_cons in *. pose proof (max_encoded_len_bound x a Hx Ha). lia.
Qed.

#[global] Instance pointer_len_bound `{!MaxEncodedLen EA wfA n} :
  MaxEncodedLen (pointer_encode EA) wfA (box_max_len n).
Proof.
  split; [apply (max_encoded_len_nonneg (E := EA))|]. apply (max_encoded_len_bound (E := EA)).
Qed.

#[global] Instance pointer_const_len `{!ConstEncodedLen EA wfA n} :
  ConstEncodedLen (pointer_encode EA) wfA (box_max_len n).
Proof.
  split; [apply (const_encoded_len_nonneg (E := EA))|]. apply (const_encoded_len (E := EA)).
Qed.

(** Items, one after the other. *)
Lemma items_len_bound `{!MaxEncodedLen EA wfA n} l bs :
  Forall wfA l -> wbytes (wfor l (encode_to EA)) = Done bs -> zlen bs <= usize_max ->
  zlen bs <= n * zlen l.
Proof.
  intros Hl. revert bs. induction Hl as [|x l Hx Hl IH]; intros bs Hb Hbs; simpl in Hb.
  - simplify_eq. unfold zlen; simpl; lia.
  - destruct (pair_bytes _ _ bs Hb Hbs) as (a & b & Ha & Hbb & Hla & Hlb & Hs).
    pose proof (max_encoded_len_bound _ _ Hx Ha Hla). specialize (IH b Hbb Hlb).
    rewrite zlen_cons. lia.
Qed.

Lemma items_const_len `{!ConstEncodedLen EA wfA n} l bs :
  Forall wfA l -> wbytes (wfor l (encode_to EA)) = Done bs -> zlen bs <= usize_max ->
  zlen bs = n * zlen l.
Proof.
  intros Hl. revert bs. induction Hl as [|x l Hx Hl IH]; intros bs Hb Hbs; simpl in Hb.
  - simplify_eq. unfold zlen; simpl; lia.
  - destruct (pair_bytes _ _ bs Hb Hbs) as (a & b & Ha & Hbb & Hla & Hlb & Hs).
    pose proof (const_encoded_len _ _ Hx Ha Hla). specialize (IH b Hbb Hlb).
    rewrite zlen_cons. lia.
Qed.

#[global] Instance array_len_bound N `{!EncodeLaws EA wfA, !MaxEncodedLen EA wfA n} :
  MaxEncodedLen (array_encode EA N) (array_wf wfA N) (array_max_len n N).
Proof.
  pose proof (max_encoded_len_nonneg (E := EA)) as Hn. pose proof usize_max_nonneg.
  unfold array_max_len, saturating_mul_usize. split; [nia|].
  intros l bs [Hl HN] Hb Hbs. cbn [encode_to array_encode impl_encode_to] in Hb.
  rewrite (encode_slice_no_len_items EA wfA) in Hb by done.
  pose proof (items_len_bound l bs Hl Hb Hbs). unfold zlen in *. rewrite HN in *. lia.
Qed.

#[global] Instance array_const_len N `{!EncodeLaws EA wfA, !ConstEncodedLen EA wfA n} :
  ConstEncodedLen (array_encode EA N) (array_wf wfA N) (array_max_len n N).
Proof.
  pose proof (const_encoded_len_nonneg (E := EA)) as Hn. pose proof usize_max_nonneg.
  unfold array_max_len, saturating_mul_usize. split; [nia|].
  intros l bs [Hl HN] Hb Hbs. cbn [encode_to array_encode impl_encode_to] in Hb.
  rewrite (encode_slice_no_len_items EA wfA) in Hb by done.
  pose proof (items_const_len l bs Hl Hb Hbs). unfold zlen in *. rewrite HN in *. lia.
Qed.

(** Ranges are encoded as pairs. *)
Lemma ref_pair_len_bound `{!MaxEncodedLen EA wfA n} x y bs :
  wfA x -> wfA y -> encode_ref_pair EA x y = Done bs -> zlen bs <= usize_max ->
  zlen bs <= range_max_len n.
Proof.
  intros Hx Hy Hb%encode_ref_pair_sound Hl. pose proof (max_encoded_len_nonneg (E := EA)).
  destruct (pair_bytes _ _ bs Hb Hl) as (a & b & Ha & Hbb & Hla & Hlb & Hs).
  pose proof (max_encoded_len_bound _ _ Hx Ha Hla). pose proof (max_encoded_len_bound _ _ Hy Hbb Hlb).
  unfold range_max_len, saturating_mul_usize. lia.
Qed.

Lemma range_max_len_nonneg : 0 <= n -> 0 <= range_max_len n.
Proof. intros. pose proof usize_max_nonneg. unfold range_max_len, saturating_mul_usize. lia. Qed.

#[global] Instance range_len_bound size_of `{!MaxEncodedLen EA wfA n} :
  MaxEncodedLen (range_encode size_of EA) (fun r => wfA (start r) /\ wfA (end_ r)) (range_max_len n).
Proof.
  split; [apply range_max_len_nonneg, (max_encoded_len_nonneg (E := EA))|].
  intros r bs [Hx Hy]. unfold range_encode. rewrite wbytes_impl_encode. by apply ref_pair_len_bound.
Qed.

#[global] Instance range_inclusive_len_bound size_of `{!MaxEncodedLen EA wfA n} :
  MaxEncodedLen (range_inclusive_encode size_of EA) (fun r => wfA (ri_start r) /\ wfA (ri_end r))
    (range_max_len n).
Proof.
  split; [apply range_max_len_nonneg, (max_encoded_len_nonneg (E := EA))|].
  intros r bs [Hx Hy]. unfold range_inclusive_encode. rewrite wbytes_impl_encode.
  by apply ref_pair_len_bound.
Qed.

Lemma ref_pair_const_len `{!ConstEncodedLen EA wfA n} x y bs :
  wfA x -> wfA y -> encode_ref_pair EA x y = Done bs -> zlen bs <= usize_max ->
  zlen bs = range_max_len n.
Proof.
  intros Hx Hy Hb%encode_ref_pair_sound Hl.
  destruct (pair_bytes _ _ bs Hb Hl) as (a & b & Ha & Hbb & Hla & Hlb & Hs).
  pose proof (const_encoded_len _ _ Hx Ha Hla). pose proof (const_encoded_len _ _ Hy Hbb Hlb).
  unfold range_max_len, saturating_mul_usize. lia.
Qed.

#[global] Instance range_const_len size_of `{!ConstEncodedLen EA wfA n} :
  ConstEncodedLen (range_encode size_of EA) (fun r => wfA (start r) /\ wfA (end_ r)) (range_max_len n).
Proof.
  split; [apply range_max_len_nonneg, (const_encoded_len_nonneg (E := EA))|].
  intros r bs [Hx Hy]. unfold range_encode. rewrite wbytes_impl_encode. by apply ref_pair_const_len.
Qed.

#[global] Instance range_inclusive_const_len size_of `{!ConstEncodedLen EA wfA n} :
  ConstEncodedLen (range_inclusive_encode size_of EA) (fun r => wfA (ri_start r) /\ wfA (ri_end r))
    (range_max_len n).
Proof.
  split; [apply range_max_len_nonneg, (const_encoded_len_nonneg (E := EA))|].
  intros r bs [Hx Hy]. unfold range_inclusive_encode. rewrite wbytes_impl_encode.
  by apply ref_pair_const_len.
Qed.
End composite.

Lemma duration_max_len_12 : duration_max_len = Done 12.
Proof.
  unfold duration_max_len, add_usize. change (prim_max_len U64 + prim_max_len U32) with 12.
  pose proof usize_max_ge. by decide_tests.
Qed.

#[global] Instance duration_const_len n :
  duration_max_len = Done n -> ConstEncodedLen duration_encode duration_wf n.
Proof.
  rewrite duration_max_len_12. intros [= <-]. split; [done|].
  intros d bs Hd. unfold duration_encode. rewrite wbytes_impl_encode. intros Hb _.
  apply (encode_sound (E := tuple_encode 16 (prim_encode U64) (prim_encode U32))
    (EncodeLaws := impl_encode_to_laws _ _ _ (fun _ => True))) in Hb.
  apply wbytes_wseq_done in Hb as (a & b & Ha & Hb & ->).
  rewrite wbytes_prim in Ha, Hb. simplify_eq. by rewrite zlen_app, !zlen_to_le_bytes.
Qed.
End max_len.
