(* ===== verification/Derive.v ===== *)
(** * The derive macros ([derive/src])

    [#[derive(Encode, Decode, MaxEncodedLen)]] generates implementations from
    the declaration of a struct or an enum.  The declaration is a value of
    [fields] or [variants]: a struct is the tuple of its fields, an enum the sum
    of its variants.  The functions below are what the generated code computes. *)

From S2P Require Import Prelude Ints Errors Input Discipline Output Traits Primitives Compact.
From S2P Require Import CompactTheory Sequences SequencesTheory Composite MaxLen.

(** ** Declarations *)

(** The attribute of a field, with the implementations the generated code names:
    for [#[codec(compact)]] and [#[codec(encoded_as = "..")]] the type [R] that
    is encoded ([EncodeAsRef::RefType], with its [From<&F>]) and the type [C]
    that is decoded (with its [Into<F>]); for [#[codec(skip)]] the [Default].
    Using two of them at once is a compile-time error. *)
Inductive field_attr (F : Type) : Type :=
| FieldNone (E : Encode F) (D : Decode F)
| FieldCompact (R C : Type) (E : Encode R) (from : F -> R) (D : Decode C) (into : C -> F)
| FieldEncodedAs (R C : Type) (E : Encode R) (from : F -> R) (D : Decode C) (into : C -> F)
| FieldSkip (default : F).
Arguments FieldNone {_} _ _.
Arguments FieldCompact {_ _ _} _ _ _ _.
Arguments FieldEncodedAs {_ _ _} _ _ _ _.
Arguments FieldSkip {_} _.

(** [f_mel] and [f_compact_mel] are [max_encoded_len()] of the field's type and
    of its compact type. *)
Record field (F : Type) : Type := mkField {
  f_name : string;
  f_attr : field_attr F;
  f_mel : Z;
  f_compact_mel : Z;
}.
Arguments mkField {_} _ _ _ _.
Arguments f_name {_} _.
Arguments f_attr {_} _.
Arguments f_mel {_} _.
Arguments f_compact_mel {_} _.

Inductive fields : Type -> Type :=
| FNil : fields unit
| FCons F A (f : field F) (fs : fields A) : fields (F * A).
Arguments FCons {_ _} _ _.

(** [named] tells [struct S { a: .. }] from [struct S(..)]. *)
Record variant (A : Type) : Type := mkVariant {
  v_name : string;
  v_skip : bool;
  v_index_attr : option Z;
  v_discriminant : option Z;
  v_named : bool;
  v_fields : fields A;
}.
Arguments mkVariant {_} _ _ _ _ _ _.
Arguments v_name {_} _.
Arguments v_skip {_} _.
Arguments v_index_attr {_} _.
Arguments v_discriminant {_} _.
Arguments v_named {_} _.
Arguments v_fields {_} _.

Inductive variants : Type -> Type :=
| VNil : variants Empty_set
| VCons A R (v : variant A) (vs : variants R) : variants (A + R).
Arguments VCons {_ _} _ _.

(** ** [derive/src/utils.rs] *)

(** [variant_index(v, i)]: the attribute, else the discriminant, else the
    position among the variants that are not skipped. *)
Definition variant_index {A} (v : variant A) (i : Z) : Z :=
  match v_index_attr v with
  | Some n => n
  | None => match v_discriminant v with Some d => d | None => i end
  end.

(** [#index as ::core::primitive::u8]. *)
Definition index_byte {A} (v : variant A) (i : Z) : byte := byte.of_Z (wrap U8 (variant_index v i)).

(** [should_skip], on a field. *)
Definition is_skip {F} (f : field F) : bool :=
  match f_attr f with FieldSkip _ => true | _ => false end.

(** The number of fields [filter_skip_named] (or [.._unnamed]) leaves. *)
Fixpoint count_unskipped {A} (fs : fields A) : nat :=
  match fs with
  | FNil => 0
  | FCons f fs => (if is_skip f then 0 else 1) + count_unskipped fs
  end.

(** The number of variants that are not skipped. *)
Fixpoint count_variants {A} (vs : variants A) : Z :=
  match vs with
  | VNil => 0
  | VCons v vs => (if v_skip v then 0 else 1) + count_variants vs
  end.

(** [try_get_variants]: more than 256 of them are a compile-time error. *)
Definition try_get_variants_ok {A} (vs : variants A) : bool := negb (256 <? count_variants vs).

Section derive.
Context `{Target}.

(** ** [derive/src/encode.rs] *)

(** The implementation a field is encoded with: none for a skipped field. *)
Definition field_encode {F} (f : field F) : option (Encode F) :=
  match f_attr f with
  | FieldNone E _ => Some E
  | FieldCompact E from _ _ | FieldEncodedAs E from _ _ => Some (impl_forward (E_size_of E) from E)
  | FieldSkip _ => None
  end.

Definition encode_field {F} (f : field F) (x : F) : wprog :=
  match field_encode f with
  | Some E => encode_to E x
  | None => WDone
  end.

Fixpoint encode_fields {A} (fs : fields A) : A -> wprog :=
  match fs with
  | FNil => fun _ => WDone
  | FCons f fs => fun x => encode_field f x.1 ;;; encode_fields fs x.2
  end.

(** [0_usize.saturating_add(..).saturating_add(..)], from the sum so far. *)
Fixpoint size_hint_fields {A} (fs : fields A) (acc : Z) : A -> outcome Z :=
  match fs with
  | FNil => fun _ => Done acc
  | FCons f fs => fun x =>
      match field_encode f with
      | Some E => h ← size_hint E x.1; size_hint_fields fs (saturating_add_usize acc h) x.2
      | None => size_hint_fields fs acc x.2
      end
  end.

(** The first field that is not skipped, as an implementation for the struct. *)
Fixpoint first_field_encode {A} (fs : fields A) : option (Encode A) :=
  match fs with
  | FNil => None
  | FCons f fs =>
      match field_encode f with
      | Some E => Some (impl_forward 0 fst E)
      | None => impl_forward 0 snd <$> first_field_encode fs
      end
  end.

(** [try_impl_encode_single_field_optimisation], else [impl_encode]. *)
Definition struct_encode {A} (size_of : Z) (fs : fields A) : Encode A :=
  match (if Nat.eqb (count_unskipped fs) 1 then first_field_encode fs else None) with
  | Some E => impl_forward size_of id E
  | None => impl_encode_to size_of (size_hint_fields fs 0) (encode_fields fs)
  end.

(** The match over the variants, from the variant with position [i]; the last
    arm is [_ => ()]. *)
Fixpoint encode_variants {A} (vs : variants A) (i : Z) : A -> wprog :=
  match vs with
  | VNil => fun x => match x with end
  | VCons v vs => fun x =>
      match x with
      | inl a => if v_skip v then WDone else push_byte (index_byte v i) ;;; encode_fields (v_fields v) a
      | inr r => encode_variants vs (if v_skip v then i else i + 1) r
      end
  end.

Fixpoint size_hint_variants {A} (vs : variants A) : A -> outcome Z :=
  match vs with
  | VNil => fun x => match x with end
  | VCons v vs => fun x =>
      match x with
      | inl a => if v_skip v then Done 0 else size_hint_fields (v_fields v) 0 a
      | inr r => size_hint_variants vs r
      end
  end.

(** Without variants to encode nothing is generated, and the default bodies of
    [encode_to], [using_encoded] and [encode] call each other for ever. *)
Definition unbounded_recursion : string := "thread has overflowed its stack".

Definition no_encode_body {A} (size_of : Z) : Encode A :=
  {| E_TYPE_INFO := Unknown; E_size_of := size_of; size_hint := default_size_hint;
     encode_to _ := WPanic unbounded_recursion;
     encode _ := Panic unbounded_recursion;
     using_encoded _ := Panic unbounded_recursion |}.

Definition enum_encode {A} (size_of : Z) (vs : variants A) : Encode A :=
  if count_variants vs =? 0 then no_encode_body size_of
  else
    impl_encode_to size_of (fun x => h ← size_hint_variants vs x; add_usize 1 h) (encode_variants vs 0).

(** ** [derive/src/decode.rs] *)

(** [create_decode_expr]. *)
Definition decode_field {F} (f : field F) (name : string) : dec F :=
  let err_msg := String.append "Could not decode `" (String.append name "`") in
  match f_attr f with
  | FieldCompact _ _ D into | FieldEncodedAs _ _ D into =>
      res ⇐ chain_err err_msg (decode D); ok (into res)
  | FieldSkip default => ok default
  | FieldNone _ D => chain_err err_msg (decode D)
  end.

(** [create_instance]: the fields in the order of their declaration. *)
Fixpoint decode_fields {A} (fs : fields A) (name_str : string) (named : bool) : dec A :=
  match fs with
  | FNil => ok tt
  | FCons f fs =>
      x ⇐ decode_field f (String.append name_str (String.append (if named then "::" else ".") (f_name f)));
      xs ⇐ decode_fields fs name_str named;
      ok (x, xs)
  end.

(** The match on the variant byte: the first variant with that index. *)
Fixpoint decode_variants {A} (vs : variants A) (type_name : string) (i : Z) (b : byte) : dec A :=
  match vs with
  | VNil =>
      throw (String.append "Could not decode `"
               (String.append type_name "`, variant doesn't exist"))
  | VCons v vs =>
      if negb (v_skip v) && Byte.eqb b (index_byte v i) then
        dec_map inl (decode_fields (v_fields v)
                       (String.append type_name (String.append "::" (v_name v))) (v_named v))
      else dec_map inr (decode_variants vs type_name (if v_skip v then i else i + 1) b)
  end.

Definition enum_decode_fn {A} (type_name : string) (vs : variants A) : dec A :=
  b ⇐ chain_err (String.append "Could not decode `"
                   (String.append type_name "`, failed to read variant byte")) read_byte;
  decode_variants vs type_name 0 b.

Definition enum_decode {A} (size_of : Z) (type_name : string) (vs : variants A) : Decode A :=
  impl_decode size_of (enum_decode_fn type_name vs).

(** [quote_decode_into], for [#[repr(transparent)]] structs: every field in
    turn, in place. *)
Fixpoint transparent_fields {A} (fs : fields A) : option (dec A * list Z) :=
  match fs with
  | FNil => Some (ok tt, [])
  | FCons f fs =>
      match f_attr f, transparent_fields fs with
      | FieldNone _ D, Some (d, sizes) =>
          Some (x ⇐ decode_into D; xs ⇐ d; ok (x, xs), D_size_of D :: sizes)
      | _, _ => None
      end
  end.

Definition struct_decode_into {A} (size_of : Z) (transparent : bool) (fs : fields A) : option (dec A) :=
  if transparent then
    match transparent_fields fs with
    | None | Some (_, []) => None
    | Some (d, sizes) =>
        Some (if (foldr Z.add 0 sizes =? size_of)
                 && (Nat.leb (length (List.filter (fun s => 0 <? s) sizes)) 1)
              then d else Halt "assertion failed")
    end
  else None.

Definition struct_decode {A} (size_of : Z) (transparent : bool) (type_name : string) (named : bool)
    (fs : fields A) : Decode A :=
  let d := decode_fields fs type_name named in
  {| D_TYPE_INFO := Unknown; D_size_of := size_of; decode := d;
     decode_into := match struct_decode_into size_of transparent fs with
                    | Some d => d
                    | None => default_decode_into d
                    end;
     skip := default_skip d;
     encoded_fixed_size := None |}.

(** ** [derive/src/max_encoded_len.rs] *)

(** [fields_length_expr]: [encoded_as] is not looked at. *)
Fixpoint fields_length {A} (fs : fields A) (acc : Z) : Z :=
  match fs with
  | FNil => acc
  | FCons f fs =>
      fields_length fs
        (match f_attr f with
         | FieldSkip _ => acc
         | FieldCompact _ _ _ _ => saturating_add_usize acc (f_compact_mel f)
         | _ => saturating_add_usize acc (f_mel f)
         end)
  end.

(** [0_usize.max(..).max(..)]. *)
Fixpoint variants_length {A} (vs : variants A) (acc : Z) : Z :=
  match vs with
  | VNil => acc
  | VCons v vs =>
      variants_length vs (if v_skip v then acc else Z.max acc (fields_length (v_fields v) 0))
  end.

Definition struct_max_len {A} (fs : fields A) : Z := fields_length fs 0.
Definition enum_max_len {A} (vs : variants A) : Z := saturating_add_usize (variants_length vs 0) 1.
End derive.
