(* ===== verification/DeriveTheory.v ===== *)
(** * Theory of the derive macros

    The generated implementations have the codec laws when those of the fields
    have them and, for an enum, no two variants share an index. *)

From S2P Require Import Prelude Ints Errors Input Discipline Output Traits Primitives Compact.
From S2P Require Import CompactTheory Sequences SequencesTheory Composite MaxLen Derive.

Section theory.
Context `{Target}.

(** ** Fields *)

(** A value [x] is encoded as [from x] and decoded as [into c]: both sides have
    to agree on an intermediate encoding. *)
Definition represented {F R C} (E : Encode R) (from : F -> R) (D : Decode C) (into : C -> F)
    (wf : F -> Prop) : Prop :=
  exists (wfR : R -> Prop) (wfC : C -> Prop) (EC : Encode C),
    EncodeLaws E wfR /\ CodecLaws EC D wfC /\
    (forall x, wf x -> wfR (from x)) /\ (forall c, wfC c -> wf (into c)) /\
    (forall x, wf x -> exists c, wfC c /\ into c = x /\
       wbytes (encode_to EC c) = wbytes (encode_to E (from x))).

(** What a field has to provide; a skipped one is always its default. *)
Definition field_ok {F} (f : field F) (wf : F -> Prop) : Prop :=
  match f_attr f with
  | FieldNone E D => CodecLaws E D wf
  | FieldCompact E from D into | FieldEncodedAs E from D into => represented E from D into wf
  | FieldSkip default => forall x, wf x <-> x = default
  end.

Inductive fields_ok : forall A, fields A -> (A -> Prop) -> Prop :=
| fields_ok_nil : fields_ok unit FNil (fun _ => True)
| fields_ok_cons F A (f : field F) (fs : fields A) wf wfs :
    field_ok f wf -> fields_ok A fs wfs ->
    fields_ok (F * A) (FCons f fs) (fun x => wf x.1 /\ wfs x.2).
Arguments fields_ok {_} _ _.

Lemma represented_roundtrip {F R C} (E : Encode R) (from : F -> R) (D : Decode C) (into : C -> F) wf
    desc x bs rest :
  represented E from D into wf -> wf x -> wbytes (encode_to E (from x)) = Done bs ->
  run (res ⇐ chain_err desc (decode D); ok (into res)) (bs ++ rest) = Done (Ok x, rest).
Proof.
  intros (wfR & wfC & EC & HE & HC & _ & _ & Hrep) Hx Hb.
  destruct (Hrep x Hx) as (c & Hc & <- & He). rewrite <- He in Hb.
  by apply (chained_roundtrip EC D wfC).
Qed.

Lemma represented_wb {F R C} (E : Encode R) (from : F -> R) (D : Decode C) (into : C -> F) wf desc :
  represented E from D into wf -> wb wf 0 (res ⇐ chain_err desc (decode D); ok (into res)).
Proof.
  intros (wfR & wfC & EC & HE & HC & _ & Hinto & _). by apply (chained_wb D wfC).
Qed.

Lemma field_roundtrip {F} (f : field F) wf name x bs rest :
  field_ok f wf -> wf x -> wbytes (encode_field f x) = Done bs ->
  run (decode_field f name) (bs ++ rest) = Done (Ok x, rest).
Proof.
  unfold field_ok, encode_field, field_encode, decode_field.
  destruct (f_attr f) as [E D|R C E from D into|R C E from D into|d]; intros Hf Hx Hb.
  - rewrite run_chain_err, (roundtrip x bs rest Hx Hb). done.
  - by apply (represented_roundtrip E from D into wf).
  - by apply (represented_roundtrip E from D into wf).
  - simpl in Hb. simplify_eq. apply Hf in Hx as ->. done.
Qed.

Lemma decode_field_wb {F} (f : field F) wf name : field_ok f wf -> wb wf 0 (decode_field f name).
Proof.
  unfold field_ok, decode_field.
  destruct (f_attr f) as [E D|R C E from D into|R C E from D into|d]; intros Hf.
  - apply wb_chain_err, decode_wb.
  - by eapply represented_wb.
  - by eapply represented_wb.
  - apply wb_done. by apply Hf.
Qed.

Lemma field_encode_laws {F} (f : field F) wf E :
  field_ok f wf -> field_encode f = Some E -> EncodeLaws E wf.
Proof.
  unfold field_ok, field_encode.
  destruct (f_attr f) as [E' D|R C E' from D into|R C E' from D into|d]; intros Hf [= <-].
  - apply (codec_encode (D := D)).
  - destruct Hf as (wfR & wfC & EC & HE & _ & HR & _). by apply (impl_forward_laws _ _ _ wfR).
  - destruct Hf as (wfR & wfC & EC & HE & _ & HR & _). by apply (impl_forward_laws _ _ _ wfR).
Qed.

Lemma fields_roundtrip {A} (fs : fields A) wf name named x bs rest :
  fields_ok fs wf -> wf x -> wbytes (encode_fields fs x) = Done bs ->
  run (decode_fields fs name named) (bs ++ rest) = Done (Ok x, rest).
Proof.
  intros Hfs. revert x bs. induction Hfs as [|F A f fs wf wfs Hf Hfs IH]; intros x bs Hx Hb; cbn in Hb.
  - simplify_eq. by destruct x.
  - apply wbytes_wseq_done in Hb as (a & b & Ha & Hb & ->). destruct Hx as [Hx Hxs].
    cbn [decode_fields]. rewrite <- app_assoc, run_try_bind, (field_roundtrip f wf _ x.1) by done. simpl.
    rewrite run_try_bind, (IH x.2) by done. simpl. by destruct x.
Qed.

Lemma decode_fields_wb {A} (fs : fields A) wf name named :
  fields_ok fs wf -> wb wf 0 (decode_fields fs name named).
Proof.
  induction 1 as [|F A f fs wf wfs Hf Hfs IH]; cbn [decode_fields]; [by apply wb_done|].
  eapply wb_try; [by apply decode_field_wb|]. intros x Hx.
  eapply wb_try; [exact IH|]. intros xs Hxs. by apply wb_done.
Qed.

(** ** Structs *)

(** A skipped field writes nothing. *)
Lemma encode_fields_none {A} (fs : fields A) x :
  count_unskipped fs = 0%nat -> wbytes (encode_fields fs x) = Done [].
Proof.
  induction fs as [|F A f fs IH]; simpl; [done|]. unfold encode_field, is_skip, field_encode.
  destruct (f_attr f); simpl; try done. apply IH.
Qed.

(** What the encoder of a struct asks of its fields: lawful encoders for those
    that are not skipped. *)
Inductive fields_encode_ok : forall A, fields A -> (A -> Prop) -> Prop :=
| fields_encode_ok_nil : fields_encode_ok unit FNil (fun _ => True)
| fields_encode_ok_cons F A (f : field F) (fs : fields A) wf wfs :
    (forall E, field_encode f = Some E -> EncodeLaws E wf) -> fields_encode_ok A fs wfs ->
    fields_encode_ok (F * A) (FCons f fs) (fun x => wf x.1 /\ wfs x.2).
Arguments fields_encode_ok {_} _ _.

Lemma fields_ok_encode {A} (fs : fields A) wf : fields_ok fs wf -> fields_encode_ok fs wf.
Proof.
  induction 1 as [|F A f fs wf wfs Hf Hfs IH]; constructor; [|done].
  intros E HE. by apply (field_encode_laws f).
Qed.

(** The optimisation for a single field changes nothing. *)
Lemma first_field_encode_bytes {A} (fs : fields A) :
  count_unskipped fs = 1%nat ->
  exists E, first_field_encode fs = Some E /\ forall x, wbytes (encode_to E x) = wbytes (encode_fields fs x).
Proof.
  induction fs as [|F A f fs IH]; [done|]. cbn [count_unskipped first_field_encode].
  destruct (field_encode f) as [E|] eqn:HE.
  - assert (is_skip f = false) as -> by (unfold is_skip, field_encode in *; by destruct (f_attr f)).
    intros [= Hc]. exists (impl_forward 0 fst E). split; [done|].
    intros x. cbn [encode_fields]. rewrite wbytes_wseq. unfold encode_field. rewrite HE.
    rewrite encode_fields_none by done. simpl.
    destruct (wbytes (encode_to E x.1)); simpl; [by rewrite app_nil_r|done].
  - assert (is_skip f = true) as -> by (unfold is_skip, field_encode in *; by destruct (f_attr f)).
    intros Hc. destruct (IH Hc) as (E & -> & Heq). exists (impl_forward 0 snd E).
    split; [done|]. intros x. cbn [encode_fields]. unfold encode_field. rewrite HE. cbn. apply Heq.
Qed.

Lemma first_field_encode_laws {A} (fs : fields A) wf E :
  fields_encode_ok fs wf -> first_field_encode fs = Some E -> EncodeLaws E wf.
Proof.
  intros Hfs. revert E. induction Hfs as [|F A f fs wf wfs Hf Hfs IH]; intros E; [done|].
  cbn [first_field_encode]. destruct (field_encode f) as [E'|].
  - intros [= <-]. apply (impl_forward_laws _ _ _ wf); [by apply Hf|by intros x []].
  - destruct (first_field_encode fs) as [E'|]; [|done]. intros [= <-].
    apply (impl_forward_laws _ _ _ wfs); [by apply IH|by intros x []].
Qed.

Lemma wbytes_struct {A} size_of (fs : fields A) x :
  wbytes (encode_to (struct_encode size_of fs) x) = wbytes (encode_fields fs x).
Proof.
  unfold struct_encode. destruct (Nat.eqb (count_unskipped fs) 1) eqn:Hc; [|done].
  apply Nat.eqb_eq in Hc. destruct (first_field_encode_bytes fs Hc) as (E & -> & Heq).
  apply Heq.
Qed.

Lemma struct_encode_laws {A} size_of (fs : fields A) wf :
  fields_encode_ok fs wf -> EncodeLaws (struct_encode size_of fs) wf.
Proof.
  intros Hfs. unfold struct_encode.
  destruct (Nat.eqb (count_unskipped fs) 1) eqn:Hc; [|apply impl_encode_to_laws].
  apply Nat.eqb_eq in Hc. destruct (first_field_encode_bytes fs Hc) as (E & HE & _). rewrite HE.
  apply (impl_forward_laws _ _ _ wf); [by apply (first_field_encode_laws fs)|done].
Qed.

(** A value with the fields that are skipped set to their defaults. *)
Fixpoint reset_skipped {A} (fs : fields A) : A -> A :=
  match fs with
  | FNil => id
  | FCons f fs => fun x =>
      (match f_attr f with FieldSkip default => default | _ => x.1 end, reset_skipped fs x.2)
  end.

Lemma encode_fields_reset {A} (fs : fields A) x : encode_fields fs (reset_skipped fs x) = encode_fields fs x.
Proof.
  induction fs as [|F A f fs IH]; [done|]. cbn [encode_fields reset_skipped fst snd]. rewrite IH.
  unfold encode_field, field_encode. by destruct (f_attr f).
Qed.

Lemma reset_skipped_wf {A} (fs : fields A) wf x : fields_ok fs wf -> wf x -> reset_skipped fs x = x.
Proof.
  intros Hfs. revert x. induction Hfs as [|F A f fs wf wfs Hf Hfs IH]; [done|]. intros [y ys] [Hy Hys].
  cbn [reset_skipped fst snd] in *. rewrite (IH ys Hys). unfold field_ok in Hf.
  destruct (f_attr f); try done. apply Hf in Hy. by subst.
Qed.

(** What the compiler guarantees of a [#[repr(transparent)]] struct. *)
Definition transparent_layout {A} (size_of : Z) (fs : fields A) : Prop :=
  forall d sizes, transparent_fields fs = Some (d, sizes) ->
    foldr Z.add 0 sizes = size_of /\ (length (List.filter (fun s => (0 <? s)%Z) sizes) <= 1)%nat.

Lemma transparent_fields_spec {A} (fs : fields A) wf name named d sizes :
  fields_ok fs wf -> transparent_fields fs = Some (d, sizes) ->
  wb wf 0 d /\ d ≃ decode_fields fs name named.
Proof.
  intros Hfs. revert d sizes. induction Hfs as [|F A f fs wf wfs Hf Hfs IH]; intros d sizes;
    cbn [transparent_fields decode_fields].
  - intros [= <- _]. split; [by apply wb_done|reflexivity].
  - unfold field_ok, decode_field in *. destruct (f_attr f) as [E D| | |]; try done.
    destruct (transparent_fields fs) as [[d' sizes']|]; [|done]. intros [= <- _].
    destruct (IH d' sizes' eq_refl) as [Hwb Heq]. split.
    + eapply wb_try; [apply decode_into_wb|]. intros x Hx.
      eapply wb_try; [exact Hwb|]. intros xs Hxs. by apply wb_done.
    + apply try_bind_proper.
      * transitivity (decode D); [apply decode_into_equiv|]. symmetry. apply chain_err_equiv.
      * intros x. by rewrite Heq.
Qed.

Lemma struct_decode_laws {A} size_of transparent name named (fs : fields A) wf :
  0 <= size_of -> fields_ok fs wf -> (transparent = true -> transparent_layout size_of fs) ->
  DecodeLaws (struct_decode size_of transparent name named fs) wf.
Proof.
  intros Hs Hfs Htr. pose proof (decode_fields_wb fs wf name named Hfs) as Hwb.
  assert (wb wf 0 (decode_into (struct_decode size_of transparent name named fs)) /\
    decode_into (struct_decode size_of transparent name named fs) ≃ decode_fields fs name named)
    as [Hiwb Hieq].
  { simpl. unfold struct_decode_into. destruct transparent; simpl.
    - destruct (transparent_fields fs) as [[d sizes]|] eqn:Ht;
        [|split; [by apply default_decode_into_wb|apply default_decode_into_equiv]].
      destruct (Htr eq_refl d sizes Ht) as [Hsum Hcount].
      destruct sizes as [|s sizes];
        [split; [by apply default_decode_into_wb|apply default_decode_into_equiv]|].
      rewrite (proj2 (Z.eqb_eq _ _) Hsum), (proj2 (Nat.leb_le _ _) Hcount).
      by apply (transparent_fields_spec fs wf name named _ (s :: sizes)).
    - split; [by apply default_decode_into_wb|apply default_decode_into_equiv]. }
  constructor; try done; simpl; eauto with scale.
Qed.

Lemma struct_codec_laws {A} size_of transparent name named (fs : fields A) wf :
  0 <= size_of -> fields_ok fs wf -> (transparent = true -> transparent_layout size_of fs) ->
  CodecLaws (struct_encode size_of fs) (struct_decode size_of transparent name named fs) wf.
Proof.
  intros Hs Hfs Htr. constructor.
  - by apply struct_encode_laws, fields_ok_encode.
  - by apply struct_decode_laws.
  - intros x bs rest Hx. rewrite wbytes_struct. by apply (fields_roundtrip fs wf).
  - discriminate.
Qed.

(** ** Enums *)

Inductive variants_ok : forall A, variants A -> (A -> Prop) -> Prop :=
| variants_ok_nil : variants_ok Empty_set VNil (fun _ => True)
| variants_ok_cons A R (v : variant A) (vs : variants R) wf wfs :
    fields_ok (v_fields v) wf -> variants_ok R vs wfs ->
    variants_ok (A + R) (VCons v vs)
      (fun x => match x with inl a => v_skip v = false /\ wf a | inr r => wfs r end).
Arguments variants_ok {_} _ _.

(** The bytes that select a variant. *)
Fixpoint indices {A} (vs : variants A) (i : Z) : list byte :=
  match vs with
  | VNil => []
  | VCons v vs => if v_skip v then indices vs i else index_byte v i :: indices vs (i + 1)
  end.

Lemma length_indices {A} (vs : variants A) i : zlen (indices vs i) = count_variants vs.
Proof.
  revert i. induction vs as [|A R v vs IH]; intros i; cbn [indices count_variants]; [done|].
  destruct (v_skip v); [apply IH|]. rewrite zlen_cons. by rewrite IH.
Qed.

(** Enums without repeated indices are small enough to be derived. *)
Lemma distinct_indices_ok {A} (vs : variants A) i : NoDup (indices vs i) -> try_get_variants_ok vs = true.
Proof.
  intros Hnd. unfold try_get_variants_ok. rewrite <- (length_indices vs i).
  apply negb_true_iff, Z.ltb_ge.
  assert (map byte.unsigned (indices vs i) ⊆+ seqZ 0 256) as Hsub%submseteq_length.
  - apply NoDup_submseteq.
    + apply NoDup_fmap_2; [|done]. intros x y. apply byte.unsigned_inj.
    + intros z (b & -> & _)%list_elem_of_fmap. apply elem_of_seqZ.
      pose proof (byte.unsigned_range b). lia.
  - rewrite length_map, length_seqZ in Hsub. unfold zlen. lia.
Qed.

Lemma variants_roundtrip {A} (vs : variants A) wf name i x bs rest :
  variants_ok vs wf -> NoDup (indices vs i) -> wf x -> wbytes (encode_variants vs i x) = Done bs ->
  exists b tl, bs = b :: tl /\ b ∈ indices vs i /\
    run (decode_variants vs name i b) (tl ++ rest) = Done (Ok x, rest).
Proof.
  intros Hvs. revert i x bs. induction Hvs as [|A R v vs wf wfs Hv Hvs IH]; intros i x bs Hnd Hx Hb;
    [done|]. destruct x as [a|r]; cbn [encode_variants indices decode_variants] in Hb, Hnd |- *.
  - destruct Hx as [Hsk Ha]. rewrite Hsk in *.
    apply wbytes_wseq_done in Hb as (h & tl & [= <-] & Htl & ->).
    exists (index_byte v i), tl. split; [done|]. split; [left|].
    rewrite Byte.byte_dec_lb by done. cbn [negb andb]. rewrite run_dec_map.
    by rewrite (fields_roundtrip _ wf _ _ a).
  - destruct (v_skip v) eqn:Hsk.
    + destruct (IH _ _ _ Hnd Hx Hb) as (b & tl & -> & Hin & Hrun).
      exists b, tl. split_and!; [done..|]. cbn. rewrite run_dec_map, Hrun. done.
    + apply NoDup_cons in Hnd as [Hni Hnd].
      destruct (IH _ _ _ Hnd Hx Hb) as (b & tl & -> & Hin & Hrun).
      exists b, tl. split_and!; [done|by right|]. cbn.
      destruct (Byte.eqb b (index_byte v i)) eqn:He.
      { apply Byte.byte_dec_bl in He. by subst. }
      rewrite run_dec_map, Hrun. done.
Qed.

Lemma decode_variants_wb {A} (vs : variants A) wf name i b :
  variants_ok vs wf -> wb wf 0 (decode_variants vs name i b).
Proof.
  intros Hvs. revert i. induction Hvs as [|A R v vs wf wfs Hv Hvs IH]; intros i; cbn [decode_variants];
    [apply wb_throw|].
  destruct (v_skip v) eqn:Hsk; cbn [negb andb]; [by eapply wb_dec_map|].
  case_match; eapply wb_dec_map; eauto using decode_fields_wb.
Qed.

Lemma enum_encode_laws {A} size_of (vs : variants A) wf : EncodeLaws (enum_encode size_of vs) wf.
Proof.
  unfold enum_encode. case_match; [|apply impl_encode_to_laws]. by constructor.
Qed.

Lemma wbytes_enum {A} size_of (vs : variants A) x bs :
  wbytes (encode_to (enum_encode size_of vs) x) = Done bs -> wbytes (encode_variants vs 0 x) = Done bs.
Proof. unfold enum_encode. by case_match. Qed.

Lemma enum_decode_laws {A} size_of name (vs : variants A) wf :
  0 <= size_of -> variants_ok vs wf -> DecodeLaws (enum_decode size_of name vs) wf.
Proof.
  intros Hs Hvs. apply impl_decode_laws; [done|]. apply wb_chained_byte. intros b. by apply decode_variants_wb.
Qed.

Lemma enum_codec_laws {A} size_of name (vs : variants A) wf :
  0 <= size_of -> variants_ok vs wf -> NoDup (indices vs 0) ->
  CodecLaws (enum_encode size_of vs) (enum_decode size_of name vs) wf.
Proof.
  intros Hs Hvs Hnd. constructor.
  - apply enum_encode_laws.
  - by apply enum_decode_laws.
  - intros x bs rest Hx Hb%wbytes_enum.
    destruct (variants_roundtrip vs wf name 0 x bs rest Hvs Hnd Hx Hb) as (b & tl & -> & _ & Hrun).
    etransitivity; [apply run_chained_byte|exact Hrun].
  - discriminate.
Qed.

(** ** Canonicity *)

(** A field's decoder accepts nothing but what its encoder writes. *)
Definition field_canonical {F} (f : field F) : Prop :=
  match f_attr f with
  | FieldNone E D => Canonical E D
  | FieldCompact E from D into | FieldEncodedAs E from D into =>
      forall i c i', run (decode D) i = Done (Ok c, i') ->
        exists bs, wbytes (encode_to E (from (into c))) = Done bs /\ i = bs ++ i'
  | FieldSkip _ => True
  end.

Fixpoint fields_canonical {A} (fs : fields A) : Prop :=
  match fs with
  | FNil => True
  | FCons f fs => field_canonical f /\ fields_canonical fs
  end.

Fixpoint variants_canonical {A} (vs : variants A) : Prop :=
  match vs with
  | VNil => True
  | VCons v vs => fields_canonical (v_fields v) /\ variants_canonical vs
  end.

Lemma decode_field_canonical {F} (f : field F) name i x i' :
  field_canonical f -> run (decode_field f name) i = Done (Ok x, i') ->
  exists bs, wbytes (encode_field f x) = Done bs /\ i = bs ++ i'.
Proof.
  unfold field_canonical, encode_field, field_encode, decode_field.
  destruct (f_attr f) as [E D|R C E from D into|R C E from D into|d]; intros Hf Hrun.
  - apply run_chain_err_ok in Hrun. by apply canonical.
  - apply chained_inv in Hrun as (c & Hc & ->). by apply Hf.
  - apply chained_inv in Hrun as (c & Hc & ->). by apply Hf.
  - simpl in Hrun. simplify_eq. by exists [].
Qed.

Lemma decode_fields_canonical {A} (fs : fields A) name named i x i' :
  fields_canonical fs -> run (decode_fields fs name named) i = Done (Ok x, i') ->
  exists bs, wbytes (encode_fields fs x) = Done bs /\ i = bs ++ i'.
Proof.
  revert i x. induction fs as [|F A f fs IH]; intros i x Hfs Hrun; cbn [decode_fields encode_fields] in *.
  - simpl in Hrun. simplify_eq. by exists [].
  - destruct Hfs as [Hf Hfs]. apply run_try_bind_ok in Hrun as (y & j & Hy & Hrun).
    apply run_try_bind_ok in Hrun as (ys & k & Hys & Hrun). simpl in Hrun. simplify_eq.
    apply decode_field_canonical in Hy as (a & Ha & ->); [|done].
    apply IH in Hys as (b & Hb & ->); [|done].
    exists (a ++ b). split; [apply wbytes_wseq_done; by exists a, b|by rewrite app_assoc].
Qed.

Lemma struct_canonical {A} size_of transparent name named (fs : fields A) wf :
  fields_ok fs wf -> fields_canonical fs ->
  Canonical (struct_encode size_of fs) (struct_decode size_of transparent name named fs).
Proof.
  intros Hok Hc i x i' Hrun. rewrite wbytes_struct.
  by apply (decode_fields_canonical fs name named).
Qed.

Lemma count_variants_nonneg {A} (vs : variants A) : 0 <= count_variants vs.
Proof. induction vs as [|A R v vs IH]; simpl; [done|]. destruct (v_skip v); lia. Qed.

(** The byte that selected the variant is the one it is encoded with. *)
Lemma decode_variants_canonical {A} (vs : variants A) name n b i x i' :
  variants_canonical vs -> run (decode_variants vs name n b) i = Done (Ok x, i') ->
  count_variants vs <> 0 /\
  exists bs, wbytes (encode_variants vs n x) = Done (b :: bs) /\ i = bs ++ i'.
Proof.
  revert n. induction vs as [|A R v vs IH]; intros n Hvs Hrun; cbn [decode_variants count_variants] in *; [done|].
  destruct Hvs as [Hv Hvs]. pose proof (count_variants_nonneg vs).
  destruct (v_skip v) eqn:Hsk; cbn [negb andb] in Hrun.
  - apply run_dec_map_ok in Hrun as (r & Hr & ->). apply IH in Hr as [Hn Hr]; [|done].
    split; [lia|]. cbn [encode_variants]. by rewrite Hsk.
  - split; [lia|]. destruct (Byte.eqb b (index_byte v n)) eqn:He.
    + apply Byte.byte_dec_bl in He as ->. apply run_dec_map_ok in Hrun as (y & Hy & ->).
      apply decode_fields_canonical in Hy as (bs & Hb & ->); [|done].
      exists bs. cbn [encode_variants]. rewrite Hsk. cbn. by rewrite Hb.
    + apply run_dec_map_ok in Hrun as (r & Hr & ->). apply IH in Hr as [_ (bs & Hb & ->)]; [|done].
      exists bs. cbn [encode_variants]. rewrite Hsk. done.
Qed.

Lemma enum_canonical {A} size_of name (vs : variants A) :
  variants_canonical vs -> Canonical (enum_encode size_of vs) (enum_decode size_of name vs).
Proof.
  intros Hvs i x i' Hrun. apply run_chained_byte_inv in Hrun as (b & rest & -> & Hrun).
  apply decode_variants_canonical in Hrun as [Hn (bs & Hb & ->)]; [|done].
  exists (b :: bs). unfold enum_encode. by rewrite (proj2 (Z.eqb_neq _ _) Hn).
Qed.

(** ** Bounds on the encoded length *)

(** The length counted for a field bounds its encoding. *)
Definition field_bounded {F} (f : field F) (wf : F -> Prop) : Prop :=
  match f_attr f with
  | FieldNone E _ => MaxEncodedLen E wf (f_mel f)
  | FieldCompact E from _ _ => MaxEncodedLen (impl_forward (E_size_of E) from E) wf (f_compact_mel f)
  | FieldEncodedAs E from _ _ => MaxEncodedLen (impl_forward (E_size_of E) from E) wf (f_mel f)
  | FieldSkip _ => True
  end.

Inductive fields_bounded : forall A, fields A -> (A -> Prop) -> Prop :=
| fields_bounded_nil : fields_bounded unit FNil (fun _ => True)
| fields_bounded_cons F A (f : field F) (fs : fields A) wf wfs :
    field_bounded f wf -> fields_bounded A fs wfs ->
    fields_bounded (F * A) (FCons f fs) (fun x => wf x.1 /\ wfs x.2).
Arguments fields_bounded {_} _ _.

(** What one field adds to the sum. *)
Lemma field_length_step {F} (f : field F) wf x bs acc base :
  field_bounded f wf -> wf x -> wbytes (encode_field f x) = Done bs ->
  base <= acc -> base + zlen bs <= usize_max -> 0 <= base ->
  base + zlen bs <= match f_attr f with
                    | FieldSkip _ => acc
                    | FieldCompact _ _ _ _ => saturating_add_usize acc (f_compact_mel f)
                    | _ => saturating_add_usize acc (f_mel f)
                    end.
Proof.
  unfold field_bounded, encode_field, field_encode, saturating_add_usize. intros Hf Hx Hb Hacc Hl H0.
  destruct (f_attr f); first
    [ pose proof (max_encoded_len_bound (MaxEncodedLen := Hf) x bs Hx Hb); lia
    | simpl in Hb; simplify_eq; unfold zlen; simpl; lia ].
Qed.

Lemma fields_length_bound {A} (fs : fields A) wf x bs acc base :
  fields_bounded fs wf -> wf x -> wbytes (encode_fields fs x) = Done bs ->
  base <= acc -> base + zlen bs <= usize_max -> 0 <= base ->
  base + zlen bs <= fields_length fs acc.
Proof.
  intros Hfs. revert x bs acc base.
  induction Hfs as [|F A f fs wf wfs Hf Hfs IH]; intros x bs acc base Hx Hb Hacc Hl H0.
  - cbn in Hb. simplify_eq. cbn. unfold zlen; simpl; lia.
  - cbn [encode_fields fields_length] in *. apply wbytes_wseq_done in Hb as (a & b & Ha & Hb & ->).
    rewrite zlen_app in *. pose proof (zlen_nonneg a). pose proof (zlen_nonneg b). rewrite Z.add_assoc.
    destruct Hx as [Hx Hxs]. eapply IH; [exact Hxs|exact Hb| |lia|lia].
    apply (field_length_step f wf x.1 a); (done || lia).
Qed.

Lemma fields_length_ge {A} (fs : fields A) wf acc :
  fields_bounded fs wf -> 0 <= acc <= usize_max -> acc <= fields_length fs acc.
Proof.
  intros Hfs. revert acc. induction Hfs as [|F A f fs wf wfs Hf Hfs IH]; intros acc Hacc; [done|].
  cbn [fields_length]. unfold field_bounded in Hf. unfold saturating_add_usize.
  destruct (f_attr f); first
    [ pose proof (max_encoded_len_nonneg (MaxEncodedLen := Hf)); etransitivity; [|apply IH]; lia
    | by apply IH ].
Qed.

(** A struct is never longer than the sum of its fields' bounds. *)
Lemma struct_len_bound {A} size_of (fs : fields A) wf :
  fields_ok fs wf -> fields_bounded fs wf ->
  MaxEncodedLen (struct_encode size_of fs) wf (struct_max_len fs).
Proof.
  intros Hok Hfs. pose proof usize_max_nonneg. split.
  { apply (fields_length_ge fs wf); [done|lia]. }
  intros x bs Hx. rewrite wbytes_struct.
  intros Hb Hl. rewrite <- (Z.add_0_l (zlen bs)). by apply (fields_length_bound fs wf x).
Qed.

Inductive variants_bounded : forall A, variants A -> (A -> Prop) -> Prop :=
| variants_bounded_nil : variants_bounded Empty_set VNil (fun _ => True)
| variants_bounded_cons A R (v : variant A) (vs : variants R) wf wfs :
    fields_bounded (v_fields v) wf -> variants_bounded R vs wfs ->
    variants_bounded (A + R) (VCons v vs)
      (fun x => match x with inl a => v_skip v = false /\ wf a | inr r => wfs r end).
Arguments variants_bounded {_} _ _.

Lemma variants_length_ge {A} (vs : variants A) acc : acc <= variants_length vs acc.
Proof.
  revert acc. induction vs as [|A R v vs IH]; intros acc; cbn [variants_length]; [done|].
  destruct (v_skip v); [apply IH|]. etransitivity; [|apply IH]. lia.
Qed.

Lemma variants_length_bound {A} (vs : variants A) wf i x bs acc :
  variants_bounded vs wf -> wf x -> wbytes (encode_variants vs i x) = Done bs ->
  zlen bs <= usize_max -> zlen bs <= variants_length vs acc + 1.
Proof.
  intros Hvs. revert i x bs acc.
  induction Hvs as [|A R v vs wf wfs Hv Hvs IH]; intros i x bs acc Hx Hb Hl; [done|].
  cbn [encode_variants variants_length] in *. destruct x as [a|r]; [|by eapply IH].
  destruct Hx as [Hsk Ha]. rewrite Hsk in *.
  apply wbytes_wseq_done in Hb as (h & tl & [= <-] & Htl & ->).
  rewrite zlen_app, zlen_cons, zlen_nil in *. pose proof (zlen_nonneg tl).
  pose proof (fields_length_bound (v_fields v) wf a tl 0 0 Hv Ha Htl).
  pose proof (variants_length_ge vs (Z.max acc (fields_length (v_fields v) 0))). lia.
Qed.

Lemma enum_len_bound {A} size_of (vs : variants A) wf :
  variants_bounded vs wf ->
  MaxEncodedLen (enum_encode size_of vs) wf (enum_max_len vs).
Proof.
  intros Hvs. pose proof (variants_length_ge vs 0). pose proof usize_max_nonneg.
  unfold enum_max_len, saturating_add_usize. split; [lia|].
  intros x bs Hx Hb%wbytes_enum Hl.
  pose proof (variants_length_bound vs wf 0 x bs 0 Hvs Hx Hb Hl). lia.
Qed.
End theory.

Arguments fields_ok {_ _} _ _.
Arguments fields_encode_ok {_ _} _ _.
Arguments variants_ok {_ _} _ _.
Arguments fields_bounded {_ _} _ _.
Arguments variants_bounded {_ _} _ _.
