(* ===== verification/InPlace.v ===== *)
(** * Decoding in place ([src/src/codec.rs], [src/src/decode_finished.rs])

    [decode_into] writes to memory that is not initialised yet, and arrays, boxes
    and transparent structs do so with unsafe code.  Elsewhere in this development
    [decode_into] is the value that the destination holds afterwards; here it is
    what happens to the destination, and to the objects that are created and
    dropped on the way, when the call succeeds, fails or unwinds.

    A value that needs to be dropped owns objects: what its destructor releases.
    An object is dropped at most once, everything else is undefined behaviour, and
    so is reading a slot that has not been initialised.  Whether a result is
    [Undefined] is decided by the state, not by the shape of the program. *)

From stdpp Require Import gmap.
From S2P Require Import Prelude Ints Errors Input Discipline Output Traits Primitives Compact.
From S2P Require Import CompactTheory Sequences SequencesTheory Composite Derive.

(** ** Objects *)

Record memory : Type := mkMemory { next : nat; live : gset nat }.

Definition create (m : memory) : nat * memory := (next m, mkMemory (S (next m)) ({[next m]} ∪ live m)).

(** Dropping an object that is not there is undefined. *)
Definition drop_object (o : nat) (m : memory) : option memory :=
  if decide (o ∈ live m) then Some (mkMemory (next m) (live m ∖ {[o]})) else None.

Fixpoint drop_objects (os : list nat) (m : memory) : option memory :=
  match os with
  | [] => Some m
  | o :: os => m ← drop_object o m; drop_objects os m
  end.

(** How a call ends: it returns, it unwinds, or it had no meaning.  The
    destination is borrowed, so that it survives all but the last. *)
Inductive effect (R S I : Type) : Type :=
| Returned (r : Result R Error) (dst : S) (m : memory) (i : I)
| Unwound (msg : string) (dst : S) (m : memory)
| Undefined.
Arguments Returned {_ _ _} _ _ _ _.
Arguments Unwound {_ _ _} _ _ _.
Arguments Undefined {_ _ _}.

(** [pub struct DecodeFinished(PhantomData<*const ()>)] and
    [assert_decoding_finished]: it holds nothing, whoever makes one promises that
    the destination has been initialised. *)
Inductive DecodeFinished : Type := assert_decoding_finished.

(** ** Types that are decoded in place

    [slot] is [MaybeUninit<T>], [own] an initialised value with the objects it
    owns.  [plain] is the memory of a value that owns nothing. *)
Record place (T : Type) : Type := mkPlace {
  own : Type;
  slot : Type;
  uninit : slot;
  assume_init : slot -> option own;
  value : own -> T;
  objects : own -> list nat;
  needs_drop : bool;
  plain : T -> slot;
  place_into : forall I, Input I -> slot -> memory -> I -> effect DecodeFinished slot I;
}.
Arguments own {_} _.
Arguments slot {_} _.
Arguments uninit {_} _.
Arguments assume_init {_} _ _.
Arguments value {_} _ _.
Arguments objects {_} _ _.
Arguments needs_drop {_} _.
Arguments plain {_} _ _.
Arguments place_into {_} _ _ _ _ _ _.

Definition into {T} (P : place T) {I} `{HI : Input I} (dst : slot P) (m : memory) (i : I)
    : effect DecodeFinished (slot P) I := place_into P I HI dst m i.

Section in_place.
Context `{Target}.

(** [Decode::decode_into] by default: [let value = Self::decode(input)?; dst.write(value)]. *)
Definition leaf_own (T : Type) : Type := T * list nat.

Definition leaf_into {T} (drops : bool) (D : Decode T) {I} `{Input I}
    (dst : option (leaf_own T)) (m : memory) (i : I) : effect DecodeFinished (option (leaf_own T)) I :=
  match run (decode D) i with
  | Done (Ok value, i) =>
      if drops then
        let '(o, m) := create m in Returned (Ok assert_decoding_finished) (Some (value, [o])) m i
      else Returned (Ok assert_decoding_finished) (Some (value, [])) m i
  | Done (Err e, i) => Returned (Err e) dst m i
  | Panic msg => Unwound msg dst m
  end.

Definition leaf_place {T} (drops : bool) (D : Decode T) : place T :=
  {| own := leaf_own T; slot := option (leaf_own T); uninit := None; assume_init := id; value := fst;
     objects := snd; needs_drop := drops; plain x := Some (x, []);
     place_into I HI dst m i := leaf_into drops D dst m i |}.

(** [const fn calculate_array_bytesize<T, const N: usize>()]: the assertion is made
    when the program is compiled. *)
Definition calculate_array_bytesize (size_of : Z) (N : nat) : option Z := checked_mul_usize size_of (Z.of_nat N).

(** ** Arrays *)

Section array.
Context {T : Type} (D : Decode T) (P : place T).

(** [item.assume_init_drop()] for the items of [slice[..count]]. *)
Fixpoint drop_items (items : list (slot P)) (m : memory) : option memory :=
  match items with
  | [] => Some m
  | item :: items => v ← assume_init P item; m ← drop_objects (objects P v) m; drop_items items m
  end.

(** [impl Drop for State]. *)
Definition state_drop (count : nat) (slice : list (slot P)) (m : memory) : option memory :=
  if negb (needs_drop P) then Some m else drop_items (take count slice) m.

(** The loop, with [n] slots left; [State] is dropped when it is left early, and
    forgotten at its end. *)
Fixpoint array_loop {I} `{Input I} (n count : nat) (slice : list (slot P)) (m : memory) (i : I)
    : effect DecodeFinished (list (slot P)) I :=
  match n with
  | O => Returned (Ok assert_decoding_finished) slice m i
  | S n =>
      match slice !! count with
      | None => Undefined
      | Some dst =>
          match into P dst m i with
          | Returned (Ok _) dst m i => array_loop n (S count) (<[count := dst]> slice) m i
          | Returned (Err e) dst m i =>
              match state_drop count (<[count := dst]> slice) m with
              | Some m => Returned (Err e) (<[count := dst]> slice) m i
              | None => Undefined
              end
          | Unwound msg dst m =>
              match state_drop count (<[count := dst]> slice) m with
              | Some m => Unwound msg (<[count := dst]> slice) m
              | None => Undefined
              end
          | Undefined => Undefined
          end
      end
  end.

(** [<[T; N]>::decode_into]: numbers are read in bulk, over zeros. *)
Definition array_into (N : nat) {I} `{Input I} (dst : list (slot P)) (m : memory) (i : I)
    : effect DecodeFinished (list (slot P)) I :=
  match D_TYPE_INFO D with
  | Prim p _ transmute_back =>
      if array_is_primitive D then
        match calculate_array_bytesize (D_size_of D) N with
        | None => Unwound "array size overflow" dst m
        | Some bytesize =>
            let items bytes :=
              map (fun bs => plain P (transmute_back (from_ne_bytes p bs))) (split_chunks (prim_bytes p) N bytes) in
            let dst := items (repeat x00 (Z.to_nat bytesize)) in
            match i_read bytesize i with
            | Done (Ok bytes, i) => Returned (Ok assert_decoding_finished) (items bytes) m i
            | Done (Err e, i) => Returned (Err e) dst m i
            | Panic msg => Unwound msg dst m
            end
        end
      else array_loop N 0 dst m i
  | Unknown => array_loop N 0 dst m i
  end.

Definition array_place (N : nat) : place (list T) :=
  {| own := list (own P); slot := list (slot P); uninit := repeat (uninit P) N;
     assume_init := mapM (assume_init P); value := map (value P); objects v := concat (map (objects P) v);
     needs_drop := needs_drop P; plain := map (plain P);
     place_into I HI dst m i := array_into N dst m i |}.
End array.

(** [<[T; N]>::decode]: an uninitialised array is filled and read back. *)
Definition decode_uninit {T} (P : place T) {I} `{Input I} (m : memory) (i : I) : effect (own P) (slot P) I :=
  match into P (uninit P) m i with
  | Returned (Ok _) array m i =>
      match assume_init P array with
      | Some v => Returned (Ok v) array m i
      | None => Undefined
      end
  | Returned (Err e) array m i => Returned (Err e) array m i
  | Unwound msg array m => Unwound msg array m
  | Undefined => Undefined
  end.

(** ** Boxes *)

Section box.
Context {T : Type} (D : Decode T) (P : place T).

(** A [Box<T>] owns its block, if it has a size, and its content. *)
Record box_own : Type := mkBox { block : list nat; content : own P }.

(** The destructor of the box drops the content, then the block. *)
Definition box_objects (v : box_own) : list nat := objects P (content v) ++ block v.

(** [core::alloc::alloc(layout)], unless the layout is empty. *)
Definition box_alloc (m : memory) : list nat * memory :=
  if D_size_of D =? 0 then ([], m) else let '(o, m) := create m in ([o], m).

(** [WrapperTypeDecode::decode_wrapped] of [Box<T>].  The [Box<MaybeUninit<T>>] is
    dropped when it is left early: that frees the block, and nothing else. *)
Definition box_decode_wrapped_into {I} `{Input I} (m : memory) (i : I) : effect box_own unit I :=
  match run descend_ref i with
  | Panic msg => Unwound msg tt m
  | Done (Err e, i) => Returned (Err e) tt m i
  | Done (Ok _, i) =>
      match run (on_before_alloc_mem (D_size_of D)) i with
      | Panic msg => Unwound msg tt m
      | Done (Err e, i) => Returned (Err e) tt m i
      | Done (Ok _, i) =>
          let '(ptr, m) := box_alloc m in
          match into P (uninit P) m i with
          | Undefined => Undefined
          | Unwound msg _ m =>
              match drop_objects ptr m with Some m => Unwound msg tt m | None => Undefined end
          | Returned (Err e) _ m i =>
              match drop_objects ptr m with Some m => Returned (Err e) tt m i | None => Undefined end
          | Returned (Ok _) boxed m i =>
              match assume_init P boxed with
              | None => Undefined
              | Some v =>
                  let boxed := mkBox ptr v in
                  match run ascend_ref i with
                  | Done (_, i) => Returned (Ok boxed) tt m i
                  | Panic msg =>
                      match drop_objects (box_objects boxed) m with
                      | Some m => Unwound msg tt m
                      | None => Undefined
                      end
                  end
              end
          end
      end
  end.

(** [Box<T>::decode_into] is the default one. *)
Definition box_into {I} `{Input I} (dst : option box_own) (m : memory) (i : I)
    : effect DecodeFinished (option box_own) I :=
  match box_decode_wrapped_into m i with
  | Returned (Ok boxed) _ m i => Returned (Ok assert_decoding_finished) (Some boxed) m i
  | Returned (Err e) _ m i => Returned (Err e) dst m i
  | Unwound msg _ m => Unwound msg dst m
  | Undefined => Undefined
  end.

Definition box_place : place T :=
  {| own := box_own; slot := option box_own; uninit := None; assume_init := id;
     value v := value P (content v); objects := box_objects; needs_drop := true; plain _ := None;
     place_into I HI dst m i := box_into dst m i |}.
End box.

(** ** Transparent structs

    The [decode_into] that is derived for [#[repr(transparent)]]: every field is
    decoded into the struct's own memory, in the order of their declaration, and
    [?] returns at the first error.  At most one of the fields has a size, so that
    their slots do not overlap. *)
Section transparent.
Context {A B : Type} (PA : place A) (PB : place B).

Definition transparent_into {I} `{Input I} (dst : slot PA * slot PB) (m : memory) (i : I)
    : effect DecodeFinished (slot PA * slot PB) I :=
  match into PA dst.1 m i with
  | Returned (Ok _) a m i =>
      match into PB dst.2 m i with
      | Returned r b m i => Returned r (a, b) m i
      | Unwound msg b m => Unwound msg (a, b) m
      | Undefined => Undefined
      end
  | Returned (Err e) a m i => Returned (Err e) (a, dst.2) m i
  | Unwound msg a m => Unwound msg (a, dst.2) m
  | Undefined => Undefined
  end.

Definition transparent_place : place (A * B) :=
  {| own := own PA * own PB; slot := slot PA * slot PB; uninit := (uninit PA, uninit PB);
     assume_init dst := a ← assume_init PA dst.1; b ← assume_init PB dst.2; Some (a, b);
     value v := (value PA v.1, value PB v.2); objects v := objects PA v.1 ++ objects PB v.2;
     needs_drop := needs_drop PA || needs_drop PB; plain x := (plain PA x.1, plain PB x.2);
     place_into I HI dst m i := transparent_into dst m i |}.
End transparent.

(** After the last field: [DecodeFinished::assert_decoding_finished()]. *)
Definition finished_place : place unit :=
  {| own := unit; slot := unit; uninit := tt; assume_init _ := Some tt; value := id; objects _ := [];
     needs_drop := false; plain := id;
     place_into I HI dst m i := Returned (Ok assert_decoding_finished) dst m i |}.

(** The fields of a transparent struct with the memory they are decoded into. *)
Inductive placed : Type -> Type :=
| PNil : placed unit
| PCons F A (name : string) (E : Encode F) (D : Decode F) (P : place F) (ps : placed A) : placed (F * A).
Arguments PCons {_ _} _ _ _ _ _.

Fixpoint placed_fields {A} (ps : placed A) : fields A :=
  match ps with
  | PNil => FNil
  | PCons name E D _ ps => FCons (mkField name (FieldNone E D) 0 0) (placed_fields ps)
  end.

Fixpoint placed_struct {A} (ps : placed A) : place A :=
  match ps with
  | PNil => finished_place
  | PCons _ _ _ P ps => transparent_place P (placed_struct ps)
  end.
End in_place.
Arguments PCons {_ _} _ _ _ _ _.
