(* ===== verification/InPlaceTheory.v ===== *)
(** * Decoding in place is safe

    The unsafe code of arrays, boxes and transparent structs never reads memory
    that has not been initialised and never drops an object twice, whatever the
    input does, and it computes the values that [decode_into] stands for in the
    rest of the development.  Arrays and boxes leak nothing when they fail or
    unwind; transparent structs may. *)

From stdpp Require Import gmap.
From S2P Require Import Prelude Ints Errors Input Discipline Output Traits Primitives Compact.
From S2P Require Import CompactTheory Sequences SequencesTheory Composite MaxLen Derive DeriveTheory InPlace.

(** ** Objects *)

(** The objects that are not new have been made before. *)
Definition mem_wf (m : memory) : Prop := forall o, o ∈ live m -> (o < next m)%nat.

(** From [m] to [m'] the objects [os] have been added, and nothing else. *)
Record grows (m : memory) (os : list nat) (m' : memory) : Prop := {
  grows_next : (next m <= next m')%nat;
  grows_distinct : NoDup os;
  grows_fresh : Forall (fun o => next m <= o < next m')%nat os;
  grows_live : live m' = live m ∪ list_to_set os;
}.

Lemma grows_refl m : grows m [] m.
Proof. split; [lia|constructor|constructor|set_solver]. Qed.

Lemma grows_wf m os m' : mem_wf m -> grows m os m' -> mem_wf m'.
Proof.
  intros Hm [Hn _ Hf Hl] o. rewrite Hl, elem_of_union, elem_of_list_to_set. rewrite Forall_forall in Hf.
  intros [Ho%Hm|Ho%Hf]; lia.
Qed.

Lemma grows_trans m os m1 os' m2 : grows m os m1 -> grows m1 os' m2 -> grows m (os ++ os') m2.
Proof.
  intros [Hn1 Hd1 Hf1 Hl1] [Hn2 Hd2 Hf2 Hl2]. rewrite Forall_forall in Hf1, Hf2. split.
  - lia.
  - apply NoDup_app. split_and!; [done| |done]. intros o Ho1%Hf1 Ho2%Hf2. lia.
  - apply Forall_app. rewrite !Forall_forall. split; intros o Ho; [specialize (Hf1 o Ho)|specialize (Hf2 o Ho)]; lia.
  - rewrite Hl2, Hl1, list_to_set_app_L. set_solver.
Qed.

Lemma grows_perm m os os' m' : os ≡ₚ os' -> grows m os m' -> grows m os' m'.
Proof.
  intros Hp [Hn Hd Hf Hl]. split; [done| | |].
  - by rewrite <- Hp.
  - by rewrite <- Hp.
  - rewrite Hl. set_unfold. intros o. by rewrite Hp.
Qed.

Lemma grows_create m : grows m [(create m).1] (create m).2.
Proof. split; simpl; [lia|apply NoDup_singleton|by repeat constructor; simpl; lia|set_solver]. Qed.

(** What has been added can be dropped, once. *)
Lemma grows_drop m os os' m' :
  mem_wf m -> grows m (os ++ os') m' -> exists m'', drop_objects os m' = Some m'' /\ grows m os' m''.
Proof.
  intros Hm. revert m'. induction os as [|o os IH]; intros m' Hg; [by exists m'|].
  destruct Hg as [Hn [Hni Hd]%NoDup_cons [Ho Hf]%Forall_cons Hl]. cbn [drop_objects app] in *.
  assert (o ∈ live m') as Hin by (rewrite Hl; set_solver).
  unfold drop_object. rewrite decide_True by done. simpl. apply IH. split; [done|done|done|]. simpl. rewrite Hl.
  assert (o ∉ live m) as Hnl by (intros Hc%Hm; lia). set_solver.
Qed.

Lemma grows_drop_all m os m' :
  mem_wf m -> grows m os m' -> exists m'', drop_objects os m' = Some m'' /\ grows m [] m''.
Proof. intros Hm Hg. apply grows_drop; [done|]. by rewrite app_nil_r. Qed.

Lemma drop_objects_app os os' m : drop_objects (os ++ os') m = (m ← drop_objects os m; drop_objects os' m).
Proof.
  revert m. induction os as [|o os IH]; intros m; [done|]. simpl. destruct (drop_object o m); [apply IH|done].
Qed.

(** ** The contract *)

(** On an uninitialised destination, [decode_into] does what the decoder [d] does:
    if it succeeds, the destination holds the value, which owns all that has been
    made on the way; if not, nothing is left of it. *)
Definition in_place {T I} `{Input I} (P : place T) (d : dec T) (m : memory) (i : I)
    (e : effect DecodeFinished (slot P) I) : Prop :=
  match e with
  | Returned (Ok _) dst m' i' =>
      exists v, assume_init P dst = Some v /\ run d i = Done (Ok (value P v), i') /\ grows m (objects P v) m' /\
        (needs_drop P = false -> objects P v = [])
  | Returned (Err err) _ m' i' => run d i = Done (Err err, i') /\ grows m [] m'
  | Unwound msg _ m' => run d i = Panic msg /\ grows m [] m'
  | Undefined => False
  end.

Lemma in_place_run {T I} `{Input I} (P : place T) (d d' : dec T) m (i i' : I) e :
  run d i = run d' i' -> in_place P d' m i' e -> in_place P d m i e.
Proof. intros Hrun. unfold in_place. by rewrite Hrun. Qed.

Class InPlaceLaws {T} (d : dec T) (P : place T) : Prop :=
  into_uninit : forall I (HI : Input I) (m : memory) (i : I),
    mem_wf m -> in_place P d m i (into P (uninit P) m i).

Section laws.
Context `{Target}.

#[global] Instance leaf_laws {T} drops (D : Decode T) :
  InPlaceLaws (default_decode_into (decode D)) (leaf_place drops D).
Proof.
  intros I HI m i Hm. cbn. unfold leaf_into, default_decode_into.
  destruct (run (decode D) i) as [[[x|e] i']|msg] eqn:Hrun; simpl; rewrite ?run_try_bind, ?Hrun; simpl;
    try (split; [done|apply grows_refl]).
  destruct drops; simpl.
  - exists (x, [next m]). rewrite run_try_bind, Hrun. split_and!; [done|done|apply grows_create|done].
  - exists (x, []). rewrite run_try_bind, Hrun. split_and!; [done|done|apply grows_refl|done].
Qed.

(** ** Arrays *)

Section array.
Context {T : Type} (D : Decode T) (P : place T) `{!InPlaceLaws (decode_into D) P}.

Definition items_objects (vs : list (own P)) : list nat := concat (map (objects P) vs).

Lemma drop_items_objects slots vs m :
  mapM (assume_init P) slots = Some vs -> drop_items P slots m = drop_objects (items_objects vs) m.
Proof.
  revert vs m. induction slots as [|s slots IH]; intros vs m; simpl.
  - by intros [= <-].
  - destruct (assume_init P s) as [v|]; simpl; [|done]. destruct (mapM (assume_init P) slots) as [vs'|]; simpl; [|done].
    intros [= <-]. unfold items_objects. simpl. rewrite drop_objects_app.
    destruct (drop_objects (objects P v) m); simpl; [by apply IH|done].
Qed.

(** The guard drops the items that have been decoded, and nothing else. *)
Lemma state_drop_ok slots vs dst rest m0 m m1 :
  mapM (assume_init P) slots = Some vs -> mem_wf m0 -> grows m0 (items_objects vs) m ->
  (needs_drop P = false -> items_objects vs = []) -> grows m [] m1 ->
  exists m', state_drop P (length slots) (<[length slots := dst]> (slots ++ uninit P :: rest)) m1 = Some m' /\
    grows m0 [] m'.
Proof.
  intros Hs Hm Hg0 Hnd Hg1. rewrite insert_app_r_alt, Nat.sub_diag by lia. simpl.
  pose proof (grows_trans _ _ _ _ _ Hg0 Hg1) as Hg. rewrite app_nil_r in Hg. unfold state_drop. destruct (needs_drop P); simpl.
  - rewrite take_app_length, (drop_items_objects slots vs) by done. by apply grows_drop_all.
  - exists m1. by rewrite Hnd in Hg.
Qed.

Lemma array_loop_ok N n {I} (HI : Input I) slots vs m0 m (i : I) :
  mapM (assume_init P) slots = Some vs -> mem_wf m0 -> grows m0 (items_objects vs) m ->
  (needs_drop P = false -> items_objects vs = []) ->
  in_place (array_place D P N) (decode_items (decode_into D) n (map (value P) vs)) m0 i
    (array_loop P n (length slots) (slots ++ repeat (uninit P) n) m i).
Proof.
  revert slots vs m i. induction n as [|n IH]; intros slots vs m i Hs Hm Hg Hnd; simpl.
  - exists vs. rewrite app_nil_r. split_and!; done.
  - rewrite list_lookup_middle by done.
    pose proof (into_uninit I HI m i (grows_wf _ _ _ Hm Hg)) as Hinto.
    destruct (into P (uninit P) m i) as [[u|e] dst m' i'|msg dst m'|]; [| | |done]; simpl in Hinto.
    + destruct Hinto as (v & Hv & Hrun & Hg' & Hnd'). rewrite insert_app_r_alt, Nat.sub_diag by lia. simpl.
      replace (slots ++ dst :: repeat (uninit P) n) with ((slots ++ [dst]) ++ repeat (uninit P) n)
        by (by rewrite <- app_assoc).
      replace (S (length slots)) with (length (slots ++ [dst])) by (rewrite length_app; simpl; lia).
      assert (items_objects (vs ++ [v]) = items_objects vs ++ objects P v) as Hio.
      { unfold items_objects. rewrite map_app, concat_app. simpl. by rewrite app_nil_r. }
      specialize (IH (slots ++ [dst]) (vs ++ [v]) m' i'). rewrite Hio, map_app in IH.
      specialize (IH ltac:(apply mapM_Some, Forall2_app; [by apply mapM_Some|by repeat constructor]) Hm (grows_trans _ _ _ _ _ Hg Hg')
        ltac:(intros Hf; by rewrite Hnd, Hnd')).
      eapply in_place_run; [|exact IH]. by rewrite run_try_bind, Hrun.
    + destruct Hinto as [Hrun Hg'].
      destruct (state_drop_ok slots vs dst (repeat (uninit P) n) m0 m m' Hs Hm Hg Hnd Hg') as (m2 & -> & Hg3).
      split; [by rewrite run_try_bind, Hrun|done].
    + destruct Hinto as [Hrun Hg'].
      destruct (state_drop_ok slots vs dst (repeat (uninit P) n) m0 m m' Hs Hm Hg Hnd Hg') as (m2 & -> & Hg3).
      split; [by rewrite run_try_bind, Hrun|done].
Qed.

(** Numbers own nothing. *)
Definition plain_ok : Prop :=
  forall x, exists v, assume_init P (plain P x) = Some v /\ value P v = x /\ objects P v = [].

Lemma plain_items xs :
  plain_ok -> exists vs, mapM (assume_init P) (map (plain P) xs) = Some vs /\ map (value P) vs = xs /\ items_objects vs = [].
Proof.
  intros Hp. induction xs as [|x xs (vs & Hvs & Hval & Hobj)]; [by exists []|].
  destruct (Hp x) as (v & Hv & <- & Ho). exists (v :: vs). simpl. rewrite Hv, Hvs. simpl. split_and!; [done| |].
  - by rewrite Hval.
  - unfold items_objects in *. simpl. by rewrite Ho.
Qed.

Lemma array_laws N bytesize :
  (array_is_primitive D = true -> plain_ok) ->
  calculate_array_bytesize (D_size_of D) N = Some bytesize ->
  InPlaceLaws (array_decode_into D N) (array_place D P N).
Proof.
  intros Hplain Hsize I HI m i Hm. cbn. unfold array_into, array_decode_into.
  assert (in_place (array_place D P N) (array_fill D N []) m i
    (array_loop P N 0 (repeat (uninit P) N) m i)) as Hloop.
  { by apply (array_loop_ok N N HI [] [] m m i); [|done|apply grows_refl|]. }
  destruct (D_TYPE_INFO D) as [|p t b]; [done|]. destruct (array_is_primitive D); [|done].
  rewrite Hsize. unfold calculate_array_bytesize, checked_mul_usize in Hsize. case_match; [|done].
  injection Hsize as <-.
  destruct (i_read (D_size_of D * Z.of_nat N) i) as [[[bs|e] i']|msg] eqn:Hread.
  - set (xs := map (fun bs => b (from_ne_bytes p bs)) (split_chunks (prim_bytes p) N bs)).
    destruct (plain_items xs (Hplain eq_refl)) as (vs & Hvs & Hval & Hobj). exists vs. split_and!.
    + simpl. rewrite <- Hvs. f_equal. unfold xs. by rewrite map_map.
    + cbn [value array_place]. rewrite Hval. cbn. by rewrite Hread.
    + unfold objects, array_place. fold (items_objects vs). rewrite Hobj. apply grows_refl.
    + intros _. exact Hobj.
  - split; [cbn; by rewrite Hread|apply grows_refl].
  - split; [cbn; by rewrite Hread|apply grows_refl].
Qed.
End array.

(** ** Boxes *)

Section box.
Context {T : Type} (D : Decode T) (P : place T) `{!InPlaceLaws (decode_into D) P}.

Lemma box_alloc_grows m : grows m (box_alloc D m).1 (box_alloc D m).2.
Proof. unfold box_alloc. destruct (D_size_of D =? 0); [apply grows_refl|apply grows_create]. Qed.

Lemma run_box_decode_wrapped {I} `{Input I} (i : I) :
  run (box_decode_wrapped D) i =
    ('(r, i) ← run descend_ref i;
     match r with
     | Err e => Done (Err e, i)
     | Ok _ =>
         '(r, i) ← run (on_before_alloc_mem (D_size_of D)) i;
         match r with
         | Err e => Done (Err e, i)
         | Ok _ =>
             '(r, i) ← run (decode_into D) i;
             match r with
             | Err e => Done (Err e, i)
             | Ok x => '(_, i) ← run ascend_ref i; Done (Ok x, i)
             end
         end
     end).
Proof.
  unfold box_decode_wrapped. rewrite run_try_bind. destruct (run descend_ref i) as [[[u|e] i1]|]; cbn [mbind outcome_bind]; [|done..].
  rewrite run_try_bind. destruct (run (on_before_alloc_mem _) i1) as [[[u'|e] i2]|]; cbn [mbind outcome_bind]; [|done..].
  rewrite run_try_bind. destruct (run (decode_into D) i2) as [[[x|e] i3]|]; cbn [mbind outcome_bind]; [|done..].
  by rewrite run_bind.
Qed.

(** Dropping the block of a box that could not be filled. *)
Lemma drop_block m ptr m1 m2 :
  mem_wf m -> grows m ptr m1 -> grows m1 [] m2 -> exists m3, drop_objects ptr m2 = Some m3 /\ grows m [] m3.
Proof. intros Hm H1 H2. apply grows_drop; [done|]. by apply (grows_trans _ _ _ _ _ H1). Qed.

#[global] Instance box_laws : InPlaceLaws (default_decode_into (box_decode_wrapped D)) (box_place D P).
Proof.
  intros I HI m i Hm. apply (in_place_run _ _ (box_decode_wrapped D) m i i).
  { unfold default_decode_into. rewrite run_try_bind. by destruct (run (box_decode_wrapped D) i) as [[[]]|]. }
  pose proof (run_box_decode_wrapped i) as Hd. unfold into. cbn [box_place place_into uninit].
  unfold box_into, box_decode_wrapped_into.
  destruct (run descend_ref i) as [[[u|e] i1]|msg]; cbn [mbind outcome_bind] in Hd; [|by split; [|apply grows_refl]..].
  destruct (run (on_before_alloc_mem (D_size_of D)) i1) as [[[u'|e] i2]|msg]; cbn [mbind outcome_bind] in Hd;
    [|by split; [|apply grows_refl]..].
  pose proof (box_alloc_grows m) as Hga. destruct (box_alloc D m) as [ptr m1]. simpl in Hga.
  pose proof (into_uninit I HI m1 i2 (grows_wf _ _ _ Hm Hga)) as Hinto.
  destruct (into P (uninit P) m1 i2) as [[f|e] dst m2 i3|msg dst m2|]; simpl in Hinto; [| | |done].
  - destruct Hinto as (v & -> & Hrun & Hg & _). rewrite Hrun in Hd. cbn [mbind outcome_bind] in Hd.
    pose proof (grows_perm _ _ _ _ (Permutation_app_comm ptr _) (grows_trans _ _ _ _ _ Hga Hg)) as Hg2.
    destruct (run ascend_ref i3) as [[u2 i4]|msg]; cbn [mbind outcome_bind] in Hd.
    + exists (mkBox P ptr v). by split_and!.
    + destruct (grows_drop_all _ (box_objects P (mkBox P ptr v)) _ Hm Hg2) as (m3 & -> & Hg3). by split.
  - destruct Hinto as [Hrun Hg]. rewrite Hrun in Hd. destruct (drop_block _ _ _ _ Hm Hga Hg) as (m3 & -> & Hg3). by split.
  - destruct Hinto as [Hrun Hg]. rewrite Hrun in Hd. destruct (drop_block _ _ _ _ Hm Hga Hg) as (m3 & -> & Hg3). by split.
Qed.
End box.

(** ** Transparent structs *)

Section transparent.
Context {A B : Type} (dA : dec A) (dB : dec B) (PA : place A) (PB : place B).
Context `{!InPlaceLaws dA PA, !InPlaceLaws dB PB}.

(** The decoders of the two parts, one after the other. *)
Definition transparent_dec : dec (A * B) := x ⇐ dA; y ⇐ dB; ok (x, y).

(** [B] is decoded successfully from every input. *)
Definition infallible : Prop := forall I (HI : Input I) (i : I), exists x i', run dB i = Done (Ok x, i').

(** A failure of [dB] is harmless if there is nothing to drop in the first part, or
    if it does not happen. *)
Lemma transparent_laws :
  needs_drop PA = false \/ infallible -> InPlaceLaws transparent_dec (transparent_place PA PB).
Proof.
  intros Hsafe I HI m i Hm. unfold into. cbn [transparent_place place_into uninit]. unfold transparent_into.
  cbn [fst snd]. assert (run transparent_dec i = '(r, i) ← run dA i;
    match r with Err e => Done (Err e, i) | Ok x => '(r, i) ← run dB i;
      match r with Err e => Done (Err e, i) | Ok y => Done (Ok (x, y), i) end end) as Hd.
  { unfold transparent_dec. rewrite run_try_bind. destruct (run dA i) as [[[x|e] j]|]; cbn [mbind outcome_bind]; [|done..].
    rewrite run_try_bind. by destruct (run dB j) as [[[y|e] k]|]. }
  pose proof (into_uninit (P := PA) I HI m i Hm) as Ha.
  destruct (into PA (uninit PA) m i) as [[f|e] a m1 i1|msg a m1|]; simpl in Ha; [| | |done].
  - destruct Ha as (v & Hv & Hrun & Hg & Hnd). rewrite Hrun in Hd. cbn [mbind outcome_bind] in Hd.
    pose proof (into_uninit (P := PB) I HI m1 i1 (grows_wf _ _ _ Hm Hg)) as Hb.
    assert (forall m2, grows m1 [] m2 -> ~ infallible -> grows m [] m2) as Hfail.
    { intros m2 Hg2 Hinf. destruct Hsafe as [Hn|]; [|done]. rewrite (Hnd Hn) in Hg. exact (grows_trans _ _ _ _ _ Hg Hg2). }
    destruct (into PB (uninit PB) m1 i1) as [[g|e] b m2 i2|msg b m2|]; simpl in Hb; [| | |done].
    + destruct Hb as (w & Hw & Hrun' & Hg' & Hnd'). rewrite Hrun' in Hd. exists (v, w). simpl. rewrite Hv, Hw.
      split_and!; [done|done|by apply (grows_trans _ _ _ _ _ Hg)|].
      intros [Hn Hn']%orb_false_iff. by rewrite Hnd, Hnd'.
    + destruct Hb as [Hrun' Hg']. rewrite Hrun' in Hd. split; [done|]. apply Hfail; [done|].
      intros Hinf. destruct (Hinf I HI i1) as (x & k & Hk). congruence.
    + destruct Hb as [Hrun' Hg']. rewrite Hrun' in Hd. split; [done|]. apply Hfail; [done|].
      intros Hinf. destruct (Hinf I HI i1) as (x & k & Hk). congruence.
  - destruct Ha as [Hrun Hg]. rewrite Hrun in Hd. by split.
  - destruct Ha as [Hrun Hg]. rewrite Hrun in Hd. by split.
Qed.
End transparent.

(** The derived decoder of the fields, one after the other. *)
Fixpoint placed_dec {A} (ps : placed A) : dec A :=
  match ps with
  | PNil => ok tt
  | PCons _ _ D _ ps => x ⇐ decode_into D; xs ⇐ placed_dec ps; ok (x, xs)
  end.

(** Each field is decoded safely in its own memory, and has nothing to drop when a
    field after it can fail. *)
Fixpoint placed_ok {A} (ps : placed A) : Prop :=
  match ps with
  | PNil => True
  | PCons _ _ D P ps =>
      InPlaceLaws (decode_into D) P /\ (needs_drop P = false \/ infallible (placed_dec ps)) /\ placed_ok ps
  end.

Fixpoint placed_sizes {A} (ps : placed A) : list Z :=
  match ps with
  | PNil => []
  | PCons _ _ D _ ps => D_size_of D :: placed_sizes ps
  end.

Lemma placed_laws {A} (ps : placed A) : placed_ok ps -> InPlaceLaws (placed_dec ps) (placed_struct ps).
Proof.
  induction ps as [|F A name E D P ps IH]; simpl; [|intros (HP & Hsafe & Hok); apply transparent_laws; auto].
  intros _ I HI m i Hm. exists tt. by split_and!; [|destruct m|apply grows_refl|].
Qed.

Lemma placed_transparent {A} (ps : placed A) :
  transparent_fields (placed_fields ps) = Some (placed_dec ps, placed_sizes ps).
Proof. induction ps as [|F A name E D P ps IH]; simpl; [done|]. by rewrite IH. Qed.

(** ** The theorems *)

(** What a decoder that returns a value does: the value owns what has been made; a
    failure or a panic leaves nothing behind. *)
Definition decode_safe {R S T I} `{Input I} (d : dec T) (value : R -> T) (objects : R -> list nat) (m : memory) (i : I)
    (e : effect R S I) : Prop :=
  match e with
  | Returned (Ok v) _ m' i' => run d i = Done (Ok (value v), i') /\ grows m (objects v) m'
  | Returned (Err err) _ m' i' => run d i = Done (Err err, i') /\ live m' = live m
  | Unwound msg _ m' => run d i = Panic msg /\ live m' = live m
  | Undefined => False
  end.

Lemma grows_nil_live m m' : grows m [] m' -> live m' = live m.
Proof. intros [_ _ _ ->]. set_solver. Qed.

Lemma decode_uninit_safe {T} (P : place T) d {I} (HI : Input I) m (i : I) :
  InPlaceLaws d P -> mem_wf m -> decode_safe d (value P) (objects P) m i (decode_uninit P m i).
Proof.
  intros HP Hm. pose proof (into_uninit I HI m i Hm) as Hin. unfold decode_uninit.
  destruct (into P (uninit P) m i) as [[f|e] dst m' i'|msg dst m'|]; simpl in Hin |- *; [| | |done].
  - destruct Hin as (v & -> & Hrun & Hg & _). by split.
  - destruct Hin. auto using grows_nil_live.
  - destruct Hin. auto using grows_nil_live.
Qed.

(** C23: decoding an array or a box in place is memory safe, on any input, also one
    whose methods panic.  No uninitialised slot is read or dropped and no object is
    dropped twice.  The values are those of the decoders elsewhere in this
    development.  If decoding succeeds, the result owns every object that was made;
    if it fails or unwinds, all of them have been dropped. *)
Theorem decode_in_place_safe {T} (D : Decode T) (P : place T) N bytesize {I} (HI : Input I) m (i : I) :
  InPlaceLaws (decode_into D) P -> (array_is_primitive D = true -> plain_ok P) ->
  calculate_array_bytesize (D_size_of D) N = Some bytesize -> mem_wf m ->
  decode_safe (decode (array_decode D N)) (map (value P)) (items_objects P) m i (decode_uninit (array_place D P N) m i) /\
  decode_safe (decode (box_decode D)) (fun b => value P (content P b)) (box_objects P) m i (box_decode_wrapped_into D P m i).
Proof.
  intros HP Hplain Hsize Hm. split.
  - pose proof (array_laws D P N bytesize Hplain Hsize) as HA.
    pose proof (decode_uninit_safe _ _ HI m i HA Hm) as Hs.
    assert (run (decode (array_decode D N)) i = run (array_decode_into D N) i) as Heq.
    { cbn [decode array_decode]. unfold array_decode_fn. rewrite run_try_bind.
      by destruct (run (array_decode_into D N) i) as [[[]]|]. }
    unfold decode_safe in *. rewrite Heq. exact Hs.
  - pose proof (box_laws D P I HI m i Hm) as Hb. unfold into in Hb. cbn [box_place place_into uninit] in Hb.
    unfold box_into in Hb. assert (run (decode (box_decode D)) i = run (default_decode_into (box_decode_wrapped D)) i) as Heq.
    { unfold default_decode_into. rewrite run_try_bind. cbn [decode box_decode impl_decode].
      by destruct (run (box_decode_wrapped D) i) as [[[]]|]. }
    unfold decode_safe. rewrite Heq.
    destruct (box_decode_wrapped_into D P m i) as [[v|e] [] m' i'|msg [] m'|]; simpl in Hb; [| | |done].
    + destruct Hb as (v' & [= <-] & Hrun & Hg & _). by split.
    + destruct Hb. auto using grows_nil_live.
    + destruct Hb. auto using grows_nil_live.
Qed.

(** The general part of the theorem on transparent structs below. *)
Lemma transparent_in_place {A} (ps : placed A) size_of :
  placed_ok ps -> placed_sizes ps <> [] -> foldr Z.add 0 (placed_sizes ps) = size_of ->
  (length (List.filter (fun s => (0 <? s)%Z) (placed_sizes ps)) <= 1)%nat ->
  struct_decode_into size_of true (placed_fields ps) = Some (placed_dec ps) /\
  InPlaceLaws (placed_dec ps) (placed_struct ps).
Proof.
  intros Hok Hne Hsize Hone. split; [|by apply placed_laws].
  unfold struct_decode_into. rewrite placed_transparent. destruct (placed_sizes ps) as [|s sizes]; [done|].
  by rewrite (proj2 (Z.eqb_eq _ _) Hsize), (proj2 (Nat.leb_le _ _) Hone).
Qed.
End laws.

(** ** Examples, on a 64-bit target *)

Section example.
Existing Instance x86_64.

(** [Box<u8>]. *)
Definition boxed_u8 : Decode Z := box_decode (prim_decode U8).
Definition u8_place : place Z := leaf_place false (prim_decode U8).
Definition boxed_u8_place : place Z := box_place (prim_decode U8) u8_place.

Definition empty_memory : memory := mkMemory 0 ∅.

(** [[Box<u8>; 2]] from one byte: the box that was made is dropped again. *)
Lemma decode_in_place_safe_witness :
  match decode_uninit (array_place boxed_u8 boxed_u8_place 2) empty_memory [x07] with
  | Returned (Err _) _ m _ => next m = 2%nat /\ live m = ∅
  | _ => False
  end.
Proof.
  assert (InPlaceLaws (decode_into boxed_u8) boxed_u8_place) as HP by apply box_laws, leaf_laws.
  destruct (decode_in_place_safe boxed_u8 boxed_u8_place 2 16 slice_input empty_memory [x07]) as [Ha _];
    [done|done|done|by intros o Ho%elem_of_empty|].
  assert (match decode_uninit (array_place boxed_u8 boxed_u8_place 2) empty_memory [x07] with
    | Returned (Err _) _ m _ => next m = 2%nat | _ => False end) as Hn by by vm_compute.
  destruct (decode_uninit (array_place boxed_u8 boxed_u8_place 2) empty_memory [x07]) as [[v|e] s m i|msg s m|]; [done| |done|done].
  split; [exact Hn|]. by destruct Ha as [_ ->].
Defined.

(** [enum One { A }], a type without a size whose decoder reads a byte and may fail. *)
Definition One_variants : variants (unit + Empty_set) := VCons (mkVariant "A" false None None false FNil) VNil.
Definition One_decode : Decode (unit + Empty_set) := enum_decode 0 "One" One_variants.

(** [#[repr(transparent)] struct S(Box<u8>, One)]: when [One] is not decoded, the
    box is lost. *)
Definition boxed_and_one : placed (Z * ((unit + Empty_set) * unit)) :=
  PCons "0" (pointer_encode (prim_encode U8)) boxed_u8 boxed_u8_place
    (PCons "1" (enum_encode 0 One_variants) One_decode (leaf_place false One_decode) PNil).

Lemma transparent_leak :
  match into (placed_struct boxed_and_one) (uninit (placed_struct boxed_and_one)) empty_memory [x07; x01] with
  | Returned (Err _) _ m _ => live m = {[0%nat]}
  | _ => False
  end.
Proof. by vm_compute. Qed.
End example.

(** C24: the [decode_into] that is derived for a transparent struct with any number of
    fields is memory safe, and computes what the derived decoder computes, when no
    failure leaves anything behind: a field that is followed by one that can fail
    has nothing to drop.  Otherwise a field can leak: decoding
    [struct S(Box<u8>, One)] fails at [One] and leaves the box behind. *)
Theorem transparent_in_place_safe :
  (forall `{Target} {A} (ps : placed A) size_of,
    placed_ok ps -> placed_sizes ps <> [] -> foldr Z.add 0 (placed_sizes ps) = size_of ->
    (length (List.filter (fun s => (0 <? s)%Z) (placed_sizes ps)) <= 1)%nat ->
    exists d, struct_decode_into size_of true (placed_fields ps) = Some d /\
      forall I (HI : Input I) m (i : I), mem_wf m ->
        in_place (placed_struct ps) d m i (into (placed_struct ps) (uninit (placed_struct ps)) m i)) /\
  match into (placed_struct boxed_and_one) (uninit (placed_struct boxed_and_one)) empty_memory [x07; x01] with
  | Returned (Err _) _ m _ => live m = {[0%nat]}
  | _ => False
  end.
Proof.
  split; [|exact transparent_leak]. intros HT A ps size_of Hok Hne Hsize Hone.
  destruct (transparent_in_place ps size_of Hok Hne Hsize Hone) as [Hd HL]. eauto.
Qed.

Section transparent_example.
Existing Instance x86_64.

(** [#[repr(transparent)] struct S((), u8, ())]. *)
Definition unit_u8_unit : placed (unit * (Z * (unit * unit))) :=
  PCons "0" unit_encode unit_decode (leaf_place false unit_decode)
    (PCons "1" (prim_encode U8) (prim_decode U8) u8_place
       (PCons "2" unit_encode unit_decode (leaf_place false unit_decode) PNil)).

Lemma transparent_in_place_safe_witness :
  exists v, into (placed_struct unit_u8_unit) (uninit (placed_struct unit_u8_unit)) empty_memory [x07] =
    Returned (Ok assert_decoding_finished) v empty_memory [] /\
    v = (Some (tt, []), (Some (7, []), (Some (tt, []), tt))).
Proof.
  destruct transparent_in_place_safe as [Hsafe _].
  destruct (Hsafe x86_64 _ unit_u8_unit 1) as (d & Hd & Hin); [|done|done|simpl; lia|].
  { repeat split; [apply (leaf_laws false unit_decode)|by left|apply (leaf_laws false (prim_decode U8))|by left|
      apply (leaf_laws false unit_decode)|by left]. }
  specialize (Hin _ slice_input empty_memory [x07] ltac:(by intros o Ho%elem_of_empty)).
  destruct (into (placed_struct unit_u8_unit) (uninit (placed_struct unit_u8_unit)) empty_memory [x07]) eqn:Hi;
    revert Hi; vm_compute; try done. intros [= <- <- <- <-]. by eexists.
Defined.
End transparent_example.
