(* ===== verification/EncodeTotal.v ===== *)
(** * When encoding succeeds ([trait Encode], [src/src/codec.rs])

    [Encode::encode] asks the value for a hint of its size, reserves that many
    bytes and writes the encoding.  Three things could go wrong: the arithmetic of
    the hint overflows, the hint is more than a vector can hold, or a collection
    has more items than its length prefix can count.  [Encodable E wf ok n] says
    that only the last one does: [ok] is the exact condition for [encode_to] not
    to panic, and no hint exceeds [n].  Each implementation is an instance, so
    that for a concrete type [n <= isize::MAX] is a computation. *)

From S2P Require Import Prelude Ints Errors Input Discipline Output Traits Primitives Compact.
From S2P Require Import CompactTheory Sequences SequencesTheory Composite Collections Heap BitVec MaxLen.
From S2P Require Import Derive DeriveTheory.

Section contract.
Context `{Target}.

(** The program does not panic. *)
Definition writes (p : wprog) : Prop := exists bs, wbytes p = Done bs.

Class Encodable {T} (E : Encode T) (wf ok : T -> Prop) (n : Z) : Prop := {
  encodable_size : 0 <= E_size_of E;
  encodable_nonneg : 0 <= n;
  encodable_iff x : wf x -> ok x <-> writes (encode_to E x);
  encodable_hint x : wf x -> ok x -> exists h, size_hint E x = Done h /\ 0 <= h <= n;
}.

(** A condition that is always met. *)
Definition always {T} (_ : T) : Prop := True.

Lemma encodable_always {T} (E : Encode T) wf n :
  0 <= E_size_of E -> 0 <= n ->
  (forall x, wf x -> writes (encode_to E x)) ->
  (forall x, wf x -> exists h, size_hint E x = Done h /\ 0 <= h <= n) ->
  Encodable E wf always n.
Proof.
  intros Hs Hn Hw Hh. split; [done|done| |intros x Hx _; by apply Hh].
  intros x Hx. split; [intros _; by apply Hw|done].
Qed.

Lemma encodable_forward {T X} size_of (deref : X -> T) E wf ok n :
  0 <= size_of -> Encodable E wf ok n ->
  Encodable (impl_forward size_of deref E) (fun x => wf (deref x)) (fun x => ok (deref x)) n.
Proof.
  intros Hs HE. split; [done|apply encodable_nonneg|..]; intros x Hx; simpl.
  - by apply (encodable_iff (E := E)).
  - by apply (encodable_hint (E := E)).
Qed.

(** The methods that build a vector succeed exactly on the values that can be
    written, with the same bytes. *)
Lemma encodable_encode {T} (E : Encode T) wf ok n x :
  EncodeLaws E wf -> Encodable E wf ok n -> n <= isize_max -> wf x ->
  (ok x <-> exists bs, encode E x = Done bs) /\ (ok x <-> exists bs, using_encoded E x = Done bs) /\
  (ok x -> exists bs, encode E x = Done bs /\ using_encoded E x = Done bs /\ wbytes (encode_to E x) = Done bs).
Proof.
  intros HE He Hn Hx.
  assert (ok x -> exists bs, encode E x = Done bs /\ using_encoded E x = Done bs /\
    wbytes (encode_to E x) = Done bs) as Hok.
  { intros Hk. destruct (encodable_hint x Hx Hk) as (h & Hh & Hr).
    apply (encodable_iff x Hx) in Hk as [bs Hb]. exists bs.
    destruct (encode_complete x h bs Hx Hh) as [H1 H2]; [lia|done|]. done. }
  split_and!; [| |done]; (split; [intros Hk; destruct (Hok Hk) as (bs & H1 & H2 & _); by exists bs|]);
    intros [bs Hb]; apply (encodable_iff x Hx); exists bs.
  - by apply encode_sound.
  - by apply using_encoded_sound.
Qed.
End contract.

#[export] Hint Unfold always : scale.

(** ** Fixed-size types and compact integers *)

Section simple.
Context `{Target}.

#[global] Instance prim_encodable p : Encodable (prim_encode p) (in_range p) always (Z.of_nat (prim_bytes p)).
Proof.
  apply encodable_always; [by destruct p|lia|..]; intros x _.
  - exists (to_le_bytes p x). apply wbytes_prim.
  - exists (Z.of_nat (prim_bytes p)). split; [by destruct p|lia].
Qed.

#[global] Instance non_zero_encodable p :
  Encodable (non_zero_encode p) (non_zero_range p) always (Z.of_nat (prim_bytes p)).
Proof.
  apply encodable_always; [simpl; lia|lia|..]; intros x [Hx _].
  - by apply (encodable_iff (E := prim_encode p)).
  - by apply (encodable_hint (E := prim_encode p)).
Qed.

#[global] Instance bool_encodable : Encodable bool_encode (fun _ => True) always 1.
Proof. apply encodable_always; [done|done|..]; intros x _; by eexists. Qed.

#[global] Instance option_bool_encodable : Encodable option_bool_encode (fun _ => True) always 1.
Proof. apply encodable_always; [done|done|..]; intros x _; by eexists. Qed.

#[global] Instance unit_encodable : Encodable unit_encode (fun _ => True) always 0.
Proof. apply encodable_always; [done|done|..]; intros x _; by eexists. Qed.

#[global] Instance phantom_encodable : Encodable phantom_encode (fun _ => True) always 0.
Proof. apply encodable_always; [done|done|..]; intros x _; by eexists. Qed.

#[global] Instance compact_encodable c :
  Encodable (compact_encode c) (in_range (compact_prim c)) always (compact_capacity c).
Proof.
  apply encodable_always; [simpl; lia|by destruct c|..]; intros x Hx.
  - exists (compact_spec x). by apply wbytes_compact.
  - exists (compact_len c x). split; [done|]. pose proof (compact_len_capacity c x Hx).
    rewrite <- (zlen_compact_spec c x Hx). pose proof (zlen_nonneg (compact_spec x)).
    rewrite (zlen_compact_spec c x Hx) in *. lia.
Qed.
End simple.

(** ** Programs *)

Lemma writes_wseq p q : writes (p ;;; q) <-> writes p /\ writes q.
Proof.
  unfold writes. split.
  - intros [bs (a & b & Ha & Hb & _)%wbytes_wseq_done]. eauto.
  - intros [[a Ha] [b Hb]]. exists (a ++ b). apply wbytes_wseq_done. eauto.
Qed.

Lemma writes_push_byte b p : writes (WPushByte b p) <-> writes p.
Proof.
  change (WPushByte b p) with (push_byte b ;;; p). rewrite writes_wseq.
  split; [by intros []|]. split; [by eexists|done].
Qed.

Section sequences.
Context `{Target}.

Lemma writes_encode_len len : 0 <= len -> writes (encode_len len) <-> len <= prim_max U32.
Proof.
  intros Hl. unfold writes. setoid_rewrite wbytes_encode_len; [|done]. naive_solver.
Qed.

Section items.
Context {T : Type} (E : Encode T) (wf ok : T -> Prop) (n : Z) `{!Encodable E wf ok n}.

Lemma writes_items l : Forall wf l -> writes (wfor l (encode_to E)) <-> Forall ok l.
Proof.
  induction 1 as [|x l Hx Hl IH]; simpl; [split; [done|by eexists]|].
  by rewrite writes_wseq, IH, Forall_cons, (encodable_iff (E := E)).
Qed.

(** At most [u32::MAX] items, each of which can be encoded. *)
Definition seq_ok (l : list T) : Prop := zlen l <= prim_max U32 /\ Forall ok l.

(** [4 + size_of::<T>() * len()], for the longest sequence. *)
Definition seq_hint (size_of : Z) : Z := 4 + size_of * prim_max U32.

Lemma seq_hint_nonneg size_of : 0 <= size_of -> 0 <= seq_hint size_of.
Proof. intros Hs. unfold seq_hint. assert (0 <= prim_max U32) by done. nia. Qed.

(** The hint of a sequence that is short enough. *)
Lemma seq_hint_done size_of len :
  0 <= size_of -> 0 <= len <= prim_max U32 -> seq_hint size_of <= isize_max ->
  size_of * len <= usize_max /\ add_usize 4 (size_of * len) = Done (4 + size_of * len) /\
  0 <= 4 + size_of * len <= seq_hint size_of.
Proof.
  intros Hs Hl Hh. unfold seq_hint in *. pose proof isize_usize_max. pose proof isize_max_ge.
  assert (0 <= size_of * len <= size_of * prim_max U32) by nia.
  split_and!; [lia| |lia|lia]. unfold add_usize. by decide_tests.
Qed.

Context `{!EncodeLaws E wf}.

Lemma slice_encodable : seq_hint (E_size_of E) <= isize_max ->
  Encodable (slice_encode E) (Forall wf) seq_ok (seq_hint (E_size_of E)).
Proof.
  intros Hh. pose proof (encodable_size (E := E)). pose proof (zlen_nonneg (A := T)).
  split; [by apply words_nonneg|by apply seq_hint_nonneg|..].
  - intros l Hl. cbn [encode_to slice_encode impl_encode_to]. unfold slice_encode_to, seq_ok.
    rewrite writes_wseq, writes_encode_len by done. unfold writes at 1.
    rewrite (encode_slice_no_len_items E wf) by done. by rewrite <- (writes_items l Hl).
  - intros l Hl [Hn _]. destruct (seq_hint_done (E_size_of E) (zlen l)) as (_ & Ha & Hr); [done|by split|done|].
    by exists (4 + E_size_of E * zlen l).
Qed.

Lemma vec_encodable : seq_hint (E_size_of E) <= isize_max ->
  Encodable (vec_encode E) (Forall wf) seq_ok (seq_hint (E_size_of E)).
Proof. intros Hh. by apply (encodable_forward (words 3) id), slice_encodable; [apply words_nonneg|]. Qed.

Lemma array_encodable N : E_size_of E * Z.of_nat N <= isize_max ->
  Encodable (array_encode E N) (array_wf wf N) (Forall ok) (E_size_of E * Z.of_nat N).
Proof.
  intros Hh. pose proof (encodable_size (E := E)). assert (0 <= E_size_of E * Z.of_nat N) by nia.
  split; [done|done|..]; intros l [Hl _].
  - cbn [encode_to array_encode impl_encode_to]. unfold writes at 1.
    rewrite (encode_slice_no_len_items E wf) by done. by rewrite <- (writes_items l Hl).
  - intros _. exists (E_size_of E * Z.of_nat N). split; [|lia]. cbn. unfold mul_usize.
    pose proof isize_usize_max. pose proof isize_max_ge. by decide_tests.
Qed.

Lemma collection_encodable container_size size_of :
  0 <= container_size -> 0 <= size_of -> seq_hint size_of <= isize_max ->
  Encodable (collection_encode container_size size_of E) (Forall wf) seq_ok (seq_hint size_of).
Proof.
  intros Hc Hs Hh. pose proof (zlen_nonneg (A := T)).
  split; [done|by apply seq_hint_nonneg|..]; intros l Hl.
  - cbn [encode_to collection_encode impl_encode_to]. unfold collection_encode_to, seq_ok.
    by rewrite writes_wseq, writes_encode_len, (writes_items l Hl) by done.
  - intros [Hn _]. destruct (seq_hint_done size_of (zlen l)) as (Hm & Ha & Hr); [done|by split|done|].
    exists (4 + size_of * zlen l). split; [|done]. cbn. unfold collection_size_hint, saturating_mul_usize.
    by rewrite Z.min_l.
Qed.

Definition deque_wf (d : VecDeque T) : Prop := Forall wf d.1 /\ Forall wf d.2.
Definition deque_ok (d : VecDeque T) : Prop := deque_len d <= prim_max U32 /\ Forall ok d.1 /\ Forall ok d.2.

Lemma vec_deque_encodable : seq_hint (E_size_of E) <= isize_max ->
  Encodable (vec_deque_encode E) deque_wf deque_ok (seq_hint (E_size_of E)).
Proof.
  intros Hh. pose proof (encodable_size (E := E)). pose proof (zlen_nonneg (A := T)) as Hz.
  assert (forall d : VecDeque T, 0 <= deque_len d) as Hd
    by (intros d; pose proof (Hz d.1); pose proof (Hz d.2); unfold deque_len; lia).
  split; [by apply words_nonneg|by apply seq_hint_nonneg|..]; intros d [H1 H2].
  - cbn [encode_to vec_deque_encode impl_encode_to]. unfold vec_deque_encode_to, deque_ok.
    rewrite !writes_wseq, writes_encode_len by done. unfold writes at 1 2.
    rewrite !(encode_slice_no_len_items E wf) by done.
    by rewrite <- (writes_items _ H1), <- (writes_items _ H2).
  - intros [Hn _]. destruct (seq_hint_done (E_size_of E) (deque_len d)) as (Hm & Ha & Hr); [done|by split|done|].
    exists (4 + E_size_of E * deque_len d). split; [|done]. cbn. unfold vec_deque_size_hint, mul_usize.
    by decide_tests.
Qed.
End items.
End sequences.

(** ** Strings, options, results, tuples, pointers *)

Section composite.
Context `{Target}.

Lemma byte_seq_hint : usize_bits = 64 -> seq_hint 1 <= isize_max.
Proof. intros Hu. unfold isize_max. by rewrite Hu. Qed.

Lemma string_encodable : usize_bits = 64 ->
  Encodable string_encode string_wf (fun s => zlen s <= prim_max U32) (seq_hint 1).
Proof.
  intros Hu. pose proof (byte_seq_hint Hu) as Hh.
  pose proof (slice_encodable (prim_encode U8) (in_range U8) always 1 Hh) as HE.
  split; [by apply words_nonneg|done|..]; intros s [Hs _].
  - transitivity (seq_ok always s); [|by apply (encodable_iff (E := slice_encode (prim_encode U8)))].
    split; [|by intros []]. split; [done|by apply Forall_true].
  - intros Hn. apply (encodable_hint (E := slice_encode (prim_encode U8)) s Hs).
    split; [done|by apply Forall_true].
Qed.

Lemma pointer_encodable {T} (E : Encode T) wf ok n :
  Encodable E wf ok n -> Encodable (pointer_encode E) wf ok n.
Proof. apply (encodable_forward (words 1) id). by apply words_nonneg. Qed.

Lemma cow_encodable {T O} size_of (borrow : O -> T) (E : Encode T) wf ok n :
  0 <= size_of -> Encodable E wf ok n ->
  Encodable (cow_encode size_of borrow E) (fun x => wf (cow_deref borrow x)) (fun x => ok (cow_deref borrow x)) n.
Proof. apply encodable_forward. Qed.

(** One byte in front of a hint. *)
Lemma hint_succ (o : outcome Z) n :
  n + 1 <= isize_max -> (exists h, o = Done h /\ 0 <= h <= n) ->
  exists h, (h ← o; add_usize 1 h) = Done h /\ 0 <= h <= n + 1.
Proof.
  intros Hn (h & -> & Hh). exists (1 + h). pose proof isize_usize_max. pose proof isize_max_ge.
  split; [|lia]. simpl. unfold add_usize. by decide_tests.
Qed.

Definition option_ok {T} (ok : T -> Prop) (x : option T) : Prop :=
  match x with Some t => ok t | None => True end.

Lemma option_encodable {T} (E : Encode T) wf ok n size_of :
  0 <= size_of -> n + 1 <= isize_max -> Encodable E wf ok n ->
  Encodable (option_encode size_of E) (option_wf wf) (option_ok ok) (n + 1).
Proof.
  intros Hs Hn HE. pose proof (encodable_nonneg (E := E)). split; [done|lia|..]; intros [t|] Hx; simpl in Hx |- *.
  - rewrite writes_push_byte. by apply (encodable_iff (E := E)).
  - split; [by eexists|done].
  - intros Hk. apply hint_succ; [done|]. by apply encodable_hint.
  - intros _. apply hint_succ; [done|]. exists 0. split; [done|lia].
Qed.

Definition result_ok {A B} (okA : A -> Prop) (okB : B -> Prop) (x : Result A B) : Prop :=
  match x with Ok a => okA a | Err b => okB b end.

Lemma result_encodable {A B} (EA : Encode A) (EB : Encode B) wfA wfB okA okB n m size_of :
  0 <= size_of -> Z.max n m + 1 <= isize_max -> Encodable EA wfA okA n -> Encodable EB wfB okB m ->
  Encodable (result_encode size_of EA EB) (result_wf wfA wfB) (result_ok okA okB) (Z.max n m + 1).
Proof.
  intros Hs Hn HA HB. pose proof (encodable_nonneg (E := EA)).
  split; [done|lia|..]; intros [t|t] Hx; simpl in Hx |- *.
  - rewrite writes_push_byte. by apply (encodable_iff (E := EA)).
  - rewrite writes_push_byte. by apply (encodable_iff (E := EB)).
  - intros Hk. apply hint_succ; [done|]. destruct (encodable_hint t Hx Hk) as (h & Hh & ?).
    exists h. split; [done|lia].
  - intros Hk. apply hint_succ; [done|]. destruct (encodable_hint t Hx Hk) as (h & Hh & ?).
    exists h. split; [done|lia].
Qed.

Definition tuple_ok {A B} (okA : A -> Prop) (okB : B -> Prop) (x : A * B) : Prop := okA x.1 /\ okB x.2.

Lemma tuple_encodable {A B} (EA : Encode A) (EB : Encode B) wfA wfB okA okB n m size_of :
  0 <= size_of -> n + m <= isize_max -> Encodable EA wfA okA n -> Encodable EB wfB okB m ->
  Encodable (tuple_encode size_of EA EB) (tuple_wf wfA wfB) (tuple_ok okA okB) (n + m).
Proof.
  intros Hs Hn HA HB. pose proof (encodable_nonneg (E := EA)). pose proof (encodable_nonneg (E := EB)).
  split; [done|lia|..]; intros [a b] [Ha Hb].
  - simpl. rewrite writes_wseq. unfold tuple_ok. by rewrite (encodable_iff (E := EA) a Ha), (encodable_iff (E := EB) b Hb).
  - intros [Hka Hkb]. destruct (encodable_hint a Ha Hka) as (ha & Hha & ?).
    destruct (encodable_hint b Hb Hkb) as (hb & Hhb & ?). exists (ha + hb). split; [|lia].
    simpl. unfold tuple_size_hint. simpl. rewrite Hha, Hhb. simpl. unfold add_usize.
    pose proof isize_usize_max. pose proof isize_max_ge. by decide_tests.
Qed.

(** A range is encoded as a vector of its own, so that the hint of the pair has
    to be one too. *)
Lemma encode_ref_pair_writes {T} (E : Encode T) wf ok n a b :
  Encodable E wf ok n -> 2 * n <= isize_max -> wf a -> wf b ->
  (exists bs, encode_ref_pair E a b = Done bs) <-> ok a /\ ok b.
Proof.
  intros HE Hn Ha Hb. split.
  - intros [bs Hbs%encode_ref_pair_sound]. assert (writes (encode_to E a ;;; encode_to E b)) as Hw by by eexists.
    apply writes_wseq in Hw as [Hwa Hwb]. by rewrite !(encodable_iff (E := E)).
  - intros [Hka Hkb]. assert (writes (encode_to E a ;;; encode_to E b)) as [bs Hbs].
    { apply writes_wseq. by rewrite <- !(encodable_iff (E := E)). }
    exists bs. apply (encode_ref_pair_complete E (fun x => wf x /\ ok x)); [|done|done|done].
    intros x [Hx Hk]. destruct (encodable_hint x Hx Hk) as (h & Hh & ?). exists h. split; [done|lia].
Qed.

Lemma range_encodable {T} (E : Encode T) wf ok n size_of :
  0 <= size_of -> 2 * n <= isize_max -> 2 * E_size_of E <= isize_max -> Encodable E wf ok n ->
  Encodable (range_encode size_of E) (fun r => wf (start r) /\ wf (end_ r))
    (fun r => ok (start r) /\ ok (end_ r)) (2 * E_size_of E).
Proof.
  intros Hs Hn Hz HE. pose proof (encodable_size (E := E)). split; [done|lia|..]; intros [a b] [Ha Hb].
  - unfold writes, range_encode. rewrite wbytes_impl_encode. symmetry. by apply (encode_ref_pair_writes E wf ok n).
  - intros _. exists (2 * E_size_of E). split; [|lia]. cbn. unfold mul_usize.
    pose proof isize_usize_max. pose proof isize_max_ge. by decide_tests.
Qed.

Lemma range_inclusive_encodable {T} (E : Encode T) wf ok n size_of :
  0 <= size_of -> 2 * n <= isize_max -> 2 * E_size_of E <= isize_max -> Encodable E wf ok n ->
  Encodable (range_inclusive_encode size_of E) (fun r => wf (ri_start r) /\ wf (ri_end r))
    (fun r => ok (ri_start r) /\ ok (ri_end r)) (2 * E_size_of E).
Proof.
  intros Hs Hn Hz HE. pose proof (encodable_size (E := E)). split; [done|lia|..]; intros [a b x] [Ha Hb].
  - unfold writes, range_inclusive_encode. rewrite wbytes_impl_encode. symmetry.
    by apply (encode_ref_pair_writes E wf ok n).
  - intros _. exists (2 * E_size_of E). split; [|lia]. cbn. unfold mul_usize.
    pose proof isize_usize_max. pose proof isize_max_ge. by decide_tests.
Qed.

#[global] Instance duration_encodable : Encodable duration_encode duration_wf always 12.
Proof.
  pose proof isize_usize_max. pose proof isize_max_ge.
  assert (add_usize 8 4 = Done 12) as Hadd by (unfold add_usize; by decide_tests).
  apply encodable_always; [done|done|..]; intros d Hd; [|exists 12; split; [exact Hadd|lia]].
  unfold writes, duration_encode. rewrite wbytes_impl_encode.
  pose proof (tuple_encodable (prim_encode U64) (prim_encode U32) (in_range U64) (in_range U32) always always
    8 4 16 ltac:(done) ltac:(lia) (prim_encodable U64) (prim_encodable U32)) as HE.
  apply (encodable_encode _ _ _ _ _ (impl_encode_to_laws _ _ _ _) HE); [lia|by apply duration_pair_wf|done].
Qed.
End composite.

(** ** Collections, bit vectors, generic arrays *)

Section collections.
Context `{Target}.

Lemma encodable_weaken {T} (E : Encode T) (wf wf' ok : T -> Prop) n :
  Encodable E wf ok n -> (forall x, wf' x -> wf x) -> Encodable E wf' ok n.
Proof.
  intros HE Hw. split; [apply encodable_size|apply encodable_nonneg|..]; intros x Hx%Hw.
  - by apply encodable_iff.
  - by apply encodable_hint.
Qed.

Lemma btree_map_encodable {K V} `{Ord K} (EK : Encode K) (EV : Encode V) wfK wfV okK okV n m size_of :
  0 <= size_of -> seq_hint size_of <= isize_max -> n + m <= isize_max ->
  Encodable EK wfK okK n -> Encodable EV wfV okV m ->
  Encodable (btree_map_encode size_of EK EV) (map_wf wfK wfV) (seq_ok (tuple_ok okK okV)) (seq_hint size_of).
Proof.
  intros Hs Hh Hn HK HV.
  pose proof (tuple_encodable (pointer_encode EK) (pointer_encode EV) wfK wfV okK okV n m (words 2)
    ltac:(by apply words_nonneg) Hn (pointer_encodable EK wfK okK n HK) (pointer_encodable EV wfV okV m HV)) as Ht.
  eapply encodable_weaken; [apply (collection_encodable _ _ _ _ (words 3) size_of); [by apply words_nonneg|done..]|].
  by intros x [].
Qed.

(** Sets, lists and heaps are encoded by the same macro. *)
Lemma linked_list_encodable {T} (E : Encode T) wf ok n :
  seq_hint (E_size_of E) <= isize_max -> Encodable E wf ok n ->
  Encodable (linked_list_encode E) (Forall wf) (seq_ok ok) (seq_hint (E_size_of E)).
Proof.
  intros Hh HE. pose proof (pointer_encodable E wf ok n HE).
  apply (collection_encodable (pointer_encode E) wf ok n);
    [by apply words_nonneg|apply (encodable_size (E := E))|done].
Qed.

Lemma btree_set_encodable {T} `{Ord T} (E : Encode T) wf ok n :
  seq_hint (E_size_of E) <= isize_max -> Encodable E wf ok n ->
  Encodable (btree_set_encode E) (set_wf wf) (seq_ok ok) (seq_hint (E_size_of E)).
Proof.
  intros Hh HE. eapply encodable_weaken; [exact (linked_list_encodable E wf ok n Hh HE)|]. by intros x [].
Qed.

Lemma binary_heap_encodable {T} `{Ord T} (E : Encode T) wf ok n :
  seq_hint (E_size_of E) <= isize_max -> Encodable E wf ok n ->
  Encodable (binary_heap_encode E) (heap_wf wf) (seq_ok ok) (seq_hint (E_size_of E)).
Proof.
  intros Hh HE. eapply encodable_weaken; [exact (linked_list_encodable E wf ok n Hh HE)|]. by intros x [].
Qed.

(** The assertion of [BitSlice::encode_to] is the only way to fail. *)
Lemma bitvec_encodable {T} `{BitStore T} (E : Encode T) wf ok n :
  Encodable E wf ok n -> (forall bits, wf (from_bits bits) /\ ok (from_bits bits)) ->
  Encodable (bitvec_encode E) (fun _ => True) (fun bits => zlen bits <= ARCH32BIT_BITSLICE_MAX_BITS) 0.
Proof.
  intros HE Hb. split; [by apply words_nonneg|done|..]; intros bits _; [|intros _; by exists 0].
  cbn [encode_to bitvec_encode bitslice_encode impl_encode_to]. unfold bitslice_encode_to.
  destruct (Z.leb_spec (zlen bits) ARCH32BIT_BITSLICE_MAX_BITS) as [Hl|Hl]; [|split; [lia|by intros []]].
  split; [intros _|done]. apply writes_wseq. split.
  - assert (in_range U32 (zlen bits)) as Hr.
    { pose proof (zlen_nonneg bits). unfold ARCH32BIT_BITSLICE_MAX_BITS in Hl. split; [done|].
      change (prim_max U32) with 4294967295. lia. }
    rewrite wrap_id by done. by apply (encodable_iff (E := compact_encode CU32) (ok := always)).
  - rewrite <- (wfor_map from_bits). apply (writes_items E wf ok n); apply Forall_map, Forall_forall;
      intros c _; apply Hb.
Qed.

Lemma generic_array_encodable {T N} `{!GenericArray T N} (E : Encode T) wf ok n :
  Encodable E wf ok n ->
  Encodable (generic_array_encode (N := N) E) (Forall wf) (Forall ok) 0.
Proof.
  intros HE. pose proof (encodable_size (E := E)). split; [cbn; nia|done|..]; intros l Hl.
  - symmetry. by apply (writes_items E wf ok n).
  - intros _. by exists 0.
Qed.
End collections.

(** ** Derived implementations *)

Section derived.
Context `{Target}.

Definition field_encodable {F} (f : field F) (wf ok : F -> Prop) (n : Z) : Prop :=
  match field_encode f with
  | Some E => Encodable E wf ok n
  | None => 0 <= n /\ forall x, wf x -> ok x
  end.

Inductive fields_encodable : forall A, fields A -> (A -> Prop) -> (A -> Prop) -> Z -> Prop :=
| fields_encodable_nil : fields_encodable unit FNil (fun _ => True) (fun _ => True) 0
| fields_encodable_cons F A (f : field F) (fs : fields A) wf ok n wfs oks ns :
    field_encodable f wf ok n -> fields_encodable A fs wfs oks ns ->
    fields_encodable (F * A) (FCons f fs) (fun x => wf x.1 /\ wfs x.2) (fun x => ok x.1 /\ oks x.2) (n + ns).
Arguments fields_encodable {_} _ _ _ _.

Lemma field_encodable_nonneg {F} (f : field F) wf ok n : field_encodable f wf ok n -> 0 <= n.
Proof. unfold field_encodable. destruct (field_encode f); [|by intros []]. intros HE. apply encodable_nonneg. Qed.

Lemma fields_encodable_nonneg {A} (fs : fields A) wf ok n : fields_encodable fs wf ok n -> 0 <= n.
Proof. induction 1 as [|F A f fs wf ok n wfs oks ns Hf%field_encodable_nonneg Hfs IH]; lia. Qed.

Lemma fields_writes {A} (fs : fields A) wf ok n x :
  fields_encodable fs wf ok n -> wf x -> ok x <-> writes (encode_fields fs x).
Proof.
  induction 1 as [|F A f fs wf ok n wfs oks ns Hf Hfs IH]; [split; [by eexists|done]|].
  intros [Hx Hxs]. cbn [encode_fields]. rewrite writes_wseq, <- (IH _ Hxs).
  unfold encode_field. unfold field_encodable in Hf. destruct (field_encode f) as [E|].
  - by rewrite (encodable_iff (E := E) x.1 Hx).
  - destruct Hf as [_ Hok]. split; [intros [_ ?]; split; [by eexists|done]|]. intros [_ ?]. auto.
Qed.

Lemma fields_hint {A} (fs : fields A) wf ok n acc x :
  fields_encodable fs wf ok n -> 0 <= acc -> wf x -> ok x ->
  exists h, size_hint_fields fs acc x = Done h /\ 0 <= h <= acc + n.
Proof.
  intros Hfs. revert acc x. induction Hfs as [|F A f fs wf ok n wfs oks ns Hf Hfs IH]; intros acc x Ha;
    [exists acc; split; [done|lia]|].
  intros [Hx Hxs] [Hk Hks]. cbn [size_hint_fields]. pose proof (field_encodable_nonneg _ _ _ _ Hf).
  unfold field_encodable in Hf. destruct (field_encode f) as [E|].
  - destruct (encodable_hint x.1 Hx Hk) as (h & -> & Hh). simpl. pose proof usize_max_ge.
    destruct (IH (saturating_add_usize acc h) x.2) as (h' & -> & Hh'); [|done|done|].
    { unfold saturating_add_usize. lia. }
    exists h'. split; [done|]. unfold saturating_add_usize in Hh'. lia.
  - destruct (IH acc x.2) as (h' & -> & Hh'); [done..|]. exists h'. split; [done|lia].
Qed.

Lemma first_field_hint {A} (fs : fields A) wf ok n E x :
  fields_encodable fs wf ok n -> first_field_encode fs = Some E -> wf x -> ok x ->
  exists h, size_hint E x = Done h /\ 0 <= h <= n.
Proof.
  intros Hfs. revert E x. induction Hfs as [|F A f fs wf ok n wfs oks ns Hf Hfs IH]; intros E x; [done|].
  cbn [first_field_encode]. intros HE [Hx Hxs] [Hk Hks]. pose proof (field_encodable_nonneg _ _ _ _ Hf).
  pose proof (fields_encodable_nonneg _ _ _ _ Hfs). unfold field_encodable in Hf.
  destruct (field_encode f) as [E'|].
  - injection HE as <-. destruct (encodable_hint x.1 Hx Hk) as (h & Hh & ?). exists h. split; [done|lia].
  - destruct (first_field_encode fs) as [E'|]; [|done]. injection HE as <-.
    destruct (IH E' x.2 eq_refl Hxs Hks) as (h & Hh & ?). exists h. split; [done|lia].
Qed.

Lemma struct_encodable {A} size_of (fs : fields A) wf ok n :
  0 <= size_of -> fields_encodable fs wf ok n ->
  Encodable (struct_encode size_of fs) wf ok n.
Proof.
  intros Hs Hfs. split.
  - unfold struct_encode. by destruct (if Nat.eqb _ _ then _ else _).
  - by eapply fields_encodable_nonneg.
  - intros x Hx. unfold writes. rewrite wbytes_struct. by eapply fields_writes.
  - intros x Hx Hk. unfold struct_encode.
    destruct (Nat.eqb (count_unskipped fs) 1); [|by apply (fields_hint fs wf ok n 0)].
    destruct (first_field_encode fs) as [E|] eqn:HE; [|by apply (fields_hint fs wf ok n 0)].
    by apply (first_field_hint fs wf ok n E).
Qed.

Inductive variants_encodable : forall A, variants A -> (A -> Prop) -> (A -> Prop) -> Z -> Prop :=
| variants_encodable_nil : variants_encodable Empty_set VNil (fun _ => True) (fun _ => True) 0
| variants_encodable_cons A R (v : variant A) (vs : variants R) wf ok n wfs oks ns :
    fields_encodable (v_fields v) wf ok n -> variants_encodable R vs wfs oks ns ->
    variants_encodable (A + R) (VCons v vs)
      (fun x => match x with inl a => v_skip v = false /\ wf a | inr r => wfs r end)
      (fun x => match x with inl a => ok a | inr r => oks r end) (Z.max n ns).
Arguments variants_encodable {_} _ _ _ _.

Lemma variants_writes {A} (vs : variants A) wf ok n i x :
  variants_encodable vs wf ok n -> wf x -> ok x <-> writes (encode_variants vs i x).
Proof.
  intros Hvs. revert i x. induction Hvs as [|A R v vs wf ok n wfs oks ns Hv Hvs IH]; intros i x; [done|].
  destruct x as [a|r]; cbn [encode_variants]; [|apply IH].
  intros [Hsk Ha]. rewrite Hsk. cbn [wseq push_byte]. rewrite writes_push_byte. by eapply fields_writes.
Qed.

Lemma variants_hint {A} (vs : variants A) wf ok n x :
  variants_encodable vs wf ok n -> wf x -> ok x ->
  exists h, size_hint_variants vs x = Done h /\ 0 <= h <= n.
Proof.
  intros Hvs. revert x. induction Hvs as [|A R v vs wf ok n wfs oks ns Hv Hvs IH]; intros x; [done|].
  destruct x as [a|r]; cbn [size_hint_variants].
  - intros [Hsk Ha] Hk. rewrite Hsk. destruct (fields_hint _ _ _ _ 0 a Hv ltac:(done) Ha Hk) as (h & Hh & ?).
    exists h. split; [done|lia].
  - intros Hx Hk. destruct (IH r Hx Hk) as (h & Hh & ?). exists h. split; [done|lia].
Qed.

Lemma variants_encodable_nonneg {A} (vs : variants A) wf ok n : variants_encodable vs wf ok n -> 0 <= n.
Proof. induction 1 as [|A R v vs wf ok n wfs oks ns Hv%fields_encodable_nonneg Hvs IH]; lia. Qed.

(** A value of an enum that has no variants left cannot be well formed. *)
Lemma variants_encodable_count {A} (vs : variants A) wf ok n x :
  variants_encodable vs wf ok n -> wf x -> 0 < count_variants vs.
Proof.
  assert (forall B (ws : variants B), 0 <= count_variants ws) as Hc.
  { intros B ws. induction ws as [|B R v ws IH]; cbn [count_variants]; [lia|]. destruct (v_skip v); lia. }
  intros Hvs. revert x. induction Hvs as [|A R v vs wf ok n wfs oks ns Hv Hvs IH]; intros x; [done|].
  cbn [count_variants]. pose proof (Hc _ vs). destruct x as [a|r].
  - intros [-> _]. lia.
  - intros Hx. specialize (IH r Hx). destruct (v_skip v); lia.
Qed.

Lemma enum_encodable {A} size_of (vs : variants A) wf ok n :
  0 <= size_of -> n + 1 <= isize_max -> variants_encodable vs wf ok n ->
  Encodable (enum_encode size_of vs) wf ok (n + 1).
Proof.
  intros Hs Hn Hvs. pose proof (variants_encodable_nonneg _ _ _ _ Hvs). split.
  - unfold enum_encode. by case_match.
  - lia.
  - intros x Hx. unfold enum_encode. rewrite (proj2 (Z.eqb_neq _ _)).
    + by apply (variants_writes vs wf ok n).
    + pose proof (variants_encodable_count _ _ _ _ _ Hvs Hx). lia.
  - intros x Hx Hk. unfold enum_encode. rewrite (proj2 (Z.eqb_neq _ _)).
    + apply hint_succ; [done|]. by apply (variants_hint vs wf ok n).
    + pose proof (variants_encodable_count _ _ _ _ _ Hvs Hx). lia.
Qed.
End derived.
Arguments fields_encodable {_} _ _ _ _.
Arguments variants_encodable {_} _ _ _ _.
