(* ===== verification/Reencode.v ===== *)
(** * What is decoded can be encoded again

    [decode] returns values that satisfy more than [encode] asks for: a collection
    that has been decoded is not longer than its length prefix could say, so that
    [encode] does not panic on it.  [TotalCodec E D wf n] combines the laws of a
    codec with [Encodable]: what the decoder returns satisfies [wf], on which
    encoding cannot fail, with hints of at most [n] bytes. *)

From S2P Require Import Prelude Ints Errors Input Discipline Output Traits Primitives Compact.
From S2P Require Import CompactTheory Sequences SequencesTheory Composite Collections Heap BitVec MaxLen.
From S2P Require Import Derive DeriveTheory EncodeTotal.

Section contract.
Context `{Target}.

Class TotalCodec {T} (E : Encode T) (D : Decode T) (wf : T -> Prop) (n : Z) : Prop := {
  total_codec :: CodecLaws E D wf;
  total_encodable :: Encodable E wf always n;
}.

Lemma encodable_total {T} (E : Encode T) (wf ok : T -> Prop) n :
  Encodable E wf ok n -> (forall x, wf x -> ok x) -> Encodable E wf always n.
Proof.
  intros HE Hok. split; [apply encodable_size|apply encodable_nonneg|..]; intros x Hx.
  - split; [|done]. intros _. apply (encodable_iff (E := E)); auto.
  - intros _. apply (encodable_hint (E := E)); auto.
Qed.

Lemma total_intro {T} (E : Encode T) D (wf ok : T -> Prop) n :
  CodecLaws E D wf -> Encodable E wf ok n -> (forall x, wf x -> ok x) -> TotalCodec E D wf n.
Proof. intros HC HE Hok. split; [done|]. by apply (encodable_total E wf ok). Qed.

(** A decoder that guarantees more than its laws ask for. *)
Lemma codec_strengthen {T} (E : Encode T) size_of (d : dec T) (wf wf' : T -> Prop) :
  CodecLaws E (impl_decode size_of d) wf -> (forall x, wf' x -> wf x) -> wb wf' 0 d ->
  CodecLaws E (impl_decode size_of d) wf'.
Proof.
  intros HC Hwf Hd. constructor.
  - constructor; [apply encode_sound|apply using_encoded_sound|..].
    + intros x h bs Hx. by apply encode_complete, Hwf.
    + intros p t b x Hi Hx. by apply (encode_type_info p t b), Hwf.
  - apply impl_decode_laws; [|done]. apply (size_of_nonneg (D := impl_decode size_of d)).
  - intros x bs rest Hx. by apply roundtrip, Hwf.
  - discriminate.
Qed.

Lemma total_iff {T} (E : Encode T) D (wf wf' : T -> Prop) n :
  TotalCodec E D wf n -> (forall x, wf x <-> wf' x) -> TotalCodec E D wf' n.
Proof.
  intros HT Hwf. split; [|eapply encodable_weaken; [apply total_encodable|apply Hwf]].
  assert (forall x, wf x -> wf' x) as Himp by apply Hwf. constructor.
  - constructor; [apply encode_sound|apply using_encoded_sound|..].
    + intros x h bs Hx. by apply encode_complete, Hwf.
    + intros p t b x Hi Hx. by apply (encode_type_info p t b), Hwf.
  - constructor.
    + apply size_of_nonneg.
    + eapply wb_weaken; [exact Himp|apply decode_wb].
    + eapply wb_weaken; [exact Himp|apply decode_into_wb].
    + apply skip_wb.
    + apply decode_into_equiv.
    + apply skip_equiv.
    + intros p t b Hi. destruct (decode_type_info p t b Hi) as (Hs & Hb & Hok & Hshort). split_and!; [done| |done..].
      intros z Hz. by apply Himp, Hb.
  - intros x bs rest Hx. by apply roundtrip, Hwf.
  - intros m x bs Hm Hx. by apply (fixed_size m x), Hwf.
Qed.

(** What has been decoded is encoded without a panic, to bytes that decode to the
    same value; if the decoder is canonical, to the bytes that were decoded. *)
Lemma reencode {T} (E : Encode T) D wf n i x i' :
  TotalCodec E D wf n -> n <= isize_max -> run (decode D) i = Done (Ok x, i') ->
  exists bs, encode E x = Done bs /\ (forall rest, run (decode D) (bs ++ rest) = Done (Ok x, rest)) /\
    (Canonical E D -> i = bs ++ i').
Proof.
  intros HT Hn Hrun. assert (wf x) as Hx by by apply (decode_wf D wf i x i').
  destruct (encodable_encode E wf always n x _ _ Hn Hx) as (_ & _ & Hall).
  destruct (Hall I) as (bs & Henc & _ & Hb). exists bs. split_and!; [done| |].
  - intros rest. by apply roundtrip.
  - intros Hcan. destruct (Hcan i x i' Hrun) as (bs' & Hb' & ->). congruence.
Qed.
End contract.

(** ** The types of the crate *)

Section types.
Context `{Target}.

#[global] Instance prim_total p : TotalCodec (prim_encode p) (prim_decode p) (in_range p) (Z.of_nat (prim_bytes p)).
Proof. split; apply _. Qed.

#[global] Instance compact_total c :
  TotalCodec (compact_encode c) (compact_decode c) (in_range (compact_prim c)) (compact_capacity c).
Proof. split; apply _. Qed.

#[global] Instance duration_total : TotalCodec duration_encode duration_decode duration_wf 12.
Proof. split; apply _. Qed.

(** A sequence that a length prefix can count. *)
Definition seq_wf {T} (wf : T -> Prop) (l : list T) : Prop := Forall wf l /\ zlen l <= prim_max U32.

Lemma seq_wf_ok {T} (wf : T -> Prop) l : seq_wf wf l -> seq_ok always l.
Proof. intros [_ Hl]. split; [done|by apply Forall_true]. Qed.

Section items.
Context {T : Type} (E : Encode T) (D : Decode T) (wf : T -> Prop) (n : Z) `{!TotalCodec E D wf n}.
Context (fits : vec_fits (D_size_of D)) (short : seq_hint (E_size_of E) <= isize_max).

Lemma vec_decode_seq_wb : wb (seq_wf wf) 0 (decode (vec_decode D)).
Proof.
  eapply wb_try; [apply decode_len_wb|]. intros len Hl.
  eapply wb_weaken; [|by apply (decode_vec_with_len_wb D wf fits)].
  intros v [Hv <-]. split; [done|]. by destruct Hl.
Qed.

Lemma vec_total : TotalCodec (vec_encode E) (vec_decode D) (seq_wf wf) (seq_hint (E_size_of E)).
Proof.
  apply (total_intro _ _ _ (seq_ok always)); [| |apply seq_wf_ok].
  - eapply codec_strengthen; [apply (vec_codec_laws E D wf fits); apply _|by intros l []|apply vec_decode_seq_wb].
  - eapply encodable_weaken; [by apply (vec_encodable E wf always n)|by intros l []].
Qed.

Lemma linked_list_total node_size : 0 <= node_size ->
  TotalCodec (linked_list_encode E) (linked_list_decode node_size D) (seq_wf wf) (seq_hint (E_size_of E)).
Proof.
  intros Hs. apply (total_intro _ _ _ (seq_ok always)); [| |apply seq_wf_ok].
  - eapply codec_strengthen; [apply (linked_list_codec_laws E D wf); done|by intros l []|].
    apply (collection_decode_wb _ wf); [|done].
    intros len [Hl _]. unfold saturating_mul_usize. pose proof usize_max_ge. apply Z.min_glb; nia.
  - eapply encodable_weaken; [apply (linked_list_encodable E wf always n); [done|apply _]|by intros l []].
Qed.

(** A deque that has been decoded is in one piece. *)
Definition deque_total_wf (d : VecDeque T) : Prop := seq_wf wf d.1 /\ d.2 = [].

Lemma vec_deque_total :
  TotalCodec (vec_deque_encode E) (vec_deque_decode D) deque_total_wf (seq_hint (E_size_of E)).
Proof.
  apply (total_intro _ _ _ (deque_ok always)).
  - eapply codec_strengthen; [apply (vec_deque_codec_laws E D wf fits); apply _|by intros d [[] ?]|].
    eapply wb_try; [apply vec_decode_seq_wb|]. intros v Hv. by apply wb_done.
  - eapply encodable_weaken; [by apply (vec_deque_encodable E wf always n)|].
    intros d [[Hd _] H2]. split; [done|]. by rewrite H2.
  - intros d [[_ Hd] H2]. unfold deque_ok, deque_len. rewrite H2, zlen_nil.
    split_and!; [lia|by apply Forall_true..].
Qed.

Lemma binary_heap_total `{Ord T} :
  TotalCodec (binary_heap_encode E) (binary_heap_decode D) (fun l => is_heap l /\ seq_wf wf l)
    (seq_hint (E_size_of E)).
Proof.
  apply (total_intro _ _ _ (seq_ok always)); [| |intros l []; by eapply seq_wf_ok].
  - eapply codec_strengthen; [apply (binary_heap_codec_laws E D wf fits); apply _|by intros l [? []]|].
    eapply wb_try; [apply vec_decode_seq_wb|]. intros v [Hv Hl]. apply wb_done.
    split; [apply rebuild_heap|]. unfold seq_wf, zlen. by rewrite rebuild_perm.
  - eapply encodable_weaken; [apply (binary_heap_encodable E wf always n); [done|apply _]|by intros l [? []]].
Qed.

Lemma btree_set_total `{Ord T} leaf : 0 <= leaf ->
  TotalCodec (btree_set_encode E) (btree_set_decode leaf D) (fun l => set_sorted l /\ seq_wf wf l)
    (seq_hint (E_size_of E)).
Proof.
  intros Hs. apply (total_intro _ _ _ (seq_ok always)); [| |intros l []; by eapply seq_wf_ok].
  - eapply codec_strengthen; [apply (btree_set_codec_laws E D wf); done|by intros l [? []]|].
    apply (collection_decode_wb _ wf).
    + intros len [Hl _]. by apply mem_size_of_btree_nonneg.
    + intros l Hl Hz. split_and!; [apply set_from_iter_sorted|split; [by apply set_from_iter_forall|]].
      pose proof (btree_from_iter_length (map (fun x => (x, tt)) l)) as Hb.
      unfold set_from_iter, zlen in *. rewrite length_map in *. lia.
  - eapply encodable_weaken; [apply (btree_set_encodable E wf always n); [done|apply _]|by intros l [? []]].
Qed.
End items.

Lemma btree_map_total {K V} `{Ord K} (EK : Encode K) DK wfK n (EV : Encode V) DV wfV m size_of pair_size leaf :
  TotalCodec EK DK wfK n -> TotalCodec EV DV wfV m ->
  0 <= size_of -> 0 <= pair_size -> 0 <= leaf -> seq_hint size_of <= isize_max -> n + m <= isize_max ->
  TotalCodec (btree_map_encode size_of EK EV) (btree_map_decode pair_size leaf DK DV)
    (fun l => btree_sorted l /\ seq_wf (tuple_wf wfK wfV) l) (seq_hint size_of).
Proof.
  intros HK HV Hs Hp Hleaf Hh Hn. pose proof (tuple_codec_laws EK EV DK DV wfK wfV pair_size Hp) as Ht.
  apply (total_intro _ _ _ (seq_ok (tuple_ok always always))).
  - eapply codec_strengthen; [apply (btree_map_codec_laws EK EV DK DV wfK wfV); done|by intros l [? []]|].
    apply (collection_decode_wb _ (tuple_wf wfK wfV)).
    + intros len [Hl _]. by apply mem_size_of_btree_nonneg.
    + intros l Hl Hz. split_and!; [apply btree_from_iter_sorted|split; [by apply btree_from_iter_forall|]].
      pose proof (btree_from_iter_length l). lia.
  - eapply encodable_weaken; [apply (btree_map_encodable EK EV wfK wfV always always n m); [done..|apply _|apply _]|by intros l [? []]].
  - intros l [_ [_ Hl]]. split; [done|by apply Forall_true].
Qed.

Lemma option_total {T} (E : Encode T) D wf n size_of :
  0 <= size_of -> n + 1 <= isize_max -> TotalCodec E D wf n ->
  TotalCodec (option_encode size_of E) (option_decode size_of D) (option_wf wf) (n + 1).
Proof.
  intros Hs Hn HT. apply (total_intro _ _ _ (option_ok always)).
  - apply option_codec_laws; [apply _|done].
  - apply option_encodable; [done|done|apply _].
  - by intros [t|].
Qed.

Lemma tuple_total {A B} (EA : Encode A) DA wfA n (EB : Encode B) DB wfB m size_of :
  0 <= size_of -> n + m <= isize_max -> TotalCodec EA DA wfA n -> TotalCodec EB DB wfB m ->
  TotalCodec (tuple_encode size_of EA EB) (tuple_decode size_of DA DB) (tuple_wf wfA wfB) (n + m).
Proof.
  intros Hs Hn HA HB. apply (total_intro _ _ _ (tuple_ok always always)); [apply tuple_codec_laws; [apply _|apply _|done]| |by intros x _; split].
  apply tuple_encodable; [done|done|apply _|apply _].
Qed.

Lemma result_total {A B} (EA : Encode A) DA wfA n (EB : Encode B) DB wfB m size_of :
  0 <= size_of -> Z.max n m + 1 <= isize_max -> TotalCodec EA DA wfA n -> TotalCodec EB DB wfB m ->
  TotalCodec (result_encode size_of EA EB) (result_decode size_of DA DB) (result_wf wfA wfB) (Z.max n m + 1).
Proof.
  intros Hs Hn HA HB. apply (total_intro _ _ _ (result_ok always always)).
  - apply result_codec_laws; [apply _|apply _|done].
  - apply result_encodable; [done|done|apply _|apply _].
  - by intros [a|b].
Qed.

Lemma array_total {T} (E : Encode T) D wf n N :
  E_size_of E * Z.of_nat N <= isize_max -> TotalCodec E D wf n ->
  TotalCodec (array_encode E N) (array_decode D N) (array_wf wf N) (E_size_of E * Z.of_nat N).
Proof.
  intros Hh HT. apply (total_intro _ _ _ (Forall always)); [apply _| |by intros l _; apply Forall_true].
  by apply (array_encodable E wf always n).
Qed.

Lemma box_total {T} (E : Encode T) D wf n :
  TotalCodec E D wf n -> TotalCodec (pointer_encode E) (box_decode D) wf n.
Proof. intros HT. split; [apply _|]. apply (pointer_encodable E wf always n), _. Qed.

Lemma rc_total {T} (E : Encode T) D wf n :
  TotalCodec E D wf n -> TotalCodec (pointer_encode E) (rc_decode D) wf n.
Proof. intros HT. split; [apply _|]. apply (pointer_encodable E wf always n), _. Qed.

Lemma cow_total {T} (E : Encode T) D wf n size_of :
  0 <= size_of -> TotalCodec E D wf n ->
  TotalCodec (cow_encode size_of id E) (cow_decode size_of D) (cow_wf (T := T) wf) n.
Proof.
  intros Hs HT. split.
  - by apply (cow_codec_laws E wf E D wf id); [apply _|apply HT|..].
  - eapply encodable_weaken; [by apply (cow_encodable size_of id E wf always n); [|apply HT]|].
    by intros [b|o].
Qed.

Lemma range_total {T} (E : Encode T) D wf n size_of :
  0 <= size_of -> 2 * n <= isize_max -> 2 * E_size_of E <= isize_max -> TotalCodec E D wf n ->
  TotalCodec (range_encode size_of E) (range_decode size_of D) (fun r => wf (start r) /\ wf (end_ r))
    (2 * E_size_of E).
Proof.
  intros Hs Hn He HT. apply (total_intro _ _ _ (fun r => always (start r) /\ always (end_ r))); [| |done].
  - apply range_codec_laws; [apply _|done].
  - apply (range_encodable E wf always n); [done..|apply _].
Qed.

Lemma range_inclusive_total {T} (E : Encode T) D wf n size_of :
  0 <= size_of -> 2 * n <= isize_max -> 2 * E_size_of E <= isize_max -> TotalCodec E D wf n ->
  TotalCodec (range_inclusive_encode size_of E) (range_inclusive_decode size_of D) (range_inclusive_wf wf)
    (2 * E_size_of E).
Proof.
  intros Hs Hn He HT. apply (total_intro _ _ _ (fun r => always (ri_start r) /\ always (ri_end r))); [| |done].
  - apply range_inclusive_codec_laws; [apply _|done].
  - eapply encodable_weaken; [apply (range_inclusive_encodable E wf always n); [done..|apply _]|by intros r (? & ? & _)].
Qed.

Lemma string_total : usize_bits = 64 ->
  TotalCodec string_encode string_decode (fun s => string_wf s /\ zlen s <= prim_max U32) (seq_hint 1).
Proof.
  intros Hu. apply (total_intro _ _ _ (fun s => zlen s <= prim_max U32)); [| |by intros s []].
  - eapply codec_strengthen; [by apply string_codec_laws|by intros s []|].
    eapply wb_try; [apply (vec_decode_seq_wb (prim_encode U8) (prim_decode U8) (in_range U8) 1 (byte_vec_fits Hu))|].
    intros s [Hs Hl]. case_match; [by apply wb_done|apply wb_throw].
  - eapply encodable_weaken; [by apply string_encodable|by intros s []].
Qed.

Lemma bitvec_total {T} `{BitStoreLaws T} (E : Encode T) D wf n :
  TotalCodec E D wf n -> vec_fits (D_size_of D) -> (forall bits, wf (from_bits bits)) ->
  TotalCodec (bitvec_encode E) (bitvec_decode D) bits_wf 0.
Proof.
  intros HT Hf Hb. apply (total_intro _ _ _ (fun bits => zlen bits <= ARCH32BIT_BITSLICE_MAX_BITS)); [| |by intros b []].
  - by apply (bitvec_codec_laws E D wf).
  - eapply encodable_weaken; [apply (bitvec_encodable E wf always n)|done]; [apply _|done].
Qed.

(** ** Derived implementations *)

Definition fields_total {A} (fs : fields A) (wf : A -> Prop) (n : Z) : Prop :=
  fields_ok fs wf /\ exists ok, fields_encodable fs wf ok n /\ forall x, wf x -> ok x.

Lemma fields_total_nil : fields_total FNil (fun _ => True) 0.
Proof. split; [constructor|]. exists (fun _ => True). split; [constructor|done]. Qed.

Lemma fields_total_field {F A} (f : field F) wf n (fs : fields A) wfs ns :
  field_ok f wf -> field_encodable f wf always n -> fields_total fs wfs ns ->
  fields_total (FCons f fs) (fun x => wf x.1 /\ wfs x.2) (n + ns).
Proof.
  intros Hf Hfe [Hok (ok & He & Hw)]. split; [by constructor|].
  exists (fun x => always x.1 /\ ok x.2). split; [|intros x [_ Hx]; split; [done|auto]].
  by apply fields_encodable_cons.
Qed.

Lemma fields_total_cons {F A} name mel cmel (E : Encode F) D wf n (fs : fields A) wfs ns :
  TotalCodec E D wf n -> fields_total fs wfs ns ->
  fields_total (FCons (mkField name (FieldNone E D) mel cmel) fs) (fun x => wf x.1 /\ wfs x.2) (n + ns).
Proof. intros HT. by apply fields_total_field; apply HT. Qed.

(** A value that is its own representation. *)
Lemma represented_id {F} (E : Encode F) D wf n : TotalCodec E D wf n -> represented E id D id wf.
Proof. intros HT. exists wf, wf, E. split_and!; [apply _|apply _|done|done|]. intros x Hx. by exists x. Qed.

Lemma fields_total_compact {F A} name mel cmel (E : Encode F) D wf n (fs : fields A) wfs ns :
  TotalCodec E D wf n -> fields_total fs wfs ns ->
  fields_total (FCons (mkField name (FieldCompact E id D id) mel cmel) fs) (fun x => wf x.1 /\ wfs x.2) (n + ns).
Proof.
  intros HT. apply fields_total_field; [by apply (represented_id E D wf n)|].
  apply (encodable_forward _ id E wf always n); [|apply _]. apply (encodable_size (E := E)).
Qed.

Lemma fields_total_encoded_as {F A} name mel cmel (E : Encode F) D wf n (fs : fields A) wfs ns :
  TotalCodec E D wf n -> fields_total fs wfs ns ->
  fields_total (FCons (mkField name (FieldEncodedAs E id D id) mel cmel) fs) (fun x => wf x.1 /\ wfs x.2) (n + ns).
Proof.
  intros HT. apply fields_total_field; [by apply (represented_id E D wf n)|].
  apply (encodable_forward _ id E wf always n); [|apply _]. apply (encodable_size (E := E)).
Qed.

Lemma fields_total_skip {F A} name mel cmel (default : F) (fs : fields A) wfs ns :
  fields_total fs wfs ns ->
  fields_total (FCons (mkField name (FieldSkip default) mel cmel) fs) (fun x => x.1 = default /\ wfs x.2) (0 + ns).
Proof.
  by apply (fields_total_field (mkField name (FieldSkip default) mel cmel) (fun x => x = default)).
Qed.

Lemma struct_total {A} size_of name named (fs : fields A) wf n :
  0 <= size_of -> fields_total fs wf n ->
  TotalCodec (struct_encode size_of fs) (struct_decode size_of false name named fs) wf n.
Proof.
  intros Hs [Hok (ok & He & Hw)]. apply (total_intro _ _ _ ok); [by apply struct_codec_laws|by apply struct_encodable|done].
Qed.

Definition variants_total {A} (vs : variants A) (wf : A -> Prop) (n : Z) : Prop :=
  variants_ok vs wf /\ exists ok, variants_encodable vs wf ok n /\ forall x, wf x -> ok x.

Lemma variants_total_nil : variants_total VNil (fun _ => True) 0.
Proof. split; [constructor|]. exists (fun _ => True). split; [constructor|done]. Qed.

Lemma variants_total_cons {A R} (v : variant A) wf n (vs : variants R) wfs ns :
  fields_total (v_fields v) wf n -> variants_total vs wfs ns ->
  variants_total (VCons v vs) (fun x => match x with inl a => v_skip v = false /\ wf a | inr r => wfs r end)
    (Z.max n ns).
Proof.
  intros [Hf (okf & Hfe & Hfw)] [Hv (okv & Hve & Hvw)]. split; [by constructor|].
  exists (fun x => match x with inl a => okf a | inr r => okv r end). split; [by constructor|].
  intros [a|r]; [|apply Hvw]. intros [_ Ha]. auto.
Qed.

Lemma enum_total {A} size_of name (vs : variants A) wf n :
  0 <= size_of -> n + 1 <= isize_max -> NoDup (indices vs 0) -> variants_total vs wf n ->
  TotalCodec (enum_encode size_of vs) (enum_decode size_of name vs) wf (n + 1).
Proof.
  intros Hs Hn Hnd [Hok (ok & He & Hw)].
  apply (total_intro _ _ _ ok); [by apply enum_codec_laws|by apply enum_encodable|done].
Qed.
End types.
