(* ===== verification/Fuzzer.v ===== *)
(** * The fuzzer ([src/fuzzer/src/main.rs])

    The fuzzer decodes arbitrary bytes and encodes arbitrary values, and panics
    when it sees something it does not expect.  [fuzz_decode] and [fuzz_encode]
    are its two entry points with the flows they are made of, on the types the
    fuzzer lists.  Printing the objects before a panic is left out, and the
    harness ([honggfuzz]), which calls the entry points for ever, is not
    modelled. *)

From stdpp Require Import sorting.
From S2P Require Import Prelude Ints Errors Input Discipline Output Traits Primitives Compact.
From S2P Require Import CompactTheory Sequences SequencesTheory Composite Collections Heap BitVec MaxLen.
From S2P Require Import Derive DeriveTheory.

(** [String: Ord], byte by byte. *)
Fixpoint str_cmp (s t : list Z) : comparison :=
  match s, t with
  | [], [] => Eq
  | [], _ => Lt
  | _, [] => Gt
  | a :: s, b :: t => match Z.compare a b with Eq => str_cmp s t | c => c end
  end.

#[export] Instance str_ord : Ord (list Z).
Proof.
  refine {| cmp := str_cmp |}.
  - induction x as [|a s IH]; intros [|b t]; simpl; try done.
    destruct (Z.compare_spec a b) as [-> | |]; [rewrite IH| |]; naive_solver lia.
  - induction x as [|a s IH]; intros [|b t]; simpl; try done.
    rewrite Z.compare_antisym. destruct (Z.compare a b); simpl; auto.
  - induction x as [|a s IH]; intros [|b t] [|c u]; simpl; try done.
    destruct (Z.compare_spec a b) as [Hab|Hab|Hab], (Z.compare_spec b c) as [Hbc|Hbc|Hbc]; try done; intros H1 H2.
    + rewrite (proj2 (Z.compare_eq_iff a c)) by lia. eauto.
    + by rewrite (proj2 (Z.compare_lt_iff a c)) by lia.
    + by rewrite (proj2 (Z.compare_lt_iff a c)) by lia.
    + by rewrite (proj2 (Z.compare_lt_iff a c)) by lia.
Defined.

(** ** The types *)

Section types.
Context `{Target}.

(** [pub struct MockStruct { vec_u: Vec<u8> }]. *)
Definition byte_vec_encode : Encode (list Z) := vec_encode (prim_encode U8).
Definition byte_vec_decode : Decode (list Z) := vec_decode (prim_decode U8).

Definition plain {F} (name : string) (E : Encode F) (D : Decode F) : field F := mkField name (FieldNone E D) 0 0.

Definition MockStruct : Type := list Z * unit.
Definition MockStruct_fields : fields MockStruct := FCons (plain "vec_u" byte_vec_encode byte_vec_decode) FNil.
Definition MockStruct_encode : Encode MockStruct := struct_encode (words 3) MockStruct_fields.
Definition MockStruct_decode : Decode MockStruct := struct_decode (words 3) false "MockStruct" true MockStruct_fields.

(** [BitVec<T, Msb0>], and [pub struct BitVecWrapper<T, O>(BitVec<T, O>)]. *)
Definition msb0_encode (p : prim) : Encode (list bool) := @bitvec_encode _ Z (uint_store Msb0 p) (prim_encode p).
Definition msb0_decode (p : prim) : Decode (list bool) := @bitvec_decode _ Z (uint_store Msb0 p) (prim_decode p).

Definition BitVecWrapper : Type := list bool * unit.
Definition BitVecWrapper_fields (p : prim) : fields BitVecWrapper :=
  FCons (plain "0" (msb0_encode p) (msb0_decode p)) FNil.
Definition BitVecWrapper_encode (p : prim) : Encode BitVecWrapper := struct_encode (words 3) (BitVecWrapper_fields p).
Definition BitVecWrapper_decode (p : prim) : Decode BitVecWrapper :=
  struct_decode (words 3) false "BitVecWrapper" false (BitVecWrapper_fields p).

(** [struct BinaryHeapWrapper(BinaryHeap<u32>)]; it is compared by
    [into_sorted_vec]. *)
Definition BinaryHeapWrapper : Type := list Z * unit.
Definition BinaryHeapWrapper_fields : fields BinaryHeapWrapper :=
  FCons (plain "0" (binary_heap_encode (prim_encode U32)) (binary_heap_decode (prim_decode U32))) FNil.
Definition BinaryHeapWrapper_encode : Encode BinaryHeapWrapper := struct_encode (words 3) BinaryHeapWrapper_fields.
Definition BinaryHeapWrapper_decode : Decode BinaryHeapWrapper :=
  struct_decode (words 3) false "BinaryHeapWrapper" false BinaryHeapWrapper_fields.
Definition BinaryHeapWrapper_eq (self other : BinaryHeapWrapper) : bool :=
  bool_decide (merge_sort Z.le self.1 = merge_sort Z.le other.1).

(** [Vec<Vec<..<Option<u8>>..>>], eight levels deep. *)
Fixpoint nest (n : nat) (A : Type) : Type := match n with O => A | S n => list (nest n A) end.
Fixpoint nest_encode {A} (n : nat) (E : Encode A) : Encode (nest n A) :=
  match n with O => E | S n => vec_encode (nest_encode n E) end.
Fixpoint nest_decode {A} (n : nat) (D : Decode A) : Decode (nest n A) :=
  match n with O => D | S n => vec_decode (nest_decode n D) end.

(** The fields of the variants of [MockEnum]. *)
Definition Complex_fields : fields (list Z * (BitVecWrapper * (list Z * unit))) :=
  FCons (plain "data" (vec_encode (prim_encode U32)) (vec_decode (prim_decode U32)))
    (FCons (plain "bitvec" (BitVecWrapper_encode U8) (BitVecWrapper_decode U8))
       (FCons (plain "string" string_encode string_decode) FNil)).

Definition NestedVec_fields : fields (nest 8 (option Z) * unit) :=
  FCons (plain "0" (nest_encode 8 (option_encode 2 (prim_encode U8))) (nest_decode 8 (option_decode 2 (prim_decode U8))))
    FNil.

Definition MockEnum : Type :=
  unit + (Z * unit + (list Z * unit + (list Z * (BitVecWrapper * (list Z * unit)) +
    (MockStruct * unit + (nest 8 (option Z) * unit + Empty_set))))).

Definition tuple_variant {A} (name : string) (fs : fields A) : variant A := mkVariant name false None None false fs.

Definition MockEnum_variants : variants MockEnum :=
  VCons (mkVariant "Empty" false None None false FNil)
    (VCons (tuple_variant "Unit" (FCons (plain "0" (prim_encode U32) (prim_decode U32)) FNil))
      (VCons (tuple_variant "UnitVec" (FCons (plain "0" byte_vec_encode byte_vec_decode) FNil))
        (VCons (mkVariant "Complex" false None None true Complex_fields)
          (VCons (tuple_variant "Mock" (FCons (plain "0" MockStruct_encode MockStruct_decode) FNil))
            (VCons (tuple_variant "NestedVec" NestedVec_fields) VNil))))).

Definition MockEnum_encode (size_of : Z) : Encode MockEnum := enum_encode size_of MockEnum_variants.
Definition MockEnum_decode (size_of : Z) : Decode MockEnum := enum_decode size_of "MockEnum" MockEnum_variants.
End types.

#[export] Instance Duration_eq_dec : EqDecision Duration.
Proof. solve_decision. Defined.

#[export] Instance nest_eq_dec n `{EqDecision A} : EqDecision (nest n A).
Proof. induction n; simpl; apply _. Defined.

#[export] Instance MockEnum_eq_dec : EqDecision MockEnum.
Proof. unfold MockEnum, MockStruct, BitVecWrapper. apply _. Defined.

(** ** The flows

    A type the fuzzer is run on, with its [PartialEq]. *)
Record fuzz_type : Type := mkFuzzType {
  ft_type : Type;
  ft_encode : Encode ft_type;
  ft_decode : Decode ft_type;
  ft_eq : ft_type -> ft_type -> bool;
}.

(** Types whose [PartialEq] is equality. *)
Definition eq_type {T} `{EqDecision T} (E : Encode T) (D : Decode T) : fuzz_type :=
  mkFuzzType T E D (fun x y => bool_decide (x = y)).

(** [&raw1[..raw1.len() - d.len()]]: what has been decoded. *)
Definition consumed (raw1 d : list byte) : list byte := take (length raw1 - length d) raw1.

(** [sort] on bytes. *)
Definition byte_le (a b : byte) : Prop := byte.unsigned a <= byte.unsigned b.
#[export] Instance byte_le_dec a b : Decision (byte_le a b) := decide (byte.unsigned a <= byte.unsigned b).
Definition sort_bytes (bs : list byte) : list byte := merge_sort byte_le bs.

(** The arm [round_trip] for one type, on [&data[1..]]. *)
Definition round_trip (t : fuzz_type) (raw1 : list byte) : outcome unit :=
  '(maybe_obj, d) ← run (decode (ft_decode t)) raw1;
  match maybe_obj with
  | Ok obj =>
      raw2 ← encode (ft_encode t) obj;
      '(exp_obj, _) ← run (decode (ft_decode t)) raw2;
      match exp_obj with
      | Ok obj2 =>
          if ft_eq t obj obj2 then
            if bool_decide (consumed raw1 d = raw2) then Done tt else Panic "raw1 != raw2"
          else Panic "obj != obj2"
      | Err _ => Panic "Shouldn't happen: can't .decode() after .decode().encode()"
      end
  | Err _ => Done tt
  end.

Definition round_trip_sorted (t : fuzz_type) (raw1 : list byte) : outcome unit :=
  '(maybe_obj, d) ← run (decode (ft_decode t)) raw1;
  match maybe_obj with
  | Ok obj =>
      d2 ← encode (ft_encode t) obj;
      let raw2 := sort_bytes d2 in
      '(exp_obj, _) ← run (decode (ft_decode t)) d2;
      match exp_obj with
      | Ok obj2 =>
          if ft_eq t obj obj2 then
            if bool_decide (sort_bytes (consumed raw1 d) = raw2) then Done tt else Panic "raw1 != raw2"
          else Panic "obj != obj2"
      | Err _ => Panic "Shouldn't happen: can't .decode() after .decode().encode()"
      end
  | Err _ => Done tt
  end.

Definition only_decode (t : fuzz_type) (raw1 : list byte) : outcome unit :=
  '(_, _) ← run (decode (ft_decode t)) raw1; Done tt.

(** The arms of [fuzz_decoder!] that number the types: the last type comes first,
    with the highest index; [counter] ends as their number. *)
Fixpoint number_types (counter : Z) (parsed : list (fuzz_type * Z)) (rest : list fuzz_type)
    : Z * list (fuzz_type * Z) :=
  match rest with
  | [] => (counter, parsed)
  | current :: rest => number_types (counter + 1) ((current, counter) :: parsed) rest
  end.

(** [if data[0] % num == index { .. return }] for each type; whether the function
    has returned. *)
Fixpoint select_type (flow : fuzz_type -> list byte -> outcome unit) (num : Z)
    (parsed : list (fuzz_type * Z)) (data : list byte) : outcome bool :=
  match parsed with
  | [] => Done false
  | (t, index) :: parsed =>
      match data with
      | [] => Panic "index out of bounds: the len is 0 but the index is 0"
      | b :: d =>
          if byte.unsigned b mod num =? index then _ ← flow t d; Done true
          else select_type flow num parsed data
      end
  end.

Definition fuzz_decoder (flow : fuzz_type -> list byte -> outcome unit) (data : list byte)
    (first : fuzz_type) (rest : list fuzz_type) : outcome bool :=
  let '(num, parsed) := number_types 1 [(first, 0)] rest in select_type flow num parsed data.

(** [fn fuzz_encode<T>(data: T)]. *)
Definition fuzz_encode (t : fuzz_type) (data : ft_type t) : outcome unit :=
  obj ← encode (ft_encode t) data;
  '(decoded, _) ← run (decode (ft_decode t)) obj;
  match decoded with
  | Ok object => if ft_eq t object data then Done tt else Panic "Original object differs from decoded object"
  | Err _ => Panic "Failed to decode the encoded object"
  end.

(** ** The lists of types *)

Section lists.
Context `{Target} (enum_size : Z).

Definition compact_type (c : compact_ty) : fuzz_type := eq_type (compact_encode c) (compact_decode c).
Definition prim_type (p : prim) : fuzz_type := eq_type (prim_encode p) (prim_decode p).

Definition deque_type : fuzz_type :=
  mkFuzzType (VecDeque Z) (vec_deque_encode (prim_encode U8)) (vec_deque_decode (prim_decode U8))
    (fun x y => bool_decide (deque_items x = deque_items y)).

(** [size_of::<(usize, usize, u8)>()] is 24. *)
Definition linked_list_type : fuzz_type :=
  eq_type (linked_list_encode (prim_encode U8)) (linked_list_decode 24 (prim_decode U8)).

(** [size_of::<Option<Vec<u8>>>()] is that of the vector. *)
Definition round_trip_rest : list fuzz_type :=
  map prim_type [U16; U32; U64; U128] ++
  map compact_type [CU8; CU16; CU32; CU64; CU128] ++
  [eq_type string_encode string_decode;
   eq_type byte_vec_encode byte_vec_decode;
   eq_type (vec_encode byte_vec_encode) (vec_decode byte_vec_decode);
   eq_type (option_encode (words 3) byte_vec_encode) (option_decode (words 3) byte_vec_decode);
   eq_type (vec_encode (prim_encode U32)) (vec_decode (prim_decode U32));
   linked_list_type;
   deque_type;
   eq_type MockStruct_encode MockStruct_decode;
   eq_type (MockEnum_encode enum_size) (MockEnum_decode enum_size);
   eq_type (msb0_encode U8) (msb0_decode U8);
   eq_type (msb0_encode U32) (msb0_decode U32);
   eq_type duration_encode duration_decode].

Definition heap_type : fuzz_type :=
  mkFuzzType BinaryHeapWrapper BinaryHeapWrapper_encode BinaryHeapWrapper_decode BinaryHeapWrapper_eq.

(** The sizes of the entries, and of the leaves of the trees on a 64-bit target. *)
Definition string_map_type : fuzz_type :=
  eq_type (btree_map_encode (words 6) string_encode byte_vec_encode)
    (btree_map_decode (words 6) 544 string_decode byte_vec_decode).
Definition byte_map_type : fuzz_type :=
  eq_type (btree_map_encode 2 (prim_encode U8) (prim_encode U8))
    (btree_map_decode 2 40 (prim_decode U8) (prim_decode U8)).
Definition set_type : fuzz_type := eq_type (btree_set_encode (prim_encode U32)) (btree_set_decode 56 (prim_decode U32)).

(** [fn fuzz_decode(data: &[u8])]: three blocks, each of which may return. *)
Definition fuzz_decode (data : list byte) : outcome unit :=
  returned ← fuzz_decoder round_trip data (prim_type U8) round_trip_rest;
  if (returned : bool) then Done tt
  else
    returned ← fuzz_decoder round_trip_sorted data heap_type [];
    if (returned : bool) then Done tt
    else
      _ ← fuzz_decoder only_decode data string_map_type [byte_map_type; set_type];
      Done tt.

(** The types of [fuzz_encoding!]. *)
Definition fuzz_encoding_types : list fuzz_type :=
  map prim_type [U8; U16; U32; U64; U128] ++
  map compact_type [CU8; CU16; CU32; CU64; CU128] ++
  [eq_type string_encode string_decode;
   eq_type byte_vec_encode byte_vec_decode;
   eq_type (vec_encode byte_vec_encode) (vec_decode byte_vec_decode);
   eq_type (option_encode (words 3) byte_vec_encode) (option_decode (words 3) byte_vec_decode);
   eq_type (vec_encode (prim_encode U32)) (vec_decode (prim_decode U32));
   linked_list_type;
   string_map_type;
   byte_map_type;
   set_type;
   deque_type;
   heap_type;
   eq_type MockStruct_encode MockStruct_decode;
   eq_type (MockEnum_encode enum_size) (MockEnum_decode enum_size);
   eq_type (BitVecWrapper_encode U8) (BitVecWrapper_decode U8);
   eq_type (BitVecWrapper_encode U32) (BitVecWrapper_decode U32);
   eq_type duration_encode duration_decode].
End lists.

(** Some runs, on a 64-bit little-endian target: a [u16], a vector, an
    over-long compact integer. *)
Example fuzz_decode_runs :
  map (@fuzz_decode x86_64 72) [[x01; x07; x01]; [x0b; x08; x01; x02; x09]; [x07; x01; x00]] = [Done tt; Done tt; Done tt].
Proof. by vm_compute. Qed.
