(* ===== verification/FuzzerTheory.v ===== *)
(** * What the fuzzer can find ([src/fuzzer/src/main.rs])

    Which of the fuzzer's panics can happen, given what has been proved of the
    codecs it runs. *)

From stdpp Require Import sorting.
From S2P Require Import Prelude Ints Errors Input Discipline Output Traits Primitives Compact.
From S2P Require Import CompactTheory Sequences SequencesTheory Composite Collections Heap BitVec MaxLen.
From S2P Require Import Derive DeriveTheory EncodeTotal Reencode Fuzzer.

(** ** Selecting a type *)

(** The list the macro builds: the last type comes first. *)
Definition numbered (types : list fuzz_type) : list (fuzz_type * Z) :=
  reverse (imap (fun i t => (t, Z.of_nat i)) types).

Lemma numbered_snoc types t : numbered (types ++ [t]) = (t, zlen types) :: numbered types.
Proof. unfold numbered. rewrite imap_app, reverse_app. simpl. by rewrite Nat.add_0_r. Qed.

Lemma number_types_spec types rest :
  number_types (zlen types) (numbered types) rest = (zlen (types ++ rest), numbered (types ++ rest)).
Proof.
  revert types. induction rest as [|t rest IH]; intros types; simpl; [by rewrite app_nil_r|].
  rewrite <- numbered_snoc. replace (zlen types + 1) with (zlen (types ++ [t])) by (by rewrite zlen_app).
  rewrite IH. by rewrite <- app_assoc.
Qed.

Lemma select_type_spec flow num types b d :
  0 < num ->
  select_type flow num (numbered types) (b :: d) =
    match types !! Z.to_nat (byte.unsigned b mod num) with
    | Some t => _ ← flow t d; Done true
    | None => Done false
    end.
Proof.
  intros Hn. pose proof (Z.mod_pos_bound (byte.unsigned b) num Hn) as Hm.
  induction types as [|t types IH] using rev_ind; [done|]. rewrite numbered_snoc. cbn [select_type].
  destruct (Z.eqb_spec (byte.unsigned b mod num) (zlen types)) as [->|Hne].
  - unfold zlen. by rewrite Nat2Z.id, list_lookup_middle.
  - rewrite IH. destruct (decide (Z.to_nat (byte.unsigned b mod num) < length types)%nat).
    + by rewrite lookup_app_l.
    + rewrite lookup_app_r, lookup_ge_None_2, (lookup_ge_None_2 [t]) by (simpl; unfold zlen in *; lia). done.
Qed.

(** With as many types as the modulus, one of them is always selected. *)
Lemma fuzz_decoder_spec flow first rest b d :
  exists t, (first :: rest) !! Z.to_nat (byte.unsigned b mod zlen (first :: rest)) = Some t /\
    fuzz_decoder flow (b :: d) first rest = (_ ← flow t d; Done true).
Proof.
  set (types := first :: rest). assert (0 < zlen types) as Hn by (unfold zlen, types; simpl; lia).
  pose proof (Z.mod_pos_bound (byte.unsigned b) _ Hn) as Hm.
  destruct (lookup_lt_is_Some_2 types (Z.to_nat (byte.unsigned b mod zlen types))) as [t Ht];
    [unfold zlen in *; lia|].
  exists t. split; [done|]. unfold fuzz_decoder. change 1 with (zlen [first]).
  change [(first, 0)] with (numbered [first]). rewrite number_types_spec. simpl app. fold types.
  by rewrite select_type_spec, Ht.
Qed.

(** ** The flows *)

Section flows.
Context `{Target}.

(** A type whose codec is total, with a reflexive [PartialEq]. *)
Definition fuzzable (t : fuzz_type) (wf : ft_type t -> Prop) : Prop :=
  exists n, TotalCodec (ft_encode t) (ft_decode t) wf n /\ n <= isize_max /\ forall x, ft_eq t x x = true.

Lemma fuzzable_eq {T} `{EqDecision T} (E : Encode T) D (wf : T -> Prop) n :
  TotalCodec E D wf n -> n <= isize_max -> fuzzable (eq_type E D) wf.
Proof. intros HT Hn. exists n. split_and!; [done|done|]. intros x. by apply bool_decide_eq_true. Qed.

Lemma consumed_app bs d : consumed (bs ++ d) d = bs.
Proof. unfold consumed. rewrite length_app, Nat.add_sub. apply take_app_length. Qed.

(** The decoder does not panic. *)
Lemma decode_runs {T} (D : Decode T) wf `{!DecodeLaws D wf} (i : list byte) : exists r j, run (decode D) i = Done (r, j).
Proof. destruct (wb_run wf 0 (decode D) i decode_wb) as (r & j & Hr & _). eauto. Qed.

(** Only the comparison of the bytes can fail. *)
Lemma round_trip_fuzzable t wf raw1 :
  fuzzable t wf -> round_trip t raw1 = Done tt \/ round_trip t raw1 = Panic "raw1 != raw2".
Proof.
  intros (n & HT & Hn & Heq). unfold round_trip.
  destruct (decode_runs (ft_decode t) wf raw1) as ([x|e] & d & Hrun); rewrite Hrun; simpl; [|by left].
  destruct (reencode _ _ _ _ _ _ _ HT Hn Hrun) as (bs & -> & Hdec & _). simpl.
  specialize (Hdec []). rewrite app_nil_r in Hdec. rewrite Hdec. simpl. rewrite Heq.
  case_bool_decide; auto.
Qed.

Lemma round_trip_canonical t wf raw1 :
  fuzzable t wf -> Canonical (ft_encode t) (ft_decode t) -> round_trip t raw1 = Done tt.
Proof.
  intros (n & HT & Hn & Heq) Hcan. unfold round_trip.
  destruct (decode_runs (ft_decode t) wf raw1) as ([x|e] & d & Hrun); rewrite Hrun; simpl; [|done].
  destruct (reencode _ _ _ _ _ _ _ HT Hn Hrun) as (bs & -> & Hdec & Hraw). simpl.
  specialize (Hdec []). rewrite app_nil_r in Hdec. rewrite Hdec. simpl. rewrite Heq.
  by rewrite (Hraw Hcan), consumed_app, bool_decide_eq_true_2.
Qed.

Lemma only_decode_fuzzable t wf raw1 : fuzzable t wf -> only_decode t raw1 = Done tt.
Proof.
  intros (n & HT & _ & _). unfold only_decode.
  by destruct (decode_runs (ft_decode t) wf raw1) as (r & d & ->).
Qed.

Lemma fuzz_encode_fuzzable t wf x : fuzzable t wf -> wf x -> fuzz_encode t x = Done tt.
Proof.
  intros (n & HT & Hn & Heq) Hx. unfold fuzz_encode.
  destruct (encodable_encode (ft_encode t) wf always n x _ _ Hn Hx) as (_ & _ & Hall).
  destruct (Hall I) as (bs & -> & _ & Hb). simpl.
  pose proof (roundtrip x bs [] Hx Hb) as Hdec. rewrite app_nil_r in Hdec. rewrite Hdec. simpl. by rewrite Heq.
Qed.
End flows.

(** ** The types *)

Section types.
Context `{Target} (target_64 : usize_bits = 64).

Definition byte_vec_wf : list Z -> Prop := seq_wf (in_range U8).
Definition string_total_wf (s : list Z) : Prop := string_wf s /\ zlen s <= prim_max U32.
Definition msb0_wf (p : prim) : list bool -> Prop := @bits_wf Z (uint_store Msb0 p).

Fixpoint nest_wf {A} (n : nat) (wf : A -> Prop) : nest n A -> Prop :=
  match n with O => wf | S n => seq_wf (nest_wf n wf) end.

Lemma words_64 n : words n = 8 * n.
Proof. unfold words. rewrite target_64. change (64 / 8) with 8. lia. Qed.

(** The hint of a vector of small items. *)
Lemma seq_hint_small s : 0 <= s <= 64 -> seq_hint s <= isize_max.
Proof.
  intros Hs. unfold seq_hint, isize_max. rewrite target_64. change (prim_max U32) with 4294967295. lia.
Qed.

Lemma vec_total_64 {T} (E : Encode T) D wf n :
  TotalCodec E D wf n -> E_size_of E <= 64 -> D_size_of D <= 64 ->
  TotalCodec (vec_encode E) (vec_decode D) (seq_wf wf) (seq_hint (E_size_of E)) /\
  seq_hint (E_size_of E) <= isize_max.
Proof.
  intros HT He Hd. pose proof (encodable_size (E := E)).
  assert (seq_hint (E_size_of E) <= isize_max) as Hh by (apply seq_hint_small; lia).
  split; [|done]. apply (vec_total E D wf n); [|done].
  apply vec_fits_64; [done|]. unfold MAX_PREALLOCATION. lia.
Qed.

(** A struct or a variant with one field. *)
Lemma one_field_total {F} name (E : Encode F) D wf n :
  TotalCodec E D wf n -> fields_total (FCons (plain name E D) FNil) (fun x => wf x.1 /\ True) (n + 0).
Proof. intros HT. by apply (fields_total_cons _ _ _ _ _ wf n _ (fun _ => True) 0), fields_total_nil. Qed.

Lemma byte_vec_total : TotalCodec byte_vec_encode byte_vec_decode byte_vec_wf (seq_hint 1).
Proof. by apply (vec_total_64 (prim_encode U8) (prim_decode U8) (in_range U8) 1 _). Qed.

Lemma MockStruct_total : TotalCodec MockStruct_encode MockStruct_decode (fun x => byte_vec_wf x.1 /\ True) (seq_hint 1 + 0).
Proof.
  apply struct_total; [by apply words_nonneg|].
  apply one_field_total, byte_vec_total.
Qed.

Lemma msb0_range p bits : prim_signed p = false -> in_range p (@from_bits Z (uint_store Msb0 p) bits).
Proof.
  intros Hp. cbn [from_bits uint_store].
  pose proof (bits_to_Z_range (ordered Msb0 (take (8 * prim_bytes p) (pad_bits (8 * prim_bytes p) bits)))) as Hr.
  assert (zlen (ordered Msb0 (take (8 * prim_bytes p) (pad_bits (8 * prim_bytes p) bits))) = Z.of_nat (8 * prim_bytes p)) as Hl.
  { unfold zlen, pad_bits. rewrite length_ordered, length_take, length_app, repeat_length. lia. }
  rewrite Hl in Hr. revert Hr. generalize (bits_to_Z (ordered Msb0 (take (8 * prim_bytes p) (pad_bits (8 * prim_bytes p) bits)))).
  intros z Hz. assert (2 ^ Z.of_nat (8 * prim_bytes p) = prim_max p + 1 /\ prim_min p = 0) as [Hm Hz0]
    by by destruct p.
  unfold in_range. lia.
Qed.

Lemma msb0_total p : prim_signed p = false -> TotalCodec (msb0_encode p) (msb0_decode p) (msb0_wf p) 0.
Proof.
  intros Hp. apply (@bitvec_total _ Z (uint_store Msb0 p) (uint_store_laws Msb0 p) (prim_encode p) (prim_decode p)
    (in_range p) (Z.of_nat (prim_bytes p))); [apply _| |by intros bits; apply msb0_range].
  apply vec_fits_64; [done|]. by destruct p; vm_compute.
Qed.

Lemma BitVecWrapper_total p : prim_signed p = false ->
  TotalCodec (BitVecWrapper_encode p) (BitVecWrapper_decode p) (fun x => msb0_wf p x.1 /\ True) 0.
Proof.
  intros Hp. apply struct_total; [by apply words_nonneg|].
  by apply (one_field_total _ _ _ (msb0_wf p) 0), msb0_total.
Qed.

Lemma BinaryHeapWrapper_total :
  TotalCodec BinaryHeapWrapper_encode BinaryHeapWrapper_decode
    (fun x => (is_heap x.1 /\ seq_wf (in_range U32) x.1) /\ True) (seq_hint 4 + 0).
Proof.
  apply struct_total; [by apply words_nonneg|].
  apply (one_field_total _ _ _ (fun l => is_heap l /\ seq_wf (in_range U32) l)).
  apply (binary_heap_total (prim_encode U32) (prim_decode U32) (in_range U32) 4); [by apply vec_fits_64|by apply seq_hint_small].
Qed.

Lemma nest_total {A} (E : Encode A) D wf n k :
  TotalCodec E D wf k -> k <= isize_max -> E_size_of E <= 64 -> D_size_of D <= 64 ->
  exists m, TotalCodec (nest_encode n E) (nest_decode n D) (nest_wf n wf) m /\ 0 <= m <= isize_max /\
    (n <> O -> m <= seq_hint 64).
Proof.
  intros HT Hk He Hd. induction n as [|n (m & IH & Hm & _)]; simpl.
  - exists k. split_and!; [done|apply encodable_nonneg|done|done].
  - assert (E_size_of (nest_encode n E) <= 64 /\ D_size_of (nest_decode n D) <= 64) as [He' Hd'].
    { destruct n; simpl; [done|]. rewrite words_64. lia. }
    destruct (vec_total_64 _ _ _ _ IH He' Hd') as [HV Hh]. eexists. split; [exact HV|].
    split; [split; [apply (encodable_nonneg (E := vec_encode (nest_encode n E)))|done]|]. intros _.
    unfold seq_hint. assert (0 <= prim_max U32) by done. nia.
Qed.

Definition MockEnum_wf (x : MockEnum) : Prop :=
  match x with
  | inl _ => True
  | inr (inl unit_) => in_range U32 unit_.1
  | inr (inr (inl unit_vec)) => byte_vec_wf unit_vec.1
  | inr (inr (inr (inl complex))) =>
      seq_wf (in_range U32) complex.1 /\ msb0_wf U8 complex.2.1.1 /\ string_total_wf complex.2.2.1
  | inr (inr (inr (inr (inl mock)))) => byte_vec_wf mock.1.1
  | inr (inr (inr (inr (inr (inl nested))))) => nest_wf 8 (option_wf (in_range U8)) nested.1
  | inr (inr (inr (inr (inr (inr _))))) => True
  end.

Lemma hint_bounds : 0 <= seq_hint 1 <= 2 ^ 40 /\ 0 <= seq_hint 4 <= 2 ^ 40 /\ 0 <= seq_hint 64 <= 2 ^ 40 /\
  2 ^ 62 <= isize_max.
Proof. unfold isize_max. rewrite target_64. by vm_compute. Qed.

Lemma Complex_total :
  fields_total Complex_fields
    (fun x => seq_wf (in_range U32) x.1 /\ (msb0_wf U8 x.2.1.1 /\ True) /\ string_total_wf x.2.2.1 /\ True)
    (seq_hint 4 + (0 + (seq_hint 1 + 0))).
Proof.
  apply (fields_total_cons _ _ _ _ _ (seq_wf (in_range U32)) _ _
    (fun x => (msb0_wf U8 x.1.1 /\ True) /\ string_total_wf x.2.1 /\ True)).
  { by apply (vec_total_64 (prim_encode U32) (prim_decode U32) (in_range U32) 4 _). }
  apply (fields_total_cons _ _ _ _ _ (fun x => msb0_wf U8 x.1 /\ True) _ _ (fun x => string_total_wf x.1 /\ True)).
  { by apply BitVecWrapper_total. }
  by apply one_field_total, string_total.
Qed.

Lemma NestedVec_total :
  exists m, fields_total NestedVec_fields (fun x => nest_wf 8 (option_wf (in_range U8)) x.1 /\ True) m /\ m <= 2 ^ 40.
Proof.
  pose proof hint_bounds. assert (TotalCodec (option_encode 2 (prim_encode U8)) (option_decode 2 (prim_decode U8))
    (option_wf (in_range U8)) 2) as HO by (apply (option_total _ _ _ 1); [done|lia|apply (prim_total U8)]).
  destruct (nest_total _ _ _ 8 2 HO) as (m & HT & Hm & Hs); [lia|done|done|].
  exists (m + 0). split; [|specialize (Hs ltac:(done)); lia].
  by apply one_field_total.
Qed.

Lemma MockEnum_total enum_size : 0 <= enum_size ->
  exists n, TotalCodec (MockEnum_encode enum_size) (MockEnum_decode enum_size) MockEnum_wf n /\ n <= 2 ^ 42.
Proof.
  intros Hs. pose proof hint_bounds. destruct NestedVec_total as (m & Hnest & Hm).
  eexists. split.
  - eapply total_iff.
    + apply enum_total; [done| |apply (bool_decide_unpack _); by vm_compute|].
      2: { eapply variants_total_cons; [apply fields_total_nil|].
           eapply variants_total_cons; [apply one_field_total, (prim_total U32)|].
           eapply variants_total_cons; [apply one_field_total, byte_vec_total|].
           eapply variants_total_cons; [apply Complex_total|].
           eapply variants_total_cons; [apply one_field_total, MockStruct_total|].
           eapply variants_total_cons; [apply Hnest|apply variants_total_nil]. }
      cbn [prim_bytes]. lia.
    + intros x. repeat (destruct x as [?|x]; [simpl; tauto|]). by destruct x.
  - cbn [prim_bytes]. lia.
Qed.
End types.

(** ** The entry points *)

Section entry_points.
Context `{Target} (target_64 : usize_bits = 64) (enum_size : Z) (enum_size_nonneg : 0 <= enum_size).

(** The values of a type that can be encoded. *)
Definition fuzz_case : Type := { t : fuzz_type & ft_type t -> Prop }.
Definition case {t : fuzz_type} (wf : ft_type t -> Prop) : fuzz_case := existT t wf.
Definition case_fuzzable (c : fuzz_case) : Prop := fuzzable (projT1 c) (projT2 c).

Definition prim_case (p : prim) : fuzz_case := case (t := prim_type p) (in_range p).
Definition compact_case (c : compact_ty) : fuzz_case := case (t := compact_type c) (in_range (compact_prim c)).

(** The cases of the types from [u8] to [LinkedList<u8>], which both entry points
    begin with. *)
Definition common_cases : list fuzz_case :=
  map prim_case [U8; U16; U32; U64; U128] ++ map compact_case [CU8; CU16; CU32; CU64; CU128] ++
  [case (t := eq_type string_encode string_decode) string_total_wf;
   case (t := eq_type byte_vec_encode byte_vec_decode) byte_vec_wf;
   case (t := eq_type (vec_encode byte_vec_encode) (vec_decode byte_vec_decode)) (seq_wf byte_vec_wf);
   case (t := eq_type (option_encode (words 3) byte_vec_encode) (option_decode (words 3) byte_vec_decode))
     (option_wf byte_vec_wf);
   case (t := eq_type (vec_encode (prim_encode U32)) (vec_decode (prim_decode U32))) (seq_wf (in_range U32));
   case (t := linked_list_type) (seq_wf (in_range U8))].

Definition deque_case : fuzz_case := case (t := deque_type) (deque_total_wf (in_range U8)).
Definition MockStruct_case : fuzz_case :=
  case (t := eq_type MockStruct_encode MockStruct_decode) (fun x => byte_vec_wf x.1 /\ True).
Definition MockEnum_case : fuzz_case :=
  case (t := eq_type (MockEnum_encode enum_size) (MockEnum_decode enum_size)) MockEnum_wf.
Definition duration_case : fuzz_case := case (t := eq_type duration_encode duration_decode) duration_wf.

Lemma case_fuzzable_eq {T} `{EqDecision T} (E : Encode T) D (wf : T -> Prop) n :
  TotalCodec E D wf n -> n <= isize_max -> case_fuzzable (case (t := eq_type E D) wf).
Proof. apply fuzzable_eq. Qed.

Lemma common_fuzzable : Forall case_fuzzable common_cases.
Proof.
  pose proof (hint_bounds target_64). pose proof (byte_vec_total target_64) as HV.
  assert (forall p, case_fuzzable (prim_case p)) as Hprim.
  { intros p. eapply case_fuzzable_eq; [apply (prim_total p)|]. destruct p; simpl; lia. }
  assert (forall c, case_fuzzable (compact_case c)) as Hcompact.
  { intros c. eapply case_fuzzable_eq; [apply (compact_total c)|]. destruct c; simpl; lia. }
  unfold common_cases. rewrite !Forall_app, !Forall_map. split_and!; [by apply Forall_true..|].
  repeat apply Forall_cons_2; try apply Forall_nil_2.
  - eapply case_fuzzable_eq; [by apply string_total|lia].
  - eapply case_fuzzable_eq; [apply HV|lia].
  - destruct (vec_total_64 target_64 _ _ _ _ HV) as [HT Hn]; [simpl; rewrite words_64 by done; lia..|].
    by eapply case_fuzzable_eq.
  - eapply case_fuzzable_eq; [apply option_total; [by apply words_nonneg| |apply HV]|]; lia.
  - destruct (vec_total_64 target_64 (prim_encode U32) (prim_decode U32) (in_range U32) 4 _) as [HT Hn]; [done..|].
    by eapply case_fuzzable_eq.
  - assert (seq_hint 1 <= isize_max) as Hh by lia.
    by eapply case_fuzzable_eq; [apply (linked_list_total (prim_encode U8) (prim_decode U8) (in_range U8) 1 Hh)|].
Qed.

Definition case_canonical (c : fuzz_case) : Prop := Canonical (ft_encode (projT1 c)) (ft_decode (projT1 c)).

Lemma byte_vec_canonical : Canonical byte_vec_encode byte_vec_decode.
Proof. apply (vec_canonical (prim_encode U8) (prim_decode U8) (in_range U8)); [by apply vec_fits_64|apply _..]. Qed.

Lemma common_canonical : Forall case_canonical common_cases.
Proof.
  pose proof byte_vec_canonical as HV. pose proof (total_codec (TotalCodec := byte_vec_total target_64)).
  unfold common_cases. rewrite !Forall_app, !Forall_map.
  split_and!; [apply Forall_true; intros p; apply (prim_canonical p)|
    apply Forall_true; intros c; apply (compact_canonical c)|].
  repeat apply Forall_cons_2; try apply Forall_nil_2; unfold case_canonical; simpl.
  - by apply string_canonical.
  - done.
  - apply (vec_canonical _ _ byte_vec_wf); [|done..]. apply vec_fits_64; [done|].
    simpl. rewrite words_64 by done. by vm_compute.
  - by apply option_canonical.
  - apply (vec_canonical (prim_encode U32) (prim_decode U32) (in_range U32)); [by apply vec_fits_64|apply _..].
  - apply (linked_list_canonical (prim_encode U8) (prim_decode U8)).
Qed.

(** The types of [round_trip]. *)
Definition round_trip_cases : list fuzz_case :=
  common_cases ++
  [deque_case; MockStruct_case; MockEnum_case;
   case (t := eq_type (msb0_encode U8) (msb0_decode U8)) (msb0_wf U8);
   case (t := eq_type (msb0_encode U32) (msb0_decode U32)) (msb0_wf U32);
   duration_case].

Lemma round_trip_cases_types : map (@projT1 _ _) round_trip_cases = prim_type U8 :: round_trip_rest enum_size.
Proof. reflexivity. Qed.

Lemma deque_fuzzable : case_fuzzable deque_case.
Proof.
  pose proof (hint_bounds target_64). assert (seq_hint 1 <= isize_max) as Hh by lia.
  exists (seq_hint 1). split_and!; [|done|intros x; by apply bool_decide_eq_true].
  apply (vec_deque_total (prim_encode U8) (prim_decode U8) (in_range U8) 1); [by apply vec_fits_64|exact Hh].
Qed.

Lemma MockStruct_fuzzable : case_fuzzable MockStruct_case.
Proof. pose proof (hint_bounds target_64). eapply case_fuzzable_eq; [by apply MockStruct_total|lia]. Qed.

Lemma MockEnum_fuzzable : case_fuzzable MockEnum_case.
Proof.
  pose proof (hint_bounds target_64).
  destruct (MockEnum_total target_64 enum_size enum_size_nonneg) as (n & HT & Hn). eapply case_fuzzable_eq; [exact HT|lia].
Qed.

Lemma duration_fuzzable : case_fuzzable duration_case.
Proof. pose proof (hint_bounds target_64). eapply case_fuzzable_eq; [apply duration_total|lia]. Qed.

Lemma round_trip_fuzzables : Forall case_fuzzable round_trip_cases.
Proof.
  pose proof (hint_bounds target_64). apply Forall_app. split; [apply common_fuzzable|].
  repeat apply Forall_cons_2; try apply Forall_nil_2;
    auto using deque_fuzzable, MockStruct_fuzzable, MockEnum_fuzzable, duration_fuzzable;
    (eapply case_fuzzable_eq; [apply msb0_total; auto|lia]).
Qed.

(** The indices of [MockEnum], [BitVec<u8, Msb0>] and [BitVec<u32, Msb0>]. *)
Definition padded (i : nat) : Prop := (18 <= i <= 20)%nat.

Lemma MockStruct_canonical : Canonical MockStruct_encode MockStruct_decode.
Proof.
  apply (struct_canonical _ _ _ _ _ (fun x => byte_vec_wf x.1 /\ True)); [|by split; [apply byte_vec_canonical|]].
  apply (one_field_total "vec_u" _ _ _ (seq_hint 1)). by apply byte_vec_total.
Qed.

Lemma round_trip_canonicals i c : round_trip_cases !! i = Some c -> case_canonical c \/ padded i.
Proof.
  unfold round_trip_cases, padded. intros [Hc|[Hlen Hc]]%lookup_app_Some.
  - left. pose proof common_canonical as Hall. rewrite Forall_lookup in Hall. by apply (Hall i).
  - change (length common_cases) with 16%nat in *.
    destruct (decide (18 <= i <= 20)%nat) as [|Hi]; [by right|left].
    destruct (i - 16)%nat as [|[|[|[|[|[|k]]]]]] eqn:Hk; simpl in Hc; try lia; [..|done]; injection Hc as <-.
    + apply (vec_deque_canonical (prim_encode U8) (prim_decode U8) (in_range U8)); [by apply vec_fits_64|apply _..].
    + apply MockStruct_canonical.
    + apply duration_canonical.
Qed.

(** The first block handles every input. *)
Lemma fuzz_decode_selects b d :
  exists c, round_trip_cases !! Z.to_nat (byte.unsigned b mod 22) = Some c /\
    fuzz_decode enum_size (b :: d) = round_trip (projT1 c) d.
Proof.
  destruct (fuzz_decoder_spec round_trip (prim_type U8) (round_trip_rest enum_size) b d) as (t & Ht & Hrun).
  rewrite <- round_trip_cases_types, list_lookup_fmap in Ht. change (zlen _) with 22 in Ht.
  apply fmap_Some in Ht as (c & Hc & ->). exists c. split; [done|].
  unfold fuzz_decode. rewrite Hrun. by destruct (round_trip (projT1 c) d) as [[]|].
Qed.

(** ** The other blocks, and [fuzz_encode] *)

Definition heap_case : fuzz_case :=
  case (t := heap_type) (fun x => (is_heap x.1 /\ seq_wf (in_range U32) x.1) /\ True).

(** The types of [only_decode]. *)
Definition only_decode_cases : list fuzz_case :=
  [case (t := string_map_type) (fun m => btree_sorted m /\ seq_wf (tuple_wf string_total_wf byte_vec_wf) m);
   case (t := byte_map_type) (fun m => btree_sorted m /\ seq_wf (tuple_wf (in_range U8) (in_range U8)) m);
   case (t := set_type) (fun s => set_sorted s /\ seq_wf (in_range U32) s)].

Lemma heap_fuzzable : case_fuzzable heap_case.
Proof.
  pose proof (hint_bounds target_64). exists (seq_hint 4 + 0). split_and!; [by apply BinaryHeapWrapper_total|lia|].
  intros x. by apply bool_decide_eq_true.
Qed.

Lemma only_decode_fuzzables : Forall case_fuzzable only_decode_cases.
Proof.
  pose proof (hint_bounds target_64). repeat apply Forall_cons_2; try apply Forall_nil_2.
  - eapply case_fuzzable_eq.
    + apply (btree_map_total _ _ string_total_wf (seq_hint 1) _ _ _ (seq_hint 1));
        [by apply string_total|by apply byte_vec_total|by apply words_nonneg..|done| |lia].
      apply seq_hint_small; [done|]. rewrite words_64 by done. lia.
    + apply seq_hint_small; [done|]. rewrite words_64 by done. lia.
  - assert (seq_hint 2 <= isize_max) as Hh by by apply seq_hint_small.
    eapply case_fuzzable_eq; [|exact Hh].
    by apply (btree_map_total _ _ _ 1 _ _ _ 1); [apply (prim_total U8)|apply (prim_total U8)|..|lia].
  - assert (seq_hint 4 <= isize_max) as Hh by lia. eapply case_fuzzable_eq; [|exact Hh].
    by apply (btree_set_total (prim_encode U32) (prim_decode U32) (in_range U32) 4).
Qed.

(** A deque in two pieces is decoded in one; both have the same items. *)
Definition deque_any_case : fuzz_case :=
  case (t := deque_type) (fun d => deque_wf (in_range U8) d /\ deque_len d <= prim_max U32).

Lemma fuzz_encode_deque (d : VecDeque Z) :
  deque_wf (in_range U8) d -> deque_len d <= prim_max U32 -> fuzz_encode deque_type d = Done tt.
Proof.
  intros Hd Hl. pose proof (hint_bounds target_64). assert (seq_hint 1 <= isize_max) as Hh by lia.
  pose proof (vec_deque_encodable (prim_encode U8) (in_range U8) always 1 Hh) as HE.
  destruct (encodable_encode _ _ _ _ d (impl_encode_to_laws _ _ _ _) HE Hh Hd) as (_ & _ & Hall).
  destruct Hall as (bs & Henc & _ & Hb); [split_and!; [done|by apply Forall_true..]|].
  assert (Forall (in_range U8) (deque_items d)) as Hwf by by apply Forall_app.
  pose proof (vec_deque_roundtrip (prim_encode U8) (prim_decode U8) (in_range U8)
    (byte_vec_fits target_64) d bs [] Hwf Hb) as Hdec. rewrite app_nil_r in Hdec.
  change (encode (vec_deque_encode (prim_encode U8)) d = Done bs) in Henc.
  unfold fuzz_encode. cbn [deque_type ft_encode ft_decode ft_eq ft_type]. rewrite Henc. cbn [mbind outcome_bind].
  rewrite Hdec. simpl. unfold deque_items. simpl. by rewrite app_nil_r, bool_decide_eq_true_2.
Qed.

(** The types of [fuzz_encoding!], with the values that can be encoded. *)
Definition encode_cases : list fuzz_case :=
  common_cases ++ only_decode_cases ++
  [deque_any_case; heap_case; MockStruct_case; MockEnum_case;
   case (t := eq_type (BitVecWrapper_encode U8) (BitVecWrapper_decode U8)) (fun x => msb0_wf U8 x.1 /\ True);
   case (t := eq_type (BitVecWrapper_encode U32) (BitVecWrapper_decode U32)) (fun x => msb0_wf U32 x.1 /\ True);
   duration_case].

Definition case_encodes (c : fuzz_case) : Prop := forall x, projT2 c x -> fuzz_encode (projT1 c) x = Done tt.

Lemma case_fuzzable_encodes c : case_fuzzable c -> case_encodes c.
Proof. intros Hc x. by apply fuzz_encode_fuzzable. Qed.

Lemma encode_cases_encode : Forall case_encodes encode_cases.
Proof.
  pose proof (hint_bounds target_64). unfold encode_cases. rewrite !Forall_app. split_and!.
  - eapply Forall_impl; [apply common_fuzzable|apply case_fuzzable_encodes].
  - eapply Forall_impl; [apply only_decode_fuzzables|apply case_fuzzable_encodes].
  - apply Forall_cons_2; [intros d [Hd Hl]; by apply fuzz_encode_deque|].
    repeat apply Forall_cons_2; try apply Forall_nil_2; apply case_fuzzable_encodes;
      auto using heap_fuzzable, MockStruct_fuzzable, MockEnum_fuzzable, duration_fuzzable;
      (eapply case_fuzzable_eq; [apply BitVecWrapper_total; auto|lia]).
Qed.

(** ** The sorted round trip of a heap *)

#[local] Instance byte_le_total : Total byte_le.
Proof. intros a b. unfold byte_le. lia. Qed.
#[local] Instance byte_le_trans : Transitive byte_le.
Proof. intros a b c. unfold byte_le. lia. Qed.
#[local] Instance byte_le_antisymm : AntiSymm eq byte_le.
Proof. intros a b Hab Hba. apply byte.unsigned_inj. unfold byte_le in *. lia. Qed.

Lemma sort_bytes_perm a b : a ≡ₚ b -> sort_bytes a = sort_bytes b.
Proof.
  intros Hp. apply (Sorted_unique byte_le); [apply (Sorted_merge_sort byte_le)..|].
  unfold sort_bytes. by rewrite !merge_sort_Permutation.
Qed.

Lemma concat_map_perm {A B} (f : A -> list B) l l' : l ≡ₚ l' -> concat (map f l) ≡ₚ concat (map f l').
Proof.
  induction 1 as [|x l l' _ IH|x y l|l1 l2 l3 _ IH1 _ IH2]; simpl.
  - done.
  - by rewrite IH.
  - rewrite !app_assoc. by rewrite (Permutation_app_comm (f y) (f x)).
  - by rewrite IH1.
Qed.

Lemma run_heap_wrapper i x i' :
  run (decode BinaryHeapWrapper_decode) i = Done (Ok x, i') ->
  run (decode (binary_heap_decode (prim_decode U32))) i = Done (Ok x.1, i').
Proof.
  intros Hrun. cbn [decode BinaryHeapWrapper_decode struct_decode BinaryHeapWrapper_fields decode_fields] in Hrun.
  apply run_try_bind_ok in Hrun as (l & j & Hl & Hx).
  apply run_chain_err_ok in Hl. simpl in Hx. by simplify_eq.
Qed.

(** The items of a heap are written in another order than they were read, so that
    the bytes are the same up to their order. *)
Lemma heap_bytes_perm i x i' bs :
  run (decode BinaryHeapWrapper_decode) i = Done (Ok x, i') ->
  wbytes (encode_to BinaryHeapWrapper_encode x) = Done bs ->
  exists b1, i = b1 ++ i' /\ b1 ≡ₚ bs.
Proof.
  intros Hrun Hb. destruct (BinaryHeapWrapper_total target_64) as [HC _].
  pose proof (decode_wf _ _ _ _ _ Hrun) as [[_ [Hwf _]] _].
  apply run_heap_wrapper, run_binary_heap_decode in Hrun as (v & Hv & Hx).
  assert (vec_fits (D_size_of (prim_decode U32))) as Hf by by apply vec_fits_64.
  pose proof (vec_decode_laws (prim_decode U32) (in_range U32) Hf).
  pose proof (decode_wf _ _ _ _ _ Hv) as Hvwf.
  apply (vec_canonical (prim_encode U32) (prim_decode U32) (in_range U32) Hf) in Hv as (b1 & Hb1 & ->).
  exists b1. split; [done|].
  assert (wbytes (encode_to (vec_encode (prim_encode U32)) x.1) = Done bs) as Hb2.
  { rewrite <- (binary_heap_bytes _ (in_range U32)) by done. exact Hb. }
  apply (wbytes_slice _ (in_range U32)) in Hb1 as (i1 & _ & Hi1 & ->), Hb2 as (i2 & _ & Hi2 & ->); [|done..].
  rewrite (wbytes_items_prim _ (in_range U32) U32 id id) in Hi1, Hi2 by done. injection Hi1 as <-. injection Hi2 as <-.
  assert (v ≡ₚ x.1) as Hp by (rewrite Hx; symmetry; apply rebuild_perm).
  assert (zlen (id v) = zlen (id x.1)) as -> by (unfold id, zlen; by rewrite Hp).
  by apply Permutation_app_head, concat_map_perm, Permutation_map.
Qed.

Lemma heap_round_trip_sorted raw1 : round_trip_sorted heap_type raw1 = Done tt.
Proof.
  destruct heap_fuzzable as (n & HT & Hn & Heq). unfold round_trip_sorted.
  destruct (decode_runs (ft_decode heap_type) _ raw1) as ([x|e] & d & Hrun); rewrite Hrun; simpl; [|done].
  destruct (reencode _ _ _ _ _ _ _ HT Hn Hrun) as (bs & Henc & Hdec & _).
  pose proof (encode_sound (EncodeLaws := codec_encode (CodecLaws := total_codec (TotalCodec := HT))) _ _ Henc) as Hb.
  simpl in Henc. rewrite Henc. simpl. specialize (Hdec []). rewrite app_nil_r in Hdec. simpl in Hdec. rewrite Hdec. simpl.
  rewrite (Heq x : BinaryHeapWrapper_eq x x = true).
  destruct (heap_bytes_perm _ _ _ _ Hrun Hb) as (b1 & -> & Hp).
  by rewrite consumed_app, bool_decide_eq_true_2 by by apply sort_bytes_perm.
Qed.
End entry_points.

(** ** The theorems *)

Section theorems.
Context `{Target}.

(** C38: the first byte of the data selects one of the 22 types of the first block of
    [fuzz_decode], and the round trip of that type is all that happens: the blocks
    after it, for [BinaryHeap], [BTreeMap] and [BTreeSet], are never reached.
    Without a first byte the fuzzer panics. *)
Theorem fuzz_decode_spec enum_size data :
  fuzz_decode enum_size data =
    match data with
    | [] => Panic "index out of bounds: the len is 0 but the index is 0"
    | b :: d =>
        match (prim_type U8 :: round_trip_rest enum_size) !! Z.to_nat (byte.unsigned b mod 22) with
        | Some t => round_trip t d
        | None => Done tt
        end
    end.
Proof.
  destruct data as [|b d]; [done|]. destruct (fuzz_decode_selects enum_size b d) as (c & Hc & ->).
  assert ((prim_type U8 :: round_trip_rest enum_size) !! Z.to_nat (byte.unsigned b mod 22) = Some (projT1 c)) as ->;
    [|done]. rewrite <- round_trip_cases_types, list_lookup_fmap. by apply fmap_Some; exists c.
Qed.

(** C25: on a 64-bit target, whatever bytes the fuzzer decodes, the codec does not
    panic, what has been decoded is encoded again and decodes to the same value,
    and the bytes are the ones that were decoded.  Only the last may fail, and only
    for [MockEnum] and the two [BitVec]s: the padding of the last element of a bit
    vector is read, but not kept. *)
Theorem fuzz_decode_ok enum_size b d :
  usize_bits = 64 -> 0 <= enum_size ->
  fuzz_decode enum_size (b :: d) = Done tt \/
  (fuzz_decode enum_size (b :: d) = Panic "raw1 != raw2" /\ padded (Z.to_nat (byte.unsigned b mod 22))).
Proof.
  intros H64 Hs. destruct (fuzz_decode_selects enum_size b d) as (c & Hc & ->).
  pose proof (round_trip_fuzzables H64 enum_size Hs) as Hall. rewrite Forall_lookup in Hall.
  specialize (Hall _ _ Hc). destruct (round_trip_canonicals H64 enum_size _ _ Hc) as [Hcan|Hp].
  - left. by apply (round_trip_canonical _ (projT2 c)).
  - destruct (round_trip_fuzzable _ (projT2 c) d Hall); auto.
Qed.

(** The blocks that are not reached would not panic either: the bytes of a
    [BinaryHeap] are, once sorted, those it was decoded from, and decoding a
    [BTreeMap] or a [BTreeSet] returns. *)
Theorem fuzz_sorted_ok raw1 :
  usize_bits = 64 ->
  round_trip_sorted heap_type raw1 = Done tt /\
  Forall (fun t => only_decode t raw1 = Done tt) [string_map_type; byte_map_type; set_type].
Proof.
  intros H64. split; [by apply heap_round_trip_sorted|].
  change [string_map_type; byte_map_type; set_type] with (map (@projT1 _ _) only_decode_cases).
  apply Forall_map. eapply Forall_impl; [apply (only_decode_fuzzables H64)|].
  intros c. apply only_decode_fuzzable.
Qed.

(** Encoding an arbitrary value and decoding the bytes gives the value back, for
    each type of [fuzz_encoding!]: the fuzzer does not panic on a value whose
    collections have no more than [u32::MAX] items. *)
Theorem fuzz_encode_ok enum_size :
  usize_bits = 64 -> 0 <= enum_size ->
  map (@projT1 _ _) (encode_cases enum_size) = fuzz_encoding_types enum_size /\
  Forall (fun c : fuzz_case => forall x, projT2 c x -> fuzz_encode (projT1 c) x = Done tt) (encode_cases enum_size).
Proof. intros H64 Hs. split; [done|]. by apply encode_cases_encode. Qed.
End theorems.

(** The padding of a [BitVec<u8, Msb0>] of one bit, which is not zero. *)
Lemma fuzz_decode_ok_witness :
  (@fuzz_decode x86_64 72 [x13; x04; x01] = Done tt \/
   @fuzz_decode x86_64 72 [x13; x04; x01] = Panic "raw1 != raw2" /\ padded (Z.to_nat (byte.unsigned x13 mod 22))) /\
  @fuzz_decode x86_64 72 [x13; x04; x01] = Panic "raw1 != raw2".
Proof. split; [by apply (@fuzz_decode_ok x86_64 72 x13)|by vm_compute]. Defined.

(** A heap whose buffer is not the order it was sent in. *)
Lemma fuzz_sorted_ok_witness :
  @round_trip_sorted (@heap_type x86_64) [x08; x01; x00; x00; x00; x02; x00; x00; x00; x05] = Done tt.
Proof. by apply (@fuzz_sorted_ok x86_64). Defined.

(** [MockEnum::Unit(7)], in the list of types. *)
Lemma fuzz_encode_ok_witness :
  @fuzz_encode (eq_type (@MockEnum_encode x86_64 72) (@MockEnum_decode x86_64 72)) (inr (inl (7, tt))) = Done tt.
Proof.
  destruct (@fuzz_encode_ok x86_64 72) as [_ Hall]; [done|done|]. rewrite Forall_lookup in Hall.
  apply (Hall 22%nat (@MockEnum_case x86_64 72)); [done|]. by vm_compute.
Defined.
