(* ===== verification/TrackedTypes.v ===== *)
(** * Memory limits, for the types of the crate and derived types ([mem_tracking.rs])

    [#[derive(DecodeWithMemTracking)]] asks that the type every field is decoded
    as is tracked; then the generated decoder is.  The theorems say what
    [decode_with_mem_limit] guarantees, and where it does not. *)

From S2P Require Import Prelude Ints Errors Input Discipline Output Traits Primitives Compact.
From S2P Require Import CompactTheory Sequences SequencesTheory Composite Collections Heap Limits.
From S2P Require Import Footprint MaxLen Derive DeriveTheory.

(** ** Derived types *)

(** A skipped field has its default, which must not own anything. *)
Definition field_tracked {F} (f : field F) (heap : F -> Z) : Prop :=
  (forall x, 0 <= heap x) /\
  match f_attr f with
  | FieldNone _ D => MemTracked D heap
  | FieldCompact _ _ D into | FieldEncodedAs _ _ D into =>
      exists hC, MemTracked D hC /\ forall c, heap (into c) <= hC c
  | FieldSkip default => heap default = 0
  end.

Inductive fields_tracked : forall A, fields A -> (A -> Z) -> Prop :=
| fields_tracked_nil : fields_tracked unit FNil (fun _ => 0)
| fields_tracked_cons F A (f : field F) (fs : fields A) hF hA :
    field_tracked f hF -> fields_tracked A fs hA ->
    fields_tracked (F * A) (FCons f fs) (pair_heap hF hA).

Inductive variants_tracked : forall A, variants A -> (A -> Z) -> Prop :=
| variants_tracked_nil : variants_tracked Empty_set VNil (fun _ => 0)
| variants_tracked_cons A R (v : variant A) (vs : variants R) hA hR :
    fields_tracked A (v_fields v) hA -> variants_tracked R vs hR ->
    variants_tracked (A + R) (VCons v vs) (fun x => match x with inl a => hA a | inr r => hR r end).

Lemma fields_tracked_nonneg {A} (fs : fields A) heap x : fields_tracked A fs heap -> 0 <= heap x.
Proof.
  induction 1 as [|F A f fs hF hA [Hpos _] _ IH]; [done|]. destruct x as [a b].
  specialize (Hpos a). specialize (IH b). unfold pair_heap. simpl. lia.
Qed.

Lemma variants_tracked_nonneg {A} (vs : variants A) heap x : variants_tracked A vs heap -> 0 <= heap x.
Proof.
  induction 1 as [|A R v vs hA hR Hf _ IH]; [done|]. destruct x as [a|r]; [|apply IH].
  by eapply fields_tracked_nonneg.
Qed.

Lemma decode_field_charges {F} (f : field F) heap name :
  field_tracked f heap -> charges 0 heap (decode_field f name).
Proof.
  unfold field_tracked, decode_field. intros [_ Hf].
  destruct (f_attr f) as [E D|R C E from D into|R C E from D into|d];
    [apply charges_chain_err, decode_charges| | |by apply charges_ok; lia];
    (destruct Hf as (hC & HD & Hinto);
     eapply charges_bind; [apply charges_chain_err, (decode_charges (MemTracked := HD))|];
     intros c; by apply charges_ok).
Qed.

Lemma decode_fields_charges {A} (fs : fields A) heap name named :
  fields_tracked A fs heap -> charges 0 heap (decode_fields fs name named).
Proof.
  induction 1 as [|F A f fs hF hA Hf _ IH]; cbn [decode_fields]; [by apply charges_ok|].
  eapply charges_try; [by apply decode_field_charges|]. intros x.
  eapply charges_try; [exact IH|]. intros xs. apply charges_ok. unfold pair_heap. simpl. lia.
Qed.

Lemma transparent_fields_charges {A} (fs : fields A) heap d sizes :
  fields_tracked A fs heap -> transparent_fields fs = Some (d, sizes) -> charges 0 heap d.
Proof.
  intros Hfs. revert d sizes. induction Hfs as [|F A f fs hF hA [_ Hf] _ IH]; intros d sizes; simpl.
  { intros [= <- _]. by apply charges_ok. }
  destruct (f_attr f) as [E D| | |]; try done.
  destruct (transparent_fields fs) as [[d' sizes']|]; [|done]. intros [= <- _].
  eapply charges_try; [apply decode_into_charges|]. intros x.
  eapply charges_try; [by eapply IH|]. intros xs. apply charges_ok. unfold pair_heap. simpl. lia.
Qed.

Lemma struct_tracked {A} size_of transparent name named (fs : fields A) heap :
  fields_tracked A fs heap -> MemTracked (struct_decode size_of transparent name named fs) heap.
Proof.
  intros Hfs. pose proof (decode_fields_charges fs heap name named Hfs) as Hd.
  constructor; [intros x; by eapply fields_tracked_nonneg|exact Hd| |done]. simpl.
  assert (charges 0 heap (default_decode_into (decode_fields fs name named))) as Hdef.
  { eapply charges_bind; [exact Hd|]. intros x. by apply charges_ok. }
  unfold struct_decode_into. destruct transparent; [|done].
  destruct (transparent_fields fs) as [[d [|s sizes]]|] eqn:Ht; [done| |done].
  destruct (_ && _); [|apply charges_halt]. by eapply transparent_fields_charges.
Qed.

Lemma enum_tracked {A} size_of name (vs : variants A) heap :
  variants_tracked A vs heap -> MemTracked (enum_decode size_of name vs) heap.
Proof.
  intros Hvs. apply impl_decode_tracked; [intros x; by eapply variants_tracked_nonneg|].
  apply charges_variant_byte. intros b. generalize 0 at 2 as i.
  induction Hvs as [|A R v vs hA hR Hf _ IH]; intros i; cbn [decode_variants]; [apply charges_throw|].
  destruct (_ && _); eapply charges_dec_map; [by apply decode_fields_charges|done|apply IH|done].
Qed.

(** ** What a memory limit guarantees *)

Section limits.
Context `{Target} {I : Type} `{InputLaws I}.

(** Decoding a [Vec<T>] under a memory limit, from any input: the buffer of
    the vector and everything its items own on the heap together stay below the
    limit (unless they take no memory at all).  [T] may be any type that accounts
    for what its own values own, so vectors of vectors, boxes and derived types
    are covered. *)
Theorem vec_mem_limit {T} (D : Decode T) wf heap limit (i : I) v i' :
  DecodeLaws D wf -> MemTracked D heap -> vec_fits (D_size_of D) -> limit <= usize_max ->
  run (decode_with_mem_limit (vec_decode D) limit) i = Done (Ok v, i') ->
  vec_heap (D_size_of D) heap v = 0 \/ vec_heap (D_size_of D) heap v < limit.
Proof.
  intros HD HM Hfits Hl Hrun. pose proof (vec_decode_laws D wf Hfits). pose proof (vec_tracked D wf heap).
  by eapply mem_limit_heap.
Qed.

(** Derived structs and enums account for the memory of their values when the
    types their fields are decoded as do, so that a memory limit bounds what a
    decoded struct or enum owns. *)
Theorem derived_mem_limit {A B} size_of transparent name named (fs : fields A) (vs : variants B)
    wfA wfB hA hB limit (i : I) :
  0 <= size_of -> limit <= usize_max ->
  fields_ok fs wfA -> (transparent = true -> transparent_layout size_of fs) -> fields_tracked A fs hA ->
  variants_ok vs wfB -> variants_tracked B vs hB ->
  (forall x i', run (decode_with_mem_limit (struct_decode size_of transparent name named fs) limit) i
     = Done (Ok x, i') -> hA x = 0 \/ hA x < limit) /\
  (forall x i', run (decode_with_mem_limit (enum_decode size_of name vs) limit) i
     = Done (Ok x, i') -> hB x = 0 \/ hB x < limit).
Proof.
  intros Hs Hl Hfs Ht Hft Hvs Hvt. split; intros x i' Hrun.
  - pose proof (struct_tracked size_of transparent name named fs hA Hft).
    eapply mem_limit_heap; [by apply struct_decode_laws|done..].
  - pose proof (enum_tracked size_of name vs hB Hvt).
    eapply mem_limit_heap; [by apply enum_decode_laws|done..].
Qed.
End limits.

(** ** Examples *)

Section examples.
Existing Instance x86_64.

Definition byte_vec : Decode (list Z) := vec_decode (prim_decode U8).
Definition byte_vec_heap (v : list Z) : Z := vec_heap 1 (fun _ => 0) v.

Lemma byte_vec_laws : DecodeLaws byte_vec (Forall (in_range U8)).
Proof. apply vec_decode_laws; [apply _|by apply vec_fits_64]. Qed.

Lemma byte_vec_tracked : MemTracked byte_vec byte_vec_heap.
Proof.
  pose proof (flat_tracked (prim_decode U8) (in_range U8)). exact (vec_tracked (prim_decode U8) (in_range U8) (fun _ => 0)).
Qed.

(** A [Vec<Vec<u8>>] of two vectors: 48 bytes for the outer buffer, 3 for the
    inner ones. *)
Lemma vec_mem_limit_witness :
  vec_heap 24 byte_vec_heap [[1]; [2; 3]] = 51 /\ 51 < 100.
Proof.
  assert (run (decode_with_mem_limit (vec_decode byte_vec) 100) [x08; x04; x01; x08; x02; x03]
    = Done (Ok [[1]; [2; 3]], [])) as Hrun by (vm_compute; reflexivity).
  destruct (vec_mem_limit byte_vec (Forall (in_range U8)) byte_vec_heap 100 _ _ _
    byte_vec_laws byte_vec_tracked ltac:(by apply vec_fits_64) ltac:(done) Hrun); [|split; [reflexivity|done]].
  vm_compute in H. discriminate.
Defined.

(** [struct S { data: Vec<u8>, boxed: Box<u8> }] and
    [enum E { A, B(Vec<u8>) }]. *)
Definition tracked_struct : fields (list Z * (Z * unit)) :=
  FCons (mkField "data" (FieldNone (vec_encode (prim_encode U8)) byte_vec) 0 0)
    (FCons (mkField "boxed" (FieldNone (pointer_encode (prim_encode U8)) (box_decode (prim_decode U8))) 0 0)
       FNil).

Definition tracked_enum : variants (unit + (list Z * unit + Empty_set)) :=
  VCons (mkVariant "A" false None None false FNil)
    (VCons (mkVariant "B" false None None false
              (FCons (mkField "0" (FieldNone (vec_encode (prim_encode U8)) byte_vec) 0 0) FNil)) VNil).

Lemma byte_vec_codec : CodecLaws (vec_encode (prim_encode U8)) byte_vec (Forall (in_range U8)).
Proof. apply vec_codec_laws; [by apply vec_fits_64|apply _]. Qed.

Lemma tracked_struct_ok : exists wf, fields_ok tracked_struct wf.
Proof.
  eexists. apply fields_ok_cons; [apply byte_vec_codec|].
  apply fields_ok_cons; [apply box_codec_laws, prim_codec_laws|constructor].
Qed.

Lemma tracked_enum_ok : exists wf, variants_ok tracked_enum wf.
Proof.
  eexists. apply variants_ok_cons; [constructor|]. apply variants_ok_cons; [|constructor].
  apply fields_ok_cons; [apply byte_vec_codec|constructor].
Qed.

Definition tracked_struct_heap : list Z * (Z * unit) -> Z :=
  pair_heap byte_vec_heap (pair_heap (box_heap 1 (fun _ => 0)) (fun _ => 0)).

Definition tracked_enum_heap (x : unit + (list Z * unit + Empty_set)) : Z :=
  match x with
  | inl _ => 0
  | inr r => match r with inl b => pair_heap byte_vec_heap (fun _ => 0) b | inr _ => 0 end
  end.

Lemma byte_vec_field_tracked name :
  field_tracked (mkField name (FieldNone (vec_encode (prim_encode U8)) byte_vec) 0 0) byte_vec_heap.
Proof. split; [intros x; by apply vec_heap_nonneg|apply byte_vec_tracked]. Qed.

Lemma tracked_struct_tracked : fields_tracked _ tracked_struct tracked_struct_heap.
Proof.
  apply fields_tracked_cons; [apply byte_vec_field_tracked|].
  apply fields_tracked_cons; [|constructor]. split; [done|]. simpl.
  pose proof (flat_tracked (prim_decode U8) (in_range U8)). exact (box_tracked (prim_decode U8) (in_range U8) (fun _ => 0)).
Qed.

Lemma tracked_enum_tracked : variants_tracked _ tracked_enum tracked_enum_heap.
Proof.
  apply (variants_tracked_cons _ _ _ _ (fun _ => 0)
    (fun r => match r with inl b => pair_heap byte_vec_heap (fun _ => 0) b | inr _ => 0 end)); [constructor|].
  apply (variants_tracked_cons _ _ _ _ (pair_heap byte_vec_heap (fun _ => 0)) (fun _ => 0)); [|constructor].
  apply fields_tracked_cons; [apply byte_vec_field_tracked|constructor].
Qed.

Lemma derived_mem_limit_witness :
  run (decode_with_mem_limit (struct_decode 32 false "S" true tracked_struct) 4) [x08; x05; x06; x07]
    = Done (Ok ([5; 6], (7, tt)), []) /\
  tracked_struct_heap ([5; 6], (7, tt)) < 4.
Proof.
  assert (run (decode_with_mem_limit (struct_decode 32 false "S" true tracked_struct) 4) [x08; x05; x06; x07]
    = Done (Ok ([5; 6], (7, tt)), [])) as Hrun by (vm_compute; reflexivity).
  split; [exact Hrun|]. destruct tracked_struct_ok as [wfA HA], tracked_enum_ok as [wfB HB].
  destruct (derived_mem_limit 32 false "S" true tracked_struct tracked_enum wfA wfB
    tracked_struct_heap tracked_enum_heap 4 [x08; x05; x06; x07] ltac:(done) ltac:(done) HA ltac:(done)
    tracked_struct_tracked HB tracked_enum_tracked) as [Hs _].
  destruct (Hs _ _ Hrun) as [H0|H0]; [|exact H0]. vm_compute in H0. discriminate.
Defined.

(** ** B-trees

    [size_of::<(u8, [u8; 64])>()] is 65, and the leaf of a map with such entries
    takes [8 + 2 + 2 + 11 * 65] bytes, rounded up to 728. *)
Definition wide_map_decode : Decode (list (Z * list Z)) :=
  btree_map_decode 65 728 (prim_decode U8) (array_decode (prim_decode U8) 64).

Definition wide_map_bytes : list byte :=
  byte.of_Z (4 * 19) ::
  concat (map (fun k => byte.of_Z (Z.of_nat k) :: repeat x00 64) (seq 0 19)).

(** The memory that is announced for a B-tree can be less than the memory of
    the entries in it: a [BTreeMap<u8, [u8; 64]>] of 19 entries, 1235 bytes of
    data, decodes under a limit of 1000 bytes. *)
Theorem btree_exceeds_mem_limit :
  exists m, run (decode_with_mem_limit wide_map_decode 1000) wide_map_bytes = Done (Ok m, []) /\
    zlen m = 19 /\ 1000 < 65 * zlen m.
Proof. eexists. split; [vm_compute; reflexivity|]. split; reflexivity. Qed.
End examples.
