(* ===== verification/Tuples.v ===== *)
(** * Tuples of any number of components ([codec.rs], [tuple_impl!])

    The macro implements the traits for tuples of one to eighteen components.  It
    takes the components as a list, has one arm for the last component and one for
    a component followed by others, and calls itself on the others.  The value of a
    tuple [(A, B, C)] is [A * (B * C)].  The theorem says that such a tuple has the
    codec of the nested pairs of [Composite]. *)

From S2P Require Import Prelude Ints Errors Input Discipline Output Traits Primitives Compact.
From S2P Require Import CompactTheory Sequences SequencesTheory Composite Limits Footprint MaxLen EncodeTotal Reencode.

(** ** The implementations *)

Inductive components : Type -> Type :=
| Last A (E : Encode A) (D : Decode A) : components A
| Next A B (E : Encode A) (D : Decode A) (rest : components B) : components (A * B).
Arguments Last {_} _ _.
Arguments Next {_ _} _ _ _.

Section tuples.
Context `{Target}.

(** [$( + $rest.size_hint() )+]: the sum goes from left to right. *)
Fixpoint add_size_hints {T} (cs : components T) (sum : Z) : T -> outcome Z :=
  match cs with
  | Last E _ => fun x => h ← size_hint E x; add_usize sum h
  | Next E _ rest => fun x => h ← size_hint E x.1; sum ← add_usize sum h; add_size_hints rest sum x.2
  end.

Definition tuple_impl_size_hint {A B} (E : Encode A) (rest : components B) (self : A * B) : outcome Z :=
  first ← size_hint E self.1; add_size_hints rest first self.2.

(** [$first.encode_to(dest); $($rest.encode_to(dest);)+] *)
Fixpoint encode_components {T} (cs : components T) : T -> wprog :=
  match cs with
  | Last E _ => fun x => encode_to E x
  | Next E _ rest => fun x => encode_to E x.1 ;;; encode_components rest x.2
  end.

(** Each component in turn, with a [return] at the first error. *)
Fixpoint decode_components {T} (cs : components T) : dec T :=
  match cs with
  | Last _ D => decode D
  | Next _ D rest => a ⇐ decode D; b ⇐ decode_components rest; ok (a, b)
  end.

Definition tuple_impl_encode {T} (size_of : Z) (cs : components T) : Encode T :=
  match cs with
  | Last E _ => tuple1_encode E
  | Next E D rest => impl_encode_to size_of (tuple_impl_size_hint E rest) (encode_components (Next E D rest))
  end.

Definition tuple_impl_decode {T} (size_of : Z) (cs : components T) : Decode T :=
  match cs with
  | Last _ D => tuple1_decode D
  | Next E D rest => impl_decode size_of (decode_components (Next E D rest))
  end.

(** [<(A, ..) as DecodeLength>::len] is that of the first component. *)
Definition tuple_len (first_len : list byte -> outcome (Result Z Error)) (self_encoded : list byte)
    : outcome (Result Z Error) := first_len self_encoded.

(** ** Nested pairs *)

Fixpoint nested_encode {T} (cs : components T) : Encode T :=
  match cs with
  | Last E _ => E
  | Next E _ rest => tuple_encode 0 E (nested_encode rest)
  end.

Fixpoint nested_decode {T} (cs : components T) : Decode T :=
  match cs with
  | Last _ D => D
  | Next _ D rest => tuple_decode 0 D (nested_decode rest)
  end.

Lemma encode_components_nested {T} (cs : components T) x :
  encode_components cs x = encode_to (nested_encode cs) x.
Proof. induction cs as [A E D|A B E D rest IH]; [done|]. simpl. by rewrite IH. Qed.

Lemma decode_components_nested {T} (cs : components T) : decode_components cs = decode (nested_decode cs).
Proof. induction cs as [A E D|A B E D rest IH]; [done|]. simpl. by rewrite IH. Qed.

(** The hints are not negative. *)
Fixpoint hints_nonneg {T} (cs : components T) : Prop :=
  match cs with
  | Last E _ => forall x h, size_hint E x = Done h -> 0 <= h
  | Next E _ rest => (forall x h, size_hint E x = Done h -> 0 <= h) /\ hints_nonneg rest
  end.

Lemma bind_done {A B} (m : outcome A) (f : A -> outcome B) b :
  m ≫= f = Done b <-> exists a, m = Done a /\ f a = Done b.
Proof. destruct m as [a|]; simpl; [|naive_solver]. split; [eauto|by intros (? & [= ->] & ?)]. Qed.

Lemma add_usize_done a b s : add_usize a b = Done s <-> s = a + b /\ a + b <= usize_max.
Proof. unfold add_usize. destruct (Z.leb_spec (a + b) usize_max); naive_solver lia. Qed.

Lemma nested_hint_nonneg {T} (cs : components T) x h :
  hints_nonneg cs -> size_hint (nested_encode cs) x = Done h -> 0 <= h.
Proof.
  revert x h. induction cs as [A E D|A B E D rest IH]; intros x h; [naive_solver|].
  intros [Hn Hr] (a & Ha & (b & Hb & [-> _]%add_usize_done)%bind_done)%bind_done.
  specialize (Hn _ _ Ha). specialize (IH _ _ Hr Hb). lia.
Qed.

Lemma add_size_hints_nested {T} (cs : components T) sum x s :
  hints_nonneg cs -> 0 <= sum ->
  add_size_hints cs sum x = Done s <->
  exists h, size_hint (nested_encode cs) x = Done h /\ s = sum + h /\ sum + h <= usize_max.
Proof.
  revert sum x s. induction cs as [A E D|A B E D rest IH]; intros sum x s Hn Hs; simpl.
  - rewrite bind_done. by setoid_rewrite add_usize_done.
  - destruct Hn as [Hn Hr]. unfold tuple_size_hint. repeat setoid_rewrite bind_done.
    setoid_rewrite add_usize_done. split.
    + intros (a & Ha & ? & [-> Hle] & Hrest). specialize (Hn _ _ Ha).
      apply IH in Hrest as (b & Hb & -> & Hlb); [|done|lia].
      pose proof (nested_hint_nonneg _ _ _ Hr Hb). exists (a + b). split_and!; [|lia..]. exists a. split; [done|].
      exists b. split; [done|lia].
    + intros (h & (a & Ha & b & Hb & -> & Hab) & -> & Hle). specialize (Hn _ _ Ha).
      pose proof (nested_hint_nonneg _ _ _ Hr Hb). exists a. split; [done|]. exists (sum + a). split; [lia|].
      apply IH; [done|lia|]. exists b. split; [done|lia].
Qed.

(** What the macro generates computes what nested pairs compute. *)
Lemma tuple_impl_nested {T} size_of (cs : components T) :
  (forall x, encode_to (tuple_impl_encode size_of cs) x = encode_to (nested_encode cs) x) /\
  decode (tuple_impl_decode size_of cs) ≃ decode (nested_decode cs) /\
  (hints_nonneg cs -> forall x h,
     size_hint (tuple_impl_encode size_of cs) x = Done h <-> size_hint (nested_encode cs) x = Done h).
Proof.
  destruct cs as [A E D|A B E D rest]; (split; [|split]).
  - done.
  - intros i a i'. simpl. rewrite run_try_bind. by destruct (run (decode D) i) as [[[]]|].
  - done.
  - intros x. apply (encode_components_nested (Next E D rest)).
  - simpl. by rewrite decode_components_nested.
  - intros [Hn Hr] x h. simpl. unfold tuple_impl_size_hint, tuple_size_hint. rewrite !bind_done.
    split; intros (a & Ha & Hrest); exists a; (split; [done|]); specialize (Hn _ _ Ha).
    + apply add_size_hints_nested in Hrest as (b & Hb & -> & Hle); [|done|done].
      apply bind_done. exists b. split; [done|]. by apply add_usize_done.
    + apply bind_done in Hrest as (b & Hb & [-> Hle]%add_usize_done).
      apply add_size_hints_nested; [done|done|]. eauto.
Qed.

(** ** The laws *)

(** A codec with the bytes and the results of another one has its laws. *)
Lemma codec_transfer {T} (E E' : Encode T) D size_of (d : dec T) wf :
  CodecLaws E D wf -> EncodeLaws E' wf -> (forall x, encode_to E' x = encode_to E x) ->
  0 <= size_of -> wb wf 0 d -> d ≃ decode D -> CodecLaws E' (impl_decode size_of d) wf.
Proof.
  intros HC HE Hto Hs Hd Heq. constructor; [done|by apply impl_decode_laws| |discriminate].
  intros x bs rest Hx Hb. rewrite Hto in Hb. apply Heq. by apply roundtrip.
Qed.

Lemma canonical_transfer {T} (E E' : Encode T) D D' :
  Canonical E D -> (forall x, encode_to E' x = encode_to E x) -> decode D' ≃ decode D -> Canonical E' D'.
Proof. intros Hc Hto Heq i x i' Hrun. rewrite Hto. apply Hc. by apply Heq. Qed.

Lemma max_len_transfer {T} (E E' : Encode T) wf n :
  MaxEncodedLen E wf n -> (forall x, encode_to E' x = encode_to E x) -> MaxEncodedLen E' wf n.
Proof.
  intros HM Hto. split; [apply max_encoded_len_nonneg|]. intros x bs. rewrite Hto. apply (max_encoded_len_bound (E := E)).
Qed.

Lemma const_len_transfer {T} (E E' : Encode T) wf n :
  ConstEncodedLen E wf n -> (forall x, encode_to E' x = encode_to E x) -> ConstEncodedLen E' wf n.
Proof.
  intros HM Hto. split; [apply const_encoded_len_nonneg|]. intros x bs. rewrite Hto. apply (const_encoded_len (E := E)).
Qed.

(** When the encoder of a tuple panics. *)
Inductive components_encodable : forall T, components T -> (T -> Prop) -> (T -> Prop) -> Z -> Prop :=
| components_encodable_last A (E : Encode A) D wf ok n :
    EncodeLaws E wf -> Encodable E wf ok n -> components_encodable A (Last E D) wf ok n
| components_encodable_next A B (E : Encode A) D wf ok n (rest : components B) wfr okr m :
    Encodable E wf ok n -> components_encodable B rest wfr okr m ->
    components_encodable (A * B) (Next E D rest) (tuple_wf wf wfr) (tuple_ok ok okr) (n + m).
Arguments components_encodable {_} _ _ _ _.

Lemma components_encodable_nonneg {T} (cs : components T) wf ok n : components_encodable cs wf ok n -> 0 <= n.
Proof.
  induction 1 as [A E D wf ok n _ HE|A B E D wf ok n rest wfr okr m HE _ IH]; [apply (encodable_nonneg (E := E))|].
  pose proof (encodable_nonneg (E := E)). lia.
Qed.

Lemma components_writes {T} (cs : components T) wf ok n x :
  components_encodable cs wf ok n -> wf x -> ok x <-> writes (encode_components cs x).
Proof.
  intros HE. revert x. induction HE as [A E D wf ok n _ HE|A B E D wf ok n rest wfr okr m HE _ IH];
    intros x; [by apply encodable_iff|].
  intros [Ha Hb]. cbn [encode_components]. rewrite writes_wseq, <- (IH _ Hb).
  by rewrite <- (encodable_iff (E := E) _ Ha).
Qed.

Lemma components_size_hint {T} (cs : components T) wf ok n sum x :
  components_encodable cs wf ok n -> wf x -> ok x -> 0 <= sum -> sum + n <= usize_max ->
  exists h, add_size_hints cs sum x = Done h /\ sum <= h <= sum + n.
Proof.
  intros HE. revert sum x.
  induction HE as [A E D wf ok n _ HE|A B E D wf ok n rest wfr okr m HE Hr IH]; intros sum x Hx Hk Hs Hn; simpl.
  - destruct (encodable_hint (E := E) x Hx Hk) as (h & -> & Hh). exists (sum + h). split; [|lia].
    by apply add_usize_done; lia.
  - pose proof (components_encodable_nonneg _ _ _ _ Hr). destruct Hx as [Ha Hb], Hk as [Hka Hkb].
    destruct (encodable_hint (E := E) _ Ha Hka) as (h & -> & Hh). simpl.
    rewrite (proj2 (add_usize_done sum h (sum + h))) by lia. simpl.
    destruct (IH (sum + h) x.2 Hb Hkb) as (k & Hk & ?); [lia|lia|]. exists k. split; [done|lia].
Qed.

Lemma tuple_impl_encode_laws {T} size_of (cs : components T) wf ok n :
  components_encodable cs wf ok n -> EncodeLaws (tuple_impl_encode size_of cs) wf.
Proof.
  intros []; [|apply impl_encode_to_laws]. by apply (impl_forward_laws (E_size_of E) id E wf0 wf0).
Qed.

Lemma tuple_impl_encodable {T} size_of (cs : components T) wf ok n :
  components_encodable cs wf ok n -> 0 <= size_of -> n <= isize_max ->
  Encodable (tuple_impl_encode size_of cs) wf ok n.
Proof.
  intros HE Hs Hn. pose proof isize_usize_max.
  destruct HE as [A E D wf ok n HL HE|A B E D wf ok n rest wfr okr m HE Hr].
  - apply (encodable_forward (E_size_of E) id E wf ok n); [apply (encodable_size (E := E))|done].
  - pose proof (encodable_nonneg (E := E)). pose proof (components_encodable_nonneg _ _ _ _ Hr).
    split; [done|lia|..]; intros x [Ha Hb].
    + cbn. rewrite writes_wseq, <- (components_writes rest wfr okr m _ Hr Hb).
      by rewrite <- (encodable_iff (E := E) _ Ha).
    + intros [Hka Hkb]. simpl. unfold tuple_impl_size_hint.
      destruct (encodable_hint (E := E) _ Ha Hka) as (h & -> & Hh). simpl.
      destruct (components_size_hint rest wfr okr m h x.2) as (k & Hk & ?); [done..|lia|lia|].
      exists k. split; [done|lia].
Qed.

Inductive components_total : forall T, components T -> (T -> Prop) -> Z -> Prop :=
| components_total_last A (E : Encode A) D wf n :
    TotalCodec E D wf n -> components_total A (Last E D) wf n
| components_total_next A B (E : Encode A) D wf n (rest : components B) wfr m :
    TotalCodec E D wf n -> components_total B rest wfr m ->
    components_total (A * B) (Next E D rest) (tuple_wf wf wfr) (n + m).
Arguments components_total {_} _ _ _.

Lemma components_total_encodable {T} (cs : components T) wf n :
  components_total cs wf n -> exists ok, components_encodable cs wf ok n /\ forall x, ok x.
Proof.
  induction 1 as [A E D wf n HT|A B E D wf n rest wfr m HT _ (okr & Hr & Hall)].
  - exists always. split; [|done]. constructor; apply _.
  - exists (tuple_ok always okr). split; [|by intros x; split; [|apply Hall]]. constructor; [apply _|done].
Qed.

Lemma components_total_nonneg {T} (cs : components T) wf n : components_total cs wf n -> 0 <= n.
Proof. intros (ok & He & _)%components_total_encodable. by apply components_encodable_nonneg in He. Qed.

Lemma nested_total {T} (cs : components T) wf n :
  components_total cs wf n -> n <= isize_max -> TotalCodec (nested_encode cs) (nested_decode cs) wf n.
Proof.
  induction 1 as [A E D wf n HT|A B E D wf n rest wfr m HT Hr IH]; intros Hn; [done|].
  pose proof (encodable_nonneg (E := E)). apply tuple_total; [done|done|done|apply IH; lia].
Qed.

Lemma tuple_impl_total {T} size_of (cs : components T) wf n :
  components_total cs wf n -> 0 <= size_of -> n <= isize_max ->
  TotalCodec (tuple_impl_encode size_of cs) (tuple_impl_decode size_of cs) wf n.
Proof.
  intros HT Hs Hn. pose proof (nested_total _ _ _ HT Hn) as Hnest.
  destruct (components_total_encodable _ _ _ HT) as (ok & He & Hall).
  apply (total_intro _ _ _ ok); [|by apply tuple_impl_encodable|by intros; apply Hall].
  destruct (tuple_impl_nested size_of cs) as (Hto & Hdec & _).
  destruct HT as [A E D wf n HT|A B E D wf n rest wfr m HT Hr].
  - apply (codec_transfer E _ D); [apply _|by apply (tuple_impl_encode_laws size_of _ _ ok n)|done| | |exact Hdec].
    + apply (size_of_nonneg (D := D)).
    + eapply wb_try; [apply decode_wb|]. intros a Ha. by apply wb_done.
  - apply (codec_transfer (nested_encode (Next E D rest)) _ (nested_decode (Next E D rest)));
      [apply _|apply impl_encode_to_laws|exact Hto|done| |exact Hdec].
    rewrite decode_components_nested. apply decode_wb.
Qed.

Inductive components_canonical : forall T, components T -> Prop :=
| components_canonical_last A (E : Encode A) D : Canonical E D -> components_canonical A (Last E D)
| components_canonical_next A B (E : Encode A) D (rest : components B) :
    Canonical E D -> components_canonical B rest -> components_canonical (A * B) (Next E D rest).
Arguments components_canonical {_} _.

Lemma tuple_impl_canonical {T} size_of (cs : components T) :
  components_canonical cs -> Canonical (tuple_impl_encode size_of cs) (tuple_impl_decode size_of cs).
Proof.
  intros Hcs. destruct (tuple_impl_nested size_of cs) as (Hto & Hdec & _).
  eapply canonical_transfer; [|exact Hto|exact Hdec].
  clear Hto Hdec. induction Hcs as [|A B E D rest Hc _ IH]; [done|]. by apply tuple_canonical.
Qed.

Inductive components_tracked : forall T, components T -> (T -> Z) -> Prop :=
| components_tracked_last A (E : Encode A) D heap : MemTracked D heap -> components_tracked A (Last E D) heap
| components_tracked_next A B (E : Encode A) D heap (rest : components B) heapr :
    MemTracked D heap -> components_tracked B rest heapr ->
    components_tracked (A * B) (Next E D rest) (pair_heap heap heapr).
Arguments components_tracked {_} _ _.

Lemma tuple_impl_tracked {T} size_of (cs : components T) heap :
  components_tracked cs heap -> MemTracked (tuple_impl_decode size_of cs) heap.
Proof.
  intros Hcs. assert (MemTracked (nested_decode cs) heap) as Hn.
  { induction Hcs as [|A B E D heap rest heapr Hh _ IH]; [done|]. by apply tuple_tracked. }
  pose proof (decode_charges (MemTracked := Hn)) as Hc. pose proof (heap_nonneg (MemTracked := Hn)) as Hnn.
  destruct Hcs as [A E D heap Hh|A B E D heap rest heapr Hh Hr]; (apply impl_decode_tracked; [done|]).
  - eapply charges_try; [exact Hc|]. intros a. apply charges_ok. lia.
  - by rewrite decode_components_nested.
Qed.

Inductive components_max : forall T, components T -> (T -> Prop) -> list Z -> Prop :=
| components_max_last A (E : Encode A) D wf n : MaxEncodedLen E wf n -> components_max A (Last E D) wf [n]
| components_max_next A B (E : Encode A) D wf n (rest : components B) wfr ns :
    MaxEncodedLen E wf n -> components_max B rest wfr ns ->
    components_max (A * B) (Next E D rest) (tuple_wf wf wfr) (n :: ns).
Arguments components_max {_} _ _ _.

Lemma components_max_bound {T} (cs : components T) wf ns x bs acc base :
  components_max cs wf ns -> wf x -> wbytes (encode_components cs x) = Done bs ->
  0 <= base <= acc -> acc <= usize_max -> base + zlen bs <= usize_max ->
  base + zlen bs <= fold_left saturating_add_usize ns acc.
Proof.
  intros Hcs. revert x bs acc base.
  induction Hcs as [A E D wf n HM|A B E D wf n rest wfr ns HM _ IH]; intros x bs acc base Hx Hb Hacc Hu Hl; simpl in *.
  - assert (zlen bs <= n) by (apply (max_encoded_len_bound (E := E) x); [done|done|lia]).
    unfold saturating_add_usize. lia.
  - destruct Hx as [Hx Hy]. apply wbytes_wseq_done in Hb as (a & b & Ha & Hb & ->). rewrite zlen_app in *.
    pose proof (zlen_nonneg a). pose proof (zlen_nonneg b).
    assert (zlen a <= n) by (apply (max_encoded_len_bound (E := E) x.1); [done|done|lia]).
    pose proof (max_encoded_len_nonneg (E := E)). rewrite Z.add_assoc.
    apply (IH x.2 b); [done|done|unfold saturating_add_usize; lia..].
Qed.

Lemma tuple_impl_max_len {T} size_of (cs : components T) wf ns :
  components_max cs wf ns -> MaxEncodedLen (tuple_impl_encode size_of cs) wf (tuple_max_len ns).
Proof.
  intros Hcs. pose proof usize_max_nonneg. destruct (tuple_impl_nested size_of cs) as (Hto & _ & _). split.
  - assert (forall ns acc, 0 <= acc -> Forall (fun n => 0 <= n) ns -> 0 <= fold_left saturating_add_usize ns acc) as Hfold.
    { clear - H0. intros ns. induction ns as [|n ns IH]; intros acc Ha Hns; [done|].
      apply Forall_cons in Hns as [Hn Hns]. apply IH; [unfold saturating_add_usize; lia|done]. }
    apply Hfold; [done|]. clear Hto Hfold. induction Hcs; constructor; by try apply (max_encoded_len_nonneg (E := E)).
  - intros x bs Hx Hb Hl. rewrite Hto, <- encode_components_nested in Hb.
    apply (components_max_bound cs wf ns x bs 0 0); (done || lia).
Qed.

Inductive components_const : forall T, components T -> (T -> Prop) -> list Z -> Prop :=
| components_const_last A (E : Encode A) D wf n : ConstEncodedLen E wf n -> components_const A (Last E D) wf [n]
| components_const_next A B (E : Encode A) D wf n (rest : components B) wfr ns :
    ConstEncodedLen E wf n -> components_const B rest wfr ns ->
    components_const (A * B) (Next E D rest) (tuple_wf wf wfr) (n :: ns).
Arguments components_const {_} _ _ _.

Lemma components_const_exact {T} (cs : components T) wf ns x bs acc :
  components_const cs wf ns -> wf x -> wbytes (encode_components cs x) = Done bs ->
  0 <= acc -> acc + zlen bs <= usize_max -> fold_left saturating_add_usize ns acc = acc + zlen bs.
Proof.
  intros Hcs. revert x bs acc.
  induction Hcs as [A E D wf n HM|A B E D wf n rest wfr ns HM _ IH]; intros x bs acc Hx Hb Hacc Hl; simpl in *.
  - assert (zlen bs = n) by (apply (const_encoded_len (E := E) x); [done|done|lia]).
    unfold saturating_add_usize. lia.
  - destruct Hx as [Hx Hy]. apply wbytes_wseq_done in Hb as (a & b & Ha & Hb & ->). rewrite zlen_app in *.
    pose proof (zlen_nonneg a). pose proof (zlen_nonneg b).
    assert (zlen a = n) by (apply (const_encoded_len (E := E) x.1); [done|done|lia]).
    rewrite (IH x.2 b) by (try done; unfold saturating_add_usize; lia). unfold saturating_add_usize. lia.
Qed.

Lemma components_const_max {T} (cs : components T) wf ns : components_const cs wf ns -> components_max cs wf ns.
Proof. induction 1; constructor; auto using const_max. Qed.

Lemma tuple_impl_const_len {T} size_of (cs : components T) wf ns :
  components_const cs wf ns -> ConstEncodedLen (tuple_impl_encode size_of cs) wf (tuple_max_len ns).
Proof.
  intros Hcs. destruct (tuple_impl_nested size_of cs) as (Hto & _ & _). split.
  - apply (max_encoded_len_nonneg (MaxEncodedLen := tuple_impl_max_len size_of cs wf ns (components_const_max _ _ _ Hcs))).
  - intros x bs Hx Hb Hl. rewrite Hto, <- encode_components_nested in Hb. symmetry.
    apply (components_const_exact cs wf ns x bs 0); (done || lia).
Qed.
End tuples.

Arguments components_total {_ _} _ _ _.
Arguments components_encodable {_ _} _ _ _ _.
Arguments components_canonical {_} _.
Arguments components_tracked {_} _ _.
Arguments components_max {_ _} _ _ _.
Arguments components_const {_ _} _ _ _.
