(* ===== verification/Universe.v ===== *)
(** * A universe of types

    The implementations of the crate are closed under its type constructors: an
    implementation for a container asks for implementations for its items, and a
    derived one for implementations for the fields.  [ty] is a syntax of the types
    that can be written with them, and [codec_of] picks, as the compiler does by
    resolving traits, the [Encode] and [Decode] implementations for each.  By
    induction on the syntax, every such type has all the laws at once.

    Sizes the compiler chooses ([mem::size_of] of tuples, structs and enums, of
    nodes of lists and trees) are arguments.  [accepted] collects what the theorems
    suppose of a type, a computation on its syntax: sizes are not negative, items of
    vectors are not larger than [MAX_PREALLOCATION] (the assertion of
    [decode_vec_chunked]), keys have an order, no two variants of an enum that are
    not skipped have the same index, and the largest size hint a value can have,
    [c_hint], does not exceed [isize::MAX].  It is stronger than what is checked
    when the crate is compiled: the macros do not look for equal indices
    ([try_get_variants]), and nothing bounds a size hint.

    [c_wf] says which values of the Rust type are those the theorems speak about:
    all of them, except that a collection has at most [u32::MAX] items, a skipped
    field has its default, a variant is not a skipped one, a [Cow] is owned, a
    [RangeInclusive] is not exhausted, the items of a [VecDeque] are contiguous, and
    a bit vector is not longer than its encoder admits.

    Not in the universe: [bytes::Bytes], types that are compact by [CompactAs],
    generic arrays, and derived types that are recursive or transparent. *)

From S2P Require Import Prelude Ints Errors Input Discipline Output Traits Primitives Compact.
From S2P Require Import CompactTheory Sequences SequencesTheory Composite Collections Heap BitVec Limits Footprint.
From S2P Require Import MaxLen Derive DeriveTheory EncodeTotal Reencode Fuzzer FuzzerTheory TrackedTypes Tuples.

(** ** Types *)

(** The keys of sorted collections. *)
Inductive key : Type :=
| KPrim (p : prim)
| KString
| KBytes.

Inductive ty : Type :=
| TPrim (p : prim)
| TNonZero (p : prim)
| TBool
| TOptionBool
| TUnit
| TPhantomData
| TCompact (c : compact_ty)
| TDuration
| TString
| TBitVec (p : prim)
| TVec (t : ty)
| TVecDeque (t : ty)
| TLinkedList (node_size : Z) (t : ty)
| TBinaryHeap (k : key)
| TBTreeSet (leaf_size : Z) (k : key)
| TBTreeMap (pair_size leaf_size : Z) (k : key) (t : ty)
| TArray (N : nat) (t : ty)
| TOption (size_of : Z) (t : ty)
| TResult (size_of : Z) (t e : ty)
| TBox (t : ty)
| TCow (size_of : Z) (t : ty)
| TRc (t : ty)
| TArc (t : ty)
| TRange (size_of : Z) (t : ty)
| TRangeInclusive (size_of : Z) (t : ty)
| TTuple (size_of : Z) (ts : ty_components)
| TStruct (size_of : Z) (name : string) (named : bool) (fs : ty_fields)
| TEnum (size_of : Z) (name : string) (vs : ty_variants)
with ty_components : Type :=
| COne (t : ty)
| CMore (t : ty) (ts : ty_components)
with ty_fields : Type :=
| FsNil
| FsPlain (name : string) (t : ty) (fs : ty_fields)
| FsCompact (name : string) (c : compact_ty) (fs : ty_fields)  (** [#[codec(compact)]] *)
| FsEncodedAs (name : string) (c : compact_ty) (fs : ty_fields)
    (** [#[codec(encoded_as = "Compact<..>")]], a number *)
| FsSkip (name : string) (p : prim) (fs : ty_fields)           (** [#[codec(skip)]], a number *)
with ty_variants : Type :=
| VsNil
| VsCons (name : string) (skip : bool) (index discriminant : option Z) (named : bool) (fs : ty_fields)
    (vs : ty_variants).

(** ** Implementations *)

(** A type with its implementations, its values, a bound on its size hints, the
    memory its values own (without the counters of [Rc] and [Arc], see
    [TypedValues]), [max_encoded_len] if it is [MaxEncodedLen] and none of its
    fields is [encoded_as] another type, whether it is [ConstEncodedLen], whether its
    encodings are unique, and whether it is accepted. *)
Record codec : Type := mkCodec {
  c_type : Type;
  c_encode : Encode c_type;
  c_decode : Decode c_type;
  c_wf : c_type -> Prop;
  c_hint : Z;
  c_heap : c_type -> Z;
  c_max_len : option Z;
  c_const : bool;
  c_canonical : bool;
  c_accepted : bool;
}.

Record components_codec : Type := mkComponents {
  cs_type : Type;
  cs_components : components cs_type;
  cs_wf : cs_type -> Prop;
  cs_hint : Z;
  cs_heap : cs_type -> Z;
  cs_max_lens : option (list Z);
  cs_const : bool;
  cs_canonical : bool;
  cs_accepted : bool;
}.

Record fields_codec : Type := mkFields {
  fs_type : Type;
  fs_fields : fields fs_type;
  fs_wf : fs_type -> Prop;
  fs_hint : Z;
  fs_heap : fs_type -> Z;
  fs_bounded : bool;
  fs_canonical : bool;
  fs_accepted : bool;
}.

Record variants_codec : Type := mkVariants {
  vs_type : Type;
  vs_variants : variants vs_type;
  vs_wf : vs_type -> Prop;
  vs_hint : Z;
  vs_heap : vs_type -> Z;
  vs_bounded : bool;
  vs_canonical : bool;
  vs_accepted : bool;
}.

Definition is_float (p : prim) : bool := match p with F32 | F64 => true | _ => false end.

(** The numbers [bitvec] stores bits in. *)
Definition is_store (p : prim) : bool := match p with U8 | U16 | U32 | U64 => true | _ => false end.

Section universe.
Context `{Target}.

Definition prim_codec (p : prim) : codec :=
  mkCodec Z (prim_encode p) (prim_decode p) (in_range p) (Z.of_nat (prim_bytes p)) (fun _ => 0)
    (if is_float p then None else Some (prim_max_len p)) (negb (is_float p)) true true.

Definition string_codec : codec :=
  mkCodec (list Z) string_encode string_decode (fun s => string_wf s /\ zlen s <= prim_max U32) (seq_hint 1) zlen
    None false true true.

Definition vec_codec (c : codec) : codec :=
  mkCodec (list (c_type c)) (vec_encode (c_encode c)) (vec_decode (c_decode c)) (seq_wf (c_wf c))
    (seq_hint (E_size_of (c_encode c))) (vec_heap (D_size_of (c_decode c)) (c_heap c)) None false (c_canonical c)
    (c_accepted c && (D_size_of (c_decode c) <=? MAX_PREALLOCATION)
     && (seq_hint (E_size_of (c_encode c)) <=? isize_max)).

(** Types without anything on the heap. *)
Definition flat_codec (T : Type) (E : Encode T) (D : Decode T) (wf : T -> Prop) (hint : Z) (max_len : option Z)
    (const accepted : bool) : codec :=
  mkCodec T E D wf hint (fun _ => 0) max_len const true accepted.

(** Numbers other than floats are [Ord]. *)
Definition key_codec (k : key) : codec :=
  match k with
  | KPrim p =>
      flat_codec Z (prim_encode p) (prim_decode p) (in_range p) (Z.of_nat (prim_bytes p)) (Some (prim_max_len p)) true
        (negb (is_float p))
  | KString => string_codec
  | KBytes => vec_codec (prim_codec U8)
  end.

Definition key_ord (k : key) : Ord (c_type (key_codec k)) :=
  match k with
  | KPrim _ => Z_ord
  | KString => str_ord
  | KBytes => str_ord
  end.

Definition deque_codec (c : codec) : codec :=
  mkCodec (VecDeque (c_type c)) (vec_deque_encode (c_encode c)) (vec_deque_decode (c_decode c))
    (deque_total_wf (c_wf c)) (seq_hint (E_size_of (c_encode c)))
    (fun x => vec_heap (D_size_of (c_decode c)) (c_heap c) (deque_items x)) None false (c_canonical c)
    (c_accepted (vec_codec c)).

Definition linked_list_codec (node_size : Z) (c : codec) : codec :=
  mkCodec (list (c_type c)) (linked_list_encode (c_encode c)) (linked_list_decode node_size (c_decode c))
    (seq_wf (c_wf c)) (seq_hint (E_size_of (c_encode c))) (vec_heap node_size (c_heap c)) None false (c_canonical c)
    (c_accepted c && (0 <=? node_size) && (node_size * prim_max U32 <=? usize_max)
     && (seq_hint (E_size_of (c_encode c)) <=? isize_max)).

Definition binary_heap_codec (c : codec) (ord : Ord (c_type c)) : codec :=
  mkCodec (list (c_type c)) (binary_heap_encode (c_encode c)) (binary_heap_decode (c_decode c))
    (fun l => is_heap l /\ seq_wf (c_wf c) l) (seq_hint (E_size_of (c_encode c)))
    (vec_heap (D_size_of (c_decode c)) (c_heap c)) None false false (c_accepted (vec_codec c)).

Definition btree_set_codec (leaf_size : Z) (c : codec) (ord : Ord (c_type c)) : codec :=
  mkCodec (list (c_type c)) (btree_set_encode (c_encode c)) (btree_set_decode leaf_size (c_decode c))
    (fun l => set_sorted l /\ seq_wf (c_wf c) l) (seq_hint (E_size_of (c_encode c)))
    (btree_heap (D_size_of (c_decode c)) (c_heap c)) None false false
    (c_accepted c && (0 <=? leaf_size) && (CAPACITY * D_size_of (c_decode c) <=? leaf_size)
     && (D_size_of (c_decode c) * prim_max U32 <=? usize_max)
     && (seq_hint (E_size_of (c_encode c)) <=? isize_max)).

Definition btree_map_codec (pair_size leaf_size : Z) (k : codec) (ord : Ord (c_type k)) (v : codec) : codec :=
  mkCodec (list (c_type k * c_type v)) (btree_map_encode pair_size (c_encode k) (c_encode v))
    (btree_map_decode pair_size leaf_size (c_decode k) (c_decode v))
    (fun l => btree_sorted l /\ seq_wf (tuple_wf (c_wf k) (c_wf v)) l) (seq_hint pair_size)
    (btree_heap pair_size (pair_heap (c_heap k) (c_heap v))) None false false
    (c_accepted k && c_accepted v && (0 <=? pair_size) && (0 <=? leaf_size)
     && (CAPACITY * pair_size <=? leaf_size) && (pair_size * prim_max U32 <=? usize_max)
     && (seq_hint pair_size <=? isize_max) && (c_hint k + c_hint v <=? isize_max)).

Definition array_codec (N : nat) (c : codec) : codec :=
  mkCodec (list (c_type c)) (array_encode (c_encode c) N) (array_decode (c_decode c) N) (array_wf (c_wf c) N)
    (E_size_of (c_encode c) * Z.of_nat N) (heap_sum (c_heap c)) (flip array_max_len N <$> c_max_len c) (c_const c)
    (c_canonical c) (c_accepted c && (E_size_of (c_encode c) * Z.of_nat N <=? isize_max)).

Definition option_codec (size_of : Z) (c : codec) : codec :=
  mkCodec (option (c_type c)) (option_encode size_of (c_encode c)) (option_decode size_of (c_decode c))
    (option_wf (c_wf c)) (c_hint c + 1) (option_heap (c_heap c)) (option_max_len <$> c_max_len c) false
    (c_canonical c) (c_accepted c && (0 <=? size_of) && (c_hint c + 1 <=? isize_max)).

Definition result_codec (size_of : Z) (c d : codec) : codec :=
  mkCodec (Result (c_type c) (c_type d)) (result_encode size_of (c_encode c) (c_encode d))
    (result_decode size_of (c_decode c) (c_decode d)) (result_wf (c_wf c) (c_wf d)) (Z.max (c_hint c) (c_hint d) + 1)
    (result_heap (c_heap c) (c_heap d)) (n ← c_max_len c; m ← c_max_len d; Some (result_max_len n m)) false
    (c_canonical c && c_canonical d)
    (c_accepted c && c_accepted d && (0 <=? size_of) && (Z.max (c_hint c) (c_hint d) + 1 <=? isize_max)).

Definition box_codec (c : codec) : codec :=
  mkCodec (c_type c) (pointer_encode (c_encode c)) (box_decode (c_decode c)) (c_wf c) (c_hint c)
    (box_heap (D_size_of (c_decode c)) (c_heap c)) (box_max_len <$> c_max_len c) (c_const c) (c_canonical c)
    (c_accepted c).

(** [Cow<'_, T>], for a type that borrows as itself. *)
Definition cow_codec (size_of : Z) (c : codec) : codec :=
  mkCodec (Cow (c_type c) (c_type c)) (cow_encode size_of id (c_encode c)) (cow_decode size_of (c_decode c))
    (cow_wf (c_wf c)) (c_hint c) (fun x => match x with Owned o => c_heap c o | Borrowed _ => 0 end) None false
    (c_canonical c) (c_accepted c && (0 <=? size_of)).

(** [Rc<T>] and [Arc<T>]; only the latter is [MaxEncodedLen].  What [c_heap] counts
    is the pointee, all that [decode_wrapped] announces: the two counters in the same
    allocation are not announced, and [TypedValues.owned_memory] adds them. *)
Definition rc_codec (atomic : bool) (c : codec) : codec :=
  mkCodec (c_type c) (pointer_encode (c_encode c)) (rc_decode (c_decode c)) (c_wf c) (c_hint c)
    (box_heap (D_size_of (c_decode c)) (c_heap c)) (if atomic then box_max_len <$> c_max_len c else None) false
    (c_canonical c) (c_accepted c).

Definition range_accepted (size_of : Z) (c : codec) : bool :=
  c_accepted c && (0 <=? size_of) && (2 * c_hint c <=? isize_max) && (2 * E_size_of (c_encode c) <=? isize_max).

Definition range_codec (size_of : Z) (c : codec) : codec :=
  mkCodec (Range (c_type c)) (range_encode size_of (c_encode c)) (range_decode size_of (c_decode c))
    (fun r => c_wf c (start r) /\ c_wf c (end_ r)) (2 * E_size_of (c_encode c))
    (fun r => c_heap c (start r) + c_heap c (end_ r)) (range_max_len <$> c_max_len c) (c_const c) (c_canonical c)
    (range_accepted size_of c).

Definition range_inclusive_codec (size_of : Z) (c : codec) : codec :=
  mkCodec (RangeInclusive (c_type c)) (range_inclusive_encode size_of (c_encode c))
    (range_inclusive_decode size_of (c_decode c)) (range_inclusive_wf (c_wf c)) (2 * E_size_of (c_encode c))
    (fun r => c_heap c (ri_start r) + c_heap c (ri_end r)) (range_max_len <$> c_max_len c) (c_const c) (c_canonical c)
    (range_accepted size_of c).

Definition bitvec_codec (p : prim) : codec :=
  mkCodec (list bool) (msb0_encode p) (msb0_decode p) (msb0_wf p) 0
    (fun bits => D_size_of (prim_decode p) * @elts Z (uint_store Msb0 p) (zlen bits)) None false false (is_store p).

(** *** Tuples *)

Definition one_component (c : codec) : components_codec :=
  mkComponents (c_type c) (Last (c_encode c) (c_decode c)) (c_wf c) (c_hint c) (c_heap c)
    ((fun n => [n]) <$> c_max_len c) (c_const c) (c_canonical c) (c_accepted c).

Definition more_components (c : codec) (cs : components_codec) : components_codec :=
  mkComponents (c_type c * cs_type cs) (Next (c_encode c) (c_decode c) (cs_components cs))
    (tuple_wf (c_wf c) (cs_wf cs)) (c_hint c + cs_hint cs) (pair_heap (c_heap c) (cs_heap cs))
    (n ← c_max_len c; ns ← cs_max_lens cs; Some (n :: ns)) (c_const c && cs_const cs)
    (c_canonical c && cs_canonical cs) (c_accepted c && cs_accepted cs).

Definition tuple_codec (size_of : Z) (cs : components_codec) : codec :=
  mkCodec (cs_type cs) (tuple_impl_encode size_of (cs_components cs)) (tuple_impl_decode size_of (cs_components cs))
    (cs_wf cs) (cs_hint cs) (cs_heap cs) (tuple_max_len <$> cs_max_lens cs) (cs_const cs) (cs_canonical cs)
    (cs_accepted cs && (0 <=? size_of) && (cs_hint cs <=? isize_max)).

(** *** Structs and enums *)

Definition no_fields : fields_codec :=
  mkFields unit FNil (fun _ => True) 0 (fun _ => 0) true true true.

Definition plain_field (name : string) (c : codec) (fs : fields_codec) : fields_codec :=
  mkFields (c_type c * fs_type fs)
    (FCons (mkField name (FieldNone (c_encode c) (c_decode c)) (default 0 (c_max_len c)) 0) (fs_fields fs))
    (fun x => c_wf c x.1 /\ fs_wf fs x.2) (c_hint c + fs_hint fs) (pair_heap (c_heap c) (fs_heap fs))
    (bool_decide (is_Some (c_max_len c)) && fs_bounded fs) (c_canonical c && fs_canonical fs) (c_accepted c && fs_accepted fs).

Definition compact_field (name : string) (c : compact_ty) (fs : fields_codec) : fields_codec :=
  mkFields (Z * fs_type fs)
    (FCons (mkField name (FieldCompact (compact_encode c) id (compact_decode c) id) (prim_max_len (compact_prim c))
              (compact_max_len c)) (fs_fields fs))
    (fun x => in_range (compact_prim c) x.1 /\ fs_wf fs x.2) (compact_capacity c + fs_hint fs)
    (pair_heap (fun _ => 0) (fs_heap fs)) (fs_bounded fs) (fs_canonical fs) (fs_accepted fs).

(** The bound that [derive(MaxEncodedLen)] adds up for such a field is that of the
    number, not of [Compact] (see [derived_max_len_spec]); here it has none. *)
Definition encoded_as_field (name : string) (c : compact_ty) (fs : fields_codec) : fields_codec :=
  mkFields (Z * fs_type fs)
    (FCons (mkField name (FieldEncodedAs (compact_encode c) id (compact_decode c) id) (prim_max_len (compact_prim c))
              (compact_max_len c)) (fs_fields fs))
    (fun x => in_range (compact_prim c) x.1 /\ fs_wf fs x.2) (compact_capacity c + fs_hint fs)
    (pair_heap (fun _ => 0) (fs_heap fs)) false (fs_canonical fs) (fs_accepted fs).

Definition skipped_field (name : string) (p : prim) (fs : fields_codec) : fields_codec :=
  mkFields (Z * fs_type fs) (FCons (mkField name (FieldSkip 0) (prim_max_len p) 0) (fs_fields fs))
    (fun x => x.1 = 0 /\ fs_wf fs x.2) (0 + fs_hint fs)
    (pair_heap (fun _ => 0) (fs_heap fs)) (fs_bounded fs) (fs_canonical fs) (fs_accepted fs).

Definition struct_codec (size_of : Z) (name : string) (named : bool) (fs : fields_codec) : codec :=
  mkCodec (fs_type fs) (struct_encode size_of (fs_fields fs)) (struct_decode size_of false name named (fs_fields fs))
    (fs_wf fs) (fs_hint fs) (fs_heap fs) (if fs_bounded fs then Some (struct_max_len (fs_fields fs)) else None) false
    (fs_canonical fs) (fs_accepted fs && (0 <=? size_of) && (fs_hint fs <=? isize_max)).

Definition no_variants : variants_codec :=
  mkVariants Empty_set VNil (fun _ => True) 0 (fun _ => 0) true true true.

Definition more_variants (name : string) (skip : bool) (index discriminant : option Z) (named : bool)
    (fs : fields_codec) (vs : variants_codec) : variants_codec :=
  let v := mkVariant name skip index discriminant named (fs_fields fs) in
  mkVariants (fs_type fs + vs_type vs) (VCons v (vs_variants vs))
    (fun x => match x with inl a => v_skip v = false /\ fs_wf fs a | inr r => vs_wf vs r end)
    (Z.max (fs_hint fs) (vs_hint vs)) (fun x => match x with inl a => fs_heap fs a | inr r => vs_heap vs r end)
    (fs_bounded fs && vs_bounded vs) (fs_canonical fs && vs_canonical vs) (fs_accepted fs && vs_accepted vs).

Definition enum_codec (size_of : Z) (name : string) (vs : variants_codec) : codec :=
  mkCodec (vs_type vs) (enum_encode size_of (vs_variants vs)) (enum_decode size_of name (vs_variants vs))
    (vs_wf vs) (vs_hint vs + 1) (vs_heap vs) (if vs_bounded vs then Some (enum_max_len (vs_variants vs)) else None)
    false (vs_canonical vs)
    (vs_accepted vs && (0 <=? size_of) && (vs_hint vs + 1 <=? isize_max)
     && bool_decide (NoDup (indices (vs_variants vs) 0))).

(** *** The implementations of a type *)

Fixpoint codec_of (t : ty) : codec :=
  match t with
  | TPrim p => prim_codec p
  | TNonZero p =>
      flat_codec Z (non_zero_encode p) (non_zero_decode p) (non_zero_range p) (Z.of_nat (prim_bytes p))
        (Some (prim_max_len p)) true (negb (is_float p))
  | TBool => flat_codec bool bool_encode bool_decode (fun _ => True) 1 (Some bool_max_len) true true
  | TOptionBool => flat_codec OptionBool option_bool_encode option_bool_decode (fun _ => True) 1 None false true
  | TUnit => flat_codec unit unit_encode unit_decode (fun _ => True) 0 (Some (tuple_max_len [])) true true
  | TPhantomData => flat_codec unit phantom_encode phantom_decode (fun _ => True) 0 (Some phantom_max_len) true true
  | TCompact c =>
      flat_codec Z (compact_encode c) (compact_decode c) (in_range (compact_prim c)) (compact_capacity c)
        (Some (compact_max_len c)) false true
  | TDuration => flat_codec Duration duration_encode duration_decode duration_wf 12 (Some 12) true true
  | TString => string_codec
  | TBitVec p => bitvec_codec p
  | TVec t => vec_codec (codec_of t)
  | TVecDeque t => deque_codec (codec_of t)
  | TLinkedList node_size t => linked_list_codec node_size (codec_of t)
  | TBinaryHeap k => binary_heap_codec (key_codec k) (key_ord k)
  | TBTreeSet leaf_size k => btree_set_codec leaf_size (key_codec k) (key_ord k)
  | TBTreeMap pair_size leaf_size k t => btree_map_codec pair_size leaf_size (key_codec k) (key_ord k) (codec_of t)
  | TArray N t => array_codec N (codec_of t)
  | TOption size_of t => option_codec size_of (codec_of t)
  | TResult size_of t e => result_codec size_of (codec_of t) (codec_of e)
  | TBox t => box_codec (codec_of t)
  | TCow size_of t => cow_codec size_of (codec_of t)
  | TRc t => rc_codec false (codec_of t)
  | TArc t => rc_codec true (codec_of t)
  | TRange size_of t => range_codec size_of (codec_of t)
  | TRangeInclusive size_of t => range_inclusive_codec size_of (codec_of t)
  | TTuple size_of ts => tuple_codec size_of (components_of ts)
  | TStruct size_of name named fs => struct_codec size_of name named (fields_of fs)
  | TEnum size_of name vs => enum_codec size_of name (variants_of vs)
  end
with components_of (ts : ty_components) : components_codec :=
  match ts with
  | COne t => one_component (codec_of t)
  | CMore t ts => more_components (codec_of t) (components_of ts)
  end
with fields_of (fs : ty_fields) : fields_codec :=
  match fs with
  | FsNil => no_fields
  | FsPlain name t fs => plain_field name (codec_of t) (fields_of fs)
  | FsCompact name c fs => compact_field name c (fields_of fs)
  | FsEncodedAs name c fs => encoded_as_field name c (fields_of fs)
  | FsSkip name p fs => skipped_field name p (fields_of fs)
  end
with variants_of (vs : ty_variants) : variants_codec :=
  match vs with
  | VsNil => no_variants
  | VsCons name skip index discriminant named fs vs =>
      more_variants name skip index discriminant named (fields_of fs) (variants_of vs)
  end.

Definition accepted (t : ty) : bool := c_accepted (codec_of t).

(** The parts of a type's implementations. *)
Definition value_of (t : ty) : Type := c_type (codec_of t).
Definition encode_of (t : ty) : Encode (value_of t) := c_encode (codec_of t).
Definition decode_of (t : ty) : Decode (value_of t) := c_decode (codec_of t).
Definition well_typed (t : ty) : value_of t -> Prop := c_wf (codec_of t).
End universe.
