(* ===== verification/UniverseTheory.v ===== *)
(** * Theory of the universe of types

    Each combinator of [Universe] preserves [codec_laws], the conjunction of what
    the rest of this development proves of implementations: total and inverse
    encoding and decoding, canonicity, tracking of memory, bounds on lengths.  By
    induction every accepted type has them. *)

From S2P Require Import Prelude Ints Errors Input Discipline Output Traits Primitives Compact.
From S2P Require Import CompactTheory Sequences SequencesTheory Composite Collections Heap BitVec Limits Footprint.
From S2P Require Import MaxLen Derive DeriveTheory EncodeTotal Reencode Fuzzer FuzzerTheory TrackedTypes Tuples Universe Append.

Section theory.
Context `{Target}.

Record codec_laws (c : codec) : Prop := {
  laws_total : TotalCodec (c_encode c) (c_decode c) (c_wf c) (c_hint c);
  laws_hint : c_hint c <= isize_max;
  laws_tracked : MemTracked (c_decode c) (c_heap c);
  laws_canonical : c_canonical c = true -> Canonical (c_encode c) (c_decode c);
  laws_max n : c_max_len c = Some n -> MaxEncodedLen (c_encode c) (c_wf c) n;
  laws_const n : c_const c = true -> c_max_len c = Some n -> ConstEncodedLen (c_encode c) (c_wf c) n;
}.

Record components_laws (cs : components_codec) : Prop := {
  cs_laws_total : components_total (cs_components cs) (cs_wf cs) (cs_hint cs);
  cs_laws_tracked : components_tracked (cs_components cs) (cs_heap cs);
  cs_laws_canonical : cs_canonical cs = true -> components_canonical (cs_components cs);
  cs_laws_max ns : cs_max_lens cs = Some ns -> components_max (cs_components cs) (cs_wf cs) ns;
  cs_laws_const ns : cs_const cs = true -> cs_max_lens cs = Some ns -> components_const (cs_components cs) (cs_wf cs) ns;
}.

Record fields_laws (fs : fields_codec) : Prop := {
  fs_laws_total : fields_total (fs_fields fs) (fs_wf fs) (fs_hint fs);
  fs_laws_tracked : fields_tracked _ (fs_fields fs) (fs_heap fs);
  fs_laws_canonical : fs_canonical fs = true -> fields_canonical (fs_fields fs);
  fs_laws_bounded : fs_bounded fs = true -> fields_bounded (fs_fields fs) (fs_wf fs);
}.

Record variants_laws (vs : variants_codec) : Prop := {
  vs_laws_total : variants_total (vs_variants vs) (vs_wf vs) (vs_hint vs);
  vs_laws_tracked : variants_tracked _ (vs_variants vs) (vs_heap vs);
  vs_laws_canonical : vs_canonical vs = true -> variants_canonical (vs_variants vs);
  vs_laws_bounded : vs_bounded vs = true -> variants_bounded (vs_variants vs) (vs_wf vs);
}.

(** A codec with no values of its own on the heap and no bound on its length. *)
Lemma unbounded_laws c :
  TotalCodec (c_encode c) (c_decode c) (c_wf c) (c_hint c) -> c_hint c <= isize_max ->
  MemTracked (c_decode c) (c_heap c) -> (c_canonical c = true -> Canonical (c_encode c) (c_decode c)) ->
  c_max_len c = None -> codec_laws c.
Proof. intros ???? Hn. split; [done|done|done|done|..]; intros n; rewrite Hn; done. Qed.

Lemma flat_laws T (E : Encode T) D wf hint max_len const acc :
  TotalCodec E D wf hint -> hint <= isize_max -> Canonical E D ->
  (forall n, max_len = Some n -> MaxEncodedLen E wf n) ->
  (const = true -> forall n, max_len = Some n -> ConstEncodedLen E wf n) ->
  codec_laws (flat_codec T E D wf hint max_len const acc).
Proof.
  intros HT Hh Hc Hm Hk. split; simpl; [done|done|by apply (flat_tracked D wf)|done|done|].
  intros n Hcon. by apply Hk.
Qed.

(** Types of a constant length. *)
Lemma const_flat_laws T (E : Encode T) D wf hint n acc :
  TotalCodec E D wf hint -> hint <= isize_max -> Canonical E D -> ConstEncodedLen E wf n ->
  codec_laws (flat_codec T E D wf hint (Some n) true acc).
Proof.
  intros HT Hh Hc Hk. apply flat_laws; [done|done|done|intros m [= <-]; by apply const_max|].
  intros _ m [= <-]. done.
Qed.

Lemma prim_hint p : Z.of_nat (prim_bytes p) <= isize_max.
Proof. pose proof isize_max_ge. destruct p; simpl; lia. Qed.

Lemma small_hint n : n <= 17 -> n <= isize_max.
Proof. pose proof isize_max_ge. lia. Qed.

Lemma prim_codec_ok p : codec_laws (prim_codec p).
Proof.
  split; simpl.
  - apply _.
  - apply prim_hint.
  - by apply (flat_tracked _ (in_range p)).
  - intros _. apply _.
  - intros n. destruct (is_float p); [done|]. intros [= <-]. apply const_max, _.
  - intros n. destruct (is_float p); [done|]. intros _ [= <-]. apply _.
Qed.

Context (H64 : usize_bits = 64).

Lemma string_codec_ok : codec_laws string_codec.
Proof.
  apply unbounded_laws; [by apply string_total|by apply byte_seq_hint|apply string_tracked|intros _; by apply string_canonical|done].
Qed.

Section one.
Context (c : codec) (laws : codec_laws c).

#[local] Instance c_total : TotalCodec (c_encode c) (c_decode c) (c_wf c) (c_hint c) := laws_total c laws.
#[local] Instance c_tracked : MemTracked (c_decode c) (c_heap c) := laws_tracked c laws.
#[local] Instance c_decode_laws : DecodeLaws (c_decode c) (c_wf c) := codec_decode (E := c_encode c).

Lemma vec_accepted : c_accepted (vec_codec c) = true ->
  c_accepted c = true /\ vec_fits (D_size_of (c_decode c)) /\ seq_hint (E_size_of (c_encode c)) <= isize_max.
Proof. simpl. intros Ha. bool_to_prop. split_and!; [done|by apply vec_fits_64|done]. Qed.

Lemma vec_codec_ok : c_accepted (vec_codec c) = true -> codec_laws (vec_codec c).
Proof.
  intros (_ & Hf & Hh)%vec_accepted. apply unbounded_laws; simpl; [|done| | |done].
  - by apply (vec_total _ _ _ (c_hint c)).
  - apply (vec_tracked (c_decode c) (c_wf c) (c_heap c)).
  - intros Hc. pose proof (laws_canonical c laws Hc). apply (vec_canonical (c_encode c) (c_decode c) (c_wf c) Hf).
Qed.

Lemma deque_codec_ok : c_accepted (deque_codec c) = true -> codec_laws (deque_codec c).
Proof.
  intros (_ & Hf & Hh)%vec_accepted. apply unbounded_laws; simpl; [|done| | |done].
  - by apply (vec_deque_total _ _ _ (c_hint c)).
  - apply (vec_deque_tracked (c_decode c) (c_wf c) (c_heap c)).
  - intros Hc. pose proof (laws_canonical c laws Hc). apply (vec_deque_canonical (c_encode c) (c_decode c) (c_wf c) Hf).
Qed.

Lemma linked_list_codec_ok node_size : c_accepted (linked_list_codec node_size c) = true ->
  codec_laws (linked_list_codec node_size c).
Proof.
  simpl. intros Ha. bool_to_prop. apply unbounded_laws; simpl; [|done| | |done].
  - by apply (linked_list_total _ _ _ (c_hint c)).
  - by apply (linked_list_tracked (c_decode c) (c_heap c)).
  - intros Hc. pose proof (laws_canonical c laws Hc). apply (linked_list_canonical (c_encode c) (c_decode c)).
Qed.

Lemma binary_heap_codec_ok ord : c_accepted (binary_heap_codec c ord) = true -> codec_laws (binary_heap_codec c ord).
Proof.
  intros (_ & Hf & Hh)%vec_accepted. apply unbounded_laws; simpl; [|done| |done|done].
  - by apply (binary_heap_total _ _ _ (c_hint c)).
  - apply (binary_heap_tracked (c_decode c) (c_wf c) (c_heap c)).
Qed.

Lemma btree_set_codec_ok leaf_size ord : c_accepted (btree_set_codec leaf_size c ord) = true ->
  codec_laws (btree_set_codec leaf_size c ord).
Proof.
  simpl. intros Ha. bool_to_prop. apply unbounded_laws; simpl; [|done| |done|done].
  - by apply (btree_set_total _ _ _ (c_hint c)).
  - by apply (btree_set_tracked leaf_size (c_decode c) (c_wf c) (c_heap c)).
Qed.

Lemma array_codec_ok N : c_accepted (array_codec N c) = true -> codec_laws (array_codec N c).
Proof.
  simpl. intros Ha. bool_to_prop. split; simpl.
  - apply (array_total _ _ _ (c_hint c)); [done|apply _].
  - done.
  - apply (array_tracked (c_decode c) (c_wf c) (c_heap c)).
  - intros Hc. pose proof (laws_canonical c laws Hc). by apply (array_canonical (c_encode c) (c_decode c) (c_wf c)).
  - intros n (m & Hm & ->)%fmap_Some. pose proof (laws_max c laws m Hm). apply _.
  - intros n Hc (m & Hm & ->)%fmap_Some. pose proof (laws_const c laws m Hc Hm). apply _.
Qed.

Lemma option_codec_ok size_of : c_accepted (option_codec size_of c) = true -> codec_laws (option_codec size_of c).
Proof.
  simpl. intros Ha. bool_to_prop. split; simpl.
  - apply option_total; [done|done|apply _].
  - done.
  - apply (option_tracked (c_decode c) (c_heap c)).
  - intros Hc. pose proof (laws_canonical c laws Hc). by apply (option_canonical (c_encode c) (c_decode c)).
  - intros n (m & Hm & ->)%fmap_Some. pose proof (laws_max c laws m Hm). apply _.
  - done.
Qed.

Lemma box_codec_ok : codec_laws (box_codec c).
Proof.
  split; simpl.
  - apply box_total, _.
  - apply laws.
  - apply (box_tracked (c_decode c) (c_wf c) (c_heap c)).
  - intros Hc. pose proof (laws_canonical c laws Hc). by apply (box_canonical (c_encode c) (c_decode c) (c_wf c)).
  - intros n (m & Hm & ->)%fmap_Some. pose proof (laws_max c laws m Hm). apply _.
  - intros n Hc (m & Hm & ->)%fmap_Some. pose proof (laws_const c laws m Hc Hm). apply _.
Qed.

Lemma cow_codec_ok size_of : c_accepted (cow_codec size_of c) = true -> codec_laws (cow_codec size_of c).
Proof.
  simpl. intros Ha. bool_to_prop. apply unbounded_laws; simpl; [|apply laws| | |done].
  - apply cow_total; [done|apply _].
  - apply (cow_tracked (c_decode c) (c_heap c)).
  - intros Hc. pose proof (laws_canonical c laws Hc). by apply (cow_canonical (c_encode c) (c_decode c)).
Qed.

Lemma rc_codec_ok atomic : codec_laws (rc_codec atomic c).
Proof.
  split; simpl.
  - apply rc_total, _.
  - apply laws.
  - apply (rc_tracked (c_decode c) (c_wf c) (c_heap c)).
  - intros Hc. pose proof (laws_canonical c laws Hc). by apply (rc_canonical (c_encode c) (c_decode c) (c_wf c)).
  - destruct atomic; [|done]. intros n (m & Hm & ->)%fmap_Some. pose proof (laws_max c laws m Hm). apply _.
  - done.
Qed.

Lemma range_hints : 2 * c_hint c <= isize_max -> forall x, c_wf c x ->
  exists h, size_hint (c_encode c) x = Done h /\ 2 * h <= isize_max.
Proof. intros Hh x Hx. destruct (encodable_hint x Hx I) as (h & ? & ?). exists h. split; [done|lia]. Qed.

Lemma range_codec_ok size_of : c_accepted (range_codec size_of c) = true -> codec_laws (range_codec size_of c).
Proof.
  simpl. unfold range_accepted. intros Ha. bool_to_prop. split; simpl.
  - by apply (range_total _ _ _ (c_hint c)); [done..|apply _].
  - done.
  - apply (range_tracked (c_decode c) (c_heap c)).
  - intros Hc. pose proof (laws_canonical c laws Hc).
    apply (range_canonical (c_encode c) (c_decode c) (c_wf c) size_of). by apply range_hints.
  - intros n (m & Hm & ->)%fmap_Some. pose proof (laws_max c laws m Hm). apply _.
  - intros n Hc (m & Hm & ->)%fmap_Some. pose proof (laws_const c laws m Hc Hm). apply _.
Qed.

Lemma range_inclusive_codec_ok size_of : c_accepted (range_inclusive_codec size_of c) = true ->
  codec_laws (range_inclusive_codec size_of c).
Proof.
  simpl. unfold range_accepted. intros Ha. bool_to_prop. split; simpl.
  - by apply (range_inclusive_total _ _ _ (c_hint c)); [done..|apply _].
  - done.
  - apply (range_inclusive_tracked (c_decode c) (c_heap c)).
  - intros Hc. pose proof (laws_canonical c laws Hc).
    apply (range_inclusive_canonical (c_encode c) (c_decode c) (c_wf c) size_of). by apply range_hints.
  - intros n (m & Hm & ->)%fmap_Some. pose proof (laws_max c laws m Hm) as HM.
    pose proof (range_inclusive_len_bound (c_encode c) (c_wf c) m size_of) as HR.
    split; [apply HR|]. intros x bs (? & ? & _). by apply HR.
  - intros n Hc (m & Hm & ->)%fmap_Some. pose proof (laws_const c laws m Hc Hm) as HM.
    pose proof (range_inclusive_const_len (c_encode c) (c_wf c) m size_of) as HR.
    split; [apply HR|]. intros x bs (? & ? & _). by apply HR.
Qed.

Lemma one_component_ok : components_laws (one_component c).
Proof.
  split; simpl.
  - by constructor; apply laws.
  - constructor. apply laws.
  - intros Hc. constructor. by apply laws.
  - intros ns (m & Hm & ->)%fmap_Some. constructor. by apply laws.
  - intros ns Hc (m & Hm & ->)%fmap_Some. constructor. by apply laws.
Qed.

Lemma more_components_ok cs : components_laws cs -> components_laws (more_components c cs).
Proof.
  intros Hcs. split; simpl.
  - constructor; [apply laws|apply Hcs].
  - constructor; [apply laws|apply Hcs].
  - intros Hc. bool_to_prop. constructor; [by apply laws|by apply Hcs].
  - intros ns (m & Hm & (ms & Hms & [= <-])%bind_Some)%bind_Some. constructor; [by apply laws|by apply Hcs].
  - intros ns Hc (m & Hm & (ms & Hms & [= <-])%bind_Some)%bind_Some. bool_to_prop.
    constructor; [by apply laws|by apply Hcs].
Qed.

Lemma plain_field_ok name fs : fields_laws fs -> fields_laws (plain_field name c fs).
Proof.
  intros Hfs. split; simpl.
  - apply fields_total_cons; [apply _|apply Hfs].
  - constructor; [|apply Hfs]. split; [apply heap_nonneg|apply laws].
  - intros Hc. bool_to_prop. split; [by apply laws|by apply Hfs].
  - intros Hb. bool_to_prop. apply fields_bounded_cons; [|by apply Hfs].
    destruct (c_max_len c) as [n|] eqn:Hn; [|done]. by apply (laws_max c laws).
Qed.
End one.

Lemma btree_map_codec_ok pair_size leaf_size k ord v : codec_laws k -> codec_laws v ->
  c_accepted (btree_map_codec pair_size leaf_size k ord v) = true ->
  codec_laws (btree_map_codec pair_size leaf_size k ord v).
Proof.
  intros Hk Hv. simpl. intros Ha. bool_to_prop. pose proof (laws_total k Hk). pose proof (laws_total v Hv).
  pose proof (laws_tracked k Hk). pose proof (laws_tracked v Hv).
  assert (DecodeLaws (c_decode k) (c_wf k)) by apply (codec_decode (E := c_encode k)).
  apply unbounded_laws; simpl; [|done| |done|done].
  - by apply (btree_map_total _ _ _ (c_hint k) _ _ _ (c_hint v)).
  - by apply (btree_map_tracked pair_size leaf_size (c_decode k) (c_decode v) (c_wf k) (c_heap k) (c_heap v)).
Qed.

Lemma result_codec_ok size_of c d : codec_laws c -> codec_laws d ->
  c_accepted (result_codec size_of c d) = true -> codec_laws (result_codec size_of c d).
Proof.
  intros Hc Hd. simpl. intros Ha. bool_to_prop. split; simpl.
  - by apply result_total; [done|done|apply laws_total..].
  - done.
  - pose proof (laws_tracked c Hc). pose proof (laws_tracked d Hd). apply (result_tracked (c_decode c) (c_heap c)), _.
  - intros Hcan. bool_to_prop. pose proof (laws_canonical c Hc). pose proof (laws_canonical d Hd).
    by apply (result_canonical (c_encode c) (c_encode d) (c_decode c) (c_decode d)); auto.
  - intros n (m & Hm & (k & Hk & [= <-])%bind_Some)%bind_Some.
    pose proof (laws_max c Hc m Hm). pose proof (laws_max d Hd k Hk). apply _.
  - done.
Qed.

Lemma tuple_codec_ok size_of cs : components_laws cs ->
  c_accepted (tuple_codec size_of cs) = true -> codec_laws (tuple_codec size_of cs).
Proof.
  intros Hcs. simpl. intros Ha. bool_to_prop. split; simpl.
  - by apply tuple_impl_total; [apply Hcs|..].
  - done.
  - apply tuple_impl_tracked, Hcs.
  - intros Hc. by apply tuple_impl_canonical, Hcs.
  - intros n (ns & Hns & ->)%fmap_Some. by apply tuple_impl_max_len, Hcs.
  - intros n Hc (ns & Hns & ->)%fmap_Some. by apply tuple_impl_const_len, Hcs.
Qed.

Lemma no_fields_ok : fields_laws no_fields.
Proof. split; simpl; [apply fields_total_nil|constructor|done|constructor]. Qed.

Lemma compact_field_ok name c fs : fields_laws fs -> fields_laws (compact_field name c fs).
Proof.
  intros Hfs. split; simpl.
  - apply fields_total_compact; [apply _|apply Hfs].
  - constructor; [|apply Hfs]. split; [done|]. exists (fun _ => 0). split; [|done].
    apply (flat_tracked _ (in_range (compact_prim c))).
  - intros Hc. split; [|by apply Hfs]. apply (compact_canonical c).
  - intros Hb. apply fields_bounded_cons; [|by apply Hfs]. apply (compact_len_bound c).
Qed.

Lemma encoded_as_field_ok name c fs : fields_laws fs -> fields_laws (encoded_as_field name c fs).
Proof.
  intros Hfs. split; simpl.
  - apply fields_total_encoded_as; [apply _|apply Hfs].
  - constructor; [|apply Hfs]. split; [done|]. exists (fun _ => 0). split; [|done].
    apply (flat_tracked _ (in_range (compact_prim c))).
  - intros Hc. split; [|by apply Hfs]. apply (compact_canonical c).
  - done.
Qed.

Lemma skipped_field_ok name p fs : fields_laws fs -> fields_laws (skipped_field name p fs).
Proof.
  intros Hfs. split; simpl.
  - apply fields_total_skip, Hfs.
  - by constructor; [|apply Hfs].
  - intros Hc. split; [done|by apply Hfs].
  - intros Hb. by apply (fields_bounded_cons _ _ _ _ (fun x => x = 0)); [|apply Hfs].
Qed.

Lemma struct_codec_ok size_of name named fs : fields_laws fs ->
  c_accepted (struct_codec size_of name named fs) = true -> codec_laws (struct_codec size_of name named fs).
Proof.
  intros Hfs. simpl. intros Ha. bool_to_prop. pose proof (fs_laws_total fs Hfs) as HT. split; simpl.
  - by apply struct_total.
  - done.
  - apply struct_tracked, Hfs.
  - intros Hc. apply (struct_canonical _ _ _ _ _ (fs_wf fs)); [apply HT|by apply Hfs].
  - intros n. destruct (fs_bounded fs) eqn:Hb; [|done]. intros [= <-].
    apply struct_len_bound; [apply HT|by apply Hfs].
  - done.
Qed.

Lemma no_variants_ok : variants_laws no_variants.
Proof. split; simpl; [apply variants_total_nil|constructor|done|constructor]. Qed.

Lemma more_variants_ok name skip index discriminant named fs vs : fields_laws fs -> variants_laws vs ->
  variants_laws (more_variants name skip index discriminant named fs vs).
Proof.
  intros Hfs Hvs. split; simpl.
  - apply (variants_total_cons (mkVariant name skip index discriminant named (fs_fields fs))); [apply Hfs|apply Hvs].
  - apply (variants_tracked_cons _ _ (mkVariant name skip index discriminant named (fs_fields fs))); [apply Hfs|apply Hvs].
  - intros Hc. bool_to_prop. split; [by apply Hfs|by apply Hvs].
  - intros Hb. bool_to_prop. constructor; [by apply Hfs|by apply Hvs].
Qed.

Lemma enum_codec_ok size_of name vs : variants_laws vs ->
  c_accepted (enum_codec size_of name vs) = true -> codec_laws (enum_codec size_of name vs).
Proof.
  intros Hvs. simpl. intros Ha. bool_to_prop.
  match goal with Hd : bool_decide _ = true |- _ => apply bool_decide_eq_true in Hd end. split; simpl.
  - by apply enum_total; [..|apply Hvs].
  - done.
  - apply enum_tracked, Hvs.
  - intros Hc. by apply enum_canonical, Hvs.
  - intros n. destruct (vs_bounded vs) eqn:Hb; [|done]. intros [= <-]. by apply enum_len_bound, Hvs.
  - done.
Qed.

Lemma bitvec_codec_ok p : c_accepted (bitvec_codec p) = true -> codec_laws (bitvec_codec p).
Proof.
  simpl. intros Hp. assert (vec_fits (D_size_of (prim_decode p))) as Hf by (apply vec_fits_64; [done|by destruct p]).
  pose proof (uint_store_laws Msb0 p). pose proof (flat_tracked (prim_decode p) (in_range p)).
  apply unbounded_laws; [|simpl; pose proof isize_max_ge; lia| |done|done].
  - apply (bitvec_total (prim_encode p) (prim_decode p) (in_range p) (Z.of_nat (prim_bytes p))); [apply _|done|].
    intros bits. apply msb0_range. by destruct p.
  - exact (bitvec_tracked (H0 := uint_store Msb0 p) (prim_decode p) (in_range p) (fun _ => 0) Hf).
Qed.

Lemma key_codec_ok k : c_accepted (key_codec k) = true -> codec_laws (key_codec k).
Proof.
  destruct k as [p| |]; intros Ha; [|apply string_codec_ok|apply vec_codec_ok; [apply prim_codec_ok|done]].
  apply const_flat_laws; [apply _|apply prim_hint|apply _|apply _].
Qed.

(** ** Every type *)

Scheme ty_mut := Induction for ty Sort Prop
  with ty_components_mut := Induction for ty_components Sort Prop
  with ty_fields_mut := Induction for ty_fields Sort Prop
  with ty_variants_mut := Induction for ty_variants Sort Prop.
Combined Scheme ty_mutind from ty_mut, ty_components_mut, ty_fields_mut, ty_variants_mut.

(** An accepted container has accepted items. *)
Ltac accepted_items :=
  intros; repeat match goal with
  | IH : _ = true -> codec_laws ?c |- _ =>
      assert (codec_laws c) by (apply IH; simpl in *; unfold range_accepted in *; bool_to_prop; done); clear IH
  | IH : _ = true -> components_laws ?c |- _ =>
      assert (components_laws c) by (apply IH; simpl in *; bool_to_prop; done); clear IH
  | IH : _ = true -> fields_laws ?c |- _ =>
      assert (fields_laws c) by (apply IH; simpl in *; bool_to_prop; done); clear IH
  | IH : _ = true -> variants_laws ?c |- _ =>
      assert (variants_laws c) by (apply IH; simpl in *; bool_to_prop; done); clear IH
  end.

Lemma universe_laws :
  (forall t, accepted t = true -> codec_laws (codec_of t)) /\
  (forall ts, cs_accepted (components_of ts) = true -> components_laws (components_of ts)) /\
  (forall fs, fs_accepted (fields_of fs) = true -> fields_laws (fields_of fs)) /\
  (forall vs, vs_accepted (variants_of vs) = true -> variants_laws (variants_of vs)).
Proof.
  unfold accepted. apply ty_mutind; cbn [codec_of components_of fields_of variants_of]; accepted_items;
    try (apply const_flat_laws; [split; apply _|first [apply prim_hint|by apply small_hint]|apply _|apply _]).
  - apply prim_codec_ok.
  - apply flat_laws; [split; apply _|by apply small_hint|apply _|done|done].
  - apply const_flat_laws; [split; apply _|by apply small_hint|apply _|].
    split; [done|]. by intros [] bs _ [= <-].
  - apply flat_laws; [apply _|apply small_hint; by destruct c|apply _|intros n [= <-]; apply _|done].
  - apply const_flat_laws; [apply _|by apply small_hint|apply _|by apply duration_const_len, duration_max_len_12].
  - apply string_codec_ok.
  - by apply bitvec_codec_ok.
  - by apply vec_codec_ok.
  - by apply deque_codec_ok.
  - by apply linked_list_codec_ok.
  - apply binary_heap_codec_ok; [|done]. apply key_codec_ok. simpl in *. by bool_to_prop.
  - apply btree_set_codec_ok; [|done]. apply key_codec_ok. simpl in *. by bool_to_prop.
  - apply btree_map_codec_ok; [|done|done]. apply key_codec_ok. simpl in *. by bool_to_prop.
  - by apply array_codec_ok.
  - by apply option_codec_ok.
  - by apply result_codec_ok.
  - by apply box_codec_ok.
  - by apply cow_codec_ok.
  - by apply rc_codec_ok.
  - by apply rc_codec_ok.
  - by apply range_codec_ok.
  - by apply range_inclusive_codec_ok.
  - by apply tuple_codec_ok.
  - by apply struct_codec_ok.
  - by apply enum_codec_ok.
  - by apply one_component_ok.
  - by apply more_components_ok.
  - apply no_fields_ok.
  - by apply plain_field_ok.
  - by apply compact_field_ok.
  - by apply encoded_as_field_ok.
  - by apply skipped_field_ok.
  - apply no_variants_ok.
  - by apply more_variants_ok.
Qed.
End theory.
