(* ===== verification/TypedValues.v ===== *)
(** * Values of the universe of types

    Three functions on the values of a type of [Universe], by recursion on its
    syntax.  [shaped] says which elements of the model are values of the Rust type at
    all: numbers in range, valid strings, sorted maps, and so on, with no bound on the
    length of anything and with any value in a skipped field.  [countable] is the
    condition the length prefixes impose: no collection has more than [u32::MAX]
    items.  [rc_count] counts the allocations of [Rc] and [Arc], each of which holds two
    counters that no decoder announces.

    [typed_writable]: for a type whose size hints are bounded, [countable] is the exact
    condition for the encoder of the type not to panic. *)

From S2P Require Import Prelude Ints Errors Input Discipline Output Traits Primitives Compact.
From S2P Require Import CompactTheory Sequences SequencesTheory Composite Collections Heap BitVec Limits Footprint.
From S2P Require Import MaxLen Derive DeriveTheory EncodeTotal Reencode Fuzzer FuzzerTheory TrackedTypes Tuples.
From S2P Require Import Universe UniverseTheory.

Section values.
Context `{Target}.

(** ** Values of a type *)

Definition key_shaped (k : key) : c_type (key_codec k) -> Prop :=
  match k with
  | KPrim p => in_range p
  | KString => string_wf
  | KBytes => Forall (in_range U8)
  end.

Definition cow_shaped {T} (P : T -> Prop) (x : Cow T T) : Prop := P (cow_deref id x).

Fixpoint shaped (t : ty) : value_of t -> Prop :=
  match t return value_of t -> Prop with
  | TPrim p => in_range p
  | TNonZero p => non_zero_range p
  | TBool => fun _ => True
  | TOptionBool => fun _ => True
  | TUnit => fun _ => True
  | TPhantomData => fun _ => True
  | TCompact c => in_range (compact_prim c)
  | TDuration => duration_wf
  | TString => string_wf
  | TBitVec p => fun _ => True
  | TVec t => Forall (shaped t)
  | TVecDeque t => deque_wf (shaped t)
  | TLinkedList _ t => Forall (shaped t)
  | TBinaryHeap k => @heap_wf _ (key_ord k) (key_shaped k)
  | TBTreeSet _ k => @set_wf _ (key_ord k) (key_shaped k)
  | TBTreeMap _ _ k t => @map_wf _ _ (key_ord k) (key_shaped k) (shaped t)
  | TArray N t => array_wf (shaped t) N
  | TOption _ t => option_wf (shaped t)
  | TResult _ t e => result_wf (shaped t) (shaped e)
  | TBox t => shaped t
  | TCow _ t => cow_shaped (shaped t)
  | TRc t => shaped t
  | TArc t => shaped t
  | TRange _ t => fun r => shaped t (start r) /\ shaped t (end_ r)
  | TRangeInclusive _ t => fun r => shaped t (ri_start r) /\ shaped t (ri_end r)
  | TTuple _ ts => shaped_components ts
  | TStruct _ _ _ fs => shaped_fields fs
  | TEnum _ _ vs => shaped_variants vs
  end
with shaped_components (ts : ty_components) : cs_type (components_of ts) -> Prop :=
  match ts return cs_type (components_of ts) -> Prop with
  | COne t => shaped t
  | CMore t ts => tuple_wf (shaped t) (shaped_components ts)
  end
with shaped_fields (fs : ty_fields) : fs_type (fields_of fs) -> Prop :=
  match fs return fs_type (fields_of fs) -> Prop with
  | FsNil => fun _ => True
  | FsPlain _ t fs => fun x => shaped t x.1 /\ shaped_fields fs x.2
  | FsCompact _ c fs => fun x => in_range (compact_prim c) x.1 /\ shaped_fields fs x.2
  | FsEncodedAs _ c fs => fun x => in_range (compact_prim c) x.1 /\ shaped_fields fs x.2
  | FsSkip _ p fs => fun x => in_range p x.1 /\ shaped_fields fs x.2
  end
with shaped_variants (vs : ty_variants) : vs_type (variants_of vs) -> Prop :=
  match vs return vs_type (variants_of vs) -> Prop with
  | VsNil => fun _ => True
  | VsCons _ skip _ _ _ fs vs => fun x =>
      match x with inl a => skip = false /\ shaped_fields fs a | inr r => shaped_variants vs r end
  end.

(** ** Length prefixes *)

Definition key_countable (k : key) : c_type (key_codec k) -> Prop :=
  match k with
  | KPrim _ => always
  | KString => fun s => zlen s <= prim_max U32
  | KBytes => seq_ok always
  end.

Fixpoint countable (t : ty) : value_of t -> Prop :=
  match t return value_of t -> Prop with
  | TPrim _ => always
  | TNonZero _ => always
  | TBool => always
  | TOptionBool => always
  | TUnit => always
  | TPhantomData => always
  | TCompact _ => always
  | TDuration => always
  | TString => fun s => zlen s <= prim_max U32
  | TBitVec _ => fun bits => zlen bits <= ARCH32BIT_BITSLICE_MAX_BITS
  | TVec t => seq_ok (countable t)
  | TVecDeque t => deque_ok (countable t)
  | TLinkedList _ t => seq_ok (countable t)
  | TBinaryHeap k => seq_ok (key_countable k)
  | TBTreeSet _ k => seq_ok (key_countable k)
  | TBTreeMap _ _ k t => seq_ok (tuple_ok (key_countable k) (countable t))
  | TArray _ t => Forall (countable t)
  | TOption _ t => option_ok (countable t)
  | TResult _ t e => result_ok (countable t) (countable e)
  | TBox t => countable t
  | TCow _ t => cow_shaped (countable t)
  | TRc t => countable t
  | TArc t => countable t
  | TRange _ t => fun r => countable t (start r) /\ countable t (end_ r)
  | TRangeInclusive _ t => fun r => countable t (ri_start r) /\ countable t (ri_end r)
  | TTuple _ ts => countable_components ts
  | TStruct _ _ _ fs => countable_fields fs
  | TEnum _ _ vs => countable_variants vs
  end
with countable_components (ts : ty_components) : cs_type (components_of ts) -> Prop :=
  match ts return cs_type (components_of ts) -> Prop with
  | COne t => countable t
  | CMore t ts => tuple_ok (countable t) (countable_components ts)
  end
with countable_fields (fs : ty_fields) : fs_type (fields_of fs) -> Prop :=
  match fs return fs_type (fields_of fs) -> Prop with
  | FsNil => fun _ => True
  | FsPlain _ t fs => fun x => countable t x.1 /\ countable_fields fs x.2
  | FsCompact _ _ fs => fun x => always x.1 /\ countable_fields fs x.2
  | FsEncodedAs _ _ fs => fun x => always x.1 /\ countable_fields fs x.2
  | FsSkip _ _ fs => fun x => always x.1 /\ countable_fields fs x.2
  end
with countable_variants (vs : ty_variants) : vs_type (variants_of vs) -> Prop :=
  match vs return vs_type (variants_of vs) -> Prop with
  | VsNil => fun _ => True
  | VsCons _ _ _ _ _ fs vs => fun x =>
      match x with inl a => countable_fields fs a | inr r => countable_variants vs r end
  end.

(** ** Reference counts *)

Fixpoint rc_count (t : ty) : value_of t -> Z :=
  match t return value_of t -> Z with
  | TPrim _ | TNonZero _ | TBool | TOptionBool | TUnit | TPhantomData | TCompact _ | TDuration | TString
  | TBitVec _ | TBinaryHeap _ | TBTreeSet _ _ => fun _ => 0
  | TVec t => heap_sum (rc_count t)
  | TVecDeque t => fun d => heap_sum (rc_count t) (deque_items d)
  | TLinkedList _ t => heap_sum (rc_count t)
  | TBTreeMap _ _ _ t => heap_sum (fun e => rc_count t e.2)
  | TArray _ t => heap_sum (rc_count t)
  | TOption _ t => option_heap (rc_count t)
  | TResult _ t e => result_heap (rc_count t) (rc_count e)
  | TBox t => rc_count t
  | TCow _ t => fun x => match x with Owned o => rc_count t o | Borrowed _ => 0 end
  | TRc t => fun x => 1 + rc_count t x
  | TArc t => fun x => 1 + rc_count t x
  | TRange _ t => fun r => rc_count t (start r) + rc_count t (end_ r)
  | TRangeInclusive _ t => fun r => rc_count t (ri_start r) + rc_count t (ri_end r)
  | TTuple _ ts => rc_count_components ts
  | TStruct _ _ _ fs => rc_count_fields fs
  | TEnum _ _ vs => rc_count_variants vs
  end
with rc_count_components (ts : ty_components) : cs_type (components_of ts) -> Z :=
  match ts return cs_type (components_of ts) -> Z with
  | COne t => rc_count t
  | CMore t ts => pair_heap (rc_count t) (rc_count_components ts)
  end
with rc_count_fields (fs : ty_fields) : fs_type (fields_of fs) -> Z :=
  match fs return fs_type (fields_of fs) -> Z with
  | FsNil => fun _ => 0
  | FsPlain _ t fs => pair_heap (rc_count t) (rc_count_fields fs)
  | FsCompact _ _ fs => fun x => rc_count_fields fs x.2
  | FsEncodedAs _ _ fs => fun x => rc_count_fields fs x.2
  | FsSkip _ _ fs => fun x => rc_count_fields fs x.2
  end
with rc_count_variants (vs : ty_variants) : vs_type (variants_of vs) -> Z :=
  match vs return vs_type (variants_of vs) -> Z with
  | VsNil => fun _ => 0
  | VsCons _ _ _ _ _ fs vs => fun x =>
      match x with inl a => rc_count_fields fs a | inr r => rc_count_variants vs r end
  end.

(** The memory a value owns on the heap: what [c_heap] counts and the strong and the
    weak counter of each [Rc] and [Arc]. *)
Definition owned_memory (t : ty) (x : value_of t) : Z :=
  c_heap (codec_of t) x + words 2 * rc_count t x.

(** A type without [Rc] and [Arc]. *)
Fixpoint rc_free (t : ty) : bool :=
  match t with
  | TPrim _ | TNonZero _ | TBool | TOptionBool | TUnit | TPhantomData | TCompact _ | TDuration | TString
  | TBitVec _ | TBinaryHeap _ | TBTreeSet _ _ => true
  | TVec t | TVecDeque t | TLinkedList _ t | TBTreeMap _ _ _ t | TArray _ t | TOption _ t | TBox t | TCow _ t
  | TRange _ t | TRangeInclusive _ t => rc_free t
  | TResult _ t e => rc_free t && rc_free e
  | TRc _ | TArc _ => false
  | TTuple _ ts => rc_free_components ts
  | TStruct _ _ _ fs => rc_free_fields fs
  | TEnum _ _ vs => rc_free_variants vs
  end
with rc_free_components (ts : ty_components) : bool :=
  match ts with
  | COne t => rc_free t
  | CMore t ts => rc_free t && rc_free_components ts
  end
with rc_free_fields (fs : ty_fields) : bool :=
  match fs with
  | FsNil => true
  | FsPlain _ t fs => rc_free t && rc_free_fields fs
  | FsCompact _ _ fs | FsEncodedAs _ _ fs | FsSkip _ _ fs => rc_free_fields fs
  end
with rc_free_variants (vs : ty_variants) : bool :=
  match vs with
  | VsNil => true
  | VsCons _ _ _ _ _ fs vs => rc_free_fields fs && rc_free_variants vs
  end.

Lemma heap_sum_zero {T} (f : T -> Z) l : (forall x, f x = 0) -> heap_sum f l = 0.
Proof. intros Hf. induction l as [|x l IH]; simpl; [done|]. rewrite Hf, IH. done. Qed.

Lemma rc_free_count :
  (forall t, rc_free t = true -> forall x, rc_count t x = 0) /\
  (forall ts, rc_free_components ts = true -> forall x, rc_count_components ts x = 0) /\
  (forall fs, rc_free_fields fs = true -> forall x, rc_count_fields fs x = 0) /\
  (forall vs, rc_free_variants vs = true -> forall x, rc_count_variants vs x = 0).
Proof.
  apply ty_mutind; intros; cbn in *; bool_to_prop; try done;
    repeat match goal with IH : _ = true -> forall x, _ = 0 |- _ => specialize (IH ltac:(done)) end;
    try (apply heap_sum_zero; auto); try (by destruct x; simpl; auto);
    unfold pair_heap; repeat match goal with IH : forall x, _ = 0 |- _ => rewrite IH end; done.
Qed.

(** ** The values of [well_typed] *)

Lemma zero_in_range p : in_range p 0.
Proof. by destruct p. Qed.

Lemma seq_values {T} (P Q R : T -> Prop) l :
  (forall x, P x -> Q x /\ R x) -> seq_wf P l -> Forall Q l /\ seq_ok R l.
Proof.
  intros HP [Hl Hn]. split; [|split; [done|]]; (eapply Forall_impl; [exact Hl|]); intros x Hx; by apply HP.
Qed.

Lemma key_well_typed k x : c_wf (key_codec k) x -> key_shaped k x /\ key_countable k x.
Proof.
  destruct k; simpl; [by intros Hx; split|done|]. intros [Hl Hn]. split; [done|]. split; [done|by apply Forall_true].
Qed.

(** Values the other theorems speak about are values of the type, and they are
    countable. *)
Lemma well_typed_values :
  (forall t x, well_typed t x -> shaped t x /\ countable t x) /\
  (forall ts x, cs_wf (components_of ts) x -> shaped_components ts x /\ countable_components ts x) /\
  (forall fs x, fs_wf (fields_of fs) x -> shaped_fields fs x /\ countable_fields fs x) /\
  (forall vs x, vs_wf (variants_of vs) x -> shaped_variants vs x /\ countable_variants vs x).
Proof.
  unfold well_typed. pose proof (fun k x => key_well_typed k x) as Hkey.
  apply ty_mutind; cbn [codec_of components_of fields_of variants_of]; simpl; auto; try (by intros; split).
  - intros p x [Hx _]. done.
  - intros t IH x. by apply seq_values.
  - intros t IH [l r] [Hl Hr]. simpl in *. subst r. destruct (seq_values _ _ _ l IH Hl) as [Hs [Hn Hk]].
    split; [by split|]. split; [|by split]. unfold deque_len. cbn [fst snd]. rewrite zlen_nil, Z.add_0_r. done.
  - intros z t IH x. by apply seq_values.
  - intros k x [Hh Hx]. destruct (seq_values _ _ _ x (Hkey k) Hx). by split.
  - intros z k x [Hh Hx]. destruct (seq_values _ _ _ x (Hkey k) Hx). by split.
  - intros z z' k t IH x [Hh Hx].
    assert (forall e, tuple_wf (c_wf (key_codec k)) (c_wf (codec_of t)) e ->
      tuple_wf (key_shaped k) (shaped t) e /\ tuple_ok (key_countable k) (countable t) e) as He.
    { intros e [Ha Hb]. by destruct (Hkey k _ Ha), (IH _ Hb). }
    destruct (seq_values _ _ _ x He Hx). by split.
  - intros N t IH x [Hl Hn]. split; [split; [|done]|]; (eapply Forall_impl; [exact Hl|]); intros y Hy; by apply IH.
  - intros z t IH [x|] Hx; [by apply IH|done].
  - intros z t IH e IHe [x|x] Hx; [by apply IH|by apply IHe].
  - intros z t IH [b|o] Hx; [done|]. by apply IH.
  - intros z t IH r [Ha Hb]. destruct (IH _ Ha), (IH _ Hb). done.
  - intros z t IH r (Ha & Hb & _). destruct (IH _ Ha), (IH _ Hb). done.
  - intros t IH ts IHs x [Ha Hb]. destruct (IH _ Ha), (IHs _ Hb). done.
  - intros n t IH fs IHs x [Ha Hb]. destruct (IH _ Ha), (IHs _ Hb). done.
  - intros n c fs IHs x [Ha Hb]. destruct (IHs _ Hb). done.
  - intros n c fs IHs x [Ha Hb]. destruct (IHs _ Hb). done.
  - intros n p fs IHs [y x] [Ha Hb]. simpl in *. subst y. destruct (IHs _ Hb).
    by split; [split; [apply zero_in_range|]|].
  - intros n sk ix d nm fs IHf vs IHv [a|r]; [|apply IHv]. intros [Hsk Ha]. destruct (IHf _ Ha). done.
Qed.

(** ** When encoding panics *)

Record writable {T} (E : Encode T) (wf ok : T -> Prop) (n : Z) : Prop := {
  writable_laws : EncodeLaws E wf;
  writable_encodable : Encodable E wf ok n;
}.

Lemma flat_writable {T} (E : Encode T) (wf : T -> Prop) n :
  EncodeLaws E wf -> Encodable E wf always n -> writable E wf always n.
Proof. by split. Qed.

Lemma pointer_writable {T} (E : Encode T) wf ok n : writable E wf ok n -> writable (pointer_encode E) wf ok n.
Proof.
  intros [HL HE]. split; [by apply (impl_forward_laws _ id _ wf)|by apply pointer_encodable].
Qed.

Section containers.
Context {T : Type} (E : Encode T) (wf ok : T -> Prop) (n : Z) (items : writable E wf ok n).

#[local] Instance items_laws : EncodeLaws E wf := writable_laws _ _ _ _ items.
#[local] Instance items_encodable : Encodable E wf ok n := writable_encodable _ _ _ _ items.

Lemma vec_writable : seq_hint (E_size_of E) <= isize_max ->
  writable (vec_encode E) (Forall wf) (seq_ok ok) (seq_hint (E_size_of E)).
Proof. intros Hh. split; [apply _|]. by apply (vec_encodable E wf ok n). Qed.

Lemma deque_writable : seq_hint (E_size_of E) <= isize_max ->
  writable (vec_deque_encode E) (deque_wf wf) (deque_ok ok) (seq_hint (E_size_of E)).
Proof. intros Hh. split; [apply impl_encode_to_laws|]. by apply (vec_deque_encodable E wf ok n). Qed.

Lemma linked_list_writable : seq_hint (E_size_of E) <= isize_max ->
  writable (linked_list_encode E) (Forall wf) (seq_ok ok) (seq_hint (E_size_of E)).
Proof. intros Hh. split; [apply impl_encode_to_laws|]. apply (linked_list_encodable E wf ok n); [done|apply _]. Qed.

Lemma binary_heap_writable `{Ord T} : seq_hint (E_size_of E) <= isize_max ->
  writable (binary_heap_encode E) (heap_wf wf) (seq_ok ok) (seq_hint (E_size_of E)).
Proof. intros Hh. split; [apply impl_encode_to_laws|]. apply (binary_heap_encodable E wf ok n); [done|apply _]. Qed.

Lemma btree_set_writable `{Ord T} : seq_hint (E_size_of E) <= isize_max ->
  writable (btree_set_encode E) (set_wf wf) (seq_ok ok) (seq_hint (E_size_of E)).
Proof. intros Hh. split; [apply impl_encode_to_laws|]. apply (btree_set_encodable E wf ok n); [done|apply _]. Qed.

Lemma array_writable N : E_size_of E * Z.of_nat N <= isize_max ->
  writable (array_encode E N) (array_wf wf N) (Forall ok) (E_size_of E * Z.of_nat N).
Proof. intros Hh. split; [apply impl_encode_to_laws|]. by apply (array_encodable E wf ok n). Qed.

Lemma option_writable size_of : 0 <= size_of -> n + 1 <= isize_max ->
  writable (option_encode size_of E) (option_wf wf) (option_ok ok) (n + 1).
Proof. intros Hs Hn. split; [apply impl_encode_to_laws|]. apply option_encodable; [done|done|apply _]. Qed.

Lemma cow_writable size_of : 0 <= size_of ->
  writable (cow_encode size_of id E) (cow_shaped wf) (cow_shaped ok) n.
Proof. intros Hs. split; [apply (impl_forward_laws _ _ _ wf); [apply _|done]|apply cow_encodable; [done|apply _]]. Qed.

Lemma range_writable size_of : 0 <= size_of -> 2 * n <= isize_max -> 2 * E_size_of E <= isize_max ->
  writable (range_encode size_of E) (fun r => wf (start r) /\ wf (end_ r))
    (fun r => ok (start r) /\ ok (end_ r)) (2 * E_size_of E).
Proof. intros Hs Hn Hz. split; [apply impl_encode_laws|]. apply (range_encodable E wf ok n); [done..|apply _]. Qed.

Lemma range_inclusive_writable size_of : 0 <= size_of -> 2 * n <= isize_max -> 2 * E_size_of E <= isize_max ->
  writable (range_inclusive_encode size_of E) (fun r => wf (ri_start r) /\ wf (ri_end r))
    (fun r => ok (ri_start r) /\ ok (ri_end r)) (2 * E_size_of E).
Proof. intros Hs Hn Hz. split; [apply impl_encode_laws|]. apply (range_inclusive_encodable E wf ok n); [done..|apply _]. Qed.
End containers.

Lemma result_writable {A B} (EA : Encode A) (EB : Encode B) wfA wfB okA okB n m size_of :
  0 <= size_of -> Z.max n m + 1 <= isize_max -> writable EA wfA okA n -> writable EB wfB okB m ->
  writable (result_encode size_of EA EB) (result_wf wfA wfB) (result_ok okA okB) (Z.max n m + 1).
Proof.
  intros Hs Hn HA HB. split; [apply impl_encode_to_laws|].
  by apply result_encodable; [done|done|apply writable_encodable..].
Qed.

Lemma btree_map_writable {K V} `{Ord K} (EK : Encode K) (EV : Encode V) wfK wfV okK okV n m size_of :
  0 <= size_of -> seq_hint size_of <= isize_max -> n + m <= isize_max ->
  writable EK wfK okK n -> writable EV wfV okV m ->
  writable (btree_map_encode size_of EK EV) (map_wf wfK wfV) (seq_ok (tuple_ok okK okV)) (seq_hint size_of).
Proof.
  intros Hs Hh Hn HK HV. split; [apply impl_encode_to_laws|].
  by apply (btree_map_encodable EK EV wfK wfV okK okV n m); [done..|apply HK|apply HV].
Qed.

Lemma bitvec_writable p : is_store p = true ->
  writable (msb0_encode p) (fun _ => True) (fun bits => zlen bits <= ARCH32BIT_BITSLICE_MAX_BITS) 0.
Proof.
  intros Hp. split; [apply impl_encode_to_laws|].
  apply (bitvec_encodable (H0 := uint_store Msb0 p) (prim_encode p) (in_range p) always (Z.of_nat (prim_bytes p)));
    [apply _|]. intros bits. split; [|done]. apply msb0_range. by destruct p.
Qed.

Context (H64 : usize_bits = 64).

Lemma key_writable k : c_accepted (key_codec k) = true ->
  writable (c_encode (key_codec k)) (key_shaped k) (key_countable k) (c_hint (key_codec k)).
Proof.
  destruct k as [p| |]; intros Ha; cbn [key_codec flat_codec string_codec vec_codec prim_codec c_encode c_hint key_shaped key_countable].
  - split; apply _.
  - split; [|by apply string_encodable]. apply (impl_forward_laws _ _ _ string_wf); [apply str_encode_laws|done].
  - split; [apply (vec_encode_laws (prim_encode U8) (in_range U8))|]. apply (vec_encodable (prim_encode U8) (in_range U8) always 1). by apply byte_seq_hint.
Qed.

Lemma compact_writable c : writable (compact_encode c) (in_range (compact_prim c)) always (compact_capacity c).
Proof. split; apply _. Qed.

(** A field that is encoded as another type, its representation being itself. *)
Lemma forward_field {F A} (f : field F) (E : Encode F) wf ok n (fs : fields A) wfs oks ns :
  field_encode f = Some (impl_forward (E_size_of E) id E) \/ field_encode f = Some E ->
  writable E wf ok n -> fields_encode_ok fs wfs -> fields_encodable fs wfs oks ns ->
  fields_encode_ok (FCons f fs) (fun x => wf x.1 /\ wfs x.2) /\
  fields_encodable (FCons f fs) (fun x => wf x.1 /\ wfs x.2) (fun x => ok x.1 /\ oks x.2) (n + ns).
Proof.
  intros Hf [HL HE] Hok He. pose proof (encodable_size (E := E)). split.
  - constructor; [|done]. intros E'. destruct Hf as [-> | ->]; intros [= <-]; [|done].
    by apply (impl_forward_laws _ _ _ wf).
  - constructor; [|done]. unfold field_encodable. destruct Hf as [-> | ->]; [|done].
    by apply (encodable_forward _ id E wf ok n).
Qed.

Lemma skipped_field_writes {F A} (f : field F) (wf : F -> Prop) (fs : fields A) wfs oks ns :
  field_encode f = None -> fields_encode_ok fs wfs -> fields_encodable fs wfs oks ns ->
  fields_encode_ok (FCons f fs) (fun x => wf x.1 /\ wfs x.2) /\
  fields_encodable (FCons f fs) (fun x => wf x.1 /\ wfs x.2) (fun x => always x.1 /\ oks x.2) (0 + ns).
Proof.
  intros Hf Hok He. split; (constructor; [|done]).
  - intros E. by rewrite Hf.
  - unfold field_encodable. by rewrite Hf.
Qed.

(** The parts of an accepted type are accepted, and its bounds hold. *)
Ltac accepted_parts :=
  intros; simpl in *; unfold range_accepted in *; bool_to_prop;
  repeat match goal with IH : ?a = true -> _, Ha : ?a = true |- _ => specialize (IH Ha) end.

(** The condition of [countable] is the only way for the encoder of an accepted type
    to panic. *)
Lemma typed_writable :
  (forall t, c_accepted (codec_of t) = true ->
     writable (c_encode (codec_of t)) (shaped t) (countable t) (c_hint (codec_of t))) /\
  (forall ts, cs_accepted (components_of ts) = true ->
     components_encodable (cs_components (components_of ts)) (shaped_components ts) (countable_components ts)
       (cs_hint (components_of ts))) /\
  (forall fs, fs_accepted (fields_of fs) = true ->
     fields_encode_ok (fs_fields (fields_of fs)) (shaped_fields fs) /\
     fields_encodable (fs_fields (fields_of fs)) (shaped_fields fs) (countable_fields fs) (fs_hint (fields_of fs))) /\
  (forall vs, vs_accepted (variants_of vs) = true ->
     variants_encodable (vs_variants (variants_of vs)) (shaped_variants vs) (countable_variants vs)
       (vs_hint (variants_of vs))).
Proof.
  apply ty_mutind.
  - intros p _. split; apply _.
  - intros p _. split; apply _.
  - split; apply _.
  - split; apply _.
  - split; apply _.
  - split; apply _.
  - intros c _. apply compact_writable.
  - split; apply _.
  - intros _. by apply (key_writable KString).
  - intros p Hp. by apply bitvec_writable.
  - accepted_parts. by apply (vec_writable _ _ _ (c_hint (codec_of t))).
  - accepted_parts. by apply (deque_writable _ _ _ (c_hint (codec_of t))).
  - accepted_parts. by apply (linked_list_writable _ _ _ (c_hint (codec_of t))).
  - intros k Ha. pose proof (key_writable k) as Hk. accepted_parts. by apply (binary_heap_writable _ _ _ (c_hint (key_codec k))).
  - intros z k Ha. pose proof (key_writable k) as Hk. accepted_parts. by apply (btree_set_writable _ _ _ (c_hint (key_codec k))).
  - intros z z' k t IH Ha. pose proof (key_writable k) as Hk. accepted_parts.
    by apply (btree_map_writable _ _ _ _ _ _ (c_hint (key_codec k)) (c_hint (codec_of t))).
  - accepted_parts. by apply (array_writable _ _ _ (c_hint (codec_of t))).
  - accepted_parts. by apply option_writable.
  - accepted_parts. by apply result_writable.
  - accepted_parts. by apply pointer_writable.
  - accepted_parts. by apply cow_writable.
  - accepted_parts. by apply pointer_writable.
  - accepted_parts. by apply pointer_writable.
  - accepted_parts. by apply (range_writable _ _ _ (c_hint (codec_of t))).
  - accepted_parts. by apply (range_inclusive_writable _ _ _ (c_hint (codec_of t))).
  - accepted_parts. split; [by eapply tuple_impl_encode_laws|by apply tuple_impl_encodable].
  - intros z nm b fs IH Ha. accepted_parts. destruct IH as [Hok He].
    split; [by apply struct_encode_laws|by apply struct_encodable].
  - accepted_parts. split; [apply enum_encode_laws|by apply enum_encodable].
  - accepted_parts. destruct H0. by constructor.
  - accepted_parts. destruct H0. by constructor.
  - intros _. split; constructor.
  - intros nm t IHt fs IH Ha. accepted_parts. destruct IH as [Hok He].
    apply (forward_field (mkField nm _ _ _) (c_encode (codec_of t))); [by right|done..].
  - intros nm c fs IH Ha. accepted_parts. destruct IH as [Hok He].
    apply (forward_field (mkField nm _ _ _) (compact_encode c)); [by left|apply compact_writable|done..].
  - intros nm c fs IH Ha. accepted_parts. destruct IH as [Hok He].
    apply (forward_field (mkField nm _ _ _) (compact_encode c)); [by left|apply compact_writable|done..].
  - intros nm p fs IH Ha. accepted_parts. destruct IH as [Hok He].
    by apply (skipped_field_writes (mkField nm _ _ _)).
  - intros _. constructor.
  - intros nm sk ix d b fs IHf vs IHv Ha. accepted_parts. destruct IHf as [_ He].
    by apply (variants_encodable_cons _ _ (mkVariant nm sk ix d b (fs_fields (fields_of fs)))).
Qed.
End values.
