(* ===== verification/TypedCodecs.v ===== *)
(** * Theorems about the types of the universe

    What holds of all the types of [Universe], whatever they are made of, on a 64-bit
    target: decoding is type-safe and total, encoding panics exactly on collections
    that are too long, the two are inverse to each other, values written one after the
    other are read back one after the other, a memory limit bounds what a value owns,
    and [max_encoded_len] bounds its encoding.  The theorems are about the types that
    [accepted] admits, and the values that [well_typed] admits; the header of
    [Universe] says what the two suppose. *)

From S2P Require Import Prelude Ints Errors Input Discipline Output Traits Primitives Compact.
From S2P Require Import CompactTheory Sequences SequencesTheory Composite Collections Heap BitVec Limits Footprint.
From S2P Require Import MaxLen Derive DeriveTheory EncodeTotal Reencode Fuzzer FuzzerTheory TrackedTypes Tuples.
From S2P Require Import Universe UniverseTheory TypedValues Append.

(** ** Streams of values *)

Section streams.
Context `{Target}.

(** A value together with its type. *)
Definition typed_value : Type := {t : ty & value_of t}.

Definition typed (v : typed_value) : Prop := accepted (projT1 v) = true /\ well_typed (projT1 v) (projT2 v).

(** [Vec::new().and(&v1).and(&v2) ..] *)
Fixpoint join_all (self : list byte) (vs : list typed_value) : outcome (list byte) :=
  match vs with
  | [] => Done self
  | v :: vs => self ← joiner_and (encode_of (projT1 v)) self (projT2 v); join_all self vs
  end.

(** [T1::decode(input)?], [T2::decode(input)?], .. *)
Fixpoint decode_each (ts : list ty) : dec (list typed_value) :=
  match ts with
  | [] => ok []
  | t :: ts => x ⇐ decode (decode_of t); vs ⇐ decode_each ts; ok (existT t x :: vs)
  end.

Context (H64 : usize_bits = 64).

Lemma typed_encode t x : accepted t = true -> well_typed t x ->
  exists bs, encode (encode_of t) x = Done bs /\ using_encoded (encode_of t) x = Done bs /\
    wbytes (encode_to (encode_of t) x) = Done bs.
Proof.
  intros Ha Hx. pose proof (proj1 (universe_laws H64) t Ha) as L. pose proof (laws_total _ L) as HT.
  destruct (encodable_encode _ _ _ _ x (codec_encode (D := decode_of t)) (total_encodable (D := decode_of t))
    (laws_hint _ L) Hx) as (_ & _ & Hall).
  by destruct (Hall I) as (bs & He & Hu & Hw); exists bs.
Qed.

Lemma typed_roundtrip t x bs rest : accepted t = true -> well_typed t x ->
  wbytes (encode_to (encode_of t) x) = Done bs -> run (decode (decode_of t)) (bs ++ rest) = Done (Ok x, rest).
Proof.
  intros Ha Hx Hb. pose proof (laws_total _ (proj1 (universe_laws H64) t Ha)) as HT.
  by apply (roundtrip (wf := well_typed t)).
Qed.

Lemma join_all_total vs self : Forall typed vs ->
  exists bs, join_all self vs = Done (self ++ bs) /\
    forall rest, run (decode_each (map (@projT1 _ _) vs)) (bs ++ rest) = Done (Ok vs, rest).
Proof.
  intros Hvs. revert self. induction Hvs as [|[t x] vs [Ha Hx] _ IH]; intros self.
  - exists []. rewrite app_nil_r. by split.
  - destruct (typed_encode t x Ha Hx) as (b & _ & Hu & Hw). destruct (IH (self ++ b)) as (bs & Hj & Hd).
    exists (b ++ bs). simpl. unfold joiner_and. rewrite Hu. simpl. rewrite Hj, (assoc (++)). split; [done|].
    intros rest. rewrite run_try_bind, <- (assoc (++)), (typed_roundtrip t x b _ Ha Hx Hw). simpl.
    rewrite run_try_bind, Hd. done.
Qed.
End streams.

Section theorems.
Context `{Target}.

(** C8: encoding panics only where it has to.  Let [t] be a type of the universe,
    accepted (so that the bound [c_hint] on the size hints, computed from the type, is
    at most [isize::MAX]), on a 64-bit target, and [x] a value of it, whatever its
    skipped fields, in a variant that is not skipped.  [encode] and [using_encoded]
    return exactly when no collection in the value has more than [u32::MAX] items (no
    bit vector more than the assertion of its encoder admits), and then both return
    the bytes that [encode_to] writes.  Every value [well_typed] admits is such a
    value. *)
Theorem encode_exact t x :
  usize_bits = 64 -> accepted t = true ->
  (shaped t x ->
     (countable t x <-> exists bs, encode (encode_of t) x = Done bs) /\
     (forall bs, encode (encode_of t) x = Done bs <-> using_encoded (encode_of t) x = Done bs) /\
     (forall bs, encode (encode_of t) x = Done bs <-> countable t x /\ wbytes (encode_to (encode_of t) x) = Done bs)) /\
  (well_typed t x -> shaped t x /\ countable t x).
Proof.
  intros H64 Ha. split; [|apply well_typed_values]. intros Hx. unfold encode_of, accepted in *.
  destruct (proj1 (typed_writable H64) t Ha) as [HL HE].
  pose proof (laws_hint _ (proj1 (universe_laws H64) t Ha)) as Hh.
  destruct (encodable_encode _ _ _ _ x HL HE Hh Hx) as (Henc & Huse & Hall).
  split_and!; [done|..]; intros bs; split.
  - intros Hb. destruct (Hall (proj2 Henc (ex_intro _ bs Hb))) as (bs' & He & Hu & _). congruence.
  - intros Hb. destruct (Hall (proj2 Huse (ex_intro _ bs Hb))) as (bs' & He & Hu & _). congruence.
  - intros Hb. pose proof (proj2 Henc (ex_intro _ bs Hb)) as Hc. split; [done|].
    destruct (Hall Hc) as (bs' & He & _ & Hw). congruence.
  - intros [Hc Hw]. destruct (Hall Hc) as (bs' & He & _ & Hw'). congruence.
Qed.

(** C9: the types of the universe (the types of the crate, tuples, derived structs and
    derived enums, without [Bytes], [CompactAs] types and generic arrays) have a sound
    codec, on a 64-bit target, when they are accepted: no two variants of an enum have
    the same index, items of vectors pass the size assertion, the size hints are
    bounded by [isize::MAX].  On any input, whatever its data and its limits, decoding
    returns, and a value it returns is well typed; a well-typed value (collections
    within [u32::MAX] items, skipped fields at their default, no skipped variant) is
    encoded without a panic, and its encoding decodes to it, whatever follows.  Unless
    the type contains a sorted collection, a heap or a bit vector, nothing else is
    decoded: the bytes that were read are the encoding of the value. *)
Theorem every_type_sound t :
  usize_bits = 64 -> accepted t = true ->
  (forall I (HI : Input I) (HL : InputLaws I) (i : I),
     exists r i', run (decode (decode_of t)) i = Done (r, i') /\ forall x, r = Ok x -> well_typed t x) /\
  (forall x, well_typed t x ->
     exists bs, encode (encode_of t) x = Done bs /\ using_encoded (encode_of t) x = Done bs /\
       forall rest, run (decode (decode_of t)) (bs ++ rest) = Done (Ok x, rest)) /\
  (c_canonical (codec_of t) = true -> forall i x i', run (decode (decode_of t)) i = Done (Ok x, i') ->
     exists bs, encode (encode_of t) x = Done bs /\ i = bs ++ i').
Proof.
  intros H64 Ha. pose proof (proj1 (universe_laws H64) t Ha) as L. pose proof (laws_total _ L) as HT.
  split_and!.
  - intros I HI HL i. apply (wb_run (well_typed t) 0), (decode_wb (D := decode_of t)).
  - intros x Hx. destruct (typed_encode H64 t x Ha Hx) as (bs & He & Hu & Hw). exists bs.
    split_and!; [done|done|]. intros rest. by apply typed_roundtrip.
  - intros Hc i x i' Hrun.
    destruct (reencode _ _ _ _ i x i' HT (laws_hint _ L) Hrun) as (bs & He & _ & Hi).
    exists bs. split; [done|]. by apply Hi, (laws_canonical _ L).
Qed.

(** C10: well-typed values of accepted types of the universe that are written one
    after the other with [Joiner::and], on a 64-bit target, are read back one after the
    other, and there is no other way to read the bytes: if two sequences of such values
    of the same types have encodings one of which is a prefix of the other (or of what
    follows it), they are equal. *)
Theorem stream_roundtrip :
  usize_bits = 64 ->
  (forall vs, Forall typed vs ->
     exists bs, join_all [] vs = Done bs /\
       forall rest, run (decode_each (map (@projT1 _ _) vs)) (bs ++ rest) = Done (Ok vs, rest)) /\
  (forall vs ws bs cs rest rest', Forall typed vs -> Forall typed ws ->
     map (@projT1 _ _) vs = map (@projT1 _ _) ws -> join_all [] vs = Done bs -> join_all [] ws = Done cs ->
     bs ++ rest = cs ++ rest' -> vs = ws /\ rest = rest').
Proof.
  intros H64. split.
  - intros vs Hvs. destruct (join_all_total H64 vs [] Hvs) as (bs & Hj & Hd). by exists bs.
  - intros vs ws bs cs rest rest' Hvs Hws Hts Hb Hc Heq.
    destruct (join_all_total H64 vs [] Hvs) as (bs' & Hj & Hd). destruct (join_all_total H64 ws [] Hws) as (cs' & Hk & He).
    rewrite Hb in Hj. rewrite Hc in Hk. simpl in *. simplify_eq.
    specialize (Hd rest). specialize (He rest'). rewrite Hts, Heq in Hd. rewrite Hd in He. by simplify_eq.
Qed.

(** C20: a memory limit bounds the accepted types of the universe, on a 64-bit target.
    Of a value that is decoded from any input with [decode_with_mem_limit], the memory
    that it owns on the heap (its vectors, strings, boxes, list nodes, and half of the
    entries of its B-trees) is zero or below the limit, if the type has no [Rc] and no
    [Arc]; the counters of these are not announced, and each adds its two words to what
    the value can own. *)
Theorem every_type_mem_limit t {I} (HI : Input I) (HL : InputLaws I) limit (i : I) x i' :
  usize_bits = 64 -> accepted t = true -> limit <= usize_max ->
  run (decode_with_mem_limit (decode_of t) limit) i = Done (Ok x, i') ->
  (owned_memory t x = words 2 * rc_count t x \/ owned_memory t x < limit + words 2 * rc_count t x) /\
  (rc_free t = true -> owned_memory t x = 0 \/ owned_memory t x < limit).
Proof.
  intros H64 Ha Hl Hrun. pose proof (proj1 (universe_laws H64) t Ha) as L. pose proof (laws_total _ L) as HT.
  pose proof (laws_tracked _ L) as HM.
  assert (DecodeLaws (decode_of t) (well_typed t)) as HD by apply (codec_decode (E := encode_of t)).
  assert (c_heap (codec_of t) x = 0 \/ c_heap (codec_of t) x < limit) as Hb
    by by apply (mem_limit_heap (decode_of t) (well_typed t) (c_heap (codec_of t)) limit i x i').
  unfold owned_memory. split; [lia|]. intros Hf. rewrite (proj1 rc_free_count t Hf x). lia.
Qed.

(** C36: [max_encoded_len] of an accepted type of the universe that has one, and no
    [encoded_as] field (whose bound can be too small), bounds the encodings of its
    well-typed values, on a 64-bit target; and if the type is marked [ConstEncodedLen],
    these have exactly that length. *)
Theorem every_type_max_len t x bs :
  usize_bits = 64 -> accepted t = true -> well_typed t x -> encode (encode_of t) x = Done bs ->
  zlen bs <= usize_max ->
  (forall n, c_max_len (codec_of t) = Some n -> zlen bs <= n) /\
  (forall n, c_const (codec_of t) = true -> c_max_len (codec_of t) = Some n -> zlen bs = n).
Proof.
  intros H64 Ha Hx Hb Hl. pose proof (proj1 (universe_laws H64) t Ha) as L. pose proof (laws_total _ L) as HT.
  apply (encode_sound (wf := well_typed t)) in Hb. split.
  - intros n Hn. by apply (max_encoded_len_bound (MaxEncodedLen := laws_max _ L n Hn) x).
  - intros n Hc Hn. by apply (const_encoded_len (ConstEncodedLen := laws_const _ L n Hc Hn) x).
Qed.
End theorems.

(** ** Examples, on a 64-bit target *)

Section examples.
Existing Instance x86_64.

(** [enum Call { Transfer { to: [u8; 4], #[codec(compact)] amount: u64 },
    #[codec(index = 7)] Batch(Vec<(u8, Option<String>)>) }]. *)
Definition Call : ty :=
  TEnum 32 "Call"
    (VsCons "Transfer" false None None true
       (FsPlain "to" (TArray 4 (TPrim U8)) (FsCompact "amount" CU64 FsNil))
       (VsCons "Batch" false (Some 7) None false
          (FsPlain "0" (TVec (TTuple 32 (CMore (TPrim U8) (COne (TOption 24 TString))))) FsNil) VsNil)).

Definition batch : value_of Call := inr (inl ([(1, Some [104; 105]); (2, None)], tt)).

Definition transfer : value_of Call := inl ([9; 8; 7; 6], (300, tt)).

Lemma batch_typed : well_typed Call batch.
Proof.
  split; [done|]. split; [|done]. split; [|done]. repeat constructor; done.
Qed.

Lemma transfer_typed : well_typed Call transfer.
Proof. split; [done|]. split; [|by split]. split; [|done]. repeat constructor; done. Qed.

Lemma Call_accepted : accepted Call = true.
Proof. by vm_compute. Qed.

Lemma encode_exact_witness :
  countable Call batch /\ exists bs, encode (encode_of Call) batch = Done bs /\ using_encoded (encode_of Call) batch = Done bs.
Proof.
  destruct (@encode_exact x86_64 Call batch eq_refl Call_accepted) as [He Hw].
  destruct (Hw batch_typed) as [Hs Hc]. destruct (He Hs) as (Hiff & Hu & _).
  split; [exact Hc|]. destruct (proj1 Hiff Hc) as [bs Hb]. exact (ex_intro _ bs (conj Hb (proj1 (Hu bs) Hb))).
Defined.

Lemma every_type_sound_witness :
  run (decode (decode_of Call)) ([x00; x09; x08; x07; x06; xb1; x04] ++ [xff]) = Done (Ok transfer, [xff]) /\
  exists bs, encode (encode_of Call) batch = Done bs /\ run (decode (decode_of Call)) (bs ++ []) = Done (Ok batch, []).
Proof.
  destruct (@every_type_sound x86_64 Call eq_refl Call_accepted) as (_ & Henc & _). split.
  - destruct (Henc transfer transfer_typed) as (bs & He & _ & Hd).
    assert (encode (encode_of Call) transfer = Done [x00; x09; x08; x07; x06; xb1; x04]) as Hb by by vm_compute.
    rewrite Hb in He. injection He as <-. apply Hd.
  - destruct (Henc batch batch_typed) as (bs & He & _ & Hd). exists bs. split; [done|apply Hd].
Defined.

(** A number, a call, a boolean. *)
Definition message : list typed_value :=
  [existT (TPrim U16) 513; existT Call transfer; existT TBool true].

Lemma message_typed : Forall typed message.
Proof.
  apply Forall_cons_2; [by split|]. apply Forall_cons_2; [split; [apply Call_accepted|apply transfer_typed]|].
  apply Forall_cons_2; [by split|apply Forall_nil_2].
Qed.

Lemma stream_roundtrip_witness :
  join_all [] message = Done [x01; x02; x00; x09; x08; x07; x06; xb1; x04; x01] /\
  run (decode_each [TPrim U16; Call; TBool]) [x01; x02; x00; x09; x08; x07; x06; xb1; x04; x01; x55]
  = Done (Ok message, [x55]).
Proof.
  destruct (@stream_roundtrip x86_64 eq_refl) as [Hs _]. destruct (Hs message message_typed) as (bs & Hj & Hd).
  assert (join_all [] message = Done [x01; x02; x00; x09; x08; x07; x06; xb1; x04; x01]) as Hb by by vm_compute.
  split; [done|]. rewrite Hb in Hj. injection Hj as <-. apply (Hd [x55]).
Defined.

(** [Vec<Box<u32>>]: two boxes and their pointers take 24 bytes. *)
Lemma every_type_mem_limit_witness :
  run (decode_with_mem_limit (decode_of (TVec (TBox (TPrim U32)))) 100) [x08; x01; x00; x00; x00; x02; x00; x00; x00]
  = Done (Ok [1; 2], []) /\ owned_memory (TVec (TBox (TPrim U32))) [1; 2] = 24 /\ 24 < 100.
Proof.
  assert (run (decode_with_mem_limit (decode_of (TVec (TBox (TPrim U32)))) 100)
    [x08; x01; x00; x00; x00; x02; x00; x00; x00] = Done (Ok [1; 2], [])) as Hrun by by vm_compute.
  destruct (proj2 (@every_type_mem_limit x86_64 (TVec (TBox (TPrim U32))) _ slice_input _ 100 _ _ _ eq_refl eq_refl
    ltac:(by vm_compute) Hrun) eq_refl) as [Hh|Hh]; [by vm_compute in Hh|].
  split; [exact Hrun|]. split; [reflexivity|exact Hh].
Defined.

(** [Vec<Rc<u8>>]: four items pass a limit of 40 bytes and own 100. *)
Example rc_counters_exceed_limit :
  run (decode_with_mem_limit (decode_of (TVec (TRc (TPrim U8)))) 40) [x10; x01; x02; x03; x04]
  = Done (Ok [1; 2; 3; 4], []) /\ owned_memory (TVec (TRc (TPrim U8))) [1; 2; 3; 4] = 100.
Proof. split; by vm_compute. Qed.

(** [(u8, Option<Compact<u32>>, [u16; 3])] and [(bool, u128)]. *)
Definition bounded : ty :=
  TTuple 16 (CMore (TPrim U8) (CMore (TOption 8 (TCompact CU32)) (COne (TArray 3 (TPrim U16))))).

Lemma every_type_max_len_witness :
  c_max_len (codec_of bounded) = Some 13 /\
  exists bs, encode (encode_of bounded) (1, (Some 70000, [1; 2; 3])) = Done bs /\ zlen bs <= 13.
Proof.
  split; [reflexivity|]. eexists. split; [reflexivity|].
  refine (proj1 (@every_type_max_len x86_64 bounded (1, (Some 70000, [1; 2; 3])) _ eq_refl eq_refl _ eq_refl _) 13 eq_refl);
    [|by vm_compute].
  split; [done|]. split; [done|]. split; [|done]. repeat constructor; done.
Defined.
End examples.
