(* ===== verification/Nesting.v ===== *)
(** * Decoders up to a depth

    The decoder of a recursive type calls itself behind a [Vec] or a [Box], that
    is between [descend_ref] and [ascend_ref].  What such a decoder does under a
    depth limit only depends on the calls that the limit lets happen.  [agree]
    compares two decoders up to a depth: they make the same calls, except for
    what the [mode] leaves open.
    - [Limited]: at depth [l] and beyond the two may do anything;
    - [Bounded]: there is nothing beyond depth [l];
    - [Refining]: where the first one gives up with an error, the second may do
      anything.

    The three are proved of a decoder at once, by composition, and each has its
    own consequence for a run. *)

From S2P Require Import Prelude Ints Errors Input Discipline Output Traits Primitives Compact.
From S2P Require Import CompactTheory Sequences SequencesTheory Composite Collections Limits Derive.

Inductive mode : Type := Limited | Bounded | Refining.

(** Where the comparison ends, [n] levels deep. *)
Definition cut {A} (md : mode) (l n : nat) (p : dec A) : Prop :=
  match md with
  | Limited => (l <= n)%nat
  | Bounded => False
  | Refining => failing n p
  end.

(** One more level may be entered. *)
Definition room (md : mode) (l n : nat) : Prop :=
  match md with
  | Bounded => (S n <= l)%nat
  | _ => True
  end.

(** Two continuations treat an error in the same way, and return it. *)
Definition same_failure {A B} (n : nat) (k k' : Result A Error -> dec B) : Prop :=
  forall e, failing n (k (Err e)) /\ k' (Err e) = k (Err e).

Inductive agree {A} (md : mode) (l : nat) : nat -> dec A -> dec A -> Prop :=
| agree_cut n p q : cut md l n p -> agree md l n p q
| agree_ok a : agree md l 0 (Ret (Ok a)) (Ret (Ok a))
| agree_err n e : agree md l n (Ret (Err e)) (Ret (Err e))
| agree_halt n msg : agree md l n (Halt msg) (Halt msg)
| agree_remaining n k k' :
    same_failure n k k' -> (forall m, agree md l n (k (Ok m)) (k' (Ok m))) ->
    agree md l n (RemainingLen k) (RemainingLen k')
| agree_read n len k k' :
    0 <= len -> same_failure n k k' ->
    (forall bs, zlen bs = len -> agree md l n (k (Ok bs)) (k' (Ok bs))) ->
    agree md l n (Read len k) (Read len k')
| agree_read_byte n k k' :
    same_failure n k k' -> (forall b, agree md l n (k (Ok b)) (k' (Ok b))) ->
    agree md l n (ReadByte k) (ReadByte k')
| agree_descend n k k' :
    room md l n -> same_failure n k k' -> agree md l (S n) (k (Ok tt)) (k' (Ok tt)) ->
    agree md l n (DescendRef k) (DescendRef k')
| agree_ascend n p q : agree md l n p q -> agree md l (S n) (AscendRef p) (AscendRef q)
| agree_alloc n size k k' :
    same_failure n k k' -> agree md l n (k (Ok tt)) (k' (Ok tt)) ->
    agree md l n (OnBeforeAllocMem size k) (OnBeforeAllocMem size k').

(** ** Composition *)

Lemma failing_agree {A} md l n (p : dec A) : failing n p -> agree md l n p p.
Proof. induction 1; [apply agree_err|by apply agree_ascend]. Qed.

Lemma failing_bind_eq {A B} n (d : dec A) (k k' : Result A Error -> dec B) :
  failing n d -> (forall e, k' (Err e) = k (Err e)) -> prog_bind d k' = prog_bind d k.
Proof. intros Hd Hk. induction Hd; simpl; [auto|by f_equal]. Qed.

Lemma same_failure_bind {A B C} m n (c c' : Result C Error -> dec A) (k k' : Result A Error -> dec B) :
  same_failure m c c' -> same_failure n k k' ->
  same_failure (m + n) (fun r => prog_bind (c r) k) (fun r => prog_bind (c' r) k').
Proof.
  intros Hc Hk e. destruct (Hc e) as [Hf ->]. split.
  - apply failing_bind; [done|apply Hk].
  - apply (failing_bind_eq m); [done|]. apply Hk.
Qed.

Lemma cut_bind {A B} md l m n (d : dec A) (k : Result A Error -> dec B) :
  cut md l m d -> (forall e, failing n (k (Err e))) -> cut md (l + n) (m + n) (prog_bind d k).
Proof. destruct md; simpl; [lia|done|]. intros. by apply failing_bind. Qed.

Lemma agree_bind {A B} md l m n (d d' : dec A) (k k' : Result A Error -> dec B) :
  agree md l m d d' -> same_failure n k k' ->
  (forall a, agree md (l + n) n (k (Ok a)) (k' (Ok a))) ->
  agree md (l + n) (m + n) (prog_bind d k) (prog_bind d' k').
Proof.
  intros Hd Hf Hok.
  induction Hd as [m p q Hc|a|m e|m msg|m c c' Hs Hr IH|m len c c' Hlen Hs Hr IH|m c c' Hs Hr IH
                  |m c c' Hroom Hs Hr IH|m p q Hr IH|m size c c' Hs Hr IH]; simpl.
  - apply agree_cut, cut_bind; [done|apply Hf].
  - apply Hok.
  - destruct (Hf e) as [Hfe ->]. apply failing_agree, (failing_weaken n); [lia|done].
  - apply agree_halt.
  - apply agree_remaining; [by apply same_failure_bind|auto].
  - apply agree_read; [done|by apply same_failure_bind|auto].
  - apply agree_read_byte; [by apply same_failure_bind|auto].
  - apply agree_descend; [destruct md; simpl in *; (done || lia)|by apply same_failure_bind|auto].
  - by apply agree_ascend.
  - apply agree_alloc; [by apply same_failure_bind|auto].
Qed.

Lemma same_failure_try {A B} n (k k' : A -> dec B) :
  same_failure n (fun r => match r with Ok a => k a | Err e => Ret (Err e) end)
                 (fun r => match r with Ok a => k' a | Err e => Ret (Err e) end).
Proof. intros e. split; [constructor|done]. Qed.

Lemma agree_try_at {A B} md l n (d d' : dec A) (k k' : A -> dec B) :
  agree md l 0 d d' -> (forall a, agree md (l + n) n (k a) (k' a)) ->
  agree md (l + n) n (try_bind d k) (try_bind d' k').
Proof. intros Hd Hk. apply (agree_bind md l 0 n); [done|apply same_failure_try|done]. Qed.

Lemma agree_try {A B} md l (d d' : dec A) (k k' : A -> dec B) :
  agree md l 0 d d' -> (forall a, agree md l 0 (k a) (k' a)) ->
  agree md l 0 (try_bind d k) (try_bind d' k').
Proof.
  intros Hd Hk. rewrite <- (Nat.add_0_r l). apply agree_try_at; [done|].
  intros a. rewrite Nat.add_0_r. apply Hk.
Qed.

Lemma agree_map_result {A B} md l (f : Result A Error -> Result B Error) (d d' : dec A) :
  (forall a, exists b, f (Ok a) = Ok b) -> (forall e, exists e', f (Err e) = Err e') ->
  agree md l 0 d d' -> agree md l 0 (prog_bind d (fun r => Ret (f r))) (prog_bind d' (fun r => Ret (f r))).
Proof.
  intros Hok Herr Hd. rewrite <- (Nat.add_0_r l). apply (agree_bind md l 0 0); [done| |].
  - intros e. destruct (Herr e) as [e' ->]. split; [constructor|done].
  - intros a. destruct (Hok a) as [b ->]. apply agree_ok.
Qed.

Lemma agree_chain_err {A} md l desc (d d' : dec A) :
  agree md l 0 d d' -> agree md l 0 (chain_err desc d) (chain_err desc d').
Proof. apply agree_map_result; intros; simpl; eauto. Qed.

Lemma agree_dec_map {A B} md l (f : A -> B) (d d' : dec A) :
  agree md l 0 d d' -> agree md l 0 (dec_map f d) (dec_map f d').
Proof. apply agree_map_result; intros; simpl; eauto. Qed.

Lemma agree_done {A} md l (a : A) : agree md l 0 (ok a) (ok a).
Proof. apply agree_ok. Qed.

Lemma agree_throw {A} md l n msg : agree md l n (@throw A msg) (throw msg).
Proof. apply agree_err. Qed.

Create HintDb nesting.
#[export] Hint Resolve agree_try agree_chain_err agree_dec_map agree_done agree_throw : nesting.

(** Between [descend_ref] and [ascend_ref] there is one level less. *)
Lemma agree_nested {A B} md l (d d' : dec A) (f : A -> B) :
  agree md l 0 d d' ->
  agree md (S l) 0 (_ ⇐ descend_ref; x ⇐ d; prog_bind ascend_ref (fun _ => ok (f x)))
                   (_ ⇐ descend_ref; x ⇐ d'; prog_bind ascend_ref (fun _ => ok (f x))).
Proof.
  intros Hd. apply agree_descend; [destruct md; simpl; (done || lia)|apply same_failure_try|].
  rewrite <- Nat.add_1_r. apply (agree_try_at md l 1); [done|]. intros x. apply agree_ascend, agree_ok.
Qed.

(** ** Decoders that enter no reference *)

Fixpoint flat {A} (p : prog A) : Prop :=
  match p with
  | Ret _ | Halt _ => True
  | RemainingLen k => forall r, flat (k r)
  | Read _ k => forall r, flat (k r)
  | ReadByte k => forall r, flat (k r)
  | DescendRef _ | AscendRef _ => False
  | OnBeforeAllocMem _ k => forall r, flat (k r)
  end.

Lemma flat_bind {A B} (p : prog A) (f : A -> prog B) :
  flat p -> (forall a, flat (f a)) -> flat (prog_bind p f).
Proof. intros Hp Hf. induction p; simpl in *; auto. Qed.

Lemma flat_try {A B} (d : dec A) (k : A -> dec B) :
  flat d -> (forall a, flat (k a)) -> flat (try_bind d k).
Proof. intros Hd Hk. apply flat_bind; [done|]. intros [a|e]; simpl; auto. Qed.

(** Such a decoder agrees with itself at every depth. *)
Lemma flat_agree {A} (Q : A -> Prop) md l n (p : dec A) : wb Q n p -> flat p -> agree md l n p p.
Proof.
  intros Hp.
  induction Hp as [a Ha|m e|need m c Hf Hn IH Hge Hlt|m len c Hl Hf Hb IH|m c Hf Hb IH
                  |m c Hf Hk IH|m p Hp IH|m sz c Hsz Hf Hk IH]; simpl; intros Hflat; try done.
  - apply agree_ok.
  - apply agree_err.
  - apply agree_remaining; [by split|]. intros [r|]; [|auto].
    destruct (decide (need <= r)); [rewrite Hge by done; auto|]. apply failing_agree, Hlt. lia.
  - apply agree_read; [done|by split|auto].
  - apply agree_read_byte; [by split|auto].
  - apply agree_alloc; [by split|auto].
Qed.

(** ** What agreement gives on any input *)

Section any_input.
Context {I : Type} `{InputLaws I}.

(** The result of a run under a wrapper. *)
Definition run_under {S A} (W : Wrapper S) (p : prog A) (s : S) (i : I) : outcome (A * I) :=
  '(a, _, i) ← run (interp W p s) i; Done (a, i).

Lemma run_depth_limit {T} limit (D : Decode T) (i : I) :
  run (decode_with_depth_limit limit D) i
  = run_under depth_tracking_input (decode D) (mkDepthTracking 0 limit) i.
Proof.
  unfold decode_with_depth_limit, run_under. rewrite run_bind.
  by destruct (run _ i) as [[[r s] j]|].
Qed.

(** The calls that a depth-tracking input passes on. *)
Lemma under_forward {A B} (d : prog A) (k : A -> prog B) s (i : I) :
  ('(a, _, i) ← run (prog_bind (forward d s) (fun '(r, s) => interp depth_tracking_input (k r) s)) i;
   Done (a, i))
  = ('(r, i) ← run d i; run_under depth_tracking_input (k r) s i).
Proof.
  rewrite run_bind, run_forward. destruct (run d i) as [[r j]|]; reflexivity.
Qed.

Lemma under_remaining {A} (k : Result (option Z) Error -> prog A) s (i : I) :
  run_under depth_tracking_input (RemainingLen k) s i
  = ('(r, i) ← i_remaining_len i; run_under depth_tracking_input (k r) s i).
Proof.
  unfold run_under at 1. cbn [interp w_remaining_len depth_tracking_input].
  rewrite under_forward. cbn. by destruct (i_remaining_len i) as [[r j]|].
Qed.

Lemma under_read {A} len (k : Result (list byte) Error -> prog A) s (i : I) :
  run_under depth_tracking_input (Read len k) s i
  = ('(r, i) ← i_read len i; run_under depth_tracking_input (k r) s i).
Proof.
  unfold run_under at 1. cbn [interp w_read depth_tracking_input].
  rewrite under_forward. cbn. by destruct (i_read len i) as [[r j]|].
Qed.

Lemma under_read_byte {A} (k : Result byte Error -> prog A) s (i : I) :
  run_under depth_tracking_input (ReadByte k) s i
  = ('(r, i) ← i_read_byte i; run_under depth_tracking_input (k r) s i).
Proof.
  unfold run_under at 1. cbn [interp w_read_byte depth_tracking_input].
  rewrite under_forward. cbn. by destruct (i_read_byte i) as [[r j]|].
Qed.

Lemma under_alloc {A} size (k : Result unit Error -> prog A) s (i : I) :
  run_under depth_tracking_input (OnBeforeAllocMem size k) s i
  = ('(r, i) ← i_on_before_alloc_mem size i; run_under depth_tracking_input (k r) s i).
Proof.
  unfold run_under at 1. cbn [interp w_on_before_alloc_mem depth_tracking_input].
  rewrite under_forward. cbn. by destruct (i_on_before_alloc_mem size i) as [[r j]|].
Qed.

(** The two hooks it watches. *)
Lemma under_descend {A} (k : Result unit Error -> prog A) s (i : I) :
  0 <= depth s -> depth s < prim_max U32 ->
  run_under depth_tracking_input (DescendRef k) s i
  = ('(r, i) ← i_descend_ref i;
     match r with
     | Err e => run_under depth_tracking_input (k (Err e)) s i
     | Ok _ =>
         let s := mkDepthTracking (depth s + 1) (max_depth s) in
         if max_depth s <? depth s
         then run_under depth_tracking_input (k (Err (Error_from DECODE_MAX_DEPTH_MSG))) s i
         else run_under depth_tracking_input (k (Ok tt)) s i
     end).
Proof.
  intros Hd Hmax. unfold run_under at 1. cbn [interp w_descend_ref depth_tracking_input].
  unfold depth_descend_ref. rewrite !run_bind. cbn -[prim_max].
  destruct (i_descend_ref i) as [[[u|e] j]|]; cbn -[prim_max]; [|reflexivity|reflexivity].
  destruct (Z.ltb_spec (prim_max U32) (depth s + 1)); [lia|].
  by destruct (max_depth s <? depth s + 1).
Qed.

Lemma under_ascend {A} (p : prog A) s (i : I) :
  0 < depth s ->
  run_under depth_tracking_input (AscendRef p) s i
  = (i ← i_ascend_ref i;
     run_under depth_tracking_input p (mkDepthTracking (depth s - 1) (max_depth s)) i).
Proof.
  intros Hd. unfold run_under at 1. cbn [interp w_ascend_ref depth_tracking_input].
  unfold depth_ascend_ref. rewrite !run_bind. cbn.
  destruct (i_ascend_ref i) as [j|]; cbn; [|done].
  destruct (Z.ltb_spec (depth s - 1) 0); [lia|reflexivity].
Qed.

(** An error is handed on without entering anything. *)
Lemma failing_under {A} n (p : dec A) s (i : I) :
  failing n p -> Z.of_nat n <= depth s -> run_under depth_tracking_input p s i = run p i.
Proof.
  intros Hp. revert s i. induction Hp as [n e|n p Hp IH]; intros s i Hs; [done|].
  rewrite under_ascend by lia. cbn [run]. destruct (i_ascend_ref i) as [j|]; simpl; [|done].
  apply IH. simpl. lia.
Qed.

Lemma failing_not_ok {A} n (p : dec A) (i j : I) a : failing n p -> run p i <> Done (Ok a, j).
Proof. intros Hp. destruct (failing_run n p i Hp) as (e & k & ->). congruence. Qed.

(** A limit that is deep enough is not noticed. *)
Lemma agree_bounded {A} l n (p q : dec A) max (i : I) :
  agree Bounded l n p q -> Z.of_nat l <= max -> max < prim_max U32 ->
  run_under depth_tracking_input p (mkDepthTracking (Z.of_nat n) max) i = run q i.
Proof.
  intros Ha Hl Hmax. revert i.
  induction Ha as [n p q Hc|a|n e|n msg|n c c' Hs Hr IH|n len c c' Hlen Hs Hr IH|n c c' Hs Hr IH
                  |n c c' Hroom Hs Hr IH|n p q Hr IH|n size c c' Hs Hr IH]; intros i; try done; cbn [run].
  - rewrite under_remaining. destruct (i_remaining_len i) as [[[m|e] j]|]; simpl; [auto| |done].
    destruct (Hs e) as [Hf ->]. by apply (failing_under n).
  - rewrite under_read. destruct (read_total len i Hlen) as ([bs|e] & j & -> & Hbs); simpl; [auto|].
    destruct (Hs e) as [Hf ->]. by apply (failing_under n).
  - rewrite under_read_byte. destruct (i_read_byte i) as [[[b|e] j]|]; simpl; [auto| |done].
    destruct (Hs e) as [Hf ->]. by apply (failing_under n).
  - simpl in Hroom. rewrite under_descend by (simpl; lia).
    destruct (i_descend_ref i) as [[[[]|e] j]|]; simpl; [| |done].
    + destruct (Z.ltb_spec max (Z.of_nat n + 1)); [lia|].
      replace (Z.of_nat n + 1) with (Z.of_nat (Datatypes.S n)) by lia. apply IH.
    + destruct (Hs e) as [Hf ->]. by apply (failing_under n).
  - rewrite under_ascend by (simpl; lia). destruct (i_ascend_ref i) as [j|]; simpl; [|done].
    replace (Z.of_nat (Datatypes.S n) - 1) with (Z.of_nat n) by lia. apply IH.
  - rewrite under_alloc. destruct (i_on_before_alloc_mem size i) as [[[[]|e] j]|]; simpl; [auto| |done].
    destruct (Hs e) as [Hf ->]. by apply (failing_under n).
Qed.

(** What succeeds in the first program succeeds in the second. *)
Lemma agree_refining {A} l n (p q : dec A) (i : I) a j :
  agree Refining l n p q -> run p i = Done (Ok a, j) -> run q i = Done (Ok a, j).
Proof.
  intros Ha. revert i.
  induction Ha as [n p q Hc|b|n e|n msg|n c c' Hs Hr IH|n len c c' Hlen Hs Hr IH|n c c' Hs Hr IH
                  |n c c' Hroom Hs Hr IH|n p q Hr IH|n size c c' Hs Hr IH]; intros i; try done; cbn [run].
  - intros Hrun. by destruct (failing_not_ok n p i j a Hc).
  - destruct (i_remaining_len i) as [[[m|e] k]|]; simpl; [auto| |done].
    by destruct (Hs e) as [Hf ->].
  - destruct (read_total len i Hlen) as ([bs|e] & k & -> & Hbs); simpl; [auto|].
    by destruct (Hs e) as [Hf ->].
  - destruct (i_read_byte i) as [[[b|e] k]|]; simpl; [auto| |done]. by destruct (Hs e) as [Hf ->].
  - destruct (i_descend_ref i) as [[[[]|e] k]|]; simpl; [auto| |done]. by destruct (Hs e) as [Hf ->].
  - destruct (i_ascend_ref i) as [k|]; simpl; [auto|done].
  - destruct (i_on_before_alloc_mem size i) as [[[[]|e] k]|]; simpl; [auto| |done].
    by destruct (Hs e) as [Hf ->].
Qed.

(** How two runs that agree are related: the same, or as above. *)
Definition related {A} (md : mode) (x y : outcome (Result A Error * I)) : Prop :=
  match md with
  | Refining => forall a j, x = Done (Ok a, j) -> y = Done (Ok a, j)
  | _ => x = y
  end.

Lemma related_refl {A} md (x : outcome (Result A Error * I)) : related md x x.
Proof. destruct md; simpl; auto. Qed.

Lemma related_cut {A} md l n (p q : dec A) max (i : I) :
  cut md l n p -> (md = Limited -> max < Z.of_nat l) -> Z.of_nat n <= max ->
  related md (run_under depth_tracking_input p (mkDepthTracking (Z.of_nat n) max) i)
    (run_under depth_tracking_input q (mkDepthTracking (Z.of_nat n) max) i).
Proof.
  destruct md; simpl; intros Hc Hl Hn; [specialize (Hl eq_refl); lia|done|].
  rewrite (failing_under n) by done. intros a j Hrun. by destruct (failing_not_ok n p i j a Hc).
Qed.

(** Agreement up to depth [l] is enough under every limit below [l], and what
    is refined is refined under every limit. *)
Lemma agree_under {A} md l n (p q : dec A) max (i : I) :
  agree md l n p q -> (md = Limited -> max < Z.of_nat l) -> Z.of_nat n <= max -> max < prim_max U32 ->
  related md (run_under depth_tracking_input p (mkDepthTracking (Z.of_nat n) max) i)
    (run_under depth_tracking_input q (mkDepthTracking (Z.of_nat n) max) i).
Proof.
  intros Ha Hl Hn Hmax. revert i Hn.
  induction Ha as [n p q Hc|b|n e|n msg|n c c' Hs Hr IH|n len c c' Hlen Hs Hr IH|n c c' Hs Hr IH
                  |n c c' Hroom Hs Hr IH|n p q Hr IH|n size c c' Hs Hr IH]; intros i Hn;
    try apply related_refl.
  - by apply (related_cut md l).
  - rewrite !under_remaining. destruct (i_remaining_len i) as [[[m|e] k]|]; simpl; [auto| |apply related_refl].
    destruct (Hs e) as [_ ->]. apply related_refl.
  - rewrite !under_read. destruct (read_total len i Hlen) as ([bs|e] & k & -> & Hbs); simpl; [auto|].
    destruct (Hs e) as [_ ->]. apply related_refl.
  - rewrite !under_read_byte. destruct (i_read_byte i) as [[[b|e] k]|]; simpl; [auto| |apply related_refl].
    destruct (Hs e) as [_ ->]. apply related_refl.
  - rewrite !under_descend by (simpl; lia).
    destruct (i_descend_ref i) as [[[[]|e] k]|]; simpl; [| |apply related_refl].
    + destruct (Z.ltb_spec max (Z.of_nat n + 1)).
      * destruct (Hs (Error_from DECODE_MAX_DEPTH_MSG)) as [_ ->]. apply related_refl.
      * replace (Z.of_nat n + 1) with (Z.of_nat (Datatypes.S n)) by lia. apply IH. lia.
    + destruct (Hs e) as [_ ->]. apply related_refl.
  - rewrite !under_ascend by (simpl; lia). destruct (i_ascend_ref i) as [k|]; simpl; [|apply related_refl].
    replace (Z.of_nat (Datatypes.S n) - 1) with (Z.of_nat n) by lia. apply IH. lia.
  - rewrite !under_alloc.
    destruct (i_on_before_alloc_mem size i) as [[[[]|e] k]|]; simpl; [auto| |apply related_refl].
    destruct (Hs e) as [_ ->]. apply related_refl.
Qed.
End any_input.

(** ** The decoders of the crate *)

Section decoders.
Context `{Target}.

Lemma flat_interp {S A} (W : Wrapper S) (p : prog A) s :
  (forall s, flat (w_remaining_len W s)) -> (forall n s, flat (w_read W n s)) ->
  (forall s, flat (w_read_byte W s)) -> (forall n s, flat (w_on_before_alloc_mem W n s)) ->
  flat p -> flat (interp W p s).
Proof.
  intros Hrem Hread Hbyte Halloc. revert s.
  induction p as [a|msg|k IH|n k IH|k IH|k IH|k IH|sz k IH]; intros s Hp; simpl in *; try done;
    (apply flat_bind; [auto|intros [r s']; auto]).
Qed.

Lemma prefix_read_flat n prefix : flat (prefix_read n prefix).
Proof.
  unfold prefix_read. destruct (n =? 0); [done|]. destruct prefix; (apply flat_bind; [by intros r|by intros []]).
Qed.

Lemma decode_prefixed_flat {A} (d : dec A) b : flat d -> flat (decode_prefixed d b).
Proof.
  intros Hd. apply flat_bind; [|by intros []]. apply flat_interp; [| | | |done].
  - intros s. apply flat_bind; [by intros r|done].
  - apply prefix_read_flat.
  - intros s. apply flat_bind; [apply prefix_read_flat|]. by intros [[[|b' bs]|e] s'].
  - done.
Qed.

Lemma prim_flat p : flat (decode (prim_decode p)).
Proof. destruct p; intros [r|e]; done. Qed.

Lemma decode_len_flat : flat decode_len.
Proof.
  apply flat_try; [by intros r|]. intros b. cbv zeta. repeat case_match; try done;
    (apply flat_try; [try apply decode_prefixed_flat; apply prim_flat|intros y; by case_match]).
Qed.

Lemma decode_len_agree md l : agree md l 0 decode_len decode_len.
Proof. eapply flat_agree; [apply decode_len_wb|apply decode_len_flat]. Qed.

Lemma prim_agree md l p : agree md l 0 (decode (prim_decode p)) (decode (prim_decode p)).
Proof. eapply flat_agree; [apply decode_wb|apply prim_flat]. Qed.

(** Two implementations of [Decode] for the same type. *)
Record decoders_agree {T} (md : mode) (l : nat) (D D' : Decode T) : Prop := {
  agree_info : D_TYPE_INFO D = Unknown;
  agree_info' : D_TYPE_INFO D' = Unknown;
  agree_size : D_size_of D' = D_size_of D;
  agree_decode : agree md l 0 (decode D) (decode D');
  agree_decode_into : agree md l 0 (decode_into D) (decode_into D');
}.

Lemma impl_decode_agree {T} md l size_of (d d' : dec T) :
  agree md l 0 d d' -> decoders_agree md l (impl_decode size_of d) (impl_decode size_of d').
Proof. intros Hd. split; simpl; unfold default_decode_into; auto with nesting. Qed.

Lemma decode_items_agree {T} md l (d d' : dec T) n v :
  agree md l 0 d d' -> agree md l 0 (decode_items d n v) (decode_items d' n v).
Proof. intros Hd. revert v. induction n as [|n IH]; intros v; simpl; auto with nesting. Qed.

Lemma chunked_loop_agree {T} md l size_of (chunk chunk' : list T -> Z -> dec (list T)) fuel c num v :
  (forall v n, agree md l 0 (chunk v n) (chunk' v n)) ->
  agree md l 0 (decode_vec_chunked_loop size_of chunk fuel c num v)
    (decode_vec_chunked_loop size_of chunk' fuel c num v).
Proof.
  intros Hc. revert num v. induction fuel as [|fuel IH]; intros num v; simpl; case_match;
    auto with nesting; [apply agree_halt|].
  apply agree_alloc; [apply same_failure_try|]. simpl.
  apply agree_try; [unfold reserve_exact; case_match; [apply agree_done|apply agree_halt]|].
  auto with nesting.
Qed.

(** Behind each of these a value is one level deeper. *)
Lemma vec_agree {T} md l (D D' : Decode T) :
  decoders_agree md l D D' -> decoders_agree md (S l) (vec_decode D) (vec_decode D').
Proof.
  intros [Hi Hi' Hs Hd _]. apply impl_decode_agree, agree_try; [apply decode_len_agree|]. intros len.
  unfold decode_vec_with_len. rewrite Hi, Hi'. unfold decode_vec_from_items. rewrite Hs.
  apply (agree_nested md l _ _ id), chunked_loop_agree. intros v n. by apply decode_items_agree.
Qed.

Lemma box_agree {T} md l (D D' : Decode T) :
  decoders_agree md l D D' -> decoders_agree md (S l) (box_decode D) (box_decode D').
Proof.
  intros [_ _ Hs _ Hd]. apply impl_decode_agree. unfold box_decode_wrapped. rewrite Hs.
  apply agree_descend; [destruct md; simpl; (done || lia)|apply same_failure_try|].
  apply agree_alloc; [apply same_failure_try|]. simpl.
  rewrite <- Nat.add_1_r. apply (agree_try_at md l 1); [done|]. intros x. apply agree_ascend, agree_ok.
Qed.

Lemma rc_agree {T} md l (D D' : Decode T) :
  decoders_agree md l D D' -> decoders_agree md (S l) (rc_decode D) (rc_decode D').
Proof. intros HD. by apply impl_decode_agree, agree_dec_map, (agree_decode _ _ _ _ (box_agree _ _ _ _ HD)). Qed.

Lemma collection_agree {T C} md l (D D' : Decode T) mem_size (from_iter : list T -> C) :
  agree md l 0 (decode D) (decode D') ->
  agree md (S l) 0 (collection_decode_fn D mem_size from_iter) (collection_decode_fn D' mem_size from_iter).
Proof.
  intros Hd. apply agree_try; [apply decode_len_agree|]. intros len.
  apply agree_descend; [destruct md; simpl; (done || lia)|apply same_failure_try|].
  apply agree_alloc; [apply same_failure_try|]. simpl.
  rewrite <- Nat.add_1_r. apply (agree_bind md l 0 1).
  - by apply agree_dec_map, decode_items_agree.
  - intros e. split; [apply failing_ascend, failing_err|done].
  - intros a. apply agree_ascend, agree_ok.
Qed.

(** These do not enter a reference. *)
Lemma chained_byte_agree {A} md l desc (k k' : byte -> dec A) :
  (forall b, agree md l 0 (k b) (k' b)) ->
  agree md l 0 (b ⇐ chain_err desc read_byte; k b) (b ⇐ chain_err desc read_byte; k' b).
Proof.
  intros Hk. apply agree_try; [|done]. apply agree_chain_err, agree_read_byte; [|intros; apply agree_ok].
  intros e. split; [apply failing_err|done].
Qed.

Lemma option_agree {T} md l size_of (D D' : Decode T) :
  agree md l 0 (decode D) (decode D') ->
  decoders_agree md l (option_decode size_of D) (option_decode size_of D').
Proof.
  intros Hd. apply impl_decode_agree, chained_byte_agree. intros b.
  case_match; auto with nesting.
Qed.

Lemma tuple_agree {A B} md l size_of (DA DA' : Decode A) (DB DB' : Decode B) :
  agree md l 0 (decode DA) (decode DA') -> agree md l 0 (decode DB) (decode DB') ->
  decoders_agree md l (tuple_decode size_of DA DB) (tuple_decode size_of DA' DB').
Proof. intros HA HB. apply impl_decode_agree. unfold tuple_decode_fn. auto with nesting. Qed.

(** ** Derived types *)

Definition field_agree {F} (md : mode) (l : nat) (f f' : field F) : Prop :=
  f_name f' = f_name f /\ forall name, agree md l 0 (decode_field f name) (decode_field f' name).

Inductive fields_agree (md : mode) (l : nat) : forall A, fields A -> fields A -> Prop :=
| fields_agree_nil : fields_agree md l unit FNil FNil
| fields_agree_cons F A (f f' : field F) (fs fs' : fields A) :
    field_agree md l f f' -> fields_agree md l A fs fs' ->
    fields_agree md l (F * A) (FCons f fs) (FCons f' fs').
Arguments fields_agree _ _ {_} _ _.

Inductive variants_agree (md : mode) (l : nat) : forall A, variants A -> variants A -> Prop :=
| variants_agree_nil : variants_agree md l Empty_set VNil VNil
| variants_agree_cons A R name skip index discriminant named (fs fs' : fields A) (vs vs' : variants R) :
    fields_agree md l fs fs' -> variants_agree md l R vs vs' ->
    variants_agree md l (A + R) (VCons (mkVariant name skip index discriminant named fs) vs)
      (VCons (mkVariant name skip index discriminant named fs') vs').
Arguments variants_agree _ _ {_} _ _.

Lemma plain_field_agree {F} md l name (E E' : Encode F) D D' mel cmel mel' cmel' :
  agree md l 0 (decode D) (decode D') ->
  field_agree md l (mkField name (FieldNone E D) mel cmel) (mkField name (FieldNone E' D') mel' cmel').
Proof. intros HD. split; [done|]. intros n. by apply agree_chain_err. Qed.

Lemma decode_fields_agree {A} md l (fs fs' : fields A) name named :
  fields_agree md l fs fs' -> agree md l 0 (decode_fields fs name named) (decode_fields fs' name named).
Proof.
  induction 1 as [|F A f f' fs fs' [Hn Hf] Hfs IH]; cbn [decode_fields]; [apply agree_done|].
  rewrite Hn. auto with nesting.
Qed.

Lemma decode_variants_agree {A} md l (vs vs' : variants A) name i b :
  variants_agree md l vs vs' -> agree md l 0 (decode_variants vs name i b) (decode_variants vs' name i b).
Proof.
  intros Hvs. revert i. induction Hvs as [|A R nm sk ix di na fs fs' vs vs' Hfs Hvs IH]; intros i;
    cbn [decode_variants v_skip v_fields v_name v_named].
  - apply agree_throw.
  - change (index_byte (mkVariant nm sk ix di na fs') i) with (index_byte (mkVariant nm sk ix di na fs) i).
    case_match; apply agree_dec_map; [by apply decode_fields_agree|apply IH].
Qed.

Lemma enum_agree {A} md l size_of name (vs vs' : variants A) :
  variants_agree md l vs vs' ->
  decoders_agree md l (enum_decode size_of name vs) (enum_decode size_of name vs').
Proof.
  intros Hvs. apply impl_decode_agree, chained_byte_agree. intros b. by apply decode_variants_agree.
Qed.

Lemma struct_agree {A} md l size_of name named (fs fs' : fields A) :
  fields_agree md l fs fs' ->
  decoders_agree md l (struct_decode size_of false name named fs) (struct_decode size_of false name named fs').
Proof.
  intros Hfs. apply (decode_fields_agree _ _ _ _ name named) in Hfs.
  split; simpl; unfold default_decode_into; auto with nesting.
Qed.
End decoders.
Arguments fields_agree _ _ {_} _ _.
Arguments variants_agree _ _ {_} _ _.
