(* ===== verification/Recursive.v ===== *)
(** * Recursive types

    A derived type may refer to itself behind a [Vec] or a [Box].  Its decoder is
    then a recursive function, and every nested call takes a frame of the stack.
    [decode_frames n] is that decoder on a stack with room for [n] nested calls:
    the call that does not fit is a stack overflow, which ends the program.

    Without a limit no stack is large enough: the input decides how deep the calls
    are nested.  Under a depth limit [limit + 1] frames are enough whatever the
    input is, and what is decoded does not depend on the size of the stack. *)

From S2P Require Import Prelude Ints Errors Input Discipline Output Traits Primitives Compact.
From S2P Require Import CompactTheory Sequences SequencesTheory Composite Limits Derive DeriveTheory Nesting.

(** A type by its constructor: [into] builds a value from what is decoded and
    [project] takes it apart again. *)
Definition construct {A T} (into : A -> T) (D : Decode A) : Decode T :=
  {| D_TYPE_INFO := Unknown; D_size_of := D_size_of D;
     decode := dec_map into (decode D); decode_into := dec_map into (decode_into D);
     skip := skip D; encoded_fixed_size := encoded_fixed_size D |}.

Definition destructured {A T} (project : T -> A) (E : Encode A) : Encode T :=
  impl_forward (E_size_of E) project E.

(** The laws only depend on which values are well formed. *)
Lemma codec_laws_iff `{Target} {T} E D (wf wf' : T -> Prop) :
  (forall x, wf x <-> wf' x) -> CodecLaws E D wf -> CodecLaws E D wf'.
Proof.
  intros Hiff [HE HD Hrt Hfix].
  assert (forall x, wf x -> wf' x) as Hto by apply Hiff. assert (forall x, wf' x -> wf x) as Hof by apply Hiff.
  constructor; [| |intros; apply Hrt; auto|intros; eapply Hfix; eauto].
  - destruct HE as [H1 H2 H3 H4]. constructor; eauto.
  - destruct HD as [H1 H2 H3 H4 H5 H6 H7]. constructor; eauto using wb_weaken.
    intros p t b (Hs & Hw & Hr)%H7. split_and!; [done|auto|apply Hr|apply Hr].
Qed.

Section construct.
Context `{Target} {A T : Type} (into : A -> T) (project : T -> A).
Context (project_into : forall x, project (into x) = x) (into_project : forall t, into (project t) = t).

Lemma construct_decode_laws (D : Decode A) wf :
  DecodeLaws D wf -> DecodeLaws (construct into D) (fun t => wf (project t)).
Proof.
  intros HD.
  assert (forall a, wf a -> wf (project (into a))) as Hwf by (intros a; by rewrite project_into).
  constructor; simpl; [apply size_of_nonneg| | |apply skip_wb| | |discriminate].
  - eapply wb_dec_map; [apply decode_wb|done].
  - eapply wb_dec_map; [apply decode_into_wb|done].
  - apply dec_map_proper, decode_into_equiv.
  - rewrite skip_equiv. intros i u i'. rewrite !run_dec_map_ok. split.
    + intros (a & Ha & ->). exists (into a). rewrite run_dec_map_ok. eauto.
    + intros (t & (a & Ha & ->)%run_dec_map_ok & ->). eauto.
Qed.

Lemma construct_codec_laws E D (wf : A -> Prop) :
  CodecLaws E D wf -> CodecLaws (destructured project E) (construct into D) (fun t => wf (project t)).
Proof.
  intros HC. constructor.
  - by apply (impl_forward_laws _ _ _ wf); [apply (codec_encode (D := D))|].
  - apply construct_decode_laws, (codec_decode (E := E)).
  - intros t bs rest Ht Hb. simpl in *. rewrite run_dec_map, (roundtrip (project t)) by done. simpl.
    by rewrite into_project.
  - intros n t bs Hn Ht Hb. by eapply (fixed_size (E := E)).
Qed.

Lemma construct_codec_iff E D (wf : A -> Prop) (wfT : T -> Prop) :
  (forall t, wf (project t) <-> wfT t) ->
  CodecLaws E D wf -> CodecLaws (destructured project E) (construct into D) wfT.
Proof. intros Hiff HC. eapply codec_laws_iff; [exact Hiff|by apply construct_codec_laws]. Qed.

Lemma construct_canonical E D : Canonical E D -> Canonical (destructured project E) (construct into D).
Proof.
  intros HC i t i' (a & Ha & ->)%run_dec_map_ok. simpl. rewrite project_into. by apply (canonical (E := E)).
Qed.

Lemma construct_agree md l (D D' : Decode A) :
  decoders_agree md l D D' -> decoders_agree md l (construct into D) (construct into D').
Proof. intros [Hi Hi' Hs Hd Hd']. split; simpl; auto with nesting. Qed.
End construct.

(** ** Unrollings *)

Section recursive.
Context `{Target} {T : Type}.

(** The type, by [size_of::<T>()] and by the bodies of its implementations: the
    recursive calls go to the arguments.  [values wf] are the values whose parts
    are in [wf]. *)
Record recursive : Type := mkRec {
  rec_size_of : Z;
  encode_body : Encode T -> Encode T;
  decode_body : Decode T -> Decode T;
  values : (T -> Prop) -> T -> Prop;
}.

(** The call that finds no room on the stack. *)
Definition overflow_decode (size_of : Z) : Decode T := impl_decode size_of (Halt unbounded_recursion).
Definition overflow_encode (size_of : Z) : Encode T :=
  impl_encode_to size_of (fun _ => Panic unbounded_recursion) (fun _ => WPanic unbounded_recursion).

(** Both implementations from one declaration: [impl] says what is derived when
    the type itself is encoded and decoded by the given implementations.  What is
    derived for one trait does not call the other. *)
Definition derived_recursive (size_of : Z) (impl : Encode T * Decode T -> Encode T * Decode T)
    (values : (T -> Prop) -> T -> Prop) : recursive :=
  {| rec_size_of := size_of;
     encode_body E := (impl (E, overflow_decode size_of)).1;
     decode_body D := (impl (overflow_encode size_of, D)).2;
     values := values |}.

Definition overflowing_decode (R : recursive) : Decode T :=
  overflow_decode (rec_size_of R).
Definition overflowing_encode (R : recursive) : Encode T := overflow_encode (rec_size_of R).

Definition decode_frames (R : recursive) (n : nat) : Decode T :=
  Nat.iter n (decode_body R) (overflowing_decode R).
Definition encode_frames (R : recursive) (n : nat) : Encode T :=
  Nat.iter n (encode_body R) (overflowing_encode R).

(** The values with at most [n] levels. *)
Definition levels (R : recursive) (n : nat) : T -> Prop := Nat.iter n (values R) (fun _ => False).

(** For the proofs: the decoder that gives up instead of overflowing. *)
Definition erring_decode (R : recursive) : Decode T := impl_decode (rec_size_of R) (throw "nested too deeply").
Definition erring_frames (R : recursive) (n : nat) : Decode T := Nat.iter n (decode_body R) (erring_decode R).

(** What the declaration of the type provides: each recursive call is behind a
    reference, and the codec laws are those of the parts. *)
Class RecursiveLaws (R : recursive) : Prop := {
  rec_size_nonneg : 0 <= rec_size_of R;
  body_agree md l D D' : decoders_agree md l D D' ->
    decoders_agree md (S l) (decode_body R D) (decode_body R D');
  body_size D : D_size_of (decode_body R D) = rec_size_of R;
  body_laws E D wf : D_size_of D = rec_size_of R -> CodecLaws E D wf ->
    CodecLaws (encode_body R E) (decode_body R D) (values R wf);
  body_canonical E D wf : D_size_of D = rec_size_of R -> CodecLaws E D wf -> Canonical E D ->
    Canonical (encode_body R E) (decode_body R D);
}.

(** The laws of a derived type, from those of its declaration. *)
Lemma derived_recursive_laws size_of impl vals :
  0 <= size_of ->
  (forall E D D', (impl (E, D)).1 = (impl (E, D')).1) ->
  (forall E E' D, (impl (E, D)).2 = (impl (E', D)).2) ->
  (forall md l c c', decoders_agree md l c.2 c'.2 -> decoders_agree md (S l) (impl c).2 (impl c').2) ->
  (forall c, D_size_of (impl c).2 = size_of) ->
  (forall c wf, D_size_of c.2 = size_of -> CodecLaws c.1 c.2 wf ->
     CodecLaws (impl c).1 (impl c).2 (vals wf) /\
     (Canonical c.1 c.2 -> Canonical (impl c).1 (impl c).2)) ->
  RecursiveLaws (derived_recursive size_of impl vals).
Proof.
  intros Hs HE HD Hagree Hsize Hlaws. constructor; simpl; [done|by intros; apply Hagree|auto| |].
  - intros E D wf Hc HC. rewrite (HE E _ D), (HD _ E D). by apply (Hlaws (E, D)).
  - intros E D wf Hc HC. rewrite (HE E _ D), (HD _ E D). by apply (Hlaws (E, D) wf).
Qed.

Context (R : recursive) `{!RecursiveLaws R}.

Lemma erring_laws n :
  D_size_of (erring_frames R n) = rec_size_of R /\
  CodecLaws (encode_frames R n) (erring_frames R n) (levels R n) /\
  Canonical (encode_frames R n) (erring_frames R n).
Proof.
  induction n as [|n (Hs & HC & Hcan)].
  - split_and!; [done| |by intros i t i'].
    constructor; [apply impl_encode_to_laws| |done|done].
    apply impl_decode_laws; [apply rec_size_nonneg|apply wb_throw].
  - split_and!; [apply body_size|by apply body_laws|by eapply body_canonical].
Qed.

Lemma erring_decode_laws n : DecodeLaws (erring_frames R n) (levels R n).
Proof. destruct (erring_laws n) as (_ & HC & _). apply (codec_decode (E := encode_frames R n)). Qed.

(** Two decoders that start from bottoms of the right size. *)
Definition bottom (D : Decode T) : Prop := D_TYPE_INFO D = Unknown /\ D_size_of D = rec_size_of R.

Lemma iter_bottom n D : bottom D -> bottom (Nat.iter n (decode_body R) D).
Proof.
  intros [Hi Hs]. destruct n as [|n]; [done|]. split; [|apply body_size].
  assert (decoders_agree Limited n (Nat.iter n (decode_body R) D) (Nat.iter n (decode_body R) D)) as Ha.
  { clear - Hi Hs RecursiveLaws0. induction n as [|n IH]; [|by apply body_agree].
    split; [done|done|done|by apply agree_cut; simpl|by apply agree_cut; simpl]. }
  apply (agree_info _ _ _ _ (body_agree _ _ _ _ Ha)).
Qed.

(** The bodies carry the agreement of the bottoms up. *)
Lemma iter_agree md n D D' :
  decoders_agree md 0 D D' ->
  decoders_agree md n (Nat.iter n (decode_body R) D) (Nat.iter n (decode_body R) D').
Proof. intros HD. induction n as [|n IH]; [done|]. by apply body_agree. Qed.

Lemma limited_agree n k D D' : bottom D -> bottom D' ->
  decoders_agree Limited n (Nat.iter n (decode_body R) D) (Nat.iter (n + k) (decode_body R) D').
Proof.
  intros [Hi Hs] HD'. rewrite Nat.iter_add. apply iter_agree.
  destruct (iter_bottom k D' HD') as [Hi' Hs'].
  split; [done|done|congruence|by apply agree_cut; simpl|by apply agree_cut; simpl].
Qed.

Lemma refining_agree n k D' : bottom D' ->
  decoders_agree Refining n (erring_frames R n) (Nat.iter (n + k) (decode_body R) D').
Proof.
  intros HD'. rewrite Nat.iter_add. apply iter_agree.
  destruct (iter_bottom k D' HD') as [Hi' Hs'].
  split; [done|done|done|apply agree_cut, failing_err|apply agree_cut, failing_err].
Qed.

Lemma bounded_agree n : decoders_agree Bounded n (erring_frames R n) (erring_frames R n).
Proof. apply iter_agree. split; [done|done|done|apply agree_err|apply agree_err]. Qed.

(** ** Under a depth limit *)

Section any_input.
Context {I : Type} `{InputLaws I}.

(** More frames than the limit make no difference. *)
Lemma frames_limited limit n m D D' (i : I) :
  bottom D -> bottom D' -> 0 <= limit < prim_max U32 -> limit < Z.of_nat n -> limit < Z.of_nat m ->
  run (decode_with_depth_limit limit (Nat.iter n (decode_body R) D)) i
  = run (decode_with_depth_limit limit (Nat.iter m (decode_body R) D')) i.
Proof.
  intros HD HD' Hlim Hn Hm. rewrite !run_depth_limit.
  assert (forall n k D D', bottom D -> bottom D' -> limit < Z.of_nat n ->
    run_under depth_tracking_input (decode (Nat.iter n (decode_body R) D)) (mkDepthTracking 0 limit) i
    = run_under depth_tracking_input (decode (Nat.iter (n + k) (decode_body R) D')) (mkDepthTracking 0 limit) i)
    as Hlt.
  { clear n m D D' HD HD' Hn Hm. intros n k D D' HD HD' Hn.
    apply (agree_under Limited n 0 _ _ limit); [|done|lia|lia].
    by apply (agree_decode _ _ _ _ (limited_agree n k D D' HD HD')). }
  destruct (Nat.le_ge_cases n m) as [Hnm|Hnm].
  - replace m with (n + (m - n))%nat by lia. by apply Hlt.
  - replace n with (m + (n - m))%nat by lia. symmetry. by apply Hlt.
Qed.

Lemma overflowing_bottom : bottom (overflowing_decode R).
Proof. by split. Qed.
Lemma erring_bottom : bottom (erring_decode R).
Proof. by split. Qed.

Lemma frames_limited_erring limit n (i : I) :
  0 <= limit < prim_max U32 -> limit < Z.of_nat n ->
  run (decode_with_depth_limit limit (decode_frames R n)) i
  = run (decode_with_depth_limit limit (erring_frames R n)) i.
Proof. intros. by apply frames_limited; [apply overflowing_bottom|apply erring_bottom|..]. Qed.

(** The calls stay on the stack. *)
Lemma frames_total limit n (i : I) :
  0 <= limit < prim_max U32 -> limit < Z.of_nat n ->
  exists r j, run (decode_with_depth_limit limit (decode_frames R n)) i = Done (r, j).
Proof.
  intros Hlim Hn. rewrite frames_limited_erring by done. pose proof (erring_decode_laws n) as HD.
  pose proof (decode_with_depth_limit_run (erring_frames R n) (levels R n) limit i Hlim) as Hrun.
  case_match.
  - rewrite Hrun. destruct (wb_run (levels R n) 0 (decode (erring_frames R n)) i decode_wb) as (r & j & -> & _).
    eauto.
  - destruct Hrun as (e & j & ->). eauto.
Qed.
End any_input.

(** A value of [n] levels comes back on every stack with [n] frames, and under
    every limit of at least [n]. *)
Lemma frames_roundtrip n m t bs rest :
  levels R n t -> wbytes (encode_to (encode_frames R n) t) = Done bs -> (n <= m)%nat ->
  run (decode (decode_frames R m)) (bs ++ rest) = Done (Ok t, rest) /\
  forall limit, Z.of_nat n <= limit < prim_max U32 ->
    run (decode_with_depth_limit limit (decode_frames R m)) (bs ++ rest) = Done (Ok t, rest).
Proof.
  intros Ht Hb Hm. destruct (erring_laws n) as (_ & HC & _).
  pose proof (roundtrip (E := encode_frames R n) t bs rest Ht Hb) as Hrun.
  pose proof (refining_agree n (m - n) (overflowing_decode R) overflowing_bottom) as Href.
  replace (n + (m - n))%nat with m in Href by lia. apply agree_decode in Href. split.
  - by apply (agree_refining n 0 (decode (erring_frames R n))).
  - intros limit Hlim. rewrite run_depth_limit.
    apply (agree_under Refining n 0 (decode (erring_frames R n)) _ limit); [done|done|lia|lia|].
    rewrite <- Hrun. apply (agree_bounded n 0 _ _ limit); [|lia|lia].
    apply (agree_decode _ _ _ _ (bounded_agree n)).
Qed.

(** What is accepted under a limit is an encoding. *)
Lemma frames_canonical limit n i t j :
  0 <= limit < prim_max U32 -> limit < Z.of_nat n ->
  run (decode_with_depth_limit limit (decode_frames R n)) i = Done (Ok t, j) ->
  levels R n t /\ exists bs, wbytes (encode_to (encode_frames R n) t) = Done bs /\ i = bs ++ j.
Proof.
  intros Hlim Hn. rewrite frames_limited_erring by done. pose proof (erring_decode_laws n) as HD.
  pose proof (decode_with_depth_limit_run (erring_frames R n) (levels R n) limit i Hlim) as Hrun.
  case_match; [|destruct Hrun as (e & k & ->); congruence]. rewrite Hrun. intros Ht. split.
  - by eapply decode_wf.
  - destruct (erring_laws n) as (_ & _ & Hcan). by apply Hcan.
Qed.
End recursive.
Arguments recursive : clear implicits.
