(* ===== verification/RecursiveTypes.v ===== *)
(** * The recursive types of the tests ([src/tests/mod.rs])

    [Recursive<u32>] of [recursive_variant_1_encode_works], [Foo] and [Bar] of
    [recursive_type] and [Enum] of
    [deserializing_of_big_recursively_nested_enum_works], as unrollings of what
    is derived for them, and the guarantees of a depth limit for such types. *)

From stdpp Require Import pretty.
From S2P Require Import Prelude Ints Errors Input Discipline Output Traits Primitives Compact.
From S2P Require Import CompactTheory Sequences SequencesTheory Composite Limits Derive DeriveTheory.
From S2P Require Import Nesting Recursive.

Section types.
Context `{Target}.

Definition named_field {F} (name : string) (c : Encode F * Decode F) : field F :=
  mkField name (FieldNone c.1 c.2) 0 0.

Definition Vec_impl {T} (c : Encode T * Decode T) : Encode (list T) * Decode (list T) :=
  (vec_encode c.1, vec_decode c.2).
Definition Box_impl {T} (c : Encode T * Decode T) : Encode T * Decode T :=
  (pointer_encode c.1, box_decode c.2).

(** ** [struct Recursive<N> { data: N, other: Vec<Recursive<N>> }], with [N = u32] *)

Inductive Recursive : Type := mkRecursive (data : Z) (other : list Recursive).

Definition Recursive_into (x : Z * (list Recursive * unit)) : Recursive := mkRecursive x.1 x.2.1.
Definition Recursive_project (r : Recursive) : Z * (list Recursive * unit) :=
  let '(mkRecursive data other) := r in (data, (other, tt)).

Definition Recursive_fields (c : Encode Recursive * Decode Recursive) : fields (Z * (list Recursive * unit)) :=
  FCons (named_field "data" (prim_encode U32, prim_decode U32))
    (FCons (named_field "other" (Vec_impl c)) FNil).

Definition Recursive_impl (size_of : Z) (c : Encode Recursive * Decode Recursive)
    : Encode Recursive * Decode Recursive :=
  (destructured Recursive_project (struct_encode size_of (Recursive_fields c)),
   construct Recursive_into (struct_decode size_of false "Recursive" true (Recursive_fields c))).

Definition Recursive_values (wf : Recursive -> Prop) (r : Recursive) : Prop :=
  let '(mkRecursive data other) := r in in_range U32 data /\ Forall wf other.

Definition Recursive_type (size_of : Z) : recursive Recursive :=
  derived_recursive size_of (Recursive_impl size_of) Recursive_values.

(** ** [enum Foo { T(Box<Bar>), A }] and [struct Bar { field: Foo }] *)

Inductive Foo : Type := Foo_T (bar : Bar) | Foo_A
with Bar : Type := mkBar (field : Foo).

Definition Bar_fields (c : Encode Foo * Decode Foo) : fields (Foo * unit) :=
  FCons (named_field "field" c) FNil.

Definition Bar_impl (c : Encode Foo * Decode Foo) : Encode Bar * Decode Bar :=
  (destructured (fun '(mkBar foo) => (foo, tt)) (struct_encode (words 1) (Bar_fields c)),
   construct (fun x => mkBar x.1) (struct_decode (words 1) false "Bar" true (Bar_fields c))).

Definition Foo_repr : Type := Bar * unit + (unit + Empty_set).
Definition Foo_into (x : Foo_repr) : Foo :=
  match x with
  | inl (bar, _) => Foo_T bar
  | inr (inl _) => Foo_A
  | inr (inr e) => match e with end
  end.
Definition Foo_project (foo : Foo) : Foo_repr :=
  match foo with
  | Foo_T bar => inl (bar, tt)
  | Foo_A => inr (inl tt)
  end.

Definition Foo_variants (c : Encode Foo * Decode Foo) : variants Foo_repr :=
  VCons (mkVariant "T" false None None false (FCons (named_field "0" (Box_impl (Bar_impl c))) FNil))
    (VCons (mkVariant "A" false None None false FNil) VNil).

Definition Foo_impl (c : Encode Foo * Decode Foo) : Encode Foo * Decode Foo :=
  (destructured Foo_project (enum_encode (words 1) (Foo_variants c)),
   construct Foo_into (enum_decode (words 1) "Foo" (Foo_variants c))).

Definition Foo_values (wf : Foo -> Prop) (foo : Foo) : Prop :=
  match foo with
  | Foo_T (mkBar foo) => wf foo
  | Foo_A => True
  end.

Definition Foo_type : recursive Foo := derived_recursive (words 1) Foo_impl Foo_values.

(** ** [enum Enum { Nested(Vec<Enum>), Data(Data), Variant1, .. }] *)

(** The variants without fields. *)
Fixpoint units (n : nat) : Type :=
  match n with
  | O => Empty_set
  | S n => unit + units n
  end.

Fixpoint unit_variants (first n : nat) : variants (units n) :=
  match n with
  | O => VNil
  | S n =>
      VCons (mkVariant (String.append "Variant" (pretty first)) false None None false FNil)
        (unit_variants (S first) n)
  end.

Inductive Enum : Type :=
| Enum_Nested (enums : list Enum)
| Enum_Data (data : list Z)
| Enum_Variant (which : units 41).

(** [struct Data([u8; 1472])]. *)
Definition Data_fields : fields (list Z * unit) :=
  FCons (named_field "0" (array_encode (prim_encode U8) 1472, array_decode (prim_decode U8) 1472)) FNil.
Definition Data_impl : Encode (list Z) * Decode (list Z) :=
  (destructured (fun data => (data, tt)) (struct_encode 1472 Data_fields),
   construct fst (struct_decode 1472 false "Data" false Data_fields)).

Definition Enum_repr : Type := list Enum * unit + (list Z * unit + units 41).
Definition Enum_into (x : Enum_repr) : Enum :=
  match x with
  | inl (enums, _) => Enum_Nested enums
  | inr (inl (data, _)) => Enum_Data data
  | inr (inr which) => Enum_Variant which
  end.
Definition Enum_project (e : Enum) : Enum_repr :=
  match e with
  | Enum_Nested enums => inl (enums, tt)
  | Enum_Data data => inr (inl (data, tt))
  | Enum_Variant which => inr (inr which)
  end.

Definition Enum_variants_of (others : variants (units 41)) (c : Encode Enum * Decode Enum)
    : variants Enum_repr :=
  VCons (mkVariant "Nested" false None None false (FCons (named_field "0" (Vec_impl c)) FNil))
    (VCons (mkVariant "Data" false None None false (FCons (named_field "0" Data_impl) FNil)) others).
Definition Enum_variants : Encode Enum * Decode Enum -> variants Enum_repr :=
  Enum_variants_of (unit_variants 1 41).

Definition Enum_impl (size_of : Z) (c : Encode Enum * Decode Enum) : Encode Enum * Decode Enum :=
  (destructured Enum_project (enum_encode size_of (Enum_variants c)),
   construct Enum_into (enum_decode size_of "Enum" (Enum_variants c))).

Definition Enum_values (wf : Enum -> Prop) (e : Enum) : Prop :=
  match e with
  | Enum_Nested enums => Forall wf enums
  | Enum_Data data => Forall (in_range U8) data /\ length data = 1472%nat
  | Enum_Variant _ => True
  end.

Definition Enum_type (size_of : Z) : recursive Enum :=
  derived_recursive size_of (Enum_impl size_of) Enum_values.

(** ** The laws *)

Lemma named_field_ok {F A} name (c : Encode F * Decode F) wf (fs : fields A) wfs :
  CodecLaws c.1 c.2 wf -> fields_ok fs wfs ->
  fields_ok (FCons (named_field name c) fs) (fun x => wf x.1 /\ wfs x.2).
Proof. intros Hc Hfs. by apply fields_ok_cons. Qed.

Definition Recursive_wf (wf : Recursive -> Prop) (x : Z * (list Recursive * unit)) : Prop :=
  in_range U32 x.1 /\ (Forall wf x.2.1 /\ True).

#[local] Instance Recursive_laws size_of :
  0 <= size_of -> vec_fits size_of -> RecursiveLaws (Recursive_type size_of).
Proof.
  intros Hs Hfits. apply derived_recursive_laws; [done|done|done| |done|].
  - intros md l c c' HD. apply construct_agree, struct_agree.
    apply fields_agree_cons; [apply plain_field_agree, prim_agree|].
    apply fields_agree_cons; [|constructor]. by apply plain_field_agree, agree_decode, vec_agree.
  - intros c wf Hc HC.
    assert (fields_ok (Recursive_fields c) (Recursive_wf wf)) as Hok.
    { apply (named_field_ok _ _ (in_range U32) _ (fun x => Forall wf x.1 /\ True)); [apply prim_codec_laws|].
      apply (named_field_ok _ _ (Forall wf) _ (fun _ => True)); [|constructor].
      apply vec_codec_laws; [by rewrite Hc|done]. }
    split.
    + apply (construct_codec_iff Recursive_into Recursive_project) with (wf := Recursive_wf wf);
        [by intros [x [y []]]|by intros []|intros []; unfold Recursive_wf; simpl; naive_solver|].
      by apply struct_codec_laws.
    + intros Hcan. apply construct_canonical; [by intros [x [y []]]|]. apply (struct_canonical _ _ _ _ _ _ Hok).
      split; [apply prim_canonical|]. split; [|done]. apply (vec_canonical _ _ wf); [by rewrite Hc|done|done].
Qed.

(** [Bar] is its only field. *)
Lemma Bar_laws c wf : CodecLaws c.1 c.2 wf ->
  CodecLaws (Bar_impl c).1 (Bar_impl c).2 (fun '(mkBar foo) => wf foo).
Proof.
  intros HC. apply construct_codec_iff with (wf := fun x => wf x.1 /\ True);
    [by intros [x []]|by intros []|intros []; simpl; naive_solver|].
  apply (struct_codec_laws (words 1) false "Bar" true (Bar_fields c)); [by apply words_nonneg| |done].
  apply (named_field_ok _ _ wf _ (fun _ => True)); [done|constructor].
Qed.

Lemma Bar_canonical c wf : CodecLaws c.1 c.2 wf -> Canonical c.1 c.2 ->
  Canonical (Bar_impl c).1 (Bar_impl c).2.
Proof.
  intros HC Hcan. apply construct_canonical; [by intros [x []]|].
  apply (struct_canonical (words 1) false "Bar" true (Bar_fields c) (fun x => wf x.1 /\ True)); [|done].
  apply (named_field_ok _ _ wf _ (fun _ => True)); [done|constructor].
Qed.

Definition Foo_wf (wf : Foo -> Prop) (x : Foo_repr) : Prop :=
  match x with
  | inl a => false = false /\ ((fun '(mkBar foo) => wf foo) a.1 /\ True)
  | inr r => match r with inl a => false = false /\ True | inr _ => True end
  end.

Lemma Foo_variants_ok c wf : CodecLaws c.1 c.2 wf -> variants_ok (Foo_variants c) (Foo_wf wf).
Proof.
  intros HC.
  assert (fields_ok (FCons (named_field "0" (Box_impl (Bar_impl c))) FNil)
    (fun x => (fun '(mkBar foo) => wf foo) x.1 /\ True)) as HT.
  { apply (named_field_ok _ _ (fun '(mkBar foo) => wf foo) _ (fun _ => True)); [|constructor].
    apply box_codec_laws. by apply Bar_laws. }
  exact (variants_ok_cons _ _ (mkVariant "T" false None None false _) _ _ _ HT
    (variants_ok_cons _ _ (mkVariant "A" false None None false FNil) _ _ _ fields_ok_nil variants_ok_nil)).
Qed.

#[local] Instance Foo_laws : RecursiveLaws Foo_type.
Proof.
  apply derived_recursive_laws; [by apply words_nonneg|done|done| |done|].
  - intros md l c c' HD. apply construct_agree, enum_agree.
    apply variants_agree_cons; [|repeat constructor]. apply fields_agree_cons; [|constructor].
    apply plain_field_agree, agree_decode, box_agree, construct_agree, struct_agree.
    apply fields_agree_cons; [|constructor]. by apply plain_field_agree, agree_decode.
  - intros c wf Hc HC. split.
    + apply (construct_codec_iff Foo_into Foo_project) with (wf := Foo_wf wf);
        [by intros [[b []]|[[]|[]]]|by intros []|intros [[]|]; simpl; naive_solver|].
      apply enum_codec_laws; [by apply words_nonneg|by apply Foo_variants_ok|].
      apply (bool_decide_unpack (NoDup _)). by vm_compute.
    + intros Hcan. apply construct_canonical; [by intros [[b []]|[[]|[]]]|].
      apply enum_canonical. split; [|by split]. split; [|done].
      pose proof (Bar_laws c wf HC). pose proof (Bar_canonical c wf HC Hcan).
      apply (box_canonical _ _ (fun '(mkBar foo) => wf foo)).
Qed.

(** Variants without fields. *)
Lemma unit_variants_ok first n : exists wf, variants_ok (unit_variants first n) wf /\ forall u, wf u.
Proof.
  revert first. induction n as [|n IH]; intros first.
  - exists (fun _ => True). split; [constructor|done].
  - destruct (IH (S first)) as (wf & Hok & Hwf).
    eexists. split; [by apply variants_ok_cons; [constructor|]|]. intros [[]|u]; [done|apply Hwf].
Qed.

Lemma unit_variants_agree md l first n :
  variants_agree md l (unit_variants first n) (unit_variants first n).
Proof. revert first. induction n; intros first; [constructor|]. apply variants_agree_cons; [constructor|auto]. Qed.

Lemma unit_variants_canonical first n : variants_canonical (unit_variants first n).
Proof. revert first. induction n; intros first; simpl; auto. Qed.

Lemma Data_laws :
  CodecLaws Data_impl.1 Data_impl.2 (fun data => Forall (in_range U8) data /\ length data = 1472%nat) /\
  Canonical Data_impl.1 Data_impl.2.
Proof.
  assert (fields_ok Data_fields (fun x => array_wf (in_range U8) 1472 x.1 /\ True)) as Hok.
  { apply (named_field_ok _ _ (array_wf (in_range U8) 1472) _ (fun _ => True)); [|constructor]. apply _. }
  split.
  - apply construct_codec_iff with (wf := fun x => array_wf (in_range U8) 1472 x.1 /\ True);
      [by intros [x []]|done|intros t; unfold array_wf; simpl; naive_solver|].
    by apply struct_codec_laws.
  - apply construct_canonical; [by intros [x []]|].
    apply (struct_canonical _ _ _ _ _ _ Hok). split; [|done].
    apply (array_canonical _ _ (in_range U8)), prim_canonical.
Qed.

Lemma Data_agree md l : agree md l 0 (decode Data_impl.2) (decode Data_impl.2).
Proof.
  destruct Data_laws as [HC _]. pose proof (codec_decode (E := Data_impl.1) (D := Data_impl.2)).
  eapply flat_agree; [apply (decode_wb (D := Data_impl.2))|]. by intros [].
Qed.

Lemma Enum_variants_ok c wf : vec_fits (D_size_of c.2) -> CodecLaws c.1 c.2 wf ->
  exists wfs, variants_ok (Enum_variants c) wfs /\ forall e, wfs (Enum_project e) <-> Enum_values wf e.
Proof.
  intros Hfits HC. destruct (unit_variants_ok 1 41) as (wfu & Hu & Hwfu). destruct Data_laws as [HD _].
  pose proof (variants_ok_cons _ _ (mkVariant "Data" false None None false _) _ _ _
    (named_field_ok "0" Data_impl _ FNil _ HD fields_ok_nil) Hu) as HDu.
  pose proof (variants_ok_cons _ _ (mkVariant "Nested" false None None false _) _ _ _
    (named_field_ok "0" (Vec_impl c) _ FNil _ (vec_codec_laws _ _ _ Hfits) fields_ok_nil) HDu) as HN.
  eexists. split; [exact HN|]. intros [enums|data|u]; cbn [Enum_project Enum_values v_skip fst]; [tauto|tauto|].
  split; [done|]. intros _. apply Hwfu.
Qed.

Lemma Enum_encode_indep size_of others E D D' :
  enum_encode size_of (Enum_variants_of others (E, D)) = enum_encode size_of (Enum_variants_of others (E, D')).
Proof. reflexivity. Qed.

Lemma Enum_decode_indep size_of others E E' D :
  enum_decode size_of "Enum" (Enum_variants_of others (E, D))
  = enum_decode size_of "Enum" (Enum_variants_of others (E', D)).
Proof. reflexivity. Qed.

#[local] Instance Enum_laws size_of :
  0 <= size_of -> vec_fits size_of -> RecursiveLaws (Enum_type size_of).
Proof.
  intros Hs Hfits. apply derived_recursive_laws; [done| | | |done|].
  - intros E D D'. cbn [fst Enum_impl]. unfold Enum_variants. by rewrite (Enum_encode_indep _ _ E D D').
  - intros E E' D. cbn [snd Enum_impl]. unfold Enum_variants. by rewrite (Enum_decode_indep _ _ E E' D).
  - intros md l c c' HD. apply construct_agree, enum_agree.
    apply variants_agree_cons; [|apply variants_agree_cons; [|apply unit_variants_agree]].
    + apply fields_agree_cons; [|constructor]. by apply plain_field_agree, agree_decode, vec_agree.
    + apply fields_agree_cons; [|constructor]. apply plain_field_agree, Data_agree.
  - intros c wf Hc HC. rewrite <- Hc in Hfits. split.
    + destruct (Enum_variants_ok c wf Hfits HC) as (wfs & Hok & Hiff).
      apply (construct_codec_iff Enum_into Enum_project) with (wf := wfs);
        [by intros [[e []]|[[d []]|u]]|by intros []|done|].
      apply enum_codec_laws; [done|done|]. apply (bool_decide_unpack (NoDup _)). by vm_compute.
    + intros Hcan. apply construct_canonical; [by intros [[e []]|[[d []]|u]]|]. apply enum_canonical.
      split; [|split; [|apply unit_variants_canonical]]; (split; [|done]).
      * by apply (vec_canonical _ _ wf).
      * apply Data_laws.
Qed.

(** ** Without a limit *)

(** A zero byte is the beginning of [Foo::T], and the next [Foo] follows. *)
Lemma Foo_descends D i msg :
  run (decode D) i = Panic msg -> run (decode (decode_body Foo_type D)) (x00 :: i) = Panic msg.
Proof.
  intros HD.
  change (run (dec_map Foo_into (enum_decode_fn "Foo" (Foo_variants (overflow_encode (words 1), D)))) (x00 :: i)
    = Panic msg).
  unfold enum_decode_fn. rewrite run_dec_map, run_chained_byte. simpl.
  unfold try_bind, dec_map, default_decode_into, decode_field, chain_err, try_bind. simpl.
  rewrite !run_bind, HD. done.
Qed.

Lemma unlimited_overflow n : run (decode (decode_frames Foo_type n)) (repeat x00 n) = Panic unbounded_recursion.
Proof. induction n as [|n IH]; [done|]. by apply Foo_descends. Qed.
End types.

(** ** The depth limit and the stack *)

Section guarantees.
Context `{Target}.

(** C17: a depth limit bounds the recursion of the decoder of a recursive type:
    on a stack with room for [limit + 1] nested calls decoding never overflows,
    whatever the input is and whatever it answers, and the result is the same on
    every such stack.  This holds of [Foo], of [Recursive<u32>] and of [Enum].
    Without a limit it does not: on a stack of any size, enough zero bytes make the
    decoder of [Foo] overflow it. *)
Theorem recursion_bounded :
  (forall T (R : recursive T) I (HI : Input I) (HL : InputLaws I) limit n m (i : I),
     RecursiveLaws R -> 0 <= limit < prim_max U32 -> limit < Z.of_nat n -> limit < Z.of_nat m ->
     (exists r j, run (decode_with_depth_limit limit (decode_frames R n)) i = Done (r, j)) /\
     run (decode_with_depth_limit limit (decode_frames R n)) i
     = run (decode_with_depth_limit limit (decode_frames R m)) i) /\
  RecursiveLaws Foo_type /\
  (forall size_of, 0 <= size_of -> vec_fits size_of ->
     RecursiveLaws (Recursive_type size_of) /\ RecursiveLaws (Enum_type size_of)) /\
  (forall n, run (decode (decode_frames Foo_type n)) (repeat x00 n) = Panic unbounded_recursion).
Proof.
  split_and!; [|apply Foo_laws|auto using Recursive_laws, Enum_laws|apply unlimited_overflow].
  intros T R I HI HL limit n m i HR Hlim Hn Hm. split; [by apply frames_total|].
  apply (frames_limited R); try done; apply overflowing_bottom.
Qed.

(** C18: a value of a recursive type with [n] levels comes back on every stack with
    [n] frames, without a limit and under every limit of at least [n]; and what
    is accepted under a limit is the encoding of the value that is returned. *)
Theorem recursive_codec_spec {T} (R : recursive T) m :
  RecursiveLaws R ->
  (forall n t bs rest, levels R n t -> encode (encode_frames R n) t = Done bs -> (n <= m)%nat ->
     run (decode (decode_frames R m)) (bs ++ rest) = Done (Ok t, rest) /\
     forall limit, Z.of_nat n <= limit < prim_max U32 ->
       run (decode_with_depth_limit limit (decode_frames R m)) (bs ++ rest) = Done (Ok t, rest)) /\
  (forall limit i t j, 0 <= limit < prim_max U32 -> limit < Z.of_nat m ->
     run (decode_with_depth_limit limit (decode_frames R m)) i = Done (Ok t, j) ->
     levels R m t /\ exists bs, wbytes (encode_to (encode_frames R m) t) = Done bs /\ i = bs ++ j).
Proof.
  intros HR. split; [|intros; by apply (frames_canonical R limit)].
  intros n t bs rest Ht Hb Hm. destruct (erring_laws R n) as (_ & HC & _).
  apply (frames_roundtrip R n); [done| |done]. by apply (encode_sound (EncodeLaws := codec_encode (D := erring_frames R n))).
Qed.
End guarantees.

(** ** Witnesses *)

Section witnesses.
Existing Instance x86_64.

Lemma recursion_bounded_witness :
  (exists r j, run (decode_with_depth_limit 2 (decode_frames Foo_type 3)) (repeat x00 1000) = Done (r, j)) /\
  run (decode_with_depth_limit 2 (decode_frames Foo_type 3)) (repeat x00 1000)
  = run (decode_with_depth_limit 2 (decode_frames Foo_type 100)) (repeat x00 1000).
Proof.
  destruct recursion_bounded as (Hbounded & HFoo & _).
  apply (Hbounded Foo Foo_type (list byte) slice_input _); [exact HFoo|done|done|done].
Defined.

Definition two_levels : Recursive := mkRecursive 7 [mkRecursive 1 []; mkRecursive 2 []].

Lemma recursive_codec_spec_witness :
  run (decode_with_depth_limit 2 (decode_frames (Recursive_type 32) 5))
    [x07; x00; x00; x00; x08; x01; x00; x00; x00; x00; x02; x00; x00; x00; x00; xff]
  = Done (Ok two_levels, [xff]) /\
  levels (Recursive_type 32) 5 two_levels.
Proof.
  assert (RecursiveLaws (Recursive_type 32)) as HR by (apply Recursive_laws; [done|by apply vec_fits_64]).
  destruct (recursive_codec_spec (Recursive_type 32) 5 HR) as [Hrt Hcan].
  assert (run (decode_with_depth_limit 2 (decode_frames (Recursive_type 32) 5))
    [x07; x00; x00; x00; x08; x01; x00; x00; x00; x00; x02; x00; x00; x00; x00; xff]
    = Done (Ok two_levels, [xff])) as Hrun.
  { apply (Hrt 2%nat two_levels
      [x07; x00; x00; x00; x08; x01; x00; x00; x00; x00; x02; x00; x00; x00; x00] [xff]); [|reflexivity|lia|done].
    split; [done|]. repeat constructor; done. }
  split; [exact Hrun|]. by apply (Hcan 2 _ two_levels [xff]) in Hrun as [? _].
Defined.
End witnesses.
