(* ===== verification/Conformance.v ===== *)
(** * Unit tests as computations

    The crate's source files end with unit tests.  Each test is translated to a
    computation on the model: an assertion that does not hold and an [unwrap] of an
    error panic, so that a test passes if it ends with [Done tt].  The files that
    follow translate the tests and show that the model passes them, for all inputs
    where a test runs on generated or very large ones. *)

From stdpp Require Import sorting.
From S2P Require Import Prelude Ints Errors Input Output Traits.

Definition test : Type := outcome unit.
Definition passes (t : test) : Prop := t = Done tt.

(** [assert!], [assert_eq!]. *)
Definition assert (b : bool) : test := if b then Done tt else Panic "assertion failed".
Definition assert_eq {A} `{EqDecision A} (x y : A) : test := assert (bool_decide (x = y)).

(** [Result::unwrap], [Option::unwrap], [Result::unwrap_err]. *)
Definition unwrap {A} (r : Result A Error) : outcome A :=
  match r with Ok a => Done a | Err _ => Panic "called `Result::unwrap()` on an `Err` value" end.
Definition unwrap_option {A} (o : option A) : outcome A :=
  match o with Some a => Done a | None => Panic "called `Option::unwrap()` on a `None` value" end.
Definition unwrap_err {A} (r : Result A Error) : outcome Error :=
  match r with Ok _ => Panic "called `Result::unwrap_err()` on an `Ok` value" | Err e => Done e end.

Definition is_err {A} (r : Result A Error) : bool := negb (is_ok r).

(** [T::decode(&mut &encoded[..])]. *)
Definition decode_slice {T} (D : Decode T) (encoded : list byte) : outcome (Result T Error) :=
  '(r, _) ← run (decode D) encoded; Done r.

Fixpoint all_of (ts : list test) : test :=
  match ts with
  | [] => Done tt
  | t :: ts => t ;; all_of ts
  end.

(** [for x in l { .. }]. *)
Definition for_each {A} (l : list A) (body : A -> test) : test := all_of (map body l).

(** [#[should_panic]]. *)
Definition should_panic {A} (t : outcome A) : test :=
  match t with Done _ => Panic "test did not panic as expected" | Panic _ => Done tt end.

(** [hexify]: two digits for each byte, with a space between. *)
Definition hex_digit (n : Z) : Ascii.ascii :=
  Ascii.ascii_of_nat (Z.to_nat (if n <? 10 then 48 + n else 87 + n)).
Definition hex_byte (b : byte) : string :=
  String (hex_digit (byte.unsigned b / 16)) (String (hex_digit (byte.unsigned b mod 16)) EmptyString).
Fixpoint hexify (bytes : list byte) : string :=
  match bytes with
  | [] => EmptyString
  | [b] => hex_byte b
  | b :: bytes => String.append (hex_byte b) (String.append " " (hexify bytes))
  end.

(** A byte string, and the bytes of a [&str] as numbers. *)
Definition bytes_of (l : list Z) : list byte := map byte.of_Z l.
Definition str (s : string) : list Z := map (fun a => Z.of_nat (Ascii.nat_of_ascii a)) (String.list_ascii_of_string s).

(** [(a..b).collect()]. *)
Definition range (a b : Z) : list Z := seqZ a (b - a).

#[export] Instance Error_eq_dec : EqDecision Error.
Proof.
  refine (fix go (e f : Error) : Decision (e = f) :=
    match e, f with
    | mkError (Some c) d, mkError (Some c') d' =>
        match go c c', decide (d = d') with
        | left Hc, left Hd => left _
        | right Hc, _ => right _
        | _, right Hd => right _
        end
    | mkError None d, mkError None d' => match decide (d = d') with left Hd => left _ | right Hd => right _ end
    | _, _ => right _
    end); congruence.
Defined.

#[export] Instance Result_eq_dec {A E} `{EqDecision A, EqDecision E} : EqDecision (Result A E).
Proof. solve_decision. Defined.

(** ** Lemmas *)

Lemma passes_all_of ts : passes (all_of ts) <-> Forall passes ts.
Proof.
  induction ts as [|t ts IH]; simpl; [done|]. rewrite Forall_cons, <- IH. unfold passes.
  destruct t as [[]|]; simpl; naive_solver.
Qed.

Lemma passes_for_each {A} (l : list A) body : passes (for_each l body) <-> Forall (fun x => passes (body x)) l.
Proof. unfold for_each. by rewrite passes_all_of, Forall_map. Qed.

Lemma passes_assert_eq {A} `{EqDecision A} (x y : A) : passes (assert_eq x y) <-> x = y.
Proof. unfold passes, assert_eq, assert. case_bool_decide; naive_solver. Qed.
