(* ===== verification/CompactTests.v ===== *)
(** * The unit tests of [src/src/compact.rs]

    The tests of [mod tests], under their names. *)

From S2P Require Import Prelude Ints Errors Input Discipline Output Traits Primitives Compact.
From S2P Require Import CompactTheory Sequences SequencesTheory Composite Collections EncodeTotal Conformance.

(** A method of a wrapped input, called on the wrapper's fields and the input it
    borrows. *)
Definition call {S A} (method : S -> prog (A * S)) (self : S * list byte) : outcome (A * (S * list byte)) :=
  '(r, s, i) ← run (method self.1) self.2; Done (r, (s, i)).

Section tests.
Context `{Target}.

Definition prefix_input_empty_read_unchanged : test :=
  let input := (Some x01, [x02; x03; x04]) in
  '(r, input) ← call (w_remaining_len prefix_input) input;
  assert_eq r (Ok (Some 4)) ;;
  '(r, input) ← call (w_read prefix_input 0) input;
  assert_eq r (Ok []) ;;
  '(r, input) ← call (w_remaining_len prefix_input) input;
  assert_eq r (Ok (Some 4)) ;;
  '(r, input) ← call (w_read_byte prefix_input) input;
  assert_eq r (Ok x01).

(** The body that the tests of the five types share. *)
Definition compact_len_case (c : compact_ty) '((n, l) : Z * Z) : test :=
  encoded ← encode (compact_encode c) n;
  assert_eq (zlen encoded) l ;;
  assert_eq (compact_len c n) l ;;
  r ← decode_slice (compact_decode c) encoded;
  decoded ← unwrap r;
  assert_eq decoded n.

Definition compact_128_encoding_works : test :=
  for_each
    [(0, 1); (63, 1); (64, 2); (16383, 2); (16384, 4); (1073741823, 4); (1073741824, 5); (2 ^ 32 - 1, 5);
     (2 ^ 32, 6); (2 ^ 40, 7); (2 ^ 48, 8); (2 ^ 56 - 1, 8); (2 ^ 56, 9); (2 ^ 64 - 1, 9); (2 ^ 64, 10);
     (2 ^ 72, 11); (2 ^ 80, 12); (2 ^ 88, 13); (2 ^ 96, 14); (2 ^ 104, 15); (2 ^ 112, 16); (2 ^ 120 - 1, 16);
     (2 ^ 120, 17); (prim_max U128, 17)]
    (compact_len_case CU128).

Definition compact_64_encoding_works : test :=
  for_each
    [(0, 1); (63, 1); (64, 2); (16383, 2); (16384, 4); (1073741823, 4); (1073741824, 5); (2 ^ 32 - 1, 5);
     (2 ^ 32, 6); (2 ^ 40, 7); (2 ^ 48, 8); (2 ^ 56 - 1, 8); (2 ^ 56, 9); (prim_max U64, 9)]
    (compact_len_case CU64).

Definition compact_32_encoding_works : test :=
  for_each
    [(0, 1); (63, 1); (64, 2); (16383, 2); (16384, 4); (1073741823, 4); (1073741824, 5); (prim_max U32, 5)]
    (compact_len_case CU32).

(** A value that is one too large for [Compact<T>], encoded as [Compact<u32>]. *)
Definition too_large (c : compact_ty) (n : Z) : test :=
  encoded ← encode (compact_encode CU32) n;
  r ← decode_slice (compact_decode c) encoded;
  assert (is_err r).

Definition compact_16_encoding_works : test :=
  for_each [(0, 1); (63, 1); (64, 2); (16383, 2); (16384, 4); (65535, 4)] (compact_len_case CU16) ;;
  too_large CU16 65536.

Definition compact_8_encoding_works : test :=
  for_each [(0, 1); (63, 1); (64, 2); (255, 2)] (compact_len_case CU8) ;;
  too_large CU8 256.

(** [if n <= uN::MAX as u64 { .. }]: the encoding of a smaller type is the same. *)
Definition compatible (c : compact_ty) (encoded : list byte) (n : Z) (s : string) : test :=
  if n <=? prim_max (compact_prim c) then
    r ← decode_slice (compact_decode c) encoded;
    d ← unwrap r;
    assert_eq d n ;;
    encoded ← encode (compact_encode c) n;
    assert_eq (hexify encoded) s ;;
    r ← decode_slice (compact_decode CU64) encoded;
    d ← unwrap r;
    assert_eq d n
  else Done tt.

Definition compact_integers_encoded_as_expected : test :=
  for_each
    [(0, "00"); (63, "fc"); (64, "01 01"); (16383, "fd ff"); (16384, "02 00 01 00"); (1073741823, "fe ff ff ff");
     (1073741824, "03 00 00 00 40"); (2 ^ 32 - 1, "03 ff ff ff ff"); (2 ^ 32, "07 00 00 00 00 01");
     (2 ^ 40, "0b 00 00 00 00 00 01"); (2 ^ 48, "0f 00 00 00 00 00 00 01");
     (2 ^ 56 - 1, "0f ff ff ff ff ff ff ff"); (2 ^ 56, "13 00 00 00 00 00 00 00 01");
     (prim_max U64, "13 ff ff ff ff ff ff ff ff")]%string
    (fun '(n, s) =>
       encoded ← encode (compact_encode CU64) n;
       assert_eq (hexify encoded) s ;;
       r ← decode_slice (compact_decode CU64) encoded;
       d ← unwrap r;
       assert_eq d n ;;
       compatible CU32 encoded n s ;; compatible CU16 encoded n s ;; compatible CU8 encoded n s).

(** [struct Wrapper(u8)] and [impl CompactAs for Wrapper]. *)
Record Wrapper_u8 : Type := mkWrapper { wrapped : Z }.

#[local] Instance Wrapper_eq_dec : EqDecision Wrapper_u8.
Proof. solve_decision. Defined.

#[local] Instance Wrapper_compact_as : CompactAs Wrapper_u8 Z := {|
  encode_as := wrapped; decode_from x := Ok (mkWrapper x) |}.

Definition compact_as_8_encoding_works : test :=
  for_each [(0, 1); (63, 1); (64, 2); (255, 2)] (fun '(n, l) =>
    encoded ← encode (compact_as_encode (compact_encode CU8)) (mkWrapper n);
    assert_eq (zlen encoded) l ;;
    assert_eq (compact_len CU8 n) l ;;
    r ← decode_slice (compact_as_decode 1 (compact_decode CU8)) encoded;
    wrapper ← unwrap r;
    assert_eq wrapper (mkWrapper n)).

(** The buffer of [using_encoded] is large enough. *)
Definition compact_using_encoded_arrayvec_size : test :=
  for_each [CU8; CU16; CU32; CU64; CU128] (fun c =>
    _ ← using_encoded (compact_encode c) (prim_max (compact_prim c)); Done tt) ;;
  for_each [CU8; CU16; CU32; CU64; CU128] (fun c =>
    _ ← using_encoded (compact_ref_encode c) (prim_max (compact_prim c)); Done tt).

Definition array_vec_output_oob : test :=
  should_panic (array_vec_write [x01; x02; x03; x04; x05] (mkArrayVecWrapper [] : ArrayVecWrapper 4)).

Definition array_vec_output_fits : test :=
  _ ← array_vec_write [x01; x02; x03; x04] (mkArrayVecWrapper [] : ArrayVecWrapper 4); Done tt.

(** [check_bound!]: [(<ty>::MAX >> 2) as typ1 << 2 | m] is not the shortest encoding. *)
Definition check_bound (m : Z) (ty typ1 : prim) (ty2 : compact_ty * string) : test :=
  let enc := Z.lor (shl typ1 (Z.shiftr (prim_max ty) 2) 2) m in
  r ← decode_slice (compact_decode ty2.1) (to_le_bytes typ1 enc);
  assert_eq r (Err (Error_from ty2.2)).

Definition check_bound_u32 (ty2 : compact_ty * string) : test :=
  r ← decode_slice (compact_decode ty2.1) (bytes_of [3; 255; 255; 255; Z.shiftr 255 2]);
  assert_eq r (Err (Error_from ty2.2)).

Definition check_bound_high (s : Z) (ty2 : compact_ty * string) : test :=
  let dest := bytes_of ([wrap U8 (3 + Z.shiftl (s - 4) 2)] ++ repeat 255 (Z.to_nat (s - 1)) ++ [0]) in
  r ← decode_slice (compact_decode ty2.1) dest;
  assert_eq r (Err (Error_from ty2.2)).

(** [for a in [..].iter()]: encoded and decoded again. *)
Definition compact_roundtrip (c : compact_ty) (a : Z) : test :=
  e ← encode (compact_encode c) a;
  r ← decode_slice (compact_decode c) e;
  d ← unwrap r;
  assert_eq a d.

Definition compact_u64_test : test :=
  let max := prim_max U64 in
  for_each [max; max - 1; shl U64 max 8; shl U64 max 8 - 1; shl U64 max 16; shl U64 max 16 - 1]
    (compact_roundtrip CU64).

Definition compact_u128_test : test :=
  for_each [prim_max U64; prim_max U64 - 10; prim_max U128; prim_max U128 - 10] (compact_roundtrip CU128).

Definition should_avoid_overlapping_definition : test :=
  for_each [(CU8, U8_OUT_OF_RANGE); (CU16, U16_OUT_OF_RANGE); (CU32, U32_OUT_OF_RANGE); (CU64, U64_OUT_OF_RANGE);
            (CU128, U128_OUT_OF_RANGE)] (check_bound 1 U8 U16) ;;
  for_each [(CU16, U16_OUT_OF_RANGE); (CU32, U32_OUT_OF_RANGE); (CU64, U64_OUT_OF_RANGE); (CU128, U128_OUT_OF_RANGE)]
    (check_bound 2 U16 U32) ;;
  for_each [(CU32, U32_OUT_OF_RANGE); (CU64, U64_OUT_OF_RANGE); (CU128, U128_OUT_OF_RANGE)] check_bound_u32 ;;
  for_each (range 5 9) (fun i =>
    for_each [(CU64, U64_OUT_OF_RANGE); (CU128, U128_OUT_OF_RANGE)] (check_bound_high i)) ;;
  for_each (range 8 17) (fun i => for_each [(CU128, U128_OUT_OF_RANGE)] (check_bound_high i)).

(** [quick_check_roundtrip!]: the property that is tested on random values. *)
Definition quick_check_roundtrip (c : compact_ty) (v : Z) : outcome bool :=
  encoded ← encode (compact_encode c) v;
  r ← decode_slice (compact_decode c) encoded;
  deencoded ← unwrap r;
  Done (bool_decide (v = deencoded)).

Definition compact_tests : list test :=
  [prefix_input_empty_read_unchanged; compact_128_encoding_works; compact_64_encoding_works;
   compact_32_encoding_works; compact_16_encoding_works; compact_8_encoding_works;
   compact_integers_encoded_as_expected; compact_as_8_encoding_works; compact_using_encoded_arrayvec_size;
   array_vec_output_oob; array_vec_output_fits; compact_u64_test; compact_u128_test;
   should_avoid_overlapping_definition].

(** The random tests pass on every value. *)
Lemma quick_check_ok c v : in_range (compact_prim c) v -> quick_check_roundtrip c v = Done true.
Proof.
  intros Hv. unfold quick_check_roundtrip, decode_slice.
  assert (compact_capacity c <= isize_max) as Hn by (pose proof isize_max_ge; destruct c; simpl; lia).
  destruct (encodable_encode _ _ _ _ v _ (compact_encodable c) Hn Hv) as (_ & _ & Hall).
  destruct (Hall I) as (bs & -> & _ & Hb). cbn [mbind outcome_bind].
  pose proof (roundtrip (CodecLaws := compact_codec_laws c) v bs [] Hv Hb) as Hd. rewrite app_nil_r in Hd.
  rewrite Hd. simpl. by rewrite bool_decide_eq_true_2.
Qed.
End tests.

(** On a 64-bit little-endian and on a 32-bit big-endian target. *)
Lemma compact_tests_pass : Forall passes (@compact_tests x86_64 ++ @compact_tests powerpc).
Proof. repeat constructor; by vm_compute. Qed.
