(* ===== verification/CodecTests.v ===== *)
(** * The unit tests of [src/src/codec.rs]

    The tests of [mod tests], under their names.  [vec_decode_right_capacity] also
    looks at the capacity of a vector, which is not part of the model, and is left
    out; [some_encode_like] only checks that implementations exist. *)

From stdpp Require Import sorting.
From S2P Require Import Prelude Ints Errors Input Discipline Output Traits Primitives Compact.
From S2P Require Import CompactTheory Sequences SequencesTheory Composite Collections Heap BytesCursor.
From S2P Require Import Fuzzer Conformance.

(** A [Bytes] that knows where its bytes are: an allocation, its content, and the
    part of it that is meant.  [bytes_from] makes a new allocation. *)
Record SharedBytes : Type := mkShared { owner : nat; buffer : list byte; offset : nat; len : nat }.

#[global] Instance SharedBytes_eq_dec : EqDecision SharedBytes.
Proof. solve_decision. Defined.

Definition shared_deref (self : SharedBytes) : list byte := take (len self) (drop (offset self) (buffer self)).

Definition shared_bytes : Bytes SharedBytes := {|
  bytes_deref := shared_deref;
  bytes_from v := mkShared 1 v 0 (length v);
  bytes_advance n self :=
    if n <=? Z.of_nat (len self)
    then Done (mkShared (owner self) (buffer self) (offset self + Z.to_nat n) (len self - Z.to_nat n))
    else Panic "cannot advance past `remaining`";
  bytes_split_to n self :=
    if n <=? Z.of_nat (len self)
    then Done (mkShared (owner self) (buffer self) (offset self) (Z.to_nat n),
               mkShared (owner self) (buffer self) (offset self + Z.to_nat n) (len self - Z.to_nat n))
    else Panic "split_to out of bounds";
|}.

(** [Bytes::slice_ref]: a part of the same memory. *)
Definition slice_ref (self subset : SharedBytes) : outcome SharedBytes :=
  if Nat.eqb (owner self) (owner subset) && Nat.leb (offset self) (offset subset)
     && Nat.leb (offset subset + len subset) (offset self + len self)
  then Done subset else Panic "subset pointer is not a part of self".

Section tests.
Context `{Target}.

Definition vec_is_sliceable : test :=
  slice ← using_encoded (vec_encode (prim_encode U8)) (str "Hello world");
  assert_eq slice (bytes_of (44 :: str "Hello world")).

Definition encode_borrowed_tuple : test :=
  let x := [1; 2; 3; 4] in
  let y := 128 in
  encoded ← encode (tuple_encode (words 2) (pointer_encode (vec_encode (prim_encode U8))) (pointer_encode (prim_encode I64)))
    (x, y);
  r ← decode_slice (tuple_decode (words 3 + 8) (vec_decode (prim_decode U8)) (prim_decode I64)) encoded;
  d ← unwrap r;
  assert_eq (x, y) d.

Definition cow_works : test :=
  let x := [1; 2; 3; 4; 5; 6] in
  let y : Cow (list Z) (list Z) := Borrowed x in
  ex ← encode (slice_encode (prim_encode U32)) x;
  ey ← encode (cow_encode (words 3) id (pointer_encode (slice_encode (prim_encode U32)))) y;
  assert_eq ex ey ;;
  r ← decode_slice (cow_decode (T := list Z) (words 3) (vec_decode (prim_decode U32))) ex;
  z ← unwrap r;
  assert_eq (cow_deref id z) x.

Definition cow_string_works : test :=
  let x := str "Hello world!" in
  let y : Cow (list Z) (list Z) := Borrowed x in
  ex ← encode str_encode x;
  ey ← encode (cow_encode (words 3) id (pointer_encode str_encode)) y;
  assert_eq ex ey ;;
  r ← decode_slice (cow_decode (T := list Z) (words 3) string_decode) ex;
  z ← unwrap r;
  assert_eq (cow_deref id z) x.

(** The body that the tests of encodings share. *)
Definition encoded_as {T} `{EqDecision T} (E : Encode T) (D : Decode T) (value : T) (expected : string) : test :=
  encoded ← encode E value;
  assert_eq (hexify encoded) expected ;;
  r ← decode_slice D encoded;
  d ← unwrap r;
  assert_eq d value.

Definition string_encoded_as_expected : test :=
  encoded_as string_encode string_decode (str "Hello, World!") "34 48 65 6c 6c 6f 2c 20 57 6f 72 6c 64 21".

Definition vec_of_u8_encoded_as_expected : test :=
  encoded_as (vec_encode (prim_encode U8)) (vec_decode (prim_decode U8)) [0; 1; 1; 2; 3; 5; 8; 13; 21; 34]
    "28 00 01 01 02 03 05 08 0d 15 22".

Definition vec_of_i16_encoded_as_expected : test :=
  encoded_as (vec_encode (prim_encode I16)) (vec_decode (prim_decode I16)) [0; 1; -1; 2; -2; 3; -3]
    "1c 00 00 01 00 ff ff 02 00 fe ff 03 00 fd ff".

Definition vec_of_option_int_encoded_as_expected : test :=
  encoded_as (vec_encode (option_encode 2 (prim_encode I8))) (vec_decode (option_decode 2 (prim_decode I8)))
    [Some 1; Some (-1); None] "0c 01 01 01 ff 00".

Definition vec_of_option_bool_encoded_as_expected : test :=
  encoded_as (vec_encode option_bool_encode) (vec_decode option_bool_decode) [Some true; Some false; None] "0c 01 02 00".

Definition vec_of_empty_tuples_encoded_as_expected : test :=
  encoded_as (vec_encode unit_encode) (vec_decode unit_decode) [tt; tt; tt; tt; tt] "14".

(** A [Bytes] as the list of its bytes. *)
Definition bytes_works_as_expected : test :=
  let input := bytes_of (str "hello") in
  encoded ← encode (@bytes_encode _ (list byte) list_bytes (words 4)) input;
  encoded_vec ← encode (vec_encode (prim_encode U8)) (map byte.unsigned input);
  assert_eq encoded encoded_vec ;;
  '(r, _) ← @default_decode_bytes (list byte) list_bytes _ (list byte) _ encoded;
  d ← unwrap r;
  assert_eq (bytes_of (str "hello")) d.

Existing Instance shared_bytes.

(** [Bytes::from(vec)], the allocation 0. *)
Definition Bytes_from (v : list byte) : SharedBytes := mkShared 0 v 0 (length v).

Definition bytes_deserialized_from_bytes_is_zero_copy : test :=
  encoded ← encode (vec_encode (prim_encode U8)) (str "hello");
  let encoded := Bytes_from encoded in
  '(decoded, _) ← cursor_decode_bytes (mkBytesCursor encoded 0);
  decoded ← unwrap decoded;
  assert_eq (bytes_deref decoded) (bytes_of (str "hello")) ;;
  slice ← slice_ref encoded decoded;
  assert_eq (bytes_deref slice) (bytes_of (str "hello")).

(** [Option<Bytes>::decode], on a cursor. *)
Definition option_decode_bytes (self : BytesCursor SharedBytes)
    : outcome (Result (option SharedBytes) Error * BytesCursor SharedBytes) :=
  '(b, self) ← run (chain_err "Could not decode variant byte for `Option`" read_byte) self;
  match b with
  | Err e => Done (Err e, self)
  | Ok x00 => Done (Ok None, self)
  | Ok x01 =>
      '(x, self) ← cursor_decode_bytes self;
      Done (map_err (fun e => chain e "Could not decode `Option::Some(T)`") (result_map Some x), self)
  | Ok _ => Done (Err (Error_from "unexpected first byte decoding Option"), self)
  end.

Definition nested_bytes_deserialized_from_bytes_is_zero_copy : test :=
  encoded ← encode (option_encode (words 3) (vec_encode (prim_encode U8))) (Some (str "hello"));
  let encoded := Bytes_from encoded in
  '(decoded, _) ← option_decode_bytes (mkBytesCursor encoded 0);
  decoded ← unwrap decoded;
  decoded ← unwrap_option decoded;
  assert_eq (bytes_deref decoded) (bytes_of (str "hello")) ;;
  slice ← slice_ref encoded decoded;
  assert_eq (bytes_deref slice) (bytes_of (str "hello")).

Definition test_encode_length {T} (E : Encode T) (thing : T) (len : Z) : test :=
  encoded ← encode E thing;
  r ← decode_length encoded;
  d ← unwrap r;
  assert_eq d len.

(** [push_front] twice; a heap of 1 and 2 has 2 first. *)
Definition len_works_for_decode_collection_types : test :=
  let vector := repeat 10 10 in
  test_encode_length (vec_encode (prim_encode I32)) vector 10 ;;
  test_encode_length (btree_map_encode 8 (prim_encode U32) (prim_encode U32)) [(1, 1); (2, 2)] 2 ;;
  test_encode_length (btree_set_encode (prim_encode U32)) [1; 2] 2 ;;
  test_encode_length (vec_deque_encode (prim_encode I32)) ([2; 1], []) 2 ;;
  test_encode_length (binary_heap_encode (prim_encode I32)) [2; 1] 2 ;;
  test_encode_length (linked_list_encode (prim_encode I32)) [1; 2] 2 ;;
  test_encode_length (tuple1_encode (vec_encode (prim_encode I32))) vector 10 ;;
  test_encode_length (tuple_encode (words 4) (vec_encode (prim_encode I32)) (prim_encode U32)) (vector, 3) 10.

(** The strings in UTF-8. *)
Definition vec_of_string_encoded_as_expected : test :=
  encoded_as (vec_encode string_encode) (vec_decode string_decode)
    [[72; 97; 109; 108; 101; 116];
     [208; 146; 208; 190; 208; 185; 208; 189; 208; 176; 32; 208; 184; 32; 208; 188; 208; 184; 209; 128];
     [228; 184; 137; 229; 155; 189; 230; 188; 148; 228; 185; 137];
     [216; 163; 217; 142; 217; 132; 217; 146; 217; 129; 32; 217; 132; 217; 142; 217; 138; 217; 146; 217; 132;
      217; 142; 216; 169; 32; 217; 136; 217; 142; 217; 132; 217; 142; 217; 138; 217; 146; 217; 132; 217; 142;
      216; 169; 226; 128; 142]]
    ("10 18 48 61 6d 6c 65 74 50 d0 92 d0 be d0 b9 d0 bd d0 b0 20 d0 b8 20 d0 bc d0 b8 d1 80 30 e4 b8 89 " +:+
       "e5 9b bd e6 bc 94 e4 b9 89 bc d8 a3 d9 8e d9 84 d9 92 d9 81 20 d9 84 d9 8e d9 8a d9 92 d9 84 d9 8e " +:+
       "d8 a9 20 d9 88 d9 8e d9 84 d9 8e d9 8a d9 92 d9 84 d9 8e d8 a9 e2 80 8e").

(** [struct MyWrapper(Compact<u32>)]. *)
Definition MyWrapper_encode : Encode Z := impl_forward 4 id (compact_encode CU32).
Definition MyWrapper_decode : Decode Z := impl_decode 4 (decode_wrapped (compact_decode CU32) id).

Definition should_work_for_wrapper_types : test :=
  let result := bytes_of [12] in
  encoded ← encode MyWrapper_encode 3;
  assert_eq encoded result ;;
  r ← decode_slice MyWrapper_decode result;
  d ← unwrap r;
  assert_eq d 3.

(** Decoding the encoding gives the value back. *)
Definition decodes_to_itself {T U} `{EqDecision U} (E : Encode T) (D : Decode T) (view : T -> U) (t : T) : test :=
  encoded ← encode E t;
  r ← decode_slice D encoded;
  assert_eq (result_map view r) (Ok (view t)).

(** 50 items are pushed to the front, 50 to the back; deques are equal when their
    items are. *)
Definition codec_vec_deque_u8_and_u16 : test :=
  let v := (reverse (range 0 50), range 50 100) in
  decodes_to_itself (vec_deque_encode (prim_encode U8)) (vec_deque_decode (prim_decode U8)) deque_items v ;;
  decodes_to_itself (vec_deque_encode (prim_encode U16)) (vec_deque_decode (prim_decode U16)) deque_items v.

(** [BinaryHeap::into_sorted_vec]. *)
#[local] Instance ord_le_decision {T} `{Ord T} (x y : T) : Decision (ord_le x y = true) := decide (ord_le x y = true).
Definition into_sorted_vec {T} `{Ord T} (l : list T) : list T := merge_sort (fun x y => ord_le x y = true) l.

(** [(0..10).flat_map(|i| 0..i)] and [(0..10).map(|i| Vec::from_iter(0..i))]. *)
Definition triangle : list Z := concat (map (range 0) (range 0 10)).
Definition prefixes : list (list Z) := map (range 0) (range 0 10).

Definition codec_iterator : test :=
  let u16 := prim_encode U16 in
  let u32 := prim_encode U32 in
  let vec := vec_encode (prim_encode U8) in
  let dvec := vec_decode (prim_decode U8) in
  decodes_to_itself (btree_set_encode u32) (btree_set_decode 56 (prim_decode U32)) id (set_from_iter triangle) ;;
  decodes_to_itself (linked_list_encode u32) (linked_list_decode 24 (prim_decode U32)) id triangle ;;
  decodes_to_itself (binary_heap_encode u32) (binary_heap_decode (prim_decode U32)) into_sorted_vec (rebuild triangle) ;;
  decodes_to_itself (btree_map_encode 8 u16 u32) (btree_map_decode 8 80 (prim_decode U16) (prim_decode U32)) id
    (btree_from_iter (map (fun i => (wrap U16 i, i + 10)) triangle)) ;;
  decodes_to_itself (btree_set_encode vec) (btree_set_decode 280 dvec) id (set_from_iter prefixes) ;;
  decodes_to_itself (linked_list_encode vec) (linked_list_decode 40 dvec) id prefixes ;;
  decodes_to_itself (binary_heap_encode vec) (binary_heap_decode dvec) into_sorted_vec (rebuild prefixes) ;;
  decodes_to_itself (btree_map_encode (words 4) vec u32) (btree_map_decode (words 4) 320 dvec (prim_decode U32)) id
    (btree_from_iter (map (fun i => (i, zlen i)) prefixes)).

Definition io_reader : test :=
  let io_reader := mkIoReader (bytes_of [1; 2; 3]) in
  '(r, io_reader) ← i_read 2 io_reader;
  v ← unwrap r;
  assert_eq v (bytes_of [1; 2]) ;;
  '(r, io_reader) ← i_read_byte io_reader;
  b ← unwrap r;
  assert_eq b x03 ;;
  '(r, io_reader) ← i_read_byte io_reader;
  assert_eq r (Err (Error_from "io error: UnexpectedEof")).

(** Encoding does not panic. *)
Definition shared_references_implement_encode : test :=
  _ ← encode (pointer_encode (prim_encode U32)) 10;
  _ ← encode (pointer_encode (prim_encode U32)) 10;
  Done tt.

(** [struct NoLimit<'a>(&'a [u8])]: an input that does not know how much is left. *)
Record NoLimit : Type := mkNoLimit { no_limit_slice : list byte }.

Definition no_limit_read (n : Z) (self : NoLimit) : outcome (Result (list byte) Error * NoLimit) :=
  '(r, s) ← i_read n (no_limit_slice self); Done (r, mkNoLimit s).

#[local] Instance no_limit_input : Input NoLimit := {|
  i_remaining_len self := Done (Ok None, self);
  i_read := no_limit_read;
  i_read_byte := default_read_byte no_limit_read;
  i_descend_ref := default_hook;
  i_ascend_ref := default_ascend_ref;
  i_on_before_alloc_mem _ := default_hook;
|}.

Definition decode_no_limit (i : list byte) : outcome (Result (list Z) Error) :=
  '(r, _) ← run (decode (vec_decode (prim_decode U8))) (mkNoLimit i); Done r.

Definition not_limit_input_test : test :=
  let len := MAX_PREALLOCATION * 2 + 1 in
  i ← encode (compact_encode CU32) len;
  r ← decode_no_limit (i ++ repeat x00 (Z.to_nat len));
  d ← unwrap r;
  assert_eq d (repeat 0 (Z.to_nat len)) ;;
  i ← encode (compact_encode CU32) len;
  r ← decode_no_limit i;
  e ← unwrap_err r;
  assert_eq (fmt e) "Not enough data to fill buffer" ;;
  i ← encode (compact_encode CU32) 1000;
  r ← decode_no_limit i;
  e ← unwrap_err r;
  assert_eq (fmt e) "Not enough data to fill buffer".

Definition boolean : test :=
  t ← encode bool_encode true;
  assert_eq t [x01] ;;
  f ← encode bool_encode false;
  assert_eq f [x00] ;;
  r ← decode_slice bool_decode [x01];
  b ← unwrap r;
  assert b ;;
  r ← decode_slice bool_decode [x00];
  b ← unwrap r;
  assert (negb b).

(** A deque made from a vector is in one piece. *)
Definition vec_deque_encode_like_vec : test :=
  let data : VecDeque Z := ([1; 2; 3; 4; 5; 6], []) in
  encoded ← encode (vec_deque_encode (prim_encode U32)) data;
  r ← decode_slice (vec_decode (prim_decode U32)) encoded;
  decoded ← unwrap r;
  assert (forallb (fun v => bool_decide (v ∈ deque_items data)) decoded) ;;
  assert_eq (deque_len data) (zlen decoded) ;;
  encoded ← encode (vec_encode (prim_encode U32)) decoded;
  r ← decode_slice (vec_deque_decode (prim_decode U32)) encoded;
  decoded ← unwrap r;
  assert_eq (deque_items data) (deque_items decoded).

(** [(u64, u32)], and a duration that is encoded like it. *)
Definition secs_nanos_encode : Encode (Z * Z) := tuple_encode 16 (prim_encode U64) (prim_encode U32).

Definition duration_check (duration : Duration) (secs nanos : Z) : test :=
  expected ← encode secs_nanos_encode (secs, nanos);
  encoded ← encode duration_encode duration;
  assert_eq encoded expected ;;
  r ← decode_slice duration_decode expected;
  d ← unwrap r;
  assert_eq d duration.

Definition duration : test :=
  let num_secs := 13 in
  let num_nanos := 37 in
  duration ← Duration_new num_secs num_nanos;
  duration_check duration num_secs num_nanos.

(** The pair is not a duration. *)
Definition invalid_duration (secs nanos : Z) : test :=
  encoded ← encode secs_nanos_encode (secs, nanos);
  r ← decode_slice duration_decode encoded;
  assert (is_err r).

Definition malformed_duration_encoding_fails : test :=
  invalid_duration 0 A_BILLION ;;
  let num_secs := 1 in
  let num_nanos := 37 in
  let invalid_nanos := num_secs * A_BILLION + num_nanos in
  invalid_duration num_secs invalid_nanos ;;
  duration_check (mkDuration (invalid_nanos / A_BILLION) (invalid_nanos mod A_BILLION)) num_secs num_nanos.

Definition u64_max : test :=
  let num_secs := prim_max U64 in
  let num_nanos := 0 in
  duration ← Duration_new num_secs num_nanos;
  duration_check duration num_secs num_nanos.

Definition decoding_does_not_overflow : test := invalid_duration (prim_max U64) A_BILLION.

Definition string_invalid_utf8 : test :=
  obj ← decode_slice string_decode (bytes_of [20; 114; 167; 10; 20; 114]);
  assert (is_err obj).

Definition empty_array_encode_and_decode : test :=
  encoded ← encode (array_encode (prim_encode U32) 0) [];
  assert (bool_decide (encoded = [])) ;;
  r ← decode_slice (array_decode (prim_decode U32) 0) encoded;
  _ ← unwrap r;
  Done tt.

(** [123 as $name]; a floating point number is its bits. *)
Definition one_two_three (p : prim) : Z :=
  match p with F32 => 0x42f60000 | F64 => 0x405ec00000000000 | _ => 123 end.

Definition test_array_encode_and_decode (name : prim) : test :=
  let data := repeat (one_two_three name) 32 in
  encoded ← encode (array_encode (prim_encode name) 32) data;
  r ← decode_slice (array_decode (prim_decode name) 32) encoded;
  decoded ← unwrap r;
  assert_eq decoded data.

Definition test_encoded_size {T} (E : Encode T) (val : T) : test :=
  v ← using_encoded E val;
  size ← encoded_size E val;
  assert_eq (zlen v) size.

(** [struct TestStruct { data: Vec<u32>, other: u8, compact: Compact<u128> }], with the
    hint of the trait, which is 0. *)
Definition TestStruct : Type := list Z * Z * Z.
Definition TestStruct_encode : Encode TestStruct :=
  impl_encode_to (words 3 + 32) (fun _ => Done 0) (fun self =>
    encode_to (vec_encode (prim_encode U32)) self.1.1 ;;;
    encode_to (prim_encode U8) self.1.2 ;;;
    encode_to (compact_encode CU128) self.2).

Definition encoded_size_works : test :=
  test_encoded_size (prim_encode U8) 120 ;;
  test_encoded_size (prim_encode U16) 30 ;;
  test_encoded_size (prim_encode U32) 1 ;;
  test_encoded_size (prim_encode U64) 2343545 ;;
  test_encoded_size (prim_encode U128) 34358394245459854 ;;
  test_encoded_size (vec_encode (prim_encode U32)) (range 1 11) ;;
  test_encoded_size (compact_encode CU32) 32445 ;;
  test_encoded_size (compact_encode CU128) 34353454453545 ;;
  test_encoded_size TestStruct_encode ([1; 2; 4; 5; 6], 45, 123234545).

#[local] Instance Range_eq_dec : EqDecision (Range Z).
Proof. solve_decision. Defined.
#[local] Instance RangeInclusive_eq_dec : EqDecision (RangeInclusive Z).
Proof. solve_decision. Defined.

Definition ranges : test :=
  let range := mkRange 1 100 in
  range_bytes ← encode (tuple_encode 8 (prim_encode I32) (prim_encode I32)) (1, 100);
  encoded ← encode (range_encode 8 (prim_encode I32)) range;
  assert_eq encoded range_bytes ;;
  r ← decode_slice (range_decode 8 (prim_decode I32)) range_bytes;
  assert_eq r (Ok range) ;;
  let range_inclusive := RangeInclusive_new 1 100 in
  encoded ← encode (range_inclusive_encode 12 (prim_encode I32)) range_inclusive;
  assert_eq encoded range_bytes ;;
  r ← decode_slice (range_inclusive_decode 12 (prim_decode I32)) range_bytes;
  assert_eq r (Ok range_inclusive).

Definition codec_tests : list test :=
  [vec_is_sliceable; encode_borrowed_tuple; cow_works; cow_string_works; string_encoded_as_expected;
   vec_of_u8_encoded_as_expected; vec_of_i16_encoded_as_expected; vec_of_option_int_encoded_as_expected;
   vec_of_option_bool_encoded_as_expected; vec_of_empty_tuples_encoded_as_expected; bytes_works_as_expected;
   bytes_deserialized_from_bytes_is_zero_copy; nested_bytes_deserialized_from_bytes_is_zero_copy;
   len_works_for_decode_collection_types; vec_of_string_encoded_as_expected; should_work_for_wrapper_types;
   codec_vec_deque_u8_and_u16; codec_iterator; io_reader; shared_references_implement_encode; not_limit_input_test;
   boolean; vec_deque_encode_like_vec; duration; malformed_duration_encoding_fails; u64_max;
   decoding_does_not_overflow; string_invalid_utf8; empty_array_encode_and_decode; encoded_size_works; ranges] ++
  map test_array_encode_and_decode [U8; I8; U16; I16; U32; I32; U64; I64; U128; I128; F32; F64].
End tests.

(** On a 64-bit little-endian and on a 32-bit big-endian target. *)
Lemma codec_tests_pass : Forall passes (@codec_tests x86_64 ++ @codec_tests powerpc).
Proof. repeat (apply Forall_cons_2; [by vm_compute|]). apply Forall_nil_2. Qed.
