(* ===== verification/ConstLenTests.v ===== *)
(** * The tests of [const_encoded_len.rs]

    Property tests: a random value of a type that is [ConstEncodedLen] is encoded to
    [max_encoded_len()] bytes.  The types are values of [Universe]; the tests pass on
    every value. *)

From S2P Require Import Prelude Ints Errors Input Discipline Output Traits Primitives Compact.
From S2P Require Import Sequences SequencesTheory Composite MaxLen Derive EncodeTotal Reencode Universe UniverseTheory.
From S2P Require Import TypedCodecs Conformance.

Section tests.
Context `{Target}.

(** [test_cel_compliance!]: [x.encode().len() == $t::max_encoded_len()]. *)
Definition cel_compliance (t : ty) (x : value_of t) : test :=
  bs ← encode (encode_of t) x;
  n ← unwrap_option (c_max_len (codec_of t));
  assert_eq (zlen bs) n.

Fixpoint tuple_of (t : ty) (ts : list ty) : ty_components :=
  match ts with
  | [] => COne t
  | u :: ts => CMore t (tuple_of u ts)
  end.

(** [u8, u16, u32, u64, u128, i8, i16, i32, i64, i128]. *)
Definition arithmetic : list prim := [U8; U16; U32; U64; U128; I8; I16; I32; I64; I128].

Definition TupleArithmetic : ty := TTuple 64 (tuple_of (TPrim U8) (map TPrim (tail arithmetic))).
Definition TupleNonZero : ty := TTuple 64 (tuple_of (TNonZero U8) (map TNonZero (tail arithmetic))).
Definition ArrayArithmetic : ty := TArray 10 TupleArithmetic.
Definition BoxedArithmetic : ty := TBox TupleArithmetic.
Definition PhantomArithmetic : ty := TPhantomData.

(** The unsigned types [T], as [f::<T>]. *)
Definition unsigned (f : prim -> ty) : ty_components := tuple_of (f U8) (map f [U16; U32; U64; U128]).

Definition pair_of (p : prim) : ty := TTuple (2 * Z.of_nat (prim_bytes p)) (tuple_of (TPrim p) [TPrim p]).

Definition Ranges : ty := TTuple 64 (unsigned (fun p => TRange (2 * Z.of_nat (prim_bytes p)) (TPrim p))).
Definition Ranges2D : ty := TTuple 128 (unsigned (fun p => TRange (4 * Z.of_nat (prim_bytes p)) (pair_of p))).
Definition RangesInc : ty := TTuple 112 (unsigned (fun p => TRangeInclusive (3 * Z.of_nat (prim_bytes p)) (TPrim p))).
Definition RangesInc2D : ty := TTuple 160 (unsigned (fun p => TRangeInclusive (5 * Z.of_nat (prim_bytes p)) (pair_of p))).

Definition cel_types : list ty :=
  [TUnit] ++ map TPrim arithmetic ++ [TBool; TupleArithmetic] ++ map TNonZero arithmetic ++
  [TupleNonZero; ArrayArithmetic; TDuration; BoxedArithmetic; PhantomArithmetic; Ranges; Ranges2D; RangesInc; RangesInc2D].

(** A type that is accepted and has a constant length passes its test. *)
Lemma cel_compliance_passes t x : usize_bits = 64 ->
  accepted t = true -> c_const (codec_of t) = true -> is_Some (c_max_len (codec_of t)) -> well_typed t x ->
  (forall bs, encode (encode_of t) x = Done bs -> zlen bs <= usize_max) -> passes (cel_compliance t x).
Proof.
  intros H64 Ha Hc [n Hn] Hx Hl. destruct (typed_encode H64 t x Ha Hx) as (bs & He & _ & Hw).
  pose proof (proj1 (universe_laws H64) t Ha) as L. unfold passes, cel_compliance. rewrite He, Hn. simpl.
  unfold assert_eq, assert. rewrite bool_decide_eq_true_2; [done|].
  apply (const_encoded_len (ConstEncodedLen := laws_const _ L n Hc Hn) x); auto.
Qed.
End tests.

(** All of the types are such types, on a 64-bit target. *)
Lemma cel_types_const :
  Forall (fun t => @accepted x86_64 t = true /\ c_const (@codec_of x86_64 t) = true /\
    is_Some (c_max_len (@codec_of x86_64 t))) cel_types.
Proof.
  repeat (apply Forall_cons_2; [split_and!; [by vm_compute|by vm_compute|by vm_compute; eexists]|]). apply Forall_nil_2.
Qed.

(** The tests pass; the length of a [Vec<u8>] is a [usize]. *)
Lemma cel_tests_pass t x : t ∈ cel_types -> @well_typed x86_64 t x ->
  (forall bs, encode (@encode_of x86_64 t) x = Done bs -> zlen bs <= @usize_max x86_64) ->
  passes (@cel_compliance x86_64 t x).
Proof.
  intros Ht. pose proof cel_types_const as Hall. rewrite Forall_forall in Hall.
  destruct (Hall t Ht) as (Ha & Hc & Hm). by apply cel_compliance_passes.
Qed.

(** A value of each of two of the types, with the range as [a..b]. *)
Example cel_runs :
  passes (@cel_compliance x86_64 TupleArithmetic (1, (2, (3, (4, (5, (-6, (-7, (-8, (-9, -10)))))))))) /\
  passes (@cel_compliance x86_64 (TRange 2 (TPrim U8)) (mkRange 3 9)).
Proof. by vm_compute. Qed.
