(* ===== verification/ModuleTests.v ===== *)
(** * The unit tests of the smaller modules

    [encode_append.rs], [bit_vec.rs], [counted_input.rs], [decode_all.rs],
    [depth_limit.rs], [error.rs], [generic_array.rs], [max_encoded_len.rs] and
    [encode_like.rs]; those of [const_encoded_len.rs] are in [ConstLenTests].  The test
    of [btree_utils.rs] measures an allocator and is left out. *)

From S2P Require Import Prelude Ints Errors Input Discipline Output Traits Primitives Compact.
From S2P Require Import CompactTheory Sequences SequencesTheory Composite Collections BitVec ForeignTypes Limits Append.
From S2P Require Import MaxLen EncodeTotal Reencode Fuzzer FuzzerTheory Universe Conformance ConstLenTests CompactTests.
From S2P Require Import CodecTests.

Section tests.
Context `{Target}.

(** ** [encode_append.rs] *)

(** [<Vec<T> as EncodeAppend>::append_or_new] and that of [VecDeque<T>]: [E] is the
    implementation for the items of the iterator. *)
Definition vec_append_or_new {T} (E : Encode T) (self_encoded : list byte) (iter : list T)
    : outcome (Result (list byte) Error) := append_or_new_impl E self_encoded iter.
Definition vec_deque_append_or_new {T} (E : Encode T) (self_encoded : list byte) (iter : list T)
    : outcome (Result (list byte) Error) := append_or_new_impl E self_encoded iter.

(** [(0..TEST_VALUE).fold(Vec::new(), |encoded, v| append_or_new(encoded, ..).unwrap())]. *)
Fixpoint append_each {T} (append : list byte -> list T -> outcome (Result (list byte) Error))
    (iters : list (list T)) (encoded : list byte) : outcome (list byte) :=
  match iters with
  | [] => Done encoded
  | iter :: iters =>
      r ← append encoded iter;
      encoded ← unwrap r;
      append_each append iters encoded
  end.

Definition once (v : Z) : list Z := [v].
Definition four_times (v : Z) : list Z := [v; v; v; v].

Definition vec_encode_append_works (TEST_VALUE : Z) : test :=
  encoded ← append_each (vec_append_or_new (pointer_encode (prim_encode U32))) (map once (range 0 TEST_VALUE)) [];
  r ← decode_slice (vec_decode (prim_decode U32)) encoded;
  decoded ← unwrap r;
  assert_eq decoded (range 0 TEST_VALUE).

Definition vec_encode_append_multiple_items_works (TEST_VALUE : Z) : test :=
  encoded ← append_each (vec_append_or_new (prim_encode U32)) (map four_times (range 0 TEST_VALUE)) [];
  r ← decode_slice (vec_decode (prim_decode U32)) encoded;
  decoded ← unwrap r;
  assert_eq decoded (fold_left (fun vec i => vec ++ four_times i) (range 0 TEST_VALUE) []).

Definition vecdeque_encode_append_works (TEST_VALUE : Z) : test :=
  encoded ← append_each (vec_deque_append_or_new (pointer_encode (prim_encode U32))) (map once (range 0 TEST_VALUE)) [];
  r ← decode_slice (vec_deque_decode (prim_decode U32)) encoded;
  decoded ← unwrap r;
  assert_eq (deque_items decoded) (range 0 TEST_VALUE).

Definition vecdeque_encode_append_multiple_items_works (TEST_VALUE : Z) : test :=
  encoded ← append_each (vec_deque_append_or_new (prim_encode U32)) (map four_times (range 0 TEST_VALUE)) [];
  r ← decode_slice (vec_deque_decode (prim_decode U32)) encoded;
  decoded ← unwrap r;
  assert_eq (deque_items decoded) (fold_left (fun vec i => vec ++ four_times i) (range 0 TEST_VALUE) []).

(** [struct NoCopy { data: u32 }]. *)
Definition NoCopy_encode : Encode Z := impl_encode 4 default_size_hint (encode (prim_encode U32)).
Definition NoCopy_decode : Decode Z := impl_decode 4 (dec_map id (decode (prim_decode U32))).

Definition append_non_copyable : test :=
  let append := 100 in
  r ← vec_append_or_new (pointer_encode NoCopy_encode) [] [append];
  encoded ← unwrap r;
  r ← decode_slice (vec_decode NoCopy_decode) encoded;
  decoded ← unwrap r;
  assert_eq [append] decoded.

(** [std::iter::once(Box::new(v))]. *)
Definition vec_encode_like_append_works (TEST_VALUE : Z) : test :=
  encoded ← append_each (vec_append_or_new (pointer_encode (prim_encode U32))) (map once (range 0 TEST_VALUE)) [];
  r ← decode_slice (vec_decode (prim_decode U32)) encoded;
  decoded ← unwrap r;
  assert_eq decoded (range 0 TEST_VALUE).

(** ** [bit_vec.rs] *)

Definition bits (l : list Z) : list bool := map (fun b => b =? 1) l.
Definition bits_of (b : Z) (n : Z) : list bool := repeat (b =? 1) (Z.to_nat n).

(** [test_data!]. *)
Definition test_data : list (list bool) :=
  [[]; bits [0]; bits [1]; bits [0; 0]; bits [1; 0]; bits [0; 1]; bits [1; 1]; bits [1; 0; 1];
   bits [0; 1; 0; 1; 0; 1; 1]; bits [0; 1; 0; 1; 0; 1; 1; 0]; bits [1; 1; 0; 1; 0; 1; 1; 0; 1];
   bits [1; 0; 1; 0; 1; 1; 0; 0; 1; 0; 1; 0; 1; 1; 0];
   bits [0; 1; 0; 1; 0; 1; 1; 0; 0; 1; 0; 1; 0; 1; 1; 0];
   bits [0; 1; 0; 1; 0; 1; 1; 0; 0; 1; 0; 1; 0; 1; 1; 0; 0];
   bits_of 0 15; bits_of 1 16; bits_of 0 17; bits_of 1 31; bits_of 0 32; bits_of 1 33; bits_of 0 63; bits_of 1 64;
   bits_of 0 65; bits_of 1 (MAX_PREALLOCATION * 8 + 1); bits_of 0 (MAX_PREALLOCATION * 9);
   bits_of 1 (MAX_PREALLOCATION * 32 + 1); bits_of 0 (MAX_PREALLOCATION * 33)].

(** The body of [bitvec_u8], [bitvec_u16], [bitvec_u32] and [bitvec_u64]. *)
Definition bitvec_test (p : prim) (v : list bool) : test :=
  encoded ← encode (msb0_encode p) v;
  r ← decode_slice (msb0_decode p) encoded;
  decoded ← unwrap r;
  assert_eq v decoded ;;
  let elements := @elts Z (uint_store Msb0 p) (zlen v) in
  let compact_len := compact_len CU32 (wrap U32 (zlen v)) in
  assert_eq (compact_len + elements * Z.of_nat (prim_bytes p)) (zlen encoded).

Definition bitvec_u8 : test := for_each test_data (bitvec_test U8).
Definition bitvec_u16 : test := for_each test_data (bitvec_test U16).
Definition bitvec_u32 : test := for_each test_data (bitvec_test U32).
Definition bitvec_u64 : test := for_each test_data (bitvec_test U64).

(** [BitSlice::from_slice]. *)
Definition from_slice (p : prim) (data : list Z) : list bool := concat (map (@view_bits Z (uint_store Msb0 p)) data).

Definition bitslice : test :=
  let slice := from_slice U8 [0x69] in
  encoded ← encode (@bitslice_encode _ Z (uint_store Msb0 U8) (prim_encode U8)) slice;
  r ← decode_slice (msb0_decode U8) encoded;
  decoded ← unwrap r;
  assert_eq slice decoded.

Definition bitbox : test :=
  let bb := from_slice U8 [5; 10] in
  encoded ← encode (@bitbox_encode _ Z (uint_store Msb0 U8) (prim_encode U8)) bb;
  r ← decode_slice (@bitbox_decode _ Z (uint_store Msb0 U8) (prim_decode U8)) encoded;
  decoded ← unwrap r;
  assert_eq bb decoded.

(** [bitvec![u8, Lsb0; ..].encode()] and [(Compact(n), bytes..).encode()]. *)
Definition lsb0_case '((l, n, bytes) : list Z * Z * list Z) : test :=
  actual ← encode (@bitvec_encode _ Z (uint_store Lsb0 U8) (prim_encode U8)) (bits l);
  expected ← encode (tuple_encode 8 (compact_encode CU32) (array_encode (prim_encode U8) (length bytes))) (n, bytes);
  assert_eq actual expected.

Definition bitvec_u8_encodes_as_expected : test :=
  for_each
    [([0; 0; 1; 1], 4, [12]); ([0; 1; 1; 1], 4, [14]); ([1; 1; 1; 1], 4, [15]); ([1; 1; 1; 1; 1], 5, [31]);
     ([1; 1; 1; 1; 1; 0], 6, [31]); ([1; 1; 1; 1; 1; 0; 0; 0; 1; 1; 0; 1], 12, [31; 11])] lsb0_case.

(** ** [counted_input.rs]

    [remaining_len] and [count] after a call. *)
Definition check_counted (self : Z * list byte) (len count : Z) : test :=
  '(r, self) ← call (w_remaining_len counted_input) self;
  l ← unwrap r;
  assert_eq l (Some len) ;;
  assert_eq self.1 count.

Definition not_enough_data : Error := Error_from "Not enough data to fill buffer".

Definition test_counted_input_input_impl : test :=
  let counted := (0, bytes_of [1; 2; 3; 4; 5]) in
  check_counted counted 5 0 ;;
  '(r, counted) ← call (w_read_byte counted_input) counted;
  _ ← unwrap r;
  check_counted counted 4 1 ;;
  '(r, counted) ← call (w_read counted_input 2) counted;
  _ ← unwrap r;
  check_counted counted 2 3 ;;
  '(s, i) ← run (w_ascend_ref counted_input counted.1) counted.2;
  '(r, counted) ← call (w_descend_ref counted_input) (s, i);
  _ ← unwrap r;
  '(r, counted) ← call (w_read counted_input 2) counted;
  _ ← unwrap r;
  check_counted counted 0 5 ;;
  '(r, counted) ← call (w_read_byte counted_input) counted;
  assert_eq r (Err not_enough_data) ;;
  check_counted counted 0 5 ;;
  '(r, counted) ← call (w_read counted_input 2) counted;
  assert_eq r (Err not_enough_data) ;;
  check_counted counted 0 5.

Definition test_counted_input_max_count_read_byte : test :=
  let max_exact_count := prim_max U64 - 1 in
  let counted := (max_exact_count, repeat x00 1000) in
  assert_eq counted.1 max_exact_count ;;
  '(r, counted) ← call (w_read_byte counted_input) counted;
  _ ← unwrap r;
  assert_eq counted.1 (prim_max U64) ;;
  '(r, counted) ← call (w_read_byte counted_input) counted;
  _ ← unwrap r;
  assert_eq counted.1 (prim_max U64).

Definition test_counted_input_max_count_read : test :=
  let max_exact_count := prim_max U64 - 1 in
  let counted := (max_exact_count, repeat x00 1000) in
  assert_eq counted.1 max_exact_count ;;
  '(r, counted) ← call (w_read counted_input 2) counted;
  _ ← unwrap r;
  assert_eq counted.1 (prim_max U64) ;;
  '(r, counted) ← call (w_read counted_input 2) counted;
  _ ← unwrap r;
  assert_eq counted.1 (prim_max U64).

(** ** [decode_all.rs] *)

Definition test_decode_all {T} (E : Encode T) (D : Decode T) (value : T) : test :=
  encoded ← encode E value;
  '(r, _) ← decode_all D encoded;
  _ ← unwrap r;
  '(r, _) ← decode_all D (encoded ++ bytes_of [1; 2; 3; 4; 5; 6]);
  e ← unwrap_err r;
  assert_eq (fmt e) "Input buffer has still data left after decoding!".

(** [struct TestStruct { data: Vec<u32>, other: u8, compact: Compact<u128> }], here with
    [encode] and [decode]. *)
Definition TestStruct_bytes (self : TestStruct) : outcome (list byte) :=
  run_output (encode_to TestStruct_encode self) [].
Definition TestStruct_decode : Decode TestStruct :=
  impl_decode (words 3 + 32)
    (data ⇐ decode (vec_decode (prim_decode U32));
     other ⇐ decode (prim_decode U8);
     compact ⇐ decode (compact_decode CU128);
     ok (data, other, compact)).

Definition decode_all_works : test :=
  test_decode_all (prim_encode U8) (prim_decode U8) 120 ;;
  test_decode_all (prim_encode U16) (prim_decode U16) 30 ;;
  test_decode_all (prim_encode U32) (prim_decode U32) 1 ;;
  test_decode_all (prim_encode U64) (prim_decode U64) 2343545 ;;
  test_decode_all (prim_encode U128) (prim_decode U128) 34358394245459854 ;;
  test_decode_all (vec_encode (prim_encode U8)) (vec_decode (prim_decode U8)) (range 1 11) ;;
  test_decode_all (vec_encode (prim_encode U32)) (vec_decode (prim_decode U32)) (range 1 11) ;;
  test_decode_all (compact_encode CU32) (compact_decode CU32) 32445 ;;
  test_decode_all (compact_encode CU128) (compact_decode CU128) 34353454453545 ;;
  test_decode_all (impl_encode (words 3 + 32) default_size_hint TestStruct_bytes) TestStruct_decode
    ([1; 2; 4; 5; 6], 45, 123234545).

(** ** [depth_limit.rs] *)

(** [type NestedVec = Vec<Vec<Vec<Vec<u8>>>>]. *)
Definition NestedVec_encode : Encode (nest 4 Z) := nest_encode 4 (prim_encode U8).
Definition NestedVec_decode : Decode (nest 4 Z) := nest_decode 4 (prim_decode U8).
Definition nested : nest 4 Z := [[[[1]]]].

Definition decode_limit_works : test :=
  encoded ← encode NestedVec_encode nested;
  '(r, _) ← run (decode_with_depth_limit 3 NestedVec_decode) encoded;
  decoded ← unwrap r;
  assert_eq decoded nested ;;
  '(r, _) ← run (decode_with_depth_limit 2 NestedVec_decode) encoded;
  assert (is_err r).

Definition decode_limit_advances_input : test :=
  encoded_slice ← encode NestedVec_encode nested;
  '(r, encoded_slice) ← run (decode_with_depth_limit 1 (vec_decode (prim_decode U8))) encoded_slice;
  decoded ← unwrap r;
  assert_eq decoded [4] ;;
  '(r, _) ← run (decode_with_depth_limit 3 NestedVec_decode) encoded_slice;
  assert (is_err r).

Definition decode_all_with_limit_advances_input : test :=
  encoded ← encode NestedVec_encode nested;
  '(r, _) ← decode_all_with_depth_limit 3 NestedVec_decode encoded;
  decoded ← unwrap r;
  assert_eq decoded nested ;;
  '(r, _) ← decode_all_with_depth_limit 3 NestedVec_decode (encoded ++ bytes_of [1; 2; 3; 4; 5; 6]);
  e ← unwrap_err r;
  assert_eq (fmt e) "Input buffer has still data left after decoding!".

(** ** [error.rs] *)

Definition test_full_error : test :=
  let msg := "final type:" +:+ NL +:+ TAB +:+ "wrap cause:" +:+ NL +:+ TAB +:+ TAB +:+ "root cause" +:+ NL in
  let error := chain (chain (Error_from "root cause") "wrap cause") "final type" in
  assert_eq (fmt error) msg.

Definition impl_std_error : test :=
  let error := chain (chain (Error_from "root cause") "wrap cause") "final type" in
  s ← unwrap_option (source error);
  assert_eq (fmt s) ("wrap cause:" +:+ NL +:+ TAB +:+ "root cause" +:+ NL).

(** ** [generic_array.rs] *)

Definition generic_array_case (p : prim) (a : list Z) : test :=
  let N := length a in
  encoded ← encode (@generic_array_encode _ Z N (prim_encode p)) a;
  r ← decode_slice (@generic_array_decode _ Z N (array_of Z N) (prim_decode p)) encoded;
  d ← unwrap r;
  assert_eq a d.

Definition generic_array : test :=
  generic_array_case U8 [3; 4; 5] ;;
  generic_array_case U16 [3; 4; 5; 6; 7; 8; 0] ;;
  generic_array_case U32 [3; 4; 5; 0; 1] ;;
  generic_array_case U64 [3].

(** ** [max_encoded_len.rs] *)

Definition test_compact_length (c : compact_ty) : test :=
  encoded ← encode (compact_encode c) (prim_max (compact_prim c));
  assert_eq (zlen encoded) (compact_max_len c).

(** ** [encode_like.rs]

    [ComplexStuff::<T>::complex_method(value)] encodes [value]. *)
Definition complex_method {R} (E : Encode R) (value : R) : outcome (list byte) := encode E value.

Definition vec_and_slice_are_working : test :=
  let data := [1; 2; 3; 4] in
  data_encoded ← encode (vec_encode (prim_encode U8)) data;
  slice_encoded ← complex_method (pointer_encode (slice_encode (prim_encode U8))) data;
  assert_eq slice_encoded data_encoded.

Definition btreemap_and_slice_are_working : test :=
  let slice := [(1, 2); (23, 24); (28, 30); (45, 80)] in
  data_encoded ← encode (btree_map_encode 8 (prim_encode U32) (prim_encode U32)) (btree_from_iter slice);
  slice_encoded ← complex_method (pointer_encode (slice_encode (tuple_encode 8 (prim_encode U32) (prim_encode U32)))) slice;
  assert_eq slice_encoded data_encoded.

(** A triple, each component of which may be a reference. *)
Definition triple (EA EB EC : Encode Z) : test :=
  let data := (10, (10, 10)) in
  let E := tuple_encode 12 EA (tuple_encode 8 EB EC) in
  encoded ← complex_method E data;
  expected ← encode E data;
  assert_eq expected encoded.

Definition interface_testing : test :=
  let u32 := prim_encode U32 in
  let vec := vec_encode (prim_encode U8) in
  triple u32 u32 u32 ;;
  triple (pointer_encode u32) (pointer_encode u32) (pointer_encode u32) ;;
  triple (pointer_encode u32) u32 (pointer_encode u32) ;;
  let vec_data := [1; 2; 3] in
  _ ← complex_method vec vec_data;
  _ ← complex_method string_encode (str "test");
  _ ← complex_method (pointer_encode str_encode) (str "test");
  a ← complex_method (tuple_encode (words 4) u32 vec) (1, vec_data);
  b ← complex_method (tuple_encode (words 3) u32 (pointer_encode (slice_encode (prim_encode U8)))) (1, vec_data);
  assert_eq a b.

Definition module_tests : list test :=
  [append_non_copyable; bitslice; bitbox; bitvec_u8_encodes_as_expected; test_counted_input_input_impl;
   test_counted_input_max_count_read_byte; test_counted_input_max_count_read; decode_all_works; decode_limit_works;
   decode_limit_advances_input; decode_all_with_limit_advances_input; test_full_error; impl_std_error; generic_array;
   vec_and_slice_are_working; btreemap_and_slice_are_working; interface_testing] ++
  map test_compact_length [CU8; CU16; CU32; CU64; CU128].
End tests.

(** On a 64-bit little-endian and on a 32-bit big-endian target. *)
Lemma module_tests_pass : Forall passes (@module_tests x86_64 ++ @module_tests powerpc).
Proof. repeat (apply Forall_cons_2; [by vm_compute|]). apply Forall_nil_2. Qed.

(** ** Tests on many values

    The tests of [append_or_new] run with a [TEST_VALUE] of 1000000, those of bit
    vectors on up to half a million bits.  They pass for every value up to that
    size. *)

Section large.
Context `{Target}.

(** At most four million numbers of four bytes: this fits a 32-bit address space. *)
Definition MANY : Z := 4000000.

Lemma u32_items l : Forall (in_range U32) l ->
  exists items, wbytes (wfor l (encode_to (prim_encode U32))) = Done items /\ zlen items = 4 * zlen l.
Proof.
  intros Hl. eexists. split; [by apply (wbytes_items_prim (prim_encode U32) (in_range U32) U32 id id)|].
  rewrite map_id. clear Hl. induction l as [|x l IH]; [done|].
  cbn [map concat]. rewrite zlen_app, IH, zlen_cons, zlen_to_le_bytes. simpl. lia.
Qed.

Lemma u32_slice l bs : Forall (in_range U32) l -> zlen l <= MANY ->
  wbytes (slice_encode_to (prim_encode U32) l) = Done bs -> 2 * zlen bs <= isize_max.
Proof.
  intros Hl Hn (items & Hm & Hi & ->)%(wbytes_slice (prim_encode U32) (in_range U32)); [|done].
  destruct (u32_items l Hl) as (items' & Hi' & Hz). rewrite Hi in Hi'. injection Hi' as <-.
  assert (in_range (compact_prim CU32) (zlen l)) as Hr by (split; [apply zlen_nonneg|done]).
  rewrite zlen_app, Hz, (zlen_compact_spec CU32) by done. pose proof (compact_len_capacity CU32 _ Hr).
  assert (compact_capacity CU32 = 5) by done. pose proof isize_max_ge. unfold MANY in Hn. lia.
Qed.

(** Appending batches one after the other encodes all of them. *)
Lemma append_each_ok iters xs bs :
  Forall (Forall (in_range U32)) iters -> Forall (in_range U32) xs ->
  wbytes (slice_encode_to (prim_encode U32) xs) = Done bs -> zlen (xs ++ concat iters) <= MANY ->
  exists bs', append_each (append_or_new_impl (prim_encode U32)) iters bs = Done bs' /\
    wbytes (slice_encode_to (prim_encode U32) (xs ++ concat iters)) = Done bs'.
Proof.
  intros Hit. revert xs bs. induction Hit as [|ys iters Hys Hit IH]; intros xs bs Hxs Hb Hn; cbn [append_each concat].
  { rewrite app_nil_r. eauto. }
  cbn [concat] in Hn. rewrite app_assoc in Hn |- *. destruct (u32_items ys Hys) as (items & Hi & _).
  pose proof (zlen_nonneg ys) as H1. pose proof (zlen_nonneg (concat iters)) as H2.
  assert (zlen (xs ++ ys) <= MANY) as Hm by (rewrite zlen_app in Hn; lia).
  destruct (append_or_new_correct (prim_encode U32) (in_range U32) xs ys bs items Hxs Hys Hb Hi) as (bs1 & -> & Hb1).
  - by transitivity MANY.
  - apply (u32_slice xs); [done| |done]. rewrite zlen_app in Hm. lia.
  - cbn [mbind outcome_bind unwrap]. apply IH; [by apply Forall_app|done|done].
Qed.

(** [f v] for all [v] below [n]; the first batch makes a new vector. *)
Lemma append_range_ok (f : Z -> list Z) n :
  (forall v, in_range U32 v -> Forall (in_range U32) (f v)) ->
  0 < n <= prim_max U32 -> zlen (concat (map f (range 0 n))) <= MANY ->
  exists bs, append_each (append_or_new_impl (prim_encode U32)) (map f (range 0 n)) [] = Done bs /\
    wbytes (slice_encode_to (prim_encode U32) (concat (map f (range 0 n)))) = Done bs.
Proof.
  intros Hf Hn Hz. assert (Forall (in_range U32) (range 0 n)) as Hr.
  { apply Forall_forall. intros v Hv%elem_of_seqZ. split; [change (prim_min U32) with 0|]; lia. }
  assert (exists v l, range 0 n = v :: l) as (v & l & Hvl) by
    (unfold range; rewrite seqZ_cons by lia; eauto).
  rewrite Hvl in *. apply Forall_cons in Hr as [Hv Hl]. cbn [map concat append_each] in *.
  destruct (u32_items (f v) (Hf v Hv)) as (items & Hi & _).
  destruct (append_or_new_new (prim_encode U32) (in_range U32) (f v) items (Hf v Hv) Hi) as (bs & -> & Hb).
  { rewrite zlen_app in Hz. pose proof (zlen_nonneg (concat (map f l))). transitivity MANY; [lia|done]. }
  cbn [mbind outcome_bind unwrap]. apply append_each_ok; [|by apply Hf|done|done].
  apply Forall_map. by eapply Forall_impl.
Qed.

(** What has been appended decodes to all the items, as a vector and as a deque. *)
Lemma append_decodes f n :
  usize_bits = 64 -> (forall v, in_range U32 v -> Forall (in_range U32) (f v)) ->
  0 < n <= prim_max U32 -> zlen (concat (map f (range 0 n))) <= MANY ->
  exists bs, append_each (append_or_new_impl (prim_encode U32)) (map f (range 0 n)) [] = Done bs /\
    decode_slice (vec_decode (prim_decode U32)) bs = Done (Ok (concat (map f (range 0 n)))) /\
    decode_slice (vec_deque_decode (prim_decode U32)) bs = Done (Ok (concat (map f (range 0 n)), [])).
Proof.
  intros H64 Hf Hn Hz. destruct (append_range_ok f n Hf Hn Hz) as (bs & Ha & Hb). exists bs. split; [done|].
  assert (Forall (in_range U32) (concat (map f (range 0 n)))) as Hall.
  { apply Forall_concat, Forall_map, Forall_forall. intros v Hv%elem_of_seqZ. apply Hf.
    split; [change (prim_min U32) with 0|]; lia. }
  assert (vec_fits (D_size_of (prim_decode U32))) as Hfits by by apply vec_fits_64.
  pose proof (vec_roundtrip (prim_encode U32) (prim_decode U32) (in_range U32) Hfits _ _ [] Hall Hb) as Hrun.
  rewrite app_nil_r in Hrun. unfold decode_slice. cbn [decode vec_decode vec_deque_decode impl_decode].
  rewrite run_try_bind. cbn [decode vec_decode impl_decode]. by rewrite Hrun.
Qed.

Lemma fold_concat {A B} (f : A -> list B) l acc : fold_left (fun vec i => vec ++ f i) l acc = acc ++ concat (map f l).
Proof. revert acc. induction l as [|x l IH]; intros acc; simpl; [by rewrite app_nil_r|]. by rewrite IH, app_assoc. Qed.

Lemma zlen_concat_const {A B} (f : A -> list B) k (l : list A) : (forall v, zlen (f v) = k) -> zlen (concat (map f l)) = k * zlen l.
Proof.
  intros Hf. induction l as [|x l IH]; [simpl; by rewrite Z.mul_0_r|]. cbn [map concat].
  rewrite zlen_app, IH, zlen_cons, Hf. lia.
Qed.

Lemma zlen_range n : 0 <= n -> zlen (range 0 n) = n.
Proof. intros Hn. unfold range, zlen. rewrite length_seqZ. lia. Qed.

Lemma concat_once l : concat (map once l) = l.
Proof. induction l as [|x l IH]; [done|]. simpl. by rewrite IH. Qed.

(** A test that decodes what it has made. *)
Lemma decode_test_passes {T U} `{EqDecision U} (m : outcome (list byte)) (D : Decode T) (view : T -> U) (expected : U) bs d :
  m = Done bs -> decode_slice D bs = Done (Ok d) -> view d = expected ->
  passes (encoded ← m; r ← decode_slice D encoded; decoded ← unwrap r; assert_eq (view decoded) expected).
Proof. intros -> Hd <-. simpl. rewrite Hd. simpl. by apply passes_assert_eq. Qed.

Definition append_tests (TEST_VALUE : Z) : list test :=
  [vec_encode_append_works TEST_VALUE; vec_encode_append_multiple_items_works TEST_VALUE;
   vecdeque_encode_append_works TEST_VALUE; vecdeque_encode_append_multiple_items_works TEST_VALUE;
   vec_encode_like_append_works TEST_VALUE].

Lemma append_tests_pass TEST_VALUE :
  usize_bits = 64 -> 0 < TEST_VALUE <= 1000000 -> Forall passes (append_tests TEST_VALUE).
Proof.
  intros H64 Hn. assert (TEST_VALUE <= prim_max U32) by (transitivity 1000000; [lia|done]).
  destruct (append_decodes once TEST_VALUE H64) as (b1 & Ha1 & Hv1 & Hd1).
  { intros v Hv. unfold once. by rewrite !Forall_cons, Forall_nil. }
  { lia. }
  { rewrite (zlen_concat_const once 1), zlen_range by (done || lia). unfold MANY. lia. }
  destruct (append_decodes four_times TEST_VALUE H64) as (b4 & Ha4 & Hv4 & Hd4).
  { intros v Hv. unfold four_times. by rewrite !Forall_cons, Forall_nil. }
  { lia. }
  { rewrite (zlen_concat_const four_times 4), zlen_range by (done || lia). unfold MANY. lia. }
  rewrite concat_once in Hv1, Hd1.
  repeat apply Forall_cons_2; [..|apply Forall_nil_2].
  - by apply (decode_test_passes _ _ id _ b1 _ Ha1 Hv1).
  - apply (decode_test_passes _ _ id _ b4 _ Ha4 Hv4). by rewrite fold_concat.
  - apply (decode_test_passes _ _ deque_items _ b1 _ Ha1 Hd1). apply app_nil_r.
  - apply (decode_test_passes _ _ deque_items _ b4 _ Ha4 Hd4). rewrite fold_concat. apply app_nil_r.
  - by apply (decode_test_passes _ _ id _ b1 _ Ha1 Hv1).
Qed.

(** The encoding of a bit vector is its length and its elements. *)
Lemma msb0_bytes_length p v bs :
  prim_signed p = false -> zlen v <= ARCH32BIT_BITSLICE_MAX_BITS ->
  wbytes (encode_to (msb0_encode p) v) = Done bs ->
  zlen bs = compact_len CU32 (wrap U32 (zlen v)) + @elts Z (uint_store Msb0 p) (zlen v) * Z.of_nat (prim_bytes p).
Proof.
  intros Hp Hv Hb. change (wbytes (@bitslice_encode_to _ Z (uint_store Msb0 p) (prim_encode p) v) = Done bs) in Hb.
  unfold bitslice_encode_to in Hb. rewrite (proj2 (Z.leb_le _ _) Hv) in Hb.
  apply wbytes_wseq_done in Hb as (b1 & b2 & Hb1 & Hb2 & ->). rewrite zlen_app.
  rewrite <- wfor_map in Hb2. rewrite (wbytes_items_prim (prim_encode p) (in_range p) p id id) in Hb2;
    [|by destruct p|apply Forall_map, Forall_forall; intros c _; by apply msb0_range].
  injection Hb2 as <-. rewrite map_id.
  rewrite (zlen_concat_const (to_le_bytes p) (Z.of_nat (prim_bytes p))) by apply zlen_to_le_bytes.
  assert (in_range (compact_prim CU32) (wrap U32 (zlen v))) as Hr by apply wrap_in_range.
  change (wbytes (compact_encode_to CU32 (wrap U32 (zlen v))) = Done b1) in Hb1.
  rewrite wbytes_compact in Hb1 by done. injection Hb1 as <-. rewrite (zlen_compact_spec CU32) by done.
  pose proof (@length_chunks Z (uint_store Msb0 p) (uint_store_laws Msb0 p) v) as Hc.
  rewrite <- Hc. unfold zlen. rewrite length_map. cbn [elt_bits uint_store]. by rewrite (Z.mul_comm (Z.of_nat (prim_bytes p))).
Qed.

Lemma bitvec_test_passes p v :
  usize_bits = 64 -> prim_signed p = false -> zlen v <= ARCH32BIT_BITSLICE_MAX_BITS -> passes (bitvec_test p v).
Proof.
  intros H64 Hp Hv. pose proof (zlen_nonneg v). assert (msb0_wf p v) as Hwf.
  { split; [done|]. cbn [elts MAX_ELTS uint_store]. unfold ARCH32BIT_BITSLICE_MAX_BITS in Hv.
    apply Z.div_le_upper_bound; destruct p; simpl; lia. }
  pose proof (msb0_total H64 p Hp) as HT. pose proof isize_max_ge.
  destruct (encodable_encode _ (msb0_wf p) always 0 v _ (total_encodable (TotalCodec := HT))) as (_ & _ & Hall); [lia|done|].
  destruct (Hall I) as (bs & Henc & _ & Hb). unfold bitvec_test. rewrite Henc. cbn [mbind outcome_bind].
  pose proof (roundtrip (CodecLaws := total_codec (TotalCodec := HT)) v bs [] Hwf Hb) as Hrun.
  rewrite app_nil_r in Hrun. unfold decode_slice. rewrite Hrun. cbn [mbind outcome_bind unwrap].
  rewrite (proj2 (passes_assert_eq v v) eq_refl : assert_eq v v = Done tt). cbn [mbind outcome_bind].
  apply passes_assert_eq. by rewrite (msb0_bytes_length p v bs).
Qed.

Lemma bitvec_tests_pass : usize_bits = 64 -> Forall passes [bitvec_u8; bitvec_u16; bitvec_u32; bitvec_u64].
Proof.
  intros H64. assert (Forall (fun v => zlen v <= ARCH32BIT_BITSLICE_MAX_BITS) test_data) as Hdata.
  { unfold test_data. assert (forall b n, 0 <= n <= ARCH32BIT_BITSLICE_MAX_BITS ->
      zlen (bits_of b n) <= ARCH32BIT_BITSLICE_MAX_BITS) as Hbits.
    { intros b n Hn. unfold bits_of, zlen. rewrite repeat_length. lia. }
    repeat (apply Forall_cons_2; [first [by vm_compute|by apply Hbits]|]). apply Forall_nil_2. }
  repeat apply Forall_cons_2; [..|apply Forall_nil_2]; apply passes_for_each;
    (eapply Forall_impl; [exact Hdata|]); intros v Hv; by apply bitvec_test_passes.
Qed.
End large.

(** A validation of the model: it passes the unit tests that are transcribed here.  The
    tests of the codecs, of the compact integers and of the smaller modules are
    evaluated, on a 64-bit little-endian and on a 32-bit big-endian target; those that
    append many items pass for every number of items up to theirs, the random round
    trips and the tests of [ConstEncodedLen] on every value.  The tests that are not
    transcribed are listed in the header of the library. *)
Theorem unit_tests_pass :
  Forall passes (@compact_tests x86_64 ++ @codec_tests x86_64 ++ @module_tests x86_64) /\
  Forall passes (@compact_tests powerpc ++ @codec_tests powerpc ++ @module_tests powerpc) /\
  (forall `{Target}, usize_bits = 64 ->
     Forall passes [bitvec_u8; bitvec_u16; bitvec_u32; bitvec_u64] /\
     forall TEST_VALUE, 0 < TEST_VALUE <= 1000000 -> Forall passes (append_tests TEST_VALUE)) /\
  (forall `{Target} c v, in_range (compact_prim c) v -> quick_check_roundtrip c v = Done true) /\
  (forall t x, t ∈ cel_types -> @well_typed x86_64 t x ->
     (forall bs, encode (@encode_of x86_64 t) x = Done bs -> zlen bs <= @usize_max x86_64) ->
     passes (@cel_compliance x86_64 t x)).
Proof.
  pose proof compact_tests_pass as [Hc1 Hc2]%Forall_app. pose proof codec_tests_pass as [Hd1 Hd2]%Forall_app.
  pose proof module_tests_pass as [Hm1 Hm2]%Forall_app.
  split_and!.
  - apply Forall_app_2; [exact Hc1|]. apply Forall_app_2; [exact Hd1|exact Hm1].
  - apply Forall_app_2; [exact Hc2|]. apply Forall_app_2; [exact Hd2|exact Hm2].
  - intros T H64. split; [by apply bitvec_tests_pass|]. intros n Hn. by apply append_tests_pass.
  - intros T c v. apply quick_check_ok.
  - apply cel_tests_pass.
Qed.

Example append_tests_large : passes (@vec_encode_append_works x86_64 3) /\ passes (@vec_encode_append_works x86_64 1000000).
Proof.
  destruct unit_tests_pass as (_ & _ & Hlarge & _ & _). destruct (Hlarge x86_64 eq_refl) as [_ Happ].
  split; [exact (Forall_inv (Happ 3 ltac:(lia)))|exact (Forall_inv (Happ 1000000 ltac:(lia)))].
Defined.
