(* ===== verification/Syntax.v ===== *)
(** * The input of the derive macros

    What [derive/src] uses of the crates [proc_macro2], [syn] and
    [proc_macro_crate].  Tokens and the syntax trees of declarations are data;
    the parsers of those crates are the operations of the class [Syn], a
    parameter of the model.  A parser gets the tokens of a [ParseStream] and
    returns what it leaves of them. *)

From S2P Require Import Prelude.

Definition Ident : Type := string.

(** [syn::Error], by its message. *)
Definition SynError : Type := string.

(** [Result] inside what may panic. *)
Definition bind_ok {A B E} (m : outcome (Result A E)) (k : A -> outcome (Result B E)) : outcome (Result B E) :=
  r ← m;
  match r with
  | Ok a => k a
  | Err e => Done (Err e)
  end.
Notation "x ⇠ m ; k" := (bind_ok m (fun x => k)) (at level 20, m at level 100, k at level 200, right associativity).

(** ** Tokens ([proc_macro2]) *)

(** [syn::Lit]; an integer is given by its [base10_digits]. *)
Inductive Lit : Type :=
| LitStr (value : string)
| LitInt (base10_digits : Z)
| LitOther.

#[warnings="-register-all"]
Inductive token : Type :=
| TIdent (i : Ident)
| TPunct (c : string)
| TLit (l : Lit)
| TParenthesized (content : list token)
| TOtherGroup (content : list token).

(** ** Types and paths

    A type as [syn::visit] sees it: identifiers, type paths ([Type::Path], with
    the type of their qualified self and the arguments of their segments), and
    every other form of type by its parts in the order they are visited
    ([&'a T] has the parts ['a] and [T], [[T; N]] the parts [T] and [N]). *)
#[warnings="-register-all"]
Inductive ast : Type :=
| AIdent (i : Ident)
| ATypePath (qself : list ast) (segments : list (Ident * list ast))
| ANode (parts : list ast).

(** [syn::Path]. *)
Record Path : Type := mkPath {
  leading_colon : bool;
  segments : list (Ident * list ast);
}.

(** [Path::get_ident] and [Path::is_ident]. *)
Definition get_ident (p : Path) : option Ident :=
  match leading_colon p, segments p with
  | false, [(i, [])] => Some i
  | _, _ => None
  end.

Definition is_ident (p : Path) (s : string) : bool :=
  match get_ident p with Some i => String.eqb i s | None => false end.

(** ** Attributes *)

(** [syn::Expr], as far as it is looked at. *)
Inductive Expr : Type :=
| ELit (l : Lit)
| EOther (tokens : list token).

Inductive Meta : Type :=
| MetaPath (path : Path)
| MetaList (path : Path) (tokens : list token)
| MetaNameValue (path : Path) (value : Expr).

(** [syn::Attribute] is its [meta]. *)
Definition Attribute : Type := Meta.

(** [Attribute::path]. *)
Definition attr_path (attr : Attribute) : Path :=
  match attr with MetaPath p | MetaList p _ | MetaNameValue p _ => p end.

(** ** Declarations *)

Record Field : Type := mkSynField {
  field_attrs : list Attribute;
  field_ident : option Ident;
  field_ty : ast;
}.

Inductive Fields : Type :=
| FieldsNamed (named : list Field)
| FieldsUnnamed (unnamed : list Field)
| FieldsUnit.

(** [Fields::iter]. *)
Definition fields_iter (fs : Fields) : list Field :=
  match fs with
  | FieldsNamed l | FieldsUnnamed l => l
  | FieldsUnit => []
  end.

Record Variant : Type := mkSynVariant {
  variant_attrs : list Attribute;
  variant_ident : Ident;
  variant_fields : Fields;
  variant_discriminant : option Expr;
}.

Inductive Data : Type :=
| DataStruct (fields : Fields)
| DataEnum (variants : list Variant)
| DataUnion (fields : list Field).

(** A predicate of a [where] clause: a bound on a type, or anything else. *)
Inductive WherePredicate : Type :=
| PredicateType (bounded_ty : ast) (bounds : list Path)
| PredicateOther (tokens : list token).

(** [Generics]: the names of the type parameters and the [where] clause. *)
Record Generics : Type := mkGenerics {
  type_params : list Ident;
  predicates : list WherePredicate;
}.

Record DeriveInput : Type := mkDeriveInput {
  input_attrs : list Attribute;
  input_ident : Ident;
  input_generics : Generics;
  input_data : Data;
}.

(** ** Parsers *)

Definition parser (A : Type) : Type := list token -> Result (A * list token) SynError.

(** [proc_macro_crate::FoundCrate]. *)
Inductive FoundCrate : Type := FoundItself | FoundName (name : string).

Class Syn : Type := {
  parse_Meta : parser Meta;
  parse_Path : parser Path;
  parse_WherePredicate : parser WherePredicate;
  parse_Ident : parser Ident;
  (** [TokenStream::from_str]. *)
  TokenStream_from_str : string -> Result (list token) SynError;
  (** [syn::parse::<DeriveInput>]. *)
  parse_DeriveInput : list token -> Result DeriveInput SynError;
  crate_name : string -> Result FoundCrate string;
}.

(** A parser takes tokens off the front of its input. *)
Definition consumes {A} (p : parser A) : Prop :=
  forall ts a rest, p ts = Ok (a, rest) -> exists used, ts = used ++ rest.

Class SynLaws `{Syn} : Prop := {
  parse_Meta_consumes : consumes parse_Meta;
  parse_WherePredicate_consumes : consumes parse_WherePredicate;
  parse_Ident_consumes : consumes parse_Ident;
}.

Definition unexpected {A} : Result A SynError := Err "unexpected token"%string.

(** [Attribute::parse_args_with]: the parser has to use all the arguments. *)
Definition parse_args {A} (p : parser A) (attr : Attribute) : Result A SynError :=
  match attr with
  | MetaList _ tokens =>
      match p tokens with
      | Ok (a, []) => Ok a
      | Ok _ => unexpected
      | Err e => Err e
      end
  | _ => Err "expected attribute arguments in parentheses"%string
  end.

(** A keyword, and a punctuation mark. *)
Definition parse_keyword (kw : string) : parser unit := fun ts =>
  match ts with
  | TIdent i :: rest => if String.eqb i kw then Ok (tt, rest) else unexpected
  | _ => unexpected
  end.

Definition parse_punct (c : string) : parser unit := fun ts =>
  match ts with
  | TPunct c' :: rest => if String.eqb c' c then Ok (tt, rest) else unexpected
  | _ => unexpected
  end.

(** [parenthesized!]. *)
Definition parenthesized : parser (list token) := fun ts =>
  match ts with
  | TParenthesized content :: rest => Ok (content, rest)
  | _ => unexpected
  end.

(** [Punctuated::parse_terminated]: items separated by commas up to the end of
    the stream, a comma after the last one being allowed. *)
Fixpoint parse_terminated_loop {A} (fuel : nat) (p : parser A) (ts : list token) : Result (list A) SynError :=
  match ts, fuel with
  | [], _ => Ok []
  | _, O => Err "out of fuel"%string
  | _, S fuel =>
      match p ts with
      | Err e => Err e
      | Ok (a, []) => Ok [a]
      | Ok (a, rest) =>
          match parse_punct "," rest with
          | Err e => Err e
          | Ok (_, rest) => result_map (cons a) (parse_terminated_loop fuel p rest)
          end
      end
  end.

Definition parse_terminated {A} (p : parser A) : parser (list A) := fun ts =>
  result_map (fun l => (l, [])) (parse_terminated_loop (length ts) p ts).

(** [LitInt::base10_parse::<u8>]. *)
Definition base10_parse_u8 (digits : Z) : Result Z SynError :=
  if (0 <=? digits) && (digits <=? 255) then Ok digits else Err "number too large to fit in target type"%string.

(** ** Lemmas *)

Lemma is_ident_get p s : is_ident p s = true <-> get_ident p = Some s.
Proof.
  unfold is_ident. destruct (get_ident p) as [i|]; [|done].
  rewrite String.eqb_eq. naive_solver.
Qed.

Lemma parse_punct_ok c ts u rest : parse_punct c ts = Ok (u, rest) -> ts = TPunct c :: rest.
Proof.
  unfold parse_punct. destruct ts as [|[] ts]; try done.
  destruct (String.eqb_spec c0 c); [|done]. naive_solver.
Qed.

(** Every round takes a comma off, so that the number of tokens is enough fuel. *)
Lemma parse_terminated_fuel {A} (p : parser A) fuel fuel' ts :
  consumes p -> (length ts <= fuel)%nat -> (length ts <= fuel')%nat ->
  parse_terminated_loop fuel p ts = parse_terminated_loop fuel' p ts.
Proof.
  intros Hp. revert fuel' ts. induction fuel as [|fuel IH]; intros fuel' [|t ts] Hf Hf'; simpl in *;
    try (by destruct fuel'); try lia.
  destruct fuel' as [|fuel']; [simpl in *; lia|]. simpl.
  destruct (p (t :: ts)) as [[a [|t' rest]]|e] eqn:Hpt; [done| |done].
  destruct (parse_punct "," (t' :: rest)) as [[u rest']|e] eqn:Hc; [|done].
  apply parse_punct_ok in Hc. destruct (Hp _ _ _ Hpt) as [used Hused].
  apply (f_equal length) in Hused. rewrite length_app, Hc in Hused. simpl in Hused.
  f_equal. apply IH; lia.
Qed.

Lemma parse_terminated_nonempty {A} fuel (p : parser A) t ts : parse_terminated_loop fuel p (t :: ts) <> Ok [].
Proof.
  destruct fuel as [|fuel]; simpl; [done|]. destruct (p (t :: ts)) as [[a [|t' rest]]|e]; [done| |done].
  destruct (parse_punct _ _) as [[u rest']|e]; [|done]. by destruct (parse_terminated_loop _ _ _).
Qed.

(** One item, with or without a trailing comma. *)
Lemma parse_terminated_one {A} (p : parser A) ts a :
  parse_terminated p ts = Ok ([a], []) <->
  ts <> [] /\ (p ts = Ok (a, []) \/ p ts = Ok (a, [TPunct ","])).
Proof.
  unfold parse_terminated. destruct ts as [|t ts]; [simpl; naive_solver|].
  cbn [length parse_terminated_loop].
  destruct (p (t :: ts)) as [[b [|t' rest]]|e] eqn:Hpt; simpl; [naive_solver| |naive_solver].
  destruct t' as [| c | | |]; simpl; try naive_solver.
  destruct (String.eqb_spec c ","); simpl; [|naive_solver]. subst c.
  destruct rest as [|t'' rest].
  - assert (parse_terminated_loop (length ts) p [] = Ok []) as -> by (by destruct (length ts)). naive_solver.
  - split; [|naive_solver]. pose proof (parse_terminated_nonempty (length ts) p t'' rest).
    destruct (parse_terminated_loop _ _ _) as [[|]|]; naive_solver.
Qed.
