(* ===== verification/Attributes.v ===== *)
(** * The attributes of a declaration ([derive/src/utils.rs])

    [check_attributes] rejects misplaced attributes before anything else looks at
    them; the finders then look for one kind of attribute each.  They parse the
    arguments in different ways: the checks accept a trailing comma, the finders
    do not. *)

From S2P Require Import Prelude Syntax.

Section attributes.
Context `{Syn}.

(** ** Finders *)

(** [attr.path().is_ident("codec").then(|| pred(attr.parse_args().ok()?)).flatten()];
    [pred] may panic. *)
Definition match_meta_item {M R} (parse : parser M) (pred : M -> outcome (option R)) (attr : Attribute)
    : outcome (option R) :=
  if is_ident (attr_path attr) "codec" then
    match parse_args parse attr with
    | Ok meta => pred meta
    | Err _ => Done None
    end
  else Done None.

Fixpoint find_meta_item {M R} (parse : parser M) (pred : M -> outcome (option R)) (itr : list Attribute)
    : outcome (option R) :=
  match itr with
  | [] => Done None
  | attr :: itr =>
      r ← match_meta_item parse pred attr;
      match r with
      | Some x => Done (Some x)
      | None => find_meta_item parse pred itr
      end
  end.

(** [.expect(msg)]. *)
Definition expect_ok {A E} (msg : string) (r : Result A E) : outcome A :=
  match r with Ok a => Done a | Err _ => Panic msg end.

(** The expression that [variant_index] quotes. *)
Inductive index_expr : Type :=
| IndexAttribute (byte : Z)
| IndexDiscriminant (expr : Expr)
| IndexPosition (i : Z).

Definition index_pred (meta : Meta) : outcome (option Z) :=
  match meta with
  | MetaNameValue path (ELit (LitInt v)) =>
      if is_ident path "index" then
        byte ← expect_ok "Internal error, index attribute must have been checked" (base10_parse_u8 v);
        Done (Some byte)
      else Done None
  | _ => Done None
  end.

Definition variant_index (v : Variant) (i : Z) : outcome index_expr :=
  index ← find_meta_item parse_Meta index_pred (variant_attrs v);
  Done match index with
       | Some byte => IndexAttribute byte
       | None => match variant_discriminant v with
                 | Some expr => IndexDiscriminant expr
                 | None => IndexPosition i
                 end
       end.

Definition encoded_as_pred (meta : Meta) : outcome (option (list token)) :=
  match meta with
  | MetaNameValue path (ELit (LitStr s)) =>
      if is_ident path "encoded_as" then
        ts ← expect_ok "Internal error, encoded_as attribute must have been checked" (TokenStream_from_str s);
        Done (Some ts)
      else Done None
  | _ => Done None
  end.

Definition get_encoded_as_type (field : Field) : outcome (option (list token)) :=
  find_meta_item parse_Meta encoded_as_pred (field_attrs field).

(** A predicate that looks for a word. *)
Definition word_pred {R} (word : string) (r : R) (meta : Meta) : outcome (option R) :=
  match meta with
  | MetaPath path => if is_ident path word then Done (Some r) else Done None
  | _ => Done None
  end.

(** [<#field_type as #crate_path::HasCompact>::Type]. *)
Definition has_compact_type (crate_path : Path) (ty : ast) : ast :=
  ATypePath [ty] (segments crate_path ++ [("HasCompact"%string, []); ("Type"%string, [])]).

Definition get_compact_type (field : Field) (crate_path : Path) : outcome (option ast) :=
  find_meta_item parse_Meta (word_pred "compact" (has_compact_type crate_path (field_ty field)))
    (field_attrs field).

Definition is_some {A} (o : outcome (option A)) : outcome bool :=
  r ← o; Done match r with Some _ => true | None => false end.

Definition is_compact (field : Field) : outcome bool :=
  is_some (get_compact_type field (mkPath true [("crate"%string, [])])).

Definition should_skip (attrs : list Attribute) : outcome bool :=
  is_some (find_meta_item parse_Meta (word_pred "skip" tt) attrs).

Definition has_dumb_trait_bound (attrs : list Attribute) : outcome bool :=
  is_some (find_meta_item parse_Meta (word_pred "dumb_trait_bound" tt) attrs).

(** ** The path of the crate *)

Definition DEF_CRATE : string := "parity-scale-codec".

(** [.replace('-', "_")]. *)
Fixpoint replace_dashes (s : string) : string :=
  match s with
  | EmptyString => EmptyString
  | String c s => String (if Ascii.eqb c (Ascii.ascii_of_nat 45) then Ascii.ascii_of_nat 95 else c) (replace_dashes s)
  end.

Definition crate_access : Result Ident SynError :=
  match crate_name DEF_CRATE with
  | Ok FoundItself => Ok (replace_dashes DEF_CRATE)
  | Ok (FoundName name) => Ok name
  | Err e => Err e
  end.

(** [impl Parse for CratePath], and [.map(Into::into)]. *)
Definition parse_CratePath : parser Path := fun ts =>
  match parse_keyword "crate" ts with
  | Err e => Err e
  | Ok (_, ts) =>
      match parse_punct "=" ts with
      | Err e => Err e
      | Ok (_, ts) => parse_Path ts
      end
  end.

Definition codec_crate_path_inner (attr : Attribute) : option Path :=
  if is_ident (attr_path attr) "codec" then
    match parse_args parse_CratePath attr with Ok path => Some path | Err _ => None end
  else None.

Fixpoint find_map {A B} (f : A -> option B) (l : list A) : option B :=
  match l with
  | [] => None
  | x :: l => match f x with Some b => Some b | None => find_map f l end
  end.

Definition codec_crate_path (attrs : list Attribute) : Result Path SynError :=
  match find_map codec_crate_path_inner attrs with
  | Some path => Ok path
  | None => result_map (fun ident => mkPath true [(ident, [])]) crate_access
  end.

(** ** Custom trait bounds *)

Inductive CustomTraitBound : Type :=
| SpecifiedBounds (bounds : list WherePredicate)
| SkipTypeParams (type_names : list Ident).

(** [content.peek(skip_type_params)]. *)
Definition peek_keyword (kw : string) (ts : list token) : bool :=
  match ts with TIdent i :: _ => String.eqb i kw | _ => false end.

(** [impl Parse for CustomTraitBound<N>], [name] being the keyword [N].  Tokens
    that are left in a group make the parse fail. *)
Definition parse_CustomTraitBound (name : string) : parser CustomTraitBound := fun ts =>
  match parse_keyword name ts with
  | Err e => Err e
  | Ok (_, ts) =>
      match parenthesized ts with
      | Err e => Err e
      | Ok (content, rest) =>
          if peek_keyword "skip_type_params" content then
            match parse_keyword "skip_type_params" content with
            | Err e => Err e
            | Ok (_, content) =>
                match parenthesized content with
                | Err e => Err e
                | Ok (inner, []) =>
                    result_map (fun r => (SkipTypeParams r.1, rest)) (parse_terminated parse_Ident inner)
                | Ok _ => unexpected
                end
            end
          else result_map (fun r => (SpecifiedBounds r.1, rest)) (parse_terminated parse_WherePredicate content)
      end
  end.

(** [find_meta_item(attrs.iter(), Some)]. *)
Definition custom_trait_bound (name : string) (attrs : list Attribute) : outcome (option CustomTraitBound) :=
  find_meta_item (parse_CustomTraitBound name) (fun b => Done (Some b)) attrs.

Definition custom_decode_trait_bound := custom_trait_bound "decode_bound".
Definition custom_decode_with_mem_tracking_trait_bound := custom_trait_bound "decode_with_mem_tracking_bound".
Definition custom_encode_trait_bound := custom_trait_bound "encode_bound".
Definition custom_mel_trait_bound := custom_trait_bound "mel_bound".

(** ** Fields and variants that are not skipped *)

(** [iter.filter(|x| p(x))], where [p] may panic. *)
Fixpoint filterM {A} (p : A -> outcome bool) (l : list A) : outcome (list A) :=
  match l with
  | [] => Done []
  | x :: l =>
      b ← p x;
      rest ← filterM p l;
      Done (if (b : bool) then x :: rest else rest)
  end.

Definition not_skipped (attrs : list Attribute) : outcome bool :=
  skip ← should_skip attrs; Done (negb skip).

Definition filter_skip_named (named : list Field) : outcome (list Field) :=
  filterM (fun f => not_skipped (field_attrs f)) named.

(** [.enumerate()]. *)
Definition enumerate {A} (l : list A) : list (Z * A) := zip (Z.of_nat <$> seq 0 (length l)) l.

Definition filter_skip_unnamed (unnamed : list Field) : outcome (list (Z * Field)) :=
  filterM (fun '(_, f) => not_skipped (field_attrs f)) (enumerate unnamed).

Definition try_get_variants (variants : list Variant) : outcome (Result (list Variant) SynError) :=
  data_variants ← filterM (fun v => not_skipped (variant_attrs v)) variants;
  Done (if 256 <? zlen data_variants
        then Err "Currently only enums with at most 256 variants are encodable/decodable."%string
        else Ok data_variants).

(** ** Checks *)

Definition QUOTE : string := String (Ascii.ascii_of_nat 34) EmptyString.

Definition field_error : string :=
  "Invalid attribute on field, only `#[codec(skip)]`, `#[codec(compact)]` and `#[codec(encoded_as = "
    +:+ QUOTE +:+ "$EncodeAs" +:+ QUOTE +:+ ")]` are accepted.".

Definition variant_error : string :=
  "Invalid attribute on variant, only `#[codec(skip)]` and `#[codec(index = $u8)]` are accepted.".

Definition top_error : string :=
  "Invalid attribute: only `#[codec(dumb_trait_bound)]`, `#[codec(crate = path::to::crate)]`, `#[codec(encode_bound(T: Encode))]`, `#[codec(decode_bound(T: Decode))]`, `#[codec(decode_bound_with_mem_tracking_bound(T: DecodeWithMemTracking))]` or `#[codec(mel_bound(T: MaxEncodedLen))]` are accepted as top attribute".

(** The one item of [Punctuated::<Meta, Token![,]>]. *)
Definition check_nested (error : string) (check : Meta -> Result unit SynError) (attr : Attribute)
    : Result unit SynError :=
  match parse_args (parse_terminated parse_Meta) attr with
  | Err e => Err e
  | Ok [elt] => check elt
  | Ok _ => Err error
  end.

Definition check_field_meta (elt : Meta) : Result unit SynError :=
  match elt with
  | MetaPath path => if is_ident path "skip" || is_ident path "compact" then Ok tt else Err field_error
  | MetaNameValue path (ELit (LitStr lit_str)) =>
      if is_ident path "encoded_as" then
        map_err (fun _ => "Invalid token stream"%string)
          (result_map (fun _ => tt) (TokenStream_from_str lit_str))
      else Err field_error
  | _ => Err field_error
  end.

Definition check_field_attribute (attr : Attribute) : Result unit SynError :=
  if is_ident (attr_path attr) "codec" then check_nested field_error check_field_meta attr else Ok tt.

Definition check_variant_meta (elt : Meta) : Result unit SynError :=
  match elt with
  | MetaPath path => if is_ident path "skip" then Ok tt else Err variant_error
  | MetaNameValue path (ELit (LitInt lit_int)) =>
      if is_ident path "index" then
        map_err (fun _ => "Index must be in 0..255"%string)
          (result_map (fun _ => tt) (base10_parse_u8 lit_int))
      else Err variant_error
  | _ => Err variant_error
  end.

Definition check_variant_attribute (attr : Attribute) : Result unit SynError :=
  if is_ident (attr_path attr) "codec" then check_nested variant_error check_variant_meta attr else Ok tt.

Definition check_top_meta (elt : Meta) : Result unit SynError :=
  match elt with
  | MetaPath path => if is_ident path "dumb_trait_bound" then Ok tt else Err top_error
  | _ => Err top_error
  end.

Definition check_top_attribute (attr : Attribute) : Result unit SynError :=
  if is_ident (attr_path attr) "codec"
     && negb (is_ok (parse_args (parse_CustomTraitBound "encode_bound") attr))
     && negb (is_ok (parse_args (parse_CustomTraitBound "decode_bound") attr))
     && negb (is_ok (parse_args (parse_CustomTraitBound "decode_with_mem_tracking_bound") attr))
     && negb (is_ok (parse_args (parse_CustomTraitBound "mel_bound") attr))
     && match codec_crate_path_inner attr with None => true | Some _ => false end
  then check_nested top_error check_top_meta attr
  else Ok tt.

(** [for x in l { check(x)?; }]. *)
Fixpoint for_check {A} (check : A -> Result unit SynError) (l : list A) : Result unit SynError :=
  match l with
  | [] => Ok tt
  | x :: l => match check x with Ok _ => for_check check l | Err e => Err e end
  end.

Definition check_field (field : Field) : Result unit SynError :=
  for_check check_field_attribute (field_attrs field).

Definition check_variant (variant : Variant) : Result unit SynError :=
  match for_check check_variant_attribute (variant_attrs variant) with
  | Ok _ => for_check check_field (fields_iter (variant_fields variant))
  | Err e => Err e
  end.

Definition check_attributes (input : DeriveInput) : Result unit SynError :=
  match for_check check_top_attribute (input_attrs input) with
  | Err e => Err e
  | Ok _ =>
      match input_data input with
      | DataStruct fields => for_check check_field (fields_iter fields)
      | DataEnum variants => for_check check_variant variants
      | DataUnion _ => Ok tt
      end
  end.

(** ** Other attributes *)

Definition is_lint_attribute (attr : Attribute) : bool :=
  is_ident (attr_path attr) "allow" || is_ident (attr_path attr) "deny" ||
  is_ident (attr_path attr) "forbid" || is_ident (attr_path attr) "warn".

Definition is_transparent (attrs : list Attribute) : bool :=
  existsb (fun attr =>
    is_ident (attr_path attr) "repr" &&
    match parse_args (parse_terminated parse_Meta) attr with
    | Err _ => false
    | Ok nested =>
        existsb (fun n => match n with MetaPath p => is_ident p "transparent" | _ => false end) nested
    end) attrs.
End attributes.
