(* ===== verification/AttributesTheory.v ===== *)
(** * Checked attributes

    What [check_attributes] guarantees to the finders of [derive/src/utils.rs],
    and what it does not. *)

From S2P Require Import Prelude Syntax Attributes.

(** The fields and the variants of a declaration. *)
Definition data_fields (data : Data) : list Field :=
  match data with
  | DataStruct fields => fields_iter fields
  | DataEnum variants => concat (map (fun v => fields_iter (variant_fields v)) variants)
  | DataUnion _ => []
  end.

Definition data_variants (data : Data) : list Variant :=
  match data with DataEnum variants => variants | _ => [] end.

Section theory.
Context `{Syn}.

(** ** From checks to finders *)

Lemma for_check_ok {A} (check : A -> Result unit SynError) l x :
  for_check check l = Ok tt -> x ∈ l -> check x = Ok tt.
Proof.
  induction l as [|y l IH]; simpl; [by intros _ ?%elem_of_nil|].
  destruct (check y) as [[]|e] eqn:Hy; [|done]. intros Hl [-> | Hx]%elem_of_cons; auto.
Qed.

(** The attribute passes a check, with the one item [elt]; [seen] tells whether
    the arguments end there. *)
Inductive checked (check : Meta -> Result unit SynError) (attr : Attribute) (elt : Meta) : bool -> Prop :=
| checked_seen : parse_args parse_Meta attr = Ok elt -> check elt = Ok tt -> checked check attr elt true
| checked_comma path ts : attr = MetaList path ts -> parse_Meta ts = Ok (elt, [TPunct ","]) ->
    check elt = Ok tt -> checked check attr elt false.

Lemma check_nested_ok error check attr :
  check_nested error check attr = Ok tt -> exists elt seen, checked check attr elt seen.
Proof.
  unfold check_nested. destruct (parse_args _ attr) as [nested|e] eqn:Hp; [|done].
  destruct nested as [|elt [|]]; [done| |done]. intros Hc. exists elt.
  destruct attr as [|path ts|]; [done| |done]. simpl in Hp.
  destruct (parse_terminated parse_Meta ts) as [[l [|]]|] eqn:Ht; [|done|done]. simplify_eq.
  apply parse_terminated_one in Ht as [_ [Hm | Hm]].
  - exists true. constructor; [simpl; by rewrite Hm|done].
  - exists false. by econstructor.
Qed.

(** An item that the finders see is the one that has been checked. *)
Lemma checked_parse_args check attr elt seen meta :
  checked check attr elt seen -> parse_args parse_Meta attr = Ok meta -> seen = true /\ meta = elt.
Proof.
  intros [Hp _ | path ts -> Hp _]; [intros; split; congruence|]. simpl. by rewrite Hp.
Qed.

(** A predicate that does not panic on checked items does not panic at all. *)
Lemma match_meta_item_done {R} check attr (pred : Meta -> outcome (option R)) elt seen :
  checked check attr elt seen -> (forall m, check m = Ok tt -> exists r, pred m = Done r) ->
  exists r, match_meta_item parse_Meta pred attr = Done r.
Proof.
  intros Hc Hpred. unfold match_meta_item. destruct (is_ident _ _); [|by eexists].
  destruct (parse_args parse_Meta attr) as [meta|] eqn:Hp; [|by eexists].
  destruct (checked_parse_args _ _ _ _ _ Hc Hp) as [_ ->].
  apply Hpred. by destruct Hc.
Qed.

Lemma find_meta_item_done {R} error check attr_check (pred : Meta -> outcome (option R)) attrs :
  (forall attr, attr_check attr = if is_ident (attr_path attr) "codec" then check_nested error check attr else Ok tt) ->
  (forall m, check m = Ok tt -> exists r, pred m = Done r) ->
  for_check attr_check attrs = Ok tt -> exists r, find_meta_item parse_Meta pred attrs = Done r.
Proof.
  intros Heq Hpred. induction attrs as [|attr attrs IH]; simpl; [by eexists|].
  rewrite Heq. destruct (is_ident (attr_path attr) "codec") eqn:Hcodec.
  - destruct (check_nested error check attr) as [[]|] eqn:Hc; [|done]. intros Hrest.
    destruct (check_nested_ok _ _ _ Hc) as (elt & seen & Hck).
    destruct (match_meta_item_done check attr pred elt seen Hck Hpred) as [[r|] Hm]; rewrite Hm; simpl;
      [by eexists|auto].
  - intros Hrest. unfold match_meta_item. rewrite Hcodec. simpl. auto.
Qed.

Lemma encoded_as_pred_done m : check_field_meta m = Ok tt -> exists r, encoded_as_pred m = Done r.
Proof.
  unfold check_field_meta, encoded_as_pred. destruct m as [| |path [[s| |]|]]; try (by eexists).
  destruct (is_ident path "encoded_as"); [|by eexists].
  destruct (TokenStream_from_str s); [by eexists|done].
Qed.

Lemma index_pred_done m : check_variant_meta m = Ok tt -> exists r, index_pred m = Done r.
Proof.
  unfold check_variant_meta, index_pred. destruct m as [| |path [[|n|]|]]; try (by eexists).
  destruct (is_ident path "index"); [|by eexists]. destruct (base10_parse_u8 n); [by eexists|done].
Qed.

(** A predicate that never panics, on any attributes. *)
Lemma find_meta_item_total {M R} (parse : parser M) (pred : M -> outcome (option R)) attrs :
  (forall m, exists r, pred m = Done r) -> exists r, find_meta_item parse pred attrs = Done r.
Proof.
  intros Hpred. induction attrs as [|attr attrs [r IH]]; simpl; [by eexists|].
  assert (exists r, match_meta_item parse pred attr = Done r) as [[x|] ->]; simpl; [|by eexists|by eexists].
  unfold match_meta_item. repeat case_match; try (by eexists). apply Hpred.
Qed.

Lemma word_pred_done {R} word (r : R) m : exists x, word_pred word r m = Done x.
Proof. destruct m; simpl; [case_match|..]; by eexists. Qed.

Lemma should_skip_done attrs : exists b, should_skip attrs = Done b.
Proof.
  unfold should_skip, is_some. destruct (find_meta_item_total parse_Meta (word_pred "skip" tt) attrs) as [r ->];
    [apply word_pred_done|]. by eexists.
Qed.

Lemma has_dumb_trait_bound_done attrs : exists b, has_dumb_trait_bound attrs = Done b.
Proof.
  unfold has_dumb_trait_bound, is_some.
  destruct (find_meta_item_total parse_Meta (word_pred "dumb_trait_bound" tt) attrs) as [r ->];
    [apply word_pred_done|]. by eexists.
Qed.

Lemma get_compact_type_done f crate : exists r, get_compact_type f crate = Done r.
Proof. apply find_meta_item_total, word_pred_done. Qed.

Lemma is_compact_done f : exists b, is_compact f = Done b.
Proof. unfold is_compact, is_some. destruct (get_compact_type_done f (mkPath true [("crate"%string, [])])) as [r ->]. by eexists. Qed.

Lemma custom_trait_bound_done name attrs : exists r, custom_trait_bound name attrs = Done r.
Proof. apply find_meta_item_total. by eexists. Qed.

Lemma get_encoded_as_type_done f : check_field f = Ok tt -> exists r, get_encoded_as_type f = Done r.
Proof.
  apply (find_meta_item_done field_error check_field_meta); [done|apply encoded_as_pred_done].
Qed.

Lemma variant_index_done v i : check_variant v = Ok tt -> exists r, variant_index v i = Done r.
Proof.
  unfold check_variant. destruct (for_check check_variant_attribute _) as [[]|] eqn:Hc; [|done]. intros _.
  unfold variant_index. eapply (find_meta_item_done variant_error check_variant_meta) in Hc as [r ->];
    [by eexists|done|apply index_pred_done].
Qed.

Lemma check_attributes_data input :
  check_attributes input = Ok tt ->
  (forall f, f ∈ data_fields (input_data input) -> check_field f = Ok tt) /\
  (forall v, v ∈ data_variants (input_data input) -> check_variant v = Ok tt).
Proof.
  unfold check_attributes. destruct (for_check check_top_attribute _); [|done].
  destruct (input_data input) as [fs|vs|fs]; simpl; intros Hc.
  - split; [intros f; by apply for_check_ok|by intros v ?%elem_of_nil].
  - split; [|intros v; by apply for_check_ok]. intros f Hf.
    apply list_elem_of_In, in_concat in Hf as (l & (v & <- & Hv)%in_map_iff & Hf).
    apply list_elem_of_In in Hv, Hf. pose proof (for_check_ok _ _ _ Hc Hv) as Hvc.
    unfold check_variant in Hvc. destruct (for_check check_variant_attribute _); [|done].
    by eapply for_check_ok.
  - split; by intros ? ?%elem_of_nil.
Qed.
End theory.
