(* ===== verification/TraitBounds.v ===== *)
(** * Trait bounds of derived implementations ([derive/src/trait_bounds.rs])

    Which predicates the macros add to the [where] clause of the implementation
    they generate for a generic type. *)

From S2P Require Import Prelude Syntax Attributes AttributesTheory.

(** ** Visitors *)

Section visitors.
Context (test : Ident -> bool).

(** [visit_ident], on every identifier. *)
Fixpoint visit_idents (t : ast) : bool :=
  match t with
  | AIdent i => test i
  | ATypePath qself segments =>
      existsb visit_idents qself ||
      existsb (fun '(i, args) => test i || existsb visit_idents args) segments
  | ANode parts => existsb visit_idents parts
  end.
End visitors.

Definition type_contain_idents (ty : ast) (idents : list Ident) : bool :=
  visit_idents (fun i => existsb (fun id => String.eqb id i) idents) ty.

(** [TypePathStartsWithIdent]. *)
Definition first_segment_is (ident : Ident) (segments : list (Ident * list ast)) : bool :=
  match segments with
  | (i, _) :: _ => String.eqb i ident
  | [] => false
  end.

Fixpoint type_or_sub_type_path_starts_with_ident (ident : Ident) (t : ast) : bool :=
  match t with
  | AIdent _ => false
  | ATypePath qself segments =>
      if first_segment_is ident segments then true
      else existsb (type_or_sub_type_path_starts_with_ident ident) qself ||
           existsb (fun '(_, args) => existsb (type_or_sub_type_path_starts_with_ident ident) args) segments
  | ANode parts => existsb (type_or_sub_type_path_starts_with_ident ident) parts
  end.

(** [FindTypePathsNotStartOrContainIdent]. *)
Fixpoint find_type_paths_not_start_or_contain_ident (ident : Ident) (t : ast) : list ast :=
  match t with
  | AIdent _ => []
  | ATypePath qself segments =>
      if type_or_sub_type_path_starts_with_ident ident t then
        concat (map (find_type_paths_not_start_or_contain_ident ident) qself) ++
        concat (map (fun '(_, args) =>
          concat (map (find_type_paths_not_start_or_contain_ident ident) args)) segments)
      else [t]
  | ANode parts => concat (map (find_type_paths_not_start_or_contain_ident ident) parts)
  end.

Section bounds.
Context `{Syn}.

(** ** The types of the fields *)

(** [fields.iter().filter(..).map(|f| f.ty.clone())]. *)
Definition filtered_types (type_filter : Field -> outcome bool) (fs : Fields) : outcome (list ast) :=
  fields ← filterM type_filter (fields_iter fs);
  Done (map field_ty fields).

(** [.flat_map(..)] over what may panic. *)
Fixpoint flat_mapM {A B} (f : A -> outcome (list B)) (l : list A) : outcome (list B) :=
  match l with
  | [] => Done []
  | x :: l => ys ← f x; zs ← flat_mapM f l; Done (ys ++ zs)
  end.

Definition collect_types (data : Data) (type_filter : Field -> outcome bool)
    : outcome (Result (list ast) SynError) :=
  match data with
  | DataStruct fields => types ← filtered_types type_filter fields; Done (Ok types)
  | DataEnum variants =>
      variants ← filterM (fun v => not_skipped (variant_attrs v)) variants;
      types ← flat_mapM (fun v => filtered_types type_filter (variant_fields v)) variants;
      Done (Ok types)
  | DataUnion _ => Done (Err "Union types are not supported."%string)
  end.

(** ** The types that get a bound *)

Definition needs_codec_bound (f : Field) : outcome bool :=
  compact ← is_compact f;
  if (compact : bool) then Done false
  else
    encoded_as ← is_some (get_encoded_as_type f);
    if (encoded_as : bool) then Done false
    else not_skipped (field_attrs f).

(** [parse_quote!( #t )]. *)
Definition ident_type (t : Ident) : ast := ATypePath [] [(t, [])].

(** The closure of [flat_map]: the type paths in [ty] and [ty] itself. *)
Definition paths_and_type (input_ident : Ident) (ty_params : list Ident) (ty : ast) : list ast :=
  List.filter (fun ty => type_contain_idents ty ty_params)
    (find_type_paths_not_start_or_contain_ident input_ident ty) ++ [ty].

Definition get_types_to_add_trait_bound (input_ident : Ident) (data : Data) (ty_params : list Ident)
    (dumb_trait_bound : bool) : outcome (Result (list ast) SynError) :=
  if dumb_trait_bound then Done (Ok (map ident_type ty_params))
  else
    types ← collect_types data needs_codec_bound;
    Done (result_map (fun types =>
      List.filter (fun ty => negb (type_or_sub_type_path_starts_with_ident input_ident ty))
        (concat (map (paths_and_type input_ident ty_params)
          (List.filter (fun ty => type_contain_idents ty ty_params) types)))) types).

(** ** [add] *)

Definition path_join (crate_path : Path) (i : Ident) : Path :=
  mkPath (leading_colon crate_path) (segments crate_path ++ [(i, [])]).

Definition extend_where (generics : Generics) (ps : list WherePredicate) : Generics :=
  mkGenerics (type_params generics) (predicates generics ++ ps).

(** [collect_types(data, filter)?.into_iter().filter(..)]. *)
Definition generic_types (data : Data) (ty_params : list Ident) (type_filter : Field -> outcome bool)
    : outcome (Result (list ast) SynError) :=
  types ← collect_types data type_filter;
  Done (result_map (List.filter (fun ty => type_contain_idents ty ty_params)) types).

Definition where_predicates (codec_types compact_types skip_types : list ast) (codec_bound : Path)
    (codec_skip_bound : option Path) (crate_path : Path) : list WherePredicate :=
  map (fun ty => PredicateType ty [codec_bound]) codec_types ++
  concat (map (fun ty =>
    [PredicateType ty [path_join crate_path "HasCompact"];
     PredicateType (has_compact_type crate_path ty) [codec_bound]]) compact_types) ++
  map (fun ty => PredicateType ty (from_option (fun b => [b]) [] codec_skip_bound)) skip_types.

(** The type parameters that may get bounds. *)
Definition unskipped_params (generics : Generics) (custom : option CustomTraitBound) : list Ident :=
  List.filter (fun tp => forallb (fun skip => negb (String.eqb skip tp))
    match custom with Some (SkipTypeParams type_names) => type_names | _ => [] end) (type_params generics).

Definition add (input_ident : Ident) (generics : Generics) (data : Data)
    (custom_trait_bound : option CustomTraitBound) (codec_bound : Path) (codec_skip_bound : option Path)
    (dumb_trait_bounds : bool) (crate_path : Path) : outcome (Result Generics SynError) :=
  match custom_trait_bound with
  | Some (SpecifiedBounds bounds) => Done (Ok (extend_where generics bounds))
  | Some (SkipTypeParams _) | None =>
      let ty_params := unskipped_params generics custom_trait_bound in
      match ty_params with
      | [] => Done (Ok generics)
      | _ =>
          codec_types ⇠ get_types_to_add_trait_bound input_ident data ty_params dumb_trait_bounds;
          compact_types ⇠ generic_types data ty_params is_compact;
          skip_types ⇠ match codec_skip_bound with
                       | Some _ => generic_types data ty_params (fun f => should_skip (field_attrs f))
                       | None => Done (Ok [])
                       end;
          Done (Ok (extend_where generics
            (where_predicates codec_types compact_types skip_types codec_bound codec_skip_bound crate_path)))
      end
  end.
End bounds.

(** ** Reference definitions

    All the identifiers and all the type paths of a type, in the order they are
    visited. *)

Fixpoint idents_of (t : ast) : list Ident :=
  match t with
  | AIdent i => [i]
  | ATypePath qself segments =>
      concat (map idents_of qself) ++
      concat (map (fun '(i, args) => i :: concat (map idents_of args)) segments)
  | ANode parts => concat (map idents_of parts)
  end.

Fixpoint paths_of (t : ast) : list ast :=
  match t with
  | AIdent _ => []
  | ATypePath qself segments =>
      t :: concat (map paths_of qself) ++
      concat (map (fun '(_, args) => concat (map paths_of args)) segments)
  | ANode parts => concat (map paths_of parts)
  end.

(** A type path whose first segment is [ident]. *)
Definition starts_with (ident : Ident) (p : ast) : Prop :=
  match p with ATypePath _ segments => first_segment_is ident segments = true | _ => False end.

(** No type path in [t] starts with [ident]. *)
Definition free_of (ident : Ident) (t : ast) : Prop :=
  forall p, p ∈ paths_of t -> ~ starts_with ident p.

(** ** Visitors and reference definitions *)

Definition children (t : ast) : list ast :=
  match t with
  | AIdent _ => []
  | ATypePath qself segments => qself ++ concat (map snd segments)
  | ANode parts => parts
  end.

Fixpoint ast_size (t : ast) : nat :=
  match t with
  | AIdent _ => 1
  | ATypePath qself segments =>
      S (list_sum (map ast_size qself) + list_sum (map (fun '(_, args) => list_sum (map ast_size args)) segments))
  | ANode parts => S (list_sum (map ast_size parts))
  end.

Lemma list_sum_elem {A} (f : A -> nat) l x : x ∈ l -> (f x <= list_sum (map f l))%nat.
Proof. induction 1; simpl; lia. Qed.

Lemma elem_of_concat_map {A B} (f : A -> list B) l y :
  y ∈ concat (map f l) <-> exists x, x ∈ l /\ y ∈ f x.
Proof.
  induction l as [|x l IH]; simpl.
  - split; [by intros ?%elem_of_nil|by intros (x & ?%elem_of_nil & _)].
  - rewrite elem_of_app, IH. setoid_rewrite elem_of_cons. naive_solver.
Qed.

Lemma existsb_elem_of {A} (f : A -> bool) l : existsb f l = true <-> exists x, x ∈ l /\ f x = true.
Proof. rewrite existsb_exists. by setoid_rewrite list_elem_of_In. Qed.

Lemma elem_of_segments c (segs : list (Ident * list ast)) :
  c ∈ concat (map snd segs) <-> exists i args, (i, args) ∈ segs /\ c ∈ args.
Proof. rewrite elem_of_concat_map. split; [intros ([i args] & ? & ?); eauto|naive_solver]. Qed.

Lemma ast_size_child t c : c ∈ children t -> (ast_size c < ast_size t)%nat.
Proof.
  destruct t as [i|q segs|ps]; simpl; [by intros ?%elem_of_nil|intros [Hc|Hc]%elem_of_app|intros Hc].
  - apply (list_sum_elem ast_size) in Hc. lia.
  - apply elem_of_segments in Hc as (i & args & Hs & Hc). apply (list_sum_elem ast_size) in Hc.
    apply (list_sum_elem (fun '(_, args) => list_sum (map ast_size args))) in Hs. simpl in Hs. lia.
  - apply (list_sum_elem ast_size) in Hc. lia.
Qed.

Lemma ast_children_ind (P : ast -> Prop) : (forall t, (forall c, c ∈ children t -> P c) -> P t) -> forall t, P t.
Proof.
  intros Hstep t. remember (ast_size t) as n eqn:Hn. assert (ast_size t <= n)%nat as Hle by lia. clear Hn.
  revert t Hle. induction n as [|n IH]; intros t Hle; apply Hstep; intros c Hc%ast_size_child; [lia|].
  apply IH. lia.
Qed.

(** Identifiers of [t] that are not in a part of it. *)
Definition own_idents (t : ast) : list Ident :=
  match t with
  | AIdent i => [i]
  | ATypePath _ segments => map fst segments
  | ANode _ => []
  end.

Lemma elem_of_idents_of t i :
  i ∈ idents_of t <-> i ∈ own_idents t \/ exists c, c ∈ children t /\ i ∈ idents_of c.
Proof.
  destruct t as [j|q segs|ps]; simpl.
  - split; [by left|by intros [? | (c & ?%elem_of_nil & _)]].
  - rewrite elem_of_app, !elem_of_concat_map. setoid_rewrite elem_of_app. setoid_rewrite elem_of_segments.
    rewrite list_elem_of_fmap. split.
    + intros [(c & Hc & Hi)|([j args] & Hs & Hi)]; [by eauto|].
      apply elem_of_cons in Hi as [-> | Hi]; [left; by exists (j, args)|].
      apply elem_of_concat_map in Hi as (c & Hc & Hi). right. exists c. eauto 8.
    + intros [([j args] & -> & Hs)|(c & [Hc|(j & args & Hs & Hc)] & Hi)]; [right..| |right]; [|by eauto|].
      * exists (j, args). rewrite elem_of_cons. auto.
      * exists (j, args). rewrite elem_of_cons, elem_of_concat_map. eauto.
  - rewrite elem_of_concat_map, elem_of_nil. naive_solver.
Qed.

Lemma elem_of_paths_of t p :
  p ∈ paths_of t <-> (p = t /\ exists q segs, t = ATypePath q segs) \/ exists c, c ∈ children t /\ p ∈ paths_of c.
Proof.
  destruct t as [j|q segs|ps]; simpl.
  - split; [by intros ?%elem_of_nil|by intros [(_ & q & segs & [=]) | (c & ?%elem_of_nil & _)]].
  - rewrite elem_of_cons, elem_of_app, !elem_of_concat_map. setoid_rewrite elem_of_app.
    setoid_rewrite elem_of_segments. split.
    + intros [-> | [(c & Hc & Hi)|([j args] & Hs & Hi)]]; [by eauto|by eauto|].
      apply elem_of_concat_map in Hi as (c & Hc & Hi). right. exists c. eauto 8.
    + intros [[-> _]|(c & [Hc|(j & args & Hs & Hc)] & Hi)]; [by left|by eauto|]. right. right.
      exists (j, args). rewrite elem_of_concat_map. eauto.
  - rewrite elem_of_concat_map. split; [by right|]. intros [(_ & q & segs & [=])|?]; done.
Qed.

Lemma visit_idents_step test t :
  visit_idents test t = true <->
  (exists i, i ∈ own_idents t /\ test i = true) \/ exists c, c ∈ children t /\ visit_idents test c = true.
Proof.
  destruct t as [j|q segs|ps]; simpl.
  - setoid_rewrite list_elem_of_singleton. setoid_rewrite elem_of_nil. naive_solver.
  - rewrite orb_true_iff, !existsb_elem_of. setoid_rewrite elem_of_app. setoid_rewrite elem_of_segments.
    setoid_rewrite list_elem_of_fmap. split.
    + intros [(c & Hc & Hv)|([j args] & Hs & Hv)]; [by eauto|]. apply orb_true_iff in Hv as [Hv|Hv].
      * left. exists j. split; [|done]. by exists (j, args).
      * apply existsb_elem_of in Hv as (c & Hc & Hv). right. exists c. eauto 8.
    + intros [(i & ([j args] & -> & Hs) & Ht)|(c & [Hc|(j & args & Hs & Hc)] & Hv)]; [|by eauto|];
        right; exists (j, args); rewrite orb_true_iff, existsb_elem_of; eauto 6.
  - rewrite existsb_elem_of. setoid_rewrite elem_of_nil. naive_solver.
Qed.

Lemma type_contain_idents_spec ty idents :
  type_contain_idents ty idents = true <-> exists i, i ∈ idents_of ty /\ i ∈ idents.
Proof.
  unfold type_contain_idents. set (test := fun i => _).
  assert (forall i, test i = true <-> i ∈ idents) as Htest.
  { intros i. unfold test. rewrite existsb_elem_of. setoid_rewrite String.eqb_eq. naive_solver. }
  induction ty as [t IH] using ast_children_ind.
  rewrite visit_idents_step. setoid_rewrite elem_of_idents_of. setoid_rewrite Htest. naive_solver.
Qed.

Lemma starts_with_step ident t :
  type_or_sub_type_path_starts_with_ident ident t = true <->
  starts_with ident t \/ exists c, c ∈ children t /\ type_or_sub_type_path_starts_with_ident ident c = true.
Proof.
  destruct t as [j|q segs|ps]; simpl.
  - setoid_rewrite elem_of_nil. naive_solver.
  - destruct (first_segment_is ident segs); [naive_solver|].
    rewrite orb_true_iff, !existsb_elem_of. setoid_rewrite elem_of_app. setoid_rewrite elem_of_segments. split.
    + intros [(c & Hc & Hv)|([j args] & Hs & Hv)]; [by eauto|].
      apply existsb_elem_of in Hv as (c & Hc & Hv). right. exists c. eauto 8.
    + intros [?|(c & [Hc|(j & args & Hs & Hc)] & Hv)]; [done|by eauto|]. right. exists (j, args).
      rewrite existsb_elem_of. eauto.
  - rewrite existsb_elem_of. naive_solver.
Qed.

Lemma starts_with_is_path ident t : starts_with ident t -> exists q segs, t = ATypePath q segs.
Proof. destruct t; [done|by eauto|done]. Qed.

(** The visitor's answer, although it does not look into a path that it has
    found. *)
Lemma starts_with_ident_spec ident t :
  type_or_sub_type_path_starts_with_ident ident t = true <-> exists p, p ∈ paths_of t /\ starts_with ident p.
Proof.
  induction t as [t IH] using ast_children_ind. rewrite starts_with_step. setoid_rewrite elem_of_paths_of.
  split.
  - intros [Hs|(c & Hc & Hv)]; [exists t; eauto using starts_with_is_path|]. apply IH in Hv as (p & Hp & Hs); eauto 6.
  - intros (p & [(-> & _)|(c & Hc & Hp)] & Hs); [by left|]. right. exists c. split; [done|]. apply IH; eauto.
Qed.

Lemma free_of_spec ident t : type_or_sub_type_path_starts_with_ident ident t = false <-> free_of ident t.
Proof.
  unfold free_of. rewrite <- not_true_iff_false, starts_with_ident_spec. naive_solver.
Qed.

Lemma find_type_paths_step ident t p :
  p ∈ find_type_paths_not_start_or_contain_ident ident t <->
  (p = t /\ (exists q segs, t = ATypePath q segs) /\ free_of ident t) \/
  ((forall q segs, t = ATypePath q segs -> ~ free_of ident t) /\
   exists c, c ∈ children t /\ p ∈ find_type_paths_not_start_or_contain_ident ident c).
Proof.
  destruct t as [j|q segs|ps].
  - simpl. rewrite elem_of_nil. setoid_rewrite elem_of_nil. naive_solver.
  - rewrite <- free_of_spec. cbn [find_type_paths_not_start_or_contain_ident].
    destruct (type_or_sub_type_path_starts_with_ident ident _) eqn:Hs.
    + rewrite elem_of_app, !elem_of_concat_map. cbn [children]. setoid_rewrite elem_of_app.
      setoid_rewrite elem_of_segments. split.
      * intros Hp. right. split; [intros ?? _ Hf%free_of_spec; congruence|]. destruct Hp as [?|([j args] & Hsg & Hp)]; [by naive_solver|].
        apply elem_of_concat_map in Hp as (c & Hc & Hp). exists c. eauto 8.
      * intros [(_ & _ & ?)|(_ & c & [Hc|(j & args & Hsg & Hc)] & Hp)]; [done|by eauto|]. right. exists (j, args).
        rewrite elem_of_concat_map. eauto.
    + rewrite list_elem_of_singleton. split; [by eauto 6|]. intros [[? _]|(Hn & _)]; [done|].
      destruct (Hn _ _ eq_refl). by apply free_of_spec.
  - simpl. rewrite elem_of_concat_map. split.
    + intros Hp. right. split; [done|]. naive_solver.
    + intros [(_ & (q & segs & [=]) & _)|(_ & c & Hc & Hp)]. eauto.
Qed.

(** Soundness: the paths that are found occur in the type, and do not contain
    the identifier. *)
Lemma find_type_paths_sound ident t p :
  p ∈ find_type_paths_not_start_or_contain_ident ident t -> p ∈ paths_of t /\ free_of ident p.
Proof.
  induction t as [t IH] using ast_children_ind.
  intros [(-> & Hp & Hf)|(_ & c & Hc & Hp)]%find_type_paths_step; rewrite elem_of_paths_of; [by eauto|].
  destruct (IH c Hc Hp). split; [right; eauto|done].
Qed.

(** Completeness: every type path that does not contain the identifier is part
    of one that is found. *)
Lemma find_type_paths_complete ident t p :
  p ∈ paths_of t -> free_of ident p ->
  exists p', p' ∈ find_type_paths_not_start_or_contain_ident ident t /\ p ∈ paths_of p'.
Proof.
  induction t as [t IH] using ast_children_ind. intros Hp Hf.
  setoid_rewrite find_type_paths_step.
  destruct (type_or_sub_type_path_starts_with_ident ident t) eqn:Hs; [|destruct t as [i|q segs|ps]].
  - assert (~ free_of ident t) as Hn by (rewrite <- free_of_spec, Hs; done).
    apply elem_of_paths_of in Hp as [[-> _]|(c & Hc & Hp)]; [done|].
    destruct (IH c Hc Hp Hf) as (p' & Hp' & Hin). exists p'. eauto 6.
  - by apply elem_of_nil in Hp.
  - exists (ATypePath q segs). split; [|done]. left. rewrite <- free_of_spec. eauto.
  - apply elem_of_paths_of in Hp as [(_ & q & segs & [=])|(c & Hc & Hp)].
    destruct (IH c Hc Hp Hf) as (p' & Hp' & Hin). exists p'. split; [|done]. right. split; [done|eauto].
Qed.

Lemma idents_of_path t p i : p ∈ paths_of t -> i ∈ idents_of p -> i ∈ idents_of t.
Proof.
  induction t as [t IH] using ast_children_ind.
  intros [(-> & _)|(c & Hc & Hp)]%elem_of_paths_of Hi; [done|]. apply elem_of_idents_of. right. eauto.
Qed.

(** ** The types that get a bound *)

Section theory.
Context `{Syn}.

Lemma filterM_elem {A} (p : A -> outcome bool) l r x :
  filterM p l = Done r -> x ∈ r <-> x ∈ l /\ p x = Done true.
Proof.
  revert r. induction l as [|y l IH]; simpl; intros r Hr.
  { simplify_eq. rewrite elem_of_nil. naive_solver. }
  destruct (p y) as [b|] eqn:Hy; [|done]. simpl in Hr. destruct (filterM p l) as [r'|]; [|done]. simpl in Hr.
  simplify_eq. destruct b; rewrite !elem_of_cons, ?(IH r' eq_refl); [intuition congruence|].
  split; [tauto|]. intros [[-> | ?] ?]; [congruence|tauto].
Qed.

Lemma filterM_done {A} (p : A -> outcome bool) l :
  (forall x, x ∈ l -> exists b, p x = Done b) -> exists r, filterM p l = Done r.
Proof.
  induction l as [|y l IH]; simpl; intros Hp; [by eexists|].
  destruct (Hp y) as [b ->]; [by left|]. destruct IH as [r ->]; [intros; apply Hp; by right|]. by eexists.
Qed.

(** The fields whose types are looked at: those of variants that are not
    skipped. *)
Definition live_field (data : Data) (f : Field) : Prop :=
  match data with
  | DataStruct fields => f ∈ fields_iter fields
  | DataEnum variants => exists v, v ∈ variants /\ not_skipped (variant_attrs v) = Done true /\
      f ∈ fields_iter (variant_fields v)
  | DataUnion _ => False
  end.

Lemma live_field_data data f : live_field data f -> f ∈ data_fields data.
Proof.
  destruct data as [fs|vs|fs]; simpl; [done| |done]. intros (v & Hv & _ & Hf). apply elem_of_concat_map. eauto.
Qed.

Lemma filtered_types_elem type_filter fs types ty :
  filtered_types type_filter fs = Done types ->
  ty ∈ types <-> exists f, f ∈ fields_iter fs /\ type_filter f = Done true /\ field_ty f = ty.
Proof.
  unfold filtered_types. destruct (filterM _ _) as [r|] eqn:Hr; [|done]. simpl. intros [= <-].
  rewrite list_elem_of_fmap. setoid_rewrite (filterM_elem _ _ _ _ Hr). naive_solver.
Qed.

Lemma flat_mapM_elem {A B} (f : A -> outcome (list B)) l r y :
  flat_mapM f l = Done r -> y ∈ r <-> exists x ys, x ∈ l /\ f x = Done ys /\ y ∈ ys.
Proof.
  revert r. induction l as [|x l IH]; simpl; intros r Hr.
  { simplify_eq. rewrite elem_of_nil. split; [done|]. by intros (? & ? & ?%elem_of_nil & _). }
  destruct (f x) as [ys|] eqn:Hx; [|done]. simpl in Hr. destruct (flat_mapM f l) as [r'|]; [|done]. simpl in Hr.
  simplify_eq. rewrite elem_of_app, (IH r' eq_refl). setoid_rewrite elem_of_cons. split.
  - intros [Hy|(x' & ys' & ? & ? & ?)]; [exists x, ys|exists x', ys']; auto.
  - intros (x' & ys' & [-> | ?] & ? & ?); [left; congruence|right; eauto].
Qed.

Lemma flat_mapM_each {A B} (f : A -> outcome (list B)) l r x :
  flat_mapM f l = Done r -> x ∈ l -> exists ys, f x = Done ys.
Proof.
  intros Hr Hx. revert r Hr. induction Hx as [x l|x y l _ IH]; simpl; intros r.
  - destruct (f x) as [ys|]; [by eauto|done].
  - destruct (f y) as [zs|]; [|done]. simpl. destruct (flat_mapM f l) as [zs'|]; [|done]. intros _. by eapply IH.
Qed.

Lemma flat_mapM_done {A B} (f : A -> outcome (list B)) l :
  (forall x, x ∈ l -> exists b, f x = Done b) -> exists r, flat_mapM f l = Done r.
Proof.
  induction l as [|y l IH]; simpl; intros Hp; [by eexists|].
  destruct (Hp y) as [b ->]; [by left|]. destruct IH as [r ->]; [intros; apply Hp; by right|]. by eexists.
Qed.

Lemma collect_types_elem data type_filter types ty :
  collect_types data type_filter = Done (Ok types) ->
  ty ∈ types <-> exists f, live_field data f /\ type_filter f = Done true /\ field_ty f = ty.
Proof.
  destruct data as [fs|vs|fs]; simpl; [| |done].
  - destruct (filtered_types _ _) as [r|] eqn:Hr; [|done]. simpl. intros [= <-]. by apply filtered_types_elem.
  - destruct (filterM _ vs) as [vs'|] eqn:Hv; [|done]. simpl. destruct (flat_mapM _ _) as [r|] eqn:Hr; [|done].
    simpl. intros [= <-]. rewrite (flat_mapM_elem _ _ _ _ Hr). split.
    + intros (v & ys & Hin & Hys & Hty). apply (filterM_elem _ _ _ _ Hv) in Hin as [Hin Hns].
      apply (filtered_types_elem _ _ _ _ Hys) in Hty as (f & ? & ? & ?). exists f. eauto 8.
    + intros (f & (v & Hin & Hns & Hf) & Hfilter & Hty).
      assert (v ∈ vs') as Hv' by (by apply (filterM_elem _ _ _ _ Hv)).
      destruct (flat_mapM_each _ _ _ _ Hr Hv') as [ys Hys].
      exists v, ys. split; [done|split; [done|]]. apply (filtered_types_elem _ _ _ _ Hys). eauto.
Qed.

Lemma not_skipped_done attrs : exists b, not_skipped attrs = Done b.
Proof. unfold not_skipped. destruct (should_skip_done attrs) as [b ->]. by eexists. Qed.

Lemma collect_types_done data type_filter :
  (forall f, f ∈ data_fields data -> exists b, type_filter f = Done b) ->
  exists r, collect_types data type_filter = Done r.
Proof.
  assert (forall fs, (forall f, f ∈ fields_iter fs -> exists b, type_filter f = Done b) ->
    exists r, filtered_types type_filter fs = Done r) as Hfs.
  { intros fs Hf. unfold filtered_types. destruct (filterM_done _ _ Hf) as [r ->]. by eexists. }
  destruct data as [fs|vs|fs]; simpl; intros Hf; [| |by eexists].
  - destruct (Hfs fs Hf) as [r ->]. by eexists.
  - destruct (filterM_done (fun v => not_skipped (variant_attrs v)) vs) as [vs' Hvs];
      [intros; apply not_skipped_done|]. rewrite Hvs. simpl.
    destruct (flat_mapM_done (fun v => filtered_types type_filter (variant_fields v)) vs') as [r Hr];
      [|rewrite Hr; by eexists].
    intros v [Hv _]%(filterM_elem _ _ _ _ Hvs). apply Hfs. intros f Hin. apply Hf, elem_of_concat_map. eauto.
Qed.

(** A field whose type has to have the codec's bound, and mentions a parameter. *)
Definition bound_field (data : Data) (ty_params : list Ident) (f : Field) : Prop :=
  live_field data f /\ needs_codec_bound f = Done true /\ type_contain_idents (field_ty f) ty_params = true.

Lemma filter_elem {A} (p : A -> bool) l x : x ∈ List.filter p l <-> x ∈ l /\ p x = true.
Proof. rewrite !list_elem_of_In. apply filter_In. Qed.

Lemma get_types_elem input_ident data ty_params types ty :
  get_types_to_add_trait_bound input_ident data ty_params false = Done (Ok types) ->
  ty ∈ types <->
  free_of input_ident ty /\ exists f, bound_field data ty_params f /\
    (ty = field_ty f \/
     (ty ∈ find_type_paths_not_start_or_contain_ident input_ident (field_ty f) /\
      type_contain_idents ty ty_params = true)).
Proof.
  unfold get_types_to_add_trait_bound. destruct (collect_types _ _) as [[r|e]|] eqn:Hr; [|done|done].
  simpl. intros [= <-]. rewrite filter_elem, negb_true_iff, free_of_spec, elem_of_concat_map.
  setoid_rewrite filter_elem. setoid_rewrite (collect_types_elem _ _ _ _ Hr).
  unfold paths_and_type. setoid_rewrite elem_of_app. setoid_rewrite filter_elem.
  setoid_rewrite list_elem_of_singleton. unfold bound_field. split.
  - intros [(t & ((f & Hl & Hn & <-) & Hc) & Ht) Hf]. split; [done|]. exists f. naive_solver.
  - intros [Hf (f & (Hl & Hn & Hc) & Ht)]. split; [|done]. exists (field_ty f). naive_solver.
Qed.

Lemma contain_no_idents ty : type_contain_idents ty [] = false.
Proof.
  apply not_true_iff_false. rewrite type_contain_idents_spec. by intros (i & _ & ?%elem_of_nil).
Qed.

Lemma generic_types_elem data ty_params type_filter types ty :
  generic_types data ty_params type_filter = Done (Ok types) ->
  ty ∈ types <-> type_contain_idents ty ty_params = true /\
    exists f, live_field data f /\ type_filter f = Done true /\ field_ty f = ty.
Proof.
  unfold generic_types. destruct (collect_types _ _) as [[r|]|] eqn:Hr; [|done|done]. simpl. intros [= <-].
  rewrite filter_elem, (collect_types_elem _ _ _ _ Hr). tauto.
Qed.

(** What [add] does without [#[codec(..._bound(T: ...))]] on the type. *)
Lemma add_inv input_ident generics data custom codec_bound skip_bound dumb crate_path g :
  (forall bounds, custom <> Some (SpecifiedBounds bounds)) ->
  unskipped_params generics custom <> [] ->
  add input_ident generics data custom codec_bound skip_bound dumb crate_path = Done (Ok g) ->
  exists codec_types compact_types skip_types,
    get_types_to_add_trait_bound input_ident data (unskipped_params generics custom) dumb
      = Done (Ok codec_types) /\
    generic_types data (unskipped_params generics custom) is_compact = Done (Ok compact_types) /\
    match skip_bound with
    | Some _ => generic_types data (unskipped_params generics custom) (fun f => should_skip (field_attrs f))
        = Done (Ok skip_types)
    | None => skip_types = []
    end /\
    g = extend_where generics
      (where_predicates codec_types compact_types skip_types codec_bound skip_bound crate_path).
Proof.
  intros Hc Hp. unfold add.
  destruct custom as [[bounds|names]|]; [by destruct (Hc bounds)|..];
    (destruct (unskipped_params generics _) as [|tp tps]; [done|];
     cbv beta iota zeta;
     intros Hadd;
     destruct (get_types_to_add_trait_bound _ _ _ _) as [[codec_types|]|]; simplify_eq/=;
     destruct (generic_types data (tp :: tps) is_compact) as [[compact_types|]|]; simplify_eq/=;
     (destruct skip_bound; [destruct (generic_types _ _ _) as [[skip_types|]|]|]); simplify_eq/=;
     do 3 eexists; split_and!; reflexivity).
Qed.
End theory.
