(* ===== verification/Expand.v ===== *)
(** * The expansion of the derive macros ([derive/src/lib.rs], [encode.rs],
      [decode.rs], [max_encoded_len.rs])

    From the tokens of a declaration to the implementation that is generated:
    what is quoted is a value of [encode_body], [decode_body] and the like, that
    says which attribute each field is handled with and by which bytes variants
    are told apart.  An expansion either is an implementation, or a compile-time
    error, or the macro panics. *)

From S2P Require Import Prelude Syntax Attributes AttributesTheory TraitBounds.

Section map.
Context {A B : Type} (f : A -> outcome (Result B SynError)).

Fixpoint map_ok (l : list A) : outcome (Result (list B) SynError) :=
  match l with
  | [] => Done (Ok [])
  | x :: l => y ⇠ f x; ys ⇠ map_ok l; Done (Ok (y :: ys))
  end.
End map.

(** [a as u8 + b as u8 + c as u8 > 1]. *)
Definition more_than_one (a b c : bool) : bool := (1 <? Z.b2z a + Z.b2z b + Z.b2z c).

Definition one_at_a_time : SynError := "`encoded_as`, `compact` and `skip` can only be used one at a time!".
Definition no_unions : SynError := "Union types are not supported.".

(** [enum FieldAttribute]. *)
Inductive FieldAttribute : Type :=
| AttrNone (field : Field)
| AttrCompact (field : Field)
| AttrEncodedAs (field : Field) (encoded_as : list token)
| AttrSkip.

(** An implementation; [wrap_with_dummy_const] keeps the lint attributes of the
    type. *)
Record impl_block (B : Type) : Type := mkImpl {
  impl_lints : list Attribute;
  impl_crate_path : Path;
  impl_name : Ident;
  impl_generics : Generics;
  impl_body : B;
}.
Arguments mkImpl {_} _ _ _ _ _.
Arguments impl_lints {_} _.
Arguments impl_crate_path {_} _.
Arguments impl_name {_} _.
Arguments impl_generics {_} _.
Arguments impl_body {_} _.

Section expand.
Context `{Syn}.

(** ** [encode.rs] *)

(** The closure of [iterate_over_fields]: the attribute its handler gets. *)
Definition field_attribute (f : Field) : outcome (Result FieldAttribute SynError) :=
  encoded_as ← get_encoded_as_type f;
  compact ← is_compact f;
  skip ← should_skip (field_attrs f);
  Done (if more_than_one (match encoded_as with Some _ => true | None => false end) compact skip
        then Err one_at_a_time
        else Ok (if (compact : bool) then AttrCompact f
                 else match encoded_as with
                      | Some ts => AttrEncodedAs f ts
                      | None => if (skip : bool) then AttrSkip else AttrNone f
                      end)).

(** [encode_single_field]. *)
Definition encode_single_field (crate_path : Path) (f : Field) : outcome (Result FieldAttribute SynError) :=
  encoded_as ← get_encoded_as_type f;
  compact ← get_compact_type f crate_path;
  skip ← should_skip (field_attrs f);
  Done (if (skip : bool) then Err "Internal error: cannot encode single field optimisation if skipped"%string
        else match encoded_as, compact with
             | Some _, Some _ => Err "`encoded_as` and `compact` can not be used at the same time!"%string
             | None, Some _ => Ok (AttrCompact f)
             | Some ts, None => Ok (AttrEncodedAs f ts)
             | None, None => Ok (AttrNone f)
             end).

(** [stringify]: the name of the binding of an unnamed field. *)
Definition CHARS : string := "abcdefghijklmnopqrstuvwxyz".

Definition symbol (id : Z) : Ascii.ascii :=
  default Ascii.Space (String.get (Z.to_nat (id mod 26)) CHARS).

Definition stringify (id : Z) : Ident :=
  String (symbol id) (String (symbol (id / 26)) EmptyString).

(** [field_name(i, ..)] in the pattern of a variant, with [i as u8]. *)
Definition binding_names (fs : Fields) : list Ident :=
  match fs with
  | FieldsNamed l => omap field_ident l
  | FieldsUnnamed l => map (fun '(i, _) => stringify (i mod 256)) (enumerate l)
  | FieldsUnit => []
  end.

(** An arm of [match *self]. *)
Record arm : Type := mkArm {
  arm_name : Ident;
  arm_index : index_expr;
  arm_bindings : list Ident;
  arm_fields : list FieldAttribute;
}.

Inductive encode_body : Type :=
| EncodeSingle (attr : FieldAttribute)
| EncodeStruct (fields : list FieldAttribute)
| EncodeEnum (arms : list arm)
| EncodeEmpty.

(** The one field that is not skipped. *)
Definition single_field (fs : Fields) : outcome (option Field) :=
  match fs with
  | FieldsNamed l =>
      r ← filter_skip_named l;
      Done match r with [f] => Some f | _ => None end
  | FieldsUnnamed l =>
      r ← filter_skip_unnamed l;
      Done match r with [(_, f)] => Some f | _ => None end
  | FieldsUnit => Done None
  end.

Definition try_impl_encode_single_field_optimisation (crate_path : Path) (data : Data)
    : outcome (option (outcome (Result FieldAttribute SynError))) :=
  match data with
  | DataStruct fields => f ← single_field fields; Done (option_map (encode_single_field crate_path) f)
  | _ => Done None
  end.

(** One variant of [variants.iter().enumerate()]. *)
Definition expand_variant (iv : Z * Variant) : outcome (Result arm SynError) :=
  let '(i, v) := iv in
  index ← variant_index v i;
  fields ⇠ map_ok field_attribute (fields_iter (variant_fields v));
  Done (Ok (mkArm (variant_ident v) index (binding_names (variant_fields v)) fields)).

Definition impl_encode (data : Data) : outcome (Result encode_body SynError) :=
  match data with
  | DataStruct fields =>
      attrs ⇠ map_ok field_attribute (fields_iter fields); Done (Ok (EncodeStruct attrs))
  | DataEnum variants =>
      variants ⇠ try_get_variants variants;
      match variants with
      | [] => Done (Ok EncodeEmpty)
      | _ => arms ⇠ map_ok expand_variant (enumerate variants); Done (Ok (EncodeEnum arms))
      end
  | DataUnion _ => Done (Err no_unions)
  end.

Definition encode_quote (crate_path : Path) (data : Data) : outcome (Result encode_body SynError) :=
  single ← try_impl_encode_single_field_optimisation crate_path data;
  match single with
  | Some implementation => attr ⇠ implementation; Done (Ok (EncodeSingle attr))
  | None => impl_encode data
  end.

(** ** [decode.rs] *)

(** [create_decode_expr]: how a field is decoded. *)
Definition create_decode_expr (crate_path : Path) (f : Field) : outcome (Result FieldAttribute SynError) :=
  encoded_as ← get_encoded_as_type f;
  compact ← get_compact_type f crate_path;
  skip ← should_skip (field_attrs f);
  Done (if more_than_one (match encoded_as with Some _ => true | None => false end)
             (match compact with Some _ => true | None => false end) skip
        then Err one_at_a_time
        else Ok match compact with
                | Some _ => AttrCompact f
                | None => match encoded_as with
                          | Some ts => AttrEncodedAs f ts
                          | None => if (skip : bool) then AttrSkip else AttrNone f
                          end
                end).

Inductive decode_body : Type :=
| DecodeStruct (fields : list FieldAttribute)
| DecodeEnum (arms : list (Ident * index_expr * list FieldAttribute)).

(** [create_instance]. *)
Definition create_instance (crate_path : Path) (fs : Fields) : outcome (Result (list FieldAttribute) SynError) :=
  map_ok (create_decode_expr crate_path) (fields_iter fs).

Definition decode_variant (crate_path : Path) (iv : Z * Variant)
    : outcome (Result (Ident * index_expr * list FieldAttribute) SynError) :=
  let '(i, v) := iv in
  index ← variant_index v i;
  fields ⇠ create_instance crate_path (variant_fields v);
  Done (Ok (variant_ident v, index, fields)).

Definition decode_quote (crate_path : Path) (data : Data) : outcome (Result decode_body SynError) :=
  match data with
  | DataStruct fields => attrs ⇠ create_instance crate_path fields; Done (Ok (DecodeStruct attrs))
  | DataEnum variants =>
      variants ⇠ try_get_variants variants;
      arms ⇠ map_ok (decode_variant crate_path) (enumerate variants);
      Done (Ok (DecodeEnum arms))
  | DataUnion _ => Done (Err no_unions)
  end.

(** [fields.iter().any(..)], where the predicate may panic. *)
Fixpoint anyM {A} (p : A -> outcome bool) (l : list A) : outcome bool :=
  match l with
  | [] => Done false
  | x :: l => b ← p x; if (b : bool) then Done true else anyM p l
  end.

Definition influences_decoding (f : Field) : outcome bool :=
  encoded_as ← is_some (get_encoded_as_type f);
  if (encoded_as : bool) then Done true
  else compact ← is_compact f; if (compact : bool) then Done true else should_skip (field_attrs f).

(** [quote_decode_into]: the types whose [decode_into] is called in turn. *)
Definition quote_decode_into (data : Data) (attrs : list Attribute) : outcome (option (list ast)) :=
  if negb (is_transparent attrs) then Done None
  else match data with
  | DataStruct (FieldsNamed fields) | DataStruct (FieldsUnnamed fields) =>
      match fields with
      | [] => Done None
      | _ =>
          extra ← anyM influences_decoding fields;
          Done (if (extra : bool) then None else Some (map field_ty fields))
      end
  | _ => Done None
  end.

(** A type that has to be [DecodeWithMemTracking]. *)
Inductive tracked_type : Type :=
| TrackedType (ty : ast)
| TrackedTokens (ts : list token).

Definition tracked_field (crate_path : Path) (f : Field) : outcome (list tracked_type) :=
  skip ← should_skip (field_attrs f);
  if (skip : bool) then Done []
  else
    compact ← get_compact_type f crate_path;
    match compact with
    | Some ty => Done [TrackedType ty]
    | None =>
        encoded_as ← get_encoded_as_type f;
        Done [match encoded_as with Some ts => TrackedTokens ts | None => TrackedType (field_ty f) end]
    end.

Definition quote_decode_with_mem_tracking_checks (crate_path : Path) (data : Data)
    : outcome (Result (list tracked_type) SynError) :=
  match data with
  | DataStruct fields => r ← flat_mapM (tracked_field crate_path) (fields_iter fields); Done (Ok r)
  | DataEnum variants =>
      variants ⇠ try_get_variants variants;
      r ← flat_mapM (tracked_field crate_path) (concat (map (fun v => fields_iter (variant_fields v)) variants));
      Done (Ok r)
  | DataUnion _ => Done (Err no_unions)
  end.

(** ** [max_encoded_len.rs] *)

(** A term of the sum: the type whose [max_encoded_len()] is added. *)
Definition length_term (crate_path : Path) (f : Field) : outcome (list ast) :=
  skip ← should_skip (field_attrs f);
  if (skip : bool) then Done []
  else
    compact ← is_compact f;
    Done [if (compact : bool) then has_compact_type crate_path (field_ty f) else field_ty f].

Definition fields_length_expr (crate_path : Path) (fs : Fields) : outcome (list ast) :=
  flat_mapM (length_term crate_path) (fields_iter fs).

Inductive length_expr : Type :=
| LengthSum (terms : list ast)
| LengthMaxPlusOne (variants : list (list ast)).

Definition data_length_expr (crate_path : Path) (data : Data) : outcome (Result length_expr SynError) :=
  match data with
  | DataStruct fields => terms ← fields_length_expr crate_path fields; Done (Ok (LengthSum terms))
  | DataEnum variants =>
      variants ← filterM (fun v => not_skipped (variant_attrs v)) variants;
      sums ← flat_mapM (fun v => terms ← fields_length_expr crate_path (variant_fields v); Done [terms]) variants;
      Done (Ok (LengthMaxPlusOne sums))
  | DataUnion _ => Done (Err no_unions)
  end.

(** ** [lib.rs]: the macros *)

Definition wrap_with_dummy_const {B} (input : DeriveInput) (crate_path : Path) (generics : Generics) (body : B)
    : impl_block B :=
  mkImpl (List.filter is_lint_attribute (input_attrs input)) crate_path (input_ident input) generics body.

(** The path of the crate, and the generics with the bounds of [trait]. *)
Definition derive_bounds (input : DeriveInput) (custom : list Attribute -> outcome (option CustomTraitBound))
    (trait : Ident) (codec_skip_bound : option Path) : outcome (Result (Path * Generics) SynError) :=
  crate_path ⇠ Done (codec_crate_path (input_attrs input));
  custom_bound ← custom (input_attrs input);
  dumb ← has_dumb_trait_bound (input_attrs input);
  generics ⇠ add (input_ident input) (input_generics input) (input_data input) custom_bound
    (path_join crate_path trait) codec_skip_bound dumb crate_path;
  Done (Ok (crate_path, generics)).

(** [parse_quote!(Default)]. *)
Definition default_path : Path := mkPath false [("Default"%string, [])].

Definition encode_derive (ts : list token) : outcome (Result (impl_block encode_body) SynError) :=
  input ⇠ Done (parse_DeriveInput ts);
  _ ⇠ Done (check_attributes input);
  bounds ⇠ derive_bounds input custom_encode_trait_bound "Encode" None;
  encode_impl ⇠ encode_quote bounds.1 (input_data input);
  Done (Ok (wrap_with_dummy_const input bounds.1 bounds.2 encode_impl)).

Definition decode_derive (ts : list token)
    : outcome (Result (impl_block (decode_body * option (list ast))) SynError) :=
  input ⇠ Done (parse_DeriveInput ts);
  _ ⇠ Done (check_attributes input);
  bounds ⇠ derive_bounds input custom_decode_trait_bound "Decode" (Some default_path);
  decoding ⇠ decode_quote bounds.1 (input_data input);
  decode_into_body ← quote_decode_into (input_data input) (input_attrs input);
  Done (Ok (wrap_with_dummy_const input bounds.1 bounds.2 (decoding, decode_into_body))).

Definition decode_with_mem_tracking_derive (ts : list token)
    : outcome (Result (impl_block (list tracked_type)) SynError) :=
  input ⇠ Done (parse_DeriveInput ts);
  _ ⇠ Done (check_attributes input);
  bounds ⇠ derive_bounds input custom_decode_with_mem_tracking_trait_bound "DecodeWithMemTracking"
    (Some default_path);
  checks ⇠ quote_decode_with_mem_tracking_checks bounds.1 (input_data input);
  Done (Ok (wrap_with_dummy_const input bounds.1 bounds.2 checks)).

(** [val_or_default], for every field of the constructor. *)
Inductive constructor_arg : Type := ArgX | ArgDefault.

Definition val_or_default (f : Field) : outcome constructor_arg :=
  skip ← should_skip (field_attrs f); Done (if (skip : bool) then ArgDefault else ArgX).

(** [&self.#field_name] or [&self.#id]. *)
Inductive member : Type :=
| MemberNamed (name : option Ident)
| MemberIndex (id : Z).

(** [type As], the field that [encode_as] refers to, and the arguments of the
    constructor in [decode_from]. *)
Record compact_as_body : Type := mkCompactAs {
  as_type : ast;
  inner_field : member;
  constructor : list constructor_arg;
}.

(** [filter_skip_named(fields).next()] or [filter_skip_unnamed(fields).next()], where
    [.count() == 1]. *)
Definition single_member (fs : Fields) : outcome (option (Field * member)) :=
  match fs with
  | FieldsNamed l =>
      r ← filter_skip_named l;
      Done match r with [f] => Some (f, MemberNamed (field_ident f)) | _ => None end
  | FieldsUnnamed l =>
      r ← filter_skip_unnamed l;
      Done match r with [(id, f)] => Some (f, MemberIndex id) | _ => None end
  | FieldsUnit => Done None
  end.

Definition compact_as_quote (data : Data) : outcome (Result compact_as_body SynError) :=
  match data with
  | DataStruct fields =>
      single ← single_member fields;
      match single with
      | Some (f, id) =>
          args ← flat_mapM (fun f => arg ← val_or_default f; Done [arg]) (fields_iter fields);
          Done (Ok (mkCompactAs (field_ty f) id args))
      | None => Done (Err "Only structs with a single non-skipped field can derive CompactAs"%string)
      end
  | _ => Done (Err "Only structs can derive CompactAs"%string)
  end.

Definition compact_as_derive (ts : list token) : outcome (Result (impl_block compact_as_body) SynError) :=
  input ⇠ Done (parse_DeriveInput ts);
  _ ⇠ Done (check_attributes input);
  bounds ⇠ derive_bounds input (fun _ => Done None) "CompactAs" None;
  body ⇠ compact_as_quote (input_data input);
  Done (Ok (wrap_with_dummy_const input bounds.1 bounds.2 body)).

(** The attributes are not checked, and no lint attribute is kept. *)
Definition derive_max_encoded_len (ts : list token) : outcome (Result (impl_block length_expr) SynError) :=
  input ⇠ Done (parse_DeriveInput ts);
  bounds ⇠ derive_bounds input custom_mel_trait_bound "MaxEncodedLen" None;
  data_expr ⇠ data_length_expr bounds.1 (input_data input);
  Done (Ok (mkImpl [] bounds.1 (input_ident input) bounds.2 data_expr)).
End expand.
