(* ===== verification/ExpandTheory.v ===== *)
(** * Properties of the expansion

    The macros never panic on a declaration whose attributes have been checked;
    the implementations that [derive(Encode)] and [derive(Decode)] generate agree
    on how every field and variant is represented. *)

From S2P Require Import Prelude Syntax Attributes AttributesTheory TraitBounds Expand.

(** ** No panics *)

Definition settled {A} (m : outcome A) : Prop := exists a, m = Done a.

Lemma settled_done {A} (a : A) : settled (Done a).
Proof. by exists a. Qed.

Lemma settled_bind {A B} (m : outcome A) (k : A -> outcome B) :
  settled m -> (forall a, settled (k a)) -> settled (m ≫= k).
Proof. intros [a ->] Hk. apply Hk. Qed.

Lemma settled_bind_ok {A B E} (m : outcome (Result A E)) (k : A -> outcome (Result B E)) :
  settled m -> (forall a, m = Done (Ok a) -> settled (k a)) -> settled (bind_ok m k).
Proof. intros [[a|e] ->] Hk; [by apply Hk|apply settled_done]. Qed.

Lemma settled_map_ok {A B} (f : A -> outcome (Result B SynError)) l :
  (forall x, x ∈ l -> settled (f x)) -> settled (map_ok f l).
Proof.
  induction l as [|x l IH]; intros Hf; [apply settled_done|]. simpl.
  apply settled_bind_ok; [apply Hf; by left|]. intros y _.
  apply settled_bind_ok; [apply IH; intros; apply Hf; by right|]. intros; apply settled_done.
Qed.

Lemma settled_filterM {A} (p : A -> outcome bool) l : (forall x, x ∈ l -> settled (p x)) -> settled (filterM p l).
Proof. apply filterM_done. Qed.

Lemma settled_flat_mapM {A B} (f : A -> outcome (list B)) l :
  (forall x, x ∈ l -> settled (f x)) -> settled (flat_mapM f l).
Proof. apply flat_mapM_done. Qed.

Lemma settled_anyM {A} (p : A -> outcome bool) l : (forall x, x ∈ l -> settled (p x)) -> settled (anyM p l).
Proof.
  induction l as [|x l IH]; intros Hp; [apply settled_done|]. simpl.
  apply settled_bind; [apply Hp; by left|]. intros []; [apply settled_done|].
  apply IH. intros; apply Hp; by right.
Qed.

Lemma settled_is_some {A} (o : outcome (option A)) : settled o -> settled (is_some o).
Proof. intros Ho. apply settled_bind; [done|]. intros; apply settled_done. Qed.

Create HintDb settle discriminated.
#[export] Hint Resolve settled_done settled_bind settled_map_ok settled_filterM settled_flat_mapM
  settled_anyM settled_is_some : settle.

Section totality.
Context `{Syn}.

Lemma settled_should_skip attrs : settled (should_skip attrs).
Proof. apply should_skip_done. Qed.

Lemma settled_not_skipped attrs : settled (not_skipped attrs).
Proof. apply not_skipped_done. Qed.

Lemma settled_is_compact f : settled (is_compact f).
Proof. apply is_compact_done. Qed.

Lemma settled_get_compact_type f crate : settled (get_compact_type f crate).
Proof. apply get_compact_type_done. Qed.

Lemma settled_encoded_as f : check_field f = Ok tt -> settled (get_encoded_as_type f).
Proof. apply get_encoded_as_type_done. Qed.

Lemma settled_variant_index v i : check_variant v = Ok tt -> settled (variant_index v i).
Proof. apply variant_index_done. Qed.

#[local] Hint Resolve settled_should_skip settled_not_skipped settled_is_compact settled_get_compact_type
  settled_encoded_as settled_variant_index : settle.

(** What [check_attributes] has established. *)
Definition data_checked (data : Data) : Prop :=
  (forall f, f ∈ data_fields data -> check_field f = Ok tt) /\
  (forall v, v ∈ data_variants data -> check_variant v = Ok tt).

Lemma checked_variant_fields data v f :
  data_checked data -> v ∈ data_variants data -> f ∈ fields_iter (variant_fields v) -> check_field f = Ok tt.
Proof.
  intros [Hf _] Hv Hin. apply Hf. destruct data as [| vs |]; simpl in *; [by apply elem_of_nil in Hv| |by apply elem_of_nil in Hv].
  apply elem_of_concat_map. eauto.
Qed.

Lemma settled_needs_codec_bound f : check_field f = Ok tt -> settled (needs_codec_bound f).
Proof.
  intros Hf. unfold needs_codec_bound. apply settled_bind; [auto with settle|]. intros []; [apply settled_done|].
  apply settled_bind; [auto with settle|]. intros []; auto with settle.
Qed.

Lemma settled_generic_types data params p :
  (forall f, f ∈ data_fields data -> settled (p f)) -> settled (generic_types data params p).
Proof. intros Hp. apply settled_bind; [by apply collect_types_done|]. auto with settle. Qed.

Lemma settled_add input_ident generics data custom codec_bound skip_bound dumb crate_path :
  data_checked data ->
  settled (add input_ident generics data custom codec_bound skip_bound dumb crate_path).
Proof.
  intros [Hf _]. unfold add.
  assert (forall params, settled (get_types_to_add_trait_bound input_ident data params dumb)) as Htypes.
  { intros params. unfold get_types_to_add_trait_bound. destruct dumb; [apply settled_done|].
    apply settled_bind; [|auto with settle]. apply collect_types_done. intros f Hin.
    by apply settled_needs_codec_bound, Hf. }
  destruct custom as [[bounds|names]|]; [apply settled_done|..];
    (destruct (unskipped_params generics _) as [|p params]; [apply settled_done|];
     apply settled_bind_ok; [done|]; intros codec_types _;
     apply settled_bind_ok; [apply settled_generic_types; auto with settle|]; intros compact_types _;
     apply settled_bind_ok; [|auto with settle];
     destruct skip_bound; [apply settled_generic_types; auto with settle|apply settled_done]).
Qed.

Lemma settled_derive_bounds input custom trait skip_bound :
  check_attributes input = Ok tt -> (forall attrs, settled (custom attrs)) ->
  settled (derive_bounds input custom trait skip_bound).
Proof.
  intros Hc Hcustom. apply settled_bind_ok; [auto with settle|]. intros crate_path _.
  apply settled_bind; [done|]. intros custom_bound.
  apply settled_bind; [apply has_dumb_trait_bound_done|]. intros dumb.
  apply settled_bind_ok; [|auto with settle]. apply settled_add. by apply check_attributes_data.
Qed.

Lemma settled_custom_trait_bound name attrs : settled (custom_trait_bound name attrs).
Proof. apply custom_trait_bound_done. Qed.

Lemma settled_field_attribute f : check_field f = Ok tt -> settled (field_attribute f).
Proof. intros Hf. repeat (apply settled_bind; [auto with settle|intros ?]). apply settled_done. Qed.

Lemma settled_encode_single_field crate f : check_field f = Ok tt -> settled (encode_single_field crate f).
Proof. intros Hf. repeat (apply settled_bind; [auto with settle|intros ?]). apply settled_done. Qed.

Lemma settled_create_decode_expr crate f : check_field f = Ok tt -> settled (create_decode_expr crate f).
Proof. intros Hf. repeat (apply settled_bind; [auto with settle|intros ?]). apply settled_done. Qed.

Lemma settled_try_get_variants vs : settled (try_get_variants vs).
Proof. apply settled_bind; auto with settle. Qed.

Lemma try_get_variants_elem vs vs' v :
  try_get_variants vs = Done (Ok vs') -> v ∈ vs' <-> v ∈ vs /\ not_skipped (variant_attrs v) = Done true.
Proof.
  unfold try_get_variants. destruct (filterM _ vs) as [r|] eqn:Hr; [|done]. simpl.
  destruct (256 <? zlen r); [done|]. intros [= <-]. by apply (filterM_elem _ _ _ _ Hr).
Qed.

Lemma elem_of_enumerate {A} (l : list A) i x : (i, x) ∈ enumerate l -> x ∈ l.
Proof. unfold enumerate. intros Hx. by apply elem_of_zip_r in Hx. Qed.

Lemma settled_single_field fs : settled (single_field fs).
Proof.
  destruct fs as [l|l|]; simpl; [..|apply settled_done];
    (apply settled_bind; [apply settled_filterM|auto with settle]); [auto with settle|].
  intros [i f] _. auto with settle.
Qed.

Lemma single_field_elem fs f : single_field fs = Done (Some f) -> f ∈ fields_iter fs.
Proof.
  destruct fs as [l|l|]; simpl; [| |done].
  - destruct (filter_skip_named l) as [[|g [|]]|] eqn:Hl; try done. intros [= ->].
    apply (filterM_elem _ _ _ f Hl). by left.
  - destruct (filter_skip_unnamed l) as [[|[i g] [|]]|] eqn:Hl; try done. intros [= ->].
    eapply elem_of_enumerate, (filterM_elem _ _ _ (i, f) Hl). by left.
Qed.

Lemma settled_encode_quote crate data : data_checked data -> settled (encode_quote crate data).
Proof.
  intros Hd. pose proof Hd as [Hf Hv]. unfold encode_quote.
  assert (settled (impl_encode data)) as Himpl.
  { destruct data as [fs|vs|fs]; simpl; [| |apply settled_done].
    - apply settled_bind_ok; [|auto with settle]. apply settled_map_ok. intros f Hin.
      by apply settled_field_attribute, Hf.
    - apply settled_bind_ok; [apply settled_try_get_variants|]. intros vs' Hvs.
      assert (settled (map_ok expand_variant (enumerate vs'))) as Harms.
      { apply settled_map_ok. intros [i v] Hin%elem_of_enumerate. simpl.
        apply (try_get_variants_elem _ _ _ Hvs) in Hin as [Hin _].
        apply settled_bind; [auto with settle|]. intros index.
        apply settled_bind_ok; [|auto with settle]. apply settled_map_ok. intros f Hinf.
        apply settled_field_attribute. by eapply (checked_variant_fields (DataEnum vs)). }
      destruct vs'; [apply settled_done|]. apply settled_bind_ok; [done|auto with settle]. }
  destruct data as [fs|vs|fs]; simpl; [|done|done].
  destruct (settled_single_field fs) as [[f|] Hs]; rewrite Hs; simpl; [|done].
  apply settled_bind_ok; [|auto with settle].
  apply settled_encode_single_field, Hf. by apply single_field_elem.
Qed.

Lemma settled_decode_quote crate data : data_checked data -> settled (decode_quote crate data).
Proof.
  intros Hd. pose proof Hd as [Hf Hv]. destruct data as [fs|vs|fs]; simpl; [| |apply settled_done].
  - apply settled_bind_ok; [|auto with settle]. apply settled_map_ok. intros f Hin.
    by apply settled_create_decode_expr, Hf.
  - apply settled_bind_ok; [apply settled_try_get_variants|]. intros vs' Hvs.
    apply settled_bind_ok; [|auto with settle]. apply settled_map_ok. intros [i v] Hin%elem_of_enumerate. simpl.
    apply (try_get_variants_elem _ _ _ Hvs) in Hin as [Hin _].
    apply settled_bind; [auto with settle|]. intros index.
    apply settled_bind_ok; [|auto with settle]. apply settled_map_ok. intros f Hinf.
    apply settled_create_decode_expr. by eapply (checked_variant_fields (DataEnum vs)).
Qed.

Lemma settled_decode_into data attrs : data_checked data -> settled (quote_decode_into data attrs).
Proof.
  intros [Hf _]. unfold quote_decode_into. destruct (is_transparent attrs); [|apply settled_done].
  destruct data as [[l|l|]| |]; simpl in *; try apply settled_done;
    (destruct l as [|g l]; [apply settled_done|]; apply settled_bind; [|auto with settle];
     apply settled_anyM; intros f Hin; unfold influences_decoding;
     apply settled_bind; [auto with settle|]; intros []; [apply settled_done|];
     apply settled_bind; [auto with settle|]; intros []; auto with settle).
Qed.

Lemma settled_tracked_field crate f : check_field f = Ok tt -> settled (tracked_field crate f).
Proof.
  intros Hf. apply settled_bind; [auto with settle|]. intros []; [apply settled_done|].
  apply settled_bind; [auto with settle|]. intros [ty|]; [apply settled_done|].
  apply settled_bind; auto with settle.
Qed.

Lemma settled_mem_tracking_checks crate data :
  data_checked data -> settled (quote_decode_with_mem_tracking_checks crate data).
Proof.
  intros Hd. pose proof Hd as [Hf Hv]. destruct data as [fs|vs|fs]; simpl; [| |apply settled_done].
  - apply settled_bind; [|auto with settle]. apply settled_flat_mapM. intros f Hin.
    by apply settled_tracked_field, Hf.
  - apply settled_bind_ok; [apply settled_try_get_variants|]. intros vs' Hvs.
    apply settled_bind; [|auto with settle]. apply settled_flat_mapM.
    intros f (v & Hin & Hinf)%elem_of_concat_map. apply (try_get_variants_elem _ _ _ Hvs) in Hin as [Hin _].
    apply settled_tracked_field. by eapply (checked_variant_fields (DataEnum vs)).
Qed.

Lemma settled_single_member fs : settled (single_member fs).
Proof.
  destruct fs as [l|l|]; simpl; [| |apply settled_done]; (apply settled_bind; [|auto with settle]).
  - apply settled_filterM. intros; apply settled_not_skipped.
  - apply settled_filterM. intros []; intros; apply settled_not_skipped.
Qed.

Lemma settled_compact_as_quote data : settled (compact_as_quote data).
Proof.
  destruct data as [fs|vs|fs]; simpl; [|apply settled_done..].
  apply settled_bind; [apply settled_single_member|]. intros [[f id]|]; [|apply settled_done].
  apply settled_bind; [|auto with settle]. apply settled_flat_mapM. intros g _.
  apply settled_bind; [|auto with settle]. apply settled_bind; auto with settle.
Qed.

(** The common part of the macros. *)
Lemma settled_derive {B} ts custom trait skip_bound (k : DeriveInput -> Path * Generics -> outcome (Result B SynError)) :
  (forall attrs, settled (custom attrs)) ->
  (forall input bounds, data_checked (input_data input) -> settled (k input bounds)) ->
  settled (input ⇠ Done (parse_DeriveInput ts);
           _ ⇠ Done (check_attributes input);
           bounds ⇠ derive_bounds input custom trait skip_bound;
           k input bounds).
Proof.
  intros Hcustom Hk. apply settled_bind_ok; [auto with settle|]. intros input _.
  apply settled_bind_ok; [auto with settle|]. intros [] [= Hc].
  apply settled_bind_ok; [by apply settled_derive_bounds|]. intros bounds _.
  by apply Hk, check_attributes_data.
Qed.
End totality.

(** ** Encoding and decoding agree *)

Section agreement.
Context `{Syn}.

Lemma find_word word {R} (r : R) attrs :
  find_meta_item parse_Meta (word_pred word r) attrs =
  r' ← find_meta_item parse_Meta (word_pred word tt) attrs;
  Done match r' with Some _ => Some r | None => None end.
Proof.
  induction attrs as [|attr attrs IH]; [done|]. simpl.
  assert (match_meta_item parse_Meta (word_pred word r) attr =
    r' ← match_meta_item parse_Meta (word_pred word tt) attr;
    Done match r' with Some _ => Some r | None => None end) as ->.
  { unfold match_meta_item, word_pred. repeat case_match; done. }
  destruct (match_meta_item parse_Meta (word_pred word tt) attr) as [[[]|]|]; [done| |done]. exact IH.
Qed.

(** Whether a field is compact does not depend on the path of the crate. *)
Lemma get_compact_type_is f crate :
  get_compact_type f crate =
  compact ← is_compact f;
  Done (if (compact : bool) then Some (has_compact_type crate (field_ty f)) else None).
Proof.
  unfold is_compact, get_compact_type, is_some. rewrite (find_word _ (has_compact_type crate _)).
  rewrite (find_word _ (has_compact_type (mkPath true _) _)).
  destruct (find_meta_item _ (word_pred "compact" tt) _) as [[|]|]; done.
Qed.

(** [create_decode_expr] and [iterate_over_fields] take the same decision. *)
Lemma create_decode_expr_is crate f : create_decode_expr crate f = field_attribute f.
Proof.
  unfold create_decode_expr, field_attribute. rewrite get_compact_type_is.
  destruct (get_encoded_as_type f) as [e|]; [|done]. simpl.
  destruct (is_compact f) as [[]|]; [..|done]; simpl; by destruct (should_skip (field_attrs f)).
Qed.

Lemma field_attribute_skip f : should_skip (field_attrs f) = Done true ->
  forall a, field_attribute f = Done (Ok a) -> a = AttrSkip.
Proof.
  intros Hs a. unfold field_attribute. rewrite Hs.
  destruct (get_encoded_as_type f) as [[|]|]; [| |done]; (destruct (is_compact f) as [[]|]; [..|done]); cbn; naive_solver.
Qed.

(** Without [skip], the decision for a single field is the same, too. *)
Lemma encode_single_field_is crate f a :
  should_skip (field_attrs f) = Done false ->
  encode_single_field crate f = Done (Ok a) <-> field_attribute f = Done (Ok a).
Proof.
  intros Hs. unfold encode_single_field, field_attribute. rewrite get_compact_type_is, Hs.
  destruct (get_encoded_as_type f) as [[|]|]; [| |done]; (destruct (is_compact f) as [[]|]; [..|done]); cbn; naive_solver.
Qed.

Lemma field_attribute_not_skip f a :
  should_skip (field_attrs f) = Done false -> field_attribute f = Done (Ok a) -> a <> AttrSkip.
Proof.
  intros Hs. unfold field_attribute. rewrite Hs.
  destruct (get_encoded_as_type f) as [[|]|]; [| |done]; (destruct (is_compact f) as [[]|]; [..|done]); cbn; naive_solver.
Qed.

Lemma map_ok_ext {A B} (f g : A -> outcome (Result B SynError)) l :
  (forall x, f x = g x) -> map_ok f l = map_ok g l.
Proof. intros Hfg. induction l as [|x l IH]; simpl; [done|]. by rewrite Hfg, IH. Qed.

Lemma map_ok_forall {A B} (f : A -> outcome (Result B SynError)) l r :
  map_ok f l = Done (Ok r) -> Forall2 (fun x y => f x = Done (Ok y)) l r.
Proof.
  revert r. induction l as [|x l IH]; simpl; intros r; [intros [= <-]; constructor|].
  destruct (f x) as [[y|]|] eqn:Hx; simpl; [|done|done].
  destruct (map_ok f l) as [[ys|]|]; simpl; [|done|done]. intros [= <-]. constructor; auto.
Qed.

(** The one field that is not skipped is the one whose attribute is not
    [AttrSkip]. *)
Definition is_attr_skip (a : FieldAttribute) : bool := match a with AttrSkip => true | _ => false end.

Lemma filterM_attrs l attrs fs :
  map_ok field_attribute l = Done (Ok attrs) -> filterM (fun f => not_skipped (field_attrs f)) l = Done fs ->
  Forall2 (fun f a => field_attribute f = Done (Ok a) /\ should_skip (field_attrs f) = Done false)
    fs (List.filter (fun a => negb (is_attr_skip a)) attrs).
Proof.
  intros Hm%map_ok_forall. revert fs. induction Hm as [|f a l attrs Hf _ IH]; intros fs; simpl.
  { intros [= <-]. constructor. }
  destruct (should_skip_done (field_attrs f)) as [b Hs].
  assert (not_skipped (field_attrs f) = Done (negb b)) as -> by (unfold not_skipped; by rewrite Hs). simpl.
  destruct (filterM _ l) as [fs'|]; [|done]. simpl. intros [= <-]. specialize (IH fs' eq_refl). destruct b; simpl.
  - by rewrite (field_attribute_skip f Hs a Hf).
  - pose proof (field_attribute_not_skip f a Hs Hf). destruct a; try done; by constructor.
Qed.

Lemma filter_skip_unnamed_named l :
  exists r, filter_skip_unnamed l = Done r /\ filter_skip_named l = Done (map snd r).
Proof.
  unfold filter_skip_unnamed, filter_skip_named, enumerate.
  generalize 0%nat as n. induction l as [|f l IH]; intros n; [by exists []|].
  destruct (not_skipped_done (field_attrs f)) as [b Hb]. destruct (IH (S n)) as (r & Hr & Hl).
  exists (if b then (Z.of_nat n, f) :: r else r).
  change (zip (Z.of_nat <$> seq n (length (f :: l))) (f :: l))
    with ((Z.of_nat n, f) :: zip (Z.of_nat <$> seq (S n) (length l)) l).
  cbn [filterM]. rewrite Hb, Hl, Hr. by destruct b.
Qed.

Lemma single_field_attr fs f attrs :
  single_field fs = Done (Some f) -> map_ok field_attribute (fields_iter fs) = Done (Ok attrs) ->
  exists a, field_attribute f = Done (Ok a) /\ should_skip (field_attrs f) = Done false /\
    List.filter (fun a => negb (is_attr_skip a)) attrs = [a].
Proof.
  intros Hs Hm.
  assert (filterM (fun f => not_skipped (field_attrs f)) (fields_iter fs) = Done [f]) as Hf.
  { destruct fs as [l|l|]; simpl in Hs; [| |done].
    - unfold filter_skip_named in Hs. destruct (filterM _ l) as [[|g [|]]|] eqn:Hl; simpl in Hs; try done.
      by injection Hs as ->.
    - destruct (filter_skip_unnamed_named l) as (r & He & Hl). rewrite He in Hs.
      unfold filter_skip_named in Hl. simpl. rewrite Hl.
      destruct r as [|[i g] [|]]; simpl in *; [done| |done]. by injection Hs as ->. }
  pose proof (filterM_attrs _ _ _ Hm Hf) as Hall. inversion Hall as [|f' a l' attrs' [Ha Hns] Hnil Hfst Heq].
  inversion Hnil. subst. eauto.
Qed.

(** What the two implementations have to have in common. *)
Definition bodies_agree (e : encode_body) (d : decode_body) : Prop :=
  match e, d with
  | EncodeStruct attrs, DecodeStruct attrs' => attrs = attrs'
  | EncodeSingle a, DecodeStruct attrs => List.filter (fun a => negb (is_attr_skip a)) attrs = [a]
  | EncodeEnum arms, DecodeEnum arms' =>
      map (fun a => (arm_name a, arm_index a, arm_fields a)) arms = arms'
  | EncodeEmpty, DecodeEnum [] => True
  | _, _ => False
  end.

Lemma arms_agree crate ivs arms :
  map_ok (decode_variant crate) ivs = Done (Ok arms) ->
  exists arms', map_ok expand_variant ivs = Done (Ok arms') /\
    map (fun a => (arm_name a, arm_index a, arm_fields a)) arms' = arms.
Proof.
  revert arms. induction ivs as [|[i v] ivs IH]; simpl; intros arms; [intros [= <-]; by exists []|].
  destruct (variant_index v i) as [index|]; [|done]. simpl. unfold create_instance.
  rewrite (map_ok_ext _ field_attribute) by apply create_decode_expr_is.
  destruct (map_ok field_attribute _) as [[attrs|]|]; simpl; [|done|done].
  destruct (map_ok (decode_variant crate) ivs) as [[arms'|]|]; simpl; [|done|done]. intros [= <-].
  destruct (IH arms' eq_refl) as (arms'' & -> & <-). simpl. by eexists.
Qed.

Lemma quotes_agree crate data d :
  decode_quote crate data = Done (Ok d) ->
  exists e, encode_quote crate data = Done (Ok e) /\ bodies_agree e d.
Proof.
  destruct data as [fs|vs|fs]; simpl; [| |done].
  - unfold create_instance. rewrite (map_ok_ext _ field_attribute) by apply create_decode_expr_is.
    destruct (map_ok field_attribute _) as [[attrs|]|] eqn:Hm; simpl; [|done|done]. intros [= <-].
    unfold encode_quote. simpl. destruct (settled_single_field fs) as [[f|] Hs]; rewrite Hs; simpl.
    + destruct (single_field_attr fs f attrs Hs Hm) as (a & Ha & Hns & Hfilter).
      apply (encode_single_field_is crate f a Hns) in Ha. rewrite Ha. simpl. by eexists.
    + rewrite Hm. simpl. by eexists.
  - unfold encode_quote. simpl. destruct (try_get_variants vs) as [[vs'|]|]; simpl; [|done|done].
    destruct (map_ok (decode_variant crate) _) as [[arms|]|] eqn:Ha; simpl; [|done|done]. intros [= <-].
    destruct (arms_agree _ _ _ Ha) as (arms' & He & <-). destruct vs' as [|v vs'].
    + simpl in He. injection He as <-. by eexists.
    + rewrite He. simpl. by eexists.
Qed.
End agreement.
