(* ===== verification/Macros.v ===== *)
(** * What the derive macros guarantee ([derive/src])

    The theorems about the front end of the macros, with a small instance of the
    parsers of [syn] to try them on. *)

From S2P Require Import Prelude Syntax Attributes AttributesTheory TraitBounds Expand ExpandTheory.

Section macros.
Context `{Syn}.

(** ** Panics *)

(** On any input, and whatever the parsers of [syn] make of it, [derive(Encode)],
    [derive(Decode)], [derive(DecodeWithMemTracking)] and [derive(CompactAs)]
    return an implementation or a compile-time error: the attribute finders, which
    panic on misapplied attributes, are only reached after [check_attributes] has
    accepted the declaration. *)
Lemma derives_settled ts :
  settled (encode_derive ts) /\ settled (decode_derive ts) /\
  settled (decode_with_mem_tracking_derive ts) /\ settled (compact_as_derive ts).
Proof.
  split_and!; (apply settled_derive; [intros; try apply settled_done; apply settled_custom_trait_bound|]);
    intros input bounds Hd.
  - apply settled_bind_ok; [by apply settled_encode_quote|auto with settle].
  - apply settled_bind_ok; [by apply settled_decode_quote|]. intros d _.
    apply settled_bind; [by apply settled_decode_into|auto with settle].
  - apply settled_bind_ok; [by apply settled_mem_tracking_checks|auto with settle].
  - apply settled_bind_ok; [apply settled_compact_as_quote|auto with settle].
Qed.

(** ** Encode and Decode agree *)

Lemma add_ok input_ident generics data custom codec_bound skip_bound dumb crate_path :
  data_checked data -> (forall fs, data <> DataUnion fs) ->
  exists g, add input_ident generics data custom codec_bound skip_bound dumb crate_path = Done (Ok g).
Proof.
  intros Hd Hu. destruct (settled_add input_ident generics data custom codec_bound skip_bound dumb crate_path Hd)
    as [[g|e] Hadd]; [by eexists|]. exfalso.
  assert (forall p e, collect_types data p <> Done (Err e)) as Hcollect.
  { intros p e' Hc. destruct data as [fs|vs|fs]; simpl in Hc; [| |by apply (Hu fs)].
    - by destruct (filtered_types p fs).
    - destruct (filterM _ vs); [|done]. simpl in Hc. by destruct (flat_mapM _ _). }
  assert (forall params p e, generic_types data params p <> Done (Err e)) as Hgeneric.
  { intros params p e' Hg. unfold generic_types in Hg. destruct (collect_types data p) as [[|]|] eqn:Hc; try done.
    by apply Hcollect in Hc. }
  assert (forall params e, get_types_to_add_trait_bound input_ident data params dumb <> Done (Err e)) as Htypes.
  { intros params e' Hg. unfold get_types_to_add_trait_bound in Hg. destruct dumb; [done|].
    destruct (collect_types data _) as [[|]|] eqn:Hc; try done. by apply Hcollect in Hc. }
  unfold add in Hadd. destruct custom as [[bounds|names]|]; [done|..];
    (destruct (unskipped_params generics _) as [|tp tps]; [done|];
     destruct (get_types_to_add_trait_bound _ _ _ _) as [[|]|] eqn:H1; simplify_eq/=; try (by apply Htypes in H1);
     destruct (generic_types data _ is_compact) as [[|]|] eqn:H2; simplify_eq/=; try (by apply Hgeneric in H2);
     (destruct skip_bound; [|done]);
     destruct (generic_types data _ (fun f => should_skip _)) as [[|]|] eqn:H3; simplify_eq/=; try (by apply Hgeneric in H3)).
Qed.

(** The steps of an expansion that succeeds. *)
Lemma bind_ok_inv {A B E} (m : outcome (Result A E)) (k : A -> outcome (Result B E)) b :
  bind_ok m k = Done (Ok b) <-> exists a, m = Done (Ok a) /\ k a = Done (Ok b).
Proof. destruct m as [[a|e]|msg]; simpl; naive_solver. Qed.

(** What the expansions of [derive(Decode)] and [derive(Encode)] consist of. *)
Lemma derives_agree ts d :
  decode_derive ts = Done (Ok d) ->
  exists input e, parse_DeriveInput ts = Ok input /\ encode_derive ts = Done (Ok e) /\
    decode_quote (impl_crate_path d) (input_data input) = Done (Ok (impl_body d).1) /\
    encode_quote (impl_crate_path d) (input_data input) = Done (Ok (impl_body e)) /\
    impl_name e = impl_name d /\ impl_crate_path e = impl_crate_path d.
Proof.
  unfold decode_derive, encode_derive. intros (input & Hin & ([] & Hc & Hd)%bind_ok_inv)%bind_ok_inv.
  injection Hin as Hin. injection Hc as Hc. rewrite Hin. simpl. rewrite Hc. simpl.
  apply bind_ok_inv in Hd as ([crate g] & Hb & (body & Hq & Hd)%bind_ok_inv).
  unfold derive_bounds in Hb |- *. apply bind_ok_inv in Hb as (crate' & Hcrate & Hb).
  injection Hcrate as Hcrate. rewrite Hcrate. simpl.
  destruct (settled_custom_trait_bound "decode_bound" (input_attrs input)) as [custom Hcu].
  destruct (settled_custom_trait_bound "encode_bound" (input_attrs input)) as [custom' Hcu'].
  destruct (has_dumb_trait_bound_done (input_attrs input)) as [dumb Hdu].
  unfold custom_decode_trait_bound in Hb. unfold custom_encode_trait_bound. rewrite Hcu, Hdu in Hb. rewrite Hcu', Hdu.
  simpl in Hb |- *. apply bind_ok_inv in Hb as (g' & Hadd & [= -> ->]).
  destruct (add_ok (input_ident input) (input_generics input) (input_data input) custom'
    (path_join crate "Encode") None dumb crate) as [g2 Hadd2].
  { by apply check_attributes_data. }
  { intros fs Hu. by rewrite Hu in Hq. }
  rewrite Hadd2. simpl. destruct (quotes_agree crate _ _ Hq) as (e & He & _). simpl in He. rewrite He. simpl.
  destruct (quote_decode_into _ _); simpl in Hd; [|done]. injection Hd as <-. simpl. eauto 10.
Qed.

(** C14: whatever [derive(Decode)] accepts, [derive(Encode)] accepts as well, and the
    two implementations agree: every field is handled with the same attribute,
    every variant with the same index and fields, and the single-field
    optimisation picks the only field that is not skipped. *)
Theorem encode_decode_agree ts d :
  decode_derive ts = Done (Ok d) ->
  exists e, encode_derive ts = Done (Ok e) /\ bodies_agree (impl_body e) (impl_body d).1 /\
    impl_name e = impl_name d /\ impl_crate_path e = impl_crate_path d.
Proof.
  intros (input & e & _ & He & Hd & Hq & Hn & Hc)%derives_agree. exists e. split_and!; [done| |done|done].
  destruct (quotes_agree _ _ _ Hd) as (e' & He' & Hagree). congruence.
Qed.

(** ** Trait bounds *)

Lemma no_params_no_bound data f : ~ bound_field data [] f.
Proof. unfold bound_field. rewrite contain_no_idents. naive_solver. Qed.

(** The types that get bounds, for the parameters [params] of a type: those with the
    codec's bound, those of compact fields, and those of skipped fields. *)
Record bound_types (input_ident : Ident) (data : Data) (params : list Ident) (dumb with_skip : bool)
    (codec_types compact_types skip_types : list ast) : Prop := {
  (** [#[codec(dumb_trait_bound)]]: the parameters. *)
  bounds_dumb : dumb = true -> codec_types = map ident_type params;
  bounds_sound ty : dumb = false -> ty ∈ codec_types ->
    free_of input_ident ty /\ exists i, i ∈ idents_of ty /\ i ∈ params;
  bounds_complete f p : dumb = false -> bound_field data params f ->
    p ∈ paths_of (field_ty f) -> free_of input_ident p -> (exists i, i ∈ idents_of p /\ i ∈ params) ->
    exists ty, ty ∈ codec_types /\ p ∈ paths_of ty;
  bounds_compact ty : ty ∈ compact_types <->
    (exists i, i ∈ idents_of ty /\ i ∈ params) /\ exists f, live_field data f /\ is_compact f = Done true /\ field_ty f = ty;
  bounds_skip ty : ty ∈ skip_types <->
    with_skip = true /\ (exists i, i ∈ idents_of ty /\ i ∈ params) /\
    exists f, live_field data f /\ should_skip (field_attrs f) = Done true /\ field_ty f = ty;
}.

Lemma bound_types_nil input_ident data dumb with_skip : bound_types input_ident data [] dumb with_skip [] [] [].
Proof.
  split.
  - done.
  - by intros ty _ ?%elem_of_nil.
  - by intros f p _ ?%no_params_no_bound.
  - intros ty. rewrite elem_of_nil. split; [done|]. by intros [(i & _ & ?%elem_of_nil) _].
  - intros ty. rewrite elem_of_nil. split; [done|]. by intros (_ & (i & _ & ?%elem_of_nil) & _).
Qed.

Lemma bound_types_intro input_ident data params dumb (skip_bound : option Path) codec_types compact_types skip_types :
  get_types_to_add_trait_bound input_ident data params dumb = Done (Ok codec_types) ->
  generic_types data params is_compact = Done (Ok compact_types) ->
  match skip_bound with
  | Some _ => generic_types data params (fun f => should_skip (field_attrs f)) = Done (Ok skip_types)
  | None => skip_types = []
  end ->
  bound_types input_ident data params dumb (bool_decide (is_Some skip_bound)) codec_types compact_types skip_types.
Proof.
  intros Hty Hco Hsk. split.
  - intros ->. simpl in Hty. by simplify_eq.
  - intros ty -> (Hf & f & (_ & _ & Hm) & Hcase)%(get_types_elem _ _ _ _ _ Hty). split; [done|].
    apply type_contain_idents_spec. destruct Hcase as [-> | [_ ?]]; done.
  - intros f p -> Hb Hp Hf Hm.
    destruct (find_type_paths_complete input_ident (field_ty f) p Hp Hf) as (p' & Hp' & Hin).
    exists p'. split; [|done]. apply (get_types_elem _ _ _ _ _ Hty). destruct (find_type_paths_sound _ _ _ Hp').
    split; [done|]. exists f. split; [done|]. right. split; [done|]. apply type_contain_idents_spec.
    destruct Hm as (i & Hi & Hpar). exists i. split; [|done]. by eapply idents_of_path.
  - intros ty. by rewrite (generic_types_elem _ _ _ _ _ Hco), type_contain_idents_spec.
  - intros ty. destruct skip_bound as [b|]; simpl.
    + rewrite (generic_types_elem _ _ _ _ _ Hsk), type_contain_idents_spec. naive_solver.
    + rewrite Hsk, elem_of_nil. naive_solver.
Qed.

Lemma add_bound_types input_ident generics data custom codec_bound skip_bound dumb crate_path g :
  (forall bounds, custom <> Some (SpecifiedBounds bounds)) ->
  add input_ident generics data custom codec_bound skip_bound dumb crate_path = Done (Ok g) ->
  exists codec_types compact_types skip_types,
    predicates g = predicates generics ++
      where_predicates codec_types compact_types skip_types codec_bound skip_bound crate_path /\
    bound_types input_ident data (unskipped_params generics custom) dumb (bool_decide (is_Some skip_bound))
      codec_types compact_types skip_types.
Proof.
  intros Hc Hadd. destruct (decide (unskipped_params generics custom = [])) as [Hnil|Hne].
  - exists [], [], []. unfold add in Hadd. assert (g = generics) as ->.
    { destruct custom as [[bounds|names]|]; [by destruct (Hc bounds)|..]; rewrite Hnil in Hadd; by simplify_eq. }
    rewrite Hnil, app_nil_r. split; [done|apply bound_types_nil].
  - destruct (add_inv _ _ _ _ _ _ _ _ _ Hc Hne Hadd) as (codec_types & compact_types & skip_types & Hty & Hco & Hsk & ->).
    exists codec_types, compact_types, skip_types. split; [done|by apply bound_types_intro].
Qed.

(** C33: the bounds that [trait_bounds::add] adds to the [where] clause, whatever its
    arguments.  Bounds that are given with [#[codec(.._bound(T: ..))]] are added as they
    are, and nothing else.  Otherwise, of the type parameters that are not excluded:
    with [#[codec(dumb_trait_bound)]] they get the codec's bound themselves; without, a
    type that gets it mentions a parameter and does not contain the type that is
    derived for, and every type path in a field that needs the bound, mentions a
    parameter and does not contain that type is part of one that gets it.  The types
    of compact fields (and, with a bound for skipped fields, of those) that mention a
    parameter get their own bounds, also if they contain the type itself. *)
Theorem trait_bounds_spec input_ident generics data custom codec_bound skip_bound dumb crate_path g :
  add input_ident generics data custom codec_bound skip_bound dumb crate_path = Done (Ok g) ->
  match custom with
  | Some (SpecifiedBounds bounds) => predicates g = predicates generics ++ bounds
  | _ =>
      exists codec_types compact_types skip_types,
        predicates g = predicates generics ++
          where_predicates codec_types compact_types skip_types codec_bound skip_bound crate_path /\
        bound_types input_ident data (unskipped_params generics custom) dumb (bool_decide (is_Some skip_bound))
          codec_types compact_types skip_types
  end.
Proof.
  intros Hadd. destruct custom as [[bounds|names]|]; [by simplify_eq/=|..];
    (eapply add_bound_types; [|exact Hadd]; done).
Qed.

(** ** Attributes that are checked, and ignored *)

(** An attribute of a field that passes [check_attributes] either is the item the
    finders look at, or its arguments end with a comma: then the check accepts
    it, and every finder ignores it. *)
Lemma checked_field_attribute attr :
  is_ident (attr_path attr) "codec" = true -> check_field_attribute attr = Ok tt ->
  exists elt, check_field_meta elt = Ok tt /\
    ((forall R (pred : Meta -> outcome (option R)), match_meta_item parse_Meta pred attr = pred elt) \/
     ((exists path ts, attr = MetaList path ts /\ parse_Meta ts = Ok (elt, [TPunct ","])) /\
      forall R (pred : Meta -> outcome (option R)), match_meta_item parse_Meta pred attr = Done None)).
Proof.
  unfold check_field_attribute. intros Hcodec. rewrite Hcodec. intros (elt & seen & Hck)%check_nested_ok.
  exists elt. destruct Hck as [Hp Hm|path ts -> Hp Hm]; (split; [done|]); [left|right; split; [by eauto|]];
    intros R pred; unfold match_meta_item; rewrite Hcodec; [by rewrite Hp|]. simpl. by rewrite Hp.
Qed.
End macros.

(** ** An instance of the parsers

    Enough of [syn] for the examples: attributes are words, [name = literal] and
    [name(...)], paths have one segment, predicates are [T: Bound].  The
    declaration is given. *)

Definition word (i : Ident) : Path := mkPath false [(i, [])].

Definition simple_meta : parser Meta := fun ts =>
  match ts with
  | TIdent i :: TPunct c :: TLit l :: rest =>
      if String.eqb c "=" then Ok (MetaNameValue (word i) (ELit l), rest)
      else Ok (MetaPath (word i), TPunct c :: TLit l :: rest)
  | TIdent i :: TParenthesized content :: rest => Ok (MetaList (word i) content, rest)
  | TIdent i :: rest => Ok (MetaPath (word i), rest)
  | _ => unexpected
  end.

Definition simple_ident : parser Ident := fun ts =>
  match ts with
  | TIdent i :: rest => Ok (i, rest)
  | _ => unexpected
  end.

Definition simple_predicate : parser WherePredicate := fun ts =>
  match ts with
  | TIdent t :: TPunct _ :: TIdent b :: rest => Ok (PredicateType (ident_type t) [word b], rest)
  | _ => unexpected
  end.

Definition simple_syn (input : DeriveInput) : Syn := {|
  parse_Meta := simple_meta;
  parse_Path := fun ts => result_map (fun '(i, rest) => (word i, rest)) (simple_ident ts);
  parse_WherePredicate := simple_predicate;
  parse_Ident := simple_ident;
  TokenStream_from_str s := if String.eqb s "(" then Err "cannot parse string into token stream"%string else Ok [TIdent s];
  parse_DeriveInput _ := Ok input;
  crate_name _ := Ok (FoundName "parity_scale_codec");
|}.

Lemma simple_syn_laws input : @SynLaws (simple_syn input).
Proof.
  split; intros ts a rest; simpl.
  - unfold simple_meta. intros Hp. repeat case_match; simplify_eq;
      first [eexists [_; _; _]; reflexivity | eexists [_; _]; reflexivity | eexists [_]; reflexivity].
  - unfold simple_predicate. intros Hp. repeat case_match; simplify_eq. eexists [_; _; _]; reflexivity.
  - unfold simple_ident. intros Hp. repeat case_match; simplify_eq. eexists [_]; reflexivity.
Qed.

Definition codec_attr (ts : list token) : Attribute := MetaList (word "codec") ts.

Definition generic (i : Ident) (args : list ast) : ast := ATypePath [] [(i, args)].

(** [struct S<T> { #[codec(compact)] a: u32, #[codec(skip)] b: T, c: Vec<T> }]. *)
Definition field_a : Field := mkSynField [codec_attr [TIdent "compact"]] (Some "a"%string) (ident_type "u32").
Definition field_b : Field := mkSynField [codec_attr [TIdent "skip"]] (Some "b"%string) (ident_type "T").
Definition field_c : Field := mkSynField [] (Some "c"%string) (generic "Vec" [ident_type "T"]).
Definition struct_S : DeriveInput :=
  mkDeriveInput [] "S" (mkGenerics ["T"%string] []) (DataStruct (FieldsNamed [field_a; field_b; field_c])).

Lemma encode_decode_agree_witness :
  exists e, @encode_derive (simple_syn struct_S) [] = Done (Ok e) /\
    impl_body e = EncodeStruct [AttrCompact field_a; AttrSkip; AttrNone field_c].
Proof.
  destruct (decode_derive (H := simple_syn struct_S) []) as [[d|]|] eqn:Hd; [|vm_compute in Hd; discriminate..].
  destruct (@encode_decode_agree (simple_syn struct_S) [] d Hd) as (e & He & Hagree & _ & _).
  exists e. split; [exact He|]. vm_compute in Hd. injection Hd as <-. vm_compute in He. injection He as <-. reflexivity.
Defined.

Lemma trait_bounds_spec_witness :
  exists g codec_types compact_types skip_types,
    @add (simple_syn struct_S) "S" (mkGenerics ["T"%string] []) (input_data struct_S) None
      (word "Decode") (Some (word "Default")) false (word "codec") = Done (Ok g) /\
    predicates g =
      where_predicates codec_types compact_types skip_types (word "Decode") (Some (word "Default")) (word "codec") /\
    (exists ty, ty ∈ codec_types /\ field_ty field_c ∈ paths_of ty) /\
    (ident_type "u32" ∉ compact_types) /\ (ident_type "T" ∈ skip_types).
Proof.
  destruct (@add (simple_syn struct_S) "S" (mkGenerics ["T"%string] []) (input_data struct_S) None
    (word "Decode") (Some (word "Default")) false (word "codec")) as [[g|]|] eqn:Hadd; [|vm_compute in Hadd; discriminate..].
  destruct (@trait_bounds_spec (simple_syn struct_S) "S" (mkGenerics ["T"%string] []) (input_data struct_S) None
    (word "Decode") (Some (word "Default")) false (word "codec") g Hadd)
    as (codec_types & compact_types & skip_types & Hg & [_ _ Hpaths Hcompact Hskip]).
  exists g, codec_types, compact_types, skip_types. split_and!; [done|exact Hg|..].
  - apply (Hpaths field_c); [done|..].
    + split_and!; [simpl; set_solver|reflexivity|reflexivity].
    + left.
    + intros p. cbn. rewrite !elem_of_cons. by intros [-> | [-> | ?%elem_of_nil]].
    + exists "T"%string. split; [right; left|left].
  - rewrite Hcompact. intros [(i & Hi & Hp) _]. cbn in Hi, Hp. set_solver.
  - apply Hskip. split_and!; [done|exists "T"%string; split; left|].
    exists field_b. split_and!; [simpl; set_solver|reflexivity|reflexivity].
Defined.

(** The documented example: [T], [N] and [A] for [Vec<(Recursive<T, N>, A)>]. *)
Example find_type_paths_example :
  find_type_paths_not_start_or_contain_ident "Recursive"
    (generic "Vec" [ANode [generic "Recursive" [ident_type "T"; ident_type "N"]; ident_type "A"]])
  = [ident_type "T"; ident_type "N"; ident_type "A"].
Proof. reflexivity. Qed.

(** ** Behaviours that may surprise *)

(** [struct S(#[codec(skip,)] u32)]. *)
Definition comma_field : Field := mkSynField [codec_attr [TIdent "skip"; TPunct ","]] None (ident_type "u32").
Definition comma_struct : DeriveInput :=
  mkDeriveInput [] "S" (mkGenerics [] []) (DataStruct (FieldsUnnamed [comma_field])).

(** C34: an attribute of a field that passes [check_attributes] is the item that the
    finders look at, unless its arguments end with a comma: then the check accepts
    it and every finder ignores it, so that the field of
    [struct S(#[codec(skip,)] u32)] is encoded, not skipped. *)
Theorem checked_attribute_seen :
  (forall `{Syn} attr, is_ident (attr_path attr) "codec" = true -> check_field_attribute attr = Ok tt ->
   exists elt, check_field_meta elt = Ok tt /\
     ((forall R (pred : Meta -> outcome (option R)), match_meta_item parse_Meta pred attr = pred elt) \/
      ((exists path ts, attr = MetaList path ts /\ parse_Meta ts = Ok (elt, [TPunct ","])) /\
       forall R (pred : Meta -> outcome (option R)), match_meta_item parse_Meta pred attr = Done None))) /\
  @check_attributes (simple_syn comma_struct) comma_struct = Ok tt /\
  exists e, @encode_derive (simple_syn comma_struct) [] = Done (Ok e) /\
    impl_body e = EncodeSingle (AttrNone comma_field).
Proof.
  split; [apply @checked_field_attribute|]. split; [reflexivity|]. eexists. split; [vm_compute; reflexivity|reflexivity].
Qed.

Lemma checked_attribute_seen_witness :
  exists elt, @check_field_meta (simple_syn struct_S) elt = Ok tt /\
    ((forall R (pred : Meta -> outcome (option R)),
        @match_meta_item _ _ (@parse_Meta (simple_syn struct_S)) pred (codec_attr [TIdent "skip"]) = pred elt) \/
     ((exists path ts, codec_attr [TIdent "skip"] = MetaList path ts /\
        @parse_Meta (simple_syn struct_S) ts = Ok (elt, [TPunct ","])) /\
      forall R (pred : Meta -> outcome (option R)),
        @match_meta_item _ _ (@parse_Meta (simple_syn struct_S)) pred (codec_attr [TIdent "skip"]) = Done None)).
Proof. by apply (proj1 checked_attribute_seen (simple_syn struct_S)). Defined.

(** [struct S<T>(#[codec(encoded_as = "(")] T)]. *)
Definition bad_struct : DeriveInput :=
  mkDeriveInput [] "S" (mkGenerics ["T"%string] [])
    (DataStruct (FieldsUnnamed
       [mkSynField [codec_attr [TIdent "encoded_as"; TPunct "="; TLit (LitStr "(")]] None (ident_type "T")])).

(** C15: on any input, and whatever the parsers of [syn] make of it, [derive(Encode)],
    [derive(Decode)], [derive(DecodeWithMemTracking)] and [derive(CompactAs)]
    return an implementation or a compile-time error: the attribute finders, which
    panic on malformed attributes, are only reached after [check_attributes] has
    accepted the declaration.  [derive(MaxEncodedLen)] does not check the
    attributes, and panics where the other macros report an error. *)
Theorem derives_never_panic :
  (forall `{Syn} ts,
     settled (encode_derive ts) /\ settled (decode_derive ts) /\
     settled (decode_with_mem_tracking_derive ts) /\ settled (compact_as_derive ts)) /\
  @derive_max_encoded_len (simple_syn bad_struct) []
    = Panic "Internal error, encoded_as attribute must have been checked" /\
  @encode_derive (simple_syn bad_struct) [] = Done (Err "Invalid token stream"%string).
Proof. split; [apply @derives_settled|]. split; vm_compute; reflexivity. Qed.

(** The keywords of two letters, the reserved ones included. *)
Definition two_letter_keywords : list Ident := ["as"; "do"; "fn"; "if"; "in"]%string.

Lemma binding_names_seq l :
  binding_names (FieldsUnnamed l) = map (fun n => stringify (Z.of_nat n mod 256)) (seq 0 (length l)).
Proof.
  simpl. unfold enumerate. generalize 0%nat as n. induction l as [|f l IH]; intros n; [done|].
  cbn. f_equal. apply (IH (S n)).
Qed.

Lemma binding_names_256 : NoDup (map (fun n => stringify (Z.of_nat n mod 256)) (seq 0 256)).
Proof. apply (bool_decide_unpack _). by vm_compute. Qed.

(** The names that the fields of a tuple variant are bound to when it is encoded
    are different for up to 256 fields and repeated beyond that; none of the
    first 138 of them is a keyword, and the 139th is [if]. *)
Theorem binding_names_spec :
  (forall l, NoDup (binding_names (FieldsUnnamed l)) <-> zlen l <= 256) /\
  Forall (fun n => stringify (Z.of_nat n) ∉ two_letter_keywords) (seq 0 138) /\
  stringify 138 = "if"%string.
Proof.
  split_and!; [|apply (bool_decide_unpack _); by vm_compute|done].
  intros l. rewrite binding_names_seq. unfold zlen. split.
  - intros Hnd. destruct (decide (length l <= 256)%nat); [lia|]. exfalso.
    enough (0 = 256)%nat by done. eapply (NoDup_lookup _ _ _ (stringify 0) Hnd);
      rewrite list_lookup_fmap, lookup_seq_lt by lia; done.
  - intros Hl. replace (seq 0 (length l)) with (take (length l) (seq 0 256)).
    + rewrite <- firstn_map. eapply sublist_NoDup; [apply binding_names_256|apply sublist_take].
    + by rewrite take_seq, Nat.min_l by lia.
Qed.
