(* ===== verification/Elaborate.v ===== *)
(** * From declarations to codecs ([derive/src])

    The front end of the macros decides, for each field and variant of a
    declaration, how it is represented; [Derive] says what the generated code
    then computes.  Here the two are put together: a declaration is elaborated to
    the [fields] or [variants] its expansion stands for, and the codecs of an
    accepted declaration are inverse to each other.  The codecs that the theorem is
    about are read off the bodies the macros return ([generated_encode],
    [generated_decode]), the declaration only serving to say which types they are
    for. *)

From stdpp Require Import pretty.
From S2P Require Import Prelude Ints Errors Input Discipline Output Traits Primitives Compact.
From S2P Require Import CompactTheory Sequences SequencesTheory Composite MaxLen Derive DeriveTheory.
From S2P Require Import Syntax Attributes AttributesTheory TraitBounds Expand ExpandTheory Macros.

(** ** The types of a program

    The implementations that the compiler finds for a type: those of [Encode],
    [Decode] and [Default], those of [HasCompact::Type], and those of the types
    named by [encoded_as]. *)

Record Repr (F : Type) : Type := mkRepr {
  repr_ref : Type;
  repr_owned : Type;
  repr_encode : Encode repr_ref;
  repr_from : F -> repr_ref;
  repr_decode : Decode repr_owned;
  repr_into : repr_owned -> F;
}.
Arguments mkRepr {_ _ _} _ _ _ _.

Record FieldImpls (F : Type) : Type := mkFieldImpls {
  fi_encode : Encode F;
  fi_decode : Decode F;
  fi_default : F;
  fi_compact : Repr F;
  fi_encoded_as : list token -> Repr F;
  fi_mel : Z;
  fi_compact_mel : Z;
}.
Arguments mkFieldImpls {_} _ _ _ _ _ _ _.
Arguments fi_encode {_} _.
Arguments fi_decode {_} _.
Arguments fi_default {_} _.
Arguments fi_compact {_} _.
Arguments fi_encoded_as {_} _ _.
Arguments fi_mel {_} _.
Arguments fi_compact_mel {_} _.

Class TypeEnv : Type := {
  ty_of : ast -> Type;
  ty_impls : forall t, FieldImpls (ty_of t);
  (** The value of a discriminant expression. *)
  eval_expr : Expr -> Z;
}.

Section elaborate.
Context `{Syn} `{TypeEnv}.

(** ** Fields *)

(** The attribute that the generated code handles the field with. *)
Definition attr_of (f : Field) : FieldAttribute :=
  match field_attribute f with Done (Ok a) => a | _ => AttrSkip end.

Definition elab_attr {F} (impls : FieldImpls F) (a : FieldAttribute) : field_attr F :=
  match a with
  | AttrNone _ => FieldNone (fi_encode impls) (fi_decode impls)
  | AttrCompact _ =>
      let '(mkRepr E from D into) := fi_compact impls in FieldCompact E from D into
  | AttrEncodedAs _ ts =>
      let '(mkRepr E from D into) := fi_encoded_as impls ts in FieldEncodedAs E from D into
  | AttrSkip => FieldSkip (fi_default impls)
  end.

(** The field with a given attribute. *)
Definition field_with (i : nat) (f : Field) (a : FieldAttribute) : field (ty_of (field_ty f)) :=
  let impls := ty_impls (field_ty f) in
  mkField (match field_ident f with Some name => name | None => pretty i end)
    (elab_attr impls a) (fi_mel impls) (fi_compact_mel impls).

Definition elab_field (i : nat) (f : Field) : field (ty_of (field_ty f)) := field_with i f (attr_of f).

Fixpoint fields_type (l : list Field) : Type :=
  match l with
  | [] => unit
  | f :: l => ty_of (field_ty f) * fields_type l
  end.

Fixpoint elab_fields (i : nat) (l : list Field) : fields (fields_type l) :=
  match l with
  | [] => FNil
  | f :: l => FCons (elab_field i f) (elab_fields (S i) l)
  end.

(** ** Variants *)

Definition variant_type (v : Variant) : Type := fields_type (fields_iter (variant_fields v)).

Definition is_named (fs : Fields) : bool := match fs with FieldsNamed _ => true | _ => false end.

Definition is_skipped (v : Variant) : bool :=
  match should_skip (variant_attrs v) with Done b => b | Panic _ => false end.

Definition elab_variant (v : Variant) : variant (variant_type v) :=
  mkVariant (variant_ident v) (is_skipped v)
    (match find_meta_item parse_Meta index_pred (variant_attrs v) with Done r => r | Panic _ => None end)
    (eval_expr <$> variant_discriminant v)
    (is_named (variant_fields v))
    (elab_fields 0 (fields_iter (variant_fields v))).

Fixpoint variants_type (l : list Variant) : Type :=
  match l with
  | [] => Empty_set
  | v :: l => variant_type v + variants_type l
  end.

Fixpoint elab_variants (l : list Variant) : variants (variants_type l) :=
  match l with
  | [] => VNil
  | v :: l => VCons (elab_variant v) (elab_variants l)
  end.

(** The byte that an arm of the generated [match] has. *)
Definition eval_index (ix : index_expr) : Z :=
  match ix with
  | IndexAttribute byte => byte
  | IndexDiscriminant e => eval_expr e
  | IndexPosition i => i
  end.

Definition arm_byte (ix : index_expr) : byte := byte.of_Z (wrap U8 (eval_index ix)).

(** ** The generated code *)

(** The fields, each handled with the attribute that the expansion lists for it. *)
Fixpoint expand_fields (i : nat) (l : list Field) (attrs : list FieldAttribute)
    : option (fields (fields_type l)) :=
  match l, attrs with
  | [], [] => Some FNil
  | f :: l, a :: attrs => fs ← expand_fields (S i) l attrs; Some (FCons (field_with i f a) fs)
  | _, _ => None
  end.

(** The variants that are not skipped, each with its arm: its name, its index, its
    fields. *)
Fixpoint expand_variants (vs : list Variant) (arms : list (Ident * index_expr * list FieldAttribute))
    : option (variants (variants_type vs)) :=
  match vs with
  | [] => match arms with [] => Some VNil | _ => None end
  | v :: vs =>
      if is_skipped v then rest ← expand_variants vs arms; Some (VCons (elab_variant v) rest)
      else match arms with
      | [] => None
      | (name, ix, attrs) :: arms =>
          fs ← expand_fields 0 (fields_iter (variant_fields v)) attrs;
          rest ← expand_variants vs arms;
          Some (VCons (mkVariant name false (Some (eval_index ix)) None (is_named (variant_fields v)) fs) rest)
      end
  end.

(** The values of a declaration. *)
Definition data_type (data : Data) : Type :=
  match data with
  | DataStruct fs => fields_type (fields_iter fs)
  | DataEnum vs => variants_type vs
  | DataUnion _ => Empty_set
  end.

Section generated.
Context `{Target} (size_of : Z).

(** The field that is not skipped, with the attribute of the expansion. *)
Fixpoint single_encode (l : list Field) (a : FieldAttribute) : option (Encode (fields_type l)) :=
  match l with
  | [] => None
  | f :: l =>
      match should_skip (field_attrs f) with
      | Done true => impl_forward 0 snd <$> single_encode l a
      | _ => impl_forward 0 fst <$> field_encode (field_with 0 f a)
      end
  end.

Definition generated_encode (data : Data) (body : encode_body) : option (Encode (data_type data)) :=
  match data with
  | DataStruct fs =>
      match body with
      | EncodeSingle a => impl_forward size_of id <$> single_encode (fields_iter fs) a
      | EncodeStruct attrs =>
          fs ← expand_fields 0 (fields_iter fs) attrs;
          Some (impl_encode_to size_of (size_hint_fields fs 0) (encode_fields fs))
      | _ => None
      end
  | DataEnum vs =>
      match body with
      | EncodeEnum arms =>
          vs ← expand_variants vs (map (fun a => (arm_name a, arm_index a, arm_fields a)) arms);
          Some (impl_encode_to size_of (fun x => h ← size_hint_variants vs x; add_usize 1 h) (encode_variants vs 0))
      | EncodeEmpty => Some (no_encode_body size_of)
      | _ => None
      end
  | DataUnion _ => None
  end.

Definition generated_decode (name : Ident) (data : Data) (body : decode_body) : option (Decode (data_type data)) :=
  match data with
  | DataStruct fs =>
      match body with
      | DecodeStruct attrs => struct_decode size_of false name (is_named fs) <$> expand_fields 0 (fields_iter fs) attrs
      | _ => None
      end
  | DataEnum vs =>
      match body with
      | DecodeEnum arms => enum_decode size_of name <$> expand_variants vs arms
      | _ => None
      end
  | DataUnion _ => None
  end.
End generated.

(** ** The elaboration follows the expansion *)

Lemma elab_variant_index v i ix :
  Attributes.variant_index v i = Done ix -> Derive.variant_index (elab_variant v) i = eval_index ix.
Proof.
  unfold Attributes.variant_index, Derive.variant_index. simpl.
  destruct (find_meta_item _ _ _) as [[b|]|]; simpl; [intros [= <-]|intros [= <-]|]; try done.
  by destruct (variant_discriminant v).
Qed.

Lemma elab_is_skip i f a : field_attribute f = Done (Ok a) -> is_skip (elab_field i f) = is_attr_skip a.
Proof.
  intros Ha. unfold is_skip, elab_field, field_with, attr_of. rewrite Ha. simpl. destruct a; simpl; try done;
    (destruct (fi_compact _) || destruct (fi_encoded_as _ _)); done.
Qed.

Lemma elab_count_unskipped l attrs i :
  map_ok field_attribute l = Done (Ok attrs) ->
  count_unskipped (elab_fields i l) = length (List.filter (fun a => negb (is_attr_skip a)) attrs).
Proof.
  intros Hm%map_ok_forall. revert i. induction Hm as [|f a l attrs Hf _ IH]; intros i; simpl; [done|].
  rewrite (elab_is_skip i f a Hf), IH. by destruct (is_attr_skip a).
Qed.

(** The generated encoder is the one of the single field exactly when one field
    is left. *)
Lemma elab_single crate fs e :
  encode_quote crate (DataStruct fs) = Done (Ok e) ->
  (exists attrs, map_ok field_attribute (fields_iter fs) = Done (Ok attrs)) ->
  (exists a, e = EncodeSingle a) <-> count_unskipped (elab_fields 0 (fields_iter fs)) = 1%nat.
Proof.
  intros He [attrs Hm]. rewrite (elab_count_unskipped _ _ _ Hm). unfold encode_quote in He. simpl in He.
  destruct (settled_single_field fs) as [[f|] Hs]; rewrite Hs in He; simpl in He.
  - destruct (single_field_attr fs f attrs Hs Hm) as (a & _ & _ & ->).
    destruct (encode_single_field crate f) as [[b|]|]; simpl in He; [|done|done]. injection He as <-.
    split; [done|by eauto].
  - rewrite Hm in He. injection He as <-. split; [by intros [a [=]]|]. intros Hl. exfalso.
    destruct (settled_filterM (fun f => not_skipped (field_attrs f)) (fields_iter fs)) as [r Hr];
      [intros; apply settled_not_skipped|].
    pose proof (Forall2_length _ _ _ (filterM_attrs _ _ _ Hm Hr)) as Hlen. rewrite Hl in Hlen.
    destruct r as [|f [|]]; try done.
    destruct fs as [l|l|]; simpl in *; [| |discriminate Hr].
    + unfold filter_skip_named in Hs. by rewrite Hr in Hs.
    + destruct (filter_skip_unnamed_named l) as (r' & Hu & Hn). rewrite Hu in Hs.
      unfold filter_skip_named in Hn. rewrite Hr in Hn. injection Hn as Hn.
      destruct r' as [|[i g] [|]]; done.
Qed.

(** The bytes of the arms are the indices of the variants. *)
Lemma elab_indices_from crate vs vs' n arms :
  filterM (fun v => not_skipped (variant_attrs v)) vs = Done vs' ->
  map_ok (decode_variant crate) (zip (Z.of_nat <$> seq n (length vs')) vs') = Done (Ok arms) ->
  map (fun '(_, ix, _) => arm_byte ix) arms = indices (elab_variants vs) (Z.of_nat n).
Proof.
  revert vs' n arms. induction vs as [|v vs IH]; intros vs' n arms; [by intros [= <-] [= <-]|].
  cbn [filterM elab_variants indices].
  destruct (should_skip_done (variant_attrs v)) as [b Hb].
  assert (not_skipped (variant_attrs v) = Done (negb b)) as Hns by (unfold not_skipped; by rewrite Hb).
  rewrite Hns. cbn [v_skip elab_variant]. unfold is_skipped. rewrite Hb. simpl.
  destruct (filterM _ vs) as [vs0|]; [|done]. simpl. intros [= <-]. destruct b; simpl; [by apply IH|].
  destruct (Attributes.variant_index v (Z.of_nat n)) as [ix|] eqn:Hix; simpl; [|done].
  destruct (create_instance crate _) as [[attrs|]|]; simpl; [|done|done].
  destruct (map_ok (decode_variant crate) _) as [[arms'|]|] eqn:Ha; simpl; [|done|done]. intros [= <-]. simpl.
  rewrite (IH vs0 (S n) arms' eq_refl Ha). f_equal.
  - unfold arm_byte, index_byte. by rewrite (elab_variant_index v _ ix Hix).
  - f_equal. lia.
Qed.

Lemma elab_indices crate vs arms :
  decode_quote crate (DataEnum vs) = Done (Ok (DecodeEnum arms)) ->
  map (fun '(_, ix, _) => arm_byte ix) arms = indices (elab_variants vs) 0 /\
  try_get_variants_ok (elab_variants vs) = true.
Proof.
  simpl. unfold try_get_variants, try_get_variants_ok.
  destruct (filterM _ vs) as [vs'|] eqn:Hf; simpl; [|done].
  destruct (Z.ltb_spec 256 (zlen vs')); simpl; [done|].
  destruct (map_ok _ _) as [[arms'|]|] eqn:Ha; simpl; [|done|done]. intros [= <-].
  pose proof (elab_indices_from crate vs vs' 0 arms' Hf Ha) as Hix.
  change (Z.of_nat 0) with 0 in Hix. split; [done|].
  rewrite <- (length_indices _ 0), <- Hix, negb_true_iff. apply Z.ltb_ge.
  apply map_ok_forall, Forall2_length in Ha. unfold zlen in *. rewrite length_map, <- Ha.
  unfold enumerate. rewrite length_zip_with, length_fmap, length_seq. lia.
Qed.

(** ** The generated code is that of the elaboration *)

Lemma expand_fields_elab i l attrs :
  map_ok field_attribute l = Done (Ok attrs) -> expand_fields i l attrs = Some (elab_fields i l).
Proof.
  intros Hm%map_ok_forall. revert i. induction Hm as [|f a l attrs Hf _ IH]; intros i; [done|].
  cbn [expand_fields elab_fields]. rewrite IH. simpl. unfold elab_field, attr_of. by rewrite Hf.
Qed.

Lemma create_instance_fields crate fs attrs :
  create_instance crate fs = Done (Ok attrs) -> map_ok field_attribute (fields_iter fs) = Done (Ok attrs).
Proof.
  intros Hc. rewrite <- Hc. apply map_ok_ext. intros f. symmetry. apply create_decode_expr_is.
Qed.

Context `{Target}.

(** Two lists of variants with the same code. *)
Record same_code {A} (vs ws : variants A) (n : Z) : Prop := {
  same_decode name b : decode_variants vs name n b = decode_variants ws name n b;
  same_encode x : encode_variants vs n x = encode_variants ws n x;
  same_hint x : size_hint_variants vs x = size_hint_variants ws x;
}.

Lemma same_code_cons {A R} (v w : variant A) (vs ws : variants R) n :
  v_name v = v_name w -> v_skip v = v_skip w -> index_byte v n = index_byte w n -> v_named v = v_named w ->
  v_fields v = v_fields w -> same_code vs ws (if v_skip v then n else n + 1) ->
  same_code (VCons v vs) (VCons w ws) n.
Proof.
  intros Hn Hs Hi Hm Hf [Hd He Hh]. split.
  - intros name b. cbn [decode_variants]. by rewrite <- Hn, <- Hs, <- Hi, <- Hm, <- Hf, Hd.
  - intros [a|r]; cbn [encode_variants]; [by rewrite <- Hs, <- Hi, <- Hf|]. by rewrite <- Hs, He.
  - intros [a|r]; cbn [size_hint_variants]; [by rewrite <- Hs, <- Hf|apply Hh].
Qed.

Lemma expand_variants_elab crate vs vs' n arms :
  filterM (fun v => not_skipped (variant_attrs v)) vs = Done vs' ->
  map_ok (decode_variant crate) (zip (Z.of_nat <$> seq n (length vs')) vs') = Done (Ok arms) ->
  exists ws, expand_variants vs arms = Some ws /\ same_code ws (elab_variants vs) (Z.of_nat n).
Proof.
  revert vs' n arms. induction vs as [|v vs IH]; intros vs' n arms; [intros [= <-] [= <-]; by exists VNil|].
  cbn [filterM expand_variants elab_variants].
  destruct (should_skip_done (variant_attrs v)) as [b Hb].
  assert (not_skipped (variant_attrs v) = Done (negb b)) as Hns by (unfold not_skipped; by rewrite Hb).
  assert (is_skipped v = b) as Hsk by (unfold is_skipped; by rewrite Hb). rewrite Hns, Hsk. simpl.
  destruct (filterM _ vs) as [vs0|]; [|done]. simpl. intros [= <-]. destruct b; simpl.
  { intros Ha. destruct (IH vs0 n arms eq_refl Ha) as (ws & -> & Hc). eexists. split; [done|].
    apply same_code_cons; [done..|]. simpl. by rewrite Hsk. }
  destruct (Attributes.variant_index v (Z.of_nat n)) as [ix|] eqn:Hix; simpl; [|done].
  destruct (create_instance crate _) as [[attrs|]|] eqn:Hci; simpl; [|done|done].
  destruct (map_ok (decode_variant crate) _) as [[arms'|]|] eqn:Ha; simpl; [|done|done]. intros [= <-].
  rewrite (expand_fields_elab 0 _ attrs) by by apply create_instance_fields in Hci.
  destruct (IH vs0 (S n) arms' eq_refl Ha) as (ws & -> & Hc). eexists. split; [done|].
  apply same_code_cons; simpl; [done|done| |done|done|].
  - unfold index_byte. by rewrite (elab_variant_index v _ ix Hix).
  - by replace (Z.of_nat n + 1) with (Z.of_nat (S n)) by lia.
Qed.

(** The forwarding encoder is the one of the first field that is left. *)
Lemma single_encode_elab l attrs a i :
  map_ok field_attribute l = Done (Ok attrs) -> List.filter (fun a => negb (is_attr_skip a)) attrs = [a] ->
  single_encode l a = first_field_encode (elab_fields i l).
Proof.
  intros Hm%map_ok_forall. revert i. induction Hm as [|f b l attrs Hf _ IH]; intros i; [done|].
  cbn [single_encode first_field_encode elab_fields List.filter].
  destruct (should_skip_done (field_attrs f)) as [sk Hsk].
  assert (is_attr_skip b = sk) as Hb.
  { destruct sk; [by rewrite (field_attribute_skip f Hsk b Hf)|].
    pose proof (field_attribute_not_skip f b Hsk Hf). by destruct b. }
  pose proof (elab_is_skip i f b Hf) as Hsk'. rewrite Hb in Hsk'.
  assert (field_encode (field_with 0 f b) = field_encode (elab_field i f)) as Hfe
    by (unfold elab_field, attr_of; by rewrite Hf).
  rewrite Hsk, Hb. unfold is_skip in Hsk'. destruct sk; simpl.
  - intros Hfl. rewrite (IH (S i) Hfl). unfold field_encode at 1. by destruct (f_attr (elab_field i f)).
  - intros [= <- _]. rewrite Hfe. unfold field_encode. by destruct (f_attr (elab_field i f)).
Qed.

Lemma generated_struct size_of crate fs attrs e :
  create_instance crate fs = Done (Ok attrs) -> encode_quote crate (DataStruct fs) = Done (Ok e) ->
  generated_encode size_of (DataStruct fs) e = Some (struct_encode size_of (elab_fields 0 (fields_iter fs))).
Proof.
  intros Hm%create_instance_fields He. pose proof (elab_single crate fs e He (ex_intro _ attrs Hm)) as Hsingle.
  destruct (quotes_agree crate (DataStruct fs) (DecodeStruct attrs)) as (e' & He' & Hagree).
  { simpl. unfold create_instance. rewrite (map_ok_ext _ field_attribute) by apply create_decode_expr_is. by rewrite Hm. }
  rewrite He in He'. injection He' as <-. unfold struct_encode, generated_encode. destruct e as [a|attrs'|arms|]; try done.
  - rewrite (proj2 (Nat.eqb_eq _ _) (proj1 Hsingle (ex_intro _ a eq_refl))).
    rewrite (single_encode_elab _ attrs a 0 Hm Hagree).
    destruct (first_field_encode_bytes (elab_fields 0 (fields_iter fs))) as (E & -> & _); [|done].
    apply Hsingle. by exists a.
  - simpl in Hagree. subst attrs'. rewrite (expand_fields_elab 0 _ attrs Hm). simpl.
    destruct (Nat.eqb _ 1) eqn:Hc; [|done]. apply Nat.eqb_eq in Hc. by apply Hsingle in Hc as [a [=]].
Qed.

(** What is supposed of the types of a declaration: lawful implementations for the
    types of its fields and, for an enum, distinct indices. *)
Definition decl_ok (data : Data) : (data_type data -> Prop) -> Prop :=
  match data with
  | DataStruct fs => fun wf => fields_ok (elab_fields 0 (fields_iter fs)) wf
  | DataEnum vs => fun wf => variants_ok (elab_variants vs) wf /\ NoDup (indices (elab_variants vs) 0)
  | DataUnion _ => fun _ => False
  end.

(** A codec that is total and inverse on the values of [wf]. *)
Definition inverse_codec {T} (E : Encode T) (D : Decode T) (wf : T -> Prop) : Prop :=
  (forall x bs rest, wf x -> encode E x = Done bs -> run (decode D) (bs ++ rest) = Done (Ok x, rest)) /\
  (forall I (HI : Input I), InputLaws I -> forall i : I,
     exists r i', run (decode D) i = Done (r, i') /\ forall x, r = Ok x -> wf x).

Lemma laws_inverse {T} (E : Encode T) D wf : CodecLaws E D wf -> inverse_codec E D wf.
Proof.
  intros HL. split.
  - intros x bs rest Hx Hb. apply (roundtrip (CodecLaws := HL)); [done|].
    by apply (encode_sound (EncodeLaws := codec_encode)).
  - intros I HI HIL i. apply (wb_run wf 0), (decode_wb (DecodeLaws := codec_decode (E := E))).
Qed.

Lemma inverse_ext {T} (E E' : Encode T) (D D' : Decode T) wf :
  (forall x bs, encode E x = Done bs -> encode E' x = Done bs) ->
  (forall I (HI : Input I) (i : I), run (decode D) i = run (decode D') i) ->
  inverse_codec E' D' wf -> inverse_codec E D wf.
Proof.
  intros He Hd [Hrt Ht]. split.
  - intros x bs rest Hx Hb. rewrite Hd. by apply Hrt; [|apply He].
  - intros I HI HIL i. rewrite Hd. by apply Ht.
Qed.

Lemma generated_enum size_of name crate vs d e :
  decode_quote crate (DataEnum vs) = Done (Ok d) -> encode_quote crate (DataEnum vs) = Done (Ok e) ->
  exists E D, generated_encode size_of (DataEnum vs) e = Some E /\
    generated_decode size_of name (DataEnum vs) d = Some D /\
    (forall x bs, encode E x = Done bs -> encode (enum_encode size_of (elab_variants vs)) x = Done bs) /\
    (forall I (HI : Input I) (i : I),
       run (decode D) i = run (decode (enum_decode size_of name (elab_variants vs))) i).
Proof.
  intros Hd He. destruct (quotes_agree crate _ _ Hd) as (e' & He' & Hagree).
  rewrite He in He'. injection He' as <-.
  assert (exists arms, d = DecodeEnum arms) as [arms ->].
  { simpl in Hd. apply bind_ok_inv in Hd as (vs' & _ & (arms & _ & Hq)%bind_ok_inv). injection Hq as <-. by eexists. }
  destruct (elab_indices crate vs arms Hd) as [Hix _]. simpl in Hd. unfold try_get_variants in Hd.
  destruct (filterM _ vs) as [vs'|] eqn:Hf; simpl in Hd; [|done].
  destruct (256 <? zlen vs'); simpl in Hd; [done|].
  destruct (map_ok _ _) as [[arms'|]|] eqn:Ha; simpl in Hd; [|done|done]. injection Hd as ->.
  destruct (expand_variants_elab crate vs vs' 0 arms Hf Ha) as (ws & Hws & [Hdec Henc Hhint]).
  change (Z.of_nat 0) with 0 in *. unfold generated_encode, generated_decode. rewrite Hws.
  assert (forall I (HI : Input I) (i : I),
    run (decode (enum_decode size_of name ws)) i = run (decode (enum_decode size_of name (elab_variants vs))) i) as Hrun.
  { intros I HI i. cbn [decode enum_decode impl_decode]. unfold enum_decode_fn. rewrite !run_try_bind.
    destruct (run _ i) as [[[b|]]|]; simpl; [|done|done]. by rewrite Hdec. }
  destruct e as [a|attrs|earms|]; try done; simpl in Hagree.
  - rewrite Hagree, Hws. eexists _, _. split_and!; [done|done| |done]. intros x bs Hb.
    unfold enum_encode. destruct (Z.eqb_spec (count_variants (elab_variants vs)) 0) as [Hz|Hz].
    + exfalso. pose proof (length_indices (elab_variants vs) 0) as Hl. rewrite <- Hix, Hz in Hl.
      destruct arms; [|done]. destruct vs' as [|v vs']; [|by apply map_ok_forall, Forall2_length in Ha].
      unfold encode_quote in He. simpl in He. unfold try_get_variants in He. by rewrite Hf in He.
    + cbn [encode impl_encode_to] in *. unfold default_encode in *. by rewrite <- Hhint, <- Henc.
  - destruct arms; [|done]. eexists _, _. split_and!; [done|done|done|done].
Qed.

(** C13: the macros from end to end.  When [derive(Decode)] accepts a declaration,
    [derive(Encode)] does, and the codecs that the two bodies stand for are inverse to
    each other: for a struct if the implementations of the field types are lawful, for
    an enum if moreover no two variants have the same index, a value with its skipped
    fields at their defaults and in a variant that is not skipped comes back, and on any
    input decoding returns such a value or an error.  The generated [Encode] of a
    struct forwards to a single field exactly when one is left. *)
Theorem derive_end_to_end ts d input size_of :
  0 <= size_of -> decode_derive ts = Done (Ok d) -> parse_DeriveInput ts = Ok input ->
  exists e E D, encode_derive ts = Done (Ok e) /\
    generated_encode size_of (input_data input) (impl_body e) = Some E /\
    generated_decode size_of (input_ident input) (input_data input) (impl_body d).1 = Some D /\
    (forall wf, decl_ok (input_data input) wf -> inverse_codec E D wf) /\
    (forall fs, input_data input = DataStruct fs ->
       (exists a, impl_body e = EncodeSingle a) <-> count_unskipped (elab_fields 0 (fields_iter fs)) = 1%nat).
Proof.
  intros Hs Hd Hin. destruct (derives_agree ts d Hd) as (input' & e & Hin' & He & Hq & Heq & _).
  rewrite Hin in Hin'. injection Hin' as <-. exists e. destruct (input_data input) as [fs|vs|fs] eqn:Hdata; [| |done].
  - pose proof Hq as Hq'. simpl in Hq. apply bind_ok_inv in Hq as (attrs & Hci & [= Hbody]).
    pose proof (create_instance_fields _ _ _ Hci) as Hm.
    exists (struct_encode size_of (elab_fields 0 (fields_iter fs))),
      (struct_decode size_of false (input_ident input) (is_named fs) (elab_fields 0 (fields_iter fs))).
    split_and!; [done|by apply (generated_struct size_of (impl_crate_path d) fs attrs)| | |].
    + rewrite <- Hbody. simpl. by rewrite (expand_fields_elab 0 _ attrs Hm).
    + intros wf Hok. by apply laws_inverse, struct_codec_laws.
    + intros fs' [= <-]. by apply (elab_single (impl_crate_path d)); [|exists attrs].
  - destruct (generated_enum size_of (input_ident input) _ vs _ _ Hq Heq) as (E & D & HE & HD & Henc & Hrun).
    exists E, D. split_and!; [done|done|done| |done].
    intros wf [Hok Hnd]. eapply inverse_ext; [exact Henc|exact Hrun|]. by apply laws_inverse, enum_codec_laws.
Qed.
End elaborate.

(** ** An example: [struct P(u8, #[codec(skip)] u8)] *)

Section example.
Existing Instance x86_64.

Definition u8_impls : FieldImpls Z :=
  mkFieldImpls (prim_encode U8) (prim_decode U8) 0
    (mkRepr (compact_encode CU8) id (compact_decode CU8) id)
    (fun _ => mkRepr (prim_encode U8) id (prim_decode U8) id) 1 2.

(** A program whose only type is [u8]. *)
Definition u8_env : TypeEnv := {| ty_of _ := Z; ty_impls _ := u8_impls; eval_expr _ := 0 |}.

Definition u8_field : Field := mkSynField [] None (ident_type "u8").

Definition struct_P : DeriveInput :=
  mkDeriveInput [] "P" (mkGenerics [] [])
    (DataStruct (FieldsUnnamed
       [u8_field;
        mkSynField [codec_attr [TIdent "skip"]] None (ident_type "u8")])).

Definition decl_P : fields (Z * (Z * unit)) :=
  @elab_fields (simple_syn struct_P) u8_env 0
    [u8_field; mkSynField [codec_attr [TIdent "skip"]] None (ident_type "u8")].

Lemma decl_P_ok : fields_ok decl_P (fun x => in_range U8 x.1 /\ x.2.1 = 0 /\ True).
Proof.
  apply (fields_ok_cons _ _ _ _ (in_range U8) (fun x => x.1 = 0 /\ True)); [apply prim_codec_laws|].
  apply (fields_ok_cons _ _ _ _ (fun x => x = 0) (fun _ => True)); [done|constructor].
Qed.

Lemma encode_P e :
  @encode_derive (simple_syn struct_P) [] = Done (Ok e) -> impl_body e = EncodeSingle (AttrNone u8_field).
Proof. vm_compute. by intros [= <-]. Qed.

Lemma generated_P :
  @generated_encode (simple_syn struct_P) u8_env x86_64 2 (input_data struct_P) (EncodeSingle (AttrNone u8_field))
  = Some (struct_encode 2 decl_P).
Proof. reflexivity. Qed.

Lemma derive_end_to_end_witness :
  encode (struct_encode 2 decl_P) (7, (0, tt)) = Done [x07] /\
  exists d D, @decode_derive (simple_syn struct_P) [] = Done (Ok d) /\
    @generated_decode (simple_syn struct_P) u8_env 2 "P" (input_data struct_P) (impl_body d).1 = Some D /\
    run (decode D) ([x07] ++ [x01]) = Done (Ok (7, (0, tt)), [x01]).
Proof.
  assert (encode (struct_encode 2 decl_P) (7, (0, tt)) = Done [x07]) as Henc by (vm_compute; reflexivity).
  split; [exact Henc|].
  destruct (@decode_derive (simple_syn struct_P) []) as [[d|]|] eqn:Hd; [|vm_compute in Hd; discriminate..].
  destruct (@derive_end_to_end (simple_syn struct_P) u8_env x86_64 [] d struct_P 2 ltac:(done) Hd eq_refl)
    as (e & E & D & He & HE & HD & Hinv & _).
  exists d, D. split; [reflexivity|]. split; [exact HD|].
  rewrite (encode_P e He), generated_P in HE. injection HE as HE.
  apply (proj1 (Hinv _ decl_P_ok)); [done|]. rewrite <- HE. exact Henc.
Defined.
End example.
