(* ===== verification/CompactAsDerive.v ===== *)
(** * [derive(CompactAs)] ([derive/src/lib.rs], [src/src/compact.rs])

    The generated [CompactAs] of a struct with a single field that is not
    skipped: [encode_as] is that field, [decode_from] fills the others with their
    defaults.  The implementation is read off the body the macro returns: the member
    that [encode_as] refers to, and the arguments of the constructor in [decode_from].
    [HasCompact::Type] of such a type is [Compact] of it. *)

From S2P Require Import Prelude Ints Errors Input Discipline Output Traits Primitives Compact.
From S2P Require Import CompactTheory Sequences SequencesTheory Composite MaxLen Derive DeriveTheory.
From S2P Require Import Syntax Attributes AttributesTheory TraitBounds Expand ExpandTheory Macros Elaborate.

(** ** The generated implementation *)

(** A field of a struct: its type, its value, and the struct that [decode_from] makes
    of a value for the field. *)
Record inner (A : Type) : Type := mkInner {
  inner_ty : Type;
  inner_get : A -> inner_ty;
  inner_make : inner_ty -> A;
}.
Arguments mkInner {_} _ _ _.
Arguments inner_ty {_} _.
Arguments inner_get {_} _ _.
Arguments inner_make {_} _ _.

Definition derived_compact_as {A} (i : inner A) : CompactAs A (inner_ty i) :=
  {| encode_as := inner_get i; decode_from x := Ok (inner_make i x) |}.

(** [impl MaxEncodedLen for Compact<T>], [T: CompactAs]. *)
Definition compact_as_max_len (inner_len : Z) : Z := inner_len.

Section generated.
Context `{Syn} `{TypeEnv}.

(** [Default::default()] at the type of a field. *)
Definition default_of (f : Field) : ty_of (field_ty f) := fi_default (ty_impls (field_ty f)).

(** The position of [self.#member]. *)
Definition member_position (l : list Field) (m : member) : option nat :=
  match m with
  | MemberNamed name => fst <$> list_find (fun f => field_ident f = name) l
  | MemberIndex id => Some (Z.to_nat id)
  end.

(** The arguments of the constructor after the one that is [x]. *)
Fixpoint make_defaults (l : list Field) (args : list constructor_arg) : option (fields_type l) :=
  match l, args with
  | [], [] => Some tt
  | f :: l, ArgDefault :: args => ds ← make_defaults l args; Some (default_of f, ds)
  | _, _ => None
  end.

(** The implementation, if it has the types it needs: [x], of the type of the member,
    is the argument at the position of the member and nowhere else. *)
Fixpoint make_inner (l : list Field) (position : nat) (args : list constructor_arg)
    : option (inner (fields_type l)) :=
  match l, position, args with
  | f :: l, O, ArgX :: args =>
      ds ← make_defaults l args;
      Some (mkInner (A := ty_of (field_ty f) * fields_type l) (ty_of (field_ty f)) fst (fun x => (x, ds)))
  | f :: l, S position, ArgDefault :: args =>
      i ← make_inner l position args;
      Some (mkInner (A := ty_of (field_ty f) * fields_type l) (inner_ty i) (fun x => inner_get i x.2)
              (fun x => (default_of f, inner_make i x)))
  | _, _, _ => None
  end.

Definition generated_compact_as (fs : Fields) (body : compact_as_body) : option (inner (fields_type (fields_iter fs))) :=
  position ← member_position (fields_iter fs) (inner_field body);
  make_inner (fields_iter fs) position (constructor body).

(** ** Properties *)

Definition skips (f : Field) : bool :=
  match should_skip (field_attrs f) with Done b => b | Panic _ => false end.

(** A value with the skipped fields set to their defaults. *)
Fixpoint with_defaults (l : list Field) : fields_type l -> fields_type l :=
  match l with
  | [] => id
  | f :: l => fun x => (if skips f then default_of f else x.1, with_defaults l x.2)
  end.

Lemma skips_done f : should_skip (field_attrs f) = Done (skips f).
Proof. unfold skips. by destruct (should_skip_done (field_attrs f)) as [b ->]. Qed.

Lemma constructor_args l args :
  flat_mapM (fun f => arg ← val_or_default f; Done [arg]) l = Done args ->
  args = map (fun f => if skips f then ArgDefault else ArgX) l.
Proof.
  revert args. induction l as [|f l IH]; intros args; simpl; [by intros [= <-]|].
  unfold val_or_default. rewrite skips_done. simpl.
  destruct (flat_mapM _ l) as [args'|]; simpl; [|done]. intros [= <-]. by rewrite (IH args' eq_refl).
Qed.

Lemma unskipped_filter l :
  filterM (fun f => not_skipped (field_attrs f)) l = Done (List.filter (fun f => negb (skips f)) l).
Proof.
  induction l as [|f l IH]; cbn [filterM List.filter]; [done|].
  assert (not_skipped (field_attrs f) = Done (negb (skips f))) as -> by (unfold not_skipped; by rewrite skips_done).
  simpl. rewrite IH. by destruct (skips f).
Qed.

Lemma make_defaults_spec l :
  List.filter (fun f => negb (skips f)) l = [] ->
  exists ds, make_defaults l (map (fun f => if skips f then ArgDefault else ArgX) l) = Some ds /\
    forall x, with_defaults l x = ds.
Proof.
  induction l as [|f l IH]; simpl; [exists tt; split; [done|by intros []]|].
  destruct (skips f) eqn:Hf; simpl; [|done]. intros Hl. destruct (IH Hl) as (ds & -> & Hds).
  eexists. split; [done|]. intros x. by rewrite Hds.
Qed.

(** The constructor with the value of the only field that is left. *)
Lemma make_inner_spec l f :
  List.filter (fun f => negb (skips f)) l = [f] ->
  exists p i, l !! p = Some f /\ (forall g, g ∈ take p l -> skips g = true) /\
    make_inner l p (map (fun f => if skips f then ArgDefault else ArgX) l) = Some i /\
    inner_ty i = ty_of (field_ty f) /\
    (forall x, inner_get i (inner_make i x) = x) /\
    (forall x, inner_make i (inner_get i x) = with_defaults l x).
Proof.
  induction l as [|g l IH]; simpl; [done|]. destruct (skips g) eqn:Hg; simpl.
  - intros Hl. destruct (IH Hl) as (p & i & Hp & Hbefore & Hi & Ht & Hgm & Hmg).
    eexists (S p), _. split_and!; [done| |by rewrite Hi|done|done|].
    + intros h [-> | Hh]%elem_of_cons; [done|by apply Hbefore].
    + intros x. simpl. by rewrite Hmg.
  - intros [= <- Hl]. destruct (make_defaults_spec l Hl) as (ds & Hds & Hw).
    eexists 0%nat, _. split_and!; [done| |by rewrite Hds|done|done|].
    + intros h Hh. by apply elem_of_nil in Hh.
    + intros x. simpl. by rewrite Hw.
Qed.
End generated.

Section codec.
Context `{Target}.

#[export] Instance compact_as_len {A As} (C : CompactAs A As) (E : Encode As) wf n (wfT : A -> Prop) :
  MaxEncodedLen E wf n -> (forall x, wfT x -> wf (encode_as x)) ->
  MaxEncodedLen (compact_as_encode E) wfT (compact_as_max_len n).
Proof.
  intros HE Hwf. split; [apply (max_encoded_len_nonneg (E := E))|]. intros x bs Hx.
  apply (max_encoded_len_bound (E := E)). auto.
Qed.
End codec.

(** ** The macro *)

Section macro.
Context `{Syn} `{TypeEnv}.

(** Names of fields are distinct, which the compiler checks. *)
Definition distinct_names (fs : Fields) : Prop :=
  match fs with FieldsNamed l => NoDup (map field_ident l) | _ => True end.

Lemma find_named l p f :
  NoDup (map field_ident l) -> l !! p = Some f ->
  fst <$> list_find (fun g => field_ident g = field_ident f) l = Some p.
Proof.
  intros Hnd Hp. assert (list_find (fun g => field_ident g = field_ident f) l = Some (p, f)) as ->; [|done].
  apply list_find_Some. split_and!; [done|done|]. intros q g Hq Hlt Heq.
  assert (q = p); [|lia]. eapply (NoDup_lookup (map field_ident l)); [done|rewrite list_lookup_fmap..]; [|by rewrite Hp].
  by rewrite Hq, <- Heq.
Qed.

Lemma enumerate_filter n l f id :
  filterM (fun '(_, f) => not_skipped (field_attrs f)) (zip (Z.of_nat <$> seq n (length l)) l) = Done [(id, f)] ->
  exists p, id = Z.of_nat (n + p) /\ l !! p = Some f /\ (forall g, g ∈ take p l -> skips g = true) /\ skips f = false.
Proof.
  revert n. induction l as [|g l IH]; intros n; [done|].
  change (zip (Z.of_nat <$> seq n (length (g :: l))) (g :: l))
    with ((Z.of_nat n, g) :: zip (Z.of_nat <$> seq (S n) (length l)) l). cbn [filterM].
  assert (not_skipped (field_attrs g) = Done (negb (skips g))) as -> by (unfold not_skipped; by rewrite skips_done).
  destruct (filterM _ (zip _ l)) as [r|] eqn:Hr; simpl; [|done]. destruct (skips g) eqn:Hg; simpl.
  - intros [= ->]. destruct (IH (S n) Hr) as (p & -> & Hp & Hb & Hf). exists (S p). split_and!; [lia|done| |done].
    intros h [-> | Hh]%elem_of_cons; [done|by apply Hb].
  - intros [= <- <- ->]. exists 0%nat. split_and!; [lia|done| |done]. intros h Hh. by apply elem_of_nil in Hh.
Qed.

(** Two positions of fields that are not skipped, with skipped fields before. *)
Lemma first_unskipped l p q f g :
  l !! p = Some f -> l !! q = Some g -> (forall h, h ∈ take p l -> skips h = true) ->
  (forall h, h ∈ take q l -> skips h = true) -> skips f = false -> skips g = false -> p = q.
Proof.
  intros Hp Hq Hbp Hbq Hf Hg. destruct (decide (p = q)) as [|Hne]; [done|exfalso].
  destruct (decide (p < q)%nat).
  - rewrite (Hbq f) in Hf; [done|]. eapply list_elem_of_lookup_2. by rewrite lookup_take_lt.
  - rewrite (Hbp g) in Hg; [done|]. apply (list_elem_of_lookup_2 _ q). rewrite lookup_take_lt by lia. exact Hq.
Qed.

(** The macro accepts the structs with one field that is not skipped, and generates an
    implementation for it. *)
Lemma compact_as_quote_spec fs body :
  distinct_names fs -> compact_as_quote (DataStruct fs) = Done (Ok body) ->
  exists f i, List.filter (fun f => negb (skips f)) (fields_iter fs) = [f] /\
    generated_compact_as fs body = Some i /\ as_type body = field_ty f /\ inner_ty i = ty_of (as_type body) /\
    (forall x, inner_get i (inner_make i x) = x) /\
    (forall x, inner_make i (inner_get i x) = with_defaults (fields_iter fs) x).
Proof.
  simpl. intros Hnd. destruct (single_member fs) as [[[f m]|]|] eqn:Hm; simpl; [|done|done].
  destruct (flat_mapM _ _) as [args|] eqn:Hargs; simpl; [|done]. intros [= <-].
  apply constructor_args in Hargs as ->.
  assert (List.filter (fun f => negb (skips f)) (fields_iter fs) = [f] /\
    forall p, fields_iter fs !! p = Some f -> (forall g, g ∈ take p (fields_iter fs) -> skips g = true) ->
      skips f = false -> member_position (fields_iter fs) m = Some p) as [Hf Hpos].
  { destruct fs as [l|l|]; simpl in *; [| |done].
    - unfold filter_skip_named in Hm. rewrite unskipped_filter in Hm. simpl in Hm.
      destruct (List.filter _ l) as [|g [|]]; [done| |done]. injection Hm as <- <-. split; [done|].
      intros p Hp _ _. by apply find_named.
    - destruct (filter_skip_unnamed_named l) as (r & Hr & Hn). unfold filter_skip_named in Hn.
      rewrite unskipped_filter in Hn. injection Hn as ->. rewrite Hr in Hm. simpl in Hm.
      destruct r as [|[id g] [|]]; [done| |done]. injection Hm as <- <-. split; [done|].
      intros p Hp Hb Hs. apply enumerate_filter in Hr as (q & -> & Hq & Hbq & _). simpl.
      by rewrite Nat2Z.id, (first_unskipped l p q g g). }
  assert (skips f = false) as Hs.
  { assert (f ∈ List.filter (fun f => negb (skips f)) (fields_iter fs)) as Hin by (rewrite Hf; by left).
    apply list_elem_of_In, filter_In in Hin as [_ Hin]. by destruct (skips f). }
  destruct (make_inner_spec _ f Hf) as (p & i & Hp & Hb & Hi & Ht & Hgm & Hmg). exists f, i.
  split_and!; [done| |done|done|done|done]. unfold generated_compact_as. simpl. by rewrite (Hpos p Hp Hb Hs).
Qed.

Lemma single_quoted fs f :
  List.filter (fun f => negb (skips f)) (fields_iter fs) = [f] ->
  exists body, compact_as_quote (DataStruct fs) = Done (Ok body).
Proof.
  intros Hf. assert (exists m, single_member fs = Done (Some (f, m))) as [m Hm].
  { destruct fs as [l|l|]; simpl in *; [| |done].
    - unfold filter_skip_named. rewrite unskipped_filter, Hf. by eexists.
    - destruct (filter_skip_unnamed_named l) as (r & Hr & Hn). unfold filter_skip_named in Hn.
      rewrite unskipped_filter, Hf in Hn. injection Hn as Hn. rewrite Hr.
      destruct r as [|[id g] [|]]; simplify_eq/=. by eexists. }
  destruct (settled_compact_as_quote (DataStruct fs)) as [[body|e] Hq]; [by eexists|].
  simpl in Hq. rewrite Hm in Hq. simpl in Hq. by destruct (flat_mapM _ _).
Qed.

Context `{Target}.

(** C32: [derive(CompactAs)].  The macro accepts exactly the structs with one field that
    is not skipped.  The implementation it generates (read off its body) is the field as
    the compact form of the struct: its bytes are those of the compact form of the field,
    decoding them gives the struct back with the skipped fields at their defaults,
    whatever they were, and when the compact form of the field is canonical nothing
    else is accepted.  The struct has distinct field names, and the compact form of the
    field is a lawful codec. *)
Theorem derived_compact_as_spec fs size_of :
  0 <= size_of -> distinct_names fs ->
  ((exists body, compact_as_quote (DataStruct fs) = Done (Ok body)) <->
     exists f, List.filter (fun f => negb (skips f)) (fields_iter fs) = [f]) /\
  forall body, compact_as_quote (DataStruct fs) = Done (Ok body) ->
  exists i, generated_compact_as fs body = Some i /\ inner_ty i = ty_of (as_type body) /\
    forall (E : Encode (inner_ty i)) D wf, CodecLaws E D wf ->
    let EA := compact_as_encode (H0 := derived_compact_as i) E in
    let DA := compact_as_decode (H := derived_compact_as i) size_of D in
    (forall x, wbytes (encode_to EA x) = wbytes (encode_to E (inner_get i x))) /\
    (forall x bs rest, wf (inner_get i x) -> wbytes (encode_to EA x) = Done bs ->
       run (decode DA) (bs ++ rest) = Done (Ok (with_defaults (fields_iter fs) x), rest)) /\
    (Canonical E D -> forall j x j', run (decode DA) j = Done (Ok x, j') ->
       with_defaults (fields_iter fs) x = x /\ exists bs, wbytes (encode_to EA x) = Done bs /\ j = bs ++ j').
Proof.
  intros Hs Hnd. split.
  { split; [intros [body Hq]; by destruct (compact_as_quote_spec fs body Hnd Hq) as (f & i & Hf & _); exists f|].
    intros [f Hf]. by apply (single_quoted fs f). }
  intros body Hq. destruct (compact_as_quote_spec fs body Hnd Hq) as (f & i & _ & Hi & _ & Ht & Hgm & Hmg).
  exists i. split_and!; [done|done|]. intros E D wf HL EA DA. split_and!.
  - done.
  - intros x bs rest Hx Hb. cbn in Hb. cbn [decode DA compact_as_decode impl_decode].
    rewrite run_try_bind, (roundtrip _ bs rest Hx Hb). simpl. by rewrite Hmg.
  - intros Hc j x j' Hrun. apply run_try_bind_ok in Hrun as (a & k & Ha & Hx). cbn in Hx. injection Hx as <- <-.
    split; [by rewrite <- Hmg, Hgm|]. cbn. rewrite Hgm. by apply canonical.
Qed.
End macro.

(** The struct [P] of the previous example. *)
Section example.
Existing Instance x86_64.

Definition P_fields : Fields :=
  FieldsUnnamed [u8_field; mkSynField [codec_attr [TIdent "skip"]] None (ident_type "u8")].

Definition inner_P : inner (Z * (Z * unit)) := mkInner Z fst (fun x => (x, (0, tt))).

(** [P(42, 9)] comes back as [P(42, 0)]. *)
Lemma derived_compact_as_spec_witness :
  run (decode (compact_as_decode (H := derived_compact_as inner_P) 2 (compact_decode CU8))) ([xa8] ++ [x01])
    = Done (Ok (42, (0, tt)), [x01]).
Proof.
  destruct (@derived_compact_as_spec (simple_syn struct_P) u8_env x86_64 P_fields 2 ltac:(done) I) as [_ Hspec].
  destruct (@compact_as_quote (simple_syn struct_P) (DataStruct P_fields)) as [[body|]|] eqn:Hq;
    [|vm_compute in Hq; discriminate..].
  destruct (Hspec body eq_refl) as (i & Hi & _ & Hcodec).
  assert (i = inner_P) as -> by (vm_compute in Hq; injection Hq as <-; injection Hi as <-; reflexivity).
  destruct (Hcodec (compact_encode CU8) (compact_decode CU8) (in_range U8) (compact_codec_laws CU8)) as (_ & Hrt & _).
  apply (Hrt (42, (9, tt)) [xa8] [x01]); [done|reflexivity].
Defined.
End example.
