(* ===== verification/IntegrationTests.v ===== *)
(** * The integration tests ([src/tests])

    Tests of the derived implementations, of the memory limit and of error
    messages, under their names and in the order of the files: [mod.rs],
    [variant_number.rs], [skip.rs], [size_hint.rs],
    [single_field_struct_encoding.rs], [max_encoded_len.rs], [chain-error.rs] and
    [mem_tracking.rs]; the tests of [mod.rs] on recursive types come last.  Tests that
    only have to compile, or that decode a hundred megabytes to watch the stack, are
    left out.  The sizes are those of a 64-bit target. *)

From S2P Require Import Prelude Ints Errors Input Discipline Output Traits Primitives Compact.
From S2P Require Import Sequences Composite Collections BitVec BytesCursor Limits MaxLen Derive.
From S2P Require Import CompactAsDerive InPlace Fuzzer Conformance CodecTests Recursive RecursiveTypes.

Section tests.
Existing Instance x86_64.

(** ** Declarations *)

Definition u8 : Encode Z * Decode Z := (prim_encode U8, prim_decode U8).
Definition u16 : Encode Z * Decode Z := (prim_encode U16, prim_decode U16).
Definition u32 : Encode Z * Decode Z := (prim_encode U32, prim_decode U32).
Definition u64 : Encode Z * Decode Z := (prim_encode U64, prim_decode U64).

(** A field, a compact one, one that is encoded as its compact type, a skipped one. *)
Definition fld {F} (name : string) (c : Encode F * Decode F) (mel : Z) : field F :=
  mkField name (FieldNone c.1 c.2) mel 0.
Definition compact_fld (name : string) (c : compact_ty) : field Z :=
  mkField name (FieldCompact (compact_encode c) id (compact_decode c) id) (prim_max_len (compact_prim c))
    (compact_max_len c).
Definition encoded_as_fld (name : string) (c : compact_ty) : field Z :=
  mkField name (FieldEncodedAs (compact_encode c) id (compact_decode c) id) (prim_max_len (compact_prim c)) 0.
Definition skip_fld {F} (name : string) (default : F) (mel : Z) : field F := mkField name (FieldSkip default) mel 0.

Definition variant_of {A} (name : string) (named : bool) (fs : fields A) : variant A :=
  mkVariant name false None None named fs.
Definition indexed_variant (name : string) (index : Z) : variant unit :=
  mkVariant name false (Some index) None false FNil.
Definition discriminant_variant (name : string) (value : Z) : variant unit :=
  mkVariant name false None (Some value) false FNil.
Definition skipped_variant {A} (name : string) (fs : fields A) : variant A := mkVariant name true None None false fs.

Definition struct_impl {A} (size_of : Z) (name : string) (named : bool) (fs : fields A) : Encode A * Decode A :=
  (struct_encode size_of fs, struct_decode size_of false name named fs).
Definition enum_impl {A} (size_of : Z) (name : string) (vs : variants A) : Encode A * Decode A :=
  (enum_encode size_of vs, enum_decode size_of name vs).

(** [value.using_encoded(|slice| assert_eq!(slice, bytes))]. *)
Definition encodes_to {A} (c : Encode A * Decode A) (value : A) (bytes : list Z) : test :=
  slice ← using_encoded c.1 value; assert_eq slice (bytes_of bytes).

(** [assert_eq!(T::decode(bytes).ok(), value)]. *)
Definition decodes_to {A} `{EqDecision A} (c : Encode A * Decode A) (bytes : list Z) (value : option A) : test :=
  r ← decode_slice c.2 (bytes_of bytes);
  assert_eq (match r with Ok x => Some x | Err _ => None end) value.

Definition codes {A} `{EqDecision A} (c : Encode A * Decode A) (value : A) (bytes : list Z) : test :=
  encodes_to c value bytes ;; decodes_to c bytes (Some value).

(** [T::decode(bytes).unwrap_err().to_string()]. *)
Definition fails_with {A} (c : Encode A * Decode A) (bytes : list Z) (message : string) : test :=
  r ← decode_slice c.2 (bytes_of bytes); e ← unwrap_err r; assert_eq (fmt e) message.

(** ** [mod.rs] *)

Definition Unit : Encode unit * Decode unit := struct_impl 0 "Unit" false FNil.
Definition Indexed : Encode (Z * (Z * unit)) * Decode (Z * (Z * unit)) :=
  struct_impl 16 "Indexed" false (FCons (fld "0" u32 4) (FCons (fld "1" u64 8) FNil)).
Definition TestType : Encode (Z * (Z * (list Z * unit))) * Decode (Z * (Z * (list Z * unit))) :=
  struct_impl 40 "Struct" true
    (FCons (fld "a" u32 4) (FCons (fld "b" u64 8)
      (FCons (fld "c" (vec_encode (prim_encode U8), vec_decode (prim_decode U8)) 0) FNil))).
Definition Struct_u32 : Encode (Z * (Z * (Z * unit))) * Decode (Z * (Z * (Z * unit))) :=
  struct_impl 12 "Struct" true (FCons (fld "a" u32 4) (FCons (fld "b" u32 4) (FCons (fld "c" u32 4) FNil))).
Definition EnumType_variants : variants (unit + (Z * (Z * unit) + (Z * (Z * unit) + Empty_set))) :=
  VCons (indexed_variant "A" 15)
    (VCons (variant_of "B" false (FCons (fld "0" u32 4) (FCons (fld "1" u64 8) FNil)))
      (VCons (variant_of "C" true (FCons (fld "a" u32 4) (FCons (fld "b" u64 8) FNil))) VNil)).
Definition EnumType : Encode _ * Decode _ := enum_impl 16 "EnumType" EnumType_variants.
Definition EnumWithDiscriminant : Encode _ * Decode _ :=
  enum_impl 1 "EnumWithDiscriminant"
    (VCons (discriminant_variant "A" 1) (VCons (discriminant_variant "B" 15) (VCons (discriminant_variant "C" 255) VNil))).

Definition should_work_for_simple_enum : test :=
  codes EnumType (inl tt) [15] ;;
  codes EnumType (inr (inl (1, (2, tt)))) [1; 1; 0; 0; 0; 2; 0; 0; 0; 0; 0; 0; 0] ;;
  codes EnumType (inr (inr (inl (1, (2, tt))))) [2; 1; 0; 0; 0; 2; 0; 0; 0; 0; 0; 0; 0] ;;
  decodes_to EnumType [0] None.

Definition should_work_for_enum_with_discriminant : test :=
  codes EnumWithDiscriminant (inl tt) [1] ;;
  codes EnumWithDiscriminant (inr (inl tt)) [15] ;;
  codes EnumWithDiscriminant (inr (inr (inl tt))) [255] ;;
  decodes_to EnumWithDiscriminant [2] None.

Definition hello_world_bytes : list Z := [15; 0; 0; 0; 9; 0; 0; 0; 0; 0; 0; 0; 44] ++ str "Hello world".
Definition should_derive_encode : test := encodes_to TestType (15, (9, (str "Hello world", tt))) hello_world_bytes.
Definition should_derive_decode : test :=
  decodes_to TestType hello_world_bytes (Some (15, (9, (str "Hello world", tt)))).
Definition should_work_for_unit : test := codes Unit tt [].
Definition should_work_for_indexed : test := codes Indexed (1, (2, tt)) [1; 0; 0; 0; 2; 0; 0; 0; 0; 0; 0; 0].

(** [#[should_panic(expected = "Not enough data to fill buffer")]]: a part of the message. *)
Definition not_enough_data_at {A} (c : Encode A * Decode A) (bytes : list Z) (field_name : string) : test :=
  fails_with c bytes ("Could not decode `" +:+ field_name +:+ "`:" +:+ NL +:+ TAB +:+
    "Not enough data to fill buffer" +:+ NL).

Definition correct_error_for_indexed_0 : test := not_enough_data_at Indexed [8] "Indexed.0".
Definition correct_error_for_indexed_1 : test := not_enough_data_at Indexed [0; 0; 0; 0; 1] "Indexed.1".
Definition correct_error_for_enumtype : test := not_enough_data_at EnumType [1] "EnumType::B.0".
Definition correct_error_for_named_struct_1 : test := not_enough_data_at Struct_u32 [1] "Struct::a".
Definition correct_error_for_named_struct_2 : test := not_enough_data_at Struct_u32 [0; 0; 0; 0; 1] "Struct::b".

Definition U64_TEST_COMPACT_VALUES : list (Z * Z) :=
  [(0, 1); (63, 1); (64, 2); (16383, 2); (16384, 4); (1073741823, 4); (1073741824, 5); (2 ^ 31, 5); (2 ^ 32, 6);
   (2 ^ 40, 7); (2 ^ 48, 8); (2 ^ 55, 8); (2 ^ 56, 9); (prim_max U64, 9)].

Definition has_length {A} `{EqDecision A} (c : Encode A * Decode A) (d : Decode A) (value : A) (l : Z) : test :=
  encoded ← encode c.1 value;
  assert_eq (zlen encoded) l ;;
  r ← decode_slice d encoded;
  decoded ← unwrap r;
  assert_eq decoded value.

Definition TestHasCompact := struct_impl 8 "TestHasCompact" true (FCons (encoded_as_fld "bar" CU64) FNil).
Definition TestCompactHasCompact := struct_impl 8 "TestCompactHasCompact" true (FCons (compact_fld "bar" CU64) FNil).
Definition TestCompactAttribute := struct_impl 8 "TestCompactAttribute" true (FCons (compact_fld "bar" CU64) FNil).
Definition TestHasCompactEnum :=
  enum_impl 16 "TestHasCompactEnum"
    (VCons (variant_of "Unnamed" false (FCons (encoded_as_fld "0" CU64) FNil))
      (VCons (variant_of "Named" true (FCons (encoded_as_fld "bar" CU64) FNil))
        (VCons (variant_of "UnnamedCompact" false (FCons (compact_fld "0" CU64) FNil))
          (VCons (variant_of "NamedCompact" true (FCons (compact_fld "bar" CU64) FNil)) VNil)))).
Definition TestCompactAttributeEnum :=
  enum_impl 16 "TestCompactAttributeEnum"
    (VCons (variant_of "Unnamed" false (FCons (compact_fld "0" CU64) FNil))
      (VCons (variant_of "Named" true (FCons (compact_fld "bar" CU64) FNil)) VNil)).

Definition encoded_as_with_has_compact_works : test :=
  for_each U64_TEST_COMPACT_VALUES (fun '(n, l) => has_length TestHasCompact TestHasCompact.2 (n, tt) l).
Definition compact_with_has_compact_works : test :=
  for_each U64_TEST_COMPACT_VALUES (fun '(n, l) => has_length TestHasCompact TestCompactHasCompact.2 (n, tt) l).
Definition enum_compact_and_encoded_as_with_has_compact_works : test :=
  for_each U64_TEST_COMPACT_VALUES (fun '(n, l) =>
    for_each [inl (n, tt); inr (inl (n, tt)); inr (inr (inl (n, tt))); inr (inr (inr (inl (n, tt))))]
      (fun value => has_length TestHasCompactEnum TestHasCompactEnum.2 value (l + 1))).
Definition compact_meta_attribute_works : test :=
  for_each U64_TEST_COMPACT_VALUES (fun '(n, l) => has_length TestCompactAttribute TestCompactAttribute.2 (n, tt) l).
Definition enum_compact_meta_attribute_works : test :=
  for_each U64_TEST_COMPACT_VALUES (fun '(n, l) =>
    for_each [inl (n, tt); inr (inl (n, tt))]
      (fun value => has_length TestCompactAttributeEnum TestCompactAttributeEnum.2 value (l + 1))).

Definition encode_decode_empty_enum : test :=
  fails_with (enum_impl 0 "EmptyEnumDerive" VNil) [1; 2; 3] "Could not decode `EmptyEnumDerive`, variant doesn't exist".

Definition codec_vec_u8 : test :=
  for_each [0; 10; 100; 1000]%nat (fun n =>
    let v := repeat 0 n in
    e ← encode (vec_encode (prim_encode U8)) v;
    r ← decode_slice (vec_decode (prim_decode U8)) e;
    d ← unwrap r;
    assert_eq v d).

Definition crafted_input_for_vec (p : prim) : test :=
  e ← encode (compact_encode CU32) (prim_max U32);
  r ← decode_slice (vec_decode (prim_decode p)) e;
  e ← unwrap_err r;
  assert_eq (fmt e) "Not enough data to decode vector".
Definition crafted_input_for_vec_u8 : test := crafted_input_for_vec U8.
Definition crafted_input_for_vec_t : test := crafted_input_for_vec U32.

(** [let data = &[1, 2, 3, 4]; SmallArraysBox::decode(&mut data)]. *)
Definition small_array : Encode (list Z) * Decode (list Z) :=
  (array_encode (prim_encode U8) 2, array_decode (prim_decode U8) 2).
Definition SmallArrays := struct_impl 4 "SmallArrays" false (FCons (fld "0" small_array 0) (FCons (fld "1" small_array 0) FNil)).
Definition SmallArraysBox :=
  struct_impl 8 "SmallArraysBox" false
    (FCons (fld "0" (pointer_encode SmallArrays.1, box_decode SmallArrays.2) 0) FNil).
Definition decoding_two_indirectly_boxed_arrays_works : test :=
  decodes_to SmallArraysBox [1; 2; 3; 4] (Some (([1; 2], ([3; 4], tt)), tt)).

(** A type that reads a byte and has no size; the struct is [#[repr(transparent)]]. *)
Definition ConsumeByte : Decode unit := impl_decode 0 (dec_map (fun _ => tt) (read 1)).
Definition zst_field (name : string) (d : Decode unit) : field unit := mkField name (FieldNone unit_encode d) 0 0.
Definition NewtypeWithZst : Decode (unit * (unit * (unit * (list Z * (unit * unit))))) :=
  struct_decode 1 true "NewtypeWithZst" true
    (FCons (zst_field "_zst_1" ConsumeByte)
      (FCons (zst_field "_zst_2" (struct_decode 0 true "ZstTransparent" false FNil))
        (FCons (zst_field "_zst_3" (struct_decode 0 false "ZstNonTransparent" false FNil))
          (FCons (fld "field" (array_encode (prim_encode U8) 1, array_decode (prim_decode U8) 1) 0)
            (FCons (zst_field "_zst_4" ConsumeByte) FNil))))).
Definition zero_sized_types_are_properly_decoded_in_a_transparent_boxed_struct : test :=
  r ← decode_slice NewtypeWithZst (bytes_of [1; 2; 3]);
  x ← unwrap r;
  assert_eq (x.2.2.2.1) [2].

Definition Zst : Decode unit := struct_decode 0 true "Zst" false FNil.
Definition boxed_zero_sized_newtype_with_everything_being_transparent_is_decoded_correctly : test :=
  r ← decode_slice (struct_decode 0 true "NewtypeWithZst" false (FCons (zst_field "0" Zst) FNil)) [];
  assert (is_ok r).

(** [assert!(<[Foobar; 4]>::decode(&mut [1, 2, 3]).is_err())], with the number of
    items that have been dropped. *)
Definition Foobar_fields : fields (Z * unit) := FCons (fld "0" u8 1) FNil.
Definition Foobar : Decode (Z * unit) := struct_decode 1 false "Foobar" false Foobar_fields.
Definition dropped (m : memory) : nat := (next m - size (live m))%nat.
Definition incomplete_decoding_of_an_array_drops_partially_read_elements_if_reading_fails : test :=
  match decode_uninit (array_place Foobar (leaf_place true Foobar) 4) (mkMemory 0 ∅) (bytes_of [1; 2; 3]) with
  | Returned (Err _) _ m _ => assert_eq (dropped m) 3%nat
  | _ => Panic "assertion failed"
  end.

(** The same with an [unwrap] in the decoder, which panics. *)
Definition PanickingFoobar : Decode Z :=
  impl_decode 1 (prog_bind (decode (prim_decode U8)) (fun r =>
    match r with Ok x => ok x | Err _ => Halt "called `Result::unwrap()` on an `Err` value" end)).
Definition incomplete_decoding_of_an_array_drops_partially_read_elements_if_reading_panics : test :=
  match decode_uninit (array_place PanickingFoobar (leaf_place true PanickingFoobar) 4) (mkMemory 0 ∅)
          (bytes_of [1; 2; 3]) with
  | Unwound _ _ m => assert_eq (dropped m) 3%nat
  | _ => Panic "assertion failed"
  end.

(** ** [variant_number.rs] *)

Definition T_encodes {A} (size_of : Z) (vs : variants A) (value : A) (bytes : list Z) : test :=
  encoded ← encode (enum_encode size_of vs) value; assert_eq encoded (bytes_of bytes).

Definition discriminant_variant_counted_in_default_index : test :=
  let T := VCons (discriminant_variant "A" 1) (VCons (variant_of "B" false FNil) VNil) in
  T_encodes 1 T (inl tt) [1] ;; T_encodes 1 T (inr (inl tt)) [1].

Definition skipped_variant_not_counted_in_default_index : test :=
  let T := VCons (skipped_variant "A" FNil) (VCons (variant_of "B" false FNil) VNil) in
  T_encodes 1 T (inl tt) [] ;; T_encodes 1 T (inr (inl tt)) [0].

Definition index_attr_variant_counted_and_reused_in_default_index : test :=
  let T := VCons (indexed_variant "A" 1) (VCons (variant_of "B" false FNil) VNil) in
  T_encodes 1 T (inl tt) [1] ;; T_encodes 1 T (inr (inl tt)) [1].

(** ** [skip.rs] *)

Definition Enum_variants : variants (unit * unit + (unit * (Z * unit) + (unit * (Z * unit) + Empty_set))) :=
  VCons (skipped_variant "A" (FCons (skip_fld "0" tt 0) FNil))
    (VCons (variant_of "B" true (FCons (skip_fld "_b1" tt 0) (FCons (fld "b2" u32 4) FNil)))
      (VCons (variant_of "C" false (FCons (skip_fld "0" tt 0) (FCons (fld "1" u32 4) FNil))) VNil)).
Definition StructNamed_fields : fields (unit * (Z * unit)) := FCons (skip_fld "a" tt 0) (FCons (fld "b" u32 4) FNil).
Definition StructUnnamed_fields : fields (unit * (Z * unit)) := FCons (skip_fld "0" tt 0) (FCons (fld "1" u32 4) FNil).

Definition codes_back {A} `{EqDecision A} (c : Encode A * Decode A) (value : A) : test :=
  encoded ← encode c.1 value; r ← decode_slice c.2 encoded; d ← unwrap r; assert_eq d value.

Definition enum_struct_test : test :=
  let Enum := enum_impl 8 "Enum" Enum_variants in
  T_encodes 8 Enum_variants (inl (tt, tt)) [] ;;
  codes_back Enum (inr (inl (tt, (1, tt)))) ;;
  codes_back Enum (inr (inr (inl (tt, (1, tt))))) ;;
  codes_back (struct_impl 4 "StructNamed" true StructNamed_fields) (tt, (1, tt)) ;;
  codes_back (struct_impl 4 "StructUnnamed" false StructUnnamed_fields) (tt, (1, tt)).

Definition skip_enum_struct_inner_variant : test :=
  let Enum := VCons (variant_of "Data" true (FCons (fld "some_named" u32 4) (FCons (skip_fld "ignore" (None : option Z) 0) FNil))) VNil in
  T_encodes 12 Enum (inl (1, (Some 1, tt))) [0; 1; 0; 0; 0].

(** ** [size_hint.rs] *)

Definition hints {A} (E : Encode A) (v : A) (hint : Z) : test := h ← size_hint E v; assert_eq h hint.

Definition hinted_fields : fields (list Z * (list Z * (Z * unit))) :=
  FCons (fld "a" (string_encode, string_decode) 0)
    (FCons (fld "b" (vec_encode (prim_encode I32), vec_decode (prim_decode I32)) 0) (FCons (skip_fld "c" 0 4) FNil)).
Definition size_hint_for_struct : test := hints (struct_encode 56 hinted_fields) (str "foo", ([1; 2; 3], (0, tt))) 23.
Definition size_hint_for_tuple_struct : test :=
  hints (struct_encode 56 hinted_fields) (str "foo", ([1; 2; 3], (0, tt))) 23.
Definition size_hint_for_unit_struct : test := hints Unit.1 tt 0.
Definition size_hint_for_simple_enum : test :=
  hints EnumType.1 (inl tt) 1 ;;
  hints EnumType.1 (inr (inl (1, (2, tt)))) 13 ;;
  hints EnumType.1 (inr (inr (inl (0, (0, tt))))) 13.
Definition size_hint_for_enum_with_discriminant : test :=
  for_each [inl tt; inr (inl tt); inr (inr (inl tt))] (fun v => hints EnumWithDiscriminant.1 v 1).

(** ** [single_field_struct_encoding.rs] *)

Definition single_codes {A} `{EqDecision A} (fs : fields A) (value : A) (bytes : list Z) : test :=
  let c := struct_impl 4 "S" true fs in
  encoded ← encode c.1 value;
  assert_eq encoded (bytes_of bytes) ;;
  decodes_to c bytes (Some value).

Definition skipped_around : fields (Z * (Z * (Z * unit))) :=
  FCons (skip_fld "s1" 0 4) (FCons (fld "x" u32 4) (FCons (skip_fld "s2" 0 4) FNil)).
Definition one_field : fields (Z * unit) := FCons (fld "0" u32 4) FNil.

(** A compact field whose type is a struct that derives [CompactAs]. *)
Definition compact_as_fields {A} (i : inner A) (E : Encode (inner_ty i)) (D : Decode (inner_ty i)) : fields (A * unit) :=
  FCons (mkField "0" (FieldCompact (compact_as_encode (H0 := derived_compact_as i) E) id
                        (compact_as_decode (H := derived_compact_as i) 4 D) id) 0 0) FNil.
Definition one_inner : inner (Z * unit) := mkInner Z fst (fun x => (x, tt)).
Definition around_inner : inner (Z * (Z * (Z * unit))) := mkInner Z (fun x => x.2.1) (fun x => (0, (x, (0, tt)))).

Definition test_encoding : test :=
  let x := 3 in
  single_codes (FCons (fld "x" u32 4) FNil) (x, tt) [3; 0; 0; 0] ;;
  single_codes skipped_around (0, (x, (0, tt))) [3; 0; 0; 0] ;;
  single_codes (FCons (compact_fld "x" CU32) FNil) (x, tt) [12] ;;
  single_codes (FCons (encoded_as_fld "x" CU32) FNil) (x, tt) [12] ;;
  single_codes one_field (x, tt) [3; 0; 0; 0] ;;
  codes (compact_as_encode (H0 := derived_compact_as one_inner) (compact_encode CU32),
         compact_as_decode (H := derived_compact_as one_inner) 4 (compact_decode CU32)) (x, tt) [12] ;;
  single_codes (compact_as_fields one_inner (compact_encode CU32) (compact_decode CU32)) ((x, tt), tt) [12] ;;
  single_codes (compact_as_fields around_inner (compact_encode CU32) (compact_decode CU32)) ((0, (x, (0, tt))), tt) [12].

(** ** [max_encoded_len.rs] *)

(** A field of a type with the given [max_encoded_len]; its implementations do not matter. *)
Definition mel_fld (name : string) (mel : Z) : field Z := fld name u8 mel.

Definition struct_max {A} (fs : fields A) (n : Z) : test := assert_eq (struct_max_len fs) n.
Definition enum_max {A} (vs : variants A) (n : Z) : test := assert_eq (enum_max_len vs) n.

Definition primitives_max_length : test :=
  struct_max (FCons (mel_fld "bool" bool_max_len) (FCons (mel_fld "eight" (prim_max_len U8)) FNil)) 2.
Definition skipped_field_max_length : test :=
  struct_max (FCons (mel_fld "bool" bool_max_len) (FCons (skip_fld "_skipped" 0 (prim_max_len U64)) FNil)) 1.
Definition composites_max_length : test :=
  struct_max (FCons (mel_fld "fixed_size_array" (array_max_len (prim_max_len U8) 128))
    (FCons (mel_fld "tuple" (tuple_max_len [prim_max_len U128; prim_max_len U128])) FNil)) (128 + 16 + 16).
Definition generic_max_length : test :=
  for_each [U8; U32] (fun p =>
    struct_max (FCons (mel_fld "one" (prim_max_len p)) (FCons (mel_fld "two" (prim_max_len p)) FNil)) (prim_max_len p * 2)).
Definition CompactField : fields (Z * (Z * unit)) :=
  FCons (compact_fld "t" CU64) (FCons (mel_fld "v" (prim_max_len U64)) FNil).
Definition compact_field_max_length : test :=
  struct_max CompactField 17 ;; struct_max CompactField (compact_max_len CU64 + prim_max_len U64).
Definition compact_struct_max_length : test := struct_max (FCons (compact_fld "0" CU64) FNil) (compact_max_len CU64).
Definition two_generics (t u : Z) : test :=
  struct_max (FCons (mel_fld "t" t) (FCons (mel_fld "u" u) FNil)) (t + u).
Definition two_generics_max_length : test :=
  two_generics (prim_max_len U8) (prim_max_len U16) ;;
  two_generics (compact_max_len CU64) (array_max_len (prim_max_len U16) 8).
Definition unit_struct_max_length : test := struct_max FNil 0.
Definition tuple_struct_max_length : test := two_generics (prim_max_len U8) (prim_max_len U32).
Definition tuple_generic_max_length : test :=
  for_each [U8; U32] (fun p => two_generics (prim_max_len p) (prim_max_len p)).
(** [SomeVec<u64, ConstU32<N>>], whose [max_encoded_len] is written by hand. *)
Definition SomeVec_max_len (t N : Z) : Z := t * N.
Definition some_vec_max_length : test :=
  assert_eq (SomeVec_max_len (prim_max_len U64) 3) (prim_max_len U64 * 3) ;;
  struct_max (FCons (mel_fld "vec" (SomeVec_max_len (prim_max_len U64) 5)) FNil) (prim_max_len U64 * 5).
Definition unit_variant (name : string) : variant unit := variant_of name false FNil.
Definition unit_enum_max_length : test := enum_max (VCons (unit_variant "A") (VCons (unit_variant "B") VNil)) 1.
Definition tuple_enum_max_length : test :=
  enum_max (VCons (variant_of "A" false (FCons (mel_fld "0" (prim_max_len U32)) FNil)) (VCons (unit_variant "B") VNil))
    (1 + prim_max_len U32).
Definition struct_enum_max_length : test :=
  enum_max (VCons (variant_of "A" true (FCons (mel_fld "sixty_four" (prim_max_len U64))
      (FCons (mel_fld "one_twenty_eight" (prim_max_len U128)) FNil))) (VCons (unit_variant "B") VNil))
    (1 + prim_max_len U64 + prim_max_len U128).
Definition enum_max_not_sum_max_length : test :=
  let v name := variant_of name false (FCons (mel_fld "0" (prim_max_len U32)) FNil) in
  enum_max (VCons (v "A"%string) (VCons (v "B"%string) VNil)) (1 + prim_max_len U32).
Definition skip_enum_struct_max_length : test :=
  enum_max Enum_variants 5 ;; struct_max StructNamed_fields 4 ;; struct_max StructUnnamed_fields 4.

(** ** [chain-error.rs] *)

Definition Wrapper {A} (c : Encode A * Decode A) := struct_impl 2 "Wrapper" false (FCons (fld "0" c 0) FNil).
Definition E_enum :=
  enum_impl 4 "E" (VCons (variant_of "VariantNamed" true (FCons (fld "_foo" u16 2) FNil))
    (VCons (variant_of "VariantUnnamed" false (FCons (fld "0" u16 2) FNil)) VNil)).

Definition nested_message (outer inner : string) : string :=
  "Could not decode `" +:+ outer +:+ "`:" +:+ NL +:+ TAB +:+ "Could not decode `" +:+ inner +:+ "`:" +:+ NL +:+
  TAB +:+ TAB +:+ "Not enough data to fill buffer" +:+ NL.

Definition full_error_struct_named : test :=
  fails_with (Wrapper (struct_impl 2 "StructNamed" true (FCons (fld "_foo" u16 2) FNil))) [0]
    (nested_message "Wrapper.0" "StructNamed::_foo").
Definition full_error_struct_unnamed : test :=
  fails_with (Wrapper (struct_impl 2 "StructUnnamed" false (FCons (fld "0" u16 2) FNil))) [0]
    (nested_message "Wrapper.0" "StructUnnamed.0").
Definition full_error_enum_unknown_variant : test :=
  fails_with E_enum [2] "Could not decode `E`, variant doesn't exist".
Definition full_error_enum_named_field : test := not_enough_data_at E_enum [0; 0] "E::VariantNamed::_foo".
Definition full_error_enum_unnamed_field : test := not_enough_data_at E_enum [1; 0] "E::VariantUnnamed.0".

(** ** [mem_tracking.rs] *)

(** [MemTrackingInput::new(raw_input, mem_limit)], [T::decode(&mut input)], and the
    input afterwards. *)
Definition decode_tracked {T} (D : Decode T) (mem_limit : Z) (bytes : list byte) : outcome (Result T Error * Z) :=
  '(r, input, _) ← run (interp mem_tracking_input (decode D) (MemTracking_new mem_limit)) bytes;
  Done (r, used_mem input).

Definition decode_object {T V} `{EqDecision V} (c : Encode T * Decode T) (view : T -> V) (obj : T)
    (mem_limit expected_used_mem : Z) : outcome (Result T Error) :=
  encoded_bytes ← encode c.1 obj;
  '(r, _) ← run (decode_with_mem_limit c.2 mem_limit) encoded_bytes;
  match r with
  | Err e => Done (Err e)
  | Ok decoded_obj =>
      assert_eq (view decoded_obj) (view obj) ;;
      '(r, used) ← decode_tracked c.2 mem_limit encoded_bytes;
      match r with
      | Err e => Done (Err e)
      | Ok decoded_obj =>
          assert_eq (view decoded_obj) (view obj) ;;
          assert_eq used expected_used_mem ;;
          (if 0 <? expected_used_mem then
             '(r, _) ← decode_tracked c.2 expected_used_mem encoded_bytes; assert (is_err r)
           else Done tt) ;;
          Done (Ok decoded_obj)
      end
  end.

(** [assert!(decode_object(obj, usize::MAX, used).is_ok())]. *)
Definition uses_mem {T} `{EqDecision T} (c : Encode T * Decode T) (obj : T) (used : Z) : test :=
  r ← decode_object c id obj usize_max used; assert (is_ok r).

Definition ARRAY : list Z := repeat 11 1000.
Definition byte_array (n : nat) : Encode (list Z) * Decode (list Z) :=
  (array_encode (prim_encode U8) n, array_decode (prim_decode U8) n).
Definition array_impl : Encode (list Z) * Decode (list Z) := byte_array 1000.
Definition vec_of {T} (c : Encode T * Decode T) : Encode (list T) * Decode (list T) := (vec_encode c.1, vec_decode c.2).
Definition string_impl : Encode (list Z) * Decode (list Z) := (string_encode, string_decode).
Definition box_of {T} (c : Encode T * Decode T) : Encode T * Decode T := (pointer_encode c.1, box_decode c.2).
Definition rc_of {T} (c : Encode T * Decode T) : Encode T * Decode T := (pointer_encode c.1, rc_decode c.2).

Definition decode_simple_objects_works : test :=
  uses_mem array_impl ARRAY 0 ;;
  uses_mem (option_encode 1001 array_impl.1, option_decode 1001 array_impl.2) (Some ARRAY) 0 ;;
  uses_mem (tuple_encode 2000 array_impl.1 array_impl.1, tuple_decode 2000 array_impl.2 array_impl.2) (ARRAY, ARRAY) 0 ;;
  uses_mem u8 1 0 ;;
  uses_mem u32 1 0 ;;
  uses_mem (prim_encode F64, prim_decode F64) 0x3ff0000000000000 0 ;;
  uses_mem (box_of array_impl) ARRAY 1000 ;;
  uses_mem (rc_of array_impl) ARRAY 1000 ;;
  uses_mem (vec_of array_impl) [ARRAY; ARRAY; ARRAY] 3000 ;;
  (r ← decode_object (vec_deque_encode array_impl.1, vec_deque_decode array_impl.2) deque_items
         ([ARRAY; ARRAY; ARRAY; ARRAY; ARRAY], []) usize_max 5000; assert (is_ok r)) ;;
  uses_mem string_impl (str "test") 4 ;;
  uses_mem (btree_map_encode 2 u8.1 u8.1, btree_map_decode 2 40 u8.2 u8.2) [(1, 2); (2, 3)] 40 ;;
  uses_mem (btree_map_encode 48 string_encode string_encode, btree_map_decode 48 544 string_decode string_decode)
    [(str "key1", str "value1"); (str "key2", str "value2")] 564 ;;
  uses_mem (btree_set_encode u8.1, btree_set_decode 24 u8.2) [1; 2; 3; 4; 5] 24 ;;
  uses_mem (linked_list_encode u8.1, linked_list_decode 24 u8.2) [1; 2; 3; 4; 5] 120.

Definition decode_complex_objects_works : test :=
  uses_mem (vec_of (vec_of (vec_of (vec_of (vec_of u8))))) [[[[[1]]]]] 97 ;;
  uses_mem (box_of (rc_of (vec_of string_impl))) [str "test"] 60.

Definition TestEnum := enum_impl 1001 "TestEnum"
  (VCons (unit_variant "Empty") (VCons (variant_of "Array" false (FCons (fld "0" array_impl 0) FNil)) VNil)).
Definition ComplexStruct := struct_impl 1048 "ComplexStruct" true
  (FCons (fld "test_enum" TestEnum 0) (FCons (fld "boxed_test_enum" (box_of TestEnum) 0)
    (FCons (fld "box_field" (box_of u32) 0) (FCons (fld "vec" (vec_of u8) 0) FNil)))).
Definition complex_struct
    : (unit + (list Z * unit + Empty_set)) * ((unit + (list Z * unit + Empty_set)) * (Z * (list Z * unit))) :=
  (inr (inl (repeat 0 1000, tt)), (inl tt, (1, (repeat 1 10, tt)))).
Definition decode_complex_derived_struct_works : test := uses_mem ComplexStruct complex_struct 1015.

Definition exceeds {T} `{EqDecision T} (c : Encode T * Decode T) (obj : T) (limit : Z) (message : string) : test :=
  r ← decode_object c id obj limit limit; e ← unwrap_err r; assert_eq (fmt e) message.
Definition mem_limit_exceeded_is_triggered : test :=
  exceeds (box_of array_impl) ARRAY 999 "Heap memory limit exceeded while decoding" ;;
  exceeds ComplexStruct complex_struct 1014
    ("Could not decode `ComplexStruct::vec`:" +:+ NL +:+ TAB +:+ "Heap memory limit exceeded while decoding" +:+ NL).

(** ** Recursive types *)

(** The implementations on a stack with room for a hundred nested calls. *)
Definition frames : nat := 100.

Definition recursive_variant_1_encode_works : test :=
  _ ← encode (encode_frames (Recursive_type 32) frames) (mkRecursive 0 []); Done tt.

Fixpoint units_eqb (n : nat) : units n -> units n -> bool :=
  match n with
  | O => fun _ _ => true
  | S n => fun x y =>
      match x, y with
      | inl _, inl _ => true
      | inr x, inr y => units_eqb n x y
      | _, _ => false
      end
  end.

(** [#[derive(PartialEq)]]. *)
Fixpoint Enum_eq (x y : Enum) : bool :=
  match x, y with
  | Enum_Nested xs, Enum_Nested ys =>
      (fix all_eq (xs ys : list Enum) : bool :=
         match xs, ys with
         | [], [] => true
         | x :: xs, y :: ys => Enum_eq x y && all_eq xs ys
         | _, _ => false
         end) xs ys
  | Enum_Data x, Enum_Data y => bool_decide (x = y)
  | Enum_Variant x, Enum_Variant y => units_eqb 41 x y
  | _, _ => false
  end.

Fixpoint gen_dummy_data (depth_remaining : nat) : Enum :=
  Enum_Nested
    (Enum_Data (repeat 0 1472) ::
     match depth_remaining with
     | O => []
     | S depth_remaining => [gen_dummy_data depth_remaining]
     end).

Definition deserializing_of_big_recursively_nested_enum_works : test :=
  let obj := gen_dummy_data 32 in
  data ← encode (encode_frames (Enum_type 1480) frames) obj;
  r ← decode_slice (decode_frames (Enum_type 1480) frames) data;
  obj_d ← unwrap r;
  assert (Enum_eq obj obj_d) ;;
  '(r, _) ← run (decode_with_depth_limit 40 (decode_frames (Enum_type 1480) frames)) data;
  obj_d2 ← unwrap r;
  assert (Enum_eq obj obj_d2).

Definition integration_tests : list test :=
  [should_work_for_simple_enum; should_work_for_enum_with_discriminant; should_derive_encode;
   should_derive_decode; should_work_for_unit; should_work_for_indexed; correct_error_for_indexed_0;
   correct_error_for_indexed_1; correct_error_for_enumtype; correct_error_for_named_struct_1;
   correct_error_for_named_struct_2; encoded_as_with_has_compact_works; compact_with_has_compact_works;
   enum_compact_and_encoded_as_with_has_compact_works; compact_meta_attribute_works;
   enum_compact_meta_attribute_works; encode_decode_empty_enum; codec_vec_u8; crafted_input_for_vec_u8;
   crafted_input_for_vec_t; decoding_two_indirectly_boxed_arrays_works;
   zero_sized_types_are_properly_decoded_in_a_transparent_boxed_struct;
   boxed_zero_sized_newtype_with_everything_being_transparent_is_decoded_correctly;
   incomplete_decoding_of_an_array_drops_partially_read_elements_if_reading_fails;
   incomplete_decoding_of_an_array_drops_partially_read_elements_if_reading_panics;
   discriminant_variant_counted_in_default_index; skipped_variant_not_counted_in_default_index;
   index_attr_variant_counted_and_reused_in_default_index; enum_struct_test; skip_enum_struct_inner_variant;
   size_hint_for_struct; size_hint_for_tuple_struct; size_hint_for_unit_struct; size_hint_for_simple_enum;
   size_hint_for_enum_with_discriminant; test_encoding; primitives_max_length; skipped_field_max_length;
   composites_max_length; generic_max_length; compact_field_max_length; compact_struct_max_length;
   two_generics_max_length; unit_struct_max_length; tuple_struct_max_length; tuple_generic_max_length;
   some_vec_max_length; unit_enum_max_length; tuple_enum_max_length; struct_enum_max_length;
   enum_max_not_sum_max_length; skip_enum_struct_max_length; full_error_struct_named;
   full_error_struct_unnamed; full_error_enum_unknown_variant; full_error_enum_named_field;
   full_error_enum_unnamed_field; decode_simple_objects_works; decode_complex_objects_works;
   decode_complex_derived_struct_works; mem_limit_exceeded_is_triggered;
   recursive_variant_1_encode_works; deserializing_of_big_recursively_nested_enum_works].
End tests.

(** A validation of the model: it passes the integration tests that are transcribed
    here.  The bytes of derived types with every attribute, the numbering of variants,
    size hints, maximal lengths, the texts of errors, the number of items that are
    dropped when an array is not decoded, and the memory that is tracked are what the
    tests expect. *)
Theorem integration_tests_pass : Forall passes integration_tests.
Proof. repeat (apply Forall_cons_2; [by vm_compute|]). apply Forall_nil_2. Qed.
