(* ===== verification/Correctness.v ===== *)
(** * Correctness of the codec

    The main properties of the compact integers, sequences, composite types and
    collections, stated for the public methods of the crate, each with an
    instance at concrete values. *)

From S2P Require Import Prelude Ints Errors Input Discipline Output Traits Primitives Compact.
From S2P Require Import CompactTheory Sequences SequencesTheory Composite Collections Limits.

#[local] Existing Instance x86_64 | 100.

(** Encodings, from the method [encode]. *)
Lemma encode_wbytes `{Target} {T} (E : Encode T) wf `{!EncodeLaws E wf} x bs :
  encode E x = Done bs -> wbytes (encode_to E x) = Done bs.
Proof. apply encode_sound. Qed.

Lemma encode_decode `{Target} {T} (E : Encode T) D wf (Hlaws : CodecLaws E D wf) x bs rest :
  wf x -> encode E x = Done bs -> run (decode D) (bs ++ rest) = Done (Ok x, rest).
Proof. intros Hx Hb%encode_sound. by apply roundtrip. Qed.

(** A canonical codec accepts exactly the encodings of well-formed values. *)
Lemma accepts_encodings `{Target} {T} (E : Encode T) D wf i x i' :
  CodecLaws E D wf -> Canonical E D ->
  run (decode D) i = Done (Ok x, i') <->
  wf x /\ exists bs, wbytes (encode_to E x) = Done bs /\ i = bs ++ i'.
Proof.
  intros HC Hcan. split.
  - intros Hrun. split; [by eapply (decode_wf D wf)|by apply canonical].
  - intros [Hx (bs & Hb & ->)]. by apply roundtrip.
Qed.

(** ** Compact integers *)

Section compact.
Context `{Target}.

Lemma encode_compact c x :
  in_range (compact_prim c) x -> encode (compact_encode c) x = Done (compact_spec x).
Proof.
  intros Hx. apply (encode_complete (E := compact_encode c) x (compact_len c x)); [done|done| |].
  - pose proof (compact_len_capacity c x Hx). pose proof isize_max_ge.
    assert (compact_capacity c <= 17) by by destruct c. lia.
  - by apply wbytes_compact.
Qed.

(** C1: every integer of a type with a compact encoding is encoded, in exactly
    [compact_len] bytes, and the decoder of the type reads it back and leaves
    what follows. *)
Theorem compact_encode_decode c x rest :
  in_range (compact_prim c) x ->
  exists bs, encode (compact_encode c) x = Done bs /\ zlen bs = compact_len c x /\
    run (decode (compact_decode c)) (bs ++ rest) = Done (Ok x, rest).
Proof.
  intros Hx. exists (compact_spec x). split_and!.
  - by apply encode_compact.
  - by apply zlen_compact_spec.
  - by apply run_compact_decode.
Qed.

(** C2: a compact integer has one encoding only: whatever a decoder accepts is
    the encoding of the integer it returns, which is in the range of the type. *)
Theorem compact_decode_canonical c i x i' :
  run (decode (compact_decode c)) i = Done (Ok x, i') ->
  in_range (compact_prim c) x /\ exists bs, encode (compact_encode c) x = Done bs /\ i = bs ++ i'.
Proof.
  intros [Hx ->]%compact_decode_inv. split; [done|]. exists (compact_spec x). split; [|done].
  by apply encode_compact.
Qed.
End compact.

Lemma compact_encode_decode_witness :
  exists bs, encode (compact_encode CU32) 1073741824 = Done bs /\
    zlen bs = compact_len CU32 1073741824 /\
    run (decode (compact_decode CU32)) (bs ++ [x07]) = Done (Ok 1073741824, [x07]).
Proof. apply (compact_encode_decode CU32). by split. Defined.

Lemma compact_decode_canonical_witness :
  in_range U16 16384 /\
  exists bs, encode (compact_encode CU16) 16384 = Done bs /\ [x02; x00; x01; x00; x09] = bs ++ [x09].
Proof. apply (compact_decode_canonical CU16). reflexivity. Defined.

(** ** Sequences *)

Section sequences.
Context `{Target}.

(** C3: decoding a vector of a known length, in chunks and for primitive types in
    bulk, accepts the same slices with the same result as decoding the items one
    by one. *)
Theorem vec_decode_itemwise {T} (D : Decode T) wf len :
  DecodeLaws D wf -> vec_fits (D_size_of D) -> 0 <= len <= prim_max U32 ->
  decode_vec_with_len D len ≃ decode_items (decode D) (Z.to_nat len) [].
Proof. intros HD Hf Hl. by apply (decode_vec_with_len_equiv D wf). Qed.

(** C4: encoding a slice without its length, in bulk where the type and the
    target allow it, writes what encoding the items one by one writes. *)
Theorem slice_encode_itemwise {T} (E : Encode T) wf l :
  EncodeLaws E wf -> Forall wf l ->
  wbytes (encode_slice_no_len E l) = wbytes (wfor l (encode_to E)).
Proof. intros HE Hl. by apply (encode_slice_no_len_items E wf). Qed.

(** An encoded vector decodes to itself and leaves what follows. *)
Lemma vec_encode_decode {T} (E : Encode T) D wf l bs rest :
  CodecLaws E D wf -> vec_fits (D_size_of D) -> Forall wf l ->
  encode (vec_encode E) l = Done bs ->
  run (decode (vec_decode D)) (bs ++ rest) = Done (Ok l, rest).
Proof. intros HC Hf Hl Hb. by apply (encode_decode _ _ _ (vec_codec_laws E D wf Hf)). Qed.

(** The decoder of vectors accepts nothing but encodings of vectors when that
    is so of the items. *)
Lemma vec_decode_canonical {T} (E : Encode T) D wf i l i' :
  CodecLaws E D wf -> Canonical E D -> vec_fits (D_size_of D) ->
  run (decode (vec_decode D)) i = Done (Ok l, i') ->
  Forall wf l /\ exists bs, wbytes (encode_to (vec_encode E) l) = Done bs /\ i = bs ++ i'.
Proof.
  intros HC Hcan Hf Hrun. pose proof (vec_decode_laws D wf Hf). split.
  - by apply (decode_wf (vec_decode D) (Forall wf)) in Hrun.
  - by apply (vec_canonical E D wf Hf).
Qed.

(** C5: an encoded vector decodes to itself and leaves what follows; and the
    decoder of vectors accepts nothing but encodings of vectors of well-formed
    items when that is so of the items. *)
Theorem vec_codec_spec {T} (E : Encode T) D wf :
  CodecLaws E D wf -> vec_fits (D_size_of D) ->
  (forall l bs rest, Forall wf l -> encode (vec_encode E) l = Done bs ->
     run (decode (vec_decode D)) (bs ++ rest) = Done (Ok l, rest)) /\
  (Canonical E D -> forall i l i', run (decode (vec_decode D)) i = Done (Ok l, i') ->
     Forall wf l /\ exists bs, wbytes (encode_to (vec_encode E) l) = Done bs /\ i = bs ++ i').
Proof.
  intros HC Hf. split.
  - intros l bs rest. by apply (vec_encode_decode E D wf).
  - intros Hcan i l i'. by apply (vec_decode_canonical E D wf).
Qed.

(** C6: on any input that keeps the contract of [Input], whatever its data and
    whatever limits it imposes, on a 64-bit target decoding a vector returns, with
    well-formed items if it succeeds.  On a 32-bit target the one way out is the
    panic of [reserve_exact], and only when as many items as the length prefix
    announces would take more than [isize::MAX] bytes.  Of the items it supposes
    that they are decoded lawfully and that their size passes the assertion of
    [decode_vec_chunked]. *)
Theorem vec_decode_total {I} `{InputLaws I} {T} (D : Decode T) wf (i : I) :
  DecodeLaws D wf -> D_size_of D <= MAX_PREALLOCATION ->
  match run (decode (vec_decode D)) i with
  | Done (r, _) => forall l, r = Ok l -> Forall wf l /\ zlen l <= prim_max U32
  | Panic msg =>
      msg = "capacity overflow" /\ usize_bits = 32 /\
      exists len j, run decode_len i = Done (Ok len, j) /\ isize_max < len * D_size_of D
  end.
Proof.
  intros HD Hs. pose proof (wb_run _ 0 _ i decode_len_wb) as (r & j & Hr & Hlen).
  cbn [decode vec_decode impl_decode]. unfold vec_decode_fn. rewrite run_try_bind, Hr.
  destruct r as [len|e]; simpl; [|done]. specialize (Hlen len eq_refl).
  pose proof (decode_vec_with_len_outcomes D wf len j Hs (proj1 Hlen)) as Ho. unfold outcomes in Ho.
  destruct (run (decode_vec_with_len D len) j) as [[q k]|msg].
  - intros l Hl. destruct (Ho l Hl) as [Hwf <-]. split; [done|lia].
  - destruct Ho as [-> Hm]. split_and!; [done| |by eauto].
    destruct usize_bits_ok as [|Hu]; [done|].
    pose proof (size_of_nonneg (D := D)). destruct (vec_fits_64 (D_size_of D) Hu Hs). nia.
Qed.

(** That panic exists: items that take memory but no bytes of the input, such as
    structs of skipped fields, reach it with a length prefix alone. *)
Lemma chunked_loop_overflow {T} size_of (chunk : list T -> Z -> dec (list T)) fuel c num v (i : list byte) :
  (forall v n (i : list byte), 0 <= n ->
     exists w, run (chunk v n) i = Done (Ok w, i) /\ zlen w = zlen v + n) ->
  1 <= c -> 0 <= num <= Z.of_nat fuel * c -> zlen v * size_of <= isize_max ->
  isize_max < (zlen v + num) * size_of ->
  run (decode_vec_chunked_loop size_of chunk fuel c num v) i = Panic "capacity overflow".
Proof.
  intros Hchunk Hc. revert num v. induction fuel as [|fuel IH]; intros num v Hnum Hv Hfit; simpl.
  - assert (num = 0) as -> by lia. rewrite Z.add_0_r in Hfit. lia.
  - case_match; bool_to_prop; [assert (num = 0) as -> by lia; rewrite Z.add_0_r in Hfit; lia|].
    set (len := Z.min c num). cbn. unfold reserve_exact.
    destruct ((zlen v + len) * size_of <=? isize_max) eqn:Hr; [|done]. bool_to_prop. cbn.
    destruct (Hchunk v len i) as (w & Hw & Hl); [lia|]. fold (@try_bind (list T) (list T)).
    rewrite run_try_bind, Hw. cbn. apply IH; [nia|by rewrite Hl|].
    rewrite Hl. by replace (zlen v + len + (num - len)) with (zlen v + num) by lia.
Qed.

Lemma vec_decode_overflow {T} size_of (x : T) len i j :
  0 <= size_of <= MAX_PREALLOCATION -> 0 <= len -> isize_max < len * size_of ->
  run decode_len i = Done (Ok len, j) ->
  run (decode (vec_decode (impl_decode size_of (ok x)))) i = Panic "capacity overflow".
Proof.
  intros Hs Hl Hfit Hr. cbn [decode vec_decode impl_decode]. unfold vec_decode_fn.
  rewrite run_try_bind, Hr.
  change (run (vec ⇐ decode_vec_chunked size_of
            (fun vec n => decode_items (ok x) (Z.to_nat n) vec) len;
          prog_bind ascend_ref (fun _ => ok vec)) j = Panic "capacity overflow").
  rewrite run_try_bind. unfold decode_vec_chunked. rewrite (chunked_loop_overflow size_of); [done| |by apply vec_chunk_len_pos| | |done].
  - intros v n k Hn. exists (v ++ replicate (Z.to_nat n) x). split.
    + generalize (Z.to_nat n). intros m. revert v. induction m as [|m IH]; intros v; cbn [decode_items replicate].
      * by rewrite app_nil_r.
      * change (run (decode_items (ok x) m (v ++ [x])) k = Done (Ok (v ++ x :: replicate m x), k)).
        rewrite IH. by rewrite <- app_assoc.
    + rewrite zlen_app. unfold zlen. rewrite length_replicate. lia.
  - split; [done|by apply vec_fuel].
  - pose proof isize_max_ge. change (zlen (@nil T)) with 0. lia.
Qed.

(** An array is decoded item by item, whether by [decode], [decode_into] or
    [skip], and an array of items of a fixed size has a fixed size. *)
Lemma array_decode_methods {T} (E : Encode T) D wf N :
  CodecLaws E D wf ->
  decode (array_decode D N) ≃ decode_items (decode D) N [] /\
  decode_into (array_decode D N) ≃ decode_items (decode D) N [] /\
  skip (array_decode D N) ≃ dec_map (fun _ => tt) (decode_items (decode D) N []) /\
  (forall size l bs, encoded_fixed_size (array_decode D N) = Some size -> array_wf wf N l ->
     encode (array_encode E N) l = Done bs -> zlen bs = size).
Proof.
  intros HC.
  assert (decode (array_decode D N) ≃ decode_items (decode D) N []) as Hd
    by (intros i l i'; apply (array_decode_items E D wf N)).
  split_and!; [done|apply (array_decode_into_equiv D wf N)| |].
  - etransitivity; [apply (skip_equiv (D := array_decode D N) (wf := array_wf wf N))|]. by rewrite Hd.
  - intros size l bs Hs Hl Hb%(encode_wbytes (array_encode E N) (array_wf wf N)).
    by apply (fixed_size (CodecLaws := array_codec_laws E D wf N) size l bs Hs Hl).
Qed.

(** The decoder of arrays accepts exactly the encodings of arrays of [N]
    well-formed items, when that is so of the items. *)
Lemma array_encode_decode {T} (E : Encode T) D wf N i l i' :
  CodecLaws E D wf -> Canonical E D ->
  run (decode (array_decode D N)) i = Done (Ok l, i') <->
  array_wf wf N l /\ exists bs, wbytes (encode_to (array_encode E N) l) = Done bs /\ i = bs ++ i'.
Proof. intros HC Hcan. apply (accepts_encodings (array_encode E N)); apply _. Qed.

(** C21: an array is decoded item by item, whether by [decode], [decode_into] or
    [skip]; an array of items of a fixed size has a fixed size; and the decoder
    accepts exactly the encodings of arrays of [N] well-formed items, when that is
    so of the items. *)
Theorem array_spec {T} (E : Encode T) D wf N :
  CodecLaws E D wf ->
  decode (array_decode D N) ≃ decode_items (decode D) N [] /\
  decode_into (array_decode D N) ≃ decode_items (decode D) N [] /\
  skip (array_decode D N) ≃ dec_map (fun _ => tt) (decode_items (decode D) N []) /\
  (forall size l bs, encoded_fixed_size (array_decode D N) = Some size -> array_wf wf N l ->
     encode (array_encode E N) l = Done bs -> zlen bs = size) /\
  (Canonical E D -> forall i l i',
     run (decode (array_decode D N)) i = Done (Ok l, i') <->
     array_wf wf N l /\ exists bs, wbytes (encode_to (array_encode E N) l) = Done bs /\ i = bs ++ i').
Proof.
  intros HC. destruct (array_decode_methods E D wf N HC) as (Hd & Hi & Hs & Hl).
  split_and!; [done..|]. intros Hcan i l i'. by apply array_encode_decode.
Qed.

(** C39: on a 64-bit target, the decoder of strings accepts exactly the encodings of
    strings: the compact length, at most [u32::MAX], and that many bytes, which are
    well-formed UTF-8.  It returns these bytes and leaves what follows. *)
Theorem string_decode_spec i s i' :
  usize_bits = 64 ->
  run (decode string_decode) i = Done (Ok s, i') <->
  string_wf s /\ exists bs, wbytes (encode_to string_encode s) = Done bs /\ i = bs ++ i'.
Proof.
  intros Hu. pose proof (string_codec_laws Hu). by apply accepts_encodings, string_canonical.
Qed.

(** The number of items of an encoded vector can be read without decoding
    them. *)
Lemma vec_decode_length {T} (E : Encode T) wf l bs rest :
  EncodeLaws E wf -> Forall wf l -> encode (vec_encode E) l = Done bs ->
  decode_length (bs ++ rest) = Done (Ok (zlen l)).
Proof.
  intros HE Hl Hb. apply (decode_length_slice E wf l); [done|].
  by apply (encode_wbytes (vec_encode E) (Forall wf)).
Qed.
End sequences.

Lemma vec_decode_itemwise_witness :
  decode_vec_with_len (prim_decode U16) 3 ≃ decode_items (decode (prim_decode U16)) (Z.to_nat 3) [].
Proof.
  apply (vec_decode_itemwise (prim_decode U16) (in_range U16)); [apply _|by apply vec_fits_64|done].
Defined.

Lemma slice_encode_itemwise_witness :
  wbytes (encode_slice_no_len (prim_encode I32) [1; -1]) = wbytes (wfor [1; -1] (encode_to (prim_encode I32))).
Proof.
  apply (slice_encode_itemwise (prim_encode I32) (in_range I32)); [apply _|].
  by repeat constructor.
Defined.

Lemma vec_codec_spec_witness :
  run (decode (vec_decode (prim_decode U16))) ([x08; x01; x00; x02; x01] ++ [x05])
    = Done (Ok [1; 258], [x05]) /\
  exists bs, wbytes (encode_to (vec_encode (prim_encode U16)) [1; 258]) = Done bs /\
    [x08; x01; x00; x02; x01; x05] = bs ++ [x05].
Proof.
  destruct (vec_codec_spec (prim_encode U16) (prim_decode U16) (in_range U16)) as [Hrt Hcan];
    [apply _|by apply vec_fits_64|]. split.
  - apply Hrt; [by repeat constructor|reflexivity].
  - apply Hcan; [apply _|reflexivity].
Defined.


Lemma vec_decode_total_witness :
  match run (decode (@vec_decode powerpc _ (prim_decode U64))) [x04; x01; x02] with
  | Done (r, _) => forall l, r = Ok l -> Forall (in_range U64) l /\ zlen l <= prim_max U32
  | Panic msg =>
      msg = "capacity overflow" /\ @usize_bits powerpc = 32 /\
      exists len j, run (@decode_len powerpc) [x04; x01; x02] = Done (Ok len, j) /\
        @isize_max powerpc < len * D_size_of (prim_decode U64)
  end.
Proof.
  apply (@vec_decode_total powerpc (list byte) _ _ Z (prim_decode U64) (in_range U64));
    [apply _|by vm_compute].
Defined.

Example vec_decode_overflow_32 :
  run (decode (@vec_decode powerpc _ (impl_decode MAX_PREALLOCATION (ok tt)))) [x03; xff; xff; xff; xff]
    = Panic "capacity overflow".
Proof.
  apply (@vec_decode_overflow powerpc _ _ tt (prim_max U32) _ []); [done|done|by vm_compute..].
Qed.

Lemma array_spec_witness :
  skip (array_decode (prim_decode I16) 2)
    ≃ dec_map (fun _ => tt) (decode_items (decode (prim_decode I16)) 2 []) /\
  (run (decode (array_decode (prim_decode I16) 2)) [xff; xff; x02; x00; x07] = Done (Ok [-1; 2], [x07]) <->
   array_wf (in_range I16) 2 [-1; 2] /\
   exists bs, wbytes (encode_to (array_encode (prim_encode I16) 2) [-1; 2]) = Done bs /\
     [xff; xff; x02; x00; x07] = bs ++ [x07]).
Proof.
  destruct (array_spec (prim_encode I16) (prim_decode I16) (in_range I16) 2) as (_ & _ & Hs & _ & Hc);
    [apply _|]. split; [exact Hs|apply Hc; apply _].
Defined.


Lemma string_decode_spec_witness :
  run (decode string_decode) [x08; xc3; xa9] = Done (Ok [0xc3; 0xa9], []) <->
  string_wf [0xc3; 0xa9] /\
  exists bs, wbytes (encode_to string_encode [0xc3; 0xa9]) = Done bs /\ [x08; xc3; xa9] = bs ++ [].
Proof. apply string_decode_spec. reflexivity. Defined.

Example vec_decode_length_example :
  decode_length ([x08; x01; x00; x02; x01] ++ []) = Done (Ok 2).
Proof.
  apply (vec_decode_length (prim_encode U16) (in_range U16) [1; 258]);
    [apply _|by repeat constructor|reflexivity].
Defined.

(** ** All codecs *)

Section codecs.
Context `{Target}.

(** C7: for a codec with the laws, [decode_all] gives back the value whose
    encoding is the whole input; it refuses an encoding followed by anything, with
    its own message and the rest unread, and passes on an error of the decoder; it
    returns on every input; and when the codec is canonical (unlike that of
    [BTreeMap]) it accepts nothing else than encodings of well-formed values. *)
Theorem decode_all_inverts_encode {T} (E : Encode T) D wf :
  CodecLaws E D wf ->
  (forall x bs, wf x -> wbytes (encode_to E x) = Done bs -> decode_all D bs = Done (Ok x, [])) /\
  (forall x bs b rest, wf x -> wbytes (encode_to E x) = Done bs ->
     decode_all D (bs ++ b :: rest) = Done (Err (Error_from DECODE_ALL_ERR_MSG), b :: rest)) /\
  (forall bs e j, run (decode D) bs = Done (Err e, j) -> decode_all D bs = Done (Err e, j)) /\
  (forall bs, exists r j, decode_all D bs = Done (r, j)) /\
  (Canonical E D -> forall bs x j, decode_all D bs = Done (Ok x, j) ->
     j = [] /\ wf x /\ wbytes (encode_to E x) = Done bs).
Proof.
  intros HC. split_and!.
  - intros x bs Hx Hb. apply check_consumed_ok. split; [|done].
    rewrite <- (app_nil_r bs). by apply roundtrip.
  - intros x bs b rest Hx Hb. apply (check_consumed_rest _ _ x). by apply roundtrip.
  - intros bs e j He. unfold decode_all, check_consumed. by rewrite He.
  - intros bs. apply (check_consumed_total _ wf), (wb_run wf 0), decode_wb.
  - intros Hcan bs x j Hr. pose proof Hr as [_ ->]%check_consumed_ok. split; [done|].
    by apply (decode_all_encode E D wf).
Qed.

(** [encode], [using_encoded], [encode_to] into a vector and [encoded_size]
    of a vector agree: no method panics where another one does not. *)
Lemma vec_encode_methods_agree {T} (E : Encode T) wf l bs :
  EncodeLaws E wf -> Forall wf l -> 4 + E_size_of E * zlen l <= isize_max ->
  wbytes (encode_to (vec_encode E) l) = Done bs -> zlen bs <= usize_max ->
  encode (vec_encode E) l = Done bs /\ using_encoded (vec_encode E) l = Done bs /\
  run_output (encode_to (vec_encode E) l) [] = Done bs /\
  encoded_size (vec_encode E) l = Done (zlen bs).
Proof.
  intros HE Hx Hh Hb Hl.
  destruct (encode_complete (E := vec_encode E) l (4 + E_size_of E * zlen l) bs Hx) as [He Hu];
    [|done|done|split_and!; [done|done| |by apply encoded_size_done]; by rewrite run_output_vec, Hb].
  cbn [size_hint vec_encode impl_forward slice_encode impl_encode_to].
  unfold slice_size_hint, add_usize, id. pose proof isize_usize_max. pose proof isize_max_ge.
  by decide_tests.
Qed.

(** What follows the bytes of a value does not change how it is decoded. *)
Lemma decode_frame {T} (D : Decode T) wf i x i' more :
  DecodeLaws D wf -> run (decode D) i = Done (Ok x, i') ->
  run (decode D) (i ++ more) = Done (Ok x, i' ++ more).
Proof. intros HD. by apply (wb_frame wf 0), decode_wb. Qed.

(** What can be decoded from a slice can be decoded from an [IoReader] over
    the same bytes, with the same result. *)
Lemma decode_io_reader {T} (D : Decode T) wf i x i' :
  DecodeLaws D wf -> run (decode D) i = Done (Ok x, i') ->
  run (decode D) (mkIoReader i) = Done (Ok x, mkIoReader i').
Proof. intros HD. by apply (wb_io wf 0), decode_wb. Qed.

(** C22: what follows the bytes of a value on a slice does not change how it is
    decoded and is left unread; and an [IoReader] over the same bytes gives the
    same result and stops at the same byte. *)
Theorem decode_input_independent {T} (D : Decode T) wf i x i' more :
  DecodeLaws D wf -> run (decode D) i = Done (Ok x, i') ->
  run (decode D) (i ++ more) = Done (Ok x, i' ++ more) /\
  run (decode D) (mkIoReader i) = Done (Ok x, mkIoReader i').
Proof. intros HD Hr. split; [by apply (decode_frame D wf)|by apply (decode_io_reader D wf)]. Qed.

(** The decoder of results of pairs and options accepts exactly the
    encodings of well-formed ones, when that is so of the components. *)
Theorem composite_encode_decode {A B} (EA : Encode A) DA wfA (EB : Encode B) DB wfB s1 s2 s3 i x i' :
  CodecLaws EA DA wfA -> CodecLaws EB DB wfB -> Canonical EA DA -> Canonical EB DB ->
  0 <= s1 -> 0 <= s2 -> 0 <= s3 ->
  run (decode (result_decode s1 (tuple_decode s2 DA DB) (option_decode s3 DA))) i = Done (Ok x, i') <->
  result_wf (tuple_wf wfA wfB) (option_wf wfA) x /\
  exists bs, wbytes (encode_to (result_encode s1 (tuple_encode s2 EA EB) (option_encode s3 EA)) x)
    = Done bs /\ i = bs ++ i'.
Proof.
  intros HA HB CA CB H1 H2 H3.
  pose proof (tuple_codec_laws EA EB DA DB wfA wfB s2 H2).
  pose proof (option_codec_laws EA DA wfA s3 H3).
  pose proof (tuple_canonical EA EB DA DB s2). pose proof (option_canonical EA DA s3).
  apply accepts_encodings; [by apply result_codec_laws|by apply result_canonical].
Qed.

(** Decoding behind a pointer ([Box], [Rc], [Arc]) is decoding the value. *)
Lemma pointer_decode_equiv {T} (D : Decode T) wf :
  DecodeLaws D wf ->
  decode (box_decode D) ≃ decode D /\ decode (rc_decode D) ≃ decode D.
Proof.
  intros HD. pose proof (box_decode_equiv D wf) as Hb. split; [done|].
  transitivity (decode (box_decode D)); [apply rc_decode_equiv|done].
Qed.

(** A [Duration] is accepted exactly when it is the encoding of a number of
    seconds and of less than a billion nanoseconds. *)
Lemma duration_decode_spec i d i' :
  run (decode duration_decode) i = Done (Ok d, i') <->
  duration_wf d /\ exists bs, wbytes (encode_to duration_encode d) = Done bs /\ i = bs ++ i'.
Proof. apply accepts_encodings; apply _. Qed.
End codecs.

Lemma decode_all_inverts_encode_witness :
  decode_all (prim_decode U16) [x01; x02] = Done (Ok 513, []) /\
  decode_all (prim_decode U16) [x01; x02; x07] = Done (Err (Error_from DECODE_ALL_ERR_MSG), [x07]) /\
  in_range U16 513.
Proof.
  destruct (decode_all_inverts_encode (prim_encode U16) (prim_decode U16) (in_range U16))
    as (Ha & Hr & _ & _ & Hc); [apply _|]. split_and!.
  - by apply Ha.
  - by apply (Hr 513 [x01; x02] x07 []).
  - eapply (Hc _ [x01; x02] 513 []). reflexivity.
Defined.

Example vec_encode_methods_agree_example :
  encode (vec_encode (prim_encode U16)) [513] = Done [x04; x01; x02] /\
  using_encoded (vec_encode (prim_encode U16)) [513] = Done [x04; x01; x02] /\
  run_output (encode_to (vec_encode (prim_encode U16)) [513]) [] = Done [x04; x01; x02] /\
  encoded_size (vec_encode (prim_encode U16)) [513] = Done (zlen [x04; x01; x02]).
Proof.
  apply (vec_encode_methods_agree (prim_encode U16) (in_range U16));
    [apply _|by repeat constructor|by vm_compute|reflexivity|by vm_compute].
Defined.

Lemma decode_input_independent_witness :
  run (decode (prim_decode U32)) ([x01; x00; x00; x00; x09] ++ [x06]) = Done (Ok 1, [x09] ++ [x06]) /\
  run (decode (prim_decode U32)) (mkIoReader [x01; x00; x00; x00; x09]) = Done (Ok 1, mkIoReader [x09]).
Proof. apply (decode_input_independent (prim_decode U32) (in_range U32)); [apply _|reflexivity]. Defined.


Lemma composite_encode_decode_witness :
  run (decode (result_decode 8 (tuple_decode 8 (prim_decode U8) bool_decode) (option_decode 2 (prim_decode U8))))
    [x01; x01; x2a; x00] = Done (Ok (Err (Some 42)), [x00]) <->
  result_wf (tuple_wf (in_range U8) (fun _ : bool => True)) (option_wf (in_range U8)) (Err (Some 42)) /\
  exists bs, wbytes (encode_to (result_encode 8 (tuple_encode 8 (prim_encode U8) bool_encode)
    (option_encode 2 (prim_encode U8))) (Err (Some 42))) = Done bs /\ [x01; x01; x2a; x00] = bs ++ [x00].
Proof. apply composite_encode_decode; (apply _ || done). Defined.

Example pointer_decode_equiv_example :
  decode (box_decode bool_decode) ≃ decode bool_decode /\ decode (rc_decode bool_decode) ≃ decode bool_decode.
Proof. apply (pointer_decode_equiv bool_decode (fun _ => True)). apply _. Defined.
