(* ===== verification/Guarantees.v ===== *)
(** * Collections, limits and encoded data

    The main properties of the collections, of the input wrappers, of the
    operations on encoded data and of the bounds on encoded lengths, each with an
    instance at concrete values. *)

From S2P Require Import Prelude Ints Errors Input Discipline Output Traits Primitives Compact.
From S2P Require Import CompactTheory Sequences SequencesTheory Composite Collections Heap Limits Append MaxLen.

#[local] Existing Instance x86_64 | 100.

(** ** Collections *)

Section collections.
Context `{Target}.

(** An encoded map decodes to itself. *)
Theorem btree_map_encode_decode {K V} `{Ord K} (EK : Encode K) DK wfK (EV : Encode V) DV wfV
    size_of pair_size leaf m bs rest :
  CodecLaws EK DK wfK -> CodecLaws EV DV wfV -> 0 <= pair_size -> 0 <= leaf ->
  map_wf wfK wfV m -> encode (btree_map_encode size_of EK EV) m = Done bs ->
  run (decode (btree_map_decode pair_size leaf DK DV)) (bs ++ rest) = Done (Ok m, rest).
Proof.
  intros HK HV Hp Hl Hm Hb.
  pose proof (btree_map_codec_laws EK EV DK DV wfK wfV size_of pair_size leaf Hp Hl) as HC.
  by apply (roundtrip (CodecLaws := HC)), (encode_sound (EncodeLaws := codec_encode (CodecLaws := HC))).
Qed.

(** C26: the decoder of maps accepts any list of at most [u32::MAX] well-formed
    entries, in any order and with repeated keys, encoded as the vector of these pairs:
    the map it returns is sorted and has for each key the last value.  And it accepts
    nothing else: what it returns are the entries that a decoder of that many pairs
    reads, sorted, the last value of each key. *)
Theorem btree_map_decode_entries {K V} `{Ord K} (EK : Encode K) (DK : Decode K) wfK (EV : Encode V) (DV : Decode V) wfV
    pair_size leaf :
  CodecLaws EK DK wfK -> CodecLaws EV DV wfV -> 0 <= pair_size ->
  (forall entries bs rest, Forall (tuple_wf wfK wfV) entries ->
     wbytes (encode_to (vec_encode (tuple_encode pair_size EK EV)) entries) = Done bs ->
     exists m, run (decode (btree_map_decode pair_size leaf DK DV)) (bs ++ rest) = Done (Ok m, rest) /\
       btree_sorted m /\ forall k, btree_get k m = btree_get k (rev entries)) /\
  (forall i m i', run (decode (btree_map_decode pair_size leaf DK DV)) i = Done (Ok m, i') ->
     btree_sorted m /\ exists len j entries, run decode_len i = Done (Ok len, j) /\
       run (decode_items (tuple_decode_fn DK DV) (Z.to_nat len) []) j = Done (Ok entries, i') /\
       forall k, btree_get k m = btree_get k (rev entries)).
Proof.
  intros HK HV Hp. pose proof (tuple_codec_laws EK EV DK DV wfK wfV pair_size Hp) as Ht. split.
  - intros entries bs rest Hf Hb. exists (btree_from_iter entries).
    split_and!; [|apply btree_from_iter_sorted|intros k; apply btree_get_from_iter].
    apply (collection_roundtrip (tuple_decode pair_size DK DV) (tuple_wf wfK wfV) _ _
      (tuple_encode pair_size EK EV) entries bs rest Hf).
    pose proof (codec_encode (CodecLaws := Ht)) as He.
    by rewrite <- (slice_encode_collection (tuple_encode pair_size EK EV) (tuple_wf wfK wfV)).
  - intros i m i' Hrun. apply run_collection_decode in Hrun as (len & j & l & Hlen & Hitems & ->).
    split; [apply btree_from_iter_sorted|]. exists len, j, l. split_and!; [done..|].
    intros k. apply btree_get_from_iter.
Qed.

(** An encoded set decodes to itself, and what the decoder returns is
    strictly increasing. *)
Lemma btree_set_spec {T} `{Ord T} (E : Encode T) D wf leaf :
  CodecLaws E D wf -> 0 <= leaf ->
  (forall s bs rest, set_wf wf s -> encode (btree_set_encode E) s = Done bs ->
     run (decode (btree_set_decode leaf D)) (bs ++ rest) = Done (Ok s, rest)) /\
  (forall (i : list byte) s i', run (decode (btree_set_decode leaf D)) i = Done (Ok s, i') -> set_wf wf s).
Proof.
  intros HC Hl. pose proof (btree_set_codec_laws E D wf leaf Hl) as HS. split.
  - intros s bs rest Hs Hb. apply (roundtrip (CodecLaws := HS) s bs rest Hs).
    by apply (encode_sound (EncodeLaws := codec_encode (CodecLaws := HS))).
  - intros i s i'. apply (decode_wf _ _ (DecodeLaws0 := codec_decode (CodecLaws := HS))).
Qed.

(** A deque is encoded as the vector of its items, wherever its ring buffer
    wraps around, and its items come back in order. *)
Theorem vec_deque_encode_decode {T} (E : Encode T) D wf d bs rest :
  CodecLaws E D wf -> vec_fits (D_size_of D) -> Forall wf (deque_items d) ->
  encode (vec_deque_encode E) d = Done bs ->
  wbytes (encode_to (vec_encode E) (deque_items d)) = Done bs /\
  run (decode (vec_deque_decode D)) (bs ++ rest) = Done (Ok (deque_items d, []), rest).
Proof.
  intros HC Hf Hd Hb. apply default_encode_done in Hb as [_ Hb]. split.
  - by apply (vec_deque_encode_items E wf d).
  - by apply (vec_deque_roundtrip E D wf Hf d).
Qed.

(** C40: an encoded binary heap decodes to itself, buffer order included; the
    decoder accepts exactly what the decoder of vectors accepts, and returns a heap of
    the same items. *)
Theorem binary_heap_spec {T} `{Ord T} (E : Encode T) D wf :
  CodecLaws E D wf -> vec_fits (D_size_of D) ->
  (forall l bs rest, heap_wf wf l -> encode (binary_heap_encode E) l = Done bs ->
     run (decode (binary_heap_decode D)) (bs ++ rest) = Done (Ok l, rest)) /\
  (forall i v i', run (decode (vec_decode D)) i = Done (Ok v, i') ->
     exists l, run (decode (binary_heap_decode D)) i = Done (Ok l, i') /\ is_heap l /\ l ≡ₚ v) /\
  (forall i l i', run (decode (binary_heap_decode D)) i = Done (Ok l, i') ->
     is_heap l /\ exists v, run (decode (vec_decode D)) i = Done (Ok v, i') /\ l ≡ₚ v).
Proof.
  intros HC Hf. pose proof (binary_heap_codec_laws E D wf Hf) as HH. split_and!.
  - intros l bs rest Hl Hb. apply (roundtrip (CodecLaws := HH) l bs rest Hl).
    by apply (encode_sound (EncodeLaws := codec_encode (CodecLaws := HH))).
  - intros i v i' Hv. exists (rebuild v). split_and!; [|apply rebuild_heap|apply rebuild_perm].
    apply run_binary_heap_decode. eauto.
  - intros i l i' (v & Hv & ->)%run_binary_heap_decode. split; [apply rebuild_heap|].
    exists v. split; [done|apply rebuild_perm].
Qed.
End collections.

Lemma btree_map_encode_decode_witness :
  run (decode (btree_map_decode 2 40 (prim_decode U8) bool_decode)) ([x08; x01; x00; x05; x01] ++ [])
  = Done (Ok [(1, false); (5, true)], []).
Proof.
  apply (btree_map_encode_decode (prim_encode U8) (prim_decode U8) (in_range U8)
    bool_encode bool_decode (fun _ => True) 2); [apply _|apply _|done|done| |reflexivity].
  by repeat constructor.
Defined.

Lemma btree_map_decode_entries_witness :
  exists m, run (decode (btree_map_decode 2 40 (prim_decode U8) bool_decode)) ([x0c; x05; x01; x01; x01; x05; x00] ++ [x07])
    = Done (Ok m, [x07]) /\
  btree_sorted m /\ forall k, btree_get k m = btree_get k (rev [(5, true); (1, true); (5, false)]).
Proof.
  destruct (btree_map_decode_entries (prim_encode U8) (prim_decode U8) (in_range U8) bool_encode bool_decode
    (fun _ => True) 2 40) as [Hacc _]; [apply _|apply _|done|].
  apply Hacc; [by repeat constructor|reflexivity].
Defined.

Example btree_set_spec_example :
  (forall s bs rest, set_wf (in_range U8) s -> encode (btree_set_encode (prim_encode U8)) s = Done bs ->
     run (decode (btree_set_decode 40 (prim_decode U8))) (bs ++ rest) = Done (Ok s, rest)) /\
  (forall (i : list byte) s i', run (decode (btree_set_decode 40 (prim_decode U8))) i = Done (Ok s, i') ->
     set_wf (in_range U8) s).
Proof. apply (btree_set_spec (prim_encode U8)); [apply _|done]. Defined.

Lemma binary_heap_spec_witness :
  is_heap [5; 3; 1] /\
  run (decode (binary_heap_decode (prim_decode U8))) ([x0c; x05; x03; x01] ++ [x07]) = Done (Ok [5; 3; 1], [x07]).
Proof.
  assert (is_heap [5; 3; 1]) as Hh by (change [5; 3; 1] with (rebuild [5; 3; 1]); apply rebuild_heap).
  split; [exact Hh|]. destruct (binary_heap_spec (prim_encode U8) (prim_decode U8) (in_range U8)) as (Hrt & _);
    [apply _|by apply vec_fits_64|].
  apply Hrt; [split; [exact Hh|by repeat constructor]|reflexivity].
Defined.

(** A vector that is not a heap, and the heap it becomes. *)
Example binary_heap_rebuilds :
  run (decode (binary_heap_decode (prim_decode U8))) [x14; x01; x05; x02; x07; x03]
  = Done (Ok [7; 5; 2; 1; 3], []).
Proof. by vm_compute. Qed.

Lemma vec_deque_encode_decode_witness :
  wbytes (encode_to (vec_encode (prim_encode U8)) (deque_items ([1; 2], [3]))) = Done [x0c; x01; x02; x03] /\
  run (decode (vec_deque_decode (prim_decode U8))) ([x0c; x01; x02; x03] ++ [])
  = Done (Ok (deque_items ([1; 2], [3]), []), []).
Proof.
  apply (vec_deque_encode_decode (prim_encode U8) (prim_decode U8) (in_range U8));
    [apply _|by apply vec_fits_64|by repeat constructor|reflexivity].
Defined.

(** ** Limits *)

Section limits.
Context `{Target} {I : Type} `{InputLaws I}.

(** C16: decoding with a depth limit, on any input, is decoding without one as
    long as no more than [limit] references are entered at the same time, and an
    error otherwise. *)
Theorem depth_limit_spec {T} (D : Decode T) wf limit (i : I) :
  DecodeLaws D wf -> 0 <= limit < prim_max U32 ->
  (max_level 0 (trace (decode D) i) <= limit ->
     run (decode_with_depth_limit limit D) i = run (decode D) i) /\
  (limit < max_level 0 (trace (decode D) i) ->
     exists e i', run (decode_with_depth_limit limit D) i = Done (Err e, i')).
Proof.
  intros HD Hl. pose proof (decode_with_depth_limit_run D wf limit i Hl) as Hr.
  destruct (Z.leb_spec (max_level 0 (trace (decode D) i)) limit); split; intros; (done || lia).
Qed.

(** C19: decoding with a memory limit, on any input, is decoding without one as
    long as the sizes that are announced add up to less than the limit (or none
    is announced), and an error otherwise; and after a successful decoding
    [used_mem] is the sum of those sizes. *)
Theorem mem_limit_spec {T} (D : Decode T) wf limit (i : I) :
  DecodeLaws D wf -> limit <= usize_max ->
  (allocs (trace (decode D) i) = [] \/ alloc_total (trace (decode D) i) < limit ->
     run (decode_with_mem_limit D limit) i = run (decode D) i) /\
  (allocs (trace (decode D) i) <> [] -> limit <= alloc_total (trace (decode D) i) ->
     exists e i', run (decode_with_mem_limit D limit) i = Done (Err e, i')) /\
  (forall x s i', run (interp mem_tracking_input (decode D) (MemTracking_new limit)) i = Done (Ok x, s, i') ->
     used_mem s = alloc_total (trace (decode D) i) /\ run (decode D) i = Done (Ok x, i')).
Proof.
  intros HD Hl. destruct (decode_with_mem_limit_run D wf limit i Hl) as [Hok Herr]. split_and!.
  - done.
  - intros Hn Ht. apply Herr. intros [?|?]; [done|lia].
  - intros x s i'. by apply (used_mem_total D wf).
Qed.
End limits.

(** Decoding through a [CountedInput] gives the same result, and [count] is
    the number of bytes taken from the slice, up to [u64::MAX]. *)
Theorem counted_input_spec {T} (D : Decode T) wf (i : list byte) :
  DecodeLaws D wf ->
  run (decode_counted D) i
  = ('(r, j) ← run (decode D) i; Done (r, Z.min (zlen i - zlen j) (prim_max U64), j)).
Proof. intros HD. apply (counted_run wf 0); [apply decode_wb|done]. Qed.

(** C35: a [CountedInput] does not pass announcements of memory on: on top of a
    [MemTrackingInput] the memory limit has no effect. *)
Theorem counted_input_hides_mem_limit `{Target} {T} (D : Decode T) wf (i : list byte) limit :
  DecodeLaws D wf ->
  run (interp mem_tracking_input (decode_counted D) (MemTracking_new limit)) i
  = ('(r, j) ← run (decode D) i;
     Done (r, Z.min (zlen i - zlen j) (prim_max U64), MemTracking_new limit, j)).
Proof.
  intros HD. unfold decode_counted. rewrite counted_hides_mem_limit.
  rewrite (counted_run wf 0) by (done || apply decode_wb). by destruct (run (decode D) i) as [[r j]|].
Qed.

(** With a depth limit [decode_all] accepts what it accepts without, as long as
    the limit is respected. *)
Lemma decode_all_depth_limit_spec {T} (D : Decode T) wf limit (i : list byte) x :
  DecodeLaws D wf -> 0 <= limit < prim_max U32 ->
  decode_all_with_depth_limit limit D i = Done (Ok x, []) <->
  decode_all D i = Done (Ok x, []) /\ max_level 0 (trace (decode D) i) <= limit.
Proof.
  intros HD Hl. unfold decode_all_with_depth_limit, decode_all. rewrite !check_consumed_ok.
  pose proof (decode_with_depth_limit_run D wf limit i Hl) as Hr. case_match; bool_to_prop.
  - rewrite Hr. naive_solver.
  - destruct Hr as (e & i' & ->). naive_solver lia.
Qed.

(** Vectors of vectors of bytes, as a codec to instantiate the limits with. *)
Definition nested_decode : Decode (list (list Z)) := vec_decode (vec_decode (prim_decode U8)).

#[global] Instance nested_decode_laws : DecodeLaws nested_decode (Forall (Forall (in_range U8))).
Proof.
  apply vec_decode_laws; [|by apply vec_fits_64]. apply vec_decode_laws; [apply _|by apply vec_fits_64].
Qed.

Lemma depth_limit_spec_witness :
  (max_level 0 (trace (decode nested_decode) [x04; x04; x07]) <= 0 ->
     run (decode_with_depth_limit 0 nested_decode) [x04; x04; x07] = run (decode nested_decode) [x04; x04; x07]) /\
  (0 < max_level 0 (trace (decode nested_decode) [x04; x04; x07]) ->
     exists e i', run (decode_with_depth_limit 0 nested_decode) [x04; x04; x07] = Done (Err e, i')).
Proof. apply (depth_limit_spec nested_decode (Forall (Forall (in_range U8)))); [apply _|done]. Defined.

Lemma mem_limit_spec_witness :
  run (decode_with_mem_limit nested_decode 26) [x04; x04; x07] = Done (Ok [[7]], []) /\
  (exists e i', run (decode_with_mem_limit nested_decode 25) [x04; x04; x07] = Done (Err e, i')) /\
  25 = alloc_total (trace (decode nested_decode) [x04; x04; x07]).
Proof.
  destruct (mem_limit_spec nested_decode (Forall (Forall (in_range U8))) 26 [x04; x04; x07]) as (Hok & _ & _);
    [apply _|done|].
  destruct (mem_limit_spec nested_decode (Forall (Forall (in_range U8))) 25 [x04; x04; x07]) as (_ & Herr & _);
    [apply _|done|].
  destruct (mem_limit_spec nested_decode (Forall (Forall (in_range U8))) 1000 [x04; x04; x07]) as (_ & _ & Hused);
    [apply _|done|].
  split_and!.
  - etransitivity; [apply Hok; right; reflexivity|reflexivity].
  - apply Herr; [done|by vm_compute].
  - exact (proj1 (Hused [[7]] (mkMemTracking 25 1000) [] eq_refl)).
Defined.


Lemma counted_input_spec_witness :
  run (decode_counted nested_decode) [x04; x04; x07; x01]
  = ('(r, j) ← run (decode nested_decode) [x04; x04; x07; x01];
     Done (r, Z.min (zlen [x04; x04; x07; x01] - zlen j) (prim_max U64), j)).
Proof. apply (counted_input_spec nested_decode (Forall (Forall (in_range U8)))). apply _. Defined.

Lemma counted_input_hides_mem_limit_witness :
  run (interp mem_tracking_input (decode_counted nested_decode) (MemTracking_new 0)) [x04; x04; x07]
  = ('(r, j) ← run (decode nested_decode) [x04; x04; x07];
     Done (r, Z.min (zlen [x04; x04; x07] - zlen j) (prim_max U64), MemTracking_new 0, j)).
Proof. apply (counted_input_hides_mem_limit nested_decode (Forall (Forall (in_range U8)))). apply _. Defined.

(** ** Encoded data *)

Section append.
Context `{Target}.

(** C27: appending items to an encoded vector gives the encoding of the longer
    vector, also when the length prefix grows. *)
Theorem append_spec {T} (E : Encode T) wf xs ys bs items :
  EncodeLaws E wf -> Forall wf xs -> Forall wf ys ->
  encode (vec_encode E) xs = Done bs -> wbytes (wfor ys (encode_to E)) = Done items ->
  zlen (xs ++ ys) <= prim_max U32 -> 2 * zlen bs <= isize_max ->
  exists bs', append_or_new_impl E bs ys = Done (Ok bs') /\
    wbytes (encode_to (vec_encode E) (xs ++ ys)) = Done bs'.
Proof.
  intros HE Hxs Hys Hb Hi Hl Hf. apply (append_or_new_correct E wf xs ys bs items); try done.
  by apply (encode_sound (EncodeLaws := vec_encode_laws E wf)).
Qed.

(** Appending to nothing encodes the items as a vector; items that would make the
    vector longer than [u32::MAX] are refused with an error. *)
Lemma append_new_and_overflow {T} (E : Encode T) wf :
  EncodeLaws E wf ->
  (forall ys items, Forall wf ys -> wbytes (wfor ys (encode_to E)) = Done items ->
     zlen ys <= prim_max U32 ->
     exists bs, append_or_new_impl E [] ys = Done (Ok bs) /\
       wbytes (encode_to (vec_encode E) ys) = Done bs) /\
  (forall xs ys bs, Forall wf xs -> wbytes (encode_to (vec_encode E) xs) = Done bs ->
     zlen ys <= prim_max U32 < zlen (xs ++ ys) ->
     exists e, append_or_new_impl E bs ys = Done (Err e)).
Proof.
  intros HE. split.
  - intros ys items. apply (append_or_new_new E wf).
  - intros xs ys bs. apply (append_or_new_overflow E wf).
Qed.

(** The number of appended items is cut to 32 bits: a multiple of [2 ^ 32]
    items is written behind a length that does not count them. *)
Lemma append_truncates_count {T} (E : Encode T) wf xs ys bs items :
  EncodeLaws E wf -> Forall wf xs -> encode (vec_encode E) xs = Done bs ->
  wbytes (wfor ys (encode_to E)) = Done items -> zlen ys mod 2 ^ 32 = 0 -> 2 * zlen bs <= isize_max ->
  append_or_new_impl E bs ys = Done (Ok (bs ++ items)) /\
  decode_length (bs ++ items) = Done (Ok (zlen xs)).
Proof.
  intros HE Hxs Hb Hi Hm Hf.
  apply (encode_sound (EncodeLaws := vec_encode_laws E wf)) in Hb. split.
  - by apply (append_or_new_truncates E wf xs).
  - by apply (decode_length_slice E wf).
Qed.

(** C28: appending to nothing encodes the items as a vector; items that would
    make the vector longer than [u32::MAX] are refused with an error; but the
    number of appended items is cut to 32 bits first, so that a multiple of
    [2 ^ 32] items is written behind a length that does not count them. *)
Theorem append_limits {T} (E : Encode T) wf :
  EncodeLaws E wf ->
  (forall ys items, Forall wf ys -> wbytes (wfor ys (encode_to E)) = Done items ->
     zlen ys <= prim_max U32 ->
     exists bs, append_or_new_impl E [] ys = Done (Ok bs) /\
       wbytes (encode_to (vec_encode E) ys) = Done bs) /\
  (forall xs ys bs, Forall wf xs -> wbytes (encode_to (vec_encode E) xs) = Done bs ->
     zlen ys <= prim_max U32 < zlen (xs ++ ys) ->
     exists e, append_or_new_impl E bs ys = Done (Err e)) /\
  (forall xs ys bs items, Forall wf xs -> encode (vec_encode E) xs = Done bs ->
     wbytes (wfor ys (encode_to E)) = Done items -> zlen ys mod 2 ^ 32 = 0 -> 2 * zlen bs <= isize_max ->
     append_or_new_impl E bs ys = Done (Ok (bs ++ items)) /\
     decode_length (bs ++ items) = Done (Ok (zlen xs))).
Proof.
  intros HE. destruct (append_new_and_overflow E wf HE) as [Hn Ho]. split_and!; [done|done|].
  intros xs ys bs items. by apply (append_truncates_count E wf).
Qed.
End append.

Lemma append_spec_witness :
  exists bs', append_or_new_impl (prim_encode U8) [x04; x01] [2; 3] = Done (Ok bs') /\
    wbytes (encode_to (vec_encode (prim_encode U8)) ([1] ++ [2; 3])) = Done bs'.
Proof.
  apply (append_spec (prim_encode U8) (in_range U8) [1] [2; 3] [x04; x01] [x02; x03]);
    [apply _|by repeat constructor..|reflexivity|reflexivity|done|done].
Defined.


Lemma wbytes_units n : wbytes (wfor (repeat tt n) (encode_to unit_encode)) = Done [].
Proof. induction n; [done|exact IHn]. Qed.

Lemma append_limits_witness :
  (exists bs, append_or_new_impl unit_encode [] [tt; tt] = Done (Ok bs) /\
     wbytes (encode_to (vec_encode unit_encode) [tt; tt]) = Done bs) /\
  append_or_new_impl unit_encode [x04] (repeat tt (Z.to_nat (2 ^ 32))) = Done (Ok ([x04] ++ [])) /\
  decode_length ([x04] ++ []) = Done (Ok (zlen [tt])).
Proof.
  destruct (append_limits unit_encode (fun _ => True)) as (Hnew & _ & Htrunc); [apply _|]. split.
  - apply (Hnew _ []); [by repeat constructor|reflexivity|done].
  - apply (Htrunc [tt]); [by repeat constructor|reflexivity|apply wbytes_units| |done].
    unfold zlen. rewrite repeat_length, Z2Nat.id by lia. reflexivity.
Defined.
