(* ===== verification/DerivedTypes.v ===== *)
(** * Bounds on lengths, derived implementations, errors

    The main properties of [MaxEncodedLen] and [ConstEncodedLen], of the derive
    macros and of the chain of errors, each with an instance at concrete
    values. *)

From S2P Require Import Prelude Ints Errors Input Discipline Output Traits Primitives Compact.
From S2P Require Import CompactTheory Sequences SequencesTheory Composite MaxLen Derive DeriveTheory.

#[local] Existing Instance x86_64 | 100.

(** ** Bounds on lengths *)

Section lengths.
Context `{Target}.

(** [max_encoded_len()] of a compact integer bounds its encodings, and that
    of a tuple, an option, a result, an array, a pointer or a range does so when
    those of the components do. *)
Theorem max_encoded_len_spec {A B} (EA : Encode A) (EB : Encode B) wfA wfB n m :
  EncodeLaws EA wfA -> MaxEncodedLen EA wfA n -> MaxEncodedLen EB wfB m ->
  (forall c, MaxEncodedLen (compact_encode c) (in_range (compact_prim c)) (compact_max_len c)) /\
  (forall s, MaxEncodedLen (tuple_encode s EA EB) (tuple_wf wfA wfB) (tuple_max_len [n; m])) /\
  (forall s, MaxEncodedLen (option_encode s EA) (option_wf wfA) (option_max_len n)) /\
  (forall s, MaxEncodedLen (result_encode s EA EB) (result_wf wfA wfB) (result_max_len n m)) /\
  (forall N, MaxEncodedLen (array_encode EA N) (array_wf wfA N) (array_max_len n N)) /\
  MaxEncodedLen (pointer_encode EA) wfA (box_max_len n) /\
  (forall s, MaxEncodedLen (range_encode s EA) (fun r => wfA (start r) /\ wfA (end_ r)) (range_max_len n)).
Proof. intros HE HA HB. split_and!; intros; apply _. Qed.

(** Every encoding of a number, a non-zero number, a boolean or a duration
    has exactly the length [max_encoded_len()], and so has that of a tuple, an
    array, a pointer or a range when the components' encodings do. *)
Theorem const_encoded_len_spec {A B} (EA : Encode A) (EB : Encode B) wfA wfB n m :
  EncodeLaws EA wfA -> ConstEncodedLen EA wfA n -> ConstEncodedLen EB wfB m ->
  (forall p, ConstEncodedLen (prim_encode p) (in_range p) (prim_max_len p) /\
     ConstEncodedLen (non_zero_encode p) (non_zero_range p) (prim_max_len p)) /\
  ConstEncodedLen bool_encode (fun _ => True) bool_max_len /\
  (exists d, duration_max_len = Done d /\ ConstEncodedLen duration_encode duration_wf d) /\
  (forall s, ConstEncodedLen (tuple_encode s EA EB) (tuple_wf wfA wfB) (tuple_max_len [n; m])) /\
  (forall N, ConstEncodedLen (array_encode EA N) (array_wf wfA N) (array_max_len n N)) /\
  ConstEncodedLen (pointer_encode EA) wfA (box_max_len n) /\
  (forall s, ConstEncodedLen (range_encode s EA) (fun r => wfA (start r) /\ wfA (end_ r)) (range_max_len n)).
Proof.
  intros HE HA HB. split_and!; intros; try apply _; [split; apply _|].
  exists 12. split; [|apply duration_const_len]; apply duration_max_len_12.
Qed.
End lengths.

Lemma max_encoded_len_spec_witness :
  (forall c, MaxEncodedLen (compact_encode c) (in_range (compact_prim c)) (compact_max_len c)) /\
  (forall s, MaxEncodedLen (tuple_encode s (prim_encode U8) (compact_encode CU32))
     (tuple_wf (in_range U8) (in_range U32)) (tuple_max_len [1; 5])) /\
  (forall s, MaxEncodedLen (option_encode s (prim_encode U8)) (option_wf (in_range U8)) (option_max_len 1)) /\
  (forall s, MaxEncodedLen (result_encode s (prim_encode U8) (compact_encode CU32))
     (result_wf (in_range U8) (in_range U32)) (result_max_len 1 5)) /\
  (forall N, MaxEncodedLen (array_encode (prim_encode U8) N) (array_wf (in_range U8) N) (array_max_len 1 N)) /\
  MaxEncodedLen (pointer_encode (prim_encode U8)) (in_range U8) (box_max_len 1) /\
  (forall s, MaxEncodedLen (range_encode s (prim_encode U8))
     (fun r => in_range U8 (start r) /\ in_range U8 (end_ r)) (range_max_len 1)).
Proof.
  apply max_encoded_len_spec; [apply _|apply const_max, (prim_const_len U8)|apply (compact_len_bound CU32)].
Defined.

Lemma const_encoded_len_spec_witness :
  (forall p, ConstEncodedLen (prim_encode p) (in_range p) (prim_max_len p) /\
     ConstEncodedLen (non_zero_encode p) (non_zero_range p) (prim_max_len p)) /\
  ConstEncodedLen bool_encode (fun _ => True) bool_max_len /\
  (exists d, duration_max_len = Done d /\ ConstEncodedLen duration_encode duration_wf d) /\
  (forall s, ConstEncodedLen (tuple_encode s (prim_encode U8) bool_encode)
     (tuple_wf (in_range U8) (fun _ => True)) (tuple_max_len [1; 1])) /\
  (forall N, ConstEncodedLen (array_encode (prim_encode U8) N) (array_wf (in_range U8) N) (array_max_len 1 N)) /\
  ConstEncodedLen (pointer_encode (prim_encode U8)) (in_range U8) (box_max_len 1) /\
  (forall s, ConstEncodedLen (range_encode s (prim_encode U8))
     (fun r => in_range U8 (start r) /\ in_range U8 (end_ r)) (range_max_len 1)).
Proof. apply const_encoded_len_spec; [apply _|apply (prim_const_len U8)|apply bool_const_len]. Defined.

(** ** Derived implementations *)

Section derived.
Context `{Target}.

(** A derived decoder never panics, on any input, and what it returns is
    well formed. *)
Lemma derived_enum_total {I} `{InputLaws I} {A} size_of name (vs : variants A) wf (i : I) :
  variants_ok vs wf ->
  exists r i', run (decode (enum_decode size_of name vs)) i = Done (r, i') /\
    forall x, r = Ok x -> wf x.
Proof.
  intros Hvs. apply (wb_run wf 0). apply wb_chained_byte. intros b. by apply decode_variants_wb.
Qed.

(** C11: a derived struct is encoded and decoded field by field, given lawful codecs
    of the fields that are not skipped.  Whatever values its skipped fields have, an
    encoded value comes back with the others as they were and the skipped ones at their
    defaults, so the value itself if they were there already; nothing but encodings is
    accepted if that is so of the fields; [decode_into], also that of a transparent
    struct, and [skip] agree with [decode]; and when a single field is left the methods
    of that field are used, with the bytes of the general code. *)
Theorem derived_struct_spec {A} size_of transparent name named (fs : fields A) wf :
  0 <= size_of -> fields_ok fs wf -> (transparent = true -> transparent_layout size_of fs) ->
  (forall x bs rest, wf (reset_skipped fs x) -> encode (struct_encode size_of fs) x = Done bs ->
     run (decode (struct_decode size_of transparent name named fs)) (bs ++ rest)
       = Done (Ok (reset_skipped fs x), rest)) /\
  (forall x, wf x -> reset_skipped fs x = x) /\
  (fields_canonical fs ->
     Canonical (struct_encode size_of fs) (struct_decode size_of transparent name named fs)) /\
  decode_into (struct_decode size_of transparent name named fs)
    ≃ decode (struct_decode size_of transparent name named fs) /\
  skip (struct_decode size_of transparent name named fs)
    ≃ dec_map (fun _ => tt) (decode (struct_decode size_of transparent name named fs)) /\
  (forall x, wbytes (encode_to (struct_encode size_of fs) x) = wbytes (encode_fields fs x)).
Proof.
  intros Hs Hfs Ht. pose proof (struct_codec_laws size_of transparent name named fs wf Hs Hfs Ht) as HC.
  split_and!.
  - intros x bs rest Hx Hb. apply (roundtrip (CodecLaws := HC) _ bs rest Hx).
    apply (encode_sound (EncodeLaws := codec_encode (CodecLaws := HC))) in Hb.
    by rewrite wbytes_struct, encode_fields_reset, <- (wbytes_struct size_of).
  - intros x. by apply reset_skipped_wf.
  - by apply struct_canonical with wf.
  - apply (decode_into_equiv (DecodeLaws := codec_decode (CodecLaws := HC))).
  - apply (skip_equiv (DecodeLaws := codec_decode (CodecLaws := HC))).
  - apply wbytes_struct.
Qed.

(** C12: an enum in which no two variants have the same index is accepted by the
    macro; a value of it comes back as the same variant; nothing but encodings is
    accepted if that is so of the fields; and the decoder never panics, on any
    input, and only returns well-formed values. *)
Theorem derived_enum_spec {A} size_of name (vs : variants A) wf :
  0 <= size_of -> variants_ok vs wf -> NoDup (indices vs 0) ->
  try_get_variants_ok vs = true /\
  (forall x bs rest, wf x -> encode (enum_encode size_of vs) x = Done bs ->
     run (decode (enum_decode size_of name vs)) (bs ++ rest) = Done (Ok x, rest)) /\
  (variants_canonical vs -> Canonical (enum_encode size_of vs) (enum_decode size_of name vs)) /\
  (forall I (HI : Input I), InputLaws I -> forall i : I,
     exists r i', run (decode (enum_decode size_of name vs)) i = Done (r, i') /\ forall x, r = Ok x -> wf x).
Proof.
  intros Hs Hvs Hnd. pose proof (enum_codec_laws size_of name vs wf Hs Hvs Hnd) as HC.
  split_and!; [by apply (distinct_indices_ok vs 0)| |apply enum_canonical|
    intros I HI HIL i; by apply derived_enum_total].
  intros x bs rest Hx Hb. apply (roundtrip (CodecLaws := HC) x bs rest Hx).
  by apply (encode_sound (EncodeLaws := enum_encode_laws size_of vs wf)).
Qed.

End derived.

(** [struct S { a: u16, #[codec(compact)] b: u32, #[codec(skip)] c: bool }]. *)
Definition example_struct : fields (Z * (Z * (bool * unit))) :=
  FCons (mkField "a" (FieldNone (prim_encode U16) (prim_decode U16)) 2 2)
    (FCons (mkField "b" (FieldCompact (compact_ref_encode CU32) id (compact_decode CU32) id) 4 5)
       (FCons (mkField "c" (FieldSkip false) 1 1) FNil)).

Definition example_wf (x : Z * (Z * (bool * unit))) : Prop :=
  in_range U16 x.1 /\ in_range U32 x.2.1 /\ x.2.2.1 = false /\ True.

Lemma example_struct_ok : fields_ok example_struct example_wf.
Proof.
  apply (fields_ok_cons _ _ _ _ (in_range U16) (fun y => in_range U32 y.1 /\ y.2.1 = false /\ True)).
  { apply prim_codec_laws. }
  apply (fields_ok_cons _ _ _ _ (in_range U32) (fun y => y.1 = false /\ True)).
  { exists (in_range U32), (in_range U32), (compact_encode CU32).
    split_and!; [apply (compact_ref_encode_laws CU32)|apply (compact_codec_laws CU32)|done|done|].
    intros x Hx. by exists x. }
  apply (fields_ok_cons _ _ _ _ (fun y => y = false) (fun _ => True)); [done|constructor].
Qed.

Lemma example_struct_bounded : fields_bounded example_struct example_wf.
Proof.
  apply (fields_bounded_cons _ _ _ _ (in_range U16) (fun y => in_range U32 y.1 /\ y.2.1 = false /\ True)).
  { apply const_max, (prim_const_len U16). }
  apply (fields_bounded_cons _ _ _ _ (in_range U32) (fun y => y.1 = false /\ True)).
  { split; [done|]. exact (max_encoded_len_bound (MaxEncodedLen := compact_len_bound CU32)). }
  apply (fields_bounded_cons _ _ _ _ (fun y => y = false) (fun _ => True)); [done|constructor].
Qed.

(** [enum E { A, #[codec(index = 15)] B(u8), C = 7 }]. *)
Definition example_enum : variants (unit + (Z * unit + (unit + Empty_set))) :=
  VCons (mkVariant "A" false None None true FNil)
    (VCons (mkVariant "B" false (Some 15) None false
              (FCons (mkField "0" (FieldNone (prim_encode U8) (prim_decode U8)) 1 2) FNil))
       (VCons (mkVariant "C" false None (Some 7) true FNil) VNil)).

Definition example_enum_wf (x : unit + (Z * unit + (unit + Empty_set))) : Prop :=
  match x with
  | inl a => false = false /\ True
  | inr r => match r with
             | inl b => false = false /\ (in_range U8 b.1 /\ True)
             | inr r => match r with inl c => false = false /\ True | inr _ => True end
             end
  end.

Lemma example_enum_ok : variants_ok example_enum example_enum_wf.
Proof.
  apply (variants_ok_cons _ _ (mkVariant "A" false None None true FNil)); [constructor|].
  apply (variants_ok_cons _ _ (mkVariant "B" false (Some 15) None false _)).
  { apply (fields_ok_cons _ _ _ _ (in_range U8) (fun _ => True)); [apply prim_codec_laws|constructor]. }
  apply (variants_ok_cons _ _ (mkVariant "C" false None (Some 7) true FNil)); constructor.
Qed.

Lemma example_enum_bounded : variants_bounded example_enum example_enum_wf.
Proof.
  apply (variants_bounded_cons _ _ (mkVariant "A" false None None true FNil)); [constructor|].
  apply (variants_bounded_cons _ _ (mkVariant "B" false (Some 15) None false _)).
  { apply (fields_bounded_cons _ _ _ _ (in_range U8) (fun _ => True));
      [apply const_max, (prim_const_len U8)|constructor]. }
  apply (variants_bounded_cons _ _ (mkVariant "C" false None (Some 7) true FNil)); constructor.
Qed.

(** [struct T { #[codec(skip)] c: bool, a: u16 }]. *)
Definition example_single : fields (bool * (Z * unit)) :=
  FCons (mkField "c" (FieldSkip true) 1 1)
    (FCons (mkField "a" (FieldNone (prim_encode U16) (prim_decode U16)) 2 2) FNil).

Lemma example_single_ok :
  fields_ok example_single (fun x => x.1 = true /\ in_range U16 x.2.1 /\ True).
Proof.
  apply (fields_ok_cons _ _ _ _ (fun y => y = true) (fun y => in_range U16 y.1 /\ True)); [done|].
  apply (fields_ok_cons _ _ _ _ (in_range U16) (fun _ => True)); [apply prim_codec_laws|constructor].
Qed.

Lemma derived_struct_spec_witness :
  run (decode (struct_decode 12 false "S" true example_struct)) ([x01; x02; xa8] ++ [x09])
    = Done (Ok (reset_skipped example_struct (513, (42, (true, tt)))), [x09]) /\
  reset_skipped example_struct (513, (42, (true, tt))) = (513, (42, (false, tt))) /\
  skip (struct_decode 12 false "S" true example_struct)
    ≃ dec_map (fun _ => tt) (decode (struct_decode 12 false "S" true example_struct)) /\
  wbytes (encode_to (struct_encode 4 example_single) (true, (258, tt)))
    = wbytes (encode_fields example_single (true, (258, tt))).
Proof.
  destruct (derived_struct_spec 12 false "S" true example_struct example_wf) as (Hrt & _ & _ & _ & Hskip & _);
    [done|apply example_struct_ok|done|].
  destruct (derived_struct_spec 4 false "T" true example_single _ ltac:(done) example_single_ok ltac:(done))
    as (_ & _ & _ & _ & _ & Hsingle).
  split_and!; [apply Hrt; [done|reflexivity]|reflexivity|exact Hskip|apply Hsingle].
Defined.

(** The fields of the example are canonical. *)
Lemma example_struct_canonical : fields_canonical example_struct.
Proof.
  split; [apply (prim_canonical U16)|split; [|done]].
  intros i c i' Hrun. exact (canonical (Canonical := compact_canonical CU32) i c i' Hrun).
Qed.

Lemma derived_enum_spec_witness :
  try_get_variants_ok example_enum = true /\
  run (decode (enum_decode 2 "E" example_enum)) ([x0f; x2a] ++ [x01]) = Done (Ok (inr (inl (42, tt))), [x01]) /\
  exists r i', run (decode (enum_decode 2 "E" example_enum)) [x03] = Done (r, i') /\
    forall x, r = Ok x -> example_enum_wf x.
Proof.
  destruct (derived_enum_spec 2 "E" example_enum example_enum_wf) as (Hv & Hrt & _ & Ht);
    [done|apply example_enum_ok|apply (bool_decide_unpack _); by vm_compute|].
  split_and!; [exact Hv|apply Hrt; [done|reflexivity]|apply Ht; apply _].
Defined.

(** The variant [B] of the example and its bytes. *)
Example example_enum_decodes :
  run (decode (enum_decode 2 "E" example_enum)) [x0f; x2a; x01] = Done (Ok (inr (inl (42, tt))), [x01]).
Proof. by vm_compute. Qed.


(** [struct S { #[codec(encoded_as = "Compact<u32>")] a: u32 }]. *)
Definition encoded_as_struct : fields (Z * unit) :=
  FCons (mkField "a" (FieldEncodedAs (compact_ref_encode CU32) id (compact_decode CU32) id)
           (prim_max_len U32) (compact_max_len CU32)) FNil.

(** A [u32] that is encoded as [Compact<u32>] can take more bytes than the bound
    derived for it. *)
Lemma encoded_as_exceeds_max_len :
  exists x bs, in_range U32 x /\ encode (struct_encode 4 encoded_as_struct) (x, tt) = Done bs /\
    struct_max_len encoded_as_struct < zlen bs.
Proof. exists 1073741824, [x03; x00; x00; x00; x40]. by vm_compute. Qed.

(** C37: the derived [max_encoded_len()] of a struct and of an enum bounds their
    encodings, provided that each field's contribution bounds the field; this is
    not so of a field with [encoded_as], which is counted by its own type: a [u32]
    that is encoded as [Compact<u32>] can take more bytes than the bound. *)
Theorem derived_max_len_spec :
  (forall `{Target} {A B} size_of (fs : fields A) (vs : variants B) wfs wfv,
     fields_ok fs wfs -> fields_bounded fs wfs -> variants_bounded vs wfv ->
     MaxEncodedLen (struct_encode size_of fs) wfs (struct_max_len fs) /\
     MaxEncodedLen (enum_encode size_of vs) wfv (enum_max_len vs)) /\
  exists x bs, in_range U32 x /\ encode (struct_encode 4 encoded_as_struct) (x, tt) = Done bs /\
    struct_max_len encoded_as_struct < zlen bs.
Proof.
  split; [|apply encoded_as_exceeds_max_len].
  intros Ht A B size_of fs vs wfs wfv Hok Hfs Hvs. split; [by apply struct_len_bound|by apply enum_len_bound].
Qed.

Lemma derived_max_len_spec_witness :
  MaxEncodedLen (struct_encode 12 example_struct) example_wf (struct_max_len example_struct) /\
  MaxEncodedLen (enum_encode 12 example_enum) example_enum_wf (enum_max_len example_enum).
Proof.
  apply (proj1 derived_max_len_spec);
    [apply example_struct_ok|apply example_struct_bounded|apply example_enum_bounded].
Defined.

(** ** Deviations *)

(** [enum E { #[codec(index = 1)] A, B }]: both variants have the index 1. *)
Definition duplicate_enum : variants (unit + (unit + Empty_set)) :=
  VCons (mkVariant "A" false (Some 1) None true FNil)
    (VCons (mkVariant "B" false None None true FNil) VNil).

(** Nothing keeps two variants from having the same index; the second one is
    then decoded as the first. *)
Theorem duplicate_index_not_injective :
  exists bs, encode (enum_encode 1 duplicate_enum) (inr (inl tt)) = Done bs /\
    encode (enum_encode 1 duplicate_enum) (inl tt) = Done bs /\
    run (decode (enum_decode 1 "E" duplicate_enum)) bs = Done (Ok (inl tt), []).
Proof. exists [x01]. by vm_compute. Qed.

(** An inclusive range that has been iterated to its end comes back as a range
    that has not. *)
Lemma range_inclusive_forgets_exhaustion :
  exists bs, encode (range_inclusive_encode 3 (prim_encode U8)) (mkRangeInclusive 5 5 true) = Done bs /\
    run (decode (range_inclusive_decode 3 (prim_decode U8))) bs
    = Done (Ok (mkRangeInclusive 5 5 false), []).
Proof. exists [x05; x05]. by vm_compute. Qed.

(** A value of an enum whose variants are all skipped is never encoded. *)
Lemma skipped_enum_never_encodes :
  encode (enum_encode 0 (VCons (mkVariant "A" true None None true FNil) VNil)) (inl tt)
  = Panic unbounded_recursion.
Proof. reflexivity. Qed.
